(* ===== verification/_CoqProject ===== *)
-Q . S2P
Prelude.v
Bytes.v
Time.v
ThreadGroup.v
FuturePool.v
Logger.v
Notify.v
Keys.v
KeyBuilder.v
Proto.v
Raftpb.v
Errors.v
RefDecimal.v
BalanceCalculator.v
Account.v
RocksEngine.v
EngineOpen.v
RefRocks.v
RefCodec.v
RaftLog.v
PeerStorage.v
StorageSpec.v
RaftCmd.v
Batch.v
Apply.v
ApplySpec.v
Peer.v
RaftNode.v
Node.v
Worker.v
Lru.v
RaftClient.v
PeerSpec.v
PollerSpec.v
Ticks.v
Internal.v
RocksDBState.v
MessageBroker.v
MessageQueue.v
LogConsumer.v
RaftKv.v
Transport.v
Pipeline.v
StateMachine.v
Wallet.v
Ledger.v
Durability.v
Money.v
Correctness.v
Config.v
Server.v
Persist.v
Gc.v
Scenarios.v
Replication.v
Replica.v
Service.v
Gateway.v
ServiceCorrectness.v
EndToEnd.v
Rpc.v
StartUp.v
