(* ===== verification/Prelude.v ===== *)
(** * Auticuro: a verification of the replicated wallet

    Auticuro is a wallet service kept consistent by a raft-replicated message queue.
    The program has two halves and a gateway, in Rust under [src/]:

    - the queue, [dependencies/tiny-mq]: clients' messages are batched into raft
      commands ([peer.rs]), persisted by the raft poller ([store.rs],
      [peer_storage.rs], [rocks_engine.rs]) on behalf of raft-rs, answered with their
      position by the apply worker ([apply.rs]), and read back from the log by a
      consumer thread ([message_queue_adapter.rs]); raft messages go to the other
      stores through [raft_client.rs];
    - the wallet, [firm-wallet-service]: the consumed commands are applied in order by
      one state machine ([state_machine.rs], [account.rs]) over accounts in memory, a
      write batch and RocksDB ([rocksdb_state.rs]); their events go to a broker
      ([message_broker.rs]) that joins them with the waiting gRPC requests
      ([service.rs]); old events are collected in the background ([gc.rs]);
    - the gateway, [infra-common/gateway_framework] and [firm_wallet_gateway.rs], which
      forwards the requests of clients to the store that leads.

    ** How the code is modelled

    Pure functions are functions, fallible ones return [result] (an error is a value)
    or [run] (a panic ends the thread), state is passed explicitly, and the peer,
    whose operations thread much state, is a state monad ([Peer.poll]).  Structs are
    records and enums inductive types, with the names of the source.  u64 arithmetic
    wraps ([+u], [-u]) as in a release build; [f64] is the IEEE double of the Standard
    Library.  Callbacks are the channels they answer on, and every operation returns
    what it sends.  Clocks are arguments; calls of the logger and metrics are left out.

    Code that is not in the repository is a type class with named laws, and every law
    is witnessed by an instance: RocksDB ([RocksEngine.RocksDB], [RefRocks]), the
    decimals of bigdecimal ([BalanceCalculator.BigDecimal], [RefDecimal]), protobuf
    serialisation ([Proto.ProtoMessage], [RefCodec]) and raft-rs ([Peer.RawNode],
    [RaftNode]: what the storage relies on of it, and the only voter of a group as a
    concrete node), the opening of databases ([EngineOpen.RocksOpen]), the crate time and
    the binary heap ([Time]), slog, its decorators and serde_json ([Logger]), gRPC, hyper
    and the texts of IPv6 addresses ([Server]).

    ** The files

    - [Prelude], [Bytes]: outcomes, wrapping integers, byte strings and their order,
      tactics ([simplify_run]) and hint databases.
    - [Keys] ([keys.rs]), [Proto] (the wallet's .proto files), [Raftpb] (those of
      raft and tiny-mq), [Errors] ([errors/*.rs]), [RocksEngine] ([rocks_engine.rs]:
      values, batches with save points, scans), [EngineOpen] (its databases created and
      opened, the bounds of its iterators).
    - The queue.  [RaftLog] ([rocks_engine.rs]: reading, appending, collecting the raft
      log); [PeerStorage] ([peer_storage.rs], [bootstrap.rs]) and [StorageSpec], its
      abstract log, the relation [storage_step] of everything that happens to it
      (a Ready, a commit, an apply, a collection, a restart) and the invariant;
      [RaftCmd] ([errors.rs], [cmd_resp.rs], [msg.rs], [util.rs]); [Batch] (the batch
      builder of [peer.rs]); [Apply] and [ApplySpec] ([apply.rs]); [Peer], [PeerSpec],
      [PollerSpec] ([peer.rs], the poller of [store.rs], [raftlog_gc.rs]); [Ticks], the
      poller with its mailbox, its router and its timer ([store.rs], [msg.rs]);
      [LogConsumer] ([message_queue_adapter.rs]); [RaftKv] ([storage.rs], [raftkv.rs],
      [kv.rs]); [Pipeline], their composition; [Node] ([node.rs], the set-up of
      [store.rs]), how a store comes up; [Server] ([server.rs], [status_server.rs],
      [startup.rs], [main.rs]), the servers around it and the environment.
    - The transport.  [RaftClient] ([raft_client.rs]) over [Lru] ([tikv-util]'s
      [lru.rs], with its raw pointers as explicit memory); [Transport], from the poller
      of one store to the mailbox of another.
    - The library [tikv-util].  [Worker] ([worker/pool.rs]), [KeyBuilder]
      ([keybuilder.rs]), [Time] ([time.rs], [timer.rs]), [FuturePool] ([yatp_pool/]),
      [Notify] ([future.rs]), [ThreadGroup] ([thread_group.rs], [lib.rs], [macros.rs]),
      [Logger] ([logger/], with the handlers of [status_server.rs]).
    - The wallet.  [BalanceCalculator], [Account], [Internal], [RocksDBState],
      [MessageBroker], [MessageQueue], [StateMachine], [Config], [Gc], [Service]
      follow the files of the same names.  [Wallet] is the invariant of the state
      machine, [Ledger] its specification (accounts, events and dedup table as maps),
      [Durability] flush and recovery, [Money] exact sums, [Correctness] the theorems,
      [Scenarios] concrete replicas, [ServiceCorrectness] the RPCs.
    - [Replication]: the wallet fed by the consumer of the raft log; [Replica]: the two
      threads and the channel between them, with crashes at any moment; [EndToEnd]: these
      threads, the broker and the waiting requests as one process; [Rpc]: the nine writing
      RPCs from the request over the queue to the response; [StartUp] ([start_up.rs],
      [main.rs]): the process with its store, its state machine and its servers.
    - [Persist]: the Postgres utilities of [infra-common].
    - [Gateway]: the search for the leader and the forwarding of calls.

    ** What is proved

    - The wallet implements the ledger: every command of a well-formed log is handled
      without a panic as the specification says, exactly once per command id, with
      its errors leaving no trace, and money is conserved ([Correctness], [Account]).
    - A replica is its log: flush, crash and recovery lose nothing ([crash_replay],
      [flush_recover]); fed by the consumer, it has the ledger of the committed log and
      any two replicas at one index agree ([Replication]).  The threads, the bounded
      channel, the flushes and the crashes may interleave in any way: the wallet remains
      a ledger of the log up to its applied index, where only accounts that are already
      marked as deleted depend on when it flushed ([Replica]).
    - The storage under raft-rs is the log it was given, over any interleaving of
      persisting, applying, collecting and restarting, and recovery never trips an
      assertion ([StorageSpec]); the poller and the apply worker only take such steps
      ([PollerSpec], [ApplySpec]).
    - No caller is lost: a command is answered or queued, a committed entry keeps its
      callbacks, the apply worker answers each once after the state is on disk, a batch
      gives each command its own responses ([PeerSpec], [ApplySpec], [Batch]); the
      broker answers each request at most once and joins every pair
      ([MessageBroker]).
    - From the log to the caller: whatever the threads, the broker, the requests and
      crashes do, a handler is answered at most once, with a timeout or with what the
      ledger of the log says to its own command, and no request is forgotten
      ([EndToEnd]).  Through the batch, the apply worker, the log, the consumer, the state
      machine and the broker, each writing RPC returns the response of its own command
      ([Rpc]).
    - The process comes up from its environment and unused paths with all its parts in
      the states from which the theorems above start, and serves what was registered on
      the port of its address ([StartUp]).
    - The position returned to a client is where the consumer finds its message
      ([Pipeline]); the consumer delivers every entry once and in order, and keeps up
      ([LogConsumer]).
    - The LRU cache never reads freed or uninitialised memory, leaks nothing and is the
      list of its entries ([Lru]); a connection delivers messages in the order they
      were pushed and a consumer that waits is woken ([RaftClient], [Transport]).
    - A failure of the leader resets it once however many calls see it, and a call
      is answered once some node leads ([Gateway]); a store that starts has the state it was left with
      ([Node]); a background worker runs its tasks in order, also those it was given
      before it was started ([Worker]).
    - Time: the ticks of a peer are never lost and never doubled ([Ticks]), a future that
      is driven by its wakers runs once and misses no wake-up ([Notify]), timers pop what
      is due in order ([Time]), a bounded pool overshoots at most by its spawners and its
      threads run their hooks in order ([FuturePool]), threads inherit tags and see the
      shutdown of their group ([ThreadGroup]).
    - A line of the log can be read back exactly ([Logger]); messages for Postgres are
      written in order, at least once ([Persist]); a database that was created is opened
      as it was left ([EngineOpen]).
    - Bounds: batch sizes, the compaction index, the ranges of queries, the broker's
      queues, the collection of events.
    - Where the code does not do what it means to, a theorem shows it: a transfer to
      oneself, a batch that names an account twice, flush timing visible to clients, a
      deleted account that reappears, a collection that the consumer does not notice,
      a collection that never ends, limits that overflow, a bootstrap that was interrupted
      and never starts again, a database whose creation was interrupted, a bound on
      pending tasks that concurrent schedulers pass, credentials read too early.

    ** Bounds and fuel

    Loops are structural on the list they go over, or on a number of turns that bounds
    them: the collections of the broker go over as many entries as there are
    ([MessageBroker]), [Lru.clear_loop] frees a record a turn, [RaftClient.fill_loop]
    has the room of its buffer, [RaftClient.send_loop] finds in its second turn the
    stream it loaded in the first, [Service.query_loop] reads a sequence number a turn.
    The event collection ([Gc.gc_loop]) takes its fuel as an argument and ends if it
    has one unit per event to delete ([gc_truncates]).  [Time.pop_all_before] has a unit
    per task of the heap, and [Logger.read_fields], the reader of the log format that
    only the specification uses, one per byte.  A thread is any number of its
    iterations.  Hypotheses bound indices and counters by 2^64, where the source wraps
    around.

    ** What is not modelled

    The installation of the logger ([setup.rs], [init_log]), the macros of [log.rs], and
    metrics: they have no effect on what the modelled parts compute.  The channel
    arguments of the gRPC server are settings of third-party code, and the names under which
    the threads of [start_up.rs] run are left out.  [create_stream_with_buffer] of
    [future.rs] has no caller.
    raft-rs, RocksDB, bigdecimal, gRPC, yatp, slog and the generated protobuf code are
    third-party.  Region splits, merges, snapshots and membership changes of [peer.rs]
    are [unreachable!] or commented out in the source. *)

From Stdlib Require Export ZArith Qcanon Lia.
From stdpp Require Export base tactics option list gmap strings sorting numbers.

(** ** Outcomes of Rust code

    [result E A] is Rust's [Result<A, E>]: an error is an ordinary value that
    the [?] operator propagates.  [run A] is the outcome of code that may
    panic ([unwrap] on [None] or [Err], [assert!], [unreachable!], an explicit
    [panic!]): a panic ends the thread, and no state is returned. *)

Inductive result (E A : Type) : Type :=
| Ok (a : A)
| Err (e : E).
Global Arguments Ok {E A} a.
Global Arguments Err {E A} e.

Inductive run (A : Type) : Type :=
| Returns (a : A)
| Panics.
Global Arguments Returns {A} a.
Global Arguments Panics {A}.

Global Instance result_ret {E} : MRet (result E) := λ A a, Ok a.
Global Instance result_bind {E} : MBind (result E) := λ A B f m,
  match m with Ok a => f a | Err e => Err e end.
Global Instance result_fmap {E} : FMap (result E) := λ A B f m,
  match m with Ok a => Ok (f a) | Err e => Err e end.

Global Instance run_ret : MRet run := λ A a, Returns a.
Global Instance run_bind : MBind run := λ A B f m,
  match m with Returns a => f a | Panics => Panics end.
Global Instance run_fmap : FMap run := λ A B f m,
  match m with Returns a => Returns (f a) | Panics => Panics end.

(** [map_err f r] is [r.map_err(f)]. *)
Definition map_err {E E' A} (f : E → E') (r : result E A) : result E' A :=
  match r with Ok a => Ok a | Err e => Err (f e) end.

(** [unwrap o] is [o.unwrap()] on an [Option]; [unwrap_ok] on a [Result]. *)
Definition unwrap {A} (o : option A) : run A :=
  match o with Some a => Returns a | None => Panics end.
Definition unwrap_ok {E A} (r : result E A) : run A :=
  match r with Ok a => Returns a | Err _ => Panics end.

(** [rust_assert b k] is [assert!(b); k]. *)
Definition rust_assert {A} (b : bool) (k : run A) : run A :=
  if b then k else Panics.

(** [is_ok r] decides whether a [Result] is [Ok]. *)
Definition is_ok {E A} (r : result E A) : bool :=
  match r with Ok _ => true | Err _ => false end.

Global Instance result_eq_dec {E A} `{EqDecision E, EqDecision A} :
  EqDecision (result E A).
Proof. solve_decision. Defined.

Section outcomes.
Context {E A B : Type}.
Implicit Types (m : result E A) (p : run A).

Lemma result_bind_Ok m (f : A → result E B) b :
  (m ≫= f) = Ok b ↔ ∃ a, m = Ok a ∧ f a = Ok b.
Proof. destruct m; cbn; naive_solver. Qed.

Lemma result_bind_Err m (f : A → result E B) e :
  (m ≫= f) = Err e ↔ m = Err e ∨ ∃ a, m = Ok a ∧ f a = Err e.
Proof. destruct m; cbn; naive_solver. Qed.

Lemma result_fmap_Ok m (f : A → B) b :
  (f <$> m) = Ok b ↔ ∃ a, m = Ok a ∧ b = f a.
Proof. destruct m; cbn; naive_solver. Qed.

Lemma run_bind_Returns p (f : A → run B) b :
  (p ≫= f) = Returns b ↔ ∃ a, p = Returns a ∧ f a = Returns b.
Proof. destruct p; cbn; naive_solver. Qed.

Lemma run_fmap_Returns p (f : A → B) b :
  (f <$> p) = Returns b ↔ ∃ a, p = Returns a ∧ b = f a.
Proof. destruct p; cbn; naive_solver. Qed.

Lemma unwrap_Returns (o : option A) a : unwrap o = Returns a ↔ o = Some a.
Proof. destruct o; cbn; naive_solver. Qed.

Lemma unwrap_ok_Returns m a : unwrap_ok m = Returns a ↔ m = Ok a.
Proof. destruct m; cbn; naive_solver. Qed.

Lemma rust_assert_Returns b p a :
  rust_assert b p = Returns a ↔ b = true ∧ p = Returns a.
Proof. destruct b; cbn; naive_solver. Qed.
End outcomes.

(** ** Automation

    [simplify_run] takes apart hypotheses that say that a sequence of
    fallible or panicking calls succeeded: every [?], [unwrap] and [assert!]
    on the way becomes a hypothesis of its own. *)

Ltac simplify_run_step :=
  match goal with
  | H : Ok _ = Ok _ |- _ => apply (inj Ok) in H || (injection H as H); subst
  | H : Err _ = Err _ |- _ => injection H as H; subst
  | H : Returns _ = Returns _ |- _ => injection H as H; subst
  | H : Ok _ = Err _ |- _ => discriminate H
  | H : Err _ = Ok _ |- _ => discriminate H
  | H : Returns _ = Panics |- _ => discriminate H
  | H : Panics = Returns _ |- _ => discriminate H
  | H : mret _ = _ |- _ => unfold mret, result_ret, run_ret in H
  | H : mbind _ _ = Ok _ |- _ => apply result_bind_Ok in H as (?&?&?)
  | H : fmap _ _ = Ok _ |- _ => apply result_fmap_Ok in H as (?&?&?)
  | H : mbind _ _ = Returns _ |- _ => apply run_bind_Returns in H as (?&?&?)
  | H : fmap _ _ = Returns _ |- _ => apply run_fmap_Returns in H as (?&?&?)
  | H : unwrap _ = Returns _ |- _ => apply unwrap_Returns in H
  | H : unwrap_ok _ = Returns _ |- _ => apply unwrap_ok_Returns in H
  | H : rust_assert _ _ = Returns _ |- _ => apply rust_assert_Returns in H as [??]
  | H : (_, _) = (_, _) |- _ => simplify_eq H
  | H : Some _ = Some _ |- _ => injection H as H; subst
  | H : (let '(_, _) := ?p in _) = _ |- _ => destruct p eqn:?
  end.
Ltac simplify_run := repeat (simplify_run_step; simplify_eq/=).

(** Case analysis on the branch a hypothesis took. *)
Ltac case_run :=
  repeat match goal with
  | H : context [if ?b then _ else _] |- _ =>
      lazymatch type of b with bool => destruct b eqn:? | _ => destruct b end;
      simplify_run
  | H : context [match ?x with _ => _ end] |- _ =>
      lazymatch type of H with _ = _ => destruct x eqn:?; simplify_run end
  end.

(** ** Machine integers

    [u64] and [usize] values are integers kept below [2^64].  The service is
    built with [cargo build --release], where overflow checks are off, so
    additions and subtractions wrap around. *)

Declare Scope u64_scope.
Delimit Scope u64_scope with u64.

Definition u64_modulus : Z := 2 ^ 64.
Definition u64_max : Z := u64_modulus - 1.
Definition is_u64 (z : Z) : Prop := (0 ≤ z < u64_modulus)%Z.
Definition u64_wrap (z : Z) : Z := z mod u64_modulus.
Definition u64_add (a b : Z) : Z := u64_wrap (a + b).
Definition u64_sub (a b : Z) : Z := u64_wrap (a - b).

Infix "+u" := u64_add (at level 50, left associativity) : u64_scope.
Infix "-u" := u64_sub (at level 50, left associativity) : u64_scope.
Global Open Scope u64_scope.

Global Instance is_u64_dec z : Decision (is_u64 z).
Proof. unfold is_u64. apply _. Defined.

Section u64.
Local Open Scope Z_scope.

Lemma u64_wrap_small z : is_u64 z → u64_wrap z = z.
Proof. apply Z.mod_small. Qed.

Lemma u64_wrap_bound z : is_u64 (u64_wrap z).
Proof. apply Z.mod_pos_bound. reflexivity. Qed.

Lemma u64_add_small a b : is_u64 (a + b) → (a +u b) = a + b.
Proof. apply u64_wrap_small. Qed.

Lemma u64_sub_small a b : is_u64 (a - b) → (a -u b) = a - b.
Proof. apply u64_wrap_small. Qed.

Lemma u64_sub_le a b : is_u64 a → 0 ≤ b ≤ a → (a -u b) = a - b.
Proof. intros [??] ?. apply u64_sub_small. split; lia. Qed.
End u64.

Create HintDb wallet discriminated.
#[export] Hint Resolve u64_wrap_bound : wallet.

(** ** Lists *)

Lemma list_filter_all {A} (P : A → Prop) `{!∀ x, Decision (P x)} l : Forall P l → filter P l = l.
Proof. induction 1 as [|x l Hx _ IH]; [done|]. by rewrite filter_cons, decide_True, IH. Qed.
