(* ===== verification/Bytes.v ===== *)
(** * Byte strings

    [Vec<u8>] and [&[u8]] values, Rust's lexicographic order on them,
    [byteorder]'s big-endian integers, and the byte view of [str]. *)

From Stdlib Require Import Strings.Byte String.
From S2P Require Import Prelude.
Local Open Scope Z_scope.

Abbreviation bytes := (list byte).

Global Instance byte_eq_dec : EqDecision byte := Byte.byte_eq_dec.
Global Instance byte_countable : Countable byte :=
  inj_countable Byte.to_N Byte.of_N Byte.of_to_N.

(** ** Bytes as integers *)

Definition Z_of_byte (b : byte) : Z := Z.of_N (Byte.to_N b).
Definition byte_of_Z (z : Z) : byte :=
  match Byte.of_N (Z.to_N (z mod 256)) with Some b => b | None => Byte.x00 end.

Lemma Z_of_byte_range b : 0 ≤ Z_of_byte b < 256.
Proof. unfold Z_of_byte. pose proof (Byte.to_N_bounded b). lia. Qed.

Lemma Z_of_byte_of_Z z : Z_of_byte (byte_of_Z z) = z mod 256.
Proof.
  unfold byte_of_Z, Z_of_byte.
  pose proof (Z.mod_pos_bound z 256 ltac:(lia)) as Hm.
  destruct (Byte.of_N (Z.to_N (z mod 256))) as [b|] eqn:Hb.
  - apply Byte.to_of_N in Hb. rewrite Hb. lia.
  - apply Byte.of_N_None_iff in Hb. lia.
Qed.

Lemma byte_of_Z_of_byte b : byte_of_Z (Z_of_byte b) = b.
Proof.
  unfold byte_of_Z. pose proof (Z_of_byte_range b).
  rewrite Z.mod_small by done. unfold Z_of_byte. rewrite N2Z.id, Byte.of_to_N.
  done.
Qed.

Global Instance Z_of_byte_inj : Inj (=) (=) Z_of_byte.
Proof.
  intros a b Hab. by rewrite <-(byte_of_Z_of_byte a), Hab, byte_of_Z_of_byte.
Qed.

(** ** Lexicographic order, as [Ord for [u8]] and RocksDB's bytewise comparator *)

Fixpoint bytes_cmp (a b : bytes) : comparison :=
  match a, b with
  | [], [] => Eq
  | [], _ :: _ => Lt
  | _ :: _, [] => Gt
  | x :: a, y :: b =>
      match Z_of_byte x ?= Z_of_byte y with Eq => bytes_cmp a b | c => c end
  end.

Definition bytes_lt (a b : bytes) : Prop := bytes_cmp a b = Lt.
Definition bytes_ltb (a b : bytes) : bool :=
  match bytes_cmp a b with Lt => true | _ => false end.
Definition bytes_leb (a b : bytes) : bool :=
  match bytes_cmp a b with Gt => false | _ => true end.

Lemma bytes_ltb_spec a b : bytes_ltb a b = true ↔ bytes_lt a b.
Proof. unfold bytes_ltb, bytes_lt. destruct bytes_cmp; naive_solver. Qed.

Lemma bytes_cmp_refl a : bytes_cmp a a = Eq.
Proof. induction a as [|x a IH]; cbn; [done|]. by rewrite Z.compare_refl. Qed.

Lemma bytes_cmp_eq a b : bytes_cmp a b = Eq ↔ a = b.
Proof.
  split; [|intros ->; apply bytes_cmp_refl].
  revert b. induction a as [|x a IH]; intros [|y b]; cbn; try done.
  destruct (Z_of_byte x ?= Z_of_byte y) eqn:Hc; try done.
  apply Z.compare_eq_iff in Hc. intros Hab. f_equal; [by apply (inj Z_of_byte)|auto].
Qed.

Lemma bytes_cmp_antisym a b : bytes_cmp b a = CompOpp (bytes_cmp a b).
Proof.
  revert b. induction a as [|x a IH]; intros [|y b]; cbn; try done.
  rewrite (Z.compare_antisym (Z_of_byte x)).
  destruct (Z_of_byte x ?= Z_of_byte y); cbn; auto.
Qed.

Lemma bytes_lt_trans a b c : bytes_lt a b → bytes_lt b c → bytes_lt a c.
Proof.
  unfold bytes_lt. revert b c.
  induction a as [|x a IH]; intros [|y b] [|z c]; cbn; try done.
  destruct (Z.compare_spec (Z_of_byte x) (Z_of_byte y)),
    (Z.compare_spec (Z_of_byte y) (Z_of_byte z)),
    (Z.compare_spec (Z_of_byte x) (Z_of_byte z)); try done; try lia; eauto.
Qed.

Lemma bytes_lt_irrefl a : ¬ bytes_lt a a.
Proof. unfold bytes_lt. by rewrite bytes_cmp_refl. Qed.

Lemma bytes_leb_spec a b : bytes_leb a b = true ↔ ¬ bytes_lt b a.
Proof.
  unfold bytes_leb, bytes_lt. rewrite (bytes_cmp_antisym a b).
  destruct (bytes_cmp a b); cbn; naive_solver.
Qed.

Lemma bytes_cmp_app p a b : bytes_cmp (p ++ a) (p ++ b) = bytes_cmp a b.
Proof. induction p as [|x p IH]; cbn; [done|]. by rewrite Z.compare_refl. Qed.

Lemma bytes_cmp_app_l a b r1 r2 c :
  length a = length b → bytes_cmp a b = c → c ≠ Eq →
  bytes_cmp (a ++ r1) (b ++ r2) = c.
Proof.
  revert b. induction a as [|x a IH]; intros [|y b]; cbn; try naive_solver.
  intros [= Hl] Hc Hne. destruct (Z_of_byte x ?= Z_of_byte y); auto.
Qed.

(** ** Prefixes: [key.starts_with(prefix)] *)

Fixpoint starts_with (key prefix : bytes) {struct prefix} : bool :=
  match prefix, key with
  | [], _ => true
  | p :: prefix, k :: key => bool_decide (p = k) && starts_with key prefix
  | _ :: _, [] => false
  end.

Lemma starts_with_spec key prefix :
  starts_with key prefix = true ↔ ∃ rest, key = prefix ++ rest.
Proof.
  revert key. induction prefix as [|p prefix IH]; intros key; cbn.
  - split; intros _; [by exists key|reflexivity].
  - destruct key as [|k key].
    + split; [done|]. by intros [rest ?].
    + rewrite andb_true_iff, bool_decide_eq_true, IH. naive_solver.
Qed.

(** ** [byteorder::BigEndian] *)

Fixpoint be_bytes (n : nat) (z : Z) : bytes :=
  match n with
  | O => []
  | S n => byte_of_Z (z / 256 ^ Z.of_nat n) :: be_bytes n z
  end.

Fixpoint be_value (bs : bytes) : Z :=
  match bs with
  | [] => 0
  | b :: bs => Z_of_byte b * 256 ^ Z.of_nat (length bs) + be_value bs
  end.

(** [BigEndian::write_u64] into an 8-byte buffer. *)
Definition write_u64 (z : Z) : bytes := be_bytes 8 z.

(** [BigEndian::read_u64]: reads the first eight bytes of the slice and
    panics when there are fewer. *)
Definition read_u64 (bs : bytes) : run Z :=
  if (8 <=? length bs)%nat then Returns (be_value (take 8 bs)) else Panics.

Lemma length_be_bytes n z : length (be_bytes n z) = n.
Proof. induction n; cbn; auto. Qed.

Lemma be_value_be_bytes n z : be_value (be_bytes n z) = z mod 256 ^ Z.of_nat n.
Proof.
  induction n as [|n IH]; cbn [be_bytes be_value].
  - by rewrite Z.pow_0_r, Z.mod_1_r.
  - rewrite length_be_bytes, IH, Z_of_byte_of_Z.
    set (m := 256 ^ Z.of_nat n). assert (0 < m) by (unfold m; lia).
    replace (256 ^ Z.of_nat (S n)) with (m * 256)
      by (unfold m; rewrite Nat2Z.inj_succ, Z.pow_succ_r; lia).
    rewrite Z.rem_mul_r by lia. lia.
Qed.

Lemma length_write_u64 z : length (write_u64 z) = 8%nat.
Proof. apply length_be_bytes. Qed.

Lemma read_write_u64 z : is_u64 z → read_u64 (write_u64 z) = Returns z.
Proof.
  intros Hz. unfold read_u64, write_u64. rewrite length_be_bytes. cbn -[be_bytes].
  f_equal. rewrite firstn_all2 by (by rewrite length_be_bytes).
  rewrite be_value_be_bytes. by apply Z.mod_small.
Qed.

Lemma write_u64_inj a b : is_u64 a → is_u64 b → write_u64 a = write_u64 b → a = b.
Proof.
  intros Ha Hb Hab. pose proof (read_write_u64 a Ha) as Hra.
  rewrite Hab, read_write_u64 in Hra by done. by injection Hra.
Qed.

(** The encoding only depends on the number modulo the width. *)
Lemma be_bytes_mod m n z :
  (m ≤ n)%nat → be_bytes m (z mod 256 ^ Z.of_nat n) = be_bytes m z.
Proof.
  induction m as [|m IH]; intros ?; cbn; [done|]. f_equal; [|apply IH; lia].
  apply (inj Z_of_byte). rewrite !Z_of_byte_of_Z.
  replace (256 ^ Z.of_nat n) with (256 ^ Z.of_nat m * (256 * 256 ^ Z.of_nat (n - S m))).
  2:{ rewrite <-(Z.pow_succ_r 256), <-Z.pow_add_r by lia. f_equal. lia. }
  rewrite Z.rem_mul_r, (Z.mul_comm (256 ^ Z.of_nat m)), Z.div_add by lia.
  rewrite Z.div_small by (apply Z.mod_pos_bound; lia).
  by rewrite Z.add_0_l, Z.rem_mul_r, (Z.mul_comm 256), Z.mod_add, Z.mod_mod by lia.
Qed.

(** Big-endian encodings of the same width order like the numbers. *)
Lemma be_bytes_cmp n a b :
  0 ≤ a < 256 ^ Z.of_nat n → 0 ≤ b < 256 ^ Z.of_nat n →
  bytes_cmp (be_bytes n a) (be_bytes n b) = (a ?= b).
Proof.
  revert a b. induction n as [|n IH]; intros a b Ha Hb; cbn [be_bytes].
  - cbn in *. symmetry. apply Z.compare_eq_iff. lia.
  - rewrite Nat2Z.inj_succ, Z.pow_succ_r in Ha, Hb by lia. cbn [bytes_cmp].
    set (m := 256 ^ Z.of_nat n) in *. assert (0 < m) by (unfold m; lia).
    assert (∀ z, 0 ≤ z < 256 * m → 0 ≤ z / m < 256) as Hdiv.
    { intros z ?. split; [apply Z.div_pos; lia|apply Z.div_lt_upper_bound; lia]. }
    rewrite !Z_of_byte_of_Z, !(Z.mod_small (_ / m)) by auto.
    rewrite <-(be_bytes_mod n n a), <-(be_bytes_mod n n b), IH
      by (done || (apply Z.mod_pos_bound; lia)).
    fold m. pose proof (Z.div_mod a m ltac:(lia)). pose proof (Z.div_mod b m ltac:(lia)).
    pose proof (Z.mod_pos_bound a m ltac:(lia)). pose proof (Z.mod_pos_bound b m ltac:(lia)).
    destruct (Z.compare_spec (a / m) (b / m)), (Z.compare_spec (a mod m) (b mod m)),
      (Z.compare_spec a b); try done; nia.
Qed.

Lemma write_u64_cmp a b :
  is_u64 a → is_u64 b → bytes_cmp (write_u64 a) (write_u64 b) = (a ?= b).
Proof. intros. by apply be_bytes_cmp. Qed.

(** ** [str] values

    A Rust [String] or [&str] is its sequence of UTF-8 bytes; [as_bytes] is
    that sequence and [from_utf8] checks that a byte sequence is one (the
    table of RFC 3629, as [core::str::from_utf8] implements it). *)

Definition as_bytes (s : string) : bytes := String.list_byte_of_string s.

Definition in_range (lo hi : Z) (b : byte) : bool :=
  (lo <=? Z_of_byte b) && (Z_of_byte b <=? hi).
Definition continuation (b : byte) : bool := in_range 128 191 b.

Fixpoint utf8_valid (bs : bytes) : bool :=
  match bs with
  | [] => true
  | b1 :: r1 =>
      if in_range 0 127 b1 then utf8_valid r1 else
      match r1 with
      | [] => false
      | b2 :: r2 =>
          if in_range 194 223 b1 then continuation b2 && utf8_valid r2 else
          match r2 with
          | [] => false
          | b3 :: r3 =>
              if in_range 224 239 b1 then
                (if in_range 224 224 b1 then in_range 160 191 b2
                 else if in_range 237 237 b1 then in_range 128 159 b2
                 else continuation b2) && continuation b3 && utf8_valid r3
              else
              match r3 with
              | [] => false
              | b4 :: r4 =>
                  in_range 240 244 b1
                  && (if in_range 240 240 b1 then in_range 144 191 b2
                      else if in_range 244 244 b1 then in_range 128 143 b2
                      else continuation b2)
                  && continuation b3 && continuation b4 && utf8_valid r4
              end
          end
      end
  end.

Definition from_utf8 (bs : bytes) : option string :=
  if utf8_valid bs then Some (String.string_of_list_byte bs) else None.

(** The invariant of the Rust type [str]. *)
Definition is_str (s : string) : bool := utf8_valid (as_bytes s).

Lemma from_utf8_as_bytes s : is_str s = true → from_utf8 (as_bytes s) = Some s.
Proof.
  intros Hs. unfold from_utf8. unfold is_str in Hs. rewrite Hs.
  by rewrite String.string_of_list_byte_of_string.
Qed.

Global Instance as_bytes_inj : Inj (=) (=) as_bytes.
Proof.
  intros s t Hst. rewrite <-(String.string_of_list_byte_of_string s).
  rewrite <-(String.string_of_list_byte_of_string t). by f_equal.
Qed.

Example utf8_valid_examples :
  (is_str "account_a", utf8_valid [Byte.xc3; Byte.xa9], utf8_valid [Byte.xc0; Byte.x80],
   utf8_valid [Byte.xed; Byte.xa0; Byte.x80]) = (true, true, false, false).
Proof. reflexivity. Qed.
