(* ===== verification/Time.v ===== *)
(** * tikv-util/src/time.rs and timer.rs: durations, instants and timers

    Durations of the standard library are whole nanoseconds.  An [Instant] is a reading
    of one of two monotonic clocks, kept with its kind; differences on the coarse clock
    are in milliseconds.  The operating system's clocks are arguments; the arithmetic of
    the crate [time] is a class with its laws. *)

From S2P Require Import Prelude.
Local Open Scope Z_scope.

(** ** Durations *)

Definition NANOSECONDS_PER_SECOND : Z := 1000000000.
Definition MILLISECOND_PER_SECOND : Z := 1000.
Definition NANOSECONDS_PER_MILLISECOND : Z := 1000000.

(** [std::time::Duration]: nanoseconds, with [u64] seconds. *)
Abbreviation Duration := Z (only parsing).
Definition is_duration (d : Duration) : Prop := 0 ≤ d < u64_modulus * NANOSECONDS_PER_SECOND.
Definition as_secs (d : Duration) : Z := d / NANOSECONDS_PER_SECOND.
Definition subsec_nanos (d : Duration) : Z := d mod NANOSECONDS_PER_SECOND.
Definition from_millis (ms : Z) : Duration := ms * NANOSECONDS_PER_MILLISECOND.
Definition from_secs (s : Z) : Duration := s * NANOSECONDS_PER_SECOND.

Definition duration_to_ms (d : Duration) : Z :=
  u64_wrap (as_secs d * 1000) +u subsec_nanos d / 1000000.
Definition duration_to_nanos (d : Duration) : Z :=
  u64_wrap (as_secs d * 1000000000) +u subsec_nanos d.

(** ** Clock readings *)

Record Timespec := { ts_sec : Z; ts_nsec : Z }.
Definition ts_normal (t : Timespec) : Prop := 0 ≤ ts_nsec t < NANOSECONDS_PER_SECOND.
Definition ts_nanos (t : Timespec) : Z := ts_sec t * NANOSECONDS_PER_SECOND + ts_nsec t.
Definition ts_cmp (a b : Timespec) : comparison :=
  match ts_sec a ?= ts_sec b with Eq => ts_nsec a ?= ts_nsec b | c => c end.
Definition ts_geb (a b : Timespec) : bool := match ts_cmp a b with Lt => false | _ => true end.

(** The crate [time]: its durations are signed nanoseconds here; conversions from and to
    those of the standard library may fail. *)
Class TimeCrate := {
  from_std : Duration → option Z;
  to_std : Z → option Duration;
  ts_add : Timespec → Z → Timespec;
  ts_minus : Timespec → Z → Timespec;
  ts_sub : Timespec → Timespec → Z;
  from_std_max : Z;
  from_std_ok d : 0 ≤ d ≤ from_std_max → from_std d = Some d;
  to_std_ok n : 0 ≤ n → to_std n = Some n;
  ts_add_normal t n : ts_normal t → ts_normal (ts_add t n);
  ts_add_nanos t n : ts_normal t → ts_nanos (ts_add t n) = ts_nanos t + n;
  ts_minus_normal t n : ts_normal t → ts_normal (ts_minus t n);
  ts_minus_nanos t n : ts_normal t → ts_nanos (ts_minus t n) = ts_nanos t - n;
  ts_sub_nanos a b : ts_normal a → ts_normal b → ts_sub a b = ts_nanos a - ts_nanos b }.

(** ** [Instant] *)

Inductive Instant := Monotonic (t : Timespec) | MonotonicCoarse (t : Timespec).
Definition reading (i : Instant) : Timespec := match i with Monotonic t | MonotonicCoarse t => t end.

(** [i64] arithmetic wraps around. *)
Definition i64_wrap (z : Z) : Z := (z + 2 ^ 63) mod 2 ^ 64 - 2 ^ 63.
(** [i64 / i64] rounds towards zero. *)
Definition ts_ms (t : Timespec) : Z :=
  i64_wrap (i64_wrap (ts_sec t * MILLISECOND_PER_SECOND) + ts_nsec t ÷ NANOSECONDS_PER_MILLISECOND).

Section instant.
Context {TC : TimeCrate}.

Definition elapsed_duration (later earlier : Timespec) : run Duration :=
  if ts_geb later earlier then unwrap (to_std (ts_sub later earlier)) else Panics.
Definition elapsed_duration_coarse (later earlier : Timespec) : Duration :=
  let dur := i64_wrap (ts_ms later - ts_ms earlier) in
  if 0 <=? dur then from_millis dur else from_millis 0.

Definition duration_since (self earlier : Instant) : run Duration :=
  match self, earlier with
  | Monotonic later, Monotonic earlier => elapsed_duration later earlier
  | MonotonicCoarse later, MonotonicCoarse earlier =>
      Returns (elapsed_duration_coarse later earlier)
  | _, _ => Panics
  end.
(** [now] is a reading of the clock of the instant. *)
Definition elapsed (self : Instant) (now : Timespec) : run Duration :=
  match self with
  | Monotonic t => elapsed_duration now t
  | MonotonicCoarse t => Returns (elapsed_duration_coarse now t)
  end.

Definition instant_eq (a b : Instant) : bool :=
  match a, b with
  | Monotonic a, Monotonic b | MonotonicCoarse a, MonotonicCoarse b =>
      match ts_cmp a b with Eq => true | _ => false end
  | _, _ => false
  end.
Definition partial_cmp (a b : Instant) : option comparison :=
  match a, b with
  | Monotonic a, Monotonic b | MonotonicCoarse a, MonotonicCoarse b => Some (ts_cmp a b)
  | _, _ => None
  end.
(** [>=] and [<=] by [partial_cmp]. *)
Definition instant_ge (a b : Instant) : bool :=
  match partial_cmp a b with Some Gt | Some Eq => true | _ => false end.
Definition instant_le (a b : Instant) : bool :=
  match partial_cmp a b with Some Lt | Some Eq => true | _ => false end.

Definition checked_sub (self other : Instant) : run (option Duration) :=
  if instant_ge self other then d ← duration_since self other; Returns (Some d) else Returns None.

Definition on_reading (f : Timespec → Timespec) (i : Instant) : Instant :=
  match i with Monotonic t => Monotonic (f t) | MonotonicCoarse t => MonotonicCoarse (f t) end.
Definition instant_add (self : Instant) (other : Duration) : run Instant :=
  d ← unwrap (from_std other); Returns (on_reading (λ t, ts_add t d) self).
Definition instant_sub (self : Instant) (other : Duration) : run Instant :=
  d ← unwrap (from_std other); Returns (on_reading (λ t, ts_minus t d) self).

(** *** Arithmetic *)

Lemma ts_cmp_nanos a b : ts_normal a → ts_normal b → ts_cmp a b = (ts_nanos a ?= ts_nanos b).
Proof.
  unfold ts_normal, ts_nanos, ts_cmp, NANOSECONDS_PER_SECOND. intros Ha Hb.
  destruct (Z.compare_spec (ts_sec a) (ts_sec b)), (Z.compare_spec (ts_nsec a) (ts_nsec b));
    symmetry; rewrite ?Z.compare_eq_iff, ?Z.compare_lt_iff, ?Z.compare_gt_iff; nia.
Qed.
Lemma ts_nanos_inj a b : ts_normal a → ts_normal b → ts_nanos a = ts_nanos b → a = b.
Proof.
  destruct a as [sa na], b as [sb nb]. unfold ts_normal, ts_nanos, NANOSECONDS_PER_SECOND. cbn.
  intros Ha Hb Heq. assert (sa = sb) as -> by lia. by assert (na = nb) as -> by lia.
Qed.
Lemma ts_geb_nanos a b : ts_normal a → ts_normal b → ts_geb a b = (ts_nanos b <=? ts_nanos a).
Proof.
  intros Ha Hb. unfold ts_geb. rewrite ts_cmp_nanos by done.
  destruct (Z.compare_spec (ts_nanos a) (ts_nanos b)); lia.
Qed.

(** A reading whose milliseconds are in the range of [i64]. *)
Definition ts_in_range (t : Timespec) : Prop := - 2 ^ 52 ≤ ts_sec t < 2 ^ 52.
Lemma i64_wrap_small z : - 2 ^ 63 ≤ z < 2 ^ 63 → i64_wrap z = z.
Proof. intros Hz. unfold i64_wrap. rewrite Z.mod_small by lia. lia. Qed.
Lemma ts_ms_exact t : ts_normal t → ts_in_range t → ts_ms t = ts_nanos t / NANOSECONDS_PER_MILLISECOND.
Proof.
  unfold ts_normal, ts_in_range, ts_ms, ts_nanos, NANOSECONDS_PER_SECOND, NANOSECONDS_PER_MILLISECOND,
    MILLISECOND_PER_SECOND. intros Hn Hr.
  rewrite Z.quot_div_nonneg by lia.
  pose proof (Z.div_le_upper_bound (ts_nsec t) 1000000 1000 ltac:(lia) ltac:(lia)).
  pose proof (Z.div_pos (ts_nsec t) 1000000 ltac:(lia) ltac:(lia)).
  rewrite (i64_wrap_small (_ * _)) by lia. rewrite i64_wrap_small by lia.
  replace (ts_sec t * 1000000000) with (ts_sec t * 1000 * 1000000) by lia.
  by rewrite Z.div_add_l by lia.
Qed.

Lemma ts_ms_diff_range a b :
  ts_normal a → ts_normal b → ts_in_range a → ts_in_range b → - 2 ^ 63 ≤ ts_ms a - ts_ms b < 2 ^ 63.
Proof.
  assert (∀ t, ts_normal t → ts_in_range t → - 2 ^ 62 ≤ ts_ms t < 2 ^ 62) as H.
  { intros t Hn Hr. rewrite ts_ms_exact by done.
    unfold ts_normal, ts_in_range, ts_nanos, NANOSECONDS_PER_MILLISECOND, NANOSECONDS_PER_SECOND in *.
    split; [apply Z.div_le_lower_bound|apply Z.div_lt_upper_bound]; lia. }
  intros Ha Hb Hra Hrb. pose proof (H a Ha Hra). pose proof (H b Hb Hrb). lia.
Qed.

Lemma elapsed_exact later earlier :
  ts_normal later → ts_normal earlier → ts_nanos earlier ≤ ts_nanos later →
  elapsed_duration later earlier = Returns (ts_nanos later - ts_nanos earlier).
Proof.
  intros Hl He Hle. unfold elapsed_duration. rewrite ts_geb_nanos by done.
  rewrite (proj2 (Z.leb_le _ _)) by done. rewrite ts_sub_nanos by done.
  by rewrite to_std_ok by lia.
Qed.
Lemma elapsed_coarse_near later earlier :
  ts_normal later → ts_normal earlier → ts_in_range later → ts_in_range earlier →
  Z.abs (elapsed_duration_coarse later earlier - Z.max 0 (ts_nanos later - ts_nanos earlier)) <
    NANOSECONDS_PER_MILLISECOND.
Proof.
  intros Hl He Hrl Hre. unfold elapsed_duration_coarse.
  rewrite i64_wrap_small by (by apply ts_ms_diff_range).
  rewrite !ts_ms_exact by done. unfold from_millis, NANOSECONDS_PER_MILLISECOND.
  pose proof (Z.div_mod (ts_nanos later) 1000000 ltac:(lia)).
  pose proof (Z.div_mod (ts_nanos earlier) 1000000 ltac:(lia)).
  pose proof (Z.mod_pos_bound (ts_nanos later) 1000000 ltac:(lia)).
  pose proof (Z.mod_pos_bound (ts_nanos earlier) 1000000 ltac:(lia)).
  destruct (Z.leb_spec 0 (ts_nanos later / 1000000 - ts_nanos earlier / 1000000)); lia.
Qed.

(** Adding a duration to an instant and taking it off again, or measuring it, gives the
    instant and the duration back, the latter on the coarse clock to a millisecond. *)
Theorem instant_roundtrip i d :
  ts_normal (reading i) → ts_in_range (reading i) → 0 ≤ d ≤ from_std_max →
  ∃ j, instant_add i d = Returns j ∧ ts_normal (reading j) ∧ instant_sub j d = Returns i ∧
    (ts_in_range (reading j) → ∃ e, duration_since j i = Returns e ∧
       match i with
       | Monotonic _ => e = d
       | MonotonicCoarse _ => Z.abs (e - d) < NANOSECONDS_PER_MILLISECOND
       end).
Proof.
  intros Hn Hr Hd. exists (on_reading (λ t, ts_add t d) i).
  unfold instant_add, instant_sub. rewrite from_std_ok by done. cbn [unwrap mbind run_bind].
  split; [done|].
  assert (reading (on_reading (λ t, ts_add t d) i) = ts_add (reading i) d) as Hj by by destruct i.
  rewrite Hj. split; [by apply ts_add_normal|]. split.
  { f_equal. destruct i; cbn in *; f_equal; (apply ts_nanos_inj;
      [by apply ts_minus_normal, ts_add_normal|done|]);
      rewrite ts_minus_nanos, ts_add_nanos by auto using ts_add_normal; lia. }
  intros Hrj. destruct i as [t|t]; cbn in *.
  - exists d. split; [|done]. rewrite elapsed_exact; [..|rewrite ts_add_nanos by done; lia].
    + f_equal. rewrite ts_add_nanos by done. lia.
    + by apply ts_add_normal.
    + done.
  - eexists. split; [done|].
    pose proof (elapsed_coarse_near (ts_add t d) t ltac:(by apply ts_add_normal) Hn Hrj Hr) as He.
    rewrite ts_add_nanos in He by done. lia.
Qed.

(** [checked_sub] never panics, for instants of any kind: it is [None] unless both are of
    one kind and in order. *)
Theorem checked_sub_total a b :
  ts_normal (reading a) → ts_normal (reading b) →
  ∃ r, checked_sub a b = Returns r ∧ (is_Some r ↔ instant_ge a b = true).
Proof.
  intros Ha Hb. unfold checked_sub. destruct (instant_ge a b) eqn:Hge.
  2:{ exists None. split; [done|]. split; [by intros [? ?]|done]. }
  destruct a as [a|a], b as [b|b]; try done; cbn [duration_since].
  - rewrite elapsed_exact; [|done..|].
    + cbn. eexists. split; [done|]. split; eauto.
    + unfold instant_ge in Hge. cbn in Hge. rewrite ts_cmp_nanos in Hge by done.
      destruct (Z.compare_spec (ts_nanos a) (ts_nanos b)); done || lia.
  - cbn. eexists. split; [done|]. split; eauto.
Qed.

Lemma duration_to_ms_exact d :
  is_duration d → d / NANOSECONDS_PER_MILLISECOND < u64_modulus →
  duration_to_ms d = d / NANOSECONDS_PER_MILLISECOND.
Proof.
  unfold is_duration, duration_to_ms, as_secs, subsec_nanos, NANOSECONDS_PER_MILLISECOND,
    NANOSECONDS_PER_SECOND, u64_add, u64_wrap. intros Hd Hlt.
  rewrite Zplus_mod_idemp_l.
  assert (d / 1000000000 * 1000 + d mod 1000000000 / 1000000 = d / 1000000) as ->.
  { rewrite (Z.div_mod d 1000000000) at 3 by lia.
    replace (1000000000 * (d / 1000000000)) with (d / 1000000000 * 1000 * 1000000) by lia.
    by rewrite Z.div_add_l by lia. }
  apply Z.mod_small. split; [|done]. apply Z.div_pos; lia.
Qed.
End instant.

(** ** [SlowTimer], [Monitor] and [ThreadReadId] *)

Record SlowTimer := { slow_time : Duration; slow_t : Instant }.
Definition DEFAULT_SLOW_SECS : Z := 1.
Definition slow_timer_from (slow_time : Duration) (now_coarse : Timespec) : SlowTimer :=
  {| slow_time := slow_time; slow_t := MonotonicCoarse now_coarse |}.
Definition slow_timer_from_secs (secs : Z) := slow_timer_from (from_secs secs).
Definition slow_timer_from_millis (millis : Z) := slow_timer_from (from_millis millis).
Definition slow_timer_default := slow_timer_from_secs DEFAULT_SLOW_SECS.
Definition is_slow {TC : TimeCrate} (s : SlowTimer) (now : Timespec) : run bool :=
  e ← elapsed (slow_t s) now; Returns (slow_time s <=? e).

(** The loop of the monitor, over what the system clock shows before and after each of its
    sleeps: how often [on_jumped] is called. *)
Fixpoint monitor_loop (readings : list (Z * Z)) : nat :=
  match readings with
  | [] => 0
  | (before, after) :: readings => (if after <? before then 1 else 0) + monitor_loop readings
  end.

(** [READ_SEQUENCE] is the variable of the thread. *)
Record ThreadReadId := { read_sequence : Z; read_create_time : Timespec }.
Definition thread_read_id_new (READ_SEQUENCE : Z) (now : Timespec) : ThreadReadId * Z :=
  let seq := READ_SEQUENCE +u 1 in ({| read_sequence := seq; read_create_time := now |}, seq).

(** ** [Timer] *)

Record TimeoutTask (T : Type) := mkTask { next_tick : Instant; task : T }.
Global Arguments mkTask {T} _ _.
Global Arguments next_tick {T} _.
Global Arguments task {T} _.

(** [Ord for TimeoutTask]. *)
Definition task_cmp {T} (a b : TimeoutTask T) : run comparison :=
  unwrap (partial_cmp (next_tick a) (next_tick b)).
Definition task_le {T} (a b : TimeoutTask T) : Prop :=
  ∃ c, task_cmp a b = Returns c ∧ c ≠ Gt.

(** [std::collections::BinaryHeap] of reversed tasks: which of several least tasks is on
    top is not specified. *)
Class BinaryHeap (T : Type) := {
  Heap : Type;
  heap_new : Heap;
  heap_push : TimeoutTask T → Heap → Heap;
  heap_peek : Heap → option (TimeoutTask T);
  heap_pop : Heap → option (TimeoutTask T) * Heap;
  heap_items : Heap → list (TimeoutTask T);
  heap_new_items : heap_items heap_new = [];
  heap_push_items t h : heap_items (heap_push t h) ≡ₚ t :: heap_items h;
  heap_peek_pop h : heap_peek h = (heap_pop h).1;
  heap_pop_items h t h' : heap_pop h = (Some t, h') → heap_items h ≡ₚ t :: heap_items h';
  heap_pop_least h t h' : heap_pop h = (Some t, h') →
    (∀ a b, a ∈ heap_items h → b ∈ heap_items h → task_le a b ∨ task_le b a) →
    ∀ u, u ∈ heap_items h → task_le t u;
  heap_pop_empty h h' : heap_pop h = (None, h') → heap_items h = [] }.

Section timer.
Context {TC : TimeCrate} {T : Type} {H : BinaryHeap T}.

(** [now] is a reading of the monotonic clock. *)
Definition add_task (timeout : Duration) (t : T) (now : Timespec) (pending : Heap) : run Heap :=
  tick ← instant_add (Monotonic now) timeout; Returns (heap_push (mkTask tick t) pending).
Definition next_timeout (pending : Heap) : option Instant := next_tick <$> heap_peek pending.
Definition pop_task_before (instant : Instant) (pending : Heap) : option T * Heap :=
  if match heap_peek pending with Some t => instant_le (next_tick t) instant | None => false end
  then let '(t, pending) := heap_pop pending in (task <$> t, pending)
  else (None, pending).

(** Popping until [None], as callers do; a turn takes one task off. *)
Fixpoint pop_all_before (fuel : nat) (instant : Instant) (pending : Heap) : list T * Heap :=
  match fuel with
  | O => ([], pending)
  | S fuel =>
      match pop_task_before instant pending with
      | (Some t, pending) =>
          let '(ts, pending) := pop_all_before fuel instant pending in (t :: ts, pending)
      | (None, pending) => ([], pending)
      end
  end.

(** All ticks are readings of the monotonic clock. *)
Definition timer_ok (pending : Heap) : Prop :=
  ∀ t, t ∈ heap_items pending → ∃ ts, next_tick t = Monotonic ts ∧ ts_normal ts.
Definition due (instant : Instant) (t : TimeoutTask T) : Prop := instant_le (next_tick t) instant = true.
Global Instance due_dec instant t : Decision (due instant t).
Proof. unfold due. apply _. Defined.

Definition tick_nanos (t : TimeoutTask T) : Z := ts_nanos (reading (next_tick t)).
Definition task_ok (t : TimeoutTask T) : Prop := ∃ ts, next_tick t = Monotonic ts ∧ ts_normal ts.

Lemma task_le_nanos a b : task_ok a → task_ok b → task_le a b ↔ tick_nanos a ≤ tick_nanos b.
Proof.
  intros (ta & Ha & Hna) (tb & Hb & Hnb). unfold task_le, task_cmp, tick_nanos. rewrite Ha, Hb. cbn.
  rewrite ts_cmp_nanos by done. split.
  - intros (c & [= <-] & Hc). by apply Z.compare_le_iff.
  - intros Hle. eexists. split; [done|]. by apply Z.compare_le_iff.
Qed.
Lemma due_nanos now t :
  task_ok t → ts_normal now → due (Monotonic now) t ↔ tick_nanos t ≤ ts_nanos now.
Proof.
  intros (ts & Ht & Hn) Hnow. unfold due, instant_le, tick_nanos. rewrite Ht. cbn.
  rewrite ts_cmp_nanos by done. destruct (Z.compare_spec (ts_nanos ts) (ts_nanos now)); split; done || lia.
Qed.

Lemma heap_pop_min pending t pending' :
  timer_ok pending → heap_pop pending = (Some t, pending') →
  task_ok t ∧ timer_ok pending' ∧ ∀ u, u ∈ heap_items pending → tick_nanos t ≤ tick_nanos u.
Proof.
  intros Hok Hpop. pose proof (heap_pop_items _ _ _ Hpop) as Hp.
  assert (t ∈ heap_items pending) as Ht by (rewrite Hp; apply list_elem_of_here).
  split; [by apply Hok|]. split.
  { intros u Hu. apply Hok. rewrite Hp. by apply list_elem_of_further. }
  intros u Hu. rewrite <-task_le_nanos by (by apply Hok). eapply heap_pop_least; [done| |done].
  intros a b Ha Hb. rewrite !task_le_nanos by (by apply Hok). lia.
Qed.

(** Popping the tasks before an instant gives all tasks that are due, those whose time came
    first in front, and leaves the others on the timer, none of them due. *)
Theorem timer_pops_due fuel now pending :
  timer_ok pending → ts_normal now → (length (heap_items pending) ≤ fuel)%nat →
  ∃ popped pending', pop_all_before fuel (Monotonic now) pending = (task <$> popped, pending') ∧
    heap_items pending ≡ₚ popped ++ heap_items pending' ∧
    Forall (due (Monotonic now)) popped ∧ Forall (λ t, ¬ due (Monotonic now) t) (heap_items pending') ∧
    StronglySorted (λ a b, tick_nanos a ≤ tick_nanos b) popped ∧
    (pop_task_before (Monotonic now) pending').1 = None.
Proof.
  intros Hok Hnow. revert pending Hok. induction fuel as [|fuel IH]; intros pending Hok Hf.
  { assert (heap_items pending = []) as Hnil by (destruct (heap_items pending); [done|cbn in Hf; lia]).
    exists [], pending. rewrite Hnil. cbn. split_and!; try constructor.
    unfold pop_task_before. rewrite heap_peek_pop. destruct (heap_pop pending) as [[t|] p] eqn:Hp; [|done].
    apply heap_pop_items in Hp. rewrite Hnil in Hp. by apply Permutation_nil_cons in Hp. }
  cbn [pop_all_before]. destruct (heap_pop pending) as [[t|] pending'] eqn:Hpop.
  - destruct (heap_pop_min _ _ _ Hok Hpop) as (Ht & Hok' & Hmin).
    pose proof (heap_pop_items _ _ _ Hpop) as Hperm.
    assert (∀ u, u ∈ heap_items pending → due (Monotonic now) u → due (Monotonic now) t) as Hdue.
    { intros u Hu. rewrite !due_nanos by (done || by apply Hok). specialize (Hmin u Hu). lia. }
    unfold pop_task_before at 1. rewrite heap_peek_pop, Hpop. cbn [fst].
    destruct (instant_le (next_tick t) (Monotonic now)) eqn:Hle; cbn [fmap option_fmap option_map].
    + destruct (IH pending' Hok') as (popped & pending'' & Hr & Hp & Hd & Hn & Hs & Hlast).
      { apply Permutation_length in Hperm. cbn in Hperm. lia. }
      rewrite Hr. exists (t :: popped), pending''. split_and!; [done|by rewrite Hperm, Hp|by constructor|done| |done].
      constructor; [done|]. apply list.Forall_forall. intros u Hu. apply Hmin.
      rewrite Hperm, Hp. apply list_elem_of_further, elem_of_app. by left.
    + exists [], pending. split_and!; [done|done|done| |constructor|].
      * apply list.Forall_forall. intros u Hu Hd. apply (Hdue u Hu) in Hd. unfold due in Hd. congruence.
      * unfold pop_task_before. rewrite heap_peek_pop, Hpop. cbn. by rewrite Hle.
  - unfold pop_task_before at 1. rewrite heap_peek_pop, Hpop. cbn [fst].
    rewrite (heap_pop_empty _ _ Hpop) in *. exists [], pending. rewrite (heap_pop_empty _ _ Hpop).
    split_and!; try constructor. unfold pop_task_before. by rewrite heap_peek_pop, Hpop.
Qed.

(** A task that is added is due after its timeout and not before. *)
Theorem added_task_due timeout t now pending :
  timer_ok pending → ts_normal now → 0 ≤ timeout ≤ from_std_max →
  ∃ pending' added, add_task timeout t now pending = Returns pending' ∧ timer_ok pending' ∧
    heap_items pending' ≡ₚ added :: heap_items pending ∧ task added = t ∧
    ∀ later, ts_normal later → due (Monotonic later) added ↔ ts_nanos now + timeout ≤ ts_nanos later.
Proof.
  intros Hok Hnow Ht. unfold add_task, instant_add. rewrite from_std_ok by done. cbn.
  eexists _, _. split; [done|]. rewrite heap_push_items.
  assert (task_ok (mkTask (Monotonic (ts_add now timeout)) t)) as Hadd.
  { eexists. split; [done|]. by apply ts_add_normal. }
  split_and!; [|done|done|].
  - intros u Hu. rewrite heap_push_items in Hu. apply elem_of_cons in Hu as [->|Hu]; [done|by apply Hok].
  - intros later Hl. rewrite due_nanos by done. unfold tick_nanos. cbn. by rewrite ts_add_nanos by done.
Qed.
End timer.

(** ** The steady clock *)

(** [zero] is an instant of the standard library, in nanoseconds. *)
Record TimeZero := { tz_zero : Z; tz_steady_time_point : Timespec }.
Definition steady_now {TC : TimeCrate} (z : TimeZero) (n : Timespec) : run Z :=
  dur ← elapsed_duration n (tz_steady_time_point z); Returns (tz_zero z + dur).
(** When the delay that [SteadyTimer::delay] creates is over. *)
Definition steady_delay {TC : TimeCrate} (z : TimeZero) (n : Timespec) (dur : Duration) : run Z :=
  now ← steady_now z n; Returns (now + dur).

(** The clock runs at the speed of the raw monotonic clock: a delay is over when that has
    advanced by the duration. *)
Theorem steady_clock_exact {TC : TimeCrate} z n1 n2 dur :
  ts_normal (tz_steady_time_point z) → ts_normal n1 → ts_normal n2 →
  ts_nanos (tz_steady_time_point z) ≤ ts_nanos n1 ≤ ts_nanos n2 →
  ∃ deadline now, steady_delay z n1 dur = Returns deadline ∧ steady_now z n2 = Returns now ∧
    (deadline ≤ now ↔ dur ≤ ts_nanos n2 - ts_nanos n1).
Proof.
  intros Hz H1 H2 Hle. unfold steady_delay, steady_now. rewrite !elapsed_exact by (done || lia). cbn.
  eexists _, _. split_and!; [done..|]. lia.
Qed.

(** ** Instances for examples *)

Module ref_time.
Definition normalize (n : Z) : Timespec :=
  {| ts_sec := n / NANOSECONDS_PER_SECOND; ts_nsec := n mod NANOSECONDS_PER_SECOND |}.
Lemma normalize_normal n : ts_normal (normalize n).
Proof. unfold ts_normal, normalize. cbn. apply Z.mod_pos_bound. done. Qed.
Lemma normalize_nanos n : ts_nanos (normalize n) = n.
Proof. unfold ts_nanos, normalize. cbn. pose proof (Z.div_mod n NANOSECONDS_PER_SECOND ltac:(done)). lia. Qed.
End ref_time.
Global Instance ref_TimeCrate : TimeCrate.
Proof.
  refine {|
    from_std d := if d <=? 2 ^ 63 then Some d else None;
    to_std n := if 0 <=? n then Some n else None;
    ts_add t n := ref_time.normalize (ts_nanos t + n);
    ts_minus t n := ref_time.normalize (ts_nanos t - n);
    ts_sub a b := ts_nanos a - ts_nanos b;
    from_std_max := 2 ^ 63 |}; intros.
  - by rewrite (proj2 (Z.leb_le _ _)) by lia.
  - by rewrite (proj2 (Z.leb_le _ _)) by lia.
  - apply ref_time.normalize_normal.
  - apply ref_time.normalize_nanos.
  - apply ref_time.normalize_normal.
  - apply ref_time.normalize_nanos.
  - done.
Defined.

(** A day on the coarse clock, from half a second past. *)
Example instant_roundtrip_example :
  ∃ j, instant_add (MonotonicCoarse {| ts_sec := 7; ts_nsec := 500000000 |}) (from_secs 86400) = Returns j ∧
    instant_sub j (from_secs 86400) = Returns (MonotonicCoarse {| ts_sec := 7; ts_nsec := 500000000 |}).
Proof.
  destruct (instant_roundtrip (MonotonicCoarse {| ts_sec := 7; ts_nsec := 500000000 |}) (from_secs 86400))
    as (j & Ha & _ & Hs & _); [by vm_compute..|]. eauto.
Qed.
