(* ===== verification/ThreadGroup.v ===== *)
(** * tikv-util: names and groups of threads

    The tag of a thread is the part of its name behind the last separator; threads name
    those they start after themselves ([get_tag_from_thread_name] of lib.rs, [thd_name]
    of macros.rs).  The threads of a group share a flag that says whether the system is
    shutting down (thread_group.rs). *)

From Stdlib Require Import Ascii String.
From S2P Require Import Prelude.

(** ** Names *)

Abbreviation colon := ":"%char.

(** [str::split("::")]; [acc] is the piece so far, backwards. *)
Fixpoint split_colons (acc l : list ascii) : list (list ascii) :=
  match l with
  | [] => [reverse acc]
  | c :: l' =>
      match c, l' with
      | ":"%char, ":"%char :: rest => reverse acc :: split_colons [] rest
      | _, _ => split_colons (c :: acc) l'
      end
  end.

(** [thread] is the name of the current thread, if it has one. *)
Definition get_tag_from_thread_name (thread : option string) : option string :=
  match thread with
  | Some name =>
      string_of_list_ascii <$> list.last (drop 1 (split_colons [] (list_ascii_of_string name)))
  | None => None
  end.
Definition thd_name (name : string) (thread : option string) : string :=
  match get_tag_from_thread_name thread with
  | Some tag => name +:+ "::" +:+ tag
  | None => name
  end.

(** No separator inside. *)
Definition free (l : list ascii) : Prop := ∀ l1 l2, l ≠ l1 ++ colon :: colon :: l2.

Lemma free_tail c l : free (c :: l) → free l.
Proof. intros Hf l1 l2 ->. by apply (Hf (c :: l1) l2). Qed.

Lemma split_step acc c l :
  ¬ (c = colon ∧ head l = Some colon) → split_colons acc (c :: l) = split_colons (c :: acc) l.
Proof.
  intros Hn. destruct l as [|c' l]; [by destruct c as [[] [] [] [] [] [] [] []]|].
  destruct (decide (c = colon)) as [->|Hc]; [destruct (decide (c' = colon)) as [->|Hc']|].
  - by destruct Hn.
  - cbn. destruct c' as [[] [] [] [] [] [] [] []]; done.
  - cbn. destruct c as [[] [] [] [] [] [] [] []]; done.
Qed.

Lemma split_free acc l : free l → split_colons acc l = [reverse acc ++ l].
Proof.
  revert acc. induction l as [|c l IH]; intros acc Hf; [by rewrite app_nil_r|].
  rewrite split_step, IH; [by rewrite reverse_cons, <-app_assoc|by eapply free_tail|].
  intros [-> Hh]. destruct l as [|c' l]; [done|]. injection Hh as ->. by apply (Hf [] l).
Qed.

Lemma split_prefix acc l rest :
  colon ∉ l → split_colons acc (l ++ colon :: colon :: rest) = (reverse acc ++ l) :: split_colons [] rest.
Proof.
  revert acc. induction l as [|c l IH]; intros acc Hl; [by rewrite app_nil_r|].
  apply not_elem_of_cons in Hl as [Hc Hl]. cbn [app]. rewrite split_step by (intros [-> _]; done).
  rewrite IH by done. by rewrite reverse_cons, <-app_assoc.
Qed.

Lemma free_snoc l c : free l → (c = colon → list.last l ≠ Some colon) → free (l ++ [c]).
Proof.
  intros Hf Hc l1 l2 Heq. destruct l2 as [|c2 l2 _] using rev_ind.
  - change (l1 ++ [colon; colon]) with (l1 ++ [colon] ++ [colon]) in Heq. rewrite app_assoc in Heq.
    apply app_inj_tail in Heq as [-> ->]. apply Hc; [done|]. by rewrite last_snoc.
  - change (colon :: colon :: l2 ++ [c2]) with ((colon :: colon :: l2) ++ [c2]) in Heq.
    rewrite app_assoc in Heq. apply app_inj_tail in Heq as [-> _]. by apply (Hf l1 l2).
Qed.

(** The pieces of a text have no separator. *)
Lemma split_pieces acc l :
  free (reverse acc) → (head acc = Some colon → head l ≠ Some colon) → Forall free (split_colons acc l).
Proof.
  remember (length l) as n eqn:Hn. revert acc l Hn.
  induction (lt_wf n) as [n _ IH]. intros acc l -> Ha Hh. destruct l as [|c l]; [by repeat constructor|].
  destruct (decide (c = colon ∧ head l = Some colon)) as [[-> Hl]|Hsep].
  - destruct l as [|c' l]; [done|]. injection Hl as ->. cbn. constructor; [done|].
    eapply IH; [|reflexivity| |done]; [cbn; lia|]. by intros [] [].
  - rewrite split_step by done. eapply IH; [|reflexivity| |]; [cbn; lia| |].
    + rewrite reverse_cons. apply free_snoc; [done|]. intros ->. rewrite last_reverse. intros Hacc. by apply Hh.
    + intros [= ->]. intros Hl. by apply Hsep.
Qed.

Lemma tag_free thread tag :
  get_tag_from_thread_name thread = Some tag → free (list_ascii_of_string tag).
Proof.
  destruct thread as [name|]; [|done]. unfold get_tag_from_thread_name. intros (p & Hp & ->)%fmap_Some.
  rewrite list_ascii_of_string_of_list_ascii. apply last_Some in Hp as [l Hl].
  assert (p ∈ split_colons [] (list_ascii_of_string name)) as Hin.
  { eapply elem_of_sublist; [|apply (sublist_drop _ 1)]. rewrite Hl. apply elem_of_app. right. left. }
  eapply list.Forall_forall; [|exact Hin]. apply split_pieces; [|done]. by intros [] [].
Qed.

Lemma list_ascii_app s t :
  list_ascii_of_string (s +:+ t) = (list_ascii_of_string s ++ list_ascii_of_string t)%list.
Proof.
  induction s as [|c s IH]; [done|].
  change (c :: list_ascii_of_string (s +:+ t) = c :: (list_ascii_of_string s ++ list_ascii_of_string t))%list.
  by rewrite IH.
Qed.

(** A thread that is named with [thd_name] by another one has the tag of that thread, and
    none if that one has none: the tag goes to all the threads that a tagged thread starts,
    and to those that they start. *)
Theorem thread_tag_inherited name thread :
  colon ∉ list_ascii_of_string name →
  get_tag_from_thread_name (Some (thd_name name thread)) = get_tag_from_thread_name thread.
Proof.
  intros Hname. unfold thd_name. destruct (get_tag_from_thread_name thread) as [tag|] eqn:Htag.
  - unfold get_tag_from_thread_name. rewrite !list_ascii_app.
    change (list_ascii_of_string "::" ++ ?l)%list with (colon :: colon :: l).
    rewrite split_prefix by done. cbn [drop]. rewrite split_free by (by eapply tag_free).
    cbn. by rewrite string_of_list_ascii_of_string.
  - unfold get_tag_from_thread_name. rewrite split_free; [done|]. intros l1 l2 Heq. apply Hname. rewrite Heq. set_solver.
Qed.

Lemma thread_tag_inherited_witness :
  get_tag_from_thread_name (Some (thd_name "slogger" (Some "apply::wallet"%string))) = Some "wallet"%string.
Proof.
  transitivity (get_tag_from_thread_name (Some "apply::wallet"%string)); [|reflexivity].
  apply thread_tag_inherited. apply (bool_decide_unpack _). reflexivity.
Defined.

(** ** Groups *)

(** The flags of the groups, each shared by the handles of its group, and the thread-local
    handle of each thread. *)
Record Groups := { flags : gmap nat bool; properties : gmap nat nat }.

Definition current_properties (thread : nat) (w : Groups) : option nat := properties w !! thread.
Definition set_properties (thread : nat) (props : option nat) (w : Groups) : Groups :=
  {| flags := flags w;
     properties := partial_alter (λ _, props) thread (properties w) |}.
Definition props_mark_shutdown (props : nat) (w : Groups) : Groups :=
  {| flags := <[props := true]> (flags w); properties := properties w |}.
Definition mark_shutdown (thread : nat) (w : Groups) : Groups :=
  match properties w !! thread with Some props => props_mark_shutdown props w | None => w end.

(** [safe_panic!]: a thread that is already panicking only logs. *)
Definition safe_panic {A} (panicking : bool) (k : run A) : run A := if panicking then k else Panics.
Definition is_shutdown (thread : nat) (ensure_set panicking : bool) (w : Groups) : run bool :=
  match properties w !! thread with
  | Some props => Returns (default false (flags w !! props))
  | None => if ensure_set then safe_panic panicking (Returns false) else Returns false
  end.

(** What one thread of a group marks, every thread of that group sees, and no other. *)
Theorem mark_shutdown_group t t' props ensure panicking w :
  properties w !! t = Some props →
  is_shutdown t' ensure panicking (mark_shutdown t w)
  = if decide (properties w !! t' = Some props) then Returns true else is_shutdown t' ensure panicking w.
Proof.
  intros Ht. unfold mark_shutdown. rewrite Ht. unfold is_shutdown. cbn.
  destruct (properties w !! t') as [props'|] eqn:Ht'; [|by rewrite decide_False].
  case_decide as Heq.
  - injection Heq as ->. by rewrite lookup_insert_eq.
  - rewrite lookup_insert_ne by congruence. done.
Qed.

(** ** [MustConsumeVec]: a vector that may not be dropped with elements *)

Record MustConsumeVec (A : Type) := { mc_tag : string; mc_v : list A }.
Arguments mc_tag {A} m.
Arguments mc_v {A} m.
Definition must_consume_new {A} (tag : string) : MustConsumeVec A := {| mc_tag := tag; mc_v := [] |}.
Definition must_consume_push {A} (x : A) (m : MustConsumeVec A) : MustConsumeVec A :=
  {| mc_tag := mc_tag m; mc_v := mc_v m ++ [x] |}.

(** What is taken, and what stays. *)
Definition must_consume_take {A} (m : MustConsumeVec A) : MustConsumeVec A * MustConsumeVec A :=
  (m, must_consume_new (mc_tag m)).
Definition must_consume_drop {A} (panicking : bool) (m : MustConsumeVec A) : run unit :=
  match mc_v m with [] => Returns tt | _ => safe_panic panicking (Returns tt) end.

(** Whatever was pushed: what stays behind may be dropped, what was taken only by a thread that
    panics, unless nothing was pushed. *)
Theorem take_moves_the_leak {A} tag (xs : list A) panicking :
  let m := foldl (flip must_consume_push) (must_consume_new tag) xs in
  let '(taken, rest) := must_consume_take m in
  mc_v taken = xs ∧ mc_tag rest = tag ∧ must_consume_drop panicking rest = Returns tt ∧
  (must_consume_drop panicking taken = Panics ↔ xs ≠ [] ∧ panicking = false).
Proof.
  assert (∀ m, foldl (flip must_consume_push) m xs
    = {| mc_tag := mc_tag m; mc_v := mc_v m ++ xs |}) as Hm.
  { induction xs as [|x xs IH]; intros [t v]; cbn; [by rewrite app_nil_r|].
    rewrite IH. cbn. by rewrite <-app_assoc. }
  cbn. rewrite Hm. cbn. unfold must_consume_drop, safe_panic. cbn.
  split_and!; [done..|]. destruct xs, panicking; naive_solver.
Qed.
