(* ===== verification/FuturePool.v ===== *)
(** * tikv-util/src/yatp_pool: the future pool

    A pool of threads that runs futures, refuses new ones while too many run, and calls a
    ticker from its threads at most once in an interval.  The scheduling of the threads
    is yatp's: a task that is spawned runs at some time. *)

From S2P Require Import Prelude Time ThreadGroup.
Local Open Scope Z_scope.

(** ** The ticker: yatp_pool/mod.rs *)

Definition TICK_INTERVAL : Duration := from_secs 1.
Class PoolTicker (T : Type) := on_tick : T → T.

Record TickerWrapper (T : Type) := mkTicker { ticker : T; last_tick_time : Instant }.
Global Arguments mkTicker {T} _ _.
Global Arguments ticker {T} _.
Global Arguments last_tick_time {T} _.

Record PoolConfig := { workers : Z; max_tasks_per_worker : Z; stack_size : Z }.

Section ticker.
Context {TC : TimeCrate} {T : Type} `{!PoolTicker T}.

Definition ticker_new (t : T) (now_coarse : Timespec) : TickerWrapper T :=
  mkTicker t (MonotonicCoarse now_coarse).
Definition try_tick (now_coarse : Timespec) (tw : TickerWrapper T) : run (TickerWrapper T) :=
  let now := MonotonicCoarse now_coarse in
  d ← duration_since now (last_tick_time tw);
  if d <? TICK_INTERVAL then Returns tw
  else Returns (mkTicker (on_tick (ticker tw)) now).
Definition wrapper_on_tick (tw : TickerWrapper T) : TickerWrapper T :=
  mkTicker (on_tick (ticker tw)) (last_tick_time tw).

(** The ticks of [YatpPoolRunner::handle], over the clock after each task. *)
Fixpoint runner_handle (clocks : list Timespec) (tw : TickerWrapper T) : run (TickerWrapper T) :=
  match clocks with
  | [] => Returns tw
  | now :: clocks => tw ← try_tick now tw; runner_handle clocks tw
  end.
End ticker.

(** A ticker that counts. *)
Global Instance counting_ticker : PoolTicker nat := S.

(** Handling tasks never panics, whatever the coarse clock shows, and ticks at most once per
    interval of that clock. *)
Theorem ticker_rate {TC : TimeCrate} t0 clocks :
  Forall (λ t, ts_normal t ∧ ts_in_range t) (t0 :: clocks) →
  ∃ tw last, runner_handle clocks (ticker_new 0%nat t0) = Returns tw ∧
    last_tick_time tw = MonotonicCoarse last ∧ last ∈ t0 :: clocks ∧
    1000 * Z.of_nat (ticker tw) ≤ ts_ms last - ts_ms t0.
Proof.
  intros Hall.
  assert (∀ k from, from ∈ t0 :: clocks → 1000 * Z.of_nat k ≤ ts_ms from - ts_ms t0 →
    ∀ cs, cs ⊆ t0 :: clocks →
    ∃ tw last, runner_handle cs (mkTicker k (MonotonicCoarse from)) = Returns tw ∧
      last_tick_time tw = MonotonicCoarse last ∧ last ∈ t0 :: clocks ∧
      1000 * Z.of_nat (ticker tw) ≤ ts_ms last - ts_ms t0) as Hgen.
  2:{ apply (Hgen 0%nat t0); [apply list_elem_of_here|cbn; lia|]. intros x Hx. by apply list_elem_of_further. }
  intros k from Hfrom Hk cs. revert k from Hfrom Hk.
  induction cs as [|now cs IH]; intros k from Hfrom Hk Hsub; cbn [runner_handle].
  { exists (mkTicker k (MonotonicCoarse from)), from. done. }
  assert (now ∈ t0 :: clocks) as Hnow by (apply Hsub, list_elem_of_here).
  assert (cs ⊆ t0 :: clocks) as Hsub' by (intros x Hx; by apply Hsub, list_elem_of_further).
  unfold try_tick. cbn [last_tick_time duration_since mbind run_bind].
  destruct (Z.ltb_spec (elapsed_duration_coarse now from) TICK_INTERVAL) as [|Hge]; cbn [mbind run_bind].
  { by apply IH. }
  apply IH; [done| |done]. cbn [ticker]. unfold on_tick, counting_ticker.
  unfold elapsed_duration_coarse, from_millis, TICK_INTERVAL, from_secs, NANOSECONDS_PER_MILLISECOND,
    NANOSECONDS_PER_SECOND in Hge.
  rewrite list.Forall_forall in Hall. destruct (Hall _ Hnow) as [Hn Hr], (Hall _ Hfrom) as [Hn' Hr'].
  rewrite i64_wrap_small in Hge by (by apply ts_ms_diff_range).
  destruct (Z.leb_spec 0 (ts_ms now - ts_ms from)); lia.
Qed.

(** ** The builder and the runner of a thread: yatp_pool/mod.rs

    A hook is a closure that a thread of the pool calls; [H] names them. *)
Record YatpPoolBuilder (T H : Type) := mkBuilder {
  yb_name_prefix : option string;
  yb_ticker : TickerWrapper T;
  yb_after_start : option H;
  yb_before_stop : option H;
  yb_before_pause : option H;
  yb_min_thread_count : Z;
  yb_max_thread_count : Z;
  yb_stack_size : Z;
  yb_max_tasks : Z }.
Global Arguments mkBuilder {T H}.
Global Arguments yb_name_prefix {T H}.
Global Arguments yb_ticker {T H}.
Global Arguments yb_after_start {T H}.
Global Arguments yb_before_stop {T H}.
Global Arguments yb_before_pause {T H}.
Global Arguments yb_min_thread_count {T H}.
Global Arguments yb_max_thread_count {T H}.
Global Arguments yb_stack_size {T H}.
Global Arguments yb_max_tasks {T H}.

Record YatpPoolRunner (T H : Type) := mkRunner {
  yr_ticker : TickerWrapper T;
  yr_props : option nat;
  yr_after_start : option H;
  yr_before_stop : option H;
  yr_before_pause : option H }.
Global Arguments mkRunner {T H}.
Global Arguments yr_ticker {T H}.
Global Arguments yr_props {T H}.
Global Arguments yr_after_start {T H}.
Global Arguments yr_before_stop {T H}.
Global Arguments yr_before_pause {T H}.

(** What yatp's builder is told. *)
Record YatpOptions := {
  yo_name : string; yo_stack_size : Z; yo_min_thread_count : Z; yo_max_thread_count : Z }.

Definition u64_saturating_mul (a b : Z) : Z := Z.min (a * b) u64_max.

Section builder.
Context {TC : TimeCrate} {T H : Type} `{!PoolTicker T}.
Implicit Types (b : YatpPoolBuilder T H) (r : YatpPoolRunner T H) (w : Groups).

Definition pool_builder_new (t : T) (now_coarse : Timespec) : YatpPoolBuilder T H :=
  mkBuilder None (ticker_new t now_coarse) None None None 1 1 0 u64_max.
Definition pool_config (c : PoolConfig) b : YatpPoolBuilder T H :=
  mkBuilder (yb_name_prefix b) (yb_ticker b) (yb_after_start b) (yb_before_stop b)
    (yb_before_pause b) (workers c) (workers c) (stack_size c)
    (u64_saturating_mul (workers c) (max_tasks_per_worker c)).
Definition with_before_stop (f : H) b : YatpPoolBuilder T H :=
  mkBuilder (yb_name_prefix b) (yb_ticker b) (yb_after_start b) (Some f) (yb_before_pause b)
    (yb_min_thread_count b) (yb_max_thread_count b) (yb_stack_size b) (yb_max_tasks b).
Definition with_after_start (f : H) b : YatpPoolBuilder T H :=
  mkBuilder (yb_name_prefix b) (yb_ticker b) (Some f) (yb_before_stop b) (yb_before_pause b)
    (yb_min_thread_count b) (yb_max_thread_count b) (yb_stack_size b) (yb_max_tasks b).
Definition with_before_pause (f : H) b : YatpPoolBuilder T H :=
  mkBuilder (yb_name_prefix b) (yb_ticker b) (yb_after_start b) (yb_before_stop b) (Some f)
    (yb_min_thread_count b) (yb_max_thread_count b) (yb_stack_size b) (yb_max_tasks b).

(** [thread] builds the pool. *)
Definition runner_new (tw : TickerWrapper T) (after_start before_stop before_pause : option H)
    (thread : nat) w : YatpPoolRunner T H :=
  mkRunner tw (current_properties thread w) after_start before_stop before_pause.
Definition create_builder (thread : nat) w b : YatpOptions * YatpPoolRunner T H * YatpPoolBuilder T H :=
  ({| yo_name := default "" (yb_name_prefix b); yo_stack_size := yb_stack_size b;
      yo_min_thread_count := yb_min_thread_count b; yo_max_thread_count := yb_max_thread_count b |},
   runner_new (yb_ticker b) (yb_after_start b) (yb_before_stop b) (yb_before_pause b) thread w,
   mkBuilder (yb_name_prefix b) (yb_ticker b) None None None
     (yb_min_thread_count b) (yb_max_thread_count b) (yb_stack_size b) (yb_max_tasks b)).

(** The [Runner] of a thread, with the hooks it calls. *)
Definition runner_start (thread : nat) r w : list H * YatpPoolRunner T H * Groups :=
  (option_list (yr_after_start r),
   mkRunner (yr_ticker r) None None (yr_before_stop r) (yr_before_pause r),
   match yr_props r with Some props => set_properties thread (Some props) w | None => w end).
Definition runner_handle_task (now : Timespec) r : run (YatpPoolRunner T H) :=
  tw ← try_tick now (yr_ticker r);
  Returns (mkRunner tw (yr_props r) (yr_after_start r) (yr_before_stop r) (yr_before_pause r)).
Definition runner_pause r : list H := option_list (yr_before_pause r).
Definition runner_end r : list H * YatpPoolRunner T H :=
  (option_list (yr_before_stop r),
   mkRunner (wrapper_on_tick (yr_ticker r)) (yr_props r) (yr_after_start r) (yr_before_stop r)
     (yr_before_pause r)).

(** What yatp does with the runner of a thread between its start and its end. *)
Inductive RunnerEvent := RHandle (now : Timespec) | RPause | RResume.
Fixpoint runner_events (evs : list RunnerEvent) r : run (list H * YatpPoolRunner T H) :=
  match evs with
  | [] => Returns ([], r)
  | RHandle now :: evs => r ← runner_handle_task now r; runner_events evs r
  | RPause :: evs => '(hooks, r') ← runner_events evs r; Returns (runner_pause r ++ hooks, r')
  | RResume :: evs => runner_events evs r
  end.
Definition runner_life (thread : nat) (evs : list RunnerEvent) r w :
    run (list H * YatpPoolRunner T H * Groups) :=
  let '(started, r, w) := runner_start thread r w in
  '(hooks, r) ← runner_events evs r;
  let '(stopped, r) := runner_end r in
  Returns (started ++ hooks ++ stopped, r, w).

Definition coarse (tw : TickerWrapper T) : Prop := ∃ t, last_tick_time tw = MonotonicCoarse t.
Fixpoint pauses (evs : list RunnerEvent) : nat :=
  match evs with
  | [] => 0
  | RPause :: evs => S (pauses evs)
  | _ :: evs => pauses evs
  end.

Lemma try_tick_total now tw : coarse tw → ∃ tw', try_tick now tw = Returns tw' ∧ coarse tw'.
Proof.
  intros [t Ht]. unfold try_tick. rewrite Ht. cbn. destruct (_ <? _); eexists; (split; [done|]).
  - by exists t.
  - by exists now.
Qed.

Lemma runner_events_hooks evs r :
  coarse (yr_ticker r) →
  ∃ r', runner_events evs r
        = Returns (mjoin (replicate (pauses evs) (option_list (yr_before_pause r))), r') ∧
    yr_before_stop r' = yr_before_stop r.
Proof.
  revert r. induction evs as [|[now| |] evs IH]; intros r Hr; cbn [runner_events].
  - by exists r.
  - unfold runner_handle_task. destruct (try_tick_total now _ Hr) as (tw & -> & Htw).
    cbn [mbind run_bind]. by destruct (IH (mkRunner tw (yr_props r) (yr_after_start r)
      (yr_before_stop r) (yr_before_pause r)) Htw) as (r' & -> & ?); exists r'.
  - destruct (IH r Hr) as (r' & -> & ?). by exists r'.
  - destruct (IH r Hr) as (r' & -> & ?). by exists r'.
Qed.

(** The life of a thread of a pool that [builder] has built: nothing panics; it calls the hook
    after the start once, the hook before a pause at each pause, and the hook before the
    stop once; it is in the group of [builder], if that is in one.  The builder keeps none of
    its hooks: a second pool that it builds has no hooks. *)
Theorem pool_thread_life builder thread evs b w :
  coarse (yb_ticker b) →
  let '(_, r, b') := create_builder builder w b in
  (∃ r' w', runner_life thread evs r w = Returns
     (option_list (yb_after_start b) ++
      mjoin (replicate (pauses evs) (option_list (yb_before_pause b))) ++
      option_list (yb_before_stop b), r', w') ∧ flags w' = flags w ∧
     properties w' !! thread
     = match properties w !! builder with Some g => Some g | None => properties w !! thread end) ∧
  ∀ w2 r2 opts2 b2, create_builder builder w2 b' = (opts2, r2, b2) →
    ∃ r' w', runner_life thread evs r2 w2 = Returns ([], r', w').
Proof.
  intros Hb. cbn. split.
  - unfold runner_life. cbn. destruct (runner_events_hooks evs (mkRunner (yb_ticker b) None None
      (yb_before_stop b) (yb_before_pause b)) Hb) as (r' & -> & Hs). cbn. rewrite Hs.
    eexists _, _. split; [done|]. unfold current_properties.
    destruct (properties w !! builder) as [g|]; [|done]. split; [done|]. cbn. by rewrite lookup_partial_alter_eq.
  - intros w2 r2 opts2 b2 [= _ <- _]. unfold runner_life. cbn.
    destruct (runner_events_hooks evs (mkRunner (H:=H) (yb_ticker b) None None None None) Hb) as (r' & -> & Hs).
    cbn. rewrite Hs. cbn. rewrite app_nil_r. eexists _, _. do 3 f_equal.
    induction (pauses evs); [done|]. by cbn.
Qed.
End builder.

(** ** The pool: yatp_pool/future_pool.rs *)

Record Full := { current_tasks : Z; full_max_tasks : Z }.
(** The gauge and the counter are those of the metrics of the pool. *)
Record FuturePool := mkPool {
  fp_running_task_count : Z;
  fp_handled_task_count : Z;
  fp_pool_size : Z;
  fp_max_tasks : Z }.
Definition build_future_pool {T H} (b : YatpPoolBuilder T H) : FuturePool :=
  mkPool 0 0 (yb_max_thread_count b) (yb_max_tasks b).

Definition get_running_task_count (p : FuturePool) : Z := u64_wrap (fp_running_task_count p).
Definition gate_spawn (p : FuturePool) : result Full unit :=
  if fp_max_tasks p =? u64_max then Ok tt
  else
    let current_tasks := get_running_task_count p in
    if fp_max_tasks p <=? current_tasks
    then Err {| current_tasks := current_tasks; full_max_tasks := fp_max_tasks p |}
    else Ok tt.

(** The two ends of [spawn]: the task is counted and handed to the threads, and after the
    future is done it is counted off. *)
Definition spawn_counted (p : FuturePool) : FuturePool :=
  mkPool (fp_running_task_count p + 1) (fp_handled_task_count p) (fp_pool_size p) (fp_max_tasks p).
Definition task_done (p : FuturePool) : FuturePool :=
  mkPool (fp_running_task_count p - 1) (fp_handled_task_count p + 1) (fp_pool_size p) (fp_max_tasks p).

(** A future with the channel of its handle: the value it gives and a name for it. *)
Section pool.
Context {A : Type}.

(** The spawning threads, each past the gate with a future or not; the futures that wait or
    run; the values sent to the handles. *)
Record PoolState := mkPoolState {
  pl_pool : FuturePool;
  pl_spawners : list (option A);
  pl_tasks : list A;
  pl_sent : list A }.

Inductive pool_step : PoolState → PoolState → Prop :=
| pool_gate p spawners tasks sent i f :
    spawners !! i = Some None → gate_spawn p = Ok tt →
    pool_step (mkPoolState p spawners tasks sent)
      (mkPoolState p (<[i := Some f]> spawners) tasks sent)
| pool_spawn p spawners tasks sent i f :
    spawners !! i = Some (Some f) →
    pool_step (mkPoolState p spawners tasks sent)
      (mkPoolState (spawn_counted p) (<[i := None]> spawners) (tasks ++ [f]) sent)
| pool_done p spawners before f after sent :
    pool_step (mkPoolState p spawners (before ++ f :: after) sent)
      (mkPoolState (task_done p) spawners (before ++ after) (sent ++ [f])).

Definition pool_init (p : FuturePool) (threads : nat) : PoolState :=
  mkPoolState p (replicate threads None) [] [].

Fixpoint passed (spawners : list (option A)) : nat :=
  match spawners with
  | [] => 0
  | Some _ :: spawners => S (passed spawners)
  | None :: spawners => passed spawners
  end.

Lemma passed_insert_some (spawners : list (option A)) i f :
  spawners !! i = Some None → passed (<[i := Some f]> spawners) = S (passed spawners).
Proof.
  revert i. induction spawners as [|x l IH]; intros [|i] Hi; [done..| |].
  - by injection Hi as ->.
  - change (passed (x :: <[i := Some f]> l) = S (passed (x :: l))). specialize (IH i Hi).
    destruct x; cbn [passed]; lia.
Qed.
Lemma passed_insert_none (spawners : list (option A)) i f :
  spawners !! i = Some (Some f) → passed spawners = S (passed (<[i := None]> spawners)).
Proof.
  revert i. induction spawners as [|x l IH]; intros [|i] Hi; [done..| |].
  - by injection Hi as ->.
  - change (passed (x :: l) = S (passed (x :: <[i := None]> l))). specialize (IH i Hi).
    destruct x; cbn [passed]; lia.
Qed.
Lemma passed_le (spawners : list (option A)) : (passed spawners ≤ length spawners)%nat.
Proof. induction spawners as [|[|] l IH]; cbn in *; lia. Qed.

(** The gate and the count are two steps, so that every thread but one may have passed the
    gate on an old count: the futures of a pool are at most its limit and one less than
    the threads that spawn.  They are counted exactly, and each gives its handle one value,
    whether or not anyone waits for it. *)
Theorem pool_bound p threads s :
  0 < fp_max_tasks p < u64_max → Z.of_nat threads + fp_max_tasks p < u64_modulus →
  fp_running_task_count p = 0 → fp_handled_task_count p = 0 → (0 < threads)%nat →
  rtc pool_step (pool_init p threads) s →
  fp_running_task_count (pl_pool s) = Z.of_nat (length (pl_tasks s)) ∧
  fp_handled_task_count (pl_pool s) = Z.of_nat (length (pl_sent s)) ∧
  Z.of_nat (length (pl_tasks s)) ≤ fp_max_tasks p + Z.of_nat threads - 1.
Proof.
  intros Hmax Hu Hr Hh Hthreads Hs. remember (pool_init p threads) as s0 eqn:H0.
  assert (fp_max_tasks (pl_pool s0) = fp_max_tasks p ∧ length (pl_spawners s0) = threads ∧
    fp_running_task_count (pl_pool s0) = Z.of_nat (length (pl_tasks s0)) ∧
    fp_handled_task_count (pl_pool s0) = Z.of_nat (length (pl_sent s0)) ∧
    Z.of_nat (length (pl_tasks s0)) + Z.of_nat (passed (pl_spawners s0)) ≤
      fp_max_tasks p + Z.of_nat threads - 1) as Hinv.
  { subst. cbn. rewrite length_replicate. split_and!; [done..|].
    assert (passed (replicate threads None) = 0%nat) as ->; [|lia].
    clear. by induction threads. }
  clear H0. induction Hs as [s|s0 s1 s2 Hstep _ IH]; [split_and!; tauto || lia|]. apply IH. clear IH.
  destruct Hinv as (Hm & Hl & Hc & Hd & Hb).
  destruct Hstep as [q spawners tasks sent i f Hi Hg|q spawners tasks sent i f Hi|q spawners before f after sent];
    cbn in *; rewrite ?length_insert, ?length_app in *; cbn in *.
  - split_and!; [done..|]. rewrite (passed_insert_some _ _ _ Hi).
    pose proof (passed_le (<[i := Some f]> spawners)) as Hp. rewrite length_insert, (passed_insert_some _ _ _ Hi) in Hp.
    unfold gate_spawn in Hg. rewrite Hm in Hg. rewrite (proj2 (Z.eqb_neq _ _)) in Hg by lia.
    unfold get_running_task_count in Hg. rewrite Hc, u64_wrap_small in Hg by (split; lia).
    destruct (Z.leb_spec (fp_max_tasks p) (Z.of_nat (length tasks))); [done|]. lia.
  - rewrite (passed_insert_none _ _ _ Hi) in Hb. split_and!; done || lia.
  - split_and!; done || lia.
Qed.
End pool.
