(* ===== verification/Logger.v ===== *)
(** * The logger of tikv-util: logger/mod.rs, logger/formatter.rs, status_server.rs

    A record is written as one line of sections in brackets: time, level, source file,
    message and fields.  Texts that contain a character of the format are encoded as
    JSON strings.  The level below which records are dropped is a global variable that
    the status server changes.  slog's levels, the decorator that text is written to,
    serde_json and the clock are parameters. *)

From Stdlib Require Import Strings.Byte String.
From stdpp Require Import pretty.
From S2P Require Import Prelude Bytes.
Local Open Scope Z_scope.

(** ** Levels *)

Inductive Level := Critical | Error | Warning | Info | Debug | Trace.
Global Instance Level_eq_dec : EqDecision Level.
Proof. solve_decision. Defined.

(** slog's numbering of the levels. *)
Class SlogLevel := {
  as_usize : Level → Z;
  from_usize : Z → option Level;
  from_as_usize l : from_usize (as_usize l) = Some l;
  as_usize_bound l : 0 ≤ as_usize l ≤ u64_max;
  as_usize_mono : as_usize Critical < as_usize Error < as_usize Warning ∧
    as_usize Warning < as_usize Info < as_usize Debug ∧ as_usize Debug < as_usize Trace }.

(** [to_lowercase] is modelled on ASCII letters: no other character has a lower case
    within the names of the levels. *)
Definition lower_byte (b : byte) : byte :=
  if (65 <=? Z_of_byte b) && (Z_of_byte b <=? 90) then byte_of_Z (Z_of_byte b + 32) else b.
Definition get_level_by_string (lv : bytes) : option Level :=
  let lv := lower_byte <$> lv in
  if decide (lv = as_bytes "critical") then Some Critical
  else if decide (lv = as_bytes "error") then Some Error
  else if decide (lv = as_bytes "warning") then Some Warning
  else if decide (lv = as_bytes "warn") then Some Warning
  else if decide (lv = as_bytes "debug") then Some Debug
  else if decide (lv = as_bytes "trace") then Some Trace
  else if decide (lv = as_bytes "info") then Some Info
  else None.
Definition get_string_by_level (lv : Level) : bytes :=
  as_bytes match lv with
           | Critical => "critical" | Error => "error" | Warning => "warning"
           | Debug => "debug" | Trace => "trace" | Info => "info"
           end.
Definition get_unified_log_level (lv : Level) : bytes :=
  as_bytes match lv with
           | Critical => "FATAL" | Error => "ERROR" | Warning => "WARN"
           | Info => "INFO" | Debug => "DEBUG" | Trace => "TRACE"
           end.

(** The global [LOG_LEVEL], and whether a record passes it. *)
Definition LOG_LEVEL_INIT : Z := u64_max.
Definition get_log_level `{SlogLevel} (LOG_LEVEL : Z) : option Level := from_usize LOG_LEVEL.
Definition set_log_level `{SlogLevel} (new_level : Level) : Z := as_usize new_level.
Definition enabled `{SlogLevel} (LOG_LEVEL : Z) (l : Level) : bool := as_usize l <=? LOG_LEVEL.

(** ** Escaping: logger/formatter.rs *)

Definition file_name_byte (b : byte) : bool :=
  let z := Z_of_byte b in
  ((65 <=? z) && (z <=? 90)) || ((97 <=? z) && (z <=? 122)) || ((48 <=? z) && (z <=? 57)) ||
  (z =? 46) || (z =? 45) || (z =? 95).

(** [&s[from..to]] of a [str] panics unless it cuts between characters. *)
Definition is_char_boundary (s : bytes) (i : nat) : bool :=
  match s !! i with
  | Some b => (Z_of_byte b <? 128) || (192 <=? Z_of_byte b)
  | None => (i =? length s)%nat
  end.
Definition str_slice (s : bytes) (from to : nat) : run bytes :=
  if (from <=? to)%nat && is_char_boundary s from && is_char_boundary s to
  then Returns (take (to - from) (drop from s)) else Panics.

(** The pieces that [write_file_name] writes: [index] runs over the bytes, [start] is where
    the current piece begins. *)
Fixpoint file_name_pieces (file_name : bytes) (start index : nat) (bs : bytes) : run (list bytes) :=
  match bs with
  | [] =>
      if (start <? length file_name)%nat
      then s ← str_slice file_name start (length file_name); Returns [s]
      else Returns []
  | b :: bs =>
      if file_name_byte b then file_name_pieces file_name start (S index) bs
      else if (start <? index)%nat then
        s ← str_slice file_name start index;
        rest ← file_name_pieces file_name (S index) (S index) bs;
        Returns (s :: rest)
      else file_name_pieces file_name (S index) (S index) bs
  end.

Definition need_json_encode (bs : bytes) : bool :=
  existsb (λ b, let z := Z_of_byte b in
    (z <=? 32) || (z =? 34) || (z =? 61) || (z =? 91) || (z =? 93)) bs.

(** serde_json: a string as JSON text, and the reading of one at the front of a text. *)
Class Json := {
  json_string : bytes → bytes;
  json_read : bytes → option (bytes * bytes);
  json_read_string s rest : json_read (json_string s ++ rest) = Some (s, rest);
  json_quote s : ∃ rest, json_string s = byte_of_Z 34 :: rest }.

(** ** Writing *)

(** slog_term's [RecordDecorator]: a sink of text with changes of style. *)
Inductive Style := Timestamp | LevelStyle | Msg | Key | Separator | Value | Whitespace.
Class RecordDecorator (W E : Type) := {
  start : Style → W → result E unit * W;
  reset : W → result E unit * W;
  flush : W → result E unit * W;
  write_all : bytes → W → result E unit * W }.

(** An operation on the sink; the first error ends it. *)
Definition io (W E A : Type) : Type := W → run (result E A * W).
Global Instance io_ret {W E} : MRet (io W E) := λ A a w, Returns (Ok a, w).
Global Instance io_bind {W E} : MBind (io W E) := λ A B f m w,
  '(r, w) ← m w;
  match r with Ok a => f a w | Err e => Returns (Err e, w) end.
Definition lift_io {W E A} (m : W → result E A * W) : io W E A := λ w, Returns (m w).

Definition nl_str : string := String (Ascii.ascii_of_nat 10) EmptyString.

(** A value of a field, as slog hands it to the serializer. *)
Inductive FieldValue := NoneValue | Arguments (val : bytes).
Record LogRecord := {
  rec_level : Level;
  rec_file : bytes;
  rec_line : Z;
  rec_msg : bytes;
  rec_kv : list (bytes * FieldValue) }.

(** [Path::file_name] of a path: its last component, unless that is [..]. *)
Fixpoint split_slash (acc : bytes) (path : bytes) : list bytes :=
  match path with
  | [] => [acc]
  | b :: path =>
      if Z_of_byte b =? 47 then acc :: split_slash [] path else split_slash (acc ++ [b]) path
  end.
Definition path_file_name (path : bytes) : option bytes :=
  match list.last (filter (λ c, c ≠ [] ∧ c ≠ as_bytes ".") (split_slash [] path)) with
  | Some c => if decide (c = as_bytes "..") then None else Some c
  | None => None
  end.

Section format.
Context {W E : Type} {D : RecordDecorator W E} `{SlogLevel} {J : Json}.
Abbreviation io := (io W E).

Definition emit (bs : bytes) : io unit := lift_io (write_all bs).
Definition styled (s : Style) : io unit := lift_io (start s).
Fixpoint emit_all (l : list bytes) : io unit :=
  match l with [] => mret tt | bs :: l => emit bs;; emit_all l end.

Definition write_file_name (file_name : bytes) : io unit := λ w,
  pieces ← file_name_pieces file_name 0 0 file_name; emit_all pieces w.
Definition write_escaped_str (value : bytes) : io unit :=
  if negb (need_json_encode value) then emit value else emit (json_string value).

(** [timestamp] is the formatted local time. *)
Definition write_log_header (timestamp : bytes) (r : LogRecord) : io unit :=
  styled Timestamp;;
  emit (as_bytes "[" ++ timestamp ++ as_bytes "]");;
  styled Whitespace;;
  emit (as_bytes " ");;
  styled LevelStyle;;
  emit (as_bytes "[" ++ get_unified_log_level (rec_level r) ++ as_bytes "]");;
  styled Whitespace;;
  emit (as_bytes " ");;
  styled Msg;;
  match path_file_name (rec_file r) with
  | Some path =>
      emit (as_bytes "[");; write_file_name path;;
      emit (as_bytes ":" ++ as_bytes (pretty (rec_line r)) ++ as_bytes "]")
  | None => emit (as_bytes "[<unknown>]")
  end.
Definition write_log_msg (r : LogRecord) : io unit :=
  styled Whitespace;;
  emit (as_bytes " ");;
  styled Msg;;
  emit (as_bytes "[");;
  write_escaped_str (rec_msg r);;
  emit (as_bytes "]").

Definition emit_arguments (key val : bytes) : io unit :=
  (styled Whitespace;; emit (as_bytes " "));;
  emit (as_bytes "[");;
  styled Key;;
  write_escaped_str key;;
  styled Separator;;
  emit (as_bytes "=");;
  styled Value;;
  write_escaped_str val;;
  lift_io reset;;
  emit (as_bytes "]").
Definition emit_none (key : bytes) : io unit := emit_arguments key (as_bytes "None").
Fixpoint serialize (kv : list (bytes * FieldValue)) : io unit :=
  match kv with
  | [] => mret tt
  | (key, NoneValue) :: kv => emit_none key;; serialize kv
  | (key, Arguments val) :: kv => emit_arguments key val;; serialize kv
  end.
Definition write_log_fields (r : LogRecord) (values : list (bytes * FieldValue)) : io unit :=
  serialize (rec_kv r);; serialize values.

(** [TikvFormat::log]. *)
Definition tikv_format_log (LOG_LEVEL : Z) (timestamp : bytes) (r : LogRecord)
    (values : list (bytes * FieldValue)) : io unit :=
  if enabled LOG_LEVEL (rec_level r) then
    write_log_header timestamp r;;
    write_log_msg r;;
    write_log_fields r values;;
    styled Whitespace;;
    emit (as_bytes nl_str);;
    lift_io flush
  else mret tt.
End format.

(** ** What is written *)

Section line.
Context `{SlogLevel} {J : Json}.

Definition escaped (value : bytes) : bytes :=
  if need_json_encode value then json_string value else value.
Definition field_text (val : FieldValue) : bytes :=
  match val with NoneValue => as_bytes "None" | Arguments val => val end.
Definition field_line (kv : bytes * FieldValue) : bytes :=
  as_bytes " [" ++ escaped kv.1 ++ as_bytes "=" ++ escaped (field_text kv.2) ++ as_bytes "]".
Definition source_text (r : LogRecord) : bytes :=
  match path_file_name (rec_file r) with
  | Some path => filter (λ b, file_name_byte b = true) path ++ as_bytes ":" ++ as_bytes (pretty (rec_line r))
  | None => as_bytes "<unknown>"
  end.
Definition log_line (timestamp : bytes) (r : LogRecord) (values : list (bytes * FieldValue)) : bytes :=
  as_bytes "[" ++ timestamp ++ as_bytes "] [" ++ get_unified_log_level (rec_level r) ++
  as_bytes "] [" ++ source_text r ++ as_bytes "] [" ++ escaped (rec_msg r) ++ as_bytes "]" ++
  concat (field_line <$> rec_kv r ++ values) ++ as_bytes nl_str.
End line.

(** *** File names *)

(** A text starts with one character: an ASCII byte, or bytes above, the first of which
    does not continue a character. *)
Lemma utf8_first_char b1 r1 :
  utf8_valid (b1 :: r1) = true →
  continuation b1 = false ∧
  ∃ more rest, r1 = more ++ rest ∧ utf8_valid rest = true ∧
    (more = [] ∨ 128 ≤ Z_of_byte b1 ∧ Forall (λ b, 128 ≤ Z_of_byte b) more).
Proof.
  assert (∀ b, continuation b = true → 128 ≤ Z_of_byte b) as Hc.
  { intros b. unfold continuation, in_range. lia. }
  assert (∀ lo hi b, in_range lo hi b = true → lo ≤ Z_of_byte b ≤ hi) as Hr.
  { intros lo hi b. unfold in_range. lia. }
  intros Hv. cbn in Hv. destruct (in_range 0 127 b1) eqn:H1.
  { split; [unfold continuation, in_range in *; lia|]. exists [], r1. auto. }
  destruct r1 as [|b2 r2]; [done|]. destruct (in_range 194 223 b1) eqn:H2.
  { apply andb_true_iff in Hv as [Hb2 Hv]. split; [unfold continuation, in_range in *; lia|].
    exists [b2], r2. split_and!; [done..|]. right. split; [apply Hr in H2; lia|]. auto. }
  destruct r2 as [|b3 r3]; [done|]. destruct (in_range 224 239 b1) eqn:H3.
  { apply andb_true_iff in Hv as [[Hb2 Hb3]%andb_true_iff Hv].
    split; [unfold continuation, in_range in *; lia|].
    exists [b2; b3], r3. split_and!; [done..|]. right. split; [apply Hr in H3; lia|].
    constructor; [|by auto]. repeat case_match; try apply Hr in Hb2; try lia; auto. }
  destruct r3 as [|b4 r4]; [done|].
  apply andb_true_iff in Hv as [[[[H4 Hb2]%andb_true_iff Hb3]%andb_true_iff Hb4]%andb_true_iff Hv].
  split; [unfold continuation, in_range in *; lia|].
  exists [b2; b3; b4], r4. split_and!; [done..|]. right. split; [apply Hr in H4; lia|].
  constructor; [|by auto]. repeat case_match; try apply Hr in Hb2; try lia; auto.
Qed.

Lemma utf8_ascii_next bs i a b :
  utf8_valid bs = true → bs !! i = Some a → bs !! S i = Some b → Z_of_byte a < 128 →
  continuation b = false.
Proof.
  remember (length bs) as n eqn:Hn. revert bs Hn i.
  induction (lt_wf n) as [n _ IH]. intros bs -> i Hv Ha Hb Hlt.
  destruct bs as [|b1 r1]; [done|].
  apply utf8_first_char in Hv as (_ & more & rest & -> & Hv & Hmore).
  destruct i as [|i].
  - injection Ha as ->. destruct Hmore as [->|[? _]]; [|lia]. cbn in Hb.
    destruct rest as [|c rest]; [done|]. injection Hb as ->. by apply utf8_first_char in Hv as [? _].
  - change ((more ++ rest) !! i = Some a) in Ha. change ((more ++ rest) !! S i = Some b) in Hb.
    destruct (decide (i < length more)%nat) as [Hi|Hi].
    + destruct Hmore as [->|[_ Hall]]; [cbn in Hi; lia|].
      rewrite lookup_app_l in Ha by done. pose proof (Forall_lookup_1 _ _ _ _ Hall Ha). cbn in *. lia.
    + rewrite lookup_app_r in Ha, Hb by lia.
      replace (S i - length more)%nat with (S (i - length more)) in Hb by lia.
      apply (IH (length rest)) with (bs := rest) (i := (i - length more)%nat); auto.
      cbn. rewrite length_app. lia.
Qed.

Lemma file_name_byte_ascii b : file_name_byte b = true → Z_of_byte b < 128.
Proof. unfold file_name_byte. lia. Qed.

(** A piece of allowed bytes is cut between characters. *)
Lemma file_name_slice s from to :
  utf8_valid s = true → (from < to ≤ length s)%nat →
  Forall (λ b, file_name_byte b = true) (take (to - from) (drop from s)) →
  str_slice s from to = Returns (take (to - from) (drop from s)).
Proof.
  intros Hv Hle Hall. rewrite Forall_lookup in Hall.
  assert (∀ i, (from ≤ i < to)%nat → ∃ b, s !! i = Some b ∧ Z_of_byte b < 128) as Hascii.
  { intros i Hi. destruct (lookup_lt_is_Some_2 s i) as [b Hb]; [lia|]. exists b. split; [done|].
    apply file_name_byte_ascii, (Hall (i - from)%nat). rewrite lookup_take_lt by lia.
    rewrite lookup_drop. by replace (from + (i - from))%nat with i by lia. }
  unfold str_slice. rewrite leb_correct by lia.
  assert (is_char_boundary s from = true) as ->.
  { unfold is_char_boundary. destruct (Hascii from) as (b & -> & Hb); [lia|]. lia. }
  assert (is_char_boundary s to = true) as ->; [|done].
  unfold is_char_boundary. destruct (s !! to) as [b|] eqn:Hto.
  - destruct (Hascii (to - 1)%nat) as (a & Ha & Hlt); [lia|].
    assert (continuation b = false) as Hc.
    { eapply (utf8_ascii_next s (to - 1)); [done..| |done]. by replace (S (to - 1)) with to by lia. }
    unfold continuation, in_range in Hc. lia.
  - apply lookup_ge_None in Hto. apply Nat.eqb_eq. lia.
Qed.

(** Piece by piece, [write_file_name] keeps the allowed bytes. *)
Lemma file_name_pieces_filter s start index bs :
  utf8_valid s = true → bs = drop index s → (start ≤ index ≤ length s)%nat →
  Forall (λ b, file_name_byte b = true) (take (index - start) (drop start s)) →
  ∃ pieces, file_name_pieces s start index bs = Returns pieces ∧
    concat pieces = filter (λ b, file_name_byte b = true) (drop start s).
Proof.
  intros Hv. revert start index. induction bs as [|b bs IH]; intros start index Hbs Hle Hall;
    cbn [file_name_pieces].
  - assert (index = length s) as ->.
    { apply (f_equal length) in Hbs. rewrite length_drop in Hbs. cbn in Hbs. lia. }
    rewrite take_ge in Hall by (rewrite length_drop; lia).
    destruct (Nat.ltb_spec start (length s)).
    + rewrite file_name_slice; [|done|lia|by rewrite take_ge by (rewrite length_drop; lia)].
      cbn. eexists. split; [reflexivity|]. cbn. rewrite app_nil_r, take_ge by (rewrite length_drop; lia).
      symmetry. by apply list_filter_all.
    + exists []. split; [done|]. by rewrite drop_ge by lia.
  - assert (s !! index = Some b ∧ bs = drop (S index) s) as [Hb Hbs'].
    { split.
      - rewrite <-(Nat.add_0_r index), <-lookup_drop, <-Hbs. done.
      - replace (S index) with (index + 1)%nat by lia. by rewrite <-drop_drop, <-Hbs. }
    pose proof (lookup_lt_Some _ _ _ Hb) as Hlt.
    assert (drop start s = take (index - start) (drop start s) ++ b :: drop (S index) s) as Hsplit.
    { rewrite <-(take_drop (index - start) (drop start s)) at 1. f_equal. rewrite drop_drop.
      replace (start + (index - start))%nat with index by lia. by apply drop_S. }
    destruct (file_name_byte b) eqn:Hfb.
    + apply IH; [done|lia|]. replace (S index - start)%nat with (S (index - start)) by lia.
      erewrite take_S_r; [apply Forall_app; split; [done|by constructor]|].
      rewrite lookup_drop. by replace (start + (index - start))%nat with index by lia.
    + destruct (IH (S index) (S index)) as (pieces & Hp & Hc); [done|lia|by rewrite Nat.sub_diag|].
      assert (filter (λ b, file_name_byte b = true) (drop start s) =
        take (index - start) (drop start s) ++ concat pieces) as ->.
      { rewrite Hsplit at 1. rewrite list.filter_app, list_filter_all by done.
        rewrite list.filter_cons_False by congruence. by rewrite Hc. }
      destruct (Nat.ltb_spec start index).
      * rewrite file_name_slice by (done || lia). cbn. rewrite Hp. cbn. eauto.
      * exists pieces. split; [done|]. by replace (index - start)%nat with 0%nat by lia.
Qed.

(** *** A decorator that writes plain text *)

Class PlainDecorator {W E} (D : RecordDecorator W E) (out : W → bytes) := {
  plain_start s w : ∃ w', start s w = (Ok tt, w') ∧ out w' = out w;
  plain_reset w : ∃ w', reset w = (Ok tt, w') ∧ out w' = out w;
  plain_flush w : ∃ w', flush w = (Ok tt, w') ∧ out w' = out w;
  plain_write bs w : ∃ w', write_all bs w = (Ok tt, w') ∧ out w' = out w ++ bs }.

Section writes.
Context {W E : Type} {D : RecordDecorator W E} (out : W → bytes) {PD : PlainDecorator D out}.
Context `{SlogLevel} {J : Json}.

Definition writes (m : io W E unit) (bs : bytes) : Prop :=
  ∀ w, ∃ w', m w = Returns (Ok tt, w') ∧ out w' = out w ++ bs.

Lemma writes_nothing : writes (mret tt) [].
Proof. intros w. exists w. by rewrite app_nil_r. Qed.
Lemma writes_then (m n : io W E unit) bs bs' :
  writes m bs → writes n bs' → writes (m;; n) (bs ++ bs').
Proof.
  intros Hm Hn w. destruct (Hm w) as (w1 & Hm1 & Ho1), (Hn w1) as (w2 & Hn2 & Ho2).
  exists w2. unfold mbind, io_bind. rewrite Hm1. cbn. split; [exact Hn2|]. by rewrite Ho2, Ho1, app_assoc.
Qed.
Lemma writes_emit bs : writes (emit bs) bs.
Proof. intros w. destruct (plain_write bs w) as (w' & Hw & Ho). exists w'. unfold emit, lift_io. by rewrite Hw. Qed.
Lemma writes_silent (f : W → result E unit * W) :
  (∀ w, ∃ w', f w = (Ok tt, w') ∧ out w' = out w) → writes (lift_io f) [].
Proof.
  intros Hf w. destruct (Hf w) as (w' & Hw & Ho). exists w'. unfold lift_io. by rewrite Hw, app_nil_r.
Qed.
Lemma writes_styled s : writes (styled s) [].
Proof. apply writes_silent, plain_start. Qed.
Lemma writes_escaped v : writes (write_escaped_str v) (escaped v).
Proof. unfold write_escaped_str, escaped. destruct (need_json_encode v); apply writes_emit. Qed.
Lemma writes_emit_all l : writes (emit_all l) (concat l).
Proof. induction l; [apply writes_nothing|]. apply writes_then; [apply writes_emit|done]. Qed.
Lemma writes_file_name name :
  utf8_valid name = true →
  writes (write_file_name name) (filter (λ b, file_name_byte b = true) name).
Proof.
  intros Hv w. destruct (file_name_pieces_filter name 0 0 name) as (pieces & Hp & Hc); [done|done|lia|done|].
  unfold write_file_name. rewrite Hp. cbn. change (drop 0 name) with name in Hc. rewrite <-Hc.
  apply writes_emit_all.
Qed.

Lemma writes_eq m bs bs' : writes m bs → bs = bs' → writes m bs'.
Proof. by intros ? <-. Qed.

(** Follow the program; what is left is the equation of the texts. *)
Ltac writes_step :=
  lazymatch goal with
  | |- writes (_ ≫= _) _ => eapply writes_then
  | |- writes (emit _) _ => apply writes_emit
  | |- writes (styled _) _ => apply writes_styled
  | |- writes (write_escaped_str _) _ => apply writes_escaped
  | |- writes (lift_io reset) _ => apply writes_silent, plain_reset
  | |- writes (lift_io flush) _ => apply writes_silent, plain_flush
  end.
Ltac follow := eapply writes_eq; [repeat writes_step; try done|].

Lemma writes_arguments key val :
  writes (emit_arguments key val) (field_line (key, Arguments val)).
Proof. unfold emit_arguments. follow. reflexivity. Qed.
Lemma writes_serialize kv : writes (serialize kv) (concat (field_line <$> kv)).
Proof.
  induction kv as [|[key [|val]] kv IH]; cbn [serialize]; [apply writes_nothing| |];
    (apply writes_then; [|done]); apply writes_arguments.
Qed.

Lemma writes_source r :
  (∀ path, path_file_name (rec_file r) = Some path → utf8_valid path = true) →
  writes match path_file_name (rec_file r) with
         | Some path =>
             emit (as_bytes "[");; write_file_name path;;
             emit (as_bytes ":" ++ as_bytes (pretty (rec_line r)) ++ as_bytes "]")
         | None => emit (as_bytes "[<unknown>]")
         end (as_bytes "[" ++ source_text r ++ as_bytes "]").
Proof.
  intros Hpath. unfold source_text. destruct (path_file_name _) as [path|] eqn:Hp; [|apply writes_emit].
  eapply writes_eq; [repeat writes_step; by apply writes_file_name, Hpath|]. by rewrite <-!app_assoc.
Qed.

Lemma writes_log_line LOG_LEVEL timestamp r values :
  enabled LOG_LEVEL (rec_level r) = true →
  (∀ path, path_file_name (rec_file r) = Some path → utf8_valid path = true) →
  writes (tikv_format_log LOG_LEVEL timestamp r values) (log_line timestamp r values).
Proof.
  intros Hen Hpath. unfold tikv_format_log. rewrite Hen.
  unfold write_log_header, write_log_msg, write_log_fields.
  eapply writes_eq; [repeat writes_step; first [apply writes_serialize|by apply writes_source]|].
  unfold log_line. rewrite fmap_app, concat_app, <-!app_assoc. reflexivity.
Qed.
End writes.

(** ** Reading a line back *)

Definition quote : byte := byte_of_Z 34.
Definition equals : byte := byte_of_Z 61.
Definition close : byte := byte_of_Z 93.

Fixpoint until (stop : byte) (bs : bytes) : option (bytes * bytes) :=
  match bs with
  | [] => None
  | b :: bs =>
      if decide (b = stop) then Some ([], bs)
      else '(a, rest) ← until stop bs; Some (b :: a, rest)
  end.
Definition expect (prefix bs : bytes) : option bytes :=
  if starts_with bs prefix then Some (drop (length prefix) bs) else None.

Section read.
Context {J : Json}.

Definition read_escaped (stop : byte) (bs : bytes) : option (bytes * bytes) :=
  if decide (head bs = Some quote) then
    '(s, rest) ← json_read bs; rest ← expect [stop] rest; Some (s, rest)
  else until stop bs.
Fixpoint read_fields (fuel : nat) (bs : bytes) : option (list (bytes * bytes)) :=
  if decide (bs = as_bytes nl_str) then Some []
  else match fuel with
       | O => None
       | S fuel =>
           bs ← expect (as_bytes " [") bs;
           '(key, bs) ← read_escaped equals bs;
           '(val, bs) ← read_escaped close bs;
           fields ← read_fields fuel bs;
           Some ((key, val) :: fields)
       end.

Record LogLine := {
  ll_time : bytes; ll_level : bytes; ll_source : bytes; ll_msg : bytes;
  ll_fields : list (bytes * bytes) }.
Definition read_line (bs : bytes) : option LogLine :=
  bs ← expect (as_bytes "[") bs; '(time, bs) ← until close bs;
  bs ← expect (as_bytes " [") bs; '(level, bs) ← until close bs;
  bs ← expect (as_bytes " [") bs; '(source, bs) ← until close bs;
  bs ← expect (as_bytes " [") bs; '(msg, bs) ← read_escaped close bs;
  fields ← read_fields (length bs) bs;
  Some {| ll_time := time; ll_level := level; ll_source := source; ll_msg := msg;
          ll_fields := fields |}.

Lemma until_app stop a rest : stop ∉ a → until stop (a ++ stop :: rest) = Some (a, rest).
Proof.
  induction a as [|b a IH]; cbn; intros Ha.
  - by rewrite decide_True.
  - rewrite not_elem_of_cons in Ha. destruct Ha as [Hb Ha].
    rewrite decide_False by congruence. by rewrite IH.
Qed.
Lemma expect_app prefix rest : expect prefix (prefix ++ rest) = Some rest.
Proof.
  unfold expect. rewrite (proj2 (starts_with_spec _ _)) by eauto. by rewrite drop_app_length.
Qed.

Lemma plain_text v stop :
  need_json_encode v = false → stop ∈ [quote; equals; close] → stop ∉ v.
Proof.
  intros Hn Hs Hin. unfold need_json_encode in Hn.
  apply not_true_iff_false in Hn. apply Hn, existsb_exists. exists stop.
  split; [by apply list_elem_of_In|]. rewrite !elem_of_cons in Hs.
  destruct Hs as [->|[->|[->|[]%not_elem_of_nil]]]; reflexivity.
Qed.
Lemma read_escaped_app stop v rest :
  stop ∈ [equals; close] → read_escaped stop (escaped v ++ stop :: rest) = Some (v, rest).
Proof.
  intros Hs. assert (stop ≠ quote ∧ stop ∈ [quote; equals; close]) as [Hq Hs'].
  { split; [|by apply list_elem_of_further]. rewrite !elem_of_cons in Hs.
    destruct Hs as [->|[->|[]%not_elem_of_nil]]; done. }
  unfold escaped, read_escaped. destruct (need_json_encode v) eqn:Hn.
  - destruct (json_quote v) as [r Hr].
    rewrite decide_True by (by rewrite Hr). rewrite json_read_string. cbn [mbind option_bind].
    change (stop :: rest) with ([stop] ++ rest). by rewrite expect_app.
  - rewrite decide_False; [by apply until_app, plain_text|].
    pose proof (plain_text v quote Hn (list_elem_of_here _ _)) as Hv.
    destruct v as [|b v]; cbn; [congruence|]. intros [= ->]. apply Hv, list_elem_of_here.
Qed.

Lemma read_fields_app kv fuel :
  (length kv ≤ fuel)%nat →
  read_fields fuel (concat (field_line <$> kv) ++ as_bytes nl_str) =
    Some ((λ f, (f.1, field_text f.2)) <$> kv).
Proof.
  revert fuel. induction kv as [|[key val] kv IH]; intros fuel Hf; [by destruct fuel|].
  destruct fuel as [|fuel]; [cbn in Hf; lia|]. 
  assert (concat (field_line <$> (key, val) :: kv) ++ as_bytes nl_str =
    as_bytes " [" ++ escaped key ++ equals :: escaped (field_text val) ++ close ::
      (concat (field_line <$> kv) ++ as_bytes nl_str)) as ->.
  { rewrite fmap_cons. cbn [concat]. unfold field_line at 1. cbn [fst snd].
    by repeat rewrite <-(assoc_L (++)). }
  cbn [read_fields]. rewrite decide_False by done. rewrite expect_app. cbn [mbind option_bind].
  rewrite (read_escaped_app equals) by (apply elem_of_cons; by left). cbn [mbind option_bind].
  rewrite (read_escaped_app close) by (apply list_elem_of_further, elem_of_cons; by left). cbn [mbind option_bind].
  rewrite IH by (cbn in Hf; lia). done.
Qed.

Lemma fields_length kv rest : (length kv ≤ length (concat (field_line <$> kv) ++ rest))%nat.
Proof.
  induction kv as [|f kv IH]; [cbn; lia|]. rewrite fmap_cons. cbn [concat length].
  rewrite <-app_assoc, length_app. unfold field_line at 1. rewrite length_app.
  change (length (as_bytes " [")) with 2%nat. lia.
Qed.
End read.

(** *** Decimal numbers *)

Lemma pretty_N_go_chars (n : N) s : close ∉ as_bytes s → close ∉ as_bytes (pretty_N_go n s).
Proof.
  revert s. induction (N.lt_wf_0 n) as [n _ IH]. intros s Hs.
  destruct (decide (n = 0%N)) as [->|Hn]; [by rewrite pretty_N_go_0|].
  rewrite pretty_N_go_step by lia. apply IH; [apply N.div_lt; lia|].
  change (close ∉ Ascii.byte_of_ascii (pretty_N_char (n `mod` 10)) :: as_bytes s).
  apply not_elem_of_cons. split; [|done].
  unfold pretty_N_char. repeat case_match; done.
Qed.
Lemma pretty_Z_chars (z : Z) : close ∉ as_bytes (pretty z).
Proof.
  assert (∀ p : positive, close ∉ as_bytes (pretty p)) as Hp.
  { intros p. change (pretty p) with (pretty_N (Npos p)). unfold pretty_N.
    rewrite decide_False by done. apply pretty_N_go_chars. set_solver. }
  destruct z as [|p|p]; [by vm_compute; set_solver|apply Hp|].
  change (as_bytes (pretty (Z.neg p))) with (as_bytes "-" ++ as_bytes (pretty p)).
  apply not_elem_of_app. split; [vm_compute; set_solver|apply Hp].
Qed.

Lemma source_text_close r : close ∉ source_text r.
Proof.
  unfold source_text. destruct (path_file_name (rec_file r)) as [path|]; [|vm_compute; set_solver].
  rewrite !not_elem_of_app. split_and!; [|vm_compute; set_solver|apply pretty_Z_chars].
  by intros [? _]%list_elem_of_filter.
Qed.
Lemma level_close l : close ∉ get_unified_log_level l.
Proof. destruct l; vm_compute; set_solver. Qed.

Section roundtrip.
Context {W E : Type} {D : RecordDecorator W E} (out : W → bytes) {PD : PlainDecorator D out}.
Context `{SlogLevel} {J : Json}.

End roundtrip.

(** ** [LogAndFuse]: a drain that fails is replaced by the standard error *)

Section fuse.
Context {W E W' E' : Type} {D' : RecordDecorator W' E'} `{SlogLevel} {J : Json}.
(** The [Display] of the drain's error, the formatted times of the two records, and where
    the failure is reported from. *)
Context (display : E → bytes) (timestamp timestamp' : bytes) (crit_file : bytes) (crit_line : Z).

Definition crit_record (e : E) : LogRecord :=
  {| rec_level := Critical; rec_file := crit_file; rec_line := crit_line;
     rec_msg := as_bytes "logger encountered error";
     rec_kv := [(as_bytes "err", Arguments (display e))] |}.
(** The results of the writes to the standard error are ignored. *)
Definition ignore_res (m : io W' E' unit) (stderr : W') : run W' :=
  '(_, stderr) ← m stderr; Returns stderr.
Definition log_and_fuse (LOG_LEVEL : Z) (drain : LogRecord → list (bytes * FieldValue) → io W E unit)
    (r : LogRecord) (values : list (bytes * FieldValue)) (w : W) (stderr : W') : run (W * W') :=
  if enabled LOG_LEVEL (rec_level r) then
    '(res, w) ← drain r values w;
    match res with
    | Ok _ => Returns (w, stderr)
    | Err e =>
        stderr ← ignore_res (tikv_format_log LOG_LEVEL timestamp r values) stderr;
        stderr ← ignore_res (tikv_format_log LOG_LEVEL timestamp' (crit_record e) []) stderr;
        Returns (w, stderr)
    end
  else Returns (w, stderr).

(** A record that the drain refuses is on the standard error, followed by the reason. *)
Theorem refused_record_on_stderr (out : W' → bytes) `{!PlainDecorator D' out} LOG_LEVEL drain r values
    w stderr w' e :
  enabled LOG_LEVEL (rec_level r) = true → drain r values w = Returns (Err e, w') →
  (∀ path, path_file_name (rec_file r) = Some path → utf8_valid path = true) →
  (∀ path, path_file_name crit_file = Some path → utf8_valid path = true) →
  ∃ stderr', log_and_fuse LOG_LEVEL drain r values w stderr = Returns (w', stderr') ∧
    out stderr' = out stderr ++ log_line timestamp r values ++ log_line timestamp' (crit_record e) [].
Proof.
  intros Hen Hd Hp Hp'. unfold log_and_fuse. rewrite Hen, Hd. cbn [mbind run_bind].
  assert (enabled LOG_LEVEL (rec_level (crit_record e)) = true) as Hc.
  { cbn. unfold enabled in *. pose proof as_usize_mono as (? & ? & ?). destruct (rec_level r); lia. }
  destruct (writes_log_line out _ timestamp r values Hen Hp stderr) as (s1 & H1 & Ho1).
  destruct (writes_log_line out _ timestamp' (crit_record e) [] Hc Hp' s1) as (s2 & H2 & Ho2).
  exists s2. unfold ignore_res. rewrite H1. cbn [mbind run_bind]. rewrite H2. split; [done|].
  by rewrite Ho2, Ho1, <-app_assoc.
Qed.
End fuse.

(** ** The status server: status_server.rs *)

Inductive Method := GET | PUT | OtherMethod.
Record HttpRequest := { http_method : Method; http_path : bytes; http_body : bytes }.
Record HttpResponse := { http_status : Z; http_content : bytes }.

Section status.
Context `{SlogLevel}.
(** serde_json: the text of the field [log-level] of a body or the message of an error, and
    the message for a text that is no level; prometheus: the dump of the metrics. *)
Context (log_level_field : bytes → result bytes bytes) (invalid_value : bytes → bytes) (dump : bytes).

(** [log_level_serde]. *)
Definition serialize_level (l : Level) : bytes := get_string_by_level l.
Definition deserialize_level (body : bytes) : result bytes Level :=
  string ← log_level_field body;
  match get_level_by_string string with
  | Some l => Ok l
  | None => Err (invalid_value string)
  end.

Definition err_response (status : Z) (message : bytes) : HttpResponse :=
  {| http_status := status; http_content := message |}.
Definition change_log_level (body : bytes) (LOG_LEVEL : Z) : HttpResponse * Z :=
  match deserialize_level body with
  | Ok log_level => ({| http_status := 200; http_content := [] |}, set_log_level log_level)
  | Err err => (err_response 400 err, LOG_LEVEL)
  end.
Definition serve (req : HttpRequest) (LOG_LEVEL : Z) : HttpResponse * Z :=
  match http_method req with
  | GET =>
      if decide (http_path req = as_bytes "/metrics")
      then ({| http_status := 200; http_content := dump |}, LOG_LEVEL)
      else (err_response 404 (as_bytes "path not found"), LOG_LEVEL)
  | PUT =>
      if starts_with (http_path req) (as_bytes "/log-level")
      then change_log_level (http_body req) LOG_LEVEL
      else (err_response 404 (as_bytes "path not found"), LOG_LEVEL)
  | OtherMethod => (err_response 404 (as_bytes "path not found"), LOG_LEVEL)
  end.

Lemma level_string_roundtrip l : get_level_by_string (serialize_level l) = Some l.
Proof. by destruct l. Qed.

(** The level of the log after a request: it is the one asked for, in upper or lower case,
    or as before, and every answer but 200 leaves it alone; records of at least the
    severity asked for are exactly those that pass. *)
Theorem status_server_sets_level req LOG_LEVEL resp LOG_LEVEL' :
  serve req LOG_LEVEL = (resp, LOG_LEVEL') →
  (http_status resp ≠ 200 → LOG_LEVEL' = LOG_LEVEL) ∧
  (LOG_LEVEL' = LOG_LEVEL ∨
   ∃ l text, log_level_field (http_body req) = Ok text ∧
     lower_byte <$> text ∈ [get_string_by_level l; as_bytes "warn"] ∧
     get_log_level LOG_LEVEL' = Some l ∧
     ∀ l', enabled LOG_LEVEL' l' = true ↔ as_usize l' ≤ as_usize l).
Proof.
  unfold serve, change_log_level, deserialize_level. intros Hs.
  destruct (http_method req); [case_decide|destruct (starts_with _ _)|]; simplify_eq; [auto..| |auto|auto].
  destruct (log_level_field _) as [text|err]; cbn in Hs; [|simplify_eq; auto].
  destruct (get_level_by_string text) as [l|] eqn:Hl; [|simplify_eq; auto]. simplify_eq.
  split; [done|]. right. exists l, text. split; [done|]. split.
  - unfold get_level_by_string in Hl. repeat case_decide; simplify_eq; set_solver.
  - unfold get_log_level, set_log_level, enabled. rewrite from_as_usize. split; [done|]. intros l'. lia.
Qed.
End status.

(** ** Instances for examples *)

Global Instance slog_levels : SlogLevel.
Proof.
  refine {|
    as_usize l := match l with Critical => 1 | Error => 2 | Warning => 3 | Info => 4 | Debug => 5 | Trace => 6 end;
    from_usize n := list_find (λ p : Z * Level, p.1 = n)
      [(1, Critical); (2, Error); (3, Warning); (4, Info); (5, Debug); (6, Trace)] ≫= λ x, Some (x.2.2) |};
    [by intros []|by intros []|by split_and!].
Defined.

(** Strings in quotes, with quotes and backslashes escaped. *)
Module ref_json.
Definition backslash : byte := byte_of_Z 92.
Definition escape (b : byte) : bytes :=
  if decide (b = quote ∨ b = backslash) then [backslash; b] else [b].
Definition write (s : bytes) : bytes := quote :: (s ≫= escape) ++ [quote].
Fixpoint read (bs : bytes) : option (bytes * bytes) :=
  match bs with
  | [] => None
  | b :: bs =>
      if decide (b = quote) then Some ([], bs)
      else if decide (b = backslash) then
        match bs with
        | [] => None
        | c :: bs => '(s, rest) ← read bs; Some (c :: s, rest)
        end
      else '(s, rest) ← read bs; Some (b :: s, rest)
  end.
Lemma read_write s rest : read ((s ≫= escape) ++ quote :: rest) = Some (s, rest).
Proof.
  induction s as [|b s IH]; cbn [mbind list_bind app read]; [by rewrite decide_True|].
  rewrite <-app_assoc. unfold escape at 1. case_decide as Hb; cbn [app read].
  - rewrite decide_False, decide_True by done. by rewrite IH.
  - rewrite !decide_False by tauto. by rewrite IH.
Qed.
End ref_json.
Global Instance ref_json_laws : Json.
Proof.
  refine {| json_string := ref_json.write;
            json_read bs := match bs with b :: bs => if decide (b = quote) then ref_json.read bs else None | [] => None end |}.
  - intros s rest. unfold ref_json.write. cbn. rewrite decide_True, <-app_assoc by done. apply ref_json.read_write.
  - intros s. eexists. reflexivity.
Defined.

(** Text that is kept as it is written. *)
Global Instance text_decorator : RecordDecorator bytes unit := {|
  start _ w := (Ok tt, w); reset w := (Ok tt, w); flush w := (Ok tt, w);
  write_all bs w := (Ok tt, w ++ bs) |}.
Global Instance text_plain : PlainDecorator text_decorator id.
Proof. split; eauto. Qed.

Module log_demo.
Definition record : LogRecord :=
  {| rec_level := Warning; rec_file := as_bytes "src/store.rs"; rec_line := 42;
     rec_msg := as_bytes "commit] [forged=1"; rec_kv := [(as_bytes "id", Arguments (as_bytes "7"))] |}.
Definition time : bytes := as_bytes "2022/11/16 10:00:00.000 +00:00".
End log_demo.

