(* ===== verification/Notify.v ===== *)
(** * tikv-util/src/future.rs: futures that are polled by whoever wakes them

    [poll_future_notify] drives the delays behind the ticks of a peer and the timers of
    the workers: the future lies in a slot under a mutex, and every call of its waker
    takes it out, polls it, and puts it back when it is pending.  Wakers run in any
    thread and at any time.  The future is a delay with a closure behind it: polled, it
    runs the closure when the delay is over, and otherwise leaves its waker with the
    timer. *)

From S2P Require Import Prelude.

(** ** The slot *)

(** Where a call of [wake_by_ref] is: before the lock; holding the lock, with the
    future if there was one; after the poll. *)
Inductive WakePc := WakeStart | WakeHolds (future : bool) | WakePolled (ready : bool) | WakeDone.

Global Instance WakePc_eq_dec : EqDecision WakePc.
Proof. solve_decision. Defined.

(** [nt_slot]: the future is in the slot; [nt_lock]: the call that holds the mutex;
    [nt_ran]: how often the closure has run. *)
Record Notify := {
  nt_slot : bool; nt_lock : option nat; nt_fired : bool; nt_registered : bool;
  nt_calls : list WakePc; nt_ran : nat }.

(** [poll_future_notify] puts the future in the slot and calls the waker. *)
Definition poll_future_notify : Notify :=
  {| nt_slot := true; nt_lock := None; nt_fired := false; nt_registered := false;
     nt_calls := [WakeStart]; nt_ran := 0 |}.

(** [wake_by_ref], step by step. *)
Definition wake_lock (i : nat) (s : Notify) : Notify :=
  {| nt_slot := false; nt_lock := Some i; nt_fired := nt_fired s; nt_registered := nt_registered s;
     nt_calls := <[i := WakeHolds (nt_slot s)]> (nt_calls s); nt_ran := nt_ran s |}.
Definition wake_poll (i : nat) (s : Notify) : Notify :=
  if nt_fired s
  then {| nt_slot := nt_slot s; nt_lock := nt_lock s; nt_fired := true;
          nt_registered := nt_registered s; nt_calls := <[i := WakePolled true]> (nt_calls s);
          nt_ran := S (nt_ran s) |}
  else {| nt_slot := nt_slot s; nt_lock := nt_lock s; nt_fired := false; nt_registered := true;
          nt_calls := <[i := WakePolled false]> (nt_calls s); nt_ran := nt_ran s |}.
Definition wake_unlock (i : nat) (put_back : bool) (s : Notify) : Notify :=
  {| nt_slot := put_back; nt_lock := None; nt_fired := nt_fired s; nt_registered := nt_registered s;
     nt_calls := <[i := WakeDone]> (nt_calls s); nt_ran := nt_ran s |}.

(** The delay is over: the timer calls the waker it was left with. *)
Definition delay_over (s : Notify) : Notify :=
  {| nt_slot := nt_slot s; nt_lock := nt_lock s; nt_fired := true; nt_registered := false;
     nt_calls := if nt_registered s then nt_calls s ++ [WakeStart] else nt_calls s;
     nt_ran := nt_ran s |}.
(** Any copy of the waker may be called as well. *)
Definition wake_again (s : Notify) : Notify :=
  {| nt_slot := nt_slot s; nt_lock := nt_lock s; nt_fired := nt_fired s;
     nt_registered := nt_registered s; nt_calls := nt_calls s ++ [WakeStart]; nt_ran := nt_ran s |}.

Inductive notify_step : Notify → Notify → Prop :=
| ns_lock i s : nt_calls s !! i = Some WakeStart → nt_lock s = None → notify_step s (wake_lock i s)
| ns_poll i s : nt_calls s !! i = Some (WakeHolds true) → notify_step s (wake_poll i s)
| ns_none i s : nt_calls s !! i = Some (WakeHolds false) → notify_step s (wake_unlock i false s)
| ns_pending i s : nt_calls s !! i = Some (WakePolled false) → notify_step s (wake_unlock i true s)
| ns_ready i s : nt_calls s !! i = Some (WakePolled true) → notify_step s (wake_unlock i false s)
| ns_over s : nt_fired s = false → notify_step s (delay_over s)
| ns_again s : notify_step s (wake_again s).

(** ** The future runs exactly once *)

(** The calls that hold the mutex. *)
Definition holds (pc : WakePc) : bool :=
  match pc with WakeHolds _ | WakePolled _ => true | _ => false end.
(** The calls that have the future in hand. *)
Definition has_future (pc : WakePc) : bool :=
  match pc with WakeHolds true | WakePolled false => true | _ => false end.
(** The calls that are still going to poll it. *)
Definition will_poll (pc : WakePc) : bool :=
  match pc with WakeStart | WakeHolds true => true | _ => false end.

Record notify_inv (s : Notify) : Prop := {
  ni_lock i pc : nt_calls s !! i = Some pc → holds pc = true ↔ nt_lock s = Some i;
  ni_holder i : nt_lock s = Some i → ∃ pc, nt_calls s !! i = Some pc ∧ nt_slot s = false;
  ni_once : nt_ran s ≤ 1;
  ni_slot : nt_lock s = None → nt_slot s = bool_decide (nt_ran s = 0);
  ni_future i pc : nt_calls s !! i = Some pc → nt_lock s = Some i →
    match pc with
    | WakeHolds b => b = bool_decide (nt_ran s = 0)
    | WakePolled b => b = bool_decide (nt_ran s = 1)
    | _ => True
    end;
  ni_wake : nt_ran s = 0 →
    (nt_registered s = true ∧ nt_fired s = false) ∨
    ∃ i pc, nt_calls s !! i = Some pc ∧ will_poll pc = true }.

Lemma notify_init_inv : notify_inv poll_future_notify.
Proof.
  split; cbn; try done.
  - intros [|i] pc Hpc; [|done]. by injection Hpc as <-.
  - lia.
  - intros _. right. by exists 0, WakeStart.
Qed.

(** Another call changes at its own place only. *)
Lemma calls_insert (l : list WakePc) i pc j x :
  <[i := pc]> l !! j = Some x → (i = j ∧ x = pc) ∨ (i ≠ j ∧ l !! j = Some x).
Proof. intros [(? & <- & _)|?]%list_lookup_insert_Some; auto. Qed.
Lemma calls_insert_eq (l : list WakePc) i pc x : l !! i = Some x → <[i := pc]> l !! i = Some pc.
Proof. intros Hi%lookup_lt_Some. by apply list_lookup_insert_eq. Qed.
Lemma calls_snoc (l : list WakePc) pc j x :
  (l ++ [pc]) !! j = Some x → l !! j = Some x ∨ (x = pc ∧ length l ≤ j).
Proof. intros [?|[? Hj]]%lookup_app_Some; [by left|right]. by apply list_lookup_singleton_Some in Hj as [_ <-]. Qed.

(** A call that is going to poll is still there after another place changed. *)
Lemma will_poll_insert (l : list WakePc) i x y :
  l !! i = Some x → (will_poll x = true → will_poll y = true) →
  (∃ j pc, l !! j = Some pc ∧ will_poll pc = true) →
  ∃ j pc, <[i := y]> l !! j = Some pc ∧ will_poll pc = true.
Proof.
  intros Hi Hxy (j & pc & Hj & Hp). destruct (decide (i = j)) as [<-|Hne].
  - exists i, y. rewrite Hj in Hi. injection Hi as ->. split; [by eapply calls_insert_eq|auto].
  - exists j, pc. by rewrite list_lookup_insert_ne.
Qed.

Lemma notify_lock_inv i s :
  notify_inv s → nt_calls s !! i = Some WakeStart → nt_lock s = None → notify_inv (wake_lock i s).
Proof.
  intros [Hl Hh Ho Hs Hf Hw] Hi Hn. specialize (Hs Hn). split; cbn; try done.
  - intros j pc [[-> ->]|[Hne Hj]]%calls_insert; [done|].
    rewrite (Hl _ _ Hj), Hn. naive_solver.
  - intros j [= <-]. eexists. split; [by eapply calls_insert_eq|done].
  - intros j pc [[-> ->]|[Hne Hj]]%calls_insert Hlk; [done|congruence].
  - intros Hr. right. exists i, (WakeHolds (nt_slot s)). split; [by eapply calls_insert_eq|].
    by rewrite Hs, bool_decide_eq_true_2.
Qed.

Lemma notify_poll_inv i s :
  notify_inv s → nt_calls s !! i = Some (WakeHolds true) → notify_inv (wake_poll i s).
Proof.
  intros [Hl Hh Ho Hs Hf Hw] Hi. pose proof (proj1 (Hl _ _ Hi) eq_refl) as Hn.
  pose proof (Hf _ _ Hi Hn) as Hr. cbn in Hr. symmetry in Hr. apply bool_decide_eq_true in Hr.
  unfold wake_poll. destruct (nt_fired s); split; cbn; rewrite ?Hr; try done; try lia.
  1, 5: intros j pc [[-> ->]|[Hne Hj]]%calls_insert; [done|by apply Hl].
  1, 4: intros j Hj; destruct (Hh _ Hj) as (pc & Hpc & ?); rewrite Hn in Hj; injection Hj as <-;
    eexists; split; [by eapply calls_insert_eq|done].
  1, 3: by rewrite Hn.
  all: intros j pc [[-> ->]|[Hne Hj]]%calls_insert Hlk; [done|congruence].
Qed.

Lemma notify_unlock_inv i pc b s :
  notify_inv s → nt_calls s !! i = Some pc → nt_lock s = Some i → b = bool_decide (nt_ran s = 0) →
  will_poll pc = false → notify_inv (wake_unlock i b s).
Proof.
  intros [Hl Hh Ho Hs Hf Hw] Hi Hn -> Hp. split; cbn; try done.
  - intros j x [[-> ->]|[Hne Hj]]%calls_insert; [done|]. rewrite (Hl _ _ Hj), Hn. naive_solver.
  - intros Hr. destruct (Hw Hr) as [?|Hex]; [by left|right]. eapply will_poll_insert; [done| |done].
    by rewrite Hp.
Qed.

Lemma notify_snoc_inv fired registered s :
  notify_inv s → notify_inv {| nt_slot := nt_slot s; nt_lock := nt_lock s; nt_fired := fired;
    nt_registered := registered; nt_calls := nt_calls s ++ [WakeStart]; nt_ran := nt_ran s |}.
Proof.
  intros [Hl Hh Ho Hs Hf Hw].
  assert (∀ i, nt_lock s = Some i → i < length (nt_calls s)) as Hlt.
  { intros i Hn. destruct (Hh i Hn) as (pc & Hpc & _). by eapply lookup_lt_Some. }
  split; cbn; try done.
  - intros j pc [Hj|[-> Hj]]%calls_snoc; [by apply Hl|]. split; [done|]. intros Hn. specialize (Hlt _ Hn). lia.
  - intros j Hn. destruct (Hh j Hn) as (pc & Hpc & ?). exists pc. split; [|done].
    by apply lookup_app_l_Some.
  - intros j pc [Hj|[-> Hj]]%calls_snoc Hn; [by apply (Hf j)|done].
  - intros _. right. exists (length (nt_calls s)), WakeStart. split; [|done].
    by apply list_lookup_middle.
Qed.

Lemma notify_step_inv s s' : notify_inv s → notify_step s s' → notify_inv s'.
Proof.
  intros Hinv Hstep. destruct Hstep as [i s Hi Hn|i s Hi|i s Hi|i s Hi|i s Hi|s Hn|s].
  - by apply notify_lock_inv.
  - by apply notify_poll_inv.
  - pose proof (proj1 (ni_lock _ Hinv _ _ Hi) eq_refl) as Hn.
    eapply notify_unlock_inv; [done|done|done| |done]. apply (ni_future _ Hinv _ _ Hi Hn).
  - pose proof (proj1 (ni_lock _ Hinv _ _ Hi) eq_refl) as Hn.
    eapply notify_unlock_inv; [done|done|done| |done].
    pose proof (ni_future _ Hinv _ _ Hi Hn) as Hr. pose proof (ni_once _ Hinv). cbn in Hr.
    symmetry in Hr. apply bool_decide_eq_false in Hr. symmetry. apply bool_decide_eq_true. lia.
  - pose proof (proj1 (ni_lock _ Hinv _ _ Hi) eq_refl) as Hn.
    eapply notify_unlock_inv; [done|done|done| |done].
    pose proof (ni_future _ Hinv _ _ Hi Hn) as Hr. cbn in Hr.
    symmetry in Hr. apply bool_decide_eq_true in Hr. by rewrite Hr.
  - unfold delay_over. destruct (nt_registered s) eqn:Hr; [by apply notify_snoc_inv|].
    destruct Hinv as [Hl Hh Ho Hs Hf Hw]. split; cbn; try done.
    intros H0. destruct (Hw H0) as [[? _]|?]; [congruence|by right].
  - by apply notify_snoc_inv.
Qed.

(** A future that is polled by its wakers, in whatever threads they run and however
    often they are called, runs its closure at most once; no wake-up is lost, so that
    once the delay is over and every call has returned the closure has run; and as long
    as a call has not returned, some call can go on. *)
Theorem notified_future_runs_once s :
  rtc notify_step poll_future_notify s →
  nt_ran s ≤ 1 ∧
  (nt_fired s = true → Forall (λ pc, pc = WakeDone) (nt_calls s) → nt_ran s = 1) ∧
  (Forall (λ pc, pc = WakeDone) (nt_calls s) ∨
   ∃ i pc s', nt_calls s !! i = Some pc ∧ notify_step s s' ∧
     (s' = wake_lock i s ∨ s' = wake_poll i s ∨ ∃ b, s' = wake_unlock i b s)).
Proof.
  intros Hs. assert (notify_inv s) as Hinv.
  { revert Hs. generalize notify_init_inv. generalize poll_future_notify. intros s0 H0 Hs.
    induction Hs; eauto using notify_step_inv. }
  split_and!; [apply Hinv|..].
  - intros Hf Hd. pose proof (ni_once _ Hinv). destruct (decide (nt_ran s = 0)) as [H0|]; [|lia].
    destruct (ni_wake _ Hinv H0) as [[_ ?]|(i & pc & Hi & Hp)]; [congruence|].
    rewrite list.Forall_lookup in Hd. by rewrite (Hd _ _ Hi) in Hp.
  - destruct (nt_lock s) as [i|] eqn:Hl.
    { right. destruct (ni_holder _ Hinv i Hl) as (pc & Hi & _). exists i, pc.
      pose proof (proj2 (ni_lock _ Hinv _ _ Hi) Hl) as Hh.
      destruct pc as [|[]|[]|]; try done; eexists; (split; [done|]); split;
        [by eapply ns_poll|by eauto|by eapply ns_none|by eauto|by eapply ns_ready|by eauto
        |by eapply ns_pending|by eauto]. }
    destruct (decide (Exists (λ pc, pc = WakeStart) (nt_calls s))) as [Hex|Hex].
    { right. apply list.Exists_exists in Hex as (pc & (i & Hi)%list_elem_of_lookup & ->).
      exists i, WakeStart. eexists. split; [done|]. eauto using notify_step. }
    left. apply list.Forall_lookup. intros i pc Hi. destruct pc as [|b|b|]; [|..|done].
    + destruct Hex. apply list.Exists_exists. exists WakeStart. split; [|done]. by eapply list_elem_of_lookup_2.
    + pose proof (proj1 (ni_lock _ Hinv _ _ Hi) eq_refl). congruence.
    + pose proof (proj1 (ni_lock _ Hinv _ _ Hi) eq_refl). congruence.
Qed.

(** The first poll is too early; the timer's call runs the closure. *)
Lemma notified_future_runs_once_witness :
  ∃ s, rtc notify_step poll_future_notify s ∧ nt_fired s = true ∧
    Forall (λ pc, pc = WakeDone) (nt_calls s) ∧ nt_ran s = 1.
Proof.
  assert (∃ s, rtc notify_step poll_future_notify s ∧ nt_fired s = true ∧
    Forall (λ pc, pc = WakeDone) (nt_calls s)) as (s & Hs & Hf & Hd).
  { eexists. split.
    - eapply rtc_l; [by apply (ns_lock 0)|]. eapply rtc_l; [by apply (ns_poll 0)|].
      eapply rtc_l; [by apply (ns_pending 0)|]. eapply rtc_l; [by apply ns_over|].
      eapply rtc_l; [by apply (ns_lock 1)|]. eapply rtc_l; [by apply (ns_poll 1)|].
      apply rtc_once. by apply (ns_ready 1).
    - split; [done|]. by repeat constructor. }
  exists s. split; [done|]. split; [done|]. split; [done|].
  destruct (notified_future_runs_once s Hs) as (_ & H & _). exact (H Hf Hd).
Defined.
