(* ===== verification/Keys.v ===== *)
(** * RocksDB keys

    [dependencies/tiny-mq/src/keys.rs]: the byte layout of every key the
    wallet and the raft log keep in RocksDB. *)

From Stdlib Require Import Strings.Byte.
From S2P Require Import Prelude Bytes.
Local Open Scope Z_scope.

(** ** Constants *)

Definition LOCAL_PREFIX : byte := x01.
Definition DATA_PREFIX : byte := x7a.
Definition DATA_PREFIX_KEY : bytes := [DATA_PREFIX].
Definition DATA_MIN_KEY : bytes := [DATA_PREFIX].
Definition DATA_MAX_KEY : bytes := [byte_of_Z (Z_of_byte DATA_PREFIX + 1)].
Definition DEDUP_PREFIX : byte := x79.
Definition DEDUP_PREFIX_KEY : bytes := [DEDUP_PREFIX].
Definition EVENT_PREFIX : byte := x78.
Definition EVENT_PREFIX_KEY : bytes := [EVENT_PREFIX].
Definition STORE_IDENT_KEY : bytes := [LOCAL_PREFIX; x01].
Definition REGION_RAFT_PREFIX : byte := x02.
Definition REGION_RAFT_PREFIX_KEY : bytes := [LOCAL_PREFIX; REGION_RAFT_PREFIX].
Definition REGION_META_PREFIX : byte := x03.
Definition REGION_META_PREFIX_KEY : bytes := [LOCAL_PREFIX; REGION_META_PREFIX].
Definition RAFT_LOG_SUFFIX : byte := x01.
Definition RAFT_STATE_SUFFIX : byte := x02.
Definition APPLY_STATE_SUFFIX : byte := x03.
Definition REGION_STATE_SUFFIX : byte := x01.

(** ** Raft keys *)

Definition make_region_prefix (region_id : Z) (suffix : byte) : bytes :=
  REGION_RAFT_PREFIX_KEY ++ write_u64 region_id ++ [suffix].

Definition make_region_key (region_id : Z) (suffix : byte) (sub_id : Z) : bytes :=
  REGION_RAFT_PREFIX_KEY ++ write_u64 region_id ++ [suffix] ++ write_u64 sub_id.

Definition raft_log_key (region_id log_index : Z) : bytes :=
  make_region_key region_id RAFT_LOG_SUFFIX log_index.

Definition raft_state_key (region_id : Z) : bytes :=
  make_region_prefix region_id RAFT_STATE_SUFFIX.

Definition apply_state_key (region_id : Z) : bytes :=
  make_region_prefix region_id APPLY_STATE_SUFFIX.

Definition raft_log_index (key : bytes) : run Z :=
  let expect_key_len := (length REGION_RAFT_PREFIX_KEY + 8 + 1 + 8)%nat in
  if negb (length key =? expect_key_len)%nat then Panics
  else read_u64 (drop (expect_key_len - 8) key).

Definition decode_raft_log_key (key : bytes) : run (Z * Z) :=
  let suffix_idx := (length REGION_RAFT_PREFIX_KEY + 8)%nat in
  let expect_key_len := (suffix_idx + 1 + 8)%nat in
  if negb (length key =? expect_key_len)%nat
     || negb (starts_with key REGION_RAFT_PREFIX_KEY)
     || negb (bool_decide (key !! suffix_idx = Some RAFT_LOG_SUFFIX))
  then Panics
  else
    region_id ← read_u64 (take (suffix_idx - length REGION_RAFT_PREFIX_KEY)
                            (drop (length REGION_RAFT_PREFIX_KEY) key));
    index ← read_u64 (drop (suffix_idx + 1) key);
    Returns (region_id, index).

Definition raft_log_prefix (region_id : Z) : bytes :=
  make_region_prefix region_id RAFT_LOG_SUFFIX.

Definition make_region_meta_key (region_id : Z) (suffix : byte) : bytes :=
  REGION_META_PREFIX_KEY ++ write_u64 region_id ++ [suffix].

Definition region_state_key (region_id : Z) : bytes :=
  make_region_meta_key region_id REGION_STATE_SUFFIX.

(** ** Wallet keys: accounts, command ids and events *)

Definition validate_data_key (key : bytes) : bool := starts_with key DATA_PREFIX_KEY.

Definition data_key (key : bytes) : bytes := DATA_PREFIX_KEY ++ key.

Definition origin_data_key (key : bytes) : run bytes :=
  rust_assert (validate_data_key key) (Returns (drop (length DATA_PREFIX_KEY) key)).

Definition validate_dedup_key (key : bytes) : bool := starts_with key DEDUP_PREFIX_KEY.

Definition dedup_key (key : bytes) : bytes := DEDUP_PREFIX_KEY ++ key.

Definition origin_dedup_key (key : bytes) : run bytes :=
  rust_assert (validate_dedup_key key) (Returns (drop (length DEDUP_PREFIX_KEY) key)).

Definition validate_event_key (key : bytes) : bool := starts_with key EVENT_PREFIX_KEY.

Definition event_key (key : bytes) : bytes := EVENT_PREFIX_KEY ++ key.

(** ** Lemmas *)

Global Instance data_key_inj : Inj (=) (=) data_key.
Proof. intros a b. by injection 1. Qed.
Global Instance dedup_key_inj : Inj (=) (=) dedup_key.
Proof. intros a b. by injection 1. Qed.
Global Instance event_key_inj : Inj (=) (=) event_key.
Proof. intros a b. by injection 1. Qed.

Lemma origin_data_key_data_key k : origin_data_key (data_key k) = Returns k.
Proof. done. Qed.
Lemma origin_dedup_key_dedup_key k : origin_dedup_key (dedup_key k) = Returns k.
Proof. done. Qed.

(** The keys [DATA_MIN_KEY .. DATA_MAX_KEY) are exactly the data keys. *)
Lemma data_key_range k :
  (bytes_leb DATA_MIN_KEY k && bytes_ltb k DATA_MAX_KEY) = true ↔ ∃ a, k = data_key a.
Proof.
  unfold bytes_leb, bytes_ltb. split.
  - destruct k as [|b k]; [done|]. unfold DATA_MIN_KEY, DATA_MAX_KEY. cbn [bytes_cmp].
    change (Z_of_byte DATA_PREFIX) with 122. change (Z_of_byte (byte_of_Z _)) with 123.
    intros Hk. exists k. unfold data_key. cbn [app DATA_PREFIX_KEY]. f_equal.
    apply (inj Z_of_byte). change (Z_of_byte DATA_PREFIX) with 122.
    destruct (Z.compare_spec 122 (Z_of_byte b)), (Z.compare_spec (Z_of_byte b) 123);
      try lia; by destruct k.
  - intros [a ->]. cbn. by destruct a.
Qed.

Lemma event_key_cmp a b : bytes_cmp (event_key a) (event_key b) = bytes_cmp a b.
Proof. apply (bytes_cmp_app [EVENT_PREFIX]). Qed.

Lemma make_region_key_cmp r1 r2 s i1 i2 :
  is_u64 r1 → is_u64 r2 → is_u64 i1 → is_u64 i2 →
  bytes_cmp (make_region_key r1 s i1) (make_region_key r2 s i2)
  = match r1 ?= r2 with Eq => i1 ?= i2 | c => c end.
Proof.
  intros. unfold make_region_key. rewrite bytes_cmp_app.
  destruct (Z.compare_spec r1 r2) as [->|Hr|Hr].
  - rewrite !(app_assoc (write_u64 r2)), bytes_cmp_app. by apply write_u64_cmp.
  - pose proof (write_u64_cmp r1 r2) as Hc. rewrite (proj2 (Z.compare_lt_iff _ _) Hr) in Hc.
    apply bytes_cmp_app_l; [by rewrite !length_write_u64|by apply Hc|done].
  - pose proof (write_u64_cmp r1 r2) as Hc. rewrite (proj2 (Z.compare_gt_iff _ _) Hr) in Hc.
    apply bytes_cmp_app_l; [by rewrite !length_write_u64|by apply Hc|done].
Qed.

Lemma raft_log_key_cmp r1 r2 i1 i2 :
  is_u64 r1 → is_u64 r2 → is_u64 i1 → is_u64 i2 →
  bytes_cmp (raft_log_key r1 i1) (raft_log_key r2 i2)
  = match r1 ?= r2 with Eq => i1 ?= i2 | c => c end.
Proof. apply make_region_key_cmp. Qed.

Lemma raft_log_key_lt r i j :
  is_u64 r → is_u64 i → is_u64 j → bytes_lt (raft_log_key r i) (raft_log_key r j) ↔ i < j.
Proof.
  intros. unfold bytes_lt. rewrite raft_log_key_cmp, Z.compare_refl by done.
  apply Z.compare_lt_iff.
Qed.

Lemma raft_log_key_inj r1 r2 i1 i2 :
  is_u64 r1 → is_u64 r2 → is_u64 i1 → is_u64 i2 →
  raft_log_key r1 i1 = raft_log_key r2 i2 → r1 = r2 ∧ i1 = i2.
Proof.
  intros ???? Heq. pose proof (raft_log_key_cmp r1 r2 i1 i2) as Hc.
  rewrite Heq, bytes_cmp_refl in Hc.
  destruct (Z.compare_spec r1 r2); [|by discriminate Hc..].
  split; [done|]. symmetry in Hc. by apply Z.compare_eq, Hc.
Qed.

Lemma length_raft_log_key r i : length (raft_log_key r i) = 19%nat.
Proof. unfold raft_log_key, make_region_key. rewrite !length_app, !length_write_u64. done. Qed.
Lemma length_raft_state_key r : length (raft_state_key r) = 11%nat.
Proof. unfold raft_state_key, make_region_prefix. rewrite !length_app, !length_write_u64. done. Qed.

Lemma raft_log_key_ne_state_key r i r' : raft_log_key r i ≠ raft_state_key r'.
Proof.
  intros Heq. apply (f_equal length) in Heq.
  by rewrite length_raft_log_key, length_raft_state_key in Heq.
Qed.

Lemma raft_log_index_key r i : is_u64 i → raft_log_index (raft_log_key r i) = Returns i.
Proof.
  intros Hi. unfold raft_log_index. rewrite length_raft_log_key. cbn [Nat.eqb negb].
  unfold raft_log_key, make_region_key.
  rewrite !app_assoc, drop_app_length' by (rewrite !length_app, length_write_u64; done).
  by apply read_write_u64.
Qed.

(** The state key of a region comes after all its log keys. *)
Lemma raft_state_key_cmp r' r i :
  is_u64 r' → is_u64 r →
  bytes_cmp (raft_state_key r') (raft_log_key r i) = match r' ?= r with Eq => Gt | c => c end.
Proof.
  intros. unfold raft_state_key, make_region_prefix, raft_log_key, make_region_key.
  rewrite bytes_cmp_app. pose proof (write_u64_cmp r' r) as Hc.
  destruct (Z.compare_spec r' r) as [->|Hr|Hr].
  - by rewrite bytes_cmp_app.
  - apply bytes_cmp_app_l; [by rewrite !length_write_u64|by apply Hc|done].
  - apply bytes_cmp_app_l; [by rewrite !length_write_u64|by apply Hc|done].
Qed.
