(* ===== verification/KeyBuilder.v ===== *)
(** * tikv-util/src/keybuilder.rs: keys built in place

    A buffer with room reserved for a prefix, filled through raw pointers.  A byte that
    was never written is [None]; reading one, or writing past the end, would be
    undefined behaviour and is [Panics]. *)

From Stdlib Require Import Strings.Byte.
From S2P Require Import Prelude Bytes.

Record KeyBuilder := { kb_buf : list (option byte); kb_start : nat }.

(** [n] bytes of a vector that were not written. *)
Definition uninit (n : nat) : list (option byte) := replicate n None.

Definition kb_new (max_size reserved_prefix_len : nat) : run KeyBuilder :=
  rust_assert (reserved_prefix_len <? max_size)%nat (
  Returns {| kb_buf := uninit reserved_prefix_len; kb_start := reserved_prefix_len |}).

Definition kb_from_slice (s : bytes) (reserved_prefix_len : nat) : KeyBuilder :=
  {| kb_buf := uninit reserved_prefix_len ++ (Some <$> s); kb_start := reserved_prefix_len |}.

(** [ptr::copy] of the first [len] bytes to the offset [n]: what was at the first [n]
    positions stays, as far as there was something. *)
Definition shift_right (n : nat) (buf : list (option byte)) : list (option byte) :=
  take n (buf ++ uninit n) ++ buf.

Definition kb_from_vec (vec : bytes) (capacity reserved_prefix_len reserved_suffix_len : nat) :
    KeyBuilder :=
  if (length vec + reserved_prefix_len + reserved_suffix_len <=? capacity)%nat
  then {| kb_buf := if (0 <? reserved_prefix_len)%nat
                    then shift_right reserved_prefix_len (Some <$> vec) else Some <$> vec;
          kb_start := reserved_prefix_len |}
  else kb_from_slice vec reserved_prefix_len.

(** [copy_nonoverlapping] to the front of the buffer. *)
Definition kb_set_prefix (prefix : bytes) (kb : KeyBuilder) : run KeyBuilder :=
  rust_assert (kb_start kb =? length prefix)%nat (
  rust_assert (length prefix <=? length (kb_buf kb))%nat (
  Returns {| kb_buf := (Some <$> prefix) ++ drop (length prefix) (kb_buf kb); kb_start := 0 |})).

Definition kb_append (content : bytes) (kb : KeyBuilder) : KeyBuilder :=
  {| kb_buf := kb_buf kb ++ (Some <$> content); kb_start := kb_start kb |}.

Definition kb_len (kb : KeyBuilder) : nat := length (kb_buf kb) - kb_start kb.
Definition kb_is_empty (kb : KeyBuilder) : bool := (kb_len kb =? 0)%nat.

(** Reading bytes that must have been written. *)
Definition read_bytes (buf : list (option byte)) : run bytes := unwrap (mapM id buf).

Definition kb_as_slice (kb : KeyBuilder) : run bytes := read_bytes (drop (kb_start kb) (kb_buf kb)).

Definition kb_build (kb : KeyBuilder) : run bytes :=
  if (kb_start kb =? 0)%nat then read_bytes (kb_buf kb)
  else read_bytes (take (kb_len kb) (drop (kb_start kb) (kb_buf kb))).

(** ** What is built *)

(** The builder holds [content] behind room for a prefix of [n] bytes. *)
Definition holds (kb : KeyBuilder) (n : nat) (content : bytes) : Prop :=
  kb_start kb = n ∧ ∃ room, length room = n ∧ kb_buf kb = room ++ (Some <$> content).

Lemma read_bytes_Some (s : bytes) : read_bytes (Some <$> s) = Returns s.
Proof.
  unfold read_bytes. replace (mapM id (Some <$> s)) with (Some s); [done|].
  symmetry. apply mapM_fmap_Some. done.
Qed.

Lemma holds_from_slice s n : holds (kb_from_slice s n) n s.
Proof. split; [done|]. exists (uninit n). split; [apply length_replicate|done]. Qed.

Lemma holds_new max_size n kb : kb_new max_size n = Returns kb → holds kb n [].
Proof.
  unfold kb_new. intros Hk. simplify_run. split; [done|]. exists (uninit n).
  split; [apply length_replicate|]. cbn. by rewrite app_nil_r.
Qed.

Lemma holds_from_vec vec capacity n m : holds (kb_from_vec vec capacity n m) n vec.
Proof.
  unfold kb_from_vec. destruct (_ <=? _)%nat; [|apply holds_from_slice]. split; [done|]. cbn.
  destruct n as [|n]; [by exists []|]. cbn [Nat.ltb Nat.leb].
  exists (take (S n) ((Some <$> vec) ++ uninit (S n))). split; [|done].
  rewrite length_take, length_app. unfold uninit. rewrite length_replicate. lia.
Qed.

Lemma holds_append kb n s c : holds kb n s → holds (kb_append c kb) n (s ++ c).
Proof.
  intros (Hs & room & Hr & Hb). split; [done|]. exists room. split; [done|]. cbn.
  by rewrite Hb, fmap_app, (assoc_L (++)).
Qed.

Lemma holds_set_prefix kb n s prefix :
  holds kb n s → length prefix = n →
  ∃ kb', kb_set_prefix prefix kb = Returns kb' ∧ holds kb' 0 (prefix ++ s).
Proof.
  intros (Hs & room & Hr & Hb) Hp. unfold kb_set_prefix. rewrite Hs, Hp, Nat.eqb_refl.
  rewrite (proj2 (Nat.leb_le _ _)) by (rewrite Hb, length_app; lia). cbn.
  eexists; split; [done|]. split; [done|]. exists []. split; [done|]. cbn.
  by rewrite Hb, drop_app_length' by done; rewrite fmap_app.
Qed.

Lemma holds_build kb n s : holds kb n s → kb_build kb = Returns s ∧ kb_as_slice kb = Returns s.
Proof.
  intros (Hs & room & Hr & Hb). unfold kb_build, kb_as_slice, kb_len.
  rewrite Hs, Hb, drop_app_length' by done. rewrite read_bytes_Some. split; [|done].
  destruct (n =? 0)%nat eqn:Hn.
  - apply Nat.eqb_eq in Hn. rewrite Hn in Hr. apply nil_length_inv in Hr as ->. apply read_bytes_Some.
  - rewrite take_ge; [apply read_bytes_Some|]. rewrite length_app. lia.
Qed.

(** A key built from a vector with room for a prefix, the prefix and an appended part
    is their concatenation, whether or not the capacity of the vector sufficed, and
    without the prefix it is the rest; no byte is read that was not written. *)
Theorem key_is_built vec capacity n m prefix content :
  length prefix = n →
  let kb := kb_append content (kb_from_vec vec capacity n m) in
  kb_build kb = Returns (vec ++ content) ∧
  ∃ kb', kb_set_prefix prefix kb = Returns kb' ∧
    kb_build kb' = Returns (prefix ++ vec ++ content) ∧
    kb_as_slice kb' = Returns (prefix ++ vec ++ content) ∧
    kb_len kb' = (n + length vec + length content)%nat.
Proof.
  intros Hp kb. pose proof (holds_append _ _ _ content (holds_from_vec vec capacity n m)) as Hk.
  split; [by apply (holds_build _ _ _ Hk)|].
  destruct (holds_set_prefix _ _ _ _ Hk Hp) as (kb' & Hset & Hk'). exists kb'. split; [done|].
  destruct (holds_build _ _ _ Hk') as [-> ->]. split; [done|]. split; [done|].
  destruct Hk' as (Hs & room & Hr & Hb). unfold kb_len. rewrite Hs, Hb.
  rewrite !length_app, length_fmap, !length_app. lia.
Qed.
