(* ===== verification/Proto.v ===== *)
(** * Protobuf messages

    The messages of [dependencies/hologram-protos/src/proto/firm_wallet/*.proto]
    as rust-protobuf generates them: a field of message type is optional, and
    [get_f()] of an unset field is the default instance.  Field names carry a
    prefix where two messages share a name. *)

From S2P Require Import Prelude Bytes.
Local Open Scope Z_scope.

(** [M::default()]. *)
Class Default (M : Type) := default_instance : M.

(** [get_f()] of an optional message field. *)
Definition get_or_default {M} `{Default M} (o : option M) : M :=
  match o with Some m => m | None => default_instance end.

Global Instance string_default : Default string := EmptyString.
Global Instance option_default {A} : Default (option A) := None.
Global Instance Z_default : Default Z := 0.

(** ** accountpb.proto *)

Record BalanceLimit := { upper : string; lower : string }.
Global Instance BalanceLimit_default : Default BalanceLimit :=
  {| upper := ""; lower := "" |}.

Record AssetClass_Cash := { currency : string }.
Inductive AssetClass_oneof := cash (c : AssetClass_Cash).
Record AssetClass := { asset_class : option AssetClass_oneof }.
Global Instance AssetClass_default : Default AssetClass := {| asset_class := None |}.

Record AccountConfigPb := {
  cfg_balance_limit : option BalanceLimit;
  cfg_asset_class : option AssetClass }.
Global Instance AccountConfigPb_default : Default AccountConfigPb :=
  {| cfg_balance_limit := None; cfg_asset_class := None |}.

Record BalancePb := {
  available : string;
  reservations : gmap string string }.
Global Instance BalancePb_default : Default BalancePb :=
  {| available := ""; reservations := ∅ |}.

Inductive AccountState := InvalidState | Deleted | Locked | Normal.

Record AccountPb := {
  acc_config : option AccountConfigPb;
  acc_balance : option BalancePb;
  acc_state : AccountState;
  acc_account_id : string }.
Global Instance AccountPb_default : Default AccountPb :=
  {| acc_config := None; acc_balance := None; acc_state := InvalidState;
     acc_account_id := "" |}.

Global Instance BalanceLimit_eq_dec : EqDecision BalanceLimit.
Proof. solve_decision. Defined.
Global Instance AssetClass_Cash_eq_dec : EqDecision AssetClass_Cash.
Proof. solve_decision. Defined.
Global Instance AssetClass_oneof_eq_dec : EqDecision AssetClass_oneof.
Proof. solve_decision. Defined.
Global Instance AssetClass_eq_dec : EqDecision AssetClass.
Proof. solve_decision. Defined.
Global Instance AccountConfigPb_eq_dec : EqDecision AccountConfigPb.
Proof. solve_decision. Defined.
Global Instance BalancePb_eq_dec : EqDecision BalancePb.
Proof. solve_decision. Defined.
Global Instance AccountState_eq_dec : EqDecision AccountState.
Proof. solve_decision. Defined.
Global Instance AccountPb_eq_dec : EqDecision AccountPb.
Proof. solve_decision. Defined.

(** ** errorpb.proto and commonpb.proto *)

Record OtherError := { reason : string }.
Record NotLeader := { message : string }.
Inductive ErrorPb_oneof := not_leader (e : NotLeader) | other_error (e : OtherError).
Record ErrorPb := { error_oneof : option ErrorPb_oneof }.

Record ResponseHeader := { rsp_seq_num : Z; rsp_log_index : Z; rsp_offset : Z }.
Global Instance ResponseHeader_default : Default ResponseHeader :=
  {| rsp_seq_num := 0; rsp_log_index := 0; rsp_offset := 0 |}.

(** ** account_management_servicepb.proto *)

Record RequestHeader := { req_dedup_id : string; req_account_id : string }.
Global Instance RequestHeader_default : Default RequestHeader :=
  {| req_dedup_id := ""; req_account_id := "" |}.

Record CreateAccountRequest := {
  create_header : option RequestHeader;
  create_account_config : option AccountConfigPb }.
Record DeleteAccountRequest := { delete_header : option RequestHeader }.
Record LockAccountRequest := { lock_header : option RequestHeader }.
Record UnlockAccountRequest := { unlock_header : option RequestHeader }.
Record UpdateAccountConfigRequest := {
  update_header : option RequestHeader;
  update_balance_limit : option BalanceLimit }.

(** [CreateAccountResponse], [DeleteAccountResponse], [LockAccountResponse],
    [UnlockAccountResponse] and [UpdateAccountConfigResponse] have the same
    fields, each with its own request type. *)
Record AccountResponse (Req : Type) := {
  ar_error : option ErrorPb;
  ar_header : option ResponseHeader;
  ar_request : option Req;
  ar_account : option AccountPb }.
Global Arguments Build_AccountResponse {Req}.
Global Arguments ar_error {Req}.
Global Arguments ar_header {Req}.
Global Arguments ar_request {Req}.
Global Arguments ar_account {Req}.
Global Instance AccountResponse_default {Req} : Default (AccountResponse Req) :=
  {| ar_error := None; ar_header := None; ar_request := None; ar_account := None |}.

Record GetAccountRequest := { get_seq_num : Z; get_account_id : string }.
Record GetAccountResponse := {
  ga_error : option ErrorPb; ga_seq_num : Z; ga_account : option AccountPb }.
Global Instance GetAccountResponse_default : Default GetAccountResponse :=
  {| ga_error := None; ga_seq_num := 0; ga_account := None |}.

(** ** balance_operation_servicepb.proto *)

Record BalanceChange := {
  bc_account_id : string;
  bc_prev_balance : option BalancePb;
  bc_curr_balance : option BalancePb }.
Global Instance BalanceChange_default : Default BalanceChange :=
  {| bc_account_id := ""; bc_prev_balance := None; bc_curr_balance := None |}.

Record TransferSpec := {
  ts_amount : string; ts_from_account_id : string; ts_to_account_id : string;
  ts_metadata : string }.
Global Instance TransferSpec_default : Default TransferSpec :=
  {| ts_amount := ""; ts_from_account_id := ""; ts_to_account_id := "";
     ts_metadata := "" |}.

Record TransferRequest := {
  transfer_dedup_id : string; transfer_spec : option TransferSpec }.
Record TransferResponse := {
  tr_error : option ErrorPb; tr_header : option ResponseHeader;
  tr_request : option TransferRequest;
  tr_from : option BalanceChange; tr_to : option BalanceChange }.
Global Instance TransferResponse_default : Default TransferResponse :=
  {| tr_error := None; tr_header := None; tr_request := None; tr_from := None;
     tr_to := None |}.

Record BalanceOperationSpec := { bos_account_id : string; bos_amount : string }.
Record BatchBalanceOperationRequest := {
  batch_dedup_id : string; balance_operation_spec : list BalanceOperationSpec }.
Record BatchBalanceOperationResponse := {
  bb_error : option ErrorPb; bb_header : option ResponseHeader;
  bb_request : option BatchBalanceOperationRequest;
  balance_changes : list BalanceChange }.
Global Instance BatchBalanceOperationResponse_default :
  Default BatchBalanceOperationResponse :=
  {| bb_error := None; bb_header := None; bb_request := None; balance_changes := [] |}.

Record ReserveRequest := {
  reserve_dedup_id : string; reserve_reservation_id : string;
  reserve_account_id : string; reserve_amount : string }.
Record ReleaseRequest := {
  release_dedup_id : string; release_reservation_id : string;
  release_amount : string; release_account_id : string }.

(** [ReserveResponse] and [ReleaseResponse]. *)
Record BalanceResponse (Req : Type) := {
  br_error : option ErrorPb;
  br_header : option ResponseHeader;
  br_request : option Req;
  br_prev_balance : option BalancePb;
  br_curr_balance : option BalancePb }.
Global Arguments Build_BalanceResponse {Req}.
Global Arguments br_error {Req}.
Global Arguments br_header {Req}.
Global Arguments br_request {Req}.
Global Arguments br_prev_balance {Req}.
Global Arguments br_curr_balance {Req}.
Global Instance BalanceResponse_default {Req} : Default (BalanceResponse Req) :=
  {| br_error := None; br_header := None; br_request := None;
     br_prev_balance := None; br_curr_balance := None |}.

Record QueryBalanceRequest := { qb_account_id : string; qb_seq_num : Z }.
Record QueryBalanceResponse := {
  qbr_error : option ErrorPb; qbr_seq_num : Z; qbr_account_id : string;
  qbr_balance : option BalancePb }.
Global Instance QueryBalanceResponse_default : Default QueryBalanceResponse :=
  {| qbr_error := None; qbr_seq_num := 0; qbr_account_id := ""; qbr_balance := None |}.

(** ** internal_servicepb.proto *)

Record CommandHeader := { command_id : string; process_time_in_sec : Z }.
Global Instance CommandHeader_default : Default CommandHeader :=
  {| command_id := ""; process_time_in_sec := 0 |}.

Inductive CommandPayload_oneof_request :=
| transfer_request (r : TransferRequest)
| batch_balance_operation_request (r : BatchBalanceOperationRequest)
| reserve_request (r : ReserveRequest)
| release_request (r : ReleaseRequest)
| create_account_request (r : CreateAccountRequest)
| delete_account_request (r : DeleteAccountRequest)
| lock_account_request (r : LockAccountRequest)
| unlock_account_request (r : UnlockAccountRequest)
| update_account_config_request (r : UpdateAccountConfigRequest).

Record CommandPayloadPb := { request : option CommandPayload_oneof_request }.
Global Instance CommandPayloadPb_default : Default CommandPayloadPb :=
  {| request := None |}.

Record CommandPb := {
  cmd_header : option CommandHeader; cmd_payload : option CommandPayloadPb }.
Global Instance CommandPb_default : Default CommandPb :=
  {| cmd_header := None; cmd_payload := None |}.

(** [TransferEvent], [ReserveEvent], ... : a message with one [response] field. *)
Record EventOf (Resp : Type) := { response : option Resp }.
Global Arguments Build_EventOf {Resp}.
Global Arguments response {Resp}.
Global Instance EventOf_default {Resp} : Default (EventOf Resp) :=
  {| response := None |}.

Record EventHeader := {
  eh_seq_num : Z; eh_log_index : Z; eh_offset : Z; eh_command_id : string;
  eh_process_time_in_sec : Z }.
Global Instance EventHeader_default : Default EventHeader :=
  {| eh_seq_num := 0; eh_log_index := 0; eh_offset := 0; eh_command_id := "";
     eh_process_time_in_sec := 0 |}.

Inductive EventPayload_oneof_event :=
| transfer_event (e : EventOf TransferResponse)
| batch_balance_operation_event (e : EventOf BatchBalanceOperationResponse)
| reserve_event (e : EventOf (BalanceResponse ReserveRequest))
| release_event (e : EventOf (BalanceResponse ReleaseRequest))
| account_created_event (e : EventOf (AccountResponse CreateAccountRequest))
| account_deleted_event (e : EventOf (AccountResponse DeleteAccountRequest))
| account_locked_event (e : EventOf (AccountResponse LockAccountRequest))
| account_unlock_event (e : EventOf (AccountResponse UnlockAccountRequest))
| account_config_update_event (e : EventOf (AccountResponse UpdateAccountConfigRequest)).

Record EventPayloadPb := { event : option EventPayload_oneof_event }.
Global Instance EventPayloadPb_default : Default EventPayloadPb := {| event := None |}.

Record EventPb := {
  ev_header : option EventHeader; ev_payload : option EventPayloadPb }.
Global Instance EventPb_default : Default EventPb :=
  {| ev_header := None; ev_payload := None |}.

Record QueryEventsRequest := { qe_first_seq_num : Z; qe_last_seq_num : Z }.
Inductive InternalErrorPb_oneof := int_other_error (e : OtherError) | log_truncated.
Record InternalErrorPb := { int_error : option InternalErrorPb_oneof }.
Record QueryEventsResponse := {
  qer_error : option InternalErrorPb; qer_first_seq_num : Z; qer_last_seq_num : Z;
  qer_events : list EventPb; qer_persisted_first_seq_num : Z;
  qer_persisted_last_seq_num : Z }.

(** ** Serialisation

    rust-protobuf's [write_to_bytes] and [parse_from_bytes] (the same function
    as [merge_from_bytes] on a default instance) are outside the repository;
    what the code relies on is that parsing undoes writing. *)
Class ProtoMessage (M : Type) := {
  write_to_bytes : M → bytes;
  parse_from_bytes : bytes → option M }.

Class ProtoRoundTrip (M : Type) `{ProtoMessage M} :=
  parse_write (m : M) : parse_from_bytes (write_to_bytes m) = Some m.
