(* ===== verification/Raftpb.v ===== *)
(** * Messages of the raft layer

    The protobuf messages the message queue stores in the raft log and in its
    databases (eraftpb, metapb, raft_serverpb, raft_cmdpb, kvrpcpb and errorpb of
    kvproto), with the fields the code has. *)

From S2P Require Import Prelude Bytes Proto.
Local Open Scope Z_scope.

Global Instance bool_default : Default bool := false.
Global Instance list_default {A} : Default (list A) := [].

(** ** eraftpb.proto *)

Inductive EntryType := EntryNormal | EntryConfChange | EntryConfChangeV2.
Record Entry := {
  entry_type : EntryType; entry_term : Z; entry_index : Z; entry_data : bytes;
  entry_context : bytes; entry_sync_log : bool }.
Global Instance Entry_default : Default Entry :=
  {| entry_type := EntryNormal; entry_term := 0; entry_index := 0; entry_data := [];
     entry_context := []; entry_sync_log := false |}.

Record HardState := { hs_term : Z; hs_vote : Z; hs_commit : Z }.
Global Instance HardState_default : Default HardState :=
  {| hs_term := 0; hs_vote := 0; hs_commit := 0 |}.
Global Instance HardState_eq_dec : EqDecision HardState.
Proof. solve_decision. Defined.

(** ** metapb.proto *)

Record RegionEpoch := { conf_ver : Z; version : Z }.
Inductive PeerRole := Voter | Learner | IncomingVoter | DemotingVoter.
Record metapb_Peer := { peer_id : Z; peer_store_id : Z; peer_role : PeerRole }.
Global Instance metapb_Peer_default : Default metapb_Peer :=
  {| peer_id := 0; peer_store_id := 0; peer_role := Voter |}.
Record Region := {
  region_id : Z; region_start_key : bytes; region_end_key : bytes;
  region_epoch : option RegionEpoch; region_peers : list metapb_Peer }.
Global Instance Region_default : Default Region :=
  {| region_id := 0; region_start_key := []; region_end_key := []; region_epoch := None;
     region_peers := [] |}.
Global Instance PeerRole_eq_dec : EqDecision PeerRole.
Proof. solve_decision. Defined.
Global Instance metapb_Peer_eq_dec : EqDecision metapb_Peer.
Proof. solve_decision. Defined.

(** ** raft_serverpb.proto *)

Record RaftTruncatedState := { ts_index : Z; ts_term : Z }.
Global Instance RaftTruncatedState_default : Default RaftTruncatedState :=
  {| ts_index := 0; ts_term := 0 |}.

Record RaftLocalState := { rls_hard_state : option HardState; rls_last_index : Z }.
Global Instance RaftLocalState_default : Default RaftLocalState :=
  {| rls_hard_state := None; rls_last_index := 0 |}.
Global Instance RaftLocalState_eq_dec : EqDecision RaftLocalState.
Proof. solve_decision. Defined.

Record RaftApplyState := {
  as_applied_index : Z; as_last_commit_index : Z; as_commit_index : Z; as_commit_term : Z;
  as_truncated_state : option RaftTruncatedState }.
Global Instance RaftApplyState_default : Default RaftApplyState :=
  {| as_applied_index := 0; as_last_commit_index := 0; as_commit_index := 0;
     as_commit_term := 0; as_truncated_state := None |}.

Record StoreIdent := { si_cluster_id : Z; si_store_id : Z }.
Record RegionLocalState := { rl_region : option Region }.

(** ** errorpb.proto *)

Record errorpb_NotLeader := { nl_region_id : Z; nl_leader : option metapb_Peer }.
Record errorpb_StoreNotMatch := { request_store_id : Z; actual_store_id : Z }.
Record errorpb_RegionNotFound := { rnf_region_id : Z }.
Record errorpb_RegionNotInitialized := { rni_region_id : Z }.
Record errorpb_ServerIsBusy := { sb_reason : string; sb_backoff_ms : Z }.
Inductive errorpb_StaleCommand := StaleCommandPb.
Record errorpb_RaftEntryTooLarge := { too_large_region_id : Z; too_large_entry_size : Z }.
Record errorpb_Error := {
  err_message : string;
  err_not_leader : option errorpb_NotLeader;
  err_region_not_found : option errorpb_RegionNotFound;
  err_server_is_busy : option errorpb_ServerIsBusy;
  err_stale_command : option errorpb_StaleCommand;
  err_store_not_match : option errorpb_StoreNotMatch;
  err_raft_entry_too_large : option errorpb_RaftEntryTooLarge;
  err_region_not_initialized : option errorpb_RegionNotInitialized }.
Global Instance errorpb_Error_default : Default errorpb_Error :=
  {| err_message := ""; err_not_leader := None; err_region_not_found := None;
     err_server_is_busy := None; err_stale_command := None; err_store_not_match := None;
     err_raft_entry_too_large := None; err_region_not_initialized := None |}.

(** ** kvrpcpb.proto *)

Record ContextPb := { ctx_region_id : Z; ctx_peer : option metapb_Peer; ctx_term : Z }.
Global Instance ContextPb_default : Default ContextPb :=
  {| ctx_region_id := 0; ctx_peer := None; ctx_term := 0 |}.
Record MessageQueueRequest := { mq_context : option ContextPb; mq_payload : bytes }.
Global Instance MessageQueueRequest_default : Default MessageQueueRequest :=
  {| mq_context := None; mq_payload := [] |}.
Record MessageQueueResponse := { mqr_index : Z; mqr_offset : Z; mqr_error : string }.
Global Instance MessageQueueResponse_default : Default MessageQueueResponse :=
  {| mqr_index := 0; mqr_offset := 0; mqr_error := "" |}.

(** ** raft_cmdpb.proto *)

Inductive CmdType := Invalid | MessageQueue.
Global Instance CmdType_eq_dec : EqDecision CmdType.
Proof. solve_decision. Defined.

Record Request := { req_cmd_type : CmdType; req_message_queue : option MessageQueueRequest }.
Record Response := { resp_cmd_type : CmdType; resp_message_queue : option MessageQueueResponse }.
Global Instance Response_default : Default Response :=
  {| resp_cmd_type := Invalid; resp_message_queue := None |}.

Record CompactLogRequest := { compact_index : Z; compact_term : Z }.
Global Instance CompactLogRequest_default : Default CompactLogRequest :=
  {| compact_index := 0; compact_term := 0 |}.
Inductive CompactLogResponse := CompactLogResponsePb.
Inductive AdminCmdType := InvalidAdmin | CompactLog.
Record AdminRequest := { adm_cmd_type : AdminCmdType; adm_compact_log : option CompactLogRequest }.
Global Instance AdminRequest_default : Default AdminRequest :=
  {| adm_cmd_type := InvalidAdmin; adm_compact_log := None |}.
Record AdminResponse := {
  admr_cmd_type : AdminCmdType; admr_compact_log : option CompactLogResponse }.
Global Instance AdminResponse_default : Default AdminResponse :=
  {| admr_cmd_type := InvalidAdmin; admr_compact_log := None |}.

Inductive StatusCmdType := InvalidStatus | RegionLeader | RegionDetail.
Record StatusRequest := { st_cmd_type : StatusCmdType }.
Global Instance StatusRequest_default : Default StatusRequest :=
  {| st_cmd_type := InvalidStatus |}.
Record RegionLeaderResponse := { rlr_leader : option metapb_Peer }.
Record RegionDetailResponse := { rdr_region : option Region; rdr_leader : option metapb_Peer }.
Record StatusResponse := {
  str_cmd_type : StatusCmdType;
  str_region_leader : option RegionLeaderResponse;
  str_region_detail : option RegionDetailResponse }.
Global Instance StatusResponse_default : Default StatusResponse :=
  {| str_cmd_type := InvalidStatus; str_region_leader := None; str_region_detail := None |}.

Record RaftRequestHeader := {
  rh_region_id : Z; rh_peer : option metapb_Peer; rh_uuid : bytes; rh_term : Z }.
Global Instance RaftRequestHeader_default : Default RaftRequestHeader :=
  {| rh_region_id := 0; rh_peer := None; rh_uuid := []; rh_term := 0 |}.
Global Instance RaftRequestHeader_eq_dec : EqDecision RaftRequestHeader.
Proof. solve_decision. Defined.

Record RaftResponseHeader := {
  rsp_error : option errorpb_Error; rsp_uuid : bytes; rsp_current_term : Z }.
Global Instance RaftResponseHeader_default : Default RaftResponseHeader :=
  {| rsp_error := None; rsp_uuid := []; rsp_current_term := 0 |}.

Record RaftCmdRequest := {
  rc_header : option RaftRequestHeader;
  rc_requests : list Request;
  rc_admin_request : option AdminRequest;
  rc_status_request : option StatusRequest }.
Global Instance RaftCmdRequest_default : Default RaftCmdRequest :=
  {| rc_header := None; rc_requests := []; rc_admin_request := None;
     rc_status_request := None |}.

Record RaftCmdResponse := {
  rr_header : option RaftResponseHeader;
  rr_responses : list Response;
  rr_admin_response : option AdminResponse;
  rr_status_response : option StatusResponse }.
Global Instance RaftCmdResponse_default : Default RaftCmdResponse :=
  {| rr_header := None; rr_responses := []; rr_admin_response := None;
     rr_status_response := None |}.

(** Proto3 writes no byte for a field with its default value, and at least one
    byte for any other: only the default instance has an empty encoding. *)
Class ProtoEmpty (M : Type) `{ProtoMessage M, Default M} :=
  write_empty (m : M) : write_to_bytes m = [] → m = default_instance.
