(* ===== verification/Errors.v ===== *)
(** * Decimal numbers and errors

    The interface of the [bigdecimal] crate, on which all amounts rest, and
    the error enums of [firm-wallet-service/src/errors]. *)

From S2P Require Import Prelude Proto.

(** ** The [bigdecimal] crate

    A third-party library: its types and functions are parameters.  The laws
    are its documented behaviour, stated through the rational number a
    decimal denotes: arithmetic and comparison are exact, [normalized] only
    drops trailing zeros, and printing a decimal gives a text that reads back
    as the same number. *)
Class BigDecimal := {
  bigdecimal : Type;
  ParseBigDecimalError : Type;
  bd_from_str : string → result ParseBigDecimalError bigdecimal;
  bd_to_string : bigdecimal → string;
  bd_add : bigdecimal → bigdecimal → bigdecimal;
  bd_neg : bigdecimal → bigdecimal;
  bd_cmp : bigdecimal → bigdecimal → comparison;
  bd_normalized : bigdecimal → bigdecimal }.

Class BigDecimalLaws (BD : BigDecimal) := {
  bd_value : bigdecimal → Qc;
  bd_value_add a b : bd_value (bd_add a b) = (bd_value a + bd_value b)%Qc;
  bd_value_neg a : bd_value (bd_neg a) = (- bd_value a)%Qc;
  bd_value_normalized a : bd_value (bd_normalized a) = bd_value a;
  bd_cmp_value a b : bd_cmp a b = (bd_value a ?= bd_value b)%Qc;
  bd_from_to_string a :
    ∃ b, bd_from_str (bd_to_string a) = Ok b ∧ bd_value b = bd_value a;
  bd_from_str_zero : ∃ z, bd_from_str "0.0" = Ok z ∧ bd_value z = 0%Qc;
  bd_from_str_empty : ∃ e, bd_from_str "" = Err e }.

(** [{:?}] formatting. *)
Class DebugFmt (A : Type) := debug_fmt : A → string.

Section errors.
Context {BD : BigDecimal}.

(** ** errors/balance_operation_error.rs *)
Inductive BalanceOperationError :=
| BalanceLimitExceeded (limit : BalanceLimit)
| InvalidAccountState (s : AccountState)
| BalanceAccountNotExist (account : string)
| IncompatibleAssetClass (from to : AssetClass)
| ParseError (number : string) (err : ParseBigDecimalError)
| ReservationIdAlreadyExist (reservation_id : string)
| ReservationIdNotFound (reservation_id : string)
| InvalidAmount (amount : string).

(** ** errors/account_management_error.rs *)
Inductive AccountManagementError :=
| AccountNotExist (account_id : string)
| AccountAlreadyExist (account_id : string)
| InvalidStateTransition (from to : AccountState)
| BalanceIsNotZero (balance : BalancePb).

(** ** errors/common_error.rs *)
Inductive CommonError :=
| Timeout
| ConflictDedupId (dedup_id : string)
| DataNotReady (requested_seq_num available_seq_num : Z)
| MessageQueueError (details : string).

(** ** errors/general_error.rs: the [#[from]] conversions are the constructors *)
Inductive GeneralError :=
| EBalanceOperation (e : BalanceOperationError)
| EAccountManagement (e : AccountManagementError)
| ECommon (e : CommonError).

(** ** errors/internal_error.rs *)
Inductive InternalError :=
| LogTruncated
| InternalOtherError (reason : string).

(** ** Conversion to protobuf: [into_proto] *)

Context `{!DebugFmt BalanceOperationError, !DebugFmt AccountManagementError,
          !DebugFmt CommonError, !DebugFmt string}.

Definition other_error_pb (text : string) : ErrorPb :=
  {| error_oneof := Some (other_error {| reason := text |}) |}.

Definition balance_operation_into_proto (e : BalanceOperationError) : ErrorPb :=
  other_error_pb (debug_fmt e).

Definition account_management_into_proto (e : AccountManagementError) : ErrorPb :=
  other_error_pb (debug_fmt e).

Definition is_not_leader_error (err : string) : bool :=
  match String.index 0 "not_leader: Some(NotLeader" err with
  | Some _ => true
  | None => false
  end.

Definition common_into_proto (e : CommonError) : ErrorPb :=
  match e with
  | MessageQueueError err =>
      if is_not_leader_error err
      then {| error_oneof := Some (not_leader {| message := err |}) |}
      else other_error_pb (debug_fmt err)
  | _ => other_error_pb (debug_fmt e)
  end.

Definition general_into_proto (e : GeneralError) : ErrorPb :=
  match e with
  | EBalanceOperation e => balance_operation_into_proto e
  | EAccountManagement e => account_management_into_proto e
  | ECommon e => common_into_proto e
  end.

Definition internal_into_proto (e : InternalError) : InternalErrorPb :=
  {| int_error := Some match e with
                       | LogTruncated => log_truncated
                       | InternalOtherError r => int_other_error {| reason := r |}
                       end |}.
End errors.

Abbreviation GeneralResult := (result GeneralError).
Abbreviation InternalResult := (result InternalError).

Example is_not_leader_error_examples :
  (is_not_leader_error "RequestFailed(Error { not_leader: Some(NotLeader { region_id: 1",
   is_not_leader_error "RequestFailed(Error { not_leader: None }") = (true, false).
Proof. reflexivity. Qed.
