(* ===== verification/RefDecimal.v ===== *)
(** * A reference implementation of the decimal interface

    A concrete [BigDecimal]: an integer coefficient and a number of decimal
    places, read from and printed to plain decimal notation.  It shows that
    the laws of [BigDecimalLaws] can hold together, and the witnesses of the
    development compute with it. *)

From Stdlib Require Import Ascii String QArith Qcanon.
From S2P Require Import Prelude Errors.
Local Open Scope Z_scope.

Record dec := Dec { coeff : Z; places : nat }.

Fixpoint pow10 (n : nat) : positive :=
  match n with O => 1 | S n => 10 * pow10 n end%positive.

Definition dec_value (d : dec) : Qc := Q2Qc (coeff d # pow10 (places d)).

(** ** Arithmetic *)

Definition dec_add (a b : dec) : dec :=
  let s := Nat.max (places a) (places b) in
  Dec (coeff a * Zpos (pow10 (s - places a)) + coeff b * Zpos (pow10 (s - places b))) s.

Definition dec_neg (a : dec) : dec := Dec (- coeff a) (places a).

Definition dec_cmp (a b : dec) : comparison :=
  coeff a * Zpos (pow10 (places b)) ?= coeff b * Zpos (pow10 (places a)).

Fixpoint normalize (c : Z) (s : nat) : dec :=
  match s with
  | O => Dec c O
  | S s' => if c mod 10 =? 0 then normalize (c / 10) s' else Dec c s
  end.

Definition dec_normalized (d : dec) : dec := normalize (coeff d) (places d).

(** ** Text *)

Definition digit_char (d : Z) : ascii := ascii_of_nat (Z.to_nat d + 48).
Definition char_digit (c : ascii) : option Z :=
  let n := nat_of_ascii c in
  if ((48 <=? n) && (n <=? 57))%nat then Some (Z.of_nat (n - 48)) else None.

(** Least significant digit first. *)
Fixpoint digits (fuel : nat) (z : Z) : list Z :=
  match fuel with
  | O => []
  | S fuel => if z =? 0 then [] else z mod 10 :: digits fuel (z / 10)
  end.
Definition all_digits (z : Z) : list Z := digits (Z.to_nat (Z.log2 z) + 1) z.

Definition dec_to_chars (d : dec) : list ascii :=
  let ds := all_digits (Z.abs (coeff d)) in
  let ds := (ds ++ replicate (S (places d) - length ds) 0)%list in
  let int := List.map digit_char (rev (drop (places d) ds)) in
  let frac := List.map digit_char (rev (take (places d) ds)) in
  ((if coeff d <? 0 then ["-"%char] else [])
   ++ int ++ (if places d =? 0 then [] else "."%char :: frac)%nat)%list.

Definition dec_to_string (d : dec) : string := string_of_list_ascii (dec_to_chars d).

Inductive dec_error := Empty | BadChar (c : ascii).

(** Digits after the point, then digits before it. *)
Fixpoint parse_frac (l : list ascii) (acc : Z) (s : nat) : result dec_error dec :=
  match l with
  | [] => Ok (Dec acc s)
  | c :: l => match char_digit c with
              | Some d => parse_frac l (10 * acc + d) (S s)
              | None => Err (BadChar c)
              end
  end.
Fixpoint parse_int (l : list ascii) (acc : Z) : result dec_error dec :=
  match l with
  | [] => Ok (Dec acc 0)
  | c :: l => if bool_decide (c = "."%char) then parse_frac l acc 0
              else match char_digit c with
                   | Some d => parse_int l (10 * acc + d)
                   | None => Err (BadChar c)
                   end
  end.

Definition dec_from_chars (l : list ascii) : result dec_error dec :=
  match l with
  | [] => Err Empty
  | c :: l' => if bool_decide (c = "-"%char)
               then match l' with [] => Err Empty | _ => dec_neg <$> parse_int l' 0 end
               else parse_int l 0
  end.
Definition dec_from_str (s : string) : result dec_error dec :=
  dec_from_chars (list_ascii_of_string s).

Global Instance RefDecimal : BigDecimal := {|
  bigdecimal := dec; ParseBigDecimalError := dec_error;
  bd_from_str := dec_from_str; bd_to_string := dec_to_string;
  bd_add := dec_add; bd_neg := dec_neg; bd_cmp := dec_cmp;
  bd_normalized := dec_normalized |}.

Example ref_decimal_examples :
  (bd_to_string (bd_normalized (bd_add (Dec 1234 2) (Dec 20 3))),
   bd_to_string (bd_neg (Dec 201 1)), bd_to_string (Dec 5 3),
   bd_from_str "-20.1") = ("12.36", "-20.1", "0.005", Ok (Dec (-201) 1)).
Proof. reflexivity. Qed.

(** ** The laws *)

Lemma pow10_add m n : (pow10 (m + n) = pow10 m * pow10 n)%positive.
Proof. induction m as [|m IH]; cbn [pow10 Nat.add]; [done|]. rewrite IH. lia. Qed.

Lemma dec_value_eq a b :
  coeff a * Zpos (pow10 (places b)) = coeff b * Zpos (pow10 (places a)) →
  dec_value a = dec_value b.
Proof. intros H. by apply Q2Qc_eq_iff. Qed.

Lemma dec_value_add a b : dec_value (dec_add a b) = (dec_value a + dec_value b)%Qc.
Proof.
  unfold dec_value, dec_add. cbn [coeff places].
  assert (∃ s, Nat.max (places a) (places b) = s ∧ (places a ≤ s)%nat ∧ (places b ≤ s)%nat)
    as (s & -> & Ha & Hb) by (eexists; split; [done|lia]).
  apply Qc_is_canon. cbn. rewrite !Qred_correct. unfold Qeq. cbn.
  assert (pow10 s = pow10 (places a) * pow10 (s - places a))%positive as Hsa
    by (rewrite <-pow10_add; f_equal; lia).
  assert (pow10 s = pow10 (places b) * pow10 (s - places b))%positive as Hsb
    by (rewrite <-pow10_add; f_equal; lia).
  rewrite Pos2Z.inj_mul. apply (f_equal Zpos) in Hsa, Hsb.
  rewrite Pos2Z.inj_mul in Hsa, Hsb.
  transitivity
    (coeff a * Zpos (pow10 (places b)) * (Zpos (pow10 (places a)) * Zpos (pow10 (s - places a)))
     + coeff b * Zpos (pow10 (places a)) * (Zpos (pow10 (places b)) * Zpos (pow10 (s - places b)))).
  { ring. }
  rewrite <-Hsa, <-Hsb. ring.
Qed.

Lemma dec_value_neg a : dec_value (dec_neg a) = (- dec_value a)%Qc.
Proof.
  unfold dec_value, dec_neg. cbn. apply Qc_is_canon. cbn. by rewrite !Qred_correct.
Qed.

Lemma dec_cmp_value a b : dec_cmp a b = (dec_value a ?= dec_value b)%Qc.
Proof. unfold dec_value, Qccompare. cbn. by rewrite <-Qred_compare. Qed.

Lemma normalize_value c s : dec_value (normalize c s) = dec_value (Dec c s).
Proof.
  revert c. induction s as [|s IH]; intros c; cbn; [done|].
  destruct (Z.eqb_spec (c mod 10) 0) as [Hc|]; [|done].
  rewrite IH. apply dec_value_eq. cbn [coeff places pow10].
  pose proof (Z.div_mod c 10). lia.
Qed.

(** *** Reading back what was printed *)

Fixpoint lsb (ds : list Z) : Z :=
  match ds with [] => 0 | d :: ds => d + 10 * lsb ds end.

Abbreviation is_digit := (λ d, 0 ≤ d < 10).

Lemma digits_value fuel z : 0 ≤ z < 2 ^ Z.of_nat fuel → lsb (digits fuel z) = z.
Proof.
  revert z. induction fuel as [|fuel IH]; intros z Hz; cbn [digits lsb].
  - cbn in Hz. lia.
  - rewrite Nat2Z.inj_succ, Z.pow_succ_r in Hz by lia.
    destruct (Z.eqb_spec z 0) as [->|]; [done|]. cbn [lsb]. rewrite IH.
    + pose proof (Z.div_mod z 10). lia.
    + split; [apply Z.div_pos; lia|]. apply Z.div_lt_upper_bound; lia.
Qed.

Lemma all_digits_value z : 0 ≤ z → lsb (all_digits z) = z.
Proof.
  intros Hz. apply digits_value. split; [done|].
  destruct (decide (z = 0)) as [->|]; [done|].
  pose proof (Z.log2_spec z). pose proof (Z.log2_nonneg z).
  replace (Z.of_nat (Z.to_nat (Z.log2 z) + 1)) with (Z.succ (Z.log2 z)) by lia. lia.
Qed.

Lemma digits_range fuel z : Forall is_digit (digits fuel z).
Proof.
  revert z. induction fuel as [|fuel IH]; intros z; cbn [digits]; [done|].
  destruct (z =? 0); [done|]. constructor; [apply Z.mod_pos_bound; lia|auto].
Qed.

Lemma lsb_app a b : lsb (a ++ b) = lsb a + 10 ^ Z.of_nat (length a) * lsb b.
Proof.
  induction a as [|d a IH]; cbn [lsb app length]; [lia|].
  rewrite IH, Nat2Z.inj_succ, Z.pow_succ_r by lia. ring.
Qed.

Lemma lsb_zeros n : lsb (replicate n 0) = 0.
Proof. induction n as [|n IH]; cbn; lia. Qed.

Lemma char_digit_char d : is_digit d →
  char_digit (digit_char d) = Some d ∧ digit_char d ≠ "."%char ∧ digit_char d ≠ "-"%char.
Proof.
  cbn. intros Hd.
  assert (d = 0 ∨ d = 1 ∨ d = 2 ∨ d = 3 ∨ d = 4 ∨ d = 5 ∨ d = 6 ∨ d = 7 ∨ d = 8 ∨ d = 9)
    as H by lia.
  destruct_or! H; subst d; split_and!; done.
Qed.

Lemma parse_frac_digits ds rest acc s :
  Forall is_digit ds →
  parse_frac (List.map digit_char (rev ds) ++ rest) acc s
  = parse_frac rest (acc * 10 ^ Z.of_nat (length ds) + lsb ds) (length ds + s).
Proof.
  intros Hds. revert rest. induction Hds as [|d ds Hd Hds IH]; intros rest; cbn [rev].
  - cbn. by rewrite Z.mul_1_r, Z.add_0_r.
  - rewrite map_app, <-app_assoc, IH. cbn [List.map app parse_frac].
    rewrite (proj1 (char_digit_char d Hd)). f_equal.
    cbn [lsb length]. rewrite Nat2Z.inj_succ, Z.pow_succ_r by lia. ring.
Qed.

Lemma parse_int_digits ds rest acc :
  Forall is_digit ds →
  parse_int (List.map digit_char (rev ds) ++ rest) acc
  = parse_int rest (acc * 10 ^ Z.of_nat (length ds) + lsb ds).
Proof.
  intros Hds. revert rest. induction Hds as [|d ds Hd Hds IH]; intros rest; cbn [rev].
  - cbn. by rewrite Z.mul_1_r, Z.add_0_r.
  - rewrite map_app, <-app_assoc, IH. cbn [List.map app parse_int].
    destruct (char_digit_char d Hd) as (-> & Hdot & _).
    rewrite bool_decide_eq_false_2 by done. f_equal.
    cbn [lsb length]. rewrite Nat2Z.inj_succ, Z.pow_succ_r by lia. ring.
Qed.

Lemma parse_dec_chars ds s :
  Forall is_digit ds → (s ≤ length ds)%nat →
  parse_int (List.map digit_char (rev (drop s ds))
             ++ (if (s =? 0)%nat then [] else "."%char :: List.map digit_char (rev (take s ds)))) 0
  = Ok (Dec (lsb ds) s).
Proof.
  intros Hds Hs. rewrite parse_int_digits by (by apply Forall_drop).
  rewrite Z.mul_0_l, Z.add_0_l. destruct (Nat.eqb_spec s 0) as [->|].
  - done.
  - cbn [parse_int]. rewrite bool_decide_eq_true_2 by done.
    rewrite <-(app_nil_r (List.map _ _)), parse_frac_digits by (by apply Forall_take).
    cbn [parse_frac]. rewrite length_take_le by done.
    rewrite <-(take_drop s ds) at 3. rewrite lsb_app, length_take_le by done.
    do 2 f_equal; lia.
Qed.

Lemma dec_from_to_chars d : dec_from_chars (dec_to_chars d) = Ok d.
Proof.
  destruct d as [c s]. unfold dec_to_chars. cbn [coeff places].
  set (ds := (all_digits (Z.abs c) ++ _)%list).
  assert (Forall is_digit ds) as Hds.
  { apply Forall_app. split; [apply digits_range|]. by apply Forall_replicate. }
  assert (S s ≤ length ds)%nat as Hlen.
  { unfold ds. rewrite length_app, length_replicate. lia. }
  assert (lsb ds = Z.abs c) as Hval.
  { unfold ds. rewrite lsb_app, lsb_zeros, all_digits_value by lia. lia. }
  pose proof (parse_dec_chars ds s Hds ltac:(lia)) as Hparse. rewrite Hval in Hparse.
  assert (∃ x l, is_digit x ∧ rev (drop s ds) = x :: l) as (x & l & Hx & Hrev).
  { assert (Forall is_digit (rev (drop s ds))) as Hf
      by (by apply Forall_rev, Forall_drop).
    destruct (rev (drop s ds)) as [|x l] eqn:E; [|inversion Hf; eauto].
    apply (f_equal length) in E. rewrite length_rev, length_drop in E. cbn in E. lia. }
  rewrite Hrev in *. cbn [List.map app] in *.
  destruct (char_digit_char x Hx) as (_ & _ & Hdash).
  destruct (Z.ltb_spec c 0) as [Hneg|Hpos]; cbn [app dec_from_chars].
  - rewrite bool_decide_eq_true_2 by done. rewrite Hparse. cbn. unfold dec_neg. cbn.
    do 2 f_equal. lia.
  - rewrite bool_decide_eq_false_2 by done. rewrite Hparse. do 2 f_equal. lia.
Qed.

Lemma dec_from_to_string d : dec_from_str (dec_to_string d) = Ok d.
Proof.
  unfold dec_from_str, dec_to_string. rewrite list_ascii_of_string_of_list_ascii.
  apply dec_from_to_chars.
Qed.

Global Instance RefDecimal_laws : BigDecimalLaws RefDecimal.
Proof.
  refine {| bd_value := dec_value : @bigdecimal RefDecimal → Qc |}.
  - apply dec_value_add.
  - apply dec_value_neg.
  - intros [c s]. apply normalize_value.
  - apply dec_cmp_value.
  - intros a. exists a. split; [apply dec_from_to_string|done].
  - exists (Dec 0 1). split; [done|]. by apply Qc_is_canon.
  - by exists Empty.
Defined.
