(* ===== verification/BalanceCalculator.v ===== *)
(** * balance_calculator.rs

    Arithmetic on numbers in text form. *)

From S2P Require Import Prelude Proto Errors.

Section calculator.
Context {BD : BigDecimal}.

Definition parse_number (s : string) : GeneralResult bigdecimal :=
  map_err (λ err, EBalanceOperation (ParseError s err)) (bd_from_str s).

Definition calc_add (lhs rhs : string) : GeneralResult string :=
  lhs_decimal ← parse_number lhs;
  rhs_decimal ← parse_number rhs;
  let result := bd_add lhs_decimal rhs_decimal in
  Ok (bd_to_string (bd_normalized result)).

Definition calc_neg (input : string) : GeneralResult string :=
  d ← parse_number input;
  Ok (bd_to_string (bd_neg d)).

Definition calc_cmp (lhs rhs : string) : GeneralResult comparison :=
  lhs_decimal ← parse_number lhs;
  rhs_decimal ← parse_number rhs;
  Ok (bd_cmp lhs_decimal rhs_decimal).
End calculator.

(** ** The number a text denotes *)
Section value.
Context {BD : BigDecimal} {BDL : BigDecimalLaws BD}.

Definition value_of (s : string) : option Qc :=
  match bd_from_str s with Ok d => Some (bd_value d) | Err _ => None end.

(** The amount of a text, [0] when it is not a number. *)
Definition money (s : string) : Qc := default 0%Qc (value_of s).

Lemma parse_number_Ok s d :
  parse_number s = Ok d → value_of s = Some (bd_value d).
Proof. unfold parse_number, value_of. by destruct (bd_from_str s); intros [= ->]. Qed.

Lemma parse_number_value s v :
  value_of s = Some v → ∃ d, parse_number s = Ok d ∧ bd_value d = v.
Proof.
  unfold parse_number, value_of. destruct (bd_from_str s) as [d|]; [|done].
  intros [= <-]. by exists d.
Qed.

Lemma parse_number_Err s e :
  parse_number s = Err e →
  value_of s = None ∧ ∃ err, e = EBalanceOperation (ParseError s err).
Proof.
  unfold parse_number, value_of. destruct (bd_from_str s); cbn; [done|].
  intros [= <-]. eauto.
Qed.

Lemma value_of_money s v : value_of s = Some v → money s = v.
Proof. unfold money. by intros ->. Qed.

Lemma value_of_zero : value_of "0.0" = Some 0%Qc.
Proof.
  unfold value_of. destruct bd_from_str_zero as (z & -> & Hz). by rewrite Hz.
Qed.

Lemma value_of_empty : value_of "" = None.
Proof. unfold value_of. destruct bd_from_str_empty as [e ->]. done. Qed.

Lemma value_of_to_string d : value_of (bd_to_string d) = Some (bd_value d).
Proof.
  unfold value_of. destruct (bd_from_to_string d) as (b & -> & ->). done.
Qed.

Lemma calc_add_total a b x y :
  value_of a = Some x → value_of b = Some y →
  ∃ s, calc_add a b = Ok s ∧ value_of s = Some (x + y)%Qc.
Proof.
  intros (da & Ha & <-)%parse_number_value (db & Hb & <-)%parse_number_value.
  unfold calc_add. rewrite Ha. cbn. rewrite Hb. cbn. eexists. split; [done|].
  by rewrite value_of_to_string, bd_value_normalized, bd_value_add.
Qed.

Lemma calc_neg_total a x :
  value_of a = Some x →
  ∃ s, calc_neg a = Ok s ∧ value_of s = Some (- x)%Qc.
Proof.
  intros (da & Ha & <-)%parse_number_value. unfold calc_neg. rewrite Ha. cbn.
  eexists. split; [done|]. by rewrite value_of_to_string, bd_value_neg.
Qed.

Lemma calc_cmp_total a b x y :
  value_of a = Some x → value_of b = Some y → calc_cmp a b = Ok (x ?= y)%Qc.
Proof.
  intros (da & Ha & <-)%parse_number_value (db & Hb & <-)%parse_number_value.
  unfold calc_cmp. rewrite Ha. cbn. rewrite Hb. cbn. by rewrite bd_cmp_value.
Qed.

Lemma calc_add_Ok a b s :
  calc_add a b = Ok s →
  ∃ x y, value_of a = Some x ∧ value_of b = Some y ∧ value_of s = Some (x + y)%Qc.
Proof.
  unfold calc_add. intros Hs. simplify_run.
  repeat match goal with H : parse_number _ = Ok _ |- _ => apply parse_number_Ok in H end.
  do 2 eexists. split_and!; [done|done|].
  by rewrite value_of_to_string, bd_value_normalized, bd_value_add.
Qed.

Lemma calc_neg_Ok a s :
  calc_neg a = Ok s → ∃ x, value_of a = Some x ∧ value_of s = Some (- x)%Qc.
Proof.
  unfold calc_neg. intros Hs. simplify_run.
  match goal with H : parse_number _ = Ok _ |- _ => apply parse_number_Ok in H end.
  eexists. split; [done|]. by rewrite value_of_to_string, bd_value_neg.
Qed.

Lemma calc_cmp_Ok a b c :
  calc_cmp a b = Ok c →
  ∃ x y, value_of a = Some x ∧ value_of b = Some y ∧ c = (x ?= y)%Qc.
Proof.
  unfold calc_cmp. intros Hs. simplify_run.
  repeat match goal with H : parse_number _ = Ok _ |- _ => apply parse_number_Ok in H end.
  do 2 eexists. split_and!; [done|done|]. apply bd_cmp_value.
Qed.
End value.
