(* ===== verification/Account.v ===== *)
(** * account.rs

    An account: its balance (an available amount and named reservations), its
    configuration and its state.  Every update is copy-on-write: it returns a
    new account or an error. *)

From S2P Require Import Prelude Proto Errors RefDecimal BalanceCalculator.

Section account.
Context {BD : BigDecimal}.

(** ** Accessors and protobuf setters *)

Definition get_balance (a : AccountPb) : BalancePb := get_or_default (acc_balance a).
Definition get_config (a : AccountPb) : AccountConfigPb := get_or_default (acc_config a).
Definition account_id (a : AccountPb) : string := acc_account_id a.

Definition set_available (v : string) (b : BalancePb) : BalancePb :=
  {| available := v; reservations := reservations b |}.
Definition set_reservations (r : gmap string string) (b : BalancePb) : BalancePb :=
  {| available := available b; reservations := r |}.
(** [f(account.0.mut_balance())]: an unset balance is first set to the default. *)
Definition update_balance (f : BalancePb → BalancePb) (a : AccountPb) : AccountPb :=
  {| acc_config := acc_config a; acc_balance := Some (f (get_balance a));
     acc_state := acc_state a; acc_account_id := acc_account_id a |}.
Definition set_state (s : AccountState) (a : AccountPb) : AccountPb :=
  {| acc_config := acc_config a; acc_balance := acc_balance a; acc_state := s;
     acc_account_id := acc_account_id a |}.

(** ** Defaults *)

Definition ZERO : string := "0.0".

Definition default_balance : BalancePb :=
  {| available := ZERO; reservations := ∅ |}.

Definition default_config : AccountConfigPb :=
  {| cfg_balance_limit := None;
     cfg_asset_class := Some {| asset_class := Some (cash {| currency := "USD" |}) |} |}.

Definition account_new (id : string) : AccountPb :=
  {| acc_config := Some default_config; acc_balance := Some default_balance;
     acc_state := Normal; acc_account_id := id |}.

(** ** Checks *)

Definition LEGAL_TRANSITIONS (s : AccountState) : option (list AccountState) :=
  match s with
  | Normal => Some [Locked; Deleted]
  | Locked => Some [Normal]
  | _ => None
  end.

Definition validate_asset_class_compatibility (a b : AccountPb) : GeneralResult unit :=
  let this_asset_class := get_or_default (cfg_asset_class (get_config a)) in
  let other_asset_class := get_or_default (cfg_asset_class (get_config b)) in
  if decide (this_asset_class = other_asset_class) then Ok ()
  else Err (EBalanceOperation
              (IncompatibleAssetClass this_asset_class other_asset_class)).

Definition validate_state_transition (a : AccountPb) (target : AccountState) :
    GeneralResult unit :=
  match LEGAL_TRANSITIONS (acc_state a) with
  | Some legal =>
      if decide (target ∈ legal) then Ok ()
      else Err (EAccountManagement (InvalidStateTransition (acc_state a) target))
  | None => Err (EAccountManagement (InvalidStateTransition (acc_state a) target))
  end.

Definition validate_balance_limitation (a : AccountPb) (balance : string) :
    GeneralResult unit :=
  match cfg_balance_limit (get_config a) with
  | None => Ok ()
  | Some balance_limit =>
      cmp_to_upper ← calc_cmp balance (upper balance_limit);
      cmp_to_lower ← calc_cmp balance (lower balance_limit);
      if bool_decide (cmp_to_lower = Lt) || bool_decide (cmp_to_upper = Gt)
      then Err (EBalanceOperation (BalanceLimitExceeded balance_limit))
      else Ok ()
  end.

Definition assert_state_is_normal (a : AccountPb) : GeneralResult unit :=
  if decide (acc_state a = Normal) then Ok ()
  else Err (EBalanceOperation (InvalidAccountState (acc_state a))).

Definition assert_amount_gt_zero (amount : string) : GeneralResult unit :=
  cmp_to_zero ← calc_cmp amount ZERO;
  match cmp_to_zero with
  | Lt | Eq => Err (EBalanceOperation (InvalidAmount amount))
  | Gt => Ok ()
  end.

(** [&&] is lazy: the comparison, which may fail, is only made when there
    are no reservations. *)
Definition assert_balance_is_zero (a : AccountPb) : GeneralResult unit :=
  let balance := get_balance a in
  if decide (reservations balance = ∅) then
    c ← calc_cmp (available balance) ZERO;
    match c with
    | Eq => Ok ()
    | _ => Err (EAccountManagement (BalanceIsNotZero balance))
    end
  else Err (EAccountManagement (BalanceIsNotZero balance)).

Definition assert_reservation_exists (a : AccountPb) (reservation_id : string) :
    GeneralResult string :=
  match reservations (get_balance a) !! reservation_id with
  | Some reservation_amount => Ok reservation_amount
  | None => Err (EBalanceOperation (ReservationIdNotFound reservation_id))
  end.

(** ** Updates *)

Definition increase_balance_by (a : AccountPb) (amount : string) :
    GeneralResult (AccountPb * BalanceChange) :=
  assert_state_is_normal a;;
  new_balance ← calc_add (available (get_balance a)) amount;
  validate_balance_limitation a new_balance;;
  let new_account := update_balance (set_available new_balance) a in
  let balance_change :=
    {| bc_account_id := account_id a; bc_prev_balance := Some (get_balance a);
       bc_curr_balance := Some (get_balance new_account) |} in
  Ok (new_account, balance_change).

Definition set_balance_limit (balance_limit : BalanceLimit) (a : AccountPb) : AccountPb :=
  {| acc_config := Some {| cfg_balance_limit := Some balance_limit;
                           cfg_asset_class := cfg_asset_class (get_config a) |};
     acc_balance := acc_balance a; acc_state := acc_state a;
     acc_account_id := acc_account_id a |}.

Definition insert_reservation (id amount : string) (a : AccountPb) : AccountPb :=
  update_balance (λ b, set_reservations (<[id:=amount]> (reservations b)) b) a.
Definition remove_reservation (id : string) (a : AccountPb) : AccountPb :=
  update_balance (λ b, set_reservations (delete id (reservations b)) b) a.

Definition reserve (a : AccountPb) (reservation_id amount : string) :
    GeneralResult AccountPb :=
  assert_state_is_normal a;;
  assert_amount_gt_zero amount;;
  match reservations (get_balance a) !! reservation_id with
  | Some _ => Err (EBalanceOperation (ReservationIdAlreadyExist reservation_id))
  | None =>
      neg_amount ← calc_neg amount;
      '(updated_account, _) ← increase_balance_by a neg_amount;
      Ok (insert_reservation reservation_id amount updated_account)
  end.

(** The [unwrap] of [remove] cannot fail: [increase_balance_by] keeps the
    reservations, among which [reservation_id] was just found. *)
Definition release_all (a : AccountPb) (reservation_id : string) :
    GeneralResult AccountPb :=
  assert_state_is_normal a;;
  reservation_amount ← assert_reservation_exists a reservation_id;
  '(updated_account, _) ← increase_balance_by a reservation_amount;
  Ok (remove_reservation reservation_id updated_account).

Definition partial_release (a : AccountPb) (reservation_id amount : string) :
    GeneralResult AccountPb :=
  assert_state_is_normal a;;
  assert_amount_gt_zero amount;;
  reservation_amount ← assert_reservation_exists a reservation_id;
  cmp_to_reservation_amount ← calc_cmp amount reservation_amount;
  match cmp_to_reservation_amount with
  | Gt => Err (EBalanceOperation (InvalidAmount amount))
  | Eq => release_all a reservation_id
  | Lt =>
      '(updated_account, _) ← increase_balance_by a amount;
      neg_amount ← calc_neg amount;
      remained_amount ← calc_add reservation_amount neg_amount;
      Ok (insert_reservation reservation_id remained_amount updated_account)
  end.

Definition lock (a : AccountPb) : GeneralResult AccountPb :=
  validate_state_transition a Locked;;
  Ok (set_state Locked a).

Definition unlock (a : AccountPb) : GeneralResult AccountPb :=
  validate_state_transition a Normal;;
  Ok (set_state Normal a).

Definition account_delete (a : AccountPb) : GeneralResult AccountPb :=
  validate_state_transition a Deleted;;
  assert_balance_is_zero a;;
  Ok (set_state Deleted a).
End account.

(** ** Meaning of an account *)
Section meaning.
Context {BD : BigDecimal} {BDL : BigDecimalLaws BD}.
Local Open Scope Qc_scope.

Definition available_of (a : AccountPb) : string := available (get_balance a).
Definition reservations_of (a : AccountPb) : gmap string string :=
  reservations (get_balance a).

(** Reserved balance = Sum(values in reservations map). *)
Definition reserved (r : gmap string string) : Qc :=
  map_fold (λ _ s acc, money s + acc) 0 r.

(** Total balance = Available balance + Reserved balance (accountpb.proto). *)
Definition total (a : AccountPb) : Qc :=
  money (available_of a) + reserved (reservations_of a).

(** [v] respects the limits configured for the account. *)
Definition limit_ok (a : AccountPb) (v : Qc) : Prop :=
  match cfg_balance_limit (get_config a) with
  | None => True
  | Some l => ∃ hi lo, value_of (upper l) = Some hi ∧ value_of (lower l) = Some lo ∧
                lo ≤ v ∧ v ≤ hi
  end.

(** Every text of the balance is a number, and every reservation is positive. *)
Record wf_account (a : AccountPb) : Prop := {
  wf_available : is_Some (value_of (available_of a));
  wf_reservations :
    map_Forall (λ _ s, ∃ v, value_of s = Some v ∧ 0 < v) (reservations_of a) }.

Lemma reserved_insert r id s :
  r !! id = None → reserved (<[id:=s]> r) = money s + reserved r.
Proof.
  intros Hid. unfold reserved. rewrite map_fold_insert_L; [done| |done].
  intros. ring.
Qed.

Lemma reserved_delete r id s :
  r !! id = Some s → reserved r = money s + reserved (delete id r).
Proof.
  intros Hid. rewrite <-(reserved_insert _ id) by apply lookup_delete_eq.
  by rewrite insert_delete_id.
Qed.

Lemma reserved_update r id s s' :
  r !! id = Some s → reserved (<[id:=s']> r) + money s = money s' + reserved r.
Proof.
  intros Hid. rewrite <-insert_delete_eq, reserved_insert by apply lookup_delete_eq.
  rewrite (reserved_delete r id s) by done. ring.
Qed.

(** *** The checks *)

Lemma assert_state_is_normal_Ok a u :
  assert_state_is_normal a = Ok u ↔ acc_state a = Normal.
Proof. unfold assert_state_is_normal. destruct u. case_decide; naive_solver. Qed.

Lemma assert_amount_gt_zero_Ok amount u :
  assert_amount_gt_zero amount = Ok u ↔ ∃ v, value_of amount = Some v ∧ 0 < v.
Proof.
  destruct u. unfold assert_amount_gt_zero. split.
  - intros H. simplify_run. apply calc_cmp_Ok in H as (v & z & Hv & Hz & ->).
    unfold ZERO in Hz. rewrite value_of_zero in Hz. injection Hz as <-.
    exists v. split; [done|]. apply Qcgt_alt. by destruct (v ?= 0).
  - intros (v & Hv & Hpos). rewrite (calc_cmp_total _ _ v 0); [|done|apply value_of_zero].
    cbn. apply Qcgt_alt in Hpos. by rewrite Hpos.
Qed.

Lemma validate_balance_limitation_Ok a s v u :
  value_of s = Some v → validate_balance_limitation a s = Ok u ↔ limit_ok a v.
Proof.
  destruct u. intros Hv. unfold validate_balance_limitation, limit_ok.
  destruct (cfg_balance_limit (get_config a)) as [l|]; [|done]. split.
  - intros H. simplify_run.
    repeat match goal with
    | H : calc_cmp _ _ = Ok _ |- _ => apply calc_cmp_Ok in H as (?&?&?&?&->)
    end. simplify_eq. do 2 eexists. split_and!; [done|done|..].
    + apply Qcge_alt. intros Hlt. by rewrite Hlt in *.
    + apply Qcle_alt. intros Hgt. rewrite Hgt in *.
      destruct (bool_decide (_ = Lt)); done.
  - intros (hi & lo & Hhi & Hlo & Hle1%Qcge_alt & Hle2%Qcle_alt).
    rewrite (calc_cmp_total _ _ _ _ Hv Hhi). cbn.
    rewrite (calc_cmp_total _ _ _ _ Hv Hlo). cbn.
    rewrite !bool_decide_eq_false_2 by done. done.
Qed.

Lemma assert_reservation_exists_Ok a id s :
  assert_reservation_exists a id = Ok s ↔ reservations_of a !! id = Some s.
Proof.
  unfold assert_reservation_exists, reservations_of.
  destruct (_ !! id); naive_solver.
Qed.

Lemma assert_balance_is_zero_Ok a u :
  assert_balance_is_zero a = Ok u ↔
  reservations_of a = ∅ ∧ value_of (available_of a) = Some 0.
Proof.
  destruct u. unfold assert_balance_is_zero, reservations_of, available_of. split.
  - intros H. case_decide; [|done]. simplify_run.
    apply calc_cmp_Ok in H as (v & z & Hv & Hz & ->).
    unfold ZERO in Hz. rewrite value_of_zero in Hz. injection Hz as <-.
    destruct (v ?= 0) eqn:Hc; try done. apply Qceq_alt in Hc. by subst.
  - intros [-> Hv]. rewrite decide_True by done.
    rewrite (calc_cmp_total _ _ 0 0); [|done|apply value_of_zero]. done.
Qed.

Lemma validate_state_transition_Ok a t u :
  validate_state_transition a t = Ok u ↔
  ∃ legal, LEGAL_TRANSITIONS (acc_state a) = Some legal ∧ t ∈ legal.
Proof.
  destruct u. unfold validate_state_transition.
  destruct (LEGAL_TRANSITIONS _) as [l|]; [|naive_solver].
  case_decide; naive_solver.
Qed.
End meaning.

(** ** What each operation does *)
Section operations.
Context {BD : BigDecimal} {BDL : BigDecimalLaws BD}.
Local Open Scope Qc_scope.

Lemma increase_balance_by_Ok a amount r :
  increase_balance_by a amount = Ok r →
  ∃ x y s, acc_state a = Normal ∧
    value_of (available_of a) = Some x ∧ value_of amount = Some y ∧
    value_of s = Some (x + y) ∧ limit_ok a (x + y) ∧
    r = (update_balance (set_available s) a,
         {| bc_account_id := account_id a; bc_prev_balance := Some (get_balance a);
            bc_curr_balance := Some (set_available s (get_balance a)) |}).
Proof.
  unfold increase_balance_by. intros H. simplify_run.
  match goal with H : assert_state_is_normal _ = Ok _ |- _ =>
    apply assert_state_is_normal_Ok in H end.
  match goal with H : calc_add _ _ = Ok _ |- _ =>
    apply calc_add_Ok in H as (v & w & Hv & Hw & Hs) end.
  match goal with H : validate_balance_limitation _ _ = Ok _ |- _ =>
    apply (validate_balance_limitation_Ok _ _ _ _ Hs) in H end.
  by exists v, w; eexists.
Qed.

Lemma increase_balance_by_total a amount x y :
  acc_state a = Normal → value_of (available_of a) = Some x →
  value_of amount = Some y → limit_ok a (x + y) →
  ∃ r, increase_balance_by a amount = Ok r.
Proof.
  intros Hst Hx Hy Hlim. unfold increase_balance_by.
  rewrite (proj2 (assert_state_is_normal_Ok a ()) Hst). cbn.
  destruct (calc_add_total _ _ _ _ Hx Hy) as (s & Hs & Hv). unfold available_of in Hs.
  rewrite Hs. cbn. rewrite (proj2 (validate_balance_limitation_Ok a s _ () Hv) Hlim).
  cbn. by eexists.
Qed.

Lemma reserve_Ok a id amount a' :
  reserve a id amount = Ok a' →
  ∃ x y s, acc_state a = Normal ∧ reservations_of a !! id = None ∧
    value_of (available_of a) = Some x ∧ value_of amount = Some y ∧ 0 < y ∧
    value_of s = Some (x - y) ∧ limit_ok a (x - y) ∧
    a' = insert_reservation id amount (update_balance (set_available s) a).
Proof.
  unfold reserve. intros H. simplify_run. fold (reservations_of a) in *.
  destruct (reservations_of a !! id) eqn:Hid; [done|]. simplify_run.
  match goal with H : assert_amount_gt_zero _ = Ok _ |- _ =>
    apply assert_amount_gt_zero_Ok in H as (y & Hy & Hpos) end.
  match goal with H : calc_neg _ = Ok _ |- _ =>
    apply calc_neg_Ok in H as (y' & Hy' & Hneg) end.
  match goal with H : increase_balance_by _ _ = Ok _ |- _ =>
    apply increase_balance_by_Ok in H as (xv & z & s & ? & Hx & Hz & Hs & Hlim & [= -> ->]) end.
  simplify_eq. by eexists xv, _, s.
Qed.

Lemma release_all_Ok a id a' :
  release_all a id = Ok a' →
  ∃ x y s amount, acc_state a = Normal ∧ reservations_of a !! id = Some amount ∧
    value_of (available_of a) = Some x ∧ value_of amount = Some y ∧
    value_of s = Some (x + y) ∧ limit_ok a (x + y) ∧
    a' = remove_reservation id (update_balance (set_available s) a).
Proof.
  unfold release_all. intros H. simplify_run.
  match goal with H : assert_reservation_exists _ _ = Ok _ |- _ =>
    apply assert_reservation_exists_Ok in H end.
  match goal with H : increase_balance_by _ _ = Ok _ |- _ =>
    apply increase_balance_by_Ok in H as (xv & z & s & ? & Hx & Hz & Hs & Hlim & [= -> ->]) end.
  by exists xv, z, s; eexists.
Qed.

Lemma partial_release_Ok a id amount a' :
  partial_release a id amount = Ok a' →
  ∃ x y r s res, acc_state a = Normal ∧ reservations_of a !! id = Some res ∧
    value_of res = Some r ∧ value_of (available_of a) = Some x ∧
    value_of amount = Some y ∧ 0 < y ∧ value_of s = Some (x + y) ∧ limit_ok a (x + y) ∧
    (y = r ∧ a' = remove_reservation id (update_balance (set_available s) a) ∨
     ∃ rem, y < r ∧ value_of rem = Some (r - y) ∧
       a' = insert_reservation id rem (update_balance (set_available s) a)).
Proof.
  unfold partial_release. intros H. simplify_run.
  match goal with H : assert_amount_gt_zero _ = Ok _ |- _ =>
    apply assert_amount_gt_zero_Ok in H as (y & Hy & Hpos) end.
  match goal with H : assert_reservation_exists _ _ = Ok _ |- _ =>
    apply assert_reservation_exists_Ok in H as Hres end.
  match goal with H : calc_cmp _ _ = Ok _ |- _ =>
    apply calc_cmp_Ok in H as (y' & r & Hy' & Hr & Hcmp) end.
  simplify_eq. destruct (y ?= r) eqn:Hc; [| |done].
  - apply Qceq_alt in Hc as ->.
    match goal with H : release_all _ _ = Ok _ |- _ =>
      apply release_all_Ok in H as (xv & yv & s & res & ? & ? & ? & ? & ? & ? & ->) end.
    simplify_eq. exists xv, r, r, s, res. naive_solver.
  - apply Qclt_alt in Hc. simplify_run.
    match goal with H : increase_balance_by _ _ = Ok _ |- _ =>
      apply increase_balance_by_Ok in H as (xv & z & s & ? & Hx & Hz & Hs & Hlim & [= -> ->]) end.
    match goal with H : calc_neg _ = Ok _ |- _ =>
      apply calc_neg_Ok in H as (yn & Hyn & Hneg) end.
    match goal with H : calc_add _ _ = Ok _ |- _ =>
      apply calc_add_Ok in H as (r' & n & Hr' & Hn & Hrem) end.
    simplify_eq. eexists xv, _, _, s, _. split_and!; eauto.
Qed.

(** *** Reservations keep the total *)

Lemma reservation_op_total a id amount a' :
  (reserve a id amount = Ok a' ∨ release_all a id = Ok a' ∨
   partial_release a id amount = Ok a') →
  total a' = total a.
Proof.
  unfold total. intros [H|[H|H]].
  - apply reserve_Ok in H as (x & y & s & ? & ? & Hx & Hy & ? & Hs & ? & ->).
    unfold reservations_of, available_of in *. cbn in *.
    rewrite reserved_insert, (value_of_money _ _ Hs), (value_of_money _ _ Hx),
      (value_of_money _ _ Hy) by done. ring.
  - apply release_all_Ok in H as (x & y & s & m & ? & Hm & Hx & Hy & Hs & ? & ->).
    unfold reservations_of, available_of in *. cbn in *.
    rewrite (reserved_delete _ _ _ Hm), (value_of_money _ _ Hs), (value_of_money _ _ Hx),
      (value_of_money _ _ Hy). ring.
  - apply partial_release_Ok in H
      as (x & y & r & s & m & ? & Hm & Hr & Hx & Hy & ? & Hs & ? & [[-> ->]|(m' & ? & Hm' & ->)]);
      unfold reservations_of, available_of in *; cbn in *;
      rewrite (value_of_money _ _ Hs), (value_of_money _ _ Hx).
    + rewrite (reserved_delete _ _ _ Hm), (value_of_money _ _ Hr). ring.
    + pose proof (reserved_update _ _ _ m' Hm) as Hu.
      rewrite (value_of_money _ _ Hm'), (value_of_money _ _ Hr) in Hu.
      replace (reserved (<[id:=m']> _))
        with (reserved (<[id:=m']> (reservations (get_balance a))) + r - r) by ring.
      rewrite Hu. ring.
Qed.

(** *** Preservation of well-formedness *)

Lemma wf_account_new id : wf_account (account_new id).
Proof. split; cbn; [|apply map_Forall_empty]. eexists. apply value_of_zero. Qed.

Lemma wf_set_available a s : wf_account a → is_Some (value_of s) →
  wf_account (update_balance (set_available s) a).
Proof. intros [? Hr] Hs. by split. Qed.

Lemma wf_insert_reservation a id s v :
  wf_account a → value_of s = Some v → 0 < v → wf_account (insert_reservation id s a).
Proof.
  intros [? Hr] Hs Hv. split; [done|]. cbn. apply map_Forall_insert_2; eauto.
Qed.

Lemma wf_remove_reservation a id : wf_account a → wf_account (remove_reservation id a).
Proof. intros [? Hr]. split; [done|]. cbn. by apply map_Forall_delete. Qed.

Lemma wf_set_state a s : wf_account a → wf_account (set_state s a).
Proof. intros [??]. by split. Qed.

Lemma wf_set_balance_limit a l : wf_account a → wf_account (set_balance_limit l a).
Proof. intros [??]. by split. Qed.
End operations.

(** ** The life of an account

    One step is one successful call of an update method. *)
Section lifecycle.
Context {BD : BigDecimal} {BDL : BigDecimalLaws BD}.
Local Open Scope Qc_scope.

Inductive account_op : relation AccountPb :=
| op_increase a amount a' ch :
    increase_balance_by a amount = Ok (a', ch) → account_op a a'
| op_reserve a id amount a' : reserve a id amount = Ok a' → account_op a a'
| op_release_all a id a' : release_all a id = Ok a' → account_op a a'
| op_partial_release a id amount a' :
    partial_release a id amount = Ok a' → account_op a a'
| op_set_balance_limit a l : account_op a (set_balance_limit l a)
| op_lock a a' : lock a = Ok a' → account_op a a'
| op_unlock a a' : unlock a = Ok a' → account_op a a'
| op_delete a a' : account_delete a = Ok a' → account_op a a'.

(** What holds of every account the service ever stores. *)
Record account_inv (id : string) (a : AccountPb) : Prop := {
  inv_wf : wf_account a;
  inv_id : acc_account_id a = id;
  inv_state : acc_state a ≠ InvalidState;
  inv_deleted : acc_state a = Deleted →
    reservations_of a = ∅ ∧ value_of (available_of a) = Some 0 }.

Lemma account_inv_new id : account_inv id (account_new id).
Proof. split; [apply wf_account_new|done..]. Qed.

Lemma lock_Ok a a' : lock a = Ok a' → acc_state a = Normal ∧ a' = set_state Locked a.
Proof.
  unfold lock. intros H. simplify_run. split; [|done].
  match goal with H : validate_state_transition _ _ = Ok _ |- _ =>
    apply validate_state_transition_Ok in H as (l & Hl & Hin) end.
  destruct (acc_state a); simplify_eq/=; set_solver.
Qed.

Lemma unlock_Ok a a' : unlock a = Ok a' → acc_state a = Locked ∧ a' = set_state Normal a.
Proof.
  unfold unlock. intros H. simplify_run. split; [|done].
  match goal with H : validate_state_transition _ _ = Ok _ |- _ =>
    apply validate_state_transition_Ok in H as (l & Hl & Hin) end.
  destruct (acc_state a); simplify_eq/=; set_solver.
Qed.

Lemma account_delete_Ok a a' :
  account_delete a = Ok a' →
  acc_state a = Normal ∧ reservations_of a = ∅ ∧ value_of (available_of a) = Some 0 ∧
  a' = set_state Deleted a.
Proof.
  unfold account_delete. intros H. simplify_run.
  match goal with H : assert_balance_is_zero _ = Ok _ |- _ =>
    apply assert_balance_is_zero_Ok in H as [? ?] end.
  split; [|done].
  match goal with H : validate_state_transition _ _ = Ok _ |- _ =>
    apply validate_state_transition_Ok in H as (l & Hl & Hin) end.
  destruct (acc_state a); simplify_eq/=; set_solver.
Qed.

Lemma account_op_inv id a a' : account_inv id a → account_op a a' → account_inv id a'.
Proof.
  intros [Hwf Hid Hst Hdel] Hop. destruct Hop.
  - destruct (increase_balance_by_Ok _ _ _ H) as (x & y & s & ? & ? & ? & ? & ? & [= -> ->]).
    split; cbn; [by apply wf_set_available|congruence..].
  - destruct (reserve_Ok _ _ _ _ H) as (x & y & s & ? & ? & ? & ? & ? & ? & ? & ->).
    split; cbn; [|congruence..].
    eapply wf_insert_reservation; [by apply wf_set_available|done..].
  - destruct (release_all_Ok _ _ _ H) as (x & y & s & m & ? & ? & ? & ? & ? & ? & ->).
    split; cbn; [|congruence..]. by apply wf_remove_reservation, wf_set_available.
  - destruct (partial_release_Ok _ _ _ _ H)
      as (x & y & r & s & m & ? & ? & ? & ? & ? & ? & ? & ? & [[? ->]|(m' & Hlt & ? & ->)]).
    + split; cbn; [|congruence..]. by apply wf_remove_reservation, wf_set_available.
    + split; cbn; [|congruence..].
      eapply wf_insert_reservation; [by apply wf_set_available|done|].
      by apply Qclt_minus_iff in Hlt.
  - split; cbn; [by apply wf_set_balance_limit|done..].
  - apply lock_Ok in H as [? ->]. split; cbn; [by apply wf_set_state|done..].
  - apply unlock_Ok in H as [? ->]. split; cbn; [by apply wf_set_state|done..].
  - apply account_delete_Ok in H as (? & ? & ? & ->).
    split; cbn; [by apply wf_set_state|done..].
Qed.
Lemma account_op_rtc_inv id a a' : account_inv id a → rtc account_op a a' → account_inv id a'.
Proof. intros Hinv Hr. induction Hr; eauto using account_op_inv. Qed.

(** Only the limits of a Deleted account can still change. *)
Lemma account_op_deleted a a' :
  account_op a a' → acc_state a = Deleted → acc_state a' = Deleted.
Proof.
  destruct 1 as [???? H|???? H|??? H|???? H| |?? H|?? H|?? H]; intros Hst; cbn.
  - apply increase_balance_by_Ok in H as (?&?&?&?&_). congruence.
  - apply reserve_Ok in H as (?&?&?&?&_). congruence.
  - apply release_all_Ok in H as (?&?&?&?&?&_). congruence.
  - apply partial_release_Ok in H as (?&?&?&?&?&?&_). congruence.
  - done.
  - apply lock_Ok in H as [? _]. congruence.
  - apply unlock_Ok in H as [? _]. congruence.
  - apply account_delete_Ok in H as [? _]. congruence.
Qed.

Lemma account_op_rtc_deleted a a' :
  rtc account_op a a' → acc_state a = Deleted → acc_state a' = Deleted.
Proof. induction 1; eauto using account_op_deleted. Qed.
End lifecycle.

(** ** Properties *)
Section properties.
Context {BD : BigDecimal} {BDL : BigDecimalLaws BD}.
Local Open Scope Qc_scope.

(** [increase_balance_by] adds the amount, exactly: when it succeeds the
    account was Normal, both texts are numbers, the new available balance is
    their sum and respects the account's limits, nothing else of the account
    changed, and the balance change records the old and the new balance; when
    it fails, one of these conditions is violated. *)
Theorem increase_balance_by_exact a amount :
  match increase_balance_by a amount with
  | Ok (a', ch) =>
      acc_state a = Normal ∧
      (∃ x y, value_of (available_of a) = Some x ∧ value_of amount = Some y ∧
         value_of (available_of a') = Some (x + y) ∧ limit_ok a' (x + y)) ∧
      reservations_of a' = reservations_of a ∧ acc_config a' = acc_config a ∧
      acc_state a' = acc_state a ∧ acc_account_id a' = acc_account_id a ∧
      bc_account_id ch = acc_account_id a ∧
      bc_prev_balance ch = Some (get_balance a) ∧
      bc_curr_balance ch = Some (get_balance a')
  | Err _ =>
      ¬ (acc_state a = Normal ∧
         ∃ x y, value_of (available_of a) = Some x ∧ value_of amount = Some y ∧
           limit_ok a (x + y))
  end.
Proof.
  destruct (increase_balance_by a amount) as [[a' ch]|e] eqn:E.
  - apply increase_balance_by_Ok in E as (x & y & s & ? & Hx & Hy & Hs & ? & [= -> ->]).
    split_and!; [done| |done..]. by exists x, y.
  - intros (? & x & y & ? & ? & ?).
    destruct (increase_balance_by_total a amount x y) as [r Hr]; congruence.
Qed.

(** Reserving and releasing move money inside an account and never create
    or destroy any: the total balance (available plus reserved) of the account
    is unchanged by [reserve], [release_all] and [partial_release]. *)
Theorem reservations_conserve_total a id amount a' :
  (reserve a id amount = Ok a' ∨ release_all a id = Ok a' ∨
   partial_release a id amount = Ok a') →
  total a' = total a.
Proof.
  apply reservation_op_total.
Qed.

(** A reservation can be undone: after a successful [reserve], if the
    original available balance respects the limits, [release_all] of the same
    reservation succeeds and gives back the same available amount, the same
    reservations and the same configuration and state. *)
Theorem reserve_release_all a id amount a1 x :
  reserve a id amount = Ok a1 → value_of (available_of a) = Some x → limit_ok a x →
  ∃ a2, release_all a1 id = Ok a2 ∧ value_of (available_of a2) = Some x ∧
    reservations_of a2 = reservations_of a ∧ acc_config a2 = acc_config a ∧
    acc_state a2 = acc_state a.
Proof.
  intros Hr Hx Hlim.
  apply reserve_Ok in Hr as (x' & y & s & Hst & Hid & Hx' & Hy & ? & Hs & _ & ->).
  assert (x' = x) as -> by congruence.
  set (a1 := insert_reservation id amount (update_balance (set_available s) a)).
  assert (acc_state a1 = Normal) as Hst1 by done.
  assert (reservations_of a1 !! id = Some amount) as Hid1 by apply lookup_insert_eq.
  unfold release_all. rewrite (proj2 (assert_state_is_normal_Ok a1 ()) Hst1). cbn.
  rewrite (proj2 (assert_reservation_exists_Ok a1 id amount) Hid1). cbn.
  destruct (increase_balance_by_total a1 amount (x - y) y) as [r Hr]; [done..| |].
  { by replace (x - y + y) with x by ring. }
  rewrite Hr. apply increase_balance_by_Ok in Hr
    as (x0 & y0 & s0 & _ & Hx0 & Hy0 & Hs0 & _ & ->). cbn.
  eexists. split; [done|]. split; [|split; [|done]].
  - cbn in *. rewrite Hs0. f_equal.
    assert (x0 = x - y) as -> by (unfold available_of in Hx0; cbn in Hx0; congruence).
    assert (y0 = y) as -> by congruence. ring.
  - unfold reservations_of. cbn. rewrite delete_insert_eq. by apply delete_id.
Qed.

(** C36. Whatever sequence of update methods is applied to a fresh account, the
    account stays well formed: it keeps its id and a legal state, every amount
    it holds is a number, every reservation is positive, and a Deleted account
    holds no money. *)
Theorem account_reachable_inv id a :
  rtc account_op (account_new id) a → account_inv id a.
Proof.
  intros Hr. eapply account_op_rtc_inv; [apply account_inv_new|done].
Qed.

(** The state machine of an account: locking needs Normal, unlocking needs
    Locked, deleting needs Normal and an empty balance, money moves only in a
    Normal account, and no operation leads out of Deleted. *)
Theorem account_op_states a a' :
  account_op a a' →
  (acc_state a, acc_state a') ∈
    [(Normal, Normal); (Normal, Locked); (Locked, Normal); (Normal, Deleted);
     (Locked, Locked); (Deleted, Deleted); (InvalidState, InvalidState)] ∧
  (acc_state a ≠ Normal → acc_balance a' = acc_balance a) ∧
  (acc_state a ≠ Deleted → acc_state a' = Deleted → total a = 0 ∧ acc_state a = Normal).
Proof.
  destruct 1.
  - apply increase_balance_by_Ok in H as (x & y & s & Hst & ? & ? & ? & ? & [= -> ->]).
    cbn. rewrite Hst. split; [set_solver|done].
  - apply reserve_Ok in H as (x & y & s & Hst & ? & ? & ? & ? & ? & ? & ->).
    cbn. rewrite Hst. split; [set_solver|done].
  - apply release_all_Ok in H as (x & y & s & m & Hst & ? & ? & ? & ? & ? & ->).
    cbn. rewrite Hst. split; [set_solver|done].
  - apply partial_release_Ok in H
      as (x & y & r & s & m & Hst & ? & ? & ? & ? & ? & ? & ? & [[? ->]|(m' & ? & ? & ->)]);
      cbn; rewrite Hst; (split; [set_solver|done]).
  - cbn. destruct (acc_state a); (split; [set_solver|done]).
  - apply lock_Ok in H as [Hst ->]. cbn. rewrite Hst. split; [set_solver|done].
  - apply unlock_Ok in H as [Hst ->]. cbn. rewrite Hst. split; [set_solver|done].
  - apply account_delete_Ok in H as (Hst & Hr & Hv & ->). cbn. rewrite Hst.
    split; [set_solver|]. split; [done|]. intros _ _. split; [|done].
    unfold total. rewrite Hr, (value_of_money _ _ Hv). apply Qcplus_0_l.
Qed.

(** An [UpdateAccountConfig] request without a [balance_limit] blocks the
    account: the empty limits it stores are not numbers, so from then on every
    transfer, balance operation, reservation and release on the account fails,
    until new limits are set. *)
Theorem unset_limits_block_account a :
  let blocked := set_balance_limit (get_or_default None) a in
  (∀ amount r, increase_balance_by blocked amount ≠ Ok r) ∧
  (∀ id amount a', reserve blocked id amount ≠ Ok a') ∧
  (∀ id a', release_all blocked id ≠ Ok a') ∧
  (∀ id amount a', partial_release blocked id amount ≠ Ok a').
Proof.
  intros blocked.
  assert (∀ v, ¬ limit_ok blocked v) as Hno.
  { intros v (hi & lo & Hhi & _). cbn in Hhi. by rewrite value_of_empty in Hhi. }
  split_and!.
  - intros amount r (x & y & s & _ & _ & _ & _ & Hl & _)%increase_balance_by_Ok. by apply Hno in Hl.
  - intros id amount a' (x & y & s & _ & _ & _ & _ & _ & _ & Hl & _)%reserve_Ok. by apply Hno in Hl.
  - intros id a' (x & y & s & m & _ & _ & _ & _ & _ & Hl & _)%release_all_Ok. by apply Hno in Hl.
  - intros id amount a' (x & y & r & s & m & _ & _ & _ & _ & _ & _ & _ & Hl & _)%partial_release_Ok.
    by apply Hno in Hl.
Qed.
End properties.

(** ** Instances of the properties on concrete accounts *)

Definition demo_account : AccountPb :=
  update_balance (set_available "100") (account_new "alice").

Lemma reservations_conserve_total_witness :
  ∃ a', reserve demo_account "r1" "30.5" = Ok a' ∧ available_of a' = "69.5"%string ∧
    total a' = total demo_account.
Proof.
  eexists. split; [vm_compute; reflexivity|]. split; [reflexivity|].
  apply (reservations_conserve_total demo_account "r1" "30.5"). left. vm_compute. reflexivity.
Defined.

Lemma reserve_release_all_witness :
  ∃ a1 a2, reserve demo_account "r1" "30.5" = Ok a1 ∧ release_all a1 "r1" = Ok a2 ∧
    reservations_of a2 = ∅.
Proof.
  destruct (reserve_release_all demo_account "r1" "30.5"
    (insert_reservation "r1" "30.5" (update_balance (set_available "69.5") demo_account))
    (dec_value (Dec 100 0))) as (a2 & H2 & _ & Hr & _).
  - vm_compute. reflexivity.
  - reflexivity.
  - exact I.
  - eexists _, a2. split; [vm_compute; reflexivity|]. split; [exact H2|]. exact Hr.
Defined.

Lemma account_reachable_inv_witness :
  ∃ a, account_op (account_new "bob") a ∧ acc_state a = Locked ∧ account_inv "bob" a.
Proof.
  exists (set_state Locked (account_new "bob")).
  assert (account_op (account_new "bob") (set_state Locked (account_new "bob"))) as Hop
    by (apply op_lock; reflexivity).
  split; [exact Hop|]. split; [reflexivity|].
  apply (account_reachable_inv "bob"). exact (rtc_once _ _ Hop).
Defined.

Lemma account_op_states_witness :
  ∃ a, account_delete (account_new "bob") = Ok a ∧ acc_state a = Deleted ∧
    total (account_new "bob") = 0%Qc.
Proof.
  eexists. split; [vm_compute; reflexivity|]. split; [reflexivity|].
  apply (account_op_states (account_new "bob") (set_state Deleted (account_new "bob"))).
  - apply op_delete. vm_compute. reflexivity.
  - discriminate.
  - reflexivity.
Defined.

Lemma increase_balance_by_exact_witness :
  ∃ a' ch x y, increase_balance_by demo_account "0.25" = Ok (a', ch) ∧
    value_of (available_of demo_account) = Some x ∧ value_of "0.25" = Some y ∧
    value_of (available_of a') = Some (x + y)%Qc.
Proof.
  pose proof (increase_balance_by_exact demo_account "0.25") as H.
  destruct (increase_balance_by demo_account "0.25") as [[a' ch]|e] eqn:E.
  - destruct H as (_ & (x & y & Hx & Hy & Hs & _) & _).
    exists a', ch, x, y. split; [reflexivity|]. exact (conj Hx (conj Hy Hs)).
  - exfalso. vm_compute in E. discriminate.
Defined.

Lemma unset_limits_block_account_witness :
  is_ok (increase_balance_by demo_account "1") = true ∧
  ¬ ∃ r, increase_balance_by (set_balance_limit (get_or_default None) demo_account) "1" = Ok r.
Proof.
  split; [vm_compute; reflexivity|].
  intros [r Hr]. revert Hr. apply (unset_limits_block_account demo_account).
Defined.
