(* ===== verification/RocksEngine.v ===== *)
(** * rocks_engine.rs

    The wrapper of RocksDB that both the wallet and the raft log use: reads,
    writes, write batches and ordered scans. *)

From S2P Require Import Prelude Bytes Keys Proto.
Local Open Scope Z_scope.

(** ** The [rocksdb] crate

    RocksDB itself is a third-party library: a [DB] is a parameter with the
    operations the wrapper calls.  A write batch is the sequence of updates
    recorded in it.  I/O failures, on which every caller [unwrap]s, are not
    represented. *)

Inductive CfName := CF_DEFAULT | CF_RAFT.
Global Instance CfName_eq_dec : EqDecision CfName.
Proof. solve_decision. Defined.

Inductive WriteOp :=
| WPut (cf : CfName) (key value : bytes)
| WDelete (cf : CfName) (key : bytes).

Definition op_key (op : WriteOp) : CfName * bytes :=
  match op with WPut cf k _ => (cf, k) | WDelete cf k => (cf, k) end.
Definition op_value (op : WriteOp) : option bytes :=
  match op with WPut _ _ v => Some v | WDelete _ _ => None end.

(** What a sequence of updates leaves under one key. *)
Definition ops_get (ops : list WriteOp) (cf : CfName) (k : bytes) (old : option bytes) :
    option bytes :=
  foldl (λ cur op, if decide (op_key op = (cf, k)) then op_value op else cur) old ops.

Class RocksDB := {
  DB : Type;
  db_get : DB → CfName → bytes → option bytes;
  db_write : DB → list WriteOp → DB;
  (** The entries an iterator with bounds [lower, upper) visits after
      [seek(key)], in the order of [next]. *)
  db_iter : DB → CfName → option bytes → option bytes → bytes → list (bytes * bytes);
  batch_data_size : list WriteOp → Z }.

Class RocksDBLaws (R : RocksDB) := {
  db_get_write d ops cf k :
    db_get (db_write d ops) cf k = ops_get ops cf k (db_get d cf k);
  db_iter_elem d cf lower upper key k v :
    (k, v) ∈ db_iter d cf lower upper key ↔
    db_get d cf k = Some v ∧ bytes_leb key k = true ∧
    (∀ l, lower = Some l → bytes_leb l k = true) ∧
    (∀ u, upper = Some u → bytes_ltb k u = true);
  db_iter_sorted d cf lower upper key :
    StronglySorted (λ x y, bytes_lt x.1 y.1) (db_iter d cf lower upper key) }.

Section engine.
Context {R : RocksDB}.

(** ** Reads *)

Definition get_value_cf (e : DB) (cf : CfName) (key : bytes) : option bytes :=
  db_get e cf key.
Definition get_value (e : DB) (key : bytes) : option bytes := db_get e CF_DEFAULT key.

Definition get_msg_cf {M} `{ProtoMessage M} (e : DB) (cf : CfName) (key : bytes) :
    run (option M) :=
  match get_value_cf e cf key with
  | Some value => m ← unwrap (parse_from_bytes value); Returns (Some m)
  | None => Returns None
  end.
Definition get_msg {M} `{ProtoMessage M} (e : DB) (key : bytes) : run (option M) :=
  match get_value e key with
  | Some value => m ← unwrap (parse_from_bytes value); Returns (Some m)
  | None => Returns None
  end.

(** ** Write batches *)

Record RocksWriteBatch := { wb_ops : list WriteOp; wb_save_points : list nat }.

Definition wb_new : RocksWriteBatch := {| wb_ops := []; wb_save_points := [] |}.
Definition wb_record (op : WriteOp) (wb : RocksWriteBatch) : RocksWriteBatch :=
  {| wb_ops := wb_ops wb ++ [op]; wb_save_points := wb_save_points wb |}.
Definition wb_put_cf (cf : CfName) (key value : bytes) : RocksWriteBatch → RocksWriteBatch :=
  wb_record (WPut cf key value).
Definition wb_put (key value : bytes) : RocksWriteBatch → RocksWriteBatch :=
  wb_record (WPut CF_DEFAULT key value).
Definition wb_delete_cf (cf : CfName) (key : bytes) : RocksWriteBatch → RocksWriteBatch :=
  wb_record (WDelete cf key).
Definition wb_delete (key : bytes) : RocksWriteBatch → RocksWriteBatch :=
  wb_record (WDelete CF_DEFAULT key).
Definition wb_put_msg {M} `{ProtoMessage M} (key : bytes) (m : M) :
    RocksWriteBatch → RocksWriteBatch := wb_put key (write_to_bytes m).
Definition wb_put_msg_cf {M} `{ProtoMessage M} (cf : CfName) (key : bytes) (m : M) :
    RocksWriteBatch → RocksWriteBatch := wb_put_cf cf key (write_to_bytes m).

Definition wb_count (wb : RocksWriteBatch) : nat := length (wb_ops wb).
Definition wb_is_empty (wb : RocksWriteBatch) : bool := (wb_count wb =? 0)%nat.
Definition wb_data_size (wb : RocksWriteBatch) : Z := batch_data_size (wb_ops wb).
Definition WRITE_BATCH_MAX_KEYS : nat := 256.
Definition should_write_to_engine (wb : RocksWriteBatch) : bool :=
  (WRITE_BATCH_MAX_KEYS <? wb_count wb)%nat.
Definition wb_clear (_ : RocksWriteBatch) : RocksWriteBatch := wb_new.
(** [write_opt(sync)]: the whole batch, atomically; the batch is kept. *)
Definition write_opt (e : DB) (wb : RocksWriteBatch) : DB := db_write e (wb_ops wb).

Definition set_save_point (wb : RocksWriteBatch) : RocksWriteBatch :=
  {| wb_ops := wb_ops wb; wb_save_points := wb_count wb :: wb_save_points wb |}.
Definition pop_save_point (wb : RocksWriteBatch) : run RocksWriteBatch :=
  match wb_save_points wb with
  | [] => Panics
  | _ :: sps => Returns {| wb_ops := wb_ops wb; wb_save_points := sps |}
  end.
Definition rollback_to_save_point (wb : RocksWriteBatch) : run RocksWriteBatch :=
  match wb_save_points wb with
  | [] => Panics
  | n :: sps => Returns {| wb_ops := take n (wb_ops wb); wb_save_points := sps |}
  end.

(** ** Single writes *)

Definition put_cf (e : DB) (cf : CfName) (key value : bytes) : DB :=
  db_write e [WPut cf key value].
Definition put (e : DB) (key value : bytes) : DB := put_cf e CF_DEFAULT key value.
Definition put_msg {M} `{ProtoMessage M} (e : DB) (key : bytes) (m : M) : DB :=
  put e key (write_to_bytes m).

(** ** Scans *)

(** The callback of a scan returns [Err] to abort it, and otherwise its
    updated captures and whether to go on. *)
Inductive EngineError := ProtobufError.
Definition scan_fn (S : Type) : Type := S → bytes → bytes → run (result EngineError (S * bool)).

Fixpoint scan_impl {S} (it : list (bytes * bytes)) (f : scan_fn S) (s : S) :
    run (result EngineError S) :=
  match it with
  | [] => Returns (Ok s)
  | (k, v) :: it =>
      r ← f s k v;
      match r with
      | Err err => Returns (Err err)
      | Ok (s, true) => scan_impl it f s
      | Ok (s, false) => Returns (Ok s)
      end
  end.

Definition scan {S} (e : DB) (start_key end_key : bytes) (f : scan_fn S) (s : S) :
    run (result EngineError S) :=
  scan_impl (db_iter e CF_DEFAULT (Some start_key) (Some end_key) start_key) f s.

(** [seek]: the first key not below the given one. *)
Definition seek (e : DB) (key : bytes) : option (bytes * bytes) :=
  head (db_iter e CF_DEFAULT None None key).
End engine.

(** ** Reasoning about reads after writes *)
Section view.
Context {R : RocksDB} {RL : RocksDBLaws R}.

(** The database as it will be once the batch is written. *)
Definition view (d : DB) (wb : RocksWriteBatch) (key : bytes) : option bytes :=
  db_get (write_opt d wb) CF_DEFAULT key.

Lemma ops_get_app ops1 ops2 cf k old :
  ops_get (ops1 ++ ops2) cf k old = ops_get ops2 cf k (ops_get ops1 cf k old).
Proof. apply foldl_app. Qed.

Lemma view_new d k : view d wb_new k = db_get d CF_DEFAULT k.
Proof. unfold view, write_opt. by rewrite db_get_write. Qed.

Lemma view_put d wb k v k' :
  view d (wb_put k v wb) k' = if decide (k = k') then Some v else view d wb k'.
Proof.
  unfold view, write_opt. rewrite !db_get_write.
  cbn [wb_put wb_delete wb_record wb_ops]. rewrite ops_get_app. cbn.
  repeat case_decide; naive_solver.
Qed.

Lemma view_delete d wb k k' :
  view d (wb_delete k wb) k' = if decide (k = k') then None else view d wb k'.
Proof.
  unfold view, write_opt. rewrite !db_get_write.
  cbn [wb_put wb_delete wb_record wb_ops]. rewrite ops_get_app. cbn.
  repeat case_decide; naive_solver.
Qed.

Lemma view_put_eq d wb k v : view d (wb_put k v wb) k = Some v.
Proof. rewrite view_put. by rewrite decide_True. Qed.
Lemma view_put_ne d wb k v k' : k ≠ k' → view d (wb_put k v wb) k' = view d wb k'.
Proof. intros. rewrite view_put. by rewrite decide_False. Qed.
Lemma view_delete_eq d wb k : view d (wb_delete k wb) k = None.
Proof. rewrite view_delete. by rewrite decide_True. Qed.
Lemma view_delete_ne d wb k k' : k ≠ k' → view d (wb_delete k wb) k' = view d wb k'.
Proof. intros. rewrite view_delete. by rewrite decide_False. Qed.

(** The batch has no update of a key. *)
Definition untouched (wb : RocksWriteBatch) (key : bytes) : Prop :=
  Forall (λ op, op_key op ≠ (CF_DEFAULT, key)) (wb_ops wb).

Lemma view_untouched d wb k : untouched wb k → view d wb k = db_get d CF_DEFAULT k.
Proof.
  unfold untouched, view, write_opt. rewrite db_get_write.
  generalize (db_get d CF_DEFAULT k) as old. unfold ops_get.
  induction (wb_ops wb) as [|op ops IH]; intros old H; [done|].
  apply Forall_cons_1 in H as [Hop Hops]. cbn. rewrite decide_False by done. by apply IH.
Qed.

Lemma untouched_new k : untouched wb_new k.
Proof. constructor. Qed.

Lemma untouched_put wb k v k' : k ≠ k' → untouched wb k' → untouched (wb_put k v wb) k'.
Proof.
  intros Hne Hu. unfold untouched. cbn. apply Forall_app. split; [done|].
  constructor; [|constructor]. cbn. congruence.
Qed.

Lemma untouched_delete wb k k' : k ≠ k' → untouched wb k' → untouched (wb_delete k wb) k'.
Proof.
  intros Hne Hu. unfold untouched. cbn. apply Forall_app. split; [done|].
  constructor; [|constructor]. cbn. congruence.
Qed.

(** A scan whose callback always goes on is a fold. *)
Lemma scan_impl_all {S} (g : S → bytes → bytes → S) (f : scan_fn S) it s :
  (∀ s k v, (k, v) ∈ it → f s k v = Returns (Ok (g s k v, true))) →
  scan_impl it f s = Returns (Ok (foldl (λ s '(k, v), g s k v) s it)).
Proof.
  revert s. induction it as [|[k v] it IH]; intros s Hf; cbn; [done|].
  rewrite Hf by left. cbn. apply IH. intros. apply Hf. by right.
Qed.
End view.
#[export] Hint Resolve untouched_new untouched_put untouched_delete : wallet.
