(* ===== verification/EngineOpen.v ===== *)
(** * rocks_engine.rs: opening a database, and iterators over its keys

    [new_engine] creates a database with its column families, one after the other, or
    opens one that is there; what lies at the path of a database changes with each of
    these steps, and the process may stop between two of them.  The bounds of an
    iterator go through [KeyBuilder]. *)

From S2P Require Import Prelude Bytes KeyBuilder Keys Proto RocksEngine.

(** ** Bounds of iterators *)

Section iterators.
Context {R : RocksDB}.

Definition DATA_KEY_PREFIX_LEN : nat := 1.
Record IterOptions := { io_lower_bound : option KeyBuilder; io_upper_bound : option KeyBuilder }.

Definition build_bound (b : option KeyBuilder) : run (option bytes) :=
  match b with Some kb => k ← kb_build kb; Returns (Some k) | None => Returns None end.
Definition build_bounds (o : IterOptions) : run (option bytes * option bytes) :=
  lower ← build_bound (io_lower_bound o);
  upper ← build_bound (io_upper_bound o);
  Returns (lower, upper).

(** [iterator_cf_opt] and the seek of the scan. *)
Definition iterator_cf_opt (e : DB) (cf : CfName) (o : IterOptions) (key : bytes) :
    run (list (bytes * bytes)) :=
  '(lower, upper) ← build_bounds o;
  Returns (db_iter e cf lower upper key).

Definition scan_options (start_key end_key : bytes) : IterOptions :=
  {| io_lower_bound := Some (kb_from_slice start_key DATA_KEY_PREFIX_LEN);
     io_upper_bound := Some (kb_from_slice end_key DATA_KEY_PREFIX_LEN) |}.
Definition scan_cf {S} (e : DB) (cf : CfName) (start_key end_key : bytes) (f : scan_fn S) (s : S) :
    run (result EngineError S) :=
  it ← iterator_cf_opt e cf (scan_options start_key end_key) start_key;
  scan_impl it f s.

(** The room that the builder reserves in front of a bound does not reach the iterator:
    a scan visits the keys from [start_key] up to [end_key], in the default family as
    in any other. *)
Theorem scan_cf_bounds {S} (e : DB) cf start_key end_key (f : scan_fn S) s :
  scan_cf e cf start_key end_key f s
  = scan_impl (db_iter e cf (Some start_key) (Some end_key) start_key) f s.
Proof.
  unfold scan_cf, iterator_cf_opt, build_bounds, scan_options. cbn [io_lower_bound io_upper_bound build_bound].
  rewrite (proj1 (holds_build _ _ _ (holds_from_slice start_key DATA_KEY_PREFIX_LEN))). cbn [mbind run_bind].
  by rewrite (proj1 (holds_build _ _ _ (holds_from_slice end_key DATA_KEY_PREFIX_LEN))).
Qed.
Lemma scan_cf_default {S} (e : DB) start_key end_key (f : scan_fn S) s :
  scan_cf e CF_DEFAULT start_key end_key f s = scan e start_key end_key f s.
Proof. apply scan_cf_bounds. Qed.
End iterators.

(** ** What lies at a path *)

Inductive FileKind := RegularFile | OtherFile.
Inductive PathState := NoPath | NotADirectory | Directory (entries : list (string * FileKind)).

Fixpoint file_at (name : string) (entries : list (string * FileKind)) : option FileKind :=
  match entries with
  | [] => None
  | (n, kind) :: entries => if decide (n = name) then Some kind else file_at name entries
  end.

Definition db_exist (p : PathState) : bool :=
  match p with
  | Directory entries =>
      match file_at "CURRENT" entries with
      | Some RegularFile => match entries with [] => false | _ => true end
      | _ => false
      end
  | _ => false
  end.

(** ** [DB::open_cf] and [create_cf]

    [P] is what RocksDB keeps at a path.  A database has the default family; opening one
    that exists needs all its families and no others. *)
Class RocksOpen (P : Type) := {
  at_path : P → PathState;
  has_cf : P → CfName → bool;
  open_cf : bool → list CfName → P → result string P;
  create_cf : CfName → P → result string P;
  open_cf_creates p cfs :
    db_exist (at_path p) = false → at_path p ≠ NotADirectory → (∀ cf, cf ∈ cfs → cf = CF_DEFAULT) →
    ∃ p', open_cf true cfs p = Ok p' ∧ db_exist (at_path p') = true ∧
      ∀ cf, has_cf p' cf = bool_decide (cf = CF_DEFAULT);
  open_cf_exact p cfs :
    db_exist (at_path p) = true → (∀ cf, has_cf p cf = true ↔ cf = CF_DEFAULT ∨ cf ∈ cfs) →
    open_cf false cfs p = Ok p;
  open_cf_mismatch p cfs cf :
    db_exist (at_path p) = true → (has_cf p cf = true ↔ ¬ (cf = CF_DEFAULT ∨ cf ∈ cfs)) →
    ∃ e, open_cf false cfs p = Err e;
  create_cf_new p cf :
    db_exist (at_path p) = true → has_cf p cf = false →
    ∃ p', create_cf cf p = Ok p' ∧ db_exist (at_path p') = true ∧
      ∀ cf', has_cf p' cf' = bool_decide (cf' = cf) || has_cf p cf' }.

Section opening.
Context {P : Type} `{!RocksOpen P}.

Definition ALL_CFS : list CfName := [CF_DEFAULT; CF_RAFT].

(** The families that are created after the database. *)
Fixpoint create_families (cfs : list CfName) (p : P) : run P :=
  match cfs with
  | [] => Returns p
  | cf :: cfs =>
      if decide (cf = CF_DEFAULT) then create_families cfs p
      else p ← unwrap_ok (create_cf cf p); create_families cfs p
  end.

Definition default_family (cfs : list CfName) : list CfName :=
  match list_find (λ cf, cf = CF_DEFAULT) cfs with Some (_, cf) => [cf] | None => [] end.

Definition new_engine (cfs : list CfName) (p : P) : run P :=
  if negb (db_exist (at_path p)) then
    p ← unwrap_ok (open_cf true (default_family cfs) p);
    create_families cfs p
  else unwrap_ok (open_cf false cfs p).

Lemma default_family_default cfs cf : cf ∈ default_family cfs → cf = CF_DEFAULT.
Proof.
  unfold default_family. destruct (list_find _ cfs) as [[i x]|] eqn:Hf; [|by intros []%not_elem_of_nil].
  apply list_find_Some in Hf as (_ & -> & _). by intros ->%list_elem_of_singleton.
Qed.

Lemma create_families_spec cfs p :
  NoDup cfs → db_exist (at_path p) = true →
  (∀ cf, has_cf p cf = true → cf = CF_DEFAULT ∨ cf ∉ cfs) → has_cf p CF_DEFAULT = true →
  ∃ p', create_families cfs p = Returns p' ∧ db_exist (at_path p') = true ∧
    ∀ cf, has_cf p' cf = bool_decide (cf ∈ cfs) || has_cf p cf.
Proof.
  intros Hnd. revert p. induction Hnd as [|cf cfs Hcf Hnd IH]; intros p Hex Hnew Hdef; cbn.
  { exists p. split_and!; [done..|]. intros cf. by rewrite bool_decide_eq_false_2 by apply not_elem_of_nil. }
  destruct (decide (cf = CF_DEFAULT)) as [->|Hne].
  - destruct (IH p Hex) as (p' & Hr & Hex' & Hcfs); [|done|].
    { intros x [?|Hx]%Hnew; [by left|right]. intros ?. apply Hx. by right. }
    exists p'. split_and!; [done..|]. intros x. rewrite Hcfs.
    destruct (decide (x = CF_DEFAULT)) as [->|]; [by rewrite Hdef, !orb_true_r|].
    f_equal. apply bool_decide_ext. rewrite elem_of_cons. naive_solver.
  - assert (has_cf p cf = false) as Hno.
    { destruct (has_cf p cf) eqn:E; [|done]. destruct (Hnew _ E) as [?|Hx]; [done|]. destruct Hx. by left. }
    destruct (create_cf_new p cf Hex Hno) as (p1 & Hc & Hex1 & Hf1). rewrite Hc. cbn.
    destruct (IH p1 Hex1) as (p' & Hr & Hex' & Hcfs).
    { intros x. rewrite Hf1, orb_true_iff, bool_decide_eq_true.
      intros [->|[?|Hx]%Hnew]; [by right|by left|right]. intros ?. apply Hx. by right. }
    { by rewrite Hf1, Hdef, orb_true_r. }
    exists p'. split_and!; [done..|]. intros x. rewrite Hcfs, Hf1, orb_assoc. f_equal.
    apply Bool.eq_iff_eq_true. rewrite orb_true_iff, !bool_decide_eq_true, elem_of_cons. tauto.
Qed.

(** Where there is no database, [new_engine] creates one with the families it was asked
    for, and every later start opens that database as it is. *)
Theorem new_engine_creates cfs p :
  db_exist (at_path p) = false → at_path p ≠ NotADirectory → NoDup cfs →
  ∃ p', new_engine cfs p = Returns p' ∧ db_exist (at_path p') = true ∧
    (∀ cf, has_cf p' cf = true ↔ cf = CF_DEFAULT ∨ cf ∈ cfs) ∧ new_engine cfs p' = Returns p'.
Proof.
  intros Hno Hdir Hnd. unfold new_engine at 1. rewrite Hno. cbn.
  destruct (open_cf_creates p (default_family cfs) Hno Hdir (default_family_default cfs))
    as (p0 & Ho & Hex0 & Hf0). rewrite Ho. cbn.
  destruct (create_families_spec cfs p0 Hnd Hex0) as (p' & Hr & Hex & Hcfs).
  { intros cf. rewrite Hf0, bool_decide_eq_true. by left. }
  { by rewrite Hf0, bool_decide_eq_true_2. }
  assert (∀ cf, has_cf p' cf = true ↔ cf = CF_DEFAULT ∨ cf ∈ cfs) as Hall.
  { intros cf. rewrite Hcfs, Hf0, orb_true_iff, !bool_decide_eq_true. tauto. }
  exists p'. split_and!; [done..|]. unfold new_engine. rewrite Hex. cbn.
  by rewrite open_cf_exact.
Qed.

(** A start that is interrupted while it creates the families, after the first [k],
    leaves a database that no later start can open: the path counts as a database and
    is opened with families that it does not have. *)
Theorem interrupted_creation_never_opens cfs k p p0 p1 cf :
  db_exist (at_path p) = false → at_path p ≠ NotADirectory → NoDup cfs →
  open_cf true (default_family cfs) p = Ok p0 → create_families (take k cfs) p0 = Returns p1 →
  cf ∈ cfs → cf ∉ take k cfs → cf ≠ CF_DEFAULT →
  new_engine cfs p1 = Panics.
Proof.
  intros Hno Hdir Hnd Ho Hc Hcf Hk Hne.
  destruct (open_cf_creates p (default_family cfs) Hno Hdir (default_family_default cfs))
    as (p0' & Ho' & Hex0 & Hf0). rewrite Ho in Ho'. injection Ho' as <-.
  destruct (create_families_spec (take k cfs) p0) as (p1' & Hr & Hex & Hcfs).
  { eapply sublist_NoDup; [done|]. apply sublist_take. }
  { done. }
  { intros x. rewrite Hf0, bool_decide_eq_true. by left. }
  { by rewrite Hf0, bool_decide_eq_true_2. }
  rewrite Hc in Hr. injection Hr as <-. unfold new_engine. rewrite Hex. cbn.
  destruct (open_cf_mismatch p1 cfs cf Hex) as [e ->]; [|done].
  rewrite Hcfs, Hf0, orb_true_iff, !bool_decide_eq_true. tauto.
Qed.
End opening.

(** ** A path with a list of families *)

Definition ref_has (p : option (list CfName)) (cf : CfName) : bool :=
  match p with Some fs => bool_decide (cf = CF_DEFAULT ∨ cf ∈ fs) | None => false end.
Definition ref_open (create : bool) (cfs : list CfName) (p : option (list CfName)) :
    result string (option (list CfName)) :=
  match p with
  | Some fs =>
      if forallb (λ cf, Bool.eqb (ref_has p cf) (bool_decide (cf = CF_DEFAULT ∨ cf ∈ cfs))) ALL_CFS
      then Ok p else Err "column families not opened or not found"
  | None => if create then Ok (Some cfs) else Err "does not exist"
  end.

Global Instance ref_RocksOpen : RocksOpen (option (list CfName)).
Proof.
  refine {|
    at_path p := match p with Some _ => Directory [("CURRENT", RegularFile)] | None => NoPath end;
    has_cf := ref_has;
    open_cf := ref_open;
    create_cf cf p := match p with Some fs => Ok (Some (cf :: fs)) | None => Err "closed" end |}.
  - intros [fs|] cfs Hno Hd Hc; [done|]. exists (Some cfs). split_and!; [done..|].
    intros cf. cbn. apply bool_decide_ext. split; [intros [?|?]; auto|by left].
  - intros [fs|] cfs Hex Hall; [|done]. unfold ref_open.
    replace (forallb _ ALL_CFS) with true; [done|]. symmetry. apply forallb_forall. intros cf _.
    apply Bool.eqb_true_iff. apply Bool.eq_iff_eq_true. by rewrite Hall, bool_decide_eq_true.
  - intros [fs|] cfs cf Hex Hne; [|done]. unfold ref_open.
    destruct (forallb _ ALL_CFS) eqn:Hall; [|by eexists]. exfalso.
    rewrite forallb_forall in Hall. specialize (Hall cf).
    rewrite Bool.eqb_true_iff in Hall. rewrite Hall, bool_decide_eq_true in Hne; [tauto|].
    destruct cf; cbn; auto.
  - intros [fs|] cf Hex Hno; [|done]. eexists. split_and!; [done..|]. intros cf'. unfold ref_has in *.
    apply Bool.eq_iff_eq_true. rewrite orb_true_iff, !bool_decide_eq_true, elem_of_cons. tauto.
Defined.

(** The engines of the raft store: stopped before the raft family was created, the
    store does not start again; the wallet, which has the default family only, does. *)
Example raft_store_interrupted :
  new_engine ALL_CFS (None : option (list CfName)) = Returns (Some [CF_RAFT; CF_DEFAULT]) ∧
  new_engine ALL_CFS (Some [CF_DEFAULT]) = Panics ∧
  new_engine [] (Some []) = Returns (Some []).
Proof. split_and!; reflexivity. Qed.
