(* ===== verification/RefRocks.v ===== *)
(** * A reference database

    RocksDB is a parameter of the development.  This file gives one concrete
    database, a finite map per column family, and shows that it satisfies the
    laws assumed of RocksDB, so that the theorems that rely on them can be
    evaluated on concrete states. *)

From S2P Require Import Prelude Bytes RocksEngine.

Record RefDB := { ref_default : gmap bytes bytes; ref_raft : gmap bytes bytes }.

Definition ref_empty : RefDB := {| ref_default := ∅; ref_raft := ∅ |}.

Definition ref_cf (d : RefDB) (cf : CfName) : gmap bytes bytes :=
  match cf with CF_DEFAULT => ref_default d | CF_RAFT => ref_raft d end.

Definition ref_apply (d : RefDB) (op : WriteOp) : RefDB :=
  let upd m := partial_alter (λ _, op_value op) (op_key op).2 m in
  match (op_key op).1 with
  | CF_DEFAULT => {| ref_default := upd (ref_default d); ref_raft := ref_raft d |}
  | CF_RAFT => {| ref_default := ref_default d; ref_raft := upd (ref_raft d) |}
  end.

Definition key_le (x y : bytes * bytes) : Prop := bytes_leb x.1 y.1 = true.
Global Instance key_le_dec : RelDecision key_le.
Proof. intros x y. unfold key_le. apply _. Defined.

Definition in_bounds (lower upper : option bytes) (start k : bytes) : Prop :=
  bytes_leb start k = true ∧
  match lower with Some l => bytes_leb l k = true | None => True end ∧
  match upper with Some u => bytes_ltb k u = true | None => True end.
Global Instance in_bounds_dec lower upper start k : Decision (in_bounds lower upper start k).
Proof.
  unfold in_bounds. destruct lower, upper; apply _.
Defined.

Definition ref_iter (d : RefDB) (cf : CfName) (lower upper : option bytes) (start : bytes) :
    list (bytes * bytes) :=
  merge_sort key_le (filter (λ kv, in_bounds lower upper start kv.1) (map_to_list (ref_cf d cf))).

Definition op_size (op : WriteOp) : Z :=
  match op with
  | WPut _ k v => Z.of_nat (length k) + Z.of_nat (length v)
  | WDelete _ k => Z.of_nat (length k)
  end.

Global Instance RefRocks : RocksDB := {|
  DB := RefDB;
  db_get d cf k := ref_cf d cf !! k;
  db_write d ops := foldl ref_apply d ops;
  db_iter := ref_iter;
  batch_data_size ops := foldr (λ op acc, (op_size op + acc)%Z) 0%Z ops |}.

Lemma ref_apply_get d op cf k :
  ref_cf (ref_apply d op) cf !! k
  = if decide (op_key op = (cf, k)) then op_value op else ref_cf d cf !! k.
Proof.
  unfold ref_apply. destruct (op_key op) as [cf' k'] eqn:Hop. cbn.
  destruct cf', cf; cbn; case_decide as Heq; simplify_eq/=; try done;
    first [apply lookup_partial_alter_eq|apply lookup_partial_alter_ne; congruence].
Qed.

Lemma ref_get_write ops d cf k :
  ref_cf (foldl ref_apply d ops) cf !! k = ops_get ops cf k (ref_cf d cf !! k).
Proof.
  revert d. induction ops as [|op ops IH]; intros d; [done|]. cbn. rewrite IH.
  unfold ops_get. cbn. by rewrite ref_apply_get.
Qed.

Global Instance key_le_trans : Transitive key_le.
Proof.
  intros x y z. unfold key_le. rewrite !bytes_leb_spec. intros Hxy Hyz Hzx.
  unfold bytes_lt in *. destruct (bytes_cmp x.1 y.1) eqn:Exy.
  - apply bytes_cmp_eq in Exy. by rewrite Exy in Hzx.
  - apply Hyz. eapply bytes_lt_trans; [exact Hzx|exact Exy].
  - apply Hxy. rewrite bytes_cmp_antisym, Exy. done.
Qed.
Global Instance key_le_total : Total key_le.
Proof.
  intros x y. unfold key_le, bytes_leb. rewrite (bytes_cmp_antisym x.1 y.1).
  destruct (bytes_cmp x.1 y.1); cbn; auto.
Qed.

Lemma ref_iter_perm d cf lower upper start :
  ref_iter d cf lower upper start
  ≡ₚ filter (λ kv, in_bounds lower upper start kv.1) (map_to_list (ref_cf d cf)).
Proof. apply merge_sort_Permutation. Qed.

(** Sorted for [≤] without equal keys is sorted for [<]. *)
Lemma strict_sorted (l : list (bytes * bytes)) :
  StronglySorted key_le l → NoDup l.*1 → StronglySorted (λ x y, bytes_lt x.1 y.1) l.
Proof.
  induction 1 as [|x l Hl IH Hx]; intros Hnd; [constructor|].
  cbn in Hnd. apply list.NoDup_cons in Hnd as [Hni Hnd]. constructor; [by apply IH|].
  rewrite list.Forall_forall in Hx |- *. intros y Hy. specialize (Hx y Hy).
  unfold key_le in Hx. rewrite bytes_leb_spec in Hx. unfold bytes_lt in *.
  destruct (bytes_cmp x.1 y.1) eqn:E; [|done|].
  - apply bytes_cmp_eq in E. destruct Hni. rewrite E. by apply list_elem_of_fmap_2.
  - rewrite bytes_cmp_antisym, E in Hx. done.
Qed.

Global Instance RefRocks_laws : RocksDBLaws RefRocks.
Proof.
  split.
  - intros. apply ref_get_write.
  - intros d cf lower upper key k v. cbn. rewrite ref_iter_perm, list_elem_of_filter.
    rewrite elem_of_map_to_list. unfold in_bounds. cbn.
    destruct lower, upper; naive_solver.
  - intros d cf lower upper key. apply strict_sorted.
    + apply (StronglySorted_merge_sort key_le); apply _.
    + cbn. rewrite ref_iter_perm. eapply sublist_NoDup; [exact (NoDup_fst_map_to_list (ref_cf d cf))|].
      apply fmap_sublist, sublist_filter.
Qed.
