(* ===== verification/RefCodec.v ===== *)
(** * A reference codec for the protobuf messages

    Serialisation is a parameter of the development.  This file gives one
    concrete codec with the round-trip law, so that the theorems that rely on
    the law can be evaluated on concrete states: every message is written as
    the concatenation of its fields, each self-delimiting. *)

From Stdlib Require Import Strings.Byte String.
From S2P Require Import Prelude Bytes Proto Raftpb.

Class Codec (A : Type) := {
  enc : A → bytes;
  dec : bytes → option (A * bytes);
  dec_enc a rest : dec (enc a ++ rest) = Some (a, rest) }.

(** ** Basic types *)

Definition codec_iso {A B} `{!Codec B} (f : A → B) (g : B → A) (gf : ∀ a, g (f a) = a) :
  Codec A.
Proof.
  refine {| enc a := enc (f a);
            dec bs := match dec bs with Some (b, rest) => Some (g b, rest) | None => None end |}.
  abstract (intros a rest; by rewrite dec_enc, gf).
Defined.

Global Instance unit_codec : Codec unit.
Proof. by refine {| enc _ := []; dec bs := Some ((), bs) |}; intros []. Defined.

Global Instance byte_codec : Codec byte.
Proof.
  by refine {| enc b := [b];
               dec bs := match bs with b :: rest => Some (b, rest) | [] => None end |}.
Defined.

Fixpoint enc_positive (p : positive) : bytes :=
  match p with
  | xH => [x00]
  | xO p => x01 :: enc_positive p
  | xI p => x02 :: enc_positive p
  end.
Fixpoint dec_positive (bs : bytes) : option (positive * bytes) :=
  match bs with
  | x00 :: bs => Some (xH, bs)
  | x01 :: bs => '(p, rest) ← dec_positive bs; Some (xO p, rest)
  | x02 :: bs => '(p, rest) ← dec_positive bs; Some (xI p, rest)
  | _ => None
  end.
Global Instance positive_codec : Codec positive.
Proof.
  refine {| enc := enc_positive; dec := dec_positive |}.
  abstract (intros p rest; induction p as [p IH|p IH|]; cbn; by rewrite ?IH).
Defined.

Global Instance prod_codec {A B} `{!Codec A, !Codec B} : Codec (A * B).
Proof.
  refine {| enc '(a, b) := enc a ++ enc b;
            dec bs := '(a, bs) ← dec bs; '(b, bs) ← dec bs; Some ((a, b), bs) |}.
  abstract (intros [a b] rest; rewrite <-app_assoc, dec_enc; cbn; by rewrite dec_enc).
Defined.

Global Instance sum_codec {A B} `{!Codec A, !Codec B} : Codec (A + B).
Proof.
  refine {| enc x := match x with inl a => x00 :: enc a | inr b => x01 :: enc b end;
            dec bs := match bs with
                      | x00 :: bs => '(a, bs) ← dec bs; Some (inl a, bs)
                      | x01 :: bs => '(b, bs) ← dec bs; Some (inr b, bs)
                      | _ => None
                      end |}.
  abstract (intros [a|b] rest; cbn; by rewrite dec_enc).
Defined.

Global Instance option_codec {A} `{!Codec A} : Codec (option A) :=
  codec_iso (B := (unit + A)%type)
    (λ x, match x with None => inl () | Some a => inr a end)
    (λ x, match x with inl _ => None | inr a => Some a end) ltac:(by intros []).

Global Instance Z_codec : Codec Z :=
  codec_iso (B := (unit + (positive + positive))%type)
    (λ z, match z with Z0 => inl () | Zpos p => inr (inl p) | Zneg p => inr (inr p) end)
    (λ x, match x with inl _ => Z0 | inr (inl p) => Zpos p | inr (inr p) => Zneg p end)
    ltac:(by intros []).

(** A list is its elements, each preceded by a byte, and a final byte. *)
Section list.
Context {A} `{!Codec A}.

Fixpoint enc_list (l : list A) : bytes :=
  match l with [] => [x00] | a :: l => x01 :: enc a ++ enc_list l end.
Fixpoint dec_list (fuel : nat) (bs : bytes) : option (list A * bytes) :=
  match fuel, bs with
  | S fuel, x01 :: bs => '(a, bs) ← dec bs; '(l, bs) ← dec_list fuel bs; Some (a :: l, bs)
  | S _, x00 :: bs => Some ([], bs)
  | _, _ => None
  end.

Lemma dec_enc_list l rest fuel :
  (length l < fuel)%nat → dec_list fuel (enc_list l ++ rest) = Some (l, rest).
Proof.
  revert fuel. induction l as [|a l IH]; intros [|fuel] Hf; cbn in *; [lia|done|lia|].
  rewrite <-app_assoc, dec_enc. cbn. by rewrite IH by lia.
Qed.

Lemma length_enc_list l : (length l < length (enc_list l))%nat.
Proof. induction l; cbn; [lia|]. rewrite length_app. lia. Qed.

Global Instance list_codec : Codec (list A).
Proof.
  refine {| enc := enc_list; dec bs := dec_list (length bs) bs |}.
  abstract (intros l rest; apply dec_enc_list; rewrite length_app;
            pose proof (length_enc_list l); lia).
Defined.
End list.

Global Instance bool_codec : Codec bool :=
  codec_iso (B := (unit + unit)%type) (λ b : bool, if b then inr () else inl ())
    (λ x, match x with inl _ => false | inr _ => true end) ltac:(by intros []).

Global Instance string_codec : Codec string :=
  codec_iso String.list_byte_of_string String.string_of_list_byte
    String.string_of_list_byte_of_string.

Global Instance gmap_codec {V} `{!Codec V} : Codec (gmap string V) :=
  codec_iso (B := list (string * V)) map_to_list list_to_map list_to_map_to_list.

(** ** Messages *)

Global Instance BalanceLimit_codec : Codec BalanceLimit :=
  codec_iso (λ x, (upper x, lower x))
    (λ '(x0, x1), Build_BalanceLimit x0 x1) ltac:(by intros []).

Global Instance AssetClass_Cash_codec : Codec AssetClass_Cash :=
  codec_iso currency Build_AssetClass_Cash ltac:(by intros []).

Global Instance AssetClass_oneof_codec : Codec AssetClass_oneof :=
  codec_iso (λ x, match x with cash c => c end) cash ltac:(by intros []).

Global Instance AssetClass_codec : Codec AssetClass :=
  codec_iso asset_class Build_AssetClass ltac:(by intros []).

Global Instance AccountConfigPb_codec : Codec AccountConfigPb :=
  codec_iso (λ x, (cfg_balance_limit x, cfg_asset_class x))
    (λ '(x0, x1), Build_AccountConfigPb x0 x1) ltac:(by intros []).

Global Instance BalancePb_codec : Codec BalancePb :=
  codec_iso (λ x, (available x, reservations x))
    (λ '(x0, x1), Build_BalancePb x0 x1) ltac:(by intros []).

Global Instance AccountState_codec : Codec AccountState :=
  codec_iso (B := (unit + (unit + (unit + unit)))%type)
    (λ x, match x with
       | InvalidState => inl ()
       | Deleted => inr (inl ())
       | Locked => inr (inr (inl ()))
       | Normal => inr (inr (inr ()))
       end)
    (λ x, match x with
       | inl _ => InvalidState
       | inr (inl _) => Deleted
       | inr (inr (inl _)) => Locked
       | inr (inr (inr _)) => Normal
       end) ltac:(by intros []).

Global Instance AccountPb_codec : Codec AccountPb :=
  codec_iso (λ x, (acc_config x, acc_balance x, acc_state x, acc_account_id x))
    (λ '(x0, x1, x2, x3), Build_AccountPb x0 x1 x2 x3) ltac:(by intros []).

Global Instance OtherError_codec : Codec OtherError :=
  codec_iso reason Build_OtherError ltac:(by intros []).

Global Instance NotLeader_codec : Codec NotLeader :=
  codec_iso message Build_NotLeader ltac:(by intros []).

Global Instance ErrorPb_oneof_codec : Codec ErrorPb_oneof :=
  codec_iso (B := (NotLeader + OtherError)%type)
    (λ x, match x with
       | not_leader x => inl x
       | other_error x => inr x
       end)
    (λ x, match x with
       | inl x => not_leader x
       | inr x => other_error x
       end) ltac:(by intros []).

Global Instance ErrorPb_codec : Codec ErrorPb :=
  codec_iso error_oneof Build_ErrorPb ltac:(by intros []).

Global Instance ResponseHeader_codec : Codec ResponseHeader :=
  codec_iso (λ x, (rsp_seq_num x, rsp_log_index x, rsp_offset x))
    (λ '(x0, x1, x2), Build_ResponseHeader x0 x1 x2) ltac:(by intros []).

Global Instance RequestHeader_codec : Codec RequestHeader :=
  codec_iso (λ x, (req_dedup_id x, req_account_id x))
    (λ '(x0, x1), Build_RequestHeader x0 x1) ltac:(by intros []).

Global Instance CreateAccountRequest_codec : Codec CreateAccountRequest :=
  codec_iso (λ x, (create_header x, create_account_config x))
    (λ '(x0, x1), Build_CreateAccountRequest x0 x1) ltac:(by intros []).

Global Instance DeleteAccountRequest_codec : Codec DeleteAccountRequest :=
  codec_iso delete_header Build_DeleteAccountRequest ltac:(by intros []).

Global Instance LockAccountRequest_codec : Codec LockAccountRequest :=
  codec_iso lock_header Build_LockAccountRequest ltac:(by intros []).

Global Instance UnlockAccountRequest_codec : Codec UnlockAccountRequest :=
  codec_iso unlock_header Build_UnlockAccountRequest ltac:(by intros []).

Global Instance UpdateAccountConfigRequest_codec : Codec UpdateAccountConfigRequest :=
  codec_iso (λ x, (update_header x, update_balance_limit x))
    (λ '(x0, x1), Build_UpdateAccountConfigRequest x0 x1) ltac:(by intros []).

Global Instance AccountResponse_codec {Req} `{!Codec Req} : Codec (AccountResponse Req) :=
  codec_iso (λ x, (ar_error x, ar_header x, ar_request x, ar_account x))
    (λ '(x0, x1, x2, x3), Build_AccountResponse x0 x1 x2 x3) ltac:(by intros []).

Global Instance BalanceChange_codec : Codec BalanceChange :=
  codec_iso (λ x, (bc_account_id x, bc_prev_balance x, bc_curr_balance x))
    (λ '(x0, x1, x2), Build_BalanceChange x0 x1 x2) ltac:(by intros []).

Global Instance TransferSpec_codec : Codec TransferSpec :=
  codec_iso (λ x, (ts_amount x, ts_from_account_id x, ts_to_account_id x, ts_metadata x))
    (λ '(x0, x1, x2, x3), Build_TransferSpec x0 x1 x2 x3) ltac:(by intros []).

Global Instance TransferRequest_codec : Codec TransferRequest :=
  codec_iso (λ x, (transfer_dedup_id x, transfer_spec x))
    (λ '(x0, x1), Build_TransferRequest x0 x1) ltac:(by intros []).

Global Instance TransferResponse_codec : Codec TransferResponse :=
  codec_iso (λ x, (tr_error x, tr_header x, tr_request x, tr_from x, tr_to x))
    (λ '(x0, x1, x2, x3, x4), Build_TransferResponse x0 x1 x2 x3 x4) ltac:(by intros []).

Global Instance BalanceOperationSpec_codec : Codec BalanceOperationSpec :=
  codec_iso (λ x, (bos_account_id x, bos_amount x))
    (λ '(x0, x1), Build_BalanceOperationSpec x0 x1) ltac:(by intros []).

Global Instance BatchBalanceOperationRequest_codec : Codec BatchBalanceOperationRequest :=
  codec_iso (λ x, (batch_dedup_id x, balance_operation_spec x))
    (λ '(x0, x1), Build_BatchBalanceOperationRequest x0 x1) ltac:(by intros []).

Global Instance BatchBalanceOperationResponse_codec : Codec BatchBalanceOperationResponse :=
  codec_iso (λ x, (bb_error x, bb_header x, bb_request x, balance_changes x))
    (λ '(x0, x1, x2, x3), Build_BatchBalanceOperationResponse x0 x1 x2 x3) ltac:(by intros []).

Global Instance ReserveRequest_codec : Codec ReserveRequest :=
  codec_iso (λ x, (reserve_dedup_id x, reserve_reservation_id x, reserve_account_id x, reserve_amount x))
    (λ '(x0, x1, x2, x3), Build_ReserveRequest x0 x1 x2 x3) ltac:(by intros []).

Global Instance ReleaseRequest_codec : Codec ReleaseRequest :=
  codec_iso (λ x, (release_dedup_id x, release_reservation_id x, release_amount x, release_account_id x))
    (λ '(x0, x1, x2, x3), Build_ReleaseRequest x0 x1 x2 x3) ltac:(by intros []).

Global Instance BalanceResponse_codec {Req} `{!Codec Req} : Codec (BalanceResponse Req) :=
  codec_iso (λ x, (br_error x, br_header x, br_request x, br_prev_balance x, br_curr_balance x))
    (λ '(x0, x1, x2, x3, x4), Build_BalanceResponse x0 x1 x2 x3 x4) ltac:(by intros []).

Global Instance CommandHeader_codec : Codec CommandHeader :=
  codec_iso (λ x, (command_id x, process_time_in_sec x))
    (λ '(x0, x1), Build_CommandHeader x0 x1) ltac:(by intros []).

Global Instance CommandPayload_oneof_request_codec : Codec CommandPayload_oneof_request :=
  codec_iso (B := (TransferRequest + (BatchBalanceOperationRequest + (ReserveRequest + (ReleaseRequest + (CreateAccountRequest + (DeleteAccountRequest + (LockAccountRequest + (UnlockAccountRequest + UpdateAccountConfigRequest))))))))%type)
    (λ x, match x with
       | transfer_request x => inl x
       | batch_balance_operation_request x => inr (inl x)
       | reserve_request x => inr (inr (inl x))
       | release_request x => inr (inr (inr (inl x)))
       | create_account_request x => inr (inr (inr (inr (inl x))))
       | delete_account_request x => inr (inr (inr (inr (inr (inl x)))))
       | lock_account_request x => inr (inr (inr (inr (inr (inr (inl x))))))
       | unlock_account_request x => inr (inr (inr (inr (inr (inr (inr (inl x)))))))
       | update_account_config_request x => inr (inr (inr (inr (inr (inr (inr (inr x)))))))
       end)
    (λ x, match x with
       | inl x => transfer_request x
       | inr (inl x) => batch_balance_operation_request x
       | inr (inr (inl x)) => reserve_request x
       | inr (inr (inr (inl x))) => release_request x
       | inr (inr (inr (inr (inl x)))) => create_account_request x
       | inr (inr (inr (inr (inr (inl x))))) => delete_account_request x
       | inr (inr (inr (inr (inr (inr (inl x)))))) => lock_account_request x
       | inr (inr (inr (inr (inr (inr (inr (inl x))))))) => unlock_account_request x
       | inr (inr (inr (inr (inr (inr (inr (inr x))))))) => update_account_config_request x
       end) ltac:(by intros []).

Global Instance CommandPayloadPb_codec : Codec CommandPayloadPb :=
  codec_iso request Build_CommandPayloadPb ltac:(by intros []).

Global Instance CommandPb_codec : Codec CommandPb :=
  codec_iso (λ x, (cmd_header x, cmd_payload x))
    (λ '(x0, x1), Build_CommandPb x0 x1) ltac:(by intros []).

Global Instance EventOf_codec {Resp} `{!Codec Resp} : Codec (EventOf Resp) :=
  codec_iso response Build_EventOf ltac:(by intros []).

Global Instance EventHeader_codec : Codec EventHeader :=
  codec_iso (λ x, (eh_seq_num x, eh_log_index x, eh_offset x, eh_command_id x, eh_process_time_in_sec x))
    (λ '(x0, x1, x2, x3, x4), Build_EventHeader x0 x1 x2 x3 x4) ltac:(by intros []).

Global Instance EventPayload_oneof_event_codec : Codec EventPayload_oneof_event :=
  codec_iso (B := (EventOf TransferResponse + (EventOf BatchBalanceOperationResponse + (EventOf (BalanceResponse ReserveRequest) + (EventOf (BalanceResponse ReleaseRequest) + (EventOf (AccountResponse CreateAccountRequest) + (EventOf (AccountResponse DeleteAccountRequest) + (EventOf (AccountResponse LockAccountRequest) + (EventOf (AccountResponse UnlockAccountRequest) + EventOf (AccountResponse UpdateAccountConfigRequest)))))))))%type)
    (λ x, match x with
       | transfer_event x => inl x
       | batch_balance_operation_event x => inr (inl x)
       | reserve_event x => inr (inr (inl x))
       | release_event x => inr (inr (inr (inl x)))
       | account_created_event x => inr (inr (inr (inr (inl x))))
       | account_deleted_event x => inr (inr (inr (inr (inr (inl x)))))
       | account_locked_event x => inr (inr (inr (inr (inr (inr (inl x))))))
       | account_unlock_event x => inr (inr (inr (inr (inr (inr (inr (inl x)))))))
       | account_config_update_event x => inr (inr (inr (inr (inr (inr (inr (inr x)))))))
       end)
    (λ x, match x with
       | inl x => transfer_event x
       | inr (inl x) => batch_balance_operation_event x
       | inr (inr (inl x)) => reserve_event x
       | inr (inr (inr (inl x))) => release_event x
       | inr (inr (inr (inr (inl x)))) => account_created_event x
       | inr (inr (inr (inr (inr (inl x))))) => account_deleted_event x
       | inr (inr (inr (inr (inr (inr (inl x)))))) => account_locked_event x
       | inr (inr (inr (inr (inr (inr (inr (inl x))))))) => account_unlock_event x
       | inr (inr (inr (inr (inr (inr (inr (inr x))))))) => account_config_update_event x
       end) ltac:(by intros []).

Global Instance EventPayloadPb_codec : Codec EventPayloadPb :=
  codec_iso event Build_EventPayloadPb ltac:(by intros []).

Global Instance EventPb_codec : Codec EventPb :=
  codec_iso (λ x, (ev_header x, ev_payload x))
    (λ '(x0, x1), Build_EventPb x0 x1) ltac:(by intros []).

(** ** Messages of the raft layer *)

Global Instance HardState_codec : Codec HardState :=
  codec_iso (λ x, (hs_term x, hs_vote x, hs_commit x))
    (λ '(x0, x1, x2), Build_HardState x0 x1 x2) ltac:(by intros []).

Global Instance EntryType_codec : Codec EntryType :=
  codec_iso (B := (unit + (unit + unit))%type)
    (λ x, match x with
       | EntryNormal => inl ()
       | EntryConfChange => inr (inl ())
       | EntryConfChangeV2 => inr (inr ())
       end)
    (λ x, match x with
       | inl _ => EntryNormal
       | inr (inl _) => EntryConfChange
       | inr (inr _) => EntryConfChangeV2
       end) ltac:(by intros []).

Global Instance Entry_codec : Codec Entry :=
  codec_iso (λ x, (entry_type x, entry_term x, entry_index x, entry_data x, entry_context x, entry_sync_log x))
    (λ '(x0, x1, x2, x3, x4, x5), Build_Entry x0 x1 x2 x3 x4 x5) ltac:(by intros []).

Global Instance RegionEpoch_codec : Codec RegionEpoch :=
  codec_iso (λ x, (conf_ver x, version x))
    (λ '(x0, x1), Build_RegionEpoch x0 x1) ltac:(by intros []).

Global Instance PeerRole_codec : Codec PeerRole :=
  codec_iso (B := (unit + (unit + (unit + unit)))%type)
    (λ x, match x with
       | Voter => inl ()
       | Learner => inr (inl ())
       | IncomingVoter => inr (inr (inl ()))
       | DemotingVoter => inr (inr (inr ()))
       end)
    (λ x, match x with
       | inl _ => Voter
       | inr (inl _) => Learner
       | inr (inr (inl _)) => IncomingVoter
       | inr (inr (inr _)) => DemotingVoter
       end) ltac:(by intros []).

Global Instance metapb_Peer_codec : Codec metapb_Peer :=
  codec_iso (λ x, (peer_id x, peer_store_id x, peer_role x))
    (λ '(x0, x1, x2), Build_metapb_Peer x0 x1 x2) ltac:(by intros []).

Global Instance Region_codec : Codec Region :=
  codec_iso (λ x, (region_id x, region_start_key x, region_end_key x, region_epoch x, region_peers x))
    (λ '(x0, x1, x2, x3, x4), Build_Region x0 x1 x2 x3 x4) ltac:(by intros []).

Global Instance RaftTruncatedState_codec : Codec RaftTruncatedState :=
  codec_iso (λ x, (ts_index x, ts_term x))
    (λ '(x0, x1), Build_RaftTruncatedState x0 x1) ltac:(by intros []).

Global Instance RaftLocalState_codec : Codec RaftLocalState :=
  codec_iso (λ x, (rls_hard_state x, rls_last_index x))
    (λ '(x0, x1), Build_RaftLocalState x0 x1) ltac:(by intros []).

Global Instance RaftApplyState_codec : Codec RaftApplyState :=
  codec_iso (λ x, (as_applied_index x, as_last_commit_index x, as_commit_index x, as_commit_term x, as_truncated_state x))
    (λ '(x0, x1, x2, x3, x4), Build_RaftApplyState x0 x1 x2 x3 x4) ltac:(by intros []).

Global Instance StoreIdent_codec : Codec StoreIdent :=
  codec_iso (λ x, (si_cluster_id x, si_store_id x))
    (λ '(x0, x1), Build_StoreIdent x0 x1) ltac:(by intros []).

Global Instance RegionLocalState_codec : Codec RegionLocalState :=
  codec_iso rl_region Build_RegionLocalState ltac:(by intros []).

Global Instance ContextPb_codec : Codec ContextPb :=
  codec_iso (λ x, (ctx_region_id x, ctx_peer x, ctx_term x))
    (λ '(x0, x1, x2), Build_ContextPb x0 x1 x2) ltac:(by intros []).

Global Instance MessageQueueRequest_codec : Codec MessageQueueRequest :=
  codec_iso (λ x, (mq_context x, mq_payload x))
    (λ '(x0, x1), Build_MessageQueueRequest x0 x1) ltac:(by intros []).

Global Instance CmdType_codec : Codec CmdType :=
  codec_iso (B := (unit + unit)%type)
    (λ x, match x with
       | Invalid => inl ()
       | MessageQueue => inr ()
       end)
    (λ x, match x with
       | inl _ => Invalid
       | inr _ => MessageQueue
       end) ltac:(by intros []).

Global Instance Request_codec : Codec Request :=
  codec_iso (λ x, (req_cmd_type x, req_message_queue x))
    (λ '(x0, x1), Build_Request x0 x1) ltac:(by intros []).

Global Instance CompactLogRequest_codec : Codec CompactLogRequest :=
  codec_iso (λ x, (compact_index x, compact_term x))
    (λ '(x0, x1), Build_CompactLogRequest x0 x1) ltac:(by intros []).

Global Instance AdminCmdType_codec : Codec AdminCmdType :=
  codec_iso (B := (unit + unit)%type)
    (λ x, match x with
       | InvalidAdmin => inl ()
       | CompactLog => inr ()
       end)
    (λ x, match x with
       | inl _ => InvalidAdmin
       | inr _ => CompactLog
       end) ltac:(by intros []).

Global Instance AdminRequest_codec : Codec AdminRequest :=
  codec_iso (λ x, (adm_cmd_type x, adm_compact_log x))
    (λ '(x0, x1), Build_AdminRequest x0 x1) ltac:(by intros []).

Global Instance StatusCmdType_codec : Codec StatusCmdType :=
  codec_iso (B := (unit + (unit + unit))%type)
    (λ x, match x with
       | InvalidStatus => inl ()
       | RegionLeader => inr (inl ())
       | RegionDetail => inr (inr ())
       end)
    (λ x, match x with
       | inl _ => InvalidStatus
       | inr (inl _) => RegionLeader
       | inr (inr _) => RegionDetail
       end) ltac:(by intros []).

Global Instance StatusRequest_codec : Codec StatusRequest :=
  codec_iso st_cmd_type Build_StatusRequest ltac:(by intros []).

Global Instance RaftRequestHeader_codec : Codec RaftRequestHeader :=
  codec_iso (λ x, (rh_region_id x, rh_peer x, rh_uuid x, rh_term x))
    (λ '(x0, x1, x2, x3), Build_RaftRequestHeader x0 x1 x2 x3) ltac:(by intros []).

Global Instance RaftCmdRequest_codec : Codec RaftCmdRequest :=
  codec_iso (λ x, (rc_header x, rc_requests x, rc_admin_request x, rc_status_request x))
    (λ '(x0, x1, x2, x3), Build_RaftCmdRequest x0 x1 x2 x3) ltac:(by intros []).

(** ** The codec as a [ProtoMessage] *)

Global Instance ref_proto_message {M} `{!Codec M} : ProtoMessage M := {|
  write_to_bytes := enc;
  parse_from_bytes bs := match dec bs with Some (m, []) => Some m | _ => None end |}.

Global Instance ref_round_trip {M} `{!Codec M} : ProtoRoundTrip M.
Proof.
  intros m. cbn. rewrite <-(app_nil_r (enc m)). by rewrite dec_enc.
Qed.

(** No message starts with a field of empty encoding. *)
Global Instance Entry_empty : ProtoEmpty Entry.
Proof. by intros [[] ? ? ? ? ?]. Qed.
Global Instance RaftCmdRequest_empty : ProtoEmpty RaftCmdRequest.
Proof. by intros [[] ? ? ?]. Qed.
