(* ===== verification/RaftLog.v ===== *)
(** * The raft log in rocks_engine.rs

    The raft log of a region is kept in the raft engine, one key per entry.  The
    reads ([get_entry], [fetch_entries_to]), the updates through a write batch
    ([append], [cut_logs], [put_raft_state]) and the collection of old entries
    ([gc]). *)

From S2P Require Import Prelude Bytes Keys Proto Raftpb RocksEngine RefRocks RefCodec.
Local Open Scope Z_scope.

Section raft_log.
Context {R : RocksDB} `{!ProtoMessage Entry, !ProtoMessage RaftLocalState}.

(** ** Reads *)

Definition RAFT_LOG_MULTI_GET_CNT : Z := 8.

Definition get_raft_state (d : DB) (raft_group_id : Z) : run (option RaftLocalState) :=
  get_msg_cf d CF_DEFAULT (raft_state_key raft_group_id).
Definition get_entry (d : DB) (raft_group_id index : Z) : run (option Entry) :=
  get_msg_cf d CF_DEFAULT (raft_log_key raft_group_id index).

(** The loop over [low..high] that reads one key at a time. *)
Fixpoint fetch_multi_get (indices : list Z) (d : DB) (region_id max_size total_size count : Z)
    (buf : list Entry) : run (Z * list Entry) :=
  match indices with
  | [] => Returns (count, buf)
  | i :: indices =>
      if (0 <? total_size) && (max_size <=? total_size) then Returns (count, buf)
      else
        match get_value d (raft_log_key region_id i) with
        | Some v =>
            entry ← unwrap (parse_from_bytes v);
            rust_assert (entry_index entry =? i) (
            fetch_multi_get indices d region_id max_size
              (total_size + Z.of_nat (length v)) (count + 1) (buf ++ [entry]))
        | None => Panics
        end
  end.

(** The variables captured by the callback of the scan. *)
Record FetchState := {
  check_compacted : bool; next_index : Z; fetch_buf : list Entry; fetch_total : Z;
  fetch_count : Z }.

Definition fetch_entry (low max_size : Z) : scan_fn FetchState := λ s _ value,
  match parse_from_bytes value with
  | None => Returns (Err ProtobufError)
  | Some entry =>
      let total := fetch_total s + Z.of_nat (length value) in
      rust_assert
        (if check_compacted s then entry_index entry =? low
         else entry_index entry =? next_index s) (
      Returns (Ok ({| check_compacted := false; next_index := next_index s +u 1;
                      fetch_buf := fetch_buf s ++ [entry]; fetch_total := total;
                      fetch_count := fetch_count s + 1 |}, total <? max_size)))
  end.

Definition fetch_entries_to (d : DB) (region_id low high : Z) (max_size : option Z)
    (buf : list Entry) : run (Z * list Entry) :=
  if high <=? low then Returns (0, buf)
  else
    let max_size := default u64_max max_size in
    if high -u low <=? RAFT_LOG_MULTI_GET_CNT then
      fetch_multi_get (seqZ low (high - low)) d region_id max_size 0 0 buf
    else
      r ← scan d (raft_log_key region_id low) (raft_log_key region_id high)
            (fetch_entry low max_size)
            {| check_compacted := true; next_index := low; fetch_buf := buf;
               fetch_total := 0; fetch_count := 0 |};
      s ← unwrap_ok r;
      if (fetch_count s =? high -u low) || (max_size <=? fetch_total s)
      then Returns (fetch_count s, fetch_buf s)
      else Returns (0, []).

(** ** Updates *)

Definition wb_append_impl (raft_group_id : Z) (entries : list Entry) (wb : RocksWriteBatch) :
    RocksWriteBatch :=
  foldl (λ wb e, wb_put (raft_log_key raft_group_id (entry_index e)) (write_to_bytes e) wb)
    wb entries.
(** Nothing is written when the maximum of the sizes does not exist. *)
Definition wb_append (raft_group_id : Z) (entries : list Entry) (wb : RocksWriteBatch) :
    RocksWriteBatch :=
  match entries with
  | [] => wb
  | _ => wb_append_impl raft_group_id entries wb
  end.
Definition wb_cut_logs (raft_group_id from to : Z) (wb : RocksWriteBatch) : RocksWriteBatch :=
  foldl (λ wb index, wb_delete (raft_log_key raft_group_id index) wb) wb
    (seqZ from (to - from)).
Definition wb_put_raft_state (raft_group_id : Z) (state : RaftLocalState)
    (wb : RocksWriteBatch) : RocksWriteBatch :=
  wb_put_msg (raft_state_key raft_group_id) state wb.

(** [consume]: the batch is written and cleared. *)
Definition consume (d : DB) (wb : RocksWriteBatch) : Z * DB * RocksWriteBatch :=
  (wb_data_size wb, write_opt d wb, wb_clear wb).
Definition engine_append (d : DB) (raft_group_id : Z) (entries : list Entry) : Z * DB :=
  (consume d (wb_append_impl raft_group_id entries wb_new)).1.
Definition engine_put_raft_state (d : DB) (raft_group_id : Z) (state : RaftLocalState) : DB :=
  put_msg d (raft_state_key raft_group_id) state.

(** ** Collection of old entries *)

Fixpoint gc_delete (indices : list Z) (raft_group_id : Z) (d : DB) (raft_wb : RocksWriteBatch) :
    DB * RocksWriteBatch :=
  match indices with
  | [] => (d, raft_wb)
  | idx :: indices =>
      let raft_wb := wb_delete (raft_log_key raft_group_id idx) raft_wb in
      if (256 <=? wb_count raft_wb)%nat
      then gc_delete indices raft_group_id (write_opt d raft_wb) (wb_clear raft_wb)
      else gc_delete indices raft_group_id d raft_wb
  end.

(** The first index to delete: [from], or the first index stored when it is 0. *)
Definition gc_from (d : DB) (raft_group_id from : Z) : run (option Z) :=
  if from =? 0 then
    match seek d (raft_log_key raft_group_id 0) with
    | Some (k, _) =>
        if starts_with k (raft_log_prefix raft_group_id)
        then i ← raft_log_index k; Returns (Some i)
        else Returns None
    | None => Returns None
    end
  else Returns (Some from).

Definition raft_gc (d : DB) (raft_group_id from to : Z) : run (DB * Z) :=
  if to <=? from then Returns (d, 0)
  else
    start ← gc_from d raft_group_id from;
    match start with
    | None => Returns (d, 0)
    | Some from =>
        let '(d, raft_wb) := gc_delete (seqZ from (to - from)) raft_group_id d wb_new in
        let d := if wb_is_empty raft_wb then d else write_opt d raft_wb in
        Returns (d, to -u from)
    end.
End raft_log.

(** ** What is stored *)
Section raft_log_spec.
Context {R : RocksDB} {RL : RocksDBLaws R}.
Context `{!ProtoMessage Entry, !ProtoRoundTrip Entry, !ProtoEmpty Entry}.

(** The keys of a raft engine. *)
Definition raft_key (k : bytes) : Prop :=
  ∃ g, is_u64 g ∧ (k = raft_state_key g ∨ ∃ i, is_u64 i ∧ k = raft_log_key g i).

(** [L] is the log of the group [g]. *)
Record log_stored (get : bytes → option bytes) (g : Z) (L : gmap Z Entry) : Prop := {
  ls_get i : is_u64 i → get (raft_log_key g i) = write_to_bytes <$> L !! i;
  ls_index i e : L !! i = Some e → entry_index e = i ∧ is_u64 i;
  ls_keys k v : get k = Some v → raft_key k }.

Lemma log_key_range g low high k :
  is_u64 g → is_u64 low → is_u64 high → raft_key k →
  bytes_leb (raft_log_key g low) k = true → bytes_ltb k (raft_log_key g high) = true →
  ∃ i, k = raft_log_key g i ∧ is_u64 i ∧ low ≤ i < high.
Proof.
  intros Hg Hl Hh (g' & Hg' & Hk) Hge Hlt.
  rewrite bytes_leb_spec in Hge. rewrite bytes_ltb_spec in Hlt. unfold bytes_lt in *.
  destruct Hk as [->|(i & Hi & ->)].
  - rewrite raft_state_key_cmp in Hge, Hlt by done. by destruct (g' ?= g).
  - rewrite raft_log_key_cmp in Hge, Hlt by done.
    destruct (Z.compare_spec g' g) as [->|?|?]; [|by destruct Hge|done].
    rewrite Z.compare_lt_iff in Hge, Hlt. exists i. split_and!; [done..|lia|lia].
Qed.

Definition log_range (L : gmap Z Entry) (low high : Z) : option (list Entry) :=
  mapM (λ i, L !! i) (seqZ low (high - low)).

Lemma log_range_Some get g L low high es :
  log_stored get g L → log_range L low high = Some es →
  entry_index <$> es = seqZ low (high - low) ∧
  Forall (λ e, L !! entry_index e = Some e) es.
Proof.
  intros Hst Hes. unfold log_range in Hes. apply mapM_Some in Hes.
  induction Hes as [|i e idx es Hi Hes [IH1 IH2]]; [by split; [|constructor]|].
  destruct (ls_index _ _ _ Hst _ _ Hi) as [Hidx _]. cbn. rewrite IH1, Hidx.
  split; [done|]. constructor; [by rewrite Hidx|done].
Qed.

(** An entry as the engine stores it. *)
Definition log_kv (g : Z) (e : Entry) : bytes * bytes :=
  (raft_log_key g (entry_index e), write_to_bytes e).

Lemma log_kv_sorted g es low n :
  is_u64 g → 0 ≤ low → low + n ≤ u64_max → entry_index <$> es = seqZ low n →
  StronglySorted (λ x y, bytes_lt x.1 y.1) (log_kv g <$> es).
Proof.
  intros Hg. unfold u64_max. revert low n. induction es as [|e es IH]; intros low n Hl Hn Hes.
  { constructor. }
  destruct (decide (0 < n)) as [Hpos|]; [|by rewrite seqZ_nil in Hes by lia].
  rewrite seqZ_cons in Hes by lia. cbn in Hes. injection Hes as Hidx Hes. cbn. constructor.
  - apply (IH (Z.succ low) (Z.pred n)); [lia..|done].
  - rewrite list.Forall_fmap, list.Forall_forall. intros e' He'. cbn.
    assert (entry_index e' ∈ seqZ (Z.succ low) (Z.pred n)) as Hin
      by (rewrite <-Hes; by apply list_elem_of_fmap_2).
    apply elem_of_seqZ in Hin. apply raft_log_key_lt; [done|unfold is_u64; lia..|lia].
Qed.

Lemma log_iter d g L low high es :
  log_stored (db_get d CF_DEFAULT) g L → is_u64 g → 0 ≤ low → high ≤ u64_max →
  log_range L low high = Some es → low ≤ high →
  db_iter d CF_DEFAULT (Some (raft_log_key g low)) (Some (raft_log_key g high))
    (raft_log_key g low) = log_kv g <$> es.
Proof.
  intros Hst Hg Hl Hh Hes Hle. pose proof Hh as Hh'. unfold u64_max in Hh'.
  destruct (log_range_Some _ _ _ _ _ _ Hst Hes) as [Hidx Hall].
  assert (StronglySorted (λ x y, bytes_lt x.1 y.1) (log_kv g <$> es)) as Hsort
    by (apply (log_kv_sorted g es low (high - low)); [done|done|lia|done]).
  assert (∀ l : list (bytes * bytes), StronglySorted (λ x y, bytes_lt x.1 y.1) l → NoDup l) as Hnd.
  { induction 1 as [|x l Hl' IH Hx]; constructor; [|done]. intros Hin.
    rewrite list.Forall_forall in Hx. by apply (bytes_lt_irrefl x.1), Hx. }
  eapply StronglySorted_unique_strong; [| |exact Hsort|].
  - intros x y _ _ Hxy Hyx. destruct (bytes_lt_irrefl x.1). exact (bytes_lt_trans _ _ _ Hxy Hyx).
  - apply db_iter_sorted.
  - apply NoDup_Permutation; [apply Hnd, db_iter_sorted|by apply Hnd|]. intros [k v].
    rewrite db_iter_elem, list_elem_of_fmap. split.
    + intros (Hget & Hge & _ & Hlt). specialize (Hlt _ eq_refl).
      destruct (log_key_range g low high k) as (i & -> & Hi & Hr);
        [done|unfold is_u64; lia|unfold is_u64; lia|by eapply ls_keys|done|done|].
      rewrite (ls_get _ _ _ Hst _ Hi) in Hget. apply fmap_Some in Hget as (e & He & ->).
      destruct (ls_index _ _ _ Hst _ _ He) as [Hie _].
      exists e. split; [by unfold log_kv; rewrite Hie|].
      assert (i ∈ entry_index <$> es) as Hin by (rewrite Hidx; apply elem_of_seqZ; lia).
      apply list_elem_of_fmap in Hin as (e' & -> & He'). rewrite list.Forall_forall in Hall.
      rewrite Hall in He by done. by injection He as ->.
    + intros (e & [= -> ->] & He). rewrite list.Forall_forall in Hall. specialize (Hall _ He).
      assert (entry_index e ∈ seqZ low (high - low)) as Hin
        by (rewrite <-Hidx; by apply list_elem_of_fmap_2).
      apply elem_of_seqZ in Hin. assert (is_u64 (entry_index e)) as Hi by (unfold is_u64; lia).
      assert (bytes_leb (raft_log_key g low) (raft_log_key g (entry_index e)) = true) as Hle'.
      { rewrite bytes_leb_spec, raft_log_key_lt by (done || unfold is_u64; lia). lia. }
      rewrite (ls_get _ _ _ Hst _ Hi), Hall. split_and!; [done|done|by intros ? [= <-]|].
      intros u [= <-]. rewrite bytes_ltb_spec, raft_log_key_lt by (done || unfold is_u64; lia). lia.
Qed.

(** *** Fetching a range *)

Definition entry_size (e : Entry) : Z := Z.of_nat (length (write_to_bytes e)).

(** The reference: the entries in order, up to and including the one with which
    the total size reaches the limit. *)
Fixpoint limit_size (max total : Z) (es : list Entry) : list Entry :=
  match es with
  | [] => []
  | e :: es =>
      if (0 <? total) && (max <=? total) then []
      else e :: limit_size max (total + entry_size e) es
  end.

Lemma entry_size_pos e : entry_index e ≠ 0 → 0 < entry_size e.
Proof.
  intros He. unfold entry_size. destruct (write_to_bytes e) eqn:E; cbn; [|lia].
  apply write_empty in E. by rewrite E in He.
Qed.

Lemma limit_size_full max total es :
  0 < total → max ≤ total → limit_size max total es = [].
Proof.
  intros. destruct es; cbn; [done|].
  by rewrite (proj2 (Z.ltb_lt _ _)), (proj2 (Z.leb_le _ _)) by lia.
Qed.

Lemma fetch_multi_get_spec get_d g L d low n es max total count buf :
  get_d = db_get d CF_DEFAULT → log_stored get_d g L → 0 ≤ low → low + n ≤ u64_max →
  mapM (λ i, L !! i) (seqZ low n) = Some es →
  fetch_multi_get (seqZ low n) d g max total count buf
  = Returns (count + Z.of_nat (length (limit_size max total es)),
             buf ++ limit_size max total es).
Proof.
  intros -> Hst Hl Hn. unfold u64_max in *. revert low n Hl Hn total count buf.
  induction es as [|e es IH]; intros low n Hl Hn total count buf Hes.
  - apply mapM_Some, Forall2_nil_inv_r in Hes. rewrite Hes. cbn.
    by rewrite app_nil_r, Z.add_0_r.
  - destruct (decide (0 < n)) as [Hpos|]; [|by rewrite seqZ_nil in Hes by lia].
    rewrite seqZ_cons in Hes |- * by lia. cbn in Hes.
    destruct (L !! low) as [e'|] eqn:He; [|done]. cbn in Hes.
    destruct (mapM _ (seqZ (Z.succ low) _)) as [es'|] eqn:Hes'; [|done].
    cbn in Hes. injection Hes as -> ->. cbn [fetch_multi_get limit_size].
    destruct ((0 <? total) && (max <=? total)); cbn [length]; [by rewrite app_nil_r, Z.add_0_r|].
    unfold get_value. rewrite (ls_get _ _ _ Hst) by (unfold is_u64; lia). rewrite He. cbn [fmap option_fmap option_map].
    rewrite parse_write. cbn [unwrap mbind run_bind].
    destruct (ls_index _ _ _ Hst _ _ He) as [Hidx _]. rewrite (proj2 (Z.eqb_eq _ _) Hidx).
    cbn [rust_assert]. rewrite IH by (lia || done). fold (entry_size e). f_equal. f_equal; [lia|].
    by rewrite <-app_assoc.
Qed.

Lemma fetch_entry_ok low max s k e :
  (if check_compacted s then entry_index e =? low else entry_index e =? next_index s) = true →
  fetch_entry low max s k (write_to_bytes e)
  = Returns (Ok ({| check_compacted := false; next_index := next_index s +u 1;
                    fetch_buf := fetch_buf s ++ [e];
                    fetch_total := fetch_total s + entry_size e;
                    fetch_count := fetch_count s + 1 |}, fetch_total s + entry_size e <? max)).
Proof. intros H. unfold fetch_entry. by rewrite parse_write, H. Qed.

Lemma fetch_scan_spec g es low n max s :
  Forall (λ e, 0 < entry_size e) es → 0 ≤ n → n + Z.of_nat (length es) ≤ u64_max →
  entry_index <$> es = seqZ n (Z.of_nat (length es)) →
  (if check_compacted s then n = low ∧ fetch_total s = 0 else 0 < fetch_total s < max) →
  next_index s = n →
  ∃ s', scan_impl (log_kv g <$> es) (fetch_entry low max) s = Returns (Ok s') ∧
    fetch_buf s' = fetch_buf s ++ limit_size max (fetch_total s) es ∧
    fetch_count s' = fetch_count s + Z.of_nat (length (limit_size max (fetch_total s) es)) ∧
    (max ≤ fetch_total s' ∨ limit_size max (fetch_total s) es = es).
Proof.
  unfold u64_max. revert n s.
  induction es as [|e es IH]; intros n s Hpos Hn Hmax Hidx Hs Hnext; cbn [fmap list_fmap scan_impl].
  { exists s. cbn. rewrite app_nil_r, Z.add_0_r. split_and!; [done..|by right]. }
  apply Forall_cons_1 in Hpos as [He Hpos]. cbn [length] in *.
  rewrite seqZ_cons in Hidx by lia. cbn in Hidx. injection Hidx as Hie Hidx.
  unfold log_kv at 1. rewrite fetch_entry_ok
    by (destruct (check_compacted s); [destruct Hs; subst|]; apply Z.eqb_eq; congruence).
  cbn [mbind run_bind].
  assert (limit_size max (fetch_total s) (e :: es)
          = e :: limit_size max (fetch_total s + entry_size e) es) as Hlim.
  { cbn. destruct (Z.ltb_spec 0 (fetch_total s)), (Z.leb_spec max (fetch_total s)); try done.
    destruct (check_compacted s); lia. }
  rewrite Hlim. assert (0 ≤ fetch_total s) as Ht by (destruct (check_compacted s); lia).
  destruct (Z.ltb_spec (fetch_total s + entry_size e) max) as [Hlt|Hge].
  - match goal with |- ∃ s', scan_impl _ _ ?s1 = _ ∧ _ =>
      destruct (IH (n + 1) s1) as (s' & -> & Hb & Hc & Hd) end; cbn; try done; try lia.
    { rewrite Hidx. f_equal; lia. }
    { rewrite Hnext. apply u64_add_small. unfold is_u64. lia. }
    cbn in Hb, Hc, Hd. exists s'. rewrite Hb, Hc. split_and!; [done|by rewrite <-app_assoc|lia|].
    destruct Hd as [?|Hd]; [by left|right; by rewrite Hd].
  - eexists. split; [done|]. cbn. rewrite limit_size_full by lia.
    split_and!; [done|done|by left].
Qed.

(** Both ways of reading give the reference. *)
Lemma fetch_entries_spec d g L low high es max buf :
  log_stored (db_get d CF_DEFAULT) g L → is_u64 g → 0 < low < high → high ≤ u64_max →
  log_range L low high = Some es →
  let r := limit_size (default u64_max max) 0 es in
  fetch_entries_to d g low high max buf = Returns (Z.of_nat (length r), buf ++ r).
Proof.
  intros Hst Hg Hl Hh Hes r. unfold fetch_entries_to. rewrite (proj2 (Z.leb_gt _ _)) by lia.
  pose proof Hh as Hh'. unfold u64_max in Hh'.
  rewrite u64_sub_small by (unfold is_u64; lia). destruct (high - low <=? _).
  { rewrite (fetch_multi_get_spec _ g L d low (high - low) es) by (done || lia). by rewrite Z.add_0_l. }
  unfold scan. rewrite (log_iter d g L low high es) by (done || lia).
  destruct (log_range_Some _ _ _ _ _ _ Hst Hes) as [Hidx Hall].
  assert (Z.of_nat (length es) = high - low) as Hlen.
  { apply (f_equal length) in Hidx. rewrite length_fmap, length_seqZ in Hidx. lia. }
  match goal with |- context [scan_impl _ _ ?s0] =>
    destruct (fetch_scan_spec g es low low (default u64_max max) s0)
      as (s' & -> & Hb & Hc & Hd) end; cbn; try done; try lia.
  { rewrite list.Forall_forall in Hall |- *. intros e He. apply entry_size_pos.
    assert (entry_index e ∈ seqZ low (high - low)) as Hin
      by (rewrite <-Hidx; by apply list_elem_of_fmap_2).
    apply elem_of_seqZ in Hin. lia. }
  { by rewrite Hlen. }
  cbn in Hb, Hc, Hd. fold r in Hb, Hc, Hd. rewrite Hb, Hc, Z.add_0_l.
  destruct Hd as [Hd|Hd].
  - rewrite (proj2 (Z.leb_le _ _) Hd). by rewrite orb_true_r.
  - rewrite Hd, Hlen, Z.eqb_refl. done.
Qed.

(** *** Updates through a batch *)

(** A long range that is no longer stored is reported as no entries at all. *)
Lemma fetch_entries_missing d g L low high max buf :
  log_stored (db_get d CF_DEFAULT) g L → is_u64 g → 0 ≤ low → high ≤ u64_max →
  RAFT_LOG_MULTI_GET_CNT < high - low → 0 < default u64_max max →
  (∀ i, low ≤ i < high → L !! i = None) →
  fetch_entries_to d g low high max buf = Returns (0, []).
Proof.
  intros Hst Hg Hl Hh Hcnt Hmax Hnone. pose proof Hh as Hh'. unfold u64_max in Hh'.
  unfold RAFT_LOG_MULTI_GET_CNT in *. unfold fetch_entries_to.
  rewrite (proj2 (Z.leb_gt _ _)), u64_sub_small by (unfold is_u64; lia).
  unfold RAFT_LOG_MULTI_GET_CNT. rewrite (proj2 (Z.leb_gt _ _)) by lia.
  assert (db_iter d CF_DEFAULT (Some (raft_log_key g low)) (Some (raft_log_key g high))
    (raft_log_key g low) = []) as Hit.
  { destruct (db_iter _ _ _ _ _) as [|[k v] l] eqn:Hi; [done|exfalso].
    assert ((k, v) ∈ (k, v) :: l) as Hin by apply list_elem_of_here. rewrite <-Hi in Hin.
    apply db_iter_elem in Hin as (Hget & Hge & _ & Hlt). specialize (Hlt _ eq_refl).
    destruct (log_key_range g low high k) as (i & -> & Hi' & Hr);
      [done|unfold is_u64; lia|unfold is_u64; lia|by eapply ls_keys|done|done|].
    rewrite (ls_get _ _ _ Hst _ Hi'), (Hnone i Hr) in Hget. done. }
  unfold scan. rewrite Hit. cbn [scan_impl mbind run_bind unwrap_ok fetch_count fetch_total].
  rewrite (proj2 (Z.eqb_neq _ _)), (proj2 (Z.leb_gt _ _)) by lia. done.
Qed.

Definition log_put (es : list Entry) (L : gmap Z Entry) : gmap Z Entry :=
  foldl (λ L e, <[entry_index e := e]> L) L es.
Definition log_cut (from to : Z) (L : gmap Z Entry) : gmap Z Entry :=
  filter (λ '(i, _), ¬ (from ≤ i < to)) L.

Lemma log_cut_lookup from to L i :
  log_cut from to L !! i = if decide (from ≤ i < to) then None else L !! i.
Proof.
  unfold log_cut. rewrite map_lookup_filter. case_decide as H; destruct (L !! i); cbn; try done.
  - by rewrite option_guard_False by tauto.
  - by rewrite option_guard_True by done.
Qed.

Lemma raft_key_log g i : is_u64 g → is_u64 i → raft_key (raft_log_key g i).
Proof. intros. exists g. eauto. Qed.

Lemma log_stored_put d wb g L e :
  is_u64 g → is_u64 (entry_index e) → log_stored (view d wb) g L →
  log_stored (view d (wb_put (raft_log_key g (entry_index e)) (write_to_bytes e) wb)) g
    (<[entry_index e := e]> L).
Proof.
  intros Hg Hi [Hget Hidx Hkeys]. split.
  - intros i Hi'. destruct (decide (entry_index e = i)) as [<-|Hne].
    + by rewrite view_put_eq, lookup_insert_eq.
    + rewrite view_put_ne, lookup_insert_ne by (done || intros []%raft_log_key_inj; done). by apply Hget.
  - intros i e' [[<- <-]|[? ?]]%lookup_insert_Some; [done|by apply Hidx].
  - intros k v. rewrite view_put. case_decide; [subst; intros _; by apply raft_key_log|apply Hkeys].
Qed.

Lemma log_stored_append d wb g L es :
  is_u64 g → Forall (λ e, is_u64 (entry_index e)) es → log_stored (view d wb) g L →
  log_stored (view d (wb_append g es wb)) g (log_put es L).
Proof.
  intros Hg Hes Hst.
  assert (log_stored (view d (wb_append_impl g es wb)) g (log_put es L)) as H.
  { unfold wb_append_impl, log_put. revert wb L Hst.
    induction Hes as [|e es He Hes IH]; intros wb L Hst; cbn; [done|].
    by apply IH, log_stored_put. }
  by destruct es.
Qed.

Lemma view_cut_logs d wb g l k :
  view d (foldl (λ wb index, wb_delete (raft_log_key g index) wb) wb l) k
  = if decide (Exists (λ i, raft_log_key g i = k) l) then None else view d wb k.
Proof.
  revert wb. induction l as [|i l IH]; intros wb; cbn.
  { rewrite decide_False; [done|]. by intros ?%Exists_nil. }
  rewrite IH, view_delete. repeat case_decide; try done;
    match goal with H : ¬ Exists _ (_ :: _) |- _ => destruct H; rewrite Exists_cons; auto
    | H : Exists _ (_ :: _) |- _ => apply Exists_cons in H as [?|?]; done end.
Qed.

(** Deleting the keys of a range of indices cuts the log. *)
Lemma log_stored_deleted (get get' : bytes → option bytes) g L from to :
  is_u64 g → 0 ≤ from → to ≤ u64_max → log_stored get g L →
  (∀ k, get' k = if decide (Exists (λ i, raft_log_key g i = k) (seqZ from (to - from)))
                 then None else get k) →
  log_stored get' g (log_cut from to L).
Proof.
  unfold u64_max. intros Hg Hf Ht [Hget Hidx Hkeys] Heq. split.
  - intros i Hi. rewrite Heq, log_cut_lookup, Hget by done.
    assert (Exists (λ j, raft_log_key g j = raft_log_key g i) (seqZ from (to - from))
            ↔ from ≤ i < to) as Hiff.
    { rewrite list.Exists_exists. split.
      - intros (j & Hj%elem_of_seqZ & Hk). apply raft_log_key_inj in Hk as [_ ->];
          [lia|done|done|unfold is_u64; lia|done].
      - intros Hr. exists i. split; [|done]. apply elem_of_seqZ. lia. }
    repeat case_decide; tauto.
  - intros i e Hi. rewrite log_cut_lookup in Hi. case_decide; [done|]. by apply Hidx.
  - intros k v. rewrite Heq. case_decide; [done|]. apply Hkeys.
Qed.

Lemma log_stored_cut d wb g L from to :
  is_u64 g → 0 ≤ from → to ≤ u64_max → log_stored (view d wb) g L →
  log_stored (view d (wb_cut_logs g from to wb)) g (log_cut from to L).
Proof.
  intros. eapply log_stored_deleted; [done..|]. intros k. apply view_cut_logs.
Qed.

Lemma view_cut_logs_state d wb g from to g' :
  view d (wb_cut_logs g from to wb) (raft_state_key g') = view d wb (raft_state_key g').
Proof.
  unfold wb_cut_logs. rewrite view_cut_logs, decide_False; [done|].
  intros (i & _ & Hk)%list.Exists_exists. by apply raft_log_key_ne_state_key in Hk.
Qed.

Lemma view_append_state d wb g es g' :
  view d (wb_append g es wb) (raft_state_key g') = view d wb (raft_state_key g').
Proof.
  assert (view d (wb_append_impl g es wb) (raft_state_key g') = view d wb (raft_state_key g')) as H.
  { unfold wb_append_impl. revert wb. induction es as [|e es IH]; intros wb; cbn; [done|].
    rewrite IH. apply view_put_ne, raft_log_key_ne_state_key. }
  by destruct es.
Qed.

Lemma log_stored_put_state `{!ProtoMessage RaftLocalState} d wb g L g' st :
  is_u64 g' → log_stored (view d wb) g L →
  log_stored (view d (wb_put_raft_state g' st wb)) g L.
Proof.
  intros Hg [Hget Hidx Hkeys]. split; [|done|].
  - intros i Hi. unfold wb_put_raft_state, wb_put_msg. rewrite view_put_ne; [by apply Hget|].
    intros Heq. by apply (raft_log_key_ne_state_key g i g').
  - intros k v. unfold wb_put_raft_state, wb_put_msg. rewrite view_put.
    case_decide; [|apply Hkeys]. subst. intros _. exists g'. auto.
Qed.

(** *** Collection *)

Lemma gc_delete_spec indices g d wb d' wb' k :
  gc_delete indices g d wb = (d', wb') →
  view d' wb' k
  = if decide (Exists (λ i, raft_log_key g i = k) indices) then None else view d wb k.
Proof.
  revert d wb. induction indices as [|i l IH]; intros d wb; cbn [gc_delete].
  { intros [= <- <-]. rewrite decide_False; [done|]. by intros ?%Exists_nil. }
  set (wb1 := wb_delete (raft_log_key g i) wb). intros H.
  assert (view d' wb' k
    = if decide (Exists (λ i, raft_log_key g i = k) l) then None else view d wb1 k) as ->.
  { destruct (_ <=? _)%nat; apply IH in H as ->; [|done]. by rewrite (view_new (write_opt d wb1)). }
  unfold wb1. rewrite view_delete. repeat case_decide; try done;
    match goal with H : ¬ Exists _ (_ :: _) |- _ => destruct H; rewrite Exists_cons; auto
    | H : Exists _ (_ :: _) |- _ => apply Exists_cons in H as [?|?]; done end.
Qed.

Lemma seek_spec d key :
  match seek d key with
  | Some (k, v) => db_get d CF_DEFAULT k = Some v ∧ bytes_leb key k = true ∧
      ∀ k' v', db_get d CF_DEFAULT k' = Some v' → bytes_leb key k' = true → ¬ bytes_lt k' k
  | None => ∀ k' v', db_get d CF_DEFAULT k' = Some v' → bytes_leb key k' = false
  end.
Proof.
  assert (∀ k' v', db_get d CF_DEFAULT k' = Some v' → bytes_leb key k' = true →
    (k', v') ∈ db_iter d CF_DEFAULT None None key) as Hin by (intros; by apply db_iter_elem).
  pose proof (db_iter_sorted d CF_DEFAULT None None key) as Hs.
  pose proof (λ k v, db_iter_elem d CF_DEFAULT None None key k v) as Helem.
  unfold seek. destruct (db_iter d CF_DEFAULT None None key) as [|[k v] l]; cbn.
  - intros k' v' Hk'. destruct (bytes_leb key k') eqn:E; [|done].
    by apply (Hin k' v'), elem_of_nil in E.
  - destruct (proj1 (Helem k v) (list_elem_of_here _ _)) as (? & ? & _).
    split_and!; [done..|]. intros k' v' Hk' Hle Hlt.
    specialize (Hin _ _ Hk' Hle). apply elem_of_cons in Hin as [[= -> ->]|Hin].
    + by apply (bytes_lt_irrefl k).
    + inversion Hs as [|? ? _ Hall]; subst. rewrite list.Forall_forall in Hall.
      apply (bytes_lt_irrefl k). apply (bytes_lt_trans _ k'); [apply (Hall _ Hin)|done].
Qed.

(** A key of the engine with the prefix of the group is one of its log keys. *)
Lemma raft_key_prefix g k :
  is_u64 g → raft_key k → starts_with k (raft_log_prefix g) = true ↔
    raft_key k ∧ ∃ i, is_u64 i ∧ k = raft_log_key g i.
Proof.
  intros Hg Hk. split.
  - intros Hs. split; [done|]. apply starts_with_spec in Hs as [rest Hr].
    destruct Hk as (g' & Hg' & [->|(i & Hi & ->)]).
    + unfold raft_state_key, raft_log_prefix, make_region_prefix in Hr.
      rewrite <-!app_assoc in Hr. apply app_inj_1 in Hr as [_ Hr]; [|done].
      apply app_inj_1 in Hr as [_ Hr]; [done|by rewrite !length_write_u64].
    + unfold raft_log_key, make_region_key, raft_log_prefix, make_region_prefix in Hr.
      rewrite <-!app_assoc in Hr. apply app_inj_1 in Hr as [_ Hr]; [|done].
      apply app_inj_1 in Hr as [Hr _]; [|by rewrite !length_write_u64].
      apply write_u64_inj in Hr as ->; [|done..]. eauto.
  - intros [_ (i & _ & ->)]. apply starts_with_spec. exists (write_u64 i).
    unfold raft_log_prefix, make_region_prefix, raft_log_key, make_region_key.
    by rewrite <-!app_assoc.
Qed.

Lemma gc_from_spec d g L from :
  log_stored (db_get d CF_DEFAULT) g L → is_u64 g → is_u64 from →
  match gc_from d g from with
  | Returns (Some f) => from ≤ f ∧ is_u64 f ∧ (from ≠ 0 → f = from) ∧
      ∀ i, from ≤ i < f → L !! i = None
  | Returns None => L = ∅ ∧ from = 0
  | Panics => False
  end.
Proof.
  intros Hst Hg Hfrom. unfold gc_from. destruct (Z.eqb_spec from 0) as [->|Hne].
  2:{ split_and!; [lia|done|done|lia]. }
  assert (∀ i e, L !! i = Some e → db_get d CF_DEFAULT (raft_log_key g i)
    = Some (write_to_bytes e) ∧ bytes_leb (raft_log_key g 0) (raft_log_key g i) = true) as Hlog.
  { intros i e He. destruct (ls_index _ _ _ Hst _ _ He) as [_ Hi].
    rewrite (ls_get _ _ _ Hst _ Hi), He. split; [done|].
    rewrite bytes_leb_spec, raft_log_key_lt by done. unfold is_u64 in Hi. lia. }
  pose proof (seek_spec d (raft_log_key g 0)) as Hseek.
  destruct (seek d (raft_log_key g 0)) as [[k v]|].
  - destruct Hseek as (Hkv & Hge & Hfirst).
    pose proof (ls_keys _ _ _ Hst _ _ Hkv) as Hk. destruct (starts_with k (raft_log_prefix g)) eqn:Hs.
    + apply (raft_key_prefix g k Hg Hk) in Hs as [_ (f & Hf & ->)].
      rewrite raft_log_index_key by done. cbn [mbind run_bind].
      split_and!; [unfold is_u64 in Hf; lia|done|done|]. intros i Hi.
      destruct (L !! i) as [e|] eqn:He; [|done]. destruct (Hlog _ _ He) as [Hget Hle].
      destruct (Hfirst _ _ Hget Hle). apply raft_log_key_lt; [done| |done|lia].
      by destruct (ls_index _ _ _ Hst _ _ He).
    + split; [|done]. apply map_empty. intros i. destruct (L !! i) as [e|] eqn:He; [exfalso|done].
      destruct (Hlog _ _ He) as [Hget Hle].
      destruct (ls_index _ _ _ Hst _ _ He) as [_ Hi].
      specialize (Hfirst _ _ Hget Hle). enough (starts_with k (raft_log_prefix g) = true) by congruence.
      apply (raft_key_prefix g k Hg Hk). split; [done|].
      destruct Hk as (g' & Hg' & [->|(j & Hj & ->)]).
      * rewrite bytes_leb_spec in Hge. unfold bytes_lt in Hge, Hfirst.
        rewrite bytes_cmp_antisym in Hfirst. rewrite raft_state_key_cmp in Hge, Hfirst by done.
        by destruct (g' ?= g).
      * rewrite bytes_leb_spec in Hge. unfold bytes_lt in Hge, Hfirst.
        rewrite raft_log_key_cmp in Hge, Hfirst by done. rewrite (Z.compare_antisym g' g) in Hfirst.
        destruct (Z.compare_spec g' g) as [->| |]; [by eauto|done|done].
  - split; [|done]. apply map_empty. intros i. destruct (L !! i) as [e|] eqn:He; [|done].
    destruct (Hlog _ _ He) as [Hget Hle]. by rewrite (Hseek _ _ Hget) in Hle.
Qed.

(** [gc] cuts the log below [to] and touches nothing else. *)
Lemma raft_gc_spec d g L from to :
  log_stored (db_get d CF_DEFAULT) g L → is_u64 g → 0 ≤ from < to → to ≤ u64_max →
  ∃ d' n, raft_gc d g from to = Returns (d', n) ∧
    log_stored (db_get d' CF_DEFAULT) g (log_cut from to L) ∧
    (∀ g', db_get d' CF_DEFAULT (raft_state_key g') = db_get d CF_DEFAULT (raft_state_key g')) ∧
    (from ≠ 0 → n = to - from).
Proof.
  intros Hst Hg Hf Ht. pose proof Ht as Ht'. unfold u64_max in Ht'.
  unfold raft_gc. rewrite (proj2 (Z.leb_gt _ _)) by lia.
  pose proof (gc_from_spec d g L from Hst Hg) as Hfrom.
  specialize (Hfrom ltac:(unfold is_u64; lia)).
  destruct (gc_from d g from) as [[f|]|]; cbn; [| |done].
  - destruct Hfrom as (Hff & Hfu & Hfeq & Hnone).
    destruct (gc_delete (seqZ f (to - f)) g d wb_new) as [d1 wb1] eqn:Hgc.
    set (d' := if wb_is_empty wb1 then d1 else write_opt d1 wb1).
    assert (∀ k, db_get d' CF_DEFAULT k
      = if decide (Exists (λ i, raft_log_key g i = k) (seqZ f (to - f))) then None
        else db_get d CF_DEFAULT k) as Hget.
    { intros k. rewrite <-(view_new d k), <-(gc_delete_spec _ _ _ _ _ _ k Hgc).
      unfold d'. destruct (wb_is_empty wb1) eqn:He; [|done].
      unfold wb_is_empty, wb_count in He. apply Nat.eqb_eq, nil_length_inv in He.
      unfold view, write_opt. by rewrite He, db_get_write. }
    exists d', (to -u f). split_and!; [done| | |].
    + assert (log_cut from to L = log_cut f to L) as ->.
      { apply map_eq. intros i. rewrite !log_cut_lookup. repeat case_decide; try done; [|lia].
        symmetry. apply Hnone. lia. }
      eapply log_stored_deleted; [done|unfold is_u64 in Hfu; lia|done|exact Hst|done].
    + intros g'. rewrite Hget, decide_False; [done|].
      intros (i & _ & Hk)%list.Exists_exists. by apply raft_log_key_ne_state_key in Hk.
    + intros Hne. rewrite (Hfeq Hne). apply u64_sub_small. unfold is_u64. lia.
  - destruct Hfrom as [-> ->]. exists d, 0. split_and!; [done| |done|done].
    replace (log_cut 0 to ∅) with (∅ : gmap Z Entry) by (symmetry; apply map_filter_empty).
    done.
Qed.

(** Fetching a stored range returns its entries in order, up to and including
    the one with which the total size reaches the limit, whichever of the two code
    paths (point reads for at most eight entries, a scan otherwise) is taken. *)
Theorem fetch_entries_exact d g L low high es max buf :
  log_stored (db_get d CF_DEFAULT) g L → is_u64 g → 0 < low < high → high ≤ u64_max →
  log_range L low high = Some es →
  fetch_entries_to d g low high max buf
  = Returns (Z.of_nat (length (limit_size (default u64_max max) 0 es)),
             buf ++ limit_size (default u64_max max) 0 es).
Proof. intros. by apply (fetch_entries_spec d g L). Qed.
End raft_log_spec.

(** Ten entries are read by the scan, three of them by point reads. *)
Lemma fetch_entries_exact_witness :
  let es := (λ i, {| entry_type := EntryNormal; entry_term := 1; entry_index := i; entry_data := [];
                     entry_context := []; entry_sync_log := false |}) <$> seqZ 6 10 in
  let d := (engine_append (ref_empty : @DB RefRocks) 1 es).2 in
  fetch_entries_to d 1 6 16 None [] = Returns (10, es) ∧
  fetch_entries_to d 1 6 9 None [] = Returns (3, take 3 es).
Proof.
  intros es d.
  assert (log_stored (db_get d CF_DEFAULT) 1 (log_put es ∅)) as Hst.
  { apply (log_stored_append (R:=RefRocks) ref_empty wb_new 1 ∅ es); [done| |].
    - apply list.Forall_forall. intros x Hx. apply list_elem_of_fmap in Hx as (i & -> & Hi).
      apply elem_of_seqZ in Hi. unfold is_u64. cbn. unfold u64_modulus. lia.
    - split; intros *; [by rewrite lookup_empty|by rewrite lookup_empty|done]. }
  split.
  - by rewrite (fetch_entries_exact d 1 (log_put es ∅) 6 16 es None [] Hst).
  - by rewrite (fetch_entries_exact d 1 (log_put es ∅) 6 9 (take 3 es) None [] Hst).
Defined.
