(* ===== verification/PeerStorage.v ===== *)
(** * peer_storage.rs

    The storage of a raft peer: the raft log and the hard state in the raft
    engine, the apply state in the kv engine, and their copies in memory.  It is
    the [Storage] that raft-rs reads, and what raft-rs hands out in a [Ready] is
    persisted through it. *)

From S2P Require Import Prelude Bytes Keys Proto Raftpb RocksEngine RefRocks RefCodec RaftLog.
Local Open Scope Z_scope.

Definition RAFT_INIT_LOG_TERM : Z := 5.
Definition RAFT_INIT_LOG_INDEX : Z := 5.

(** ** Getters and setters of the messages *)

Definition get_hard_state (s : RaftLocalState) : HardState := get_or_default (rls_hard_state s).
Definition get_truncated_state (s : RaftApplyState) : RaftTruncatedState :=
  get_or_default (as_truncated_state s).
Definition set_commit (commit : Z) (h : HardState) : HardState :=
  {| hs_term := hs_term h; hs_vote := hs_vote h; hs_commit := commit |}.
Definition mut_hard_state (f : HardState → HardState) (s : RaftLocalState) : RaftLocalState :=
  {| rls_hard_state := Some (f (get_hard_state s)); rls_last_index := rls_last_index s |}.
Definition set_last_index (n : Z) (s : RaftLocalState) : RaftLocalState :=
  {| rls_hard_state := rls_hard_state s; rls_last_index := n |}.
Definition set_hard_state (h : HardState) (s : RaftLocalState) : RaftLocalState :=
  {| rls_hard_state := Some h; rls_last_index := rls_last_index s |}.

Definition first_index (state : RaftApplyState) : Z := ts_index (get_truncated_state state) +u 1.
Definition last_index (state : RaftLocalState) : Z := rls_last_index state.

(** What the code uses of raft-rs's [Ready]: the changed hard state and the
    entries to persist. *)
Record Ready := { rd_hs : option HardState; rd_entries : list Entry }.

Section peer_storage.
Context {R : RocksDB}.
Context `{!ProtoMessage Entry, !ProtoMessage RaftLocalState, !ProtoMessage RaftApplyState}.
Context `{!ProtoMessage RegionLocalState, !ProtoMessage StoreIdent}.

Record Engines := { kv : DB; raft : DB }.

Record PeerStorage := {
  ps_peer_id : Z;
  ps_region : Region;
  ps_raft_state : RaftLocalState;
  ps_apply_state : RaftApplyState;
  ps_applied_index_term : Z;
  ps_last_term : Z }.

(** ** Recovery from the engines *)

Definition init_raft_state (e : Engines) (region : Region) : run RaftLocalState :=
  state ← get_raft_state (raft e) (region_id region); unwrap state.
Definition init_apply_state (e : Engines) (region : Region) : run RaftApplyState :=
  state ← get_msg_cf (kv e) CF_RAFT (apply_state_key (region_id region)); unwrap state.

Definition init_last_term (e : Engines) (region : Region) (raft_state : RaftLocalState)
    (apply_state : RaftApplyState) : run Z :=
  let last_idx := rls_last_index raft_state in
  if last_idx =? 0 then Returns 0
  else if last_idx =? RAFT_INIT_LOG_INDEX then Returns RAFT_INIT_LOG_TERM
  else if last_idx =? ts_index (get_truncated_state apply_state)
  then Returns (ts_term (get_truncated_state apply_state))
  else
    rust_assert (RAFT_INIT_LOG_INDEX <? last_idx) (
    entry ← get_entry (raft e) (region_id region) last_idx;
    entry ← unwrap entry; Returns (entry_term entry)).

Definition init_applied_index_term (e : Engines) (region : Region)
    (apply_state : RaftApplyState) : run Z :=
  if as_applied_index apply_state =? RAFT_INIT_LOG_INDEX then Returns RAFT_INIT_LOG_TERM
  else
    let truncated_state := get_truncated_state apply_state in
    if as_applied_index apply_state =? ts_index truncated_state
    then Returns (ts_term truncated_state)
    else
      entry ← get_entry (raft e) (region_id region) (as_applied_index apply_state);
      entry ← unwrap entry; Returns (entry_term entry).

Definition validate_states (g : Z) (e : Engines) (raft_state : RaftLocalState)
    (apply_state : RaftApplyState) : run RaftLocalState :=
  let last_index := rls_last_index raft_state in
  let commit_index := hs_commit (get_hard_state raft_state) in
  let recorded_commit_index := as_commit_index apply_state in
  commit_index ←
    (if commit_index <? recorded_commit_index then
       entry ← get_entry (raft e) g recorded_commit_index;
       match entry with
       | Some entry =>
           rust_assert (entry_term entry =? as_commit_term apply_state) (
           Returns recorded_commit_index)
       | None => Panics
       end
     else Returns commit_index);
  rust_assert (as_applied_index apply_state <=? commit_index) (
  rust_assert (commit_index <=? last_index) (
  rust_assert (as_commit_term apply_state <=? hs_term (get_hard_state raft_state)) (
  Returns (mut_hard_state (set_commit commit_index) raft_state)))).

Definition peer_storage_new (e : Engines) (region : Region) (peer_id : Z) : run PeerStorage :=
  raft_state ← init_raft_state e region;
  apply_state ← init_apply_state e region;
  raft_state ← validate_states (region_id region) e raft_state apply_state;
  last_term ← init_last_term e region raft_state apply_state;
  applied_index_term ← init_applied_index_term e region apply_state;
  Returns {| ps_peer_id := peer_id; ps_region := region; ps_raft_state := raft_state;
             ps_apply_state := apply_state; ps_applied_index_term := applied_index_term;
             ps_last_term := last_term |}.

(** ** The storage raft-rs reads *)

Definition truncated_index (s : PeerStorage) : Z :=
  ts_index (get_truncated_state (ps_apply_state s)).
Definition truncated_term (s : PeerStorage) : Z :=
  ts_term (get_truncated_state (ps_apply_state s)).
Definition storage_first_index (s : PeerStorage) : Z := first_index (ps_apply_state s).
Definition storage_last_index (s : PeerStorage) : Z := last_index (ps_raft_state s).
Definition applied_index_of (s : PeerStorage) : Z := as_applied_index (ps_apply_state s).
Definition commit_index (s : PeerStorage) : Z := hs_commit (get_hard_state (ps_raft_state s)).
Definition get_region_id (s : PeerStorage) : Z := region_id (ps_region s).

Definition check_range {A} (s : PeerStorage) (low high : Z) (k : run A) : run A :=
  if high <? low then Panics
  else if low <=? truncated_index s then Panics
  else if storage_last_index s +u 1 <? high then Panics
  else k.

(** The voters of a region; other roles are unreachable. *)
Fixpoint conf_state_voters (peers : list metapb_Peer) : run (list Z) :=
  match peers with
  | [] => Returns []
  | p :: peers =>
      rust_assert (bool_decide (peer_role p = Voter)) (
      voters ← conf_state_voters peers; Returns (peer_id p :: voters))
  end.
Definition conf_state_from_region (region : Region) : run (list Z) :=
  conf_state_voters (region_peers region).

Definition initial_state (s : PeerStorage) : run (HardState * list Z) :=
  let hard_state := get_hard_state (ps_raft_state s) in
  if decide (hard_state = default_instance) then Returns (hard_state, [])
  else voters ← conf_state_from_region (ps_region s); Returns (hard_state, voters).

Definition entries (s : PeerStorage) (e : Engines) (low high max_size : Z) : run (list Entry) :=
  check_range s low high (
  if low =? high then Returns []
  else
    r ← fetch_entries_to (raft e) (get_region_id s) low high (Some max_size) [];
    Returns r.2).

Definition term (s : PeerStorage) (e : Engines) (idx : Z) : run Z :=
  if idx =? truncated_index s then Returns (truncated_term s)
  else
    check_range s idx (idx +u 1) (
    if (truncated_term s =? ps_last_term s) || (idx =? storage_last_index s)
    then Returns (ps_last_term s)
    else
      es ← entries s e idx (idx +u 1) u64_max;
      entry ← unwrap (head es); Returns (entry_term entry)).

(** ** Updates in memory *)

Definition set_applied_state (apply_state : RaftApplyState) (s : PeerStorage) : PeerStorage :=
  {| ps_peer_id := ps_peer_id s; ps_region := ps_region s; ps_raft_state := ps_raft_state s;
     ps_apply_state := apply_state; ps_applied_index_term := ps_applied_index_term s;
     ps_last_term := ps_last_term s |}.
Definition set_applied_term (applied_index_term : Z) (s : PeerStorage) : PeerStorage :=
  {| ps_peer_id := ps_peer_id s; ps_region := ps_region s; ps_raft_state := ps_raft_state s;
     ps_apply_state := ps_apply_state s; ps_applied_index_term := applied_index_term;
     ps_last_term := ps_last_term s |}.
Definition set_commit_index (commit : Z) (s : PeerStorage) : run PeerStorage :=
  rust_assert (commit_index s <=? commit) (
  Returns {| ps_peer_id := ps_peer_id s; ps_region := ps_region s;
             ps_raft_state := mut_hard_state (set_commit commit) (ps_raft_state s);
             ps_apply_state := ps_apply_state s;
             ps_applied_index_term := ps_applied_index_term s;
             ps_last_term := ps_last_term s |}).

(** ** Persisting a [Ready] *)

Record InvokeContext := {
  ic_region_id : Z;
  ic_raft_state : RaftLocalState;
  ic_apply_state : RaftApplyState;
  ic_last_term : Z;
  has_new_entries : bool }.

Definition invoke_context_new (s : PeerStorage) : InvokeContext :=
  {| ic_region_id := get_region_id s; ic_raft_state := ps_raft_state s;
     ic_apply_state := ps_apply_state s; ic_last_term := ps_last_term s;
     has_new_entries := false |}.
Definition ic_set_raft_state (st : RaftLocalState) (c : InvokeContext) : InvokeContext :=
  {| ic_region_id := ic_region_id c; ic_raft_state := st; ic_apply_state := ic_apply_state c;
     ic_last_term := ic_last_term c; has_new_entries := has_new_entries c |}.

Definition save_raft_state_to (c : InvokeContext) (raft_wb : RocksWriteBatch) : RocksWriteBatch :=
  wb_put_raft_state (ic_region_id c) (ic_raft_state c) raft_wb.
Definition save_apply_state_to (c : InvokeContext) (kv_wb : RocksWriteBatch) : RocksWriteBatch :=
  wb_put_msg_cf CF_RAFT (apply_state_key (ic_region_id c)) (ic_apply_state c) kv_wb.

(** [append]: the new last index, the context and the raft write batch. *)
Definition append (s : PeerStorage) (c : InvokeContext) (entries : list Entry)
    (raft_wb : RocksWriteBatch) : Z * InvokeContext * RocksWriteBatch :=
  let prev_last_index := rls_last_index (ic_raft_state c) in
  match list.last entries with
  | None => (prev_last_index, c, raft_wb)
  | Some e =>
      let last_index := entry_index e in
      let raft_wb := wb_append (get_region_id s) entries raft_wb in
      let raft_wb :=
        wb_cut_logs (get_region_id s) (last_index +u 1) (prev_last_index +u 1) raft_wb in
      (last_index,
       {| ic_region_id := ic_region_id c;
          ic_raft_state := set_last_index last_index (ic_raft_state c);
          ic_apply_state := ic_apply_state c; ic_last_term := entry_term e;
          has_new_entries := true |}, raft_wb)
  end.

Definition handle_raft_ready (s : PeerStorage) (ready : Ready) (raft_wb : RocksWriteBatch) :
    InvokeContext * RocksWriteBatch :=
  let ctx := invoke_context_new s in
  let '(ctx, raft_wb) :=
    match rd_entries ready with
    | [] => (ctx, raft_wb)
    | es => let '(_, ctx, raft_wb) := append s ctx es raft_wb in (ctx, raft_wb)
    end in
  let ctx :=
    if 0 <? rls_last_index (ic_raft_state ctx) then
      match rd_hs ready with
      | Some hs => ic_set_raft_state (set_hard_state hs (ic_raft_state ctx)) ctx
      | None => ctx
      end
    else ctx in
  let raft_wb :=
    if decide (ic_raft_state ctx = ps_raft_state s) then raft_wb
    else save_raft_state_to ctx raft_wb in
  (ctx, raft_wb).

Definition post_ready (c : InvokeContext) (s : PeerStorage) : PeerStorage :=
  {| ps_peer_id := ps_peer_id s; ps_region := ps_region s; ps_raft_state := ic_raft_state c;
     ps_apply_state := ic_apply_state c; ps_applied_index_term := ps_applied_index_term s;
     ps_last_term := ic_last_term c |}.

(** One round of the raft poller: the ready is recorded in the (empty) batch, the
    batch is written if there is anything in it, and only then is the memory
    updated. *)
Definition ready_cycle (e : Engines) (s : PeerStorage) (ready : Ready) : Engines * PeerStorage :=
  let '(ctx, raft_wb) := handle_raft_ready s ready wb_new in
  let e := if wb_is_empty raft_wb then e
           else {| kv := kv e; raft := (consume (raft e) raft_wb).1.2 |} in
  (e, post_ready ctx s).

(** ** Bootstrap *)

Definition write_initial_raft_state (raft_wb : RocksWriteBatch) (g : Z) : RocksWriteBatch :=
  wb_put_raft_state g
    {| rls_hard_state := Some {| hs_term := RAFT_INIT_LOG_TERM; hs_vote := 0;
                                 hs_commit := RAFT_INIT_LOG_INDEX |};
       rls_last_index := RAFT_INIT_LOG_INDEX |} raft_wb.
Definition initial_apply_state : RaftApplyState :=
  {| as_applied_index := RAFT_INIT_LOG_INDEX; as_last_commit_index := 0; as_commit_index := 0;
     as_commit_term := 0;
     as_truncated_state := Some {| ts_index := RAFT_INIT_LOG_INDEX;
                                   ts_term := RAFT_INIT_LOG_TERM |} |}.
Definition write_initial_apply_state (kv_wb : RocksWriteBatch) (g : Z) : RocksWriteBatch :=
  wb_put_msg_cf CF_RAFT (apply_state_key g) initial_apply_state kv_wb.

(** *** bootstrap.rs *)

Definition INIT_EPOCH_VER : Z := 1.
Definition INIT_EPOCH_CONF_VER : Z := 1.

Definition new_peer (store_id id : Z) : metapb_Peer :=
  {| peer_id := id; peer_store_id := store_id; peer_role := Voter |}.
Definition initial_region (id : Z) (peers : list (Z * Z)) : Region :=
  {| region_id := id; region_start_key := []; region_end_key := [];
     region_epoch := Some {| conf_ver := INIT_EPOCH_CONF_VER; version := INIT_EPOCH_VER |};
     region_peers := (λ '(store_id, id), new_peer store_id id) <$> peers |}.
Definition bootstrap_store (e : Engines) (cluster_id store_id : Z) : Engines :=
  {| kv := put_msg (kv e) STORE_IDENT_KEY
             {| si_cluster_id := cluster_id; si_store_id := store_id |};
     raft := raft e |}.
Definition prepare_bootstrap_cluster (e : Engines) (region : Region) : Engines :=
  let wb := wb_put_msg_cf CF_RAFT (region_state_key (region_id region))
              {| rl_region := Some region |} wb_new in
  let wb := write_initial_apply_state wb (region_id region) in
  let raft_wb := write_initial_raft_state wb_new (region_id region) in
  {| kv := write_opt (kv e) wb; raft := (consume (raft e) raft_wb).1.2 |}.
End peer_storage.
