(* ===== verification/StorageSpec.v ===== *)
(** * The correctness of the storage of a raft peer

    What peer_storage.rs keeps in the two engines and in memory is a raft log with
    a compacted prefix, a hard state and an apply state.  The invariant relating
    them is kept by every step that changes one of them: a persisted [Ready], a
    commit index learnt without one, the apply worker's write, the notification
    that follows it, the collection of compacted entries and a restart. *)

From S2P Require Import Prelude Bytes Keys Proto Raftpb RocksEngine RefRocks RefCodec RaftLog.
From S2P Require Import PeerStorage.
Local Open Scope Z_scope.

(** ** The log as raft sees it

    [L] is the log by index; the index and the term of the last compacted entry
    are kept apart. *)

Definition term_at (L : gmap Z Entry) (t : RaftTruncatedState) (i : Z) : option Z :=
  if decide (i = ts_index t) then Some (ts_term t) else entry_term <$> L !! i.

(** Appending [es] drops what was stored from their first index on. *)
Definition log_append (es : list Entry) (last : Z) (L : gmap Z Entry) : gmap Z Entry :=
  match list.last es with
  | None => L
  | Some e => log_cut (entry_index e + 1) (last + 1) (log_put es L)
  end.

Lemma log_put_lookup es L first i :
  entry_index <$> es = seqZ first (Z.of_nat (length es)) →
  log_put es L !! i
  = if decide (first ≤ i < first + Z.of_nat (length es)) then es !! Z.to_nat (i - first)
    else L !! i.
Proof.
  unfold log_put. revert first L. induction es as [|e es IH]; intros first L Hidx; cbn [length] in *.
  { rewrite decide_False by lia. done. }
  rewrite seqZ_cons in Hidx by lia. cbn in Hidx. injection Hidx as He Hidx.
  replace (Z.pred (Z.of_nat (S (length es)))) with (Z.of_nat (length es)) in Hidx by lia.
  cbn [foldl]. rewrite (IH (Z.succ first)) by done.
  destruct (decide (first = i)) as [<-|Hne].
  - rewrite decide_False, decide_True by lia. replace (first - first) with 0 by lia.
    rewrite <-He. apply lookup_insert_eq.
  - rewrite lookup_insert_ne by congruence. repeat case_decide; try lia; [|done].
    replace (Z.to_nat (i - first)) with (S (Z.to_nat (i - Z.succ first))) by lia. done.
Qed.

Lemma last_index_contiguous es first e :
  entry_index <$> es = seqZ first (Z.of_nat (length es)) → list.last es = Some e →
  entry_index e = first + Z.of_nat (length es) - 1.
Proof.
  intros Hidx Hl. rewrite last_lookup in Hl.
  assert ((entry_index <$> es) !! pred (length es) = Some (entry_index e)) as Hi
    by (rewrite list_lookup_fmap, Hl; done).
  rewrite Hidx in Hi. apply lookup_seqZ in Hi as [-> ?]. lia.
Qed.

Lemma log_append_lookup es L first last i :
  entry_index <$> es = seqZ first (Z.of_nat (length es)) → es ≠ [] → first ≤ last + 1 →
  (∀ j, last < j → L !! j = None) →
  log_append es last L !! i
  = if decide (i < first) then L !! i else es !! Z.to_nat (i - first).
Proof.
  intros Hidx Hne Hf Habove. unfold log_append.
  destruct (list.last es) as [e|] eqn:Hl; [|by apply last_None in Hl].
  rewrite log_cut_lookup, (log_put_lookup es L first) by done.
  rewrite (last_index_contiguous _ _ _ Hidx Hl).
  assert (∀ j, first + Z.of_nat (length es) ≤ j → es !! Z.to_nat (j - first) = None) as Hover
    by (intros j Hj; apply lookup_ge_None; lia).
  repeat case_decide; try lia; try done.
  - symmetry. apply Hover. lia.
  - rewrite Hover by lia. apply Habove. lia.
Qed.

(** [L] holds every entry after the compacted [t] up to [last], and none above;
    the terms never decrease and are at most [tmax]. *)
Record log_inv (L : gmap Z Entry) (t : RaftTruncatedState) (last last_term tmax : Z) : Prop := {
  li_present i : ts_index t < i ≤ last → is_Some (L !! i);
  li_above i : last < i → L !! i = None;
  li_last : term_at L t last = Some last_term;
  li_mono i j ti tj : ts_index t ≤ i ≤ j → term_at L t i = Some ti → term_at L t j = Some tj →
    ti ≤ tj;
  li_terms i ti : ts_index t ≤ i → term_at L t i = Some ti → ti ≤ tmax }.

(** The entries that raft-rs may ask to be appended: contiguous, starting at most
    one past the last index, with terms that do not decrease. *)
Record append_ok (L : gmap Z Entry) (t : RaftTruncatedState) (last tmax first : Z)
    (es : list Entry) : Prop := {
  po_index : entry_index <$> es = seqZ first (Z.of_nat (length es));
  po_first : ts_index t < first ≤ last + 1;
  po_end : first + Z.of_nat (length es) < u64_max;
  po_sorted i j x y : (i ≤ j)%nat → es !! i = Some x → es !! j = Some y →
    entry_term x ≤ entry_term y;
  po_prev x p : x ∈ es → term_at L t (first - 1) = Some p → p ≤ entry_term x;
  po_terms x : x ∈ es → entry_term x ≤ tmax }.

Lemma log_inv_truncate L t t' last lt tmax :
  log_inv L t last lt tmax → ts_index t ≤ ts_index t' ≤ last →
  term_at L t (ts_index t') = Some (ts_term t') → log_inv L t' last lt tmax.
Proof.
  intros [Hp Ha Hl Hm Ht] Hle Ht'.
  assert (∀ i, ts_index t' ≤ i → term_at L t' i = term_at L t i) as Heq.
  { intros i Hi. destruct (decide (i = ts_index t')) as [->|Hne].
    - rewrite Ht'. unfold term_at. by rewrite decide_True.
    - unfold term_at. by rewrite !decide_False by lia. }
  split.
  - intros i Hi. apply Hp. lia.
  - done.
  - by rewrite Heq by lia.
  - intros i j ti tj Hij. rewrite !Heq by lia. apply Hm. lia.
  - intros i ti Hi. rewrite Heq by lia. apply Ht. lia.
Qed.

Lemma log_inv_cut L t last lt tmax from to :
  log_inv L t last lt tmax → ts_index t ≤ last → to ≤ ts_index t + 1 →
  log_inv (log_cut from to L) t last lt tmax.
Proof.
  intros [Hp Ha Hl Hm Ht] Hlast Hto.
  assert (∀ i, ts_index t ≤ i → term_at (log_cut from to L) t i = term_at L t i) as Heq.
  { intros i Hi. unfold term_at. case_decide; [done|]. rewrite log_cut_lookup.
    by rewrite decide_False by lia. }
  split.
  - intros i Hi. rewrite log_cut_lookup, decide_False by lia. by apply Hp.
  - intros i Hi. rewrite log_cut_lookup, (Ha i Hi). by case_decide.
  - by rewrite Heq.
  - intros i j ti tj Hij. rewrite !Heq by lia. by apply Hm.
  - intros i ti Hi. rewrite Heq by lia. by apply Ht.
Qed.

Lemma term_at_append L t last lt tmax first es i :
  log_inv L t last lt tmax → append_ok L t last tmax first es → es ≠ [] → ts_index t ≤ i →
  term_at (log_append es last L) t i
  = if decide (i < first) then term_at L t i else entry_term <$> es !! Z.to_nat (i - first).
Proof.
  intros Hinv [Hidx Hf _ _ _ _] Hne Hi. unfold term_at.
  rewrite (log_append_lookup es L first last) by (done || apply Hinv || lia).
  repeat case_decide; try done; lia.
Qed.

Lemma log_inv_append L t last lt tmax first es x :
  log_inv L t last lt tmax → append_ok L t last tmax first es → list.last es = Some x →
  log_inv (log_append es last L) t (entry_index x) (entry_term x) tmax.
Proof.
  intros Hinv Hok Hx. pose proof Hok as [Hidx Hf _ Hs Hp Ht].
  assert (es ≠ []) as Hne by (intros ->; done).
  pose proof (last_index_contiguous _ _ _ Hidx Hx) as Hlast.
  assert (0 < length es)%nat as Hpos by (destruct es; [done|cbn; lia]).
  pose proof (λ i, term_at_append L t last lt tmax first es i Hinv Hok Hne) as Hta.
  assert (∀ i, log_append es last L !! i
    = if decide (i < first) then L !! i else es !! Z.to_nat (i - first)) as Hlk.
  { intros i. apply log_append_lookup; [done..|lia|]. apply (li_above _ _ _ _ _ Hinv). }
  split.
  - intros i Hi. rewrite Hlk. case_decide; [apply (li_present _ _ _ _ _ Hinv); lia|].
    apply lookup_lt_is_Some. lia.
  - intros i Hi. rewrite Hlk, decide_False by lia. apply lookup_ge_None. lia.
  - rewrite Hta, decide_False by lia. rewrite last_lookup in Hx.
    replace (Z.to_nat (entry_index x - first)) with (pred (length es)) by lia. by rewrite Hx.
  - intros i j ti tj Hij. rewrite !Hta by lia. repeat case_decide; try lia.
    + apply (li_mono _ _ _ _ _ Hinv). lia.
    + intros Hi (y & Hy & ->)%fmap_Some.
      destruct (term_at L t (first - 1)) as [p|] eqn:Hprev.
      * pose proof (li_mono _ _ _ _ _ Hinv i (first - 1) _ _ ltac:(lia) Hi Hprev).
        apply list_elem_of_lookup_2 in Hy. specialize (Hp y p Hy eq_refl). lia.
      * exfalso. unfold term_at in Hprev. case_decide; [done|].
        destruct (li_present _ _ _ _ _ Hinv (first - 1)) as [z Hz]; [lia|]. by rewrite Hz in Hprev.
    + intros (y & Hy & ->)%fmap_Some (z & Hz & ->)%fmap_Some. eapply Hs; [|done..]. lia.
  - intros i ti Hi. rewrite Hta by lia. case_decide; [by apply (li_terms _ _ _ _ _ Hinv)|].
    intros (y & Hy & ->)%fmap_Some. apply Ht. by eapply list_elem_of_lookup_2.
Qed.

Lemma log_inv_tmax L t last lt tmax tmax' :
  log_inv L t last lt tmax → tmax ≤ tmax' → log_inv L t last lt tmax'.
Proof. intros [Hp Ha Hl Hm Ht] Hle. split; [done..|]. intros i ti Hi H. specialize (Ht i ti Hi H). lia. Qed.

Section storage_spec.
Context {R : RocksDB} {RL : RocksDBLaws R}.
Context `{!ProtoMessage Entry, !ProtoMessage RaftLocalState, !ProtoMessage RaftApplyState}.
Context `{!ProtoMessage RegionLocalState, !ProtoMessage StoreIdent}.
Context `{!ProtoRoundTrip Entry, !ProtoRoundTrip RaftLocalState, !ProtoRoundTrip RaftApplyState}.
Context `{!ProtoEmpty Entry}.

Abbreviation trunc s := (get_truncated_state (ps_apply_state s)).
Abbreviation raft_disk e := (db_get (raft e) CF_DEFAULT).

(** The apply state [ap] of the kv engine agrees with the log [L] up to [last] and
    the persisted hard state [h]. *)
Record apply_ok (L : gmap Z Entry) (last : Z) (h : HardState) (ap : RaftApplyState) : Prop := {
  ao_init : RAFT_INIT_LOG_INDEX ≤ ts_index (get_truncated_state ap);
  ao_init_term : ts_index (get_truncated_state ap) = RAFT_INIT_LOG_INDEX →
    ts_term (get_truncated_state ap) = RAFT_INIT_LOG_TERM;
  ao_truncated : ts_index (get_truncated_state ap) ≤ as_applied_index ap;
  ao_applied : as_applied_index ap ≤ Z.max (hs_commit h) (as_commit_index ap);
  ao_commit : as_commit_index ap = 0 ∨
    ts_index (get_truncated_state ap) < as_commit_index ap ≤ last ∧
    entry_term <$> L !! as_commit_index ap = Some (as_commit_term ap);
  ao_term : as_commit_term ap ≤ hs_term h }.

(** The invariant: the engines hold the log [L], the hard state and the apply
    state [ap], and the memory agrees with them. *)
Record storage_inv (e : Engines) (s : PeerStorage) (L : gmap Z Entry) (ap : RaftApplyState)
    (h : HardState) : Prop := {
  si_group : is_u64 (get_region_id s);
  si_log : log_stored (raft_disk e) (get_region_id s) L;
  si_bound : storage_last_index s < u64_max - 1;
  si_inv : log_inv L (trunc s) (storage_last_index s) (ps_last_term s) (hs_term h);
  si_disk : raft_disk e (raft_state_key (get_region_id s))
    = Some (write_to_bytes {| rls_hard_state := Some h;
                              rls_last_index := storage_last_index s |});
  si_hard : ps_raft_state s = {| rls_hard_state := Some (set_commit (commit_index s) h);
                                 rls_last_index := storage_last_index s |};
  si_commit : hs_commit h ≤ commit_index s ≤ storage_last_index s;
  si_kv : db_get (kv e) CF_RAFT (apply_state_key (get_region_id s)) = Some (write_to_bytes ap);
  si_apply : apply_ok L (storage_last_index s) h ap;
  si_init : RAFT_INIT_LOG_INDEX ≤ ts_index (trunc s);
  si_behind : ts_index (trunc s) ≤ ts_index (get_truncated_state ap) ∧
    term_at L (trunc s) (ts_index (get_truncated_state ap))
    = Some (ts_term (get_truncated_state ap)) }.

(** *** Reads *)

Lemma get_entry_spec e g L i :
  log_stored (raft_disk e) g L → is_u64 i → get_entry (raft e) g i = Returns (L !! i).
Proof.
  intros Hst Hi. unfold get_entry, get_msg_cf, get_value_cf.
  rewrite (ls_get _ _ _ Hst _ Hi). destruct (L !! i); cbn; [by rewrite parse_write|done].
Qed.

Lemma log_range_total L low high :
  (∀ i, low ≤ i < high → is_Some (L !! i)) → is_Some (log_range L low high).
Proof.
  intros Hall. apply mapM_is_Some_2, list.Forall_forall. intros i Hi%elem_of_seqZ. apply Hall. lia.
Qed.

Lemma log_range_one L i : log_range L i (i + 1) = (λ e, [e]) <$> L !! i.
Proof.
  unfold log_range. replace (i + 1 - i) with 1 by lia. rewrite seqZ_cons by lia.
  cbn. by destruct (L !! i).
Qed.

Lemma storage_entries e s L ap h low high max :
  storage_inv e s L ap h → ts_index (trunc s) < low ≤ high → high ≤ storage_last_index s + 1 →
  ∃ es, log_range L low high = Some es ∧ entries s e low high max = Returns (limit_size max 0 es).
Proof.
  intros Hinv Hlow Hhigh. pose proof (si_bound _ _ _ _ _ Hinv) as Hb. unfold u64_max in Hb.
  pose proof (si_init _ _ _ _ _ Hinv) as Hi0. unfold RAFT_INIT_LOG_INDEX in Hi0.
  destruct (log_range_total L low high) as [es Hes].
  { intros i Hi. apply (li_present _ _ _ _ _ (si_inv _ _ _ _ _ Hinv)). lia. }
  exists es. split; [done|]. unfold entries, check_range, truncated_index.
  rewrite (proj2 (Z.ltb_ge high low)), (proj2 (Z.leb_gt low _)) by lia.
  rewrite u64_add_small by (unfold is_u64; lia).
  rewrite (proj2 (Z.ltb_ge (storage_last_index s + 1) high)) by lia.
  destruct (Z.eqb_spec low high) as [->|Hne].
  - unfold log_range in Hes. rewrite Z.sub_diag in Hes. cbn in Hes. by injection Hes as <-.
  - rewrite (fetch_entries_spec (raft e) (get_region_id s) L low high es (Some max) [])
      by (first [apply (si_log _ _ _ _ _ Hinv)|apply (si_group _ _ _ _ _ Hinv)|done|unfold u64_max; lia]).
    done.
Qed.

Lemma storage_term e s L ap h i :
  storage_inv e s L ap h → ts_index (trunc s) ≤ i ≤ storage_last_index s →
  ∃ t, term_at L (trunc s) i = Some t ∧ term s e i = Returns t.
Proof.
  intros Hinv Hi. pose proof (si_bound _ _ _ _ _ Hinv) as Hb. unfold u64_max in Hb.
  pose proof (si_init _ _ _ _ _ Hinv) as Hi0. unfold RAFT_INIT_LOG_INDEX in Hi0.
  unfold term, truncated_index, truncated_term.
  destruct (Z.eqb_spec i (ts_index (trunc s))) as [->|Hne].
  { unfold term_at. rewrite decide_True by done. eauto. }
  destruct (li_present _ _ _ _ _ (si_inv _ _ _ _ _ Hinv) i ltac:(lia)) as [en Hen].
  assert (term_at L (trunc s) i = Some (entry_term en)) as Hti
    by (unfold term_at; rewrite decide_False, Hen; done).
  exists (entry_term en). split; [done|]. unfold check_range, truncated_index.
  rewrite u64_add_small by (unfold is_u64; lia).
  rewrite (proj2 (Z.ltb_ge (i + 1) i)), (proj2 (Z.leb_gt i _)) by lia.
  rewrite u64_add_small by (unfold is_u64; lia).
  rewrite (proj2 (Z.ltb_ge (storage_last_index s + 1) (i + 1))) by lia.
  pose proof (li_last _ _ _ _ _ (si_inv _ _ _ _ _ Hinv)) as Hlt.
  destruct (_ || _) eqn:Hopt.
  - f_equal. apply orb_true_iff in Hopt as [Hopt|Hopt]; apply Z.eqb_eq in Hopt.
    + assert (term_at L (trunc s) (ts_index (trunc s)) = Some (ts_term (trunc s))) as Htt
        by (unfold term_at; by rewrite decide_True).
      pose proof (li_mono _ _ _ _ _ (si_inv _ _ _ _ _ Hinv) (ts_index (trunc s)) i _ _ ltac:(lia) Htt Hti).
      pose proof (li_mono _ _ _ _ _ (si_inv _ _ _ _ _ Hinv) i (storage_last_index s) _ _ ltac:(lia) Hti Hlt). lia.
    + subst i. congruence.
  - destruct (storage_entries e s L ap h i (i + 1) u64_max Hinv ltac:(lia) ltac:(lia))
      as (es & Hes & ->). rewrite log_range_one, Hen in Hes. injection Hes as <-. done.
Qed.

(** *** A persisted [Ready] *)

(** What raft-rs guarantees of a [Ready]: committed entries are never overwritten,
    the commit index does not go back and is at most the last index, and the terms
    of the entries are at most the current one. *)
Record ready_ok (s : PeerStorage) (L : gmap Z Entry) (ap : RaftApplyState) (ready : Ready) :
    Prop := {
  ro_hs hs : rd_hs ready = Some hs →
    hs_term (get_hard_state (ps_raft_state s)) ≤ hs_term hs ∧ commit_index s ≤ hs_commit hs ∧
    hs_commit hs ≤ default (storage_last_index s) (entry_index <$> list.last (rd_entries ready));
  ro_entries : rd_entries ready = [] ∨
    ∃ first, commit_index s < first ∧ as_commit_index ap < first ∧
      append_ok L (trunc s) (storage_last_index s)
        (hs_term (default (get_hard_state (ps_raft_state s)) (rd_hs ready))) first
        (rd_entries ready) }.

Lemma view_is_empty d wb k : wb_is_empty wb = true → view d wb k = db_get d CF_DEFAULT k.
Proof.
  unfold wb_is_empty, wb_count. intros Hn%Nat.eqb_eq%length_zero_iff_nil.
  rewrite <-view_new. unfold view, write_opt. by rewrite Hn.
Qed.

Lemma log_stored_ext (get get' : bytes → option bytes) g L :
  (∀ k, get' k = get k) → log_stored get g L → log_stored get' g L.
Proof.
  intros Heq [Hget Hidx Hkeys]. split; [|done|].
  - intros i Hi. rewrite Heq. by apply Hget.
  - intros k v. rewrite Heq. apply Hkeys.
Qed.

Lemma log_stored_new d g L :
  log_stored (db_get d CF_DEFAULT) g L → log_stored (view d wb_new) g L.
Proof. apply log_stored_ext. intros k. apply view_new. Qed.

(** The raft state after a [Ready]. *)
Definition ready_state (s : PeerStorage) (ready : Ready) : RaftLocalState :=
  {| rls_hard_state := Some (default (get_hard_state (ps_raft_state s)) (rd_hs ready));
     rls_last_index :=
       default (storage_last_index s) (entry_index <$> list.last (rd_entries ready)) |}.

Section ready.
Context (e : Engines) (s : PeerStorage) (L : gmap Z Entry) (ap : RaftApplyState).
Context (h : HardState) (ready : Ready).
Context (Hinv : storage_inv e s L ap h) (Hok : ready_ok s L ap ready).

Lemma storage_applied_le : as_applied_index ap ≤ Z.max (commit_index s) (as_commit_index ap).
Proof.
  pose proof (ao_applied _ _ _ _ (si_apply _ _ _ _ _ Hinv)).
  pose proof (si_commit _ _ _ _ _ Hinv). lia.
Qed.

Lemma storage_last_ge :
  RAFT_INIT_LOG_INDEX ≤ ts_index (trunc s) ∧
  ts_index (trunc s) ≤ ts_index (get_truncated_state ap) ∧
  ts_index (get_truncated_state ap) ≤ as_applied_index ap ∧
  as_applied_index ap ≤ storage_last_index s.
Proof.
  pose proof storage_applied_le. pose proof (si_commit _ _ _ _ _ Hinv).
  pose proof (si_init _ _ _ _ _ Hinv). pose proof (si_behind _ _ _ _ _ Hinv) as [? _].
  pose proof (si_apply _ _ _ _ _ Hinv) as [? _ ? _ Hc _]. unfold RAFT_INIT_LOG_INDEX in *.
  destruct Hc; lia.
Qed.

Lemma ready_last_ge :
  commit_index s ≤ rls_last_index (ready_state s ready) ∧
  as_commit_index ap ≤ rls_last_index (ready_state s ready) ∧
  RAFT_INIT_LOG_INDEX ≤ rls_last_index (ready_state s ready) < u64_max - 1.
Proof.
  pose proof storage_last_ge as (? & ? & ? & ?). pose proof (si_commit _ _ _ _ _ Hinv).
  pose proof (si_bound _ _ _ _ _ Hinv).
  pose proof (si_apply _ _ _ _ _ Hinv) as [_ _ _ _ Hc _].
  destruct (ro_entries _ _ _ _ Hok) as [He|(first & Hc1 & Hc2 & Hap)]; cbn.
  { rewrite He. cbn. unfold RAFT_INIT_LOG_INDEX in *. destruct Hc; lia. }
  destruct (list.last (rd_entries ready)) as [x|] eqn:Hx; cbn.
  - rewrite (last_index_contiguous _ _ _ (po_index _ _ _ _ _ _ Hap) Hx).
    pose proof (po_end _ _ _ _ _ _ Hap). pose proof (po_first _ _ _ _ _ _ Hap).
    assert (length (rd_entries ready) ≠ 0%nat) by (intros E%length_zero_iff_nil; by rewrite E in Hx).
    unfold RAFT_INIT_LOG_INDEX in *. lia.
  - unfold RAFT_INIT_LOG_INDEX in *. destruct Hc; lia.
Qed.

(** What the append leaves in the batch. *)
Lemma append_spec :
  let '(ctx, wb) := match rd_entries ready with
    | [] => (invoke_context_new s, wb_new)
    | es => let '(_, ctx, raft_wb) := append s (invoke_context_new s) es wb_new in (ctx, raft_wb)
    end in
  ctx = {| ic_region_id := get_region_id s;
           ic_raft_state := set_last_index (rls_last_index (ready_state s ready)) (ps_raft_state s);
           ic_apply_state := ps_apply_state s;
           ic_last_term := default (ps_last_term s) (entry_term <$> list.last (rd_entries ready));
           has_new_entries := bool_decide (rd_entries ready ≠ []) |} ∧
  log_stored (view (raft e) wb) (get_region_id s)
    (log_append (rd_entries ready) (storage_last_index s) L) ∧
  view (raft e) wb (raft_state_key (get_region_id s))
  = raft_disk e (raft_state_key (get_region_id s)).
Proof.
  pose proof (si_group _ _ _ _ _ Hinv) as Hg. pose proof (si_bound _ _ _ _ _ Hinv) as Hb.
  pose proof ready_last_ge as (_ & _ & Hlo & Hhi). unfold RAFT_INIT_LOG_INDEX, u64_max in *.
  destruct (rd_entries ready) as [|y es] eqn:He.
  { unfold ready_state, invoke_context_new, log_append. rewrite He. cbn [list.last].
    rewrite view_new. split_and!; [|apply log_stored_new, (si_log _ _ _ _ _ Hinv)|done].
    cbn. unfold storage_last_index, last_index. by destruct (ps_raft_state s). }
  destruct (ro_entries _ _ _ _ Hok) as [He'|(first & _ & _ & Hap)]; [congruence|].
  unfold append, ready_state, log_append in *. rewrite He in *.
  destruct (list.last (y :: es)) as [x|] eqn:Hx; [|by apply last_None in Hx].
  cbn [default from_option fmap option_fmap option_map rls_last_index id] in *.
  pose proof (li_above _ _ _ _ _ (si_inv _ _ _ _ _ Hinv)) as Habove.
  pose proof storage_last_ge as (? & ? & ? & ?). unfold RAFT_INIT_LOG_INDEX in *.
  change (rls_last_index (ic_raft_state (invoke_context_new s))) with (storage_last_index s).
  rewrite !u64_add_small by (unfold is_u64; lia). split_and!; [done|..].
  - apply log_stored_cut; [done|lia|unfold u64_max; lia|].
    apply log_stored_append; [done| |apply log_stored_new, (si_log _ _ _ _ _ Hinv)].
    apply list.Forall_forall. intros z Hz.
    apply (list_elem_of_fmap_2 entry_index) in Hz.
    rewrite (po_index _ _ _ _ _ _ Hap) in Hz. apply elem_of_seqZ in Hz.
    pose proof (po_first _ _ _ _ _ _ Hap). pose proof (po_end _ _ _ _ _ _ Hap).
    unfold is_u64, u64_max in *. lia.
  - by rewrite view_cut_logs_state, view_append_state, view_new.
Qed.

(** The state raft-rs asked for is saved unless it is the one in memory. *)
Lemma handle_raft_ready_spec :
  let '(ctx, wb) := handle_raft_ready s ready wb_new in
  ic_raft_state ctx = ready_state s ready ∧
  ic_apply_state ctx = ps_apply_state s ∧
  ic_last_term ctx = default (ps_last_term s) (entry_term <$> list.last (rd_entries ready)) ∧
  log_stored (view (raft e) wb) (get_region_id s)
    (log_append (rd_entries ready) (storage_last_index s) L) ∧
  view (raft e) wb (raft_state_key (get_region_id s))
  = Some (write_to_bytes
      (if decide (ready_state s ready = ps_raft_state s)
       then {| rls_hard_state := Some h; rls_last_index := storage_last_index s |}
       else ready_state s ready)).
Proof.
  unfold handle_raft_ready. pose proof append_spec as Happ.
  destruct (match rd_entries ready with [] => _ | _ => _ end) as [c wb].
  destruct Happ as (Hc & Hlog & Hdisk). pose proof ready_last_ge as (_ & _ & Hlo & _).
  assert ((0 <? rls_last_index (ic_raft_state c)) = true) as ->.
  { rewrite Hc. cbn. unfold RAFT_INIT_LOG_INDEX in Hlo. apply Z.ltb_lt. cbn in Hlo. lia. }
  pose proof (si_hard _ _ _ _ _ Hinv) as Hhard.
  set (ctx := match rd_hs ready with
      | Some hs => ic_set_raft_state (set_hard_state hs (ic_raft_state c)) c | None => c end).
  assert (ic_raft_state ctx = ready_state s ready ∧ ic_region_id ctx = get_region_id s ∧
    ic_apply_state ctx = ps_apply_state s ∧
    ic_last_term ctx = default (ps_last_term s) (entry_term <$> list.last (rd_entries ready)))
    as (Hst & Hctx & ? & ?).
  { unfold ctx, ready_state. rewrite Hc. destruct (rd_hs ready); cbn; [done|]. rewrite Hhard. done. }
  rewrite Hst. split_and!; [done..| |]; case_decide; try done.
  - unfold save_raft_state_to. rewrite Hctx.
    by apply log_stored_put_state; [apply (si_group _ _ _ _ _ Hinv)|].
  - rewrite Hdisk. apply (si_disk _ _ _ _ _ Hinv).
  - unfold save_raft_state_to, wb_put_raft_state, wb_put_msg. rewrite Hctx.
    by rewrite view_put_eq, Hst.
Qed.

Lemma log_inv_ready :
  log_inv (log_append (rd_entries ready) (storage_last_index s) L) (trunc s)
    (rls_last_index (ready_state s ready))
    (default (ps_last_term s) (entry_term <$> list.last (rd_entries ready)))
    (hs_term (get_hard_state (ready_state s ready))).
Proof.
  pose proof (si_inv _ _ _ _ _ Hinv) as Hli. pose proof (si_hard _ _ _ _ _ Hinv) as Hhard.
  assert (hs_term h ≤ hs_term (get_hard_state (ready_state s ready))) as Hterm.
  { unfold ready_state. cbn. destruct (rd_hs ready) as [hs|] eqn:Hhs.
    - destruct (ro_hs _ _ _ _ Hok hs Hhs) as [Hle _]. by rewrite Hhard in Hle.
    - rewrite Hhard. cbn. lia. }
  pose proof (log_inv_tmax _ _ _ _ _ _ Hli Hterm) as Hli'.
  destruct (list.last (rd_entries ready)) as [x|] eqn:Hx.
  - destruct (ro_entries _ _ _ _ Hok) as [He|(first & _ & _ & Hap)]; [by rewrite He in Hx|].
    unfold ready_state at 1. rewrite Hx. cbn [default from_option fmap option_fmap option_map id
      rls_last_index]. by eapply log_inv_append.
  - unfold ready_state at 1, log_append. by rewrite Hx.
Qed.

Lemma log_append_committed i :
  i ≤ commit_index s ∨ i ≤ as_commit_index ap →
  log_append (rd_entries ready) (storage_last_index s) L !! i = L !! i.
Proof.
  intros Hi. destruct (ro_entries _ _ _ _ Hok) as [He|(first & Hc1 & Hc2 & Hap)].
  { unfold log_append. by rewrite He. }
  destruct (decide (rd_entries ready = [])) as [He|Hne].
  { unfold log_append. by rewrite He. }
  rewrite (log_append_lookup _ L first).
  - by rewrite decide_True by lia.
  - apply Hap.
  - done.
  - apply Hap.
  - apply (si_inv _ _ _ _ _ Hinv).
Qed.

Lemma ready_cycle_inv :
  let '(e', s') := ready_cycle e s ready in
  ∃ h', storage_inv e' s' (log_append (rd_entries ready) (storage_last_index s) L) ap h'.
Proof.
  unfold ready_cycle. pose proof handle_raft_ready_spec as Hr.
  destruct (handle_raft_ready s ready wb_new) as [ctx wb].
  destruct Hr as (Hrs & Has & Hlt & Hlog & Hdisk).
  set (h' := if decide (ready_state s ready = ps_raft_state s) then h
             else get_hard_state (ready_state s ready)).
  exists h'. set (e' := if wb_is_empty wb then e else _).
  assert (∀ k, raft_disk e' k = view (raft e) wb k) as He'.
  { intros k. unfold e'. destruct (wb_is_empty wb) eqn:Hw; [by rewrite view_is_empty|done]. }
  assert (kv e' = kv e) as Hkv by (unfold e'; by destruct (wb_is_empty wb)).
  pose proof (si_hard _ _ _ _ _ Hinv) as Hhard. pose proof (si_commit _ _ _ _ _ Hinv) as Hcm.
  pose proof ready_last_ge as (Hl1 & Hl2 & Hl3). pose proof (si_apply _ _ _ _ _ Hinv) as Hao.
  assert (commit_index s ≤ hs_commit (get_hard_state (ready_state s ready))
    ≤ rls_last_index (ready_state s ready) ∧
    hs_term h ≤ hs_term (get_hard_state (ready_state s ready))) as [Hc Ht].
  { unfold ready_state in *. cbn in *. destruct (rd_hs ready) as [hs|] eqn:Hhs; cbn in *.
    - destruct (ro_hs _ _ _ _ Hok hs Hhs) as (Hle & ? & ?). rewrite Hhard in Hle. cbn in Hle. lia.
    - fold (commit_index s). rewrite Hhard. cbn. lia. }
  assert (hs_commit h ≤ hs_commit h' ≤ hs_commit (get_hard_state (ready_state s ready)) ∧
    hs_term h' = hs_term (get_hard_state (ready_state s ready)) ∧
    ready_state s ready
    = {| rls_hard_state := Some (set_commit (hs_commit (get_hard_state (ready_state s ready))) h');
         rls_last_index := rls_last_index (ready_state s ready) |}) as (Hh1 & Hh2 & Hh3).
  { unfold h'. case_decide as Heq.
    - rewrite Heq, Hhard. cbn. split_and!; [lia..|done|done].
    - split_and!; [lia..|done|]. unfold ready_state. cbn. by destruct (default (get_hard_state _) _). }
  split; unfold get_region_id, storage_last_index, commit_index, last_index in *; cbn [post_ready
    ps_region ps_raft_state ps_apply_state ps_last_term]; rewrite ?Hrs, ?Has, ?Hlt, ?Hkv, ?He'.
  - apply Hinv.
  - eapply log_stored_ext; [apply He'|done].
  - lia.
  - rewrite Hh2. apply log_inv_ready.
  - rewrite Hdisk. unfold h'. case_decide as Heq; [|done]. by rewrite Heq.
  - done.
  - lia.
  - apply Hinv.
  - destruct Hao as [? ? ? ? Hcommit ?]. split; [done..|lia| |lia].
    destruct Hcommit as [?|[? ?]]; [by left|right]. split; [lia|].
    rewrite log_append_committed; [done|]. by right.
  - apply Hinv.
  - destruct (si_behind _ _ _ _ _ Hinv) as [? Hterm]. split; [done|]. etrans; [|exact Hterm].
    unfold term_at. destruct (decide (ts_index _ = ts_index (trunc s))); [done|].
    f_equal. apply log_append_committed.
    unfold commit_index. destruct Hao. lia.
Qed.
End ready.

(** *** Restart *)

Section restart.
Context (e : Engines) (s : PeerStorage) (L : gmap Z Entry) (ap : RaftApplyState).
Context (h : HardState) (Hinv : storage_inv e s L ap h).

Abbreviation state0 := {| rls_hard_state := Some h; rls_last_index := storage_last_index s |}.
Abbreviation recovered := (Z.max (hs_commit h) (as_commit_index ap)).

Lemma storage_get_entry i en : L !! i = Some en →
  get_entry (raft e) (get_region_id s) i = Returns (Some en).
Proof.
  intros Hi. rewrite <-Hi. apply get_entry_spec; [apply (si_log _ _ _ _ _ Hinv)|].
  by apply (ls_index _ _ _ (si_log _ _ _ _ _ Hinv) _ _ Hi).
Qed.

Lemma log_inv_recovered :
  log_inv L (get_truncated_state ap) (storage_last_index s) (ps_last_term s) (hs_term h).
Proof.
  pose proof (storage_last_ge _ _ _ _ _ Hinv) as (? & ? & ? & ?).
  eapply log_inv_truncate; [apply (si_inv _ _ _ _ _ Hinv)|lia|apply (si_behind _ _ _ _ _ Hinv)].
Qed.

Lemma validate_states_spec :
  validate_states (get_region_id s) e state0 ap
  = Returns {| rls_hard_state := Some (set_commit recovered h);
               rls_last_index := storage_last_index s |}.
Proof.
  pose proof (storage_last_ge _ _ _ _ _ Hinv) as (? & ? & ? & ?).
  pose proof (si_apply _ _ _ _ _ Hinv) as [Hi _ ? ? Hc ?].
  pose proof (si_commit _ _ _ _ _ Hinv). unfold RAFT_INIT_LOG_INDEX in *.
  unfold validate_states. cbn [get_hard_state rls_hard_state get_or_default rls_last_index].
  assert ((if hs_commit h <? as_commit_index ap then
       entry ← get_entry (raft e) (get_region_id s) (as_commit_index ap);
       match entry with
       | Some entry =>
           rust_assert (entry_term entry =? as_commit_term ap) (Returns (as_commit_index ap))
       | None => Panics
       end
     else Returns (hs_commit h)) = Returns recovered) as ->.
  { destruct (Z.ltb_spec (hs_commit h) (as_commit_index ap)); [|f_equal; lia].
    destruct Hc as [?|[? (en & Hen & Hterm)%fmap_Some]]; [|].
    - exfalso. assert (as_commit_index ap = 0 ∧ hs_commit h < 0) by lia. lia.
    - rewrite (storage_get_entry _ _ Hen). cbn. rewrite Hterm, Z.eqb_refl. cbn. f_equal. lia. }
  cbn [mbind run_bind]. rewrite !(proj2 (Z.leb_le _ _)) by (cbn; destruct Hc; lia).
  cbn [rust_assert]. done.
Qed.

Lemma init_last_term_spec st :
  rls_last_index st = storage_last_index s →
  init_last_term e (ps_region s) st ap = Returns (ps_last_term s).
Proof.
  intros Hst. unfold init_last_term. rewrite Hst.
  pose proof (storage_last_ge _ _ _ _ _ Hinv) as (? & ? & ? & ?).
  pose proof (si_apply _ _ _ _ _ Hinv) as [? Hi5 _ _ _ _].
  pose proof (li_last _ _ _ _ _ log_inv_recovered) as Hl. unfold term_at in Hl.
  unfold RAFT_INIT_LOG_INDEX in *. rewrite (proj2 (Z.eqb_neq _ _)) by lia.
  destruct (Z.eqb_spec (storage_last_index s) 5) as [H5|H5].
  { rewrite decide_True in Hl by lia. injection Hl as <-. by rewrite Hi5 by lia. }
  destruct (Z.eqb_spec (storage_last_index s) (ts_index (get_truncated_state ap))) as [Ht|Ht].
  { rewrite decide_True in Hl by lia. by injection Hl as <-. }
  rewrite decide_False in Hl by lia. apply fmap_Some in Hl as (en & Hen & ->).
  rewrite (proj2 (Z.ltb_lt _ _)) by lia. cbn [rust_assert].
  fold (get_region_id s). by rewrite (storage_get_entry _ _ Hen).
Qed.

Lemma init_applied_index_term_spec :
  ∃ t, init_applied_index_term e (ps_region s) ap = Returns t ∧
    term_at L (get_truncated_state ap) (as_applied_index ap) = Some t.
Proof.
  pose proof (storage_last_ge _ _ _ _ _ Hinv) as (? & ? & ? & ?).
  pose proof (si_apply _ _ _ _ _ Hinv) as [? Hi5 _ _ _ _].
  unfold init_applied_index_term, term_at. unfold RAFT_INIT_LOG_INDEX in *.
  destruct (Z.eqb_spec (as_applied_index ap) 5) as [H5|H5].
  { rewrite decide_True by lia. rewrite Hi5 by lia. eauto. }
  destruct (Z.eqb_spec (as_applied_index ap) (ts_index (get_truncated_state ap))) as [Ht|Ht].
  { rewrite decide_True by done. eauto. }
  rewrite decide_False by done.
  destruct (li_present _ _ _ _ _ log_inv_recovered (as_applied_index ap)) as [en Hen]; [lia|].
  fold (get_region_id s). rewrite (storage_get_entry _ _ Hen), Hen. cbn. eauto.
Qed.

(** A restart recovers the log, the term, the vote and the apply state; the commit
    index is the larger of the two recorded. *)
Lemma peer_storage_new_spec peer_id :
  ∃ t, term_at L (get_truncated_state ap) (as_applied_index ap) = Some t ∧
  let s' := {| ps_peer_id := peer_id; ps_region := ps_region s;
               ps_raft_state := {| rls_hard_state := Some (set_commit recovered h);
                                   rls_last_index := storage_last_index s |};
               ps_apply_state := ap; ps_applied_index_term := t;
               ps_last_term := ps_last_term s |} in
  peer_storage_new e (ps_region s) peer_id = Returns s' ∧ storage_inv e s' L ap h.
Proof.
  destruct init_applied_index_term_spec as (t & Ht & Hta). exists t. split; [done|].
  pose proof (storage_last_ge _ _ _ _ _ Hinv) as (? & ? & ? & ?).
  split.
  - unfold peer_storage_new, init_raft_state, init_apply_state, get_raft_state, get_msg, get_msg_cf,
      get_value_cf, get_value. fold (get_region_id s).
    rewrite (si_disk _ _ _ _ _ Hinv), (si_kv _ _ _ _ _ Hinv). cbn [mbind run_bind option_map].
    rewrite !parse_write. cbn [mbind run_bind unwrap unwrap_ok].
    rewrite validate_states_spec. cbn [mbind run_bind].
    rewrite init_last_term_spec by done. cbn [mbind run_bind]. by rewrite Ht.
  - pose proof (si_apply _ _ _ _ _ Hinv) as [Hi _ ? ? Hc ?].
    pose proof (si_commit _ _ _ _ _ Hinv).
    pose proof log_inv_recovered. unfold RAFT_INIT_LOG_INDEX in *.
    split; unfold get_region_id, storage_last_index, commit_index, last_index in *; cbn;
      try apply Hinv; try done.
    + destruct Hc; lia.
    + split; [lia|]. unfold term_at. by rewrite decide_True.
Qed.
End restart.

(** *** Every step of the peer *)

(** What the apply worker persists once it has applied the committed entries up
    to [as_commit_index ap'], some of which may have compacted the log. *)
Record apply_progress (L : gmap Z Entry) (last : Z) (ap ap' : RaftApplyState) : Prop := {
  ag_index : as_applied_index ap < as_applied_index ap' ≤ last;
  ag_commit : as_commit_index ap' = as_applied_index ap';
  ag_term : entry_term <$> L !! as_commit_index ap' = Some (as_commit_term ap');
  ag_truncated : get_truncated_state ap' = get_truncated_state ap ∨
    ts_index (get_truncated_state ap) < ts_index (get_truncated_state ap')
      < as_applied_index ap' ∧
    entry_term <$> L !! ts_index (get_truncated_state ap')
    = Some (ts_term (get_truncated_state ap')) }.

(** The engines and the storage of a peer, with the log and the apply state that
    the engines stand for. *)
Record PeerState := {
  pt_engines : Engines; pt_storage : PeerStorage;
  pt_log : gmap Z Entry; pt_apply : RaftApplyState }.

(** The peer learns of an apply state [ap0] that the apply worker has persisted; it
    may have persisted a later one since. *)
Definition notify_ok (s : PeerStorage) (L : gmap Z Entry) (ap ap0 : RaftApplyState) : Prop :=
  ts_index (trunc s) ≤ ts_index (get_truncated_state ap0)
    ≤ ts_index (get_truncated_state ap) ∧
  term_at L (trunc s) (ts_index (get_truncated_state ap0))
  = Some (ts_term (get_truncated_state ap0)).

(** The entries are collected only below the truncated index that the peer knows
    of: [post_apply] and the scheduling of the collection are one step of the
    peer. *)
Inductive storage_step : PeerState → PeerState → Prop :=
| step_ready e s L ap ready :
    ready_ok s L ap ready →
    storage_step {| pt_engines := e; pt_storage := s; pt_log := L; pt_apply := ap |}
      {| pt_engines := (ready_cycle e s ready).1; pt_storage := (ready_cycle e s ready).2;
         pt_log := log_append (rd_entries ready) (storage_last_index s) L; pt_apply := ap |}
| step_commit e s L ap commit s' :
    set_commit_index commit s = Returns s' → commit ≤ storage_last_index s →
    storage_step {| pt_engines := e; pt_storage := s; pt_log := L; pt_apply := ap |}
      {| pt_engines := e; pt_storage := s'; pt_log := L; pt_apply := ap |}
| step_apply e s L ap ap' kv' :
    apply_progress L (storage_last_index s) ap ap' →
    db_get kv' CF_RAFT (apply_state_key (get_region_id s)) = Some (write_to_bytes ap') →
    storage_step {| pt_engines := e; pt_storage := s; pt_log := L; pt_apply := ap |}
      {| pt_engines := {| kv := kv'; raft := raft e |}; pt_storage := s; pt_log := L;
         pt_apply := ap' |}
| step_notify e s L ap ap0 term :
    notify_ok s L ap ap0 →
    storage_step {| pt_engines := e; pt_storage := s; pt_log := L; pt_apply := ap |}
      {| pt_engines := e; pt_storage := set_applied_term term (set_applied_state ap0 s);
         pt_log := L; pt_apply := ap |}
| step_gc e s L ap from to raft' n :
    raft_gc (raft e) (get_region_id s) from to = Returns (raft', n) → 0 ≤ from →
    to ≤ truncated_index s + 1 →
    storage_step {| pt_engines := e; pt_storage := s; pt_log := L; pt_apply := ap |}
      {| pt_engines := {| kv := kv e; raft := raft' |}; pt_storage := s;
         pt_log := log_cut from to L; pt_apply := ap |}
| step_restart e s L ap peer_id s' :
    peer_storage_new e (ps_region s) peer_id = Returns s' →
    storage_step {| pt_engines := e; pt_storage := s; pt_log := L; pt_apply := ap |}
      {| pt_engines := e; pt_storage := s'; pt_log := L; pt_apply := ap |}.

Definition peer_inv (p : PeerState) : Prop :=
  ∃ h, storage_inv (pt_engines p) (pt_storage p) (pt_log p) (pt_apply p) h.

Lemma apply_progress_ok L last h ap ap' t lt :
  apply_ok L last h ap → apply_progress L last ap ap' → log_inv L t last lt (hs_term h) →
  ts_index t ≤ ts_index (get_truncated_state ap) → apply_ok L last h ap'.
Proof.
  intros [Hi H5 Ht Ha _ _] [Hx Hc Hterm Htr] Hli Hle. split; unfold RAFT_INIT_LOG_INDEX in *.
  - destruct Htr as [->|[? _]]; lia.
  - destruct Htr as [->|[? _]]; [done|lia].
  - destruct Htr as [->|[? _]]; lia.
  - lia.
  - right. split; [|done]. destruct Htr as [->|[? _]]; lia.
  - apply (li_terms _ _ _ _ _ Hli (as_commit_index ap')); [lia|].
    unfold term_at. rewrite decide_False; [done|]. lia.
Qed.

Lemma storage_inv_apply e s L ap ap' kv' h :
  storage_inv e s L ap h → apply_progress L (storage_last_index s) ap ap' →
  db_get kv' CF_RAFT (apply_state_key (get_region_id s)) = Some (write_to_bytes ap') →
  storage_inv {| kv := kv'; raft := raft e |} s L ap' h.
Proof.
  intros Hinv Hp Hkv. pose proof (si_behind _ _ _ _ _ Hinv) as [Hle Hterm].
  split; cbn [kv raft]; try apply Hinv; [done|..].
  - eapply apply_progress_ok; [apply (si_apply _ _ _ _ _ Hinv)|done|apply (si_inv _ _ _ _ _ Hinv)|done].
  - destruct (ag_truncated _ _ _ _ Hp) as [->|[? Ht']]; [done|]. split; [lia|].
    unfold term_at. by rewrite decide_False by lia.
Qed.

Lemma storage_inv_notify e s L ap ap0 h term :
  storage_inv e s L ap h → notify_ok s L ap ap0 →
  storage_inv e (set_applied_term term (set_applied_state ap0 s)) L ap h.
Proof.
  intros Hinv [Hle Ht0]. pose proof (storage_last_ge _ _ _ _ _ Hinv) as (? & ? & ? & ?).
  assert (log_inv L (get_truncated_state ap0) (storage_last_index s) (ps_last_term s) (hs_term h))
    as Hli by (eapply log_inv_truncate; [apply (si_inv _ _ _ _ _ Hinv)|lia|done]).
  split; unfold get_region_id, storage_last_index, commit_index, last_index in *; cbn;
    try apply Hinv; try done; try lia.
  split; [lia|]. destruct (si_behind _ _ _ _ _ Hinv) as [_ Hb]. unfold term_at in *.
  destruct (decide (ts_index (get_truncated_state ap) = ts_index (get_truncated_state ap0)))
    as [Heq|Hne]; [rewrite Heq in Hb; congruence|]. by rewrite decide_False in Hb by lia.
Qed.

Lemma storage_inv_gc e s L ap h from to raft' n :
  storage_inv e s L ap h → raft_gc (raft e) (get_region_id s) from to = Returns (raft', n) →
  0 ≤ from → to ≤ truncated_index s + 1 →
  storage_inv {| kv := kv e; raft := raft' |} s (log_cut from to L) ap h.
Proof.
  intros Hinv Hgc Hf Ht. pose proof (storage_last_ge _ _ _ _ _ Hinv) as (? & ? & ? & ?).
  pose proof (si_bound _ _ _ _ _ Hinv) as Hb. unfold u64_max, truncated_index in *.
  assert (log_stored (db_get raft' CF_DEFAULT) (get_region_id s) (log_cut from to L) ∧
    db_get raft' CF_DEFAULT (raft_state_key (get_region_id s))
    = db_get (raft e) CF_DEFAULT (raft_state_key (get_region_id s))) as [Hlog Hst].
  { destruct (Z.leb_spec to from) as [Hle|Hlt].
    - unfold raft_gc in Hgc. rewrite (proj2 (Z.leb_le _ _)) in Hgc by lia. injection Hgc as <- _.
      split; [|done]. replace (log_cut from to L) with L; [apply Hinv|].
      apply map_eq. intros i. by rewrite log_cut_lookup, decide_False by lia.
    - destruct (raft_gc_spec (raft e) (get_region_id s) L from to) as (d' & n' & Hg' & ? & ? & _);
        [apply (si_log _ _ _ _ _ Hinv)|apply (si_group _ _ _ _ _ Hinv)|lia|unfold u64_max; lia|].
      rewrite Hg' in Hgc. injection Hgc as <- _. auto. }
  assert (∀ i, ts_index (trunc s) < i → log_cut from to L !! i = L !! i) as Hcut.
  { intros i Hi. rewrite log_cut_lookup. by rewrite decide_False by lia. }
  split; cbn [kv raft]; try apply Hinv; [done|..].
  - apply log_inv_cut; [apply (si_inv _ _ _ _ _ Hinv)|lia|lia].
  - rewrite Hst. apply Hinv.
  - destruct (si_apply _ _ _ _ _ Hinv) as [? ? ? ? Hc ?]. split; try done.
    destruct Hc as [?|[? ?]]; [by left|right]. by rewrite Hcut by lia.
  - destruct (si_behind _ _ _ _ _ Hinv) as [? Hterm]. split; [done|]. rewrite <-Hterm.
    unfold term_at. case_decide; [done|]. by rewrite Hcut by lia.
Qed.

Lemma storage_step_inv p p' : peer_inv p → storage_step p p' → peer_inv p'.
Proof.
  intros [h Hinv] Hstep. inversion Hstep as [e s L ap ready Hok|e s L ap commit s' Hs Hc
    |e s L ap ap' kv' Hp Hkv|e s L ap ap0 term Hn|e s L ap from to raft' n Hgc Hf Ht
    |e s L ap peer_id s' Hs]; subst; cbn in Hinv; unfold peer_inv; cbn.
  - pose proof (ready_cycle_inv e s L ap h ready Hinv Hok) as Hr.
    by destruct (ready_cycle e s ready).
  - exists h. unfold set_commit_index in Hs.
    destruct (Z.leb_spec (commit_index s) commit); [|done]. injection Hs as <-.
    pose proof (si_hard _ _ _ _ _ Hinv) as Hhard. pose proof (si_commit _ _ _ _ _ Hinv).
    split; unfold get_region_id, storage_last_index, commit_index, last_index in *; cbn;
      try apply Hinv; [|lia].
    rewrite Hhard. done.
  - exists h. by apply storage_inv_apply with ap.
  - exists h. by apply storage_inv_notify.
  - exists h. by apply storage_inv_gc with n.
  - exists h. destruct (peer_storage_new_spec _ _ _ _ _ Hinv peer_id) as (t & _ & Hn & Hi).
    rewrite Hs in Hn. injection Hn as ->. done.
Qed.

Lemma storage_steps_inv p p' : peer_inv p → rtc storage_step p p' → peer_inv p'.
Proof. intros Hinv Hsteps. induction Hsteps; eauto using storage_step_inv. Qed.

(** *** Bootstrap *)

(** A peer that has just been created in an empty raft engine. *)
Inductive bootstrapped : PeerState → Prop :=
| bootstrapped_intro e region peer_id s :
    is_u64 (region_id region) → (∀ k, raft_disk e k = None) →
    peer_storage_new (prepare_bootstrap_cluster e region) region peer_id = Returns s →
    bootstrapped {| pt_engines := prepare_bootstrap_cluster e region; pt_storage := s;
                    pt_log := ∅; pt_apply := initial_apply_state |}.

Definition reachable_peer (p : PeerState) : Prop :=
  ∃ p0, bootstrapped p0 ∧ rtc storage_step p0 p.

Lemma bootstrap_storage e region peer_id :
  is_u64 (region_id region) → (∀ k, raft_disk e k = None) →
  storage_inv (prepare_bootstrap_cluster e region)
    {| ps_peer_id := peer_id; ps_region := region;
       ps_raft_state := {| rls_hard_state := Some {| hs_term := RAFT_INIT_LOG_TERM; hs_vote := 0;
                                                     hs_commit := RAFT_INIT_LOG_INDEX |};
                           rls_last_index := RAFT_INIT_LOG_INDEX |};
       ps_apply_state := initial_apply_state; ps_applied_index_term := RAFT_INIT_LOG_TERM;
       ps_last_term := RAFT_INIT_LOG_TERM |}
    ∅ initial_apply_state
    {| hs_term := RAFT_INIT_LOG_TERM; hs_vote := 0; hs_commit := RAFT_INIT_LOG_INDEX |}.
Proof.
  intros Hg Hempty. assert (log_stored (raft_disk e) (region_id region) ∅) as Hlog.
  { split; intros *; rewrite ?Hempty; done. }
  assert (∀ i, term_at ∅ (get_truncated_state initial_apply_state) i
    = if decide (i = 5) then Some 5 else None) as Hta.
  { intros i. unfold term_at. cbn. unfold RAFT_INIT_LOG_INDEX. case_decide; [done|].
    by rewrite lookup_empty. }
  split; unfold get_region_id, storage_last_index, last_index, prepare_bootstrap_cluster;
    cbn [ps_region kv raft ps_raft_state rls_last_index ps_apply_state ps_last_term consume fst snd
         hs_term].
  - done.
  - by apply log_stored_put_state, log_stored_new.
  - done.
  - split.
    + intros i. cbn. unfold RAFT_INIT_LOG_INDEX. lia.
    + done.
    + by rewrite Hta.
    + intros i j ti tj _. rewrite !Hta. repeat case_decide; naive_solver.
    + intros i ti _. rewrite Hta. unfold RAFT_INIT_LOG_TERM. case_decide; naive_solver.
  - apply view_put_eq.
  - done.
  - done.
  - unfold write_opt. rewrite db_get_write. unfold write_initial_apply_state, wb_put_msg_cf, wb_put_cf.
    cbn [wb_record wb_ops]. rewrite ops_get_app. cbn [ops_get foldl op_key op_value].
    by rewrite decide_True.
  - split; try done; [by cbn..|]. by left.
  - done.
  - split; [done|]. by rewrite Hta.
Qed.

Lemma reachable_peer_inv p : reachable_peer p → peer_inv p.
Proof.
  intros (p0 & Hp0 & Hsteps). eapply storage_steps_inv; [|done].
  destruct Hp0 as [e region peer_id s Hg He Hs].
  pose proof (bootstrap_storage e region peer_id Hg He) as Hinv.
  destruct (peer_storage_new_spec _ _ _ _ _ Hinv peer_id) as (t & _ & Hn & Hi).
  cbn [ps_region] in Hn. rewrite Hs in Hn. injection Hn as ->. by eexists.
Qed.

(** C9. Whatever sequence of readies, commits, applies, notifications, collections
    and restarts led to it, a bootstrapped peer reads the raft log it was given:
    [term] and [entries] return, and return what the log holds, from the truncated
    index to the last one; a range outside it panics. *)
Theorem storage_refines_log p :
  reachable_peer p →
  let s := pt_storage p in let e := pt_engines p in
  (∀ i, truncated_index s ≤ i ≤ storage_last_index s →
     ∃ t, term_at (pt_log p) (trunc s) i = Some t ∧ term s e i = Returns t) ∧
  (∀ low high max, truncated_index s < low ≤ high → high ≤ storage_last_index s + 1 →
     ∃ es, log_range (pt_log p) low high = Some es ∧
       entries s e low high max = Returns (limit_size max 0 es)) ∧
  (∀ low high max, low ≤ truncated_index s ∨ high < low ∨ storage_last_index s + 1 < high →
     entries s e low high max = Panics).
Proof.
  intros [h Hinv]%reachable_peer_inv s e. subst s e. split_and!.
  - intros i. by apply storage_term with (pt_apply p) h.
  - intros low high max ? ?. by apply storage_entries with (pt_apply p) h.
  - intros low high max Hout. pose proof (storage_last_ge _ _ _ _ _ Hinv) as (? & ? & ? & ?).
    pose proof (si_bound _ _ _ _ _ Hinv) as Hb. unfold u64_max, RAFT_INIT_LOG_INDEX in *.
    unfold entries, check_range. rewrite u64_add_small by (unfold is_u64; lia).
    destruct (Z.ltb_spec high low), (Z.leb_spec low (truncated_index (pt_storage p))),
      (Z.ltb_spec (storage_last_index (pt_storage p) + 1) high); try done; lia.
Qed.

(** C10. A restart never trips an assertion of the recovery, and loses nothing that
    was promised: the last entry, the term, the vote and the persisted apply state
    are recovered, and everything applied is committed in the recovered state. *)
Theorem storage_restart p peer_id :
  reachable_peer p →
  let s := pt_storage p in
  ∃ s', peer_storage_new (pt_engines p) (ps_region s) peer_id = Returns s' ∧
    storage_last_index s' = storage_last_index s ∧ ps_last_term s' = ps_last_term s ∧
    hs_term (get_hard_state (ps_raft_state s')) = hs_term (get_hard_state (ps_raft_state s)) ∧
    hs_vote (get_hard_state (ps_raft_state s')) = hs_vote (get_hard_state (ps_raft_state s)) ∧
    ps_apply_state s' = pt_apply p ∧
    as_applied_index (pt_apply p) ≤ commit_index s' ≤ storage_last_index s' ∧
    term_at (pt_log p) (trunc s') (as_applied_index (pt_apply p))
    = Some (ps_applied_index_term s').
Proof.
  intros [h Hinv]%reachable_peer_inv s.
  destruct (peer_storage_new_spec _ _ _ _ _ Hinv peer_id) as (t & Ht & Hn & Hi).
  eexists. split; [exact Hn|]. pose proof (si_hard _ _ _ _ _ Hinv) as Hhard.
  pose proof (si_commit _ _ _ _ _ Hi) as Hc. pose proof (ao_applied _ _ _ _ (si_apply _ _ _ _ _ Hi)).
  fold s in Hhard. rewrite Hhard. unfold storage_last_index, commit_index, last_index in *.
  cbn in *. split_and!; try done; lia.
Qed.
End storage_spec.

(** ** A concrete peer *)

Module demo.
Definition region : Region := initial_region 1 [(1, 1)].
Definition en (index term : Z) : Entry :=
  {| entry_type := EntryNormal; entry_term := term; entry_index := index; entry_data := [];
     entry_context := []; entry_sync_log := false |}.
Definition empty : Engines (R:=RefRocks) := {| kv := ref_empty; raft := ref_empty |}.
Definition e0 : Engines := prepare_bootstrap_cluster empty region.
Definition s0 : PeerStorage :=
  {| ps_peer_id := 1; ps_region := region;
     ps_raft_state := {| rls_hard_state := Some {| hs_term := 5; hs_vote := 0; hs_commit := 5 |};
                         rls_last_index := 5 |};
     ps_apply_state := initial_apply_state; ps_applied_index_term := 5; ps_last_term := 5 |}.
Definition ready : Ready :=
  {| rd_hs := Some {| hs_term := 6; hs_vote := 1; hs_commit := 5 |};
     rd_entries := [en 6 6; en 7 6] |}.
Definition e1 : Engines := (ready_cycle e0 s0 ready).1.
Definition s1 : PeerStorage := (ready_cycle e0 s0 ready).2.
Definition log1 : gmap Z Entry := log_append (rd_entries ready) 5 ∅.
Definition ap : RaftApplyState :=
  {| as_applied_index := 7; as_last_commit_index := 0; as_commit_index := 7; as_commit_term := 6;
     as_truncated_state := Some {| ts_index := 6; ts_term := 6 |} |}.
Definition kv2 : DB :=
  write_opt (kv e1) (wb_put_msg_cf CF_RAFT (apply_state_key 1) ap wb_new).
Definition peer : PeerState :=
  {| pt_engines := {| kv := kv2; raft := raft e1 |};
     pt_storage := set_applied_term 6 (set_applied_state ap s1); pt_log := log1; pt_apply := ap |}.

Lemma ready_allowed : ready_ok s0 ∅ initial_apply_state ready.
Proof.
  split.
  - intros hs [= <-]. cbn. unfold commit_index. cbn. lia.
  - right. exists 6. split_and!; [done..|]. split.
    + done.
    + done.
    + done.
    + intros i j x y _ Hx Hy. apply list_elem_of_lookup_2 in Hx, Hy. 
      apply elem_of_cons in Hx as [->|E%list_elem_of_singleton],
        Hy as [->|F%list_elem_of_singleton]; subst; done.
    + intros x p Hx Hp. vm_compute in Hp. injection Hp as <-.
      apply elem_of_cons in Hx as [->|E%list_elem_of_singleton]; subst; done.
    + intros x [->|E%list_elem_of_singleton]%elem_of_cons; subst; done.
Qed.

Lemma reachable : reachable_peer peer.
Proof.
  exists {| pt_engines := e0; pt_storage := s0; pt_log := ∅; pt_apply := initial_apply_state |}.
  split.
  { apply (bootstrapped_intro empty region 1); [done|done|].
    reflexivity. }
  eapply rtc_l; [apply step_ready, ready_allowed|].
  eapply rtc_l; [apply (step_apply _ _ _ _ ap kv2)|].
  { split; [done|done|reflexivity|]. right. split; [done|reflexivity]. }
  { reflexivity. }
  eapply rtc_l; [apply (step_notify _ _ _ _ ap 6)|apply rtc_refl].
  split; [done|reflexivity].
Qed.
End demo.

Lemma storage_refines_log_witness :
  reachable_peer demo.peer ∧
  entries (pt_storage demo.peer) (pt_engines demo.peer) 7 8 u64_max = Returns [demo.en 7 6] ∧
  ∃ t, term_at (pt_log demo.peer) (get_truncated_state demo.ap) 7 = Some t ∧
    term (pt_storage demo.peer) (pt_engines demo.peer) 7 = Returns t.
Proof.
  split; [exact demo.reachable|].
  destruct (storage_refines_log demo.peer demo.reachable) as (Hterm & Hent & _). split.
  - destruct (Hent 7 8 u64_max) as (es & Hes & ->); [done..|].
    vm_compute in Hes. injection Hes as <-. reflexivity.
  - by apply (Hterm 7).
Defined.

Lemma storage_restart_witness :
  ∃ s', peer_storage_new (pt_engines demo.peer) demo.region 1 = Returns s' ∧
    storage_last_index s' = 7 ∧ ps_apply_state s' = demo.ap.
Proof.
  destruct (storage_restart demo.peer 1 demo.reachable) as (s' & Hs & Hl & _ & _ & _ & Ha & _).
  exists s'. split; [exact Hs|]. split; [exact Hl|exact Ha].
Defined.
