(* ===== verification/RaftCmd.v ===== *)
(** * Commands, responses and callbacks of the raft store

    errors.rs, cmd_resp.rs, the checks of util.rs and the callbacks of msg.rs.  A
    callback is a closure over channels; it is modelled by its data, and invoking it
    yields the responses sent, in order. *)

From stdpp Require Import pretty.
From S2P Require Import Prelude Bytes Keys Proto Raftpb Errors.
Local Open Scope Z_scope.

(** ** errors.rs *)

(** The errors of other libraries are kept as their messages. *)
Inductive Error :=
| Error_Other (e : string)
| Error_Io (e : string)
| Error_Protobuf (e : string)
| Error_Grpc (e : string)
| Error_AddrParse (e : string)
| Error_Sink
| Error_RecvError
| Error_SendError
| Error_TrySendError
| Error_RaftEntryTooLarge (region_id entry_size : Z)
| Error_StoreNotMatch (to_store_id my_store_id : Z)
| Error_RegionNotFound (region_id : Z)
| Error_RegionNotInitialized (region_id : Z)
| Error_NotLeader (region_id : Z) (leader : option metapb_Peer)
| Error_Raft (e : string)
| Error_Timeout (e : string)
| Error_StaleCommand
| Error_RequestFailed (e : errorpb_Error)
| Error_Engine (e : string).

(** A protobuf error with a message and no detail. *)
Definition message_errorpb (message : string) : errorpb_Error :=
  {| err_message := message; err_not_leader := None; err_region_not_found := None;
     err_server_is_busy := None; err_stale_command := None; err_store_not_match := None;
     err_raft_entry_too_large := None; err_region_not_initialized := None |}.

(** [impl From<Error> for errorpb::Error]. *)
Definition errorpb_from `{!DebugFmt Error} (err : Error) : errorpb_Error :=
  let message := debug_fmt err in
  {| err_message := message;
     err_not_leader :=
       match err with
       | Error_NotLeader region_id leader =>
           Some {| nl_region_id := region_id; nl_leader := leader |}
       | _ => None
       end;
     err_region_not_found :=
       match err with
       | Error_RegionNotFound region_id => Some {| rnf_region_id := region_id |}
       | _ => None
       end;
     err_server_is_busy := None;
     err_stale_command :=
       match err with Error_StaleCommand => Some StaleCommandPb | _ => None end;
     err_store_not_match :=
       match err with
       | Error_StoreNotMatch to_store_id my_store_id =>
           Some {| request_store_id := to_store_id; actual_store_id := my_store_id |}
       | _ => None
       end;
     err_raft_entry_too_large :=
       match err with
       | Error_RaftEntryTooLarge region_id entry_size =>
           Some {| too_large_region_id := region_id; too_large_entry_size := entry_size |}
       | _ => None
       end;
     err_region_not_initialized :=
       match err with
       | Error_RegionNotInitialized region_id => Some {| rni_region_id := region_id |}
       | _ => None
       end |}.

(** ** cmd_resp.rs *)

Definition resp_header (resp : RaftCmdResponse) : RaftResponseHeader :=
  get_or_default (rr_header resp).
Definition mut_header (f : RaftResponseHeader → RaftResponseHeader) (resp : RaftCmdResponse) :
    RaftCmdResponse :=
  {| rr_header := Some (f (resp_header resp)); rr_responses := rr_responses resp;
     rr_admin_response := rr_admin_response resp; rr_status_response := rr_status_response resp |}.
Definition set_current_term (term : Z) (h : RaftResponseHeader) : RaftResponseHeader :=
  {| rsp_error := rsp_error h; rsp_uuid := rsp_uuid h; rsp_current_term := term |}.
Definition set_error (e : errorpb_Error) (h : RaftResponseHeader) : RaftResponseHeader :=
  {| rsp_error := Some e; rsp_uuid := rsp_uuid h; rsp_current_term := rsp_current_term h |}.
Definition set_uuid (uuid : bytes) (h : RaftResponseHeader) : RaftResponseHeader :=
  {| rsp_error := rsp_error h; rsp_uuid := uuid; rsp_current_term := rsp_current_term h |}.
Definition has_error (resp : RaftCmdResponse) : bool :=
  bool_decide (is_Some (rsp_error (resp_header resp))).

Definition bind_term (resp : RaftCmdResponse) (term : Z) : RaftCmdResponse :=
  if term =? 0 then resp else mut_header (set_current_term term) resp.
Definition bind_error `{!DebugFmt Error} (resp : RaftCmdResponse) (err : Error) :
    RaftCmdResponse :=
  mut_header (set_error (errorpb_from err)) resp.
Definition new_error `{!DebugFmt Error} (err : Error) : RaftCmdResponse :=
  bind_error default_instance err.
Definition err_resp `{!DebugFmt Error} (e : Error) (term : Z) : RaftCmdResponse :=
  bind_term (new_error e) term.

(** ** The checks of util.rs *)

Definition req_header (req : RaftCmdRequest) : RaftRequestHeader :=
  get_or_default (rc_header req).
Definition header_peer (req : RaftCmdRequest) : metapb_Peer :=
  get_or_default (rh_peer (req_header req)).

Definition find_peer (region : Region) (store_id : Z) : option metapb_Peer :=
  snd <$> list_find (λ p, peer_store_id p = store_id) (region_peers region).
Definition is_region_initialized (r : Region) : bool :=
  bool_decide (region_peers r ≠ []).
Definition check_store_id (req : RaftCmdRequest) (store_id : Z) : result Error unit :=
  if peer_store_id (header_peer req) =? store_id then Ok tt
  else Err (Error_StoreNotMatch (peer_store_id (header_peer req)) store_id).
Definition check_term (req : RaftCmdRequest) (term : Z) : result Error unit :=
  let header := req_header req in
  if (rh_term header =? 0) || (term <=? rh_term header +u 1) then Ok tt
  else Err Error_StaleCommand.
Definition check_peer_id (req : RaftCmdRequest) (peer_id : Z) : result Error unit :=
  let id := Raftpb.peer_id (header_peer req) in
  if id =? peer_id then Ok tt
  else Err (Error_Other ("mismatch peer id " +:+ pretty id +:+ " != " +:+ pretty peer_id)).
Definition parse_data_at {M} `{!ProtoMessage M} (data : bytes) : run M :=
  unwrap (parse_from_bytes data).

(** ** The callbacks of msg.rs *)

(** An [ExtCallback] notifies the channels of a list, a [WriteCallback] answers on
    one channel, or it is the closure made for a batch of commands: each callback
    of the batch with the number of its requests. *)
Abbreviation ExtCallback := (list Z).
Inductive Callback :=
| Callback_None
| Callback_Read (read : Z)
| Callback_Write (cb : WriteCallback) (proposed_cb committed_cb : option ExtCallback)
with WriteCallback :=
| Channel (channel : Z)
| Batched (cbs : list (Callback * nat)).

(** What a thread sends: a response, or the notification of an [ExtCallback]. *)
Inductive Sent := SentResponse (channel : Z) (resp : RaftCmdResponse) | SentNotice (channel : Z).

Definition write (cb : WriteCallback) : Callback := Callback_Write cb None None.

(** The slice [responses[last..next]] panics when it is out of range. *)
Definition slice {A} (l : list A) (last next : nat) : run (list A) :=
  rust_assert (bool_decide (last ≤ next ≤ length l)%nat) (Returns (take (next - last) (drop last l))).

(** The response of one callback of a batch. *)
Definition split_response (resp : RaftCmdResponse) (last next : nat) : run RaftCmdResponse :=
  responses ← (if has_error resp then Returns [] else slice (rr_responses resp) last next);
  Returns {| rr_header := Some (resp_header resp); rr_responses := responses;
             rr_admin_response := None; rr_status_response := None |}.

Fixpoint invoke_with_response (cb : Callback) (resp : RaftCmdResponse) {struct cb} :
    run (list Sent) :=
  match cb with
  | Callback_None => Returns []
  | Callback_Read read => Returns [SentResponse read resp]
  | Callback_Write cb _ _ => invoke_write cb resp
  end
with invoke_write (cb : WriteCallback) (resp : RaftCmdResponse) {struct cb} : run (list Sent) :=
  match cb with
  | Channel channel => Returns [SentResponse channel resp]
  | Batched cbs =>
      (fix invoke_all (cbs : list (Callback * nat)) (last_index : nat) : run (list Sent) :=
         match cbs with
         | [] => Returns []
         | (cb, req_num) :: cbs =>
             let next_index := (last_index + req_num)%nat in
             cmd_resp ← split_response resp last_index next_index;
             sent ← invoke_with_response cb cmd_resp;
             rest ← invoke_all cbs next_index;
             Returns (sent ++ rest)
         end) cbs 0%nat
  end.

Definition notices (cb : option ExtCallback) : list Sent := SentNotice <$> default [] cb.
Definition invoke_proposed (cb : Callback) : Callback * list Sent :=
  match cb with
  | Callback_Write cb proposed_cb committed_cb =>
      (Callback_Write cb None committed_cb, notices proposed_cb)
  | _ => (cb, [])
  end.
Definition invoke_committed (cb : Callback) : Callback * list Sent :=
  match cb with
  | Callback_Write cb proposed_cb committed_cb =>
      (Callback_Write cb proposed_cb None, notices committed_cb)
  | _ => (cb, [])
  end.
Definition is_none (cb : Callback) : bool :=
  match cb with Callback_None => true | _ => false end.

Record RaftCommand := { cmd_request : RaftCmdRequest; cmd_callback : Callback }.
