(* ===== verification/Batch.v ===== *)
(** * Batching of commands

    [BatchRaftCmdRequestBuilder] of peer.rs: commands with equal headers are merged
    into one raft command, whose callback splits the responses again. *)

From Stdlib Require Import SpecFloat.
From S2P Require Import Prelude Bytes Keys Proto Raftpb Errors RaftCmd.
Local Open Scope Z_scope.

(** ** The floating-point thresholds *)

(** An [f64] and its product, rounded to nearest; [f64::from] of a [u32] is
    exact, so the comparison is that of the exact values. *)
Abbreviation f64 := spec_float.
Definition f64_mul : f64 → f64 → f64 := SFmul 53 1024.
Definition f64_from (n : Z) : f64 := binary_normalize 53 1024 n 0 false.
Definition f64_0_2 : f64 := S754_finite false 7205759403792794 (-55).
Definition f64_0_4 : f64 := S754_finite false 7205759403792794 (-54).
Definition u32_gt_f64 (n : Z) (f : f64) : bool :=
  match f with
  | S754_finite false m e => if 0 <=? e then Zpos m * 2 ^ e <? n else Zpos m <? n * 2 ^ (- e)
  | S754_finite true _ _ => true
  | S754_zero _ => 0 <? n
  | S754_infinity negative => negative
  | S754_nan => false
  end.

(** ** The builder *)

Record BatchRaftCmdRequestBuilder := {
  raft_entry_max_size : f64;
  batch_req_size : Z;
  batch_request : option RaftCmdRequest;
  batch_callbacks : list (Callback * nat) }.

Definition batch_new (max_size : f64) : BatchRaftCmdRequestBuilder :=
  {| raft_entry_max_size := max_size; batch_request := None; batch_req_size := 0;
     batch_callbacks := [] |}.
(** The builder of a peer. *)
Definition RAFT_ENTRY_MAX_SIZE : Z := 8 * 1024 * 1024.
Definition peer_batch_new : BatchRaftCmdRequestBuilder := batch_new (f64_from RAFT_ENTRY_MAX_SIZE).

Definition can_batch (b : BatchRaftCmdRequestBuilder) (req : RaftCmdRequest) (req_size : Z) : bool :=
  negb (bool_decide (rc_requests req = []) ||
        u32_gt_f64 req_size (f64_mul (raft_entry_max_size b) f64_0_2)) &&
  forallb (λ r, bool_decide (req_cmd_type r = MessageQueue)) (rc_requests req) &&
  match batch_request b with
  | Some batch_req => bool_decide (req_header batch_req = req_header req)
  | None => true
  end.

Definition push_requests (requests : list Request) (req : RaftCmdRequest) : RaftCmdRequest :=
  {| rc_header := rc_header req; rc_requests := rc_requests req ++ requests;
     rc_admin_request := rc_admin_request req; rc_status_request := rc_status_request req |}.
Definition add (b : BatchRaftCmdRequestBuilder) (cmd : RaftCommand) (req_size : Z) :
    BatchRaftCmdRequestBuilder :=
  let req_num := length (rc_requests (cmd_request cmd)) in
  {| raft_entry_max_size := raft_entry_max_size b;
     batch_request :=
       match batch_request b with
       | Some batch_req => Some (push_requests (rc_requests (cmd_request cmd)) batch_req)
       | None => Some (cmd_request cmd)
       end;
     batch_callbacks := batch_callbacks b ++ [(cmd_callback cmd, req_num)];
     batch_req_size := (batch_req_size b + req_size) `mod` 2 ^ 32 |}.

Definition should_finish (b : BatchRaftCmdRequestBuilder) : bool :=
  match batch_request b with
  | Some batch_req =>
      u32_gt_f64 (batch_req_size b) (f64_mul (raft_entry_max_size b) f64_0_4) ||
      (256 <? Z.of_nat (length (rc_requests batch_req)))
  | None => false
  end.

(** The extra callbacks are taken out of the callbacks of the batch. *)
Definition take_ext (cb : Callback) : Callback :=
  match cb with Callback_Write cb _ _ => Callback_Write cb None None | _ => cb end.
Definition proposed_of (cb : Callback) : option ExtCallback :=
  match cb with Callback_Write _ proposed_cb _ => proposed_cb | _ => None end.
Definition committed_of (cb : Callback) : option ExtCallback :=
  match cb with Callback_Write _ _ committed_cb => committed_cb | _ => None end.
Definition merge_ext (cbs : list ExtCallback) : option ExtCallback :=
  match cbs with [] => None | _ => Some (concat cbs) end.

Definition build (b : BatchRaftCmdRequestBuilder) :
    option RaftCommand * BatchRaftCmdRequestBuilder :=
  match batch_request b with
  | Some req =>
      let b' := {| raft_entry_max_size := raft_entry_max_size b; batch_request := None;
                   batch_req_size := 0; batch_callbacks := [] |} in
      match batch_callbacks b with
      | [(cb, _)] => (Some {| cmd_request := req; cmd_callback := cb |}, b')
      | cbs =>
          let proposed_cb := merge_ext (omap (λ cb, proposed_of cb.1) cbs) in
          let committed_cb := merge_ext (omap (λ cb, committed_of cb.1) cbs) in
          let cbs := (λ cb, (take_ext cb.1, cb.2)) <$> cbs in
          (Some {| cmd_request := req;
                   cmd_callback := Callback_Write (Batched cbs) proposed_cb committed_cb |}, b')
      end
  | None => (None, b)
  end.

(** ** What a batch does *)

(** The responses of a batch, callback by callback. *)
Fixpoint invoke_batch (resp : RaftCmdResponse) (cbs : list (Callback * nat)) (last_index : nat) :
    run (list Sent) :=
  match cbs with
  | [] => Returns []
  | (cb, req_num) :: cbs =>
      cmd_resp ← split_response resp last_index (last_index + req_num);
      sent ← invoke_with_response cb cmd_resp;
      rest ← invoke_batch resp cbs (last_index + req_num);
      Returns (sent ++ rest)
  end.

Lemma invoke_batched resp cbs :
  invoke_write (Batched cbs) resp = invoke_batch resp cbs 0.
Proof.
  cbn [invoke_write]. generalize 0%nat. induction cbs as [|[cb n] cbs IH]; intros last; [done|].
  cbn [invoke_batch]. destruct (split_response _ _ _) as [r|]; [|done]. cbn.
  destruct (invoke_with_response cb r); [|done]. by rewrite IH.
Qed.

Lemma invoke_take_ext cb resp : invoke_with_response (take_ext cb) resp = invoke_with_response cb resp.
Proof. by destruct cb. Qed.

(** The commands of a batch, in order, and the builder they lead to. *)
Definition add_all (b : BatchRaftCmdRequestBuilder) (cmds : list (RaftCommand * Z)) :
    BatchRaftCmdRequestBuilder :=
  foldl (λ b c, add b c.1 c.2) b cmds.

Definition requests_of (cmds : list (RaftCommand * Z)) : list Request :=
  concat ((λ c, rc_requests (cmd_request c.1)) <$> cmds).

(** The answer to the [i]-th command: its own responses, with the header of the whole. *)
Definition own_response (resp : RaftCmdResponse) (before own : nat) : RaftCmdResponse :=
  {| rr_header := Some (resp_header resp);
     rr_responses := if has_error resp then [] else take own (drop before (rr_responses resp));
     rr_admin_response := None; rr_status_response := None |}.

Lemma add_all_callbacks b cmds :
  batch_callbacks (add_all b cmds)
  = batch_callbacks b ++
    ((λ c, (cmd_callback c.1, length (rc_requests (cmd_request c.1)))) <$> cmds).
Proof.
  revert b. induction cmds as [|c cmds IH]; intros b; cbn; [by rewrite app_nil_r|].
  fold (add_all (add b c.1 c.2) cmds). rewrite IH. cbn. by rewrite <-app_assoc.
Qed.

Lemma add_all_request b cmds req :
  batch_request b = Some req →
  batch_request (add_all b cmds) = Some (push_requests (requests_of cmds) req).
Proof.
  revert b req. induction cmds as [|c cmds IH]; intros b req Hb; cbn.
  - rewrite Hb. unfold push_requests, requests_of. cbn. rewrite app_nil_r. by destruct req.
  - fold (add_all (add b c.1 c.2) cmds).
    rewrite (IH _ (push_requests (rc_requests (cmd_request c.1)) req)) by (cbn; by rewrite Hb).
    unfold push_requests, requests_of. cbn. by rewrite <-app_assoc.
Qed.

Lemma add_all_max b cmds : raft_entry_max_size (add_all b cmds) = raft_entry_max_size b.
Proof. revert b. induction cmds as [|c cmds IH]; intros b; [done|]. cbn. apply (IH (add b c.1 c.2)). Qed.

(** A response to a write command: a header, and no responses with an error. *)
Record write_response (resp : RaftCmdResponse) (n : nat) : Prop := {
  wr_header : is_Some (rr_header resp);
  wr_admin : rr_admin_response resp = None;
  wr_status : rr_status_response resp = None;
  wr_responses : length (rr_responses resp) = if has_error resp then 0%nat else n }.

(** Every command answered with its own responses. *)
Fixpoint answers (resp : RaftCmdResponse) (cmds : list (RaftCommand * Z)) (before : nat) :
    run (list Sent) :=
  match cmds with
  | [] => Returns []
  | c :: cmds =>
      let own := length (rc_requests (cmd_request c.1)) in
      sent ← invoke_with_response (cmd_callback c.1) (own_response resp before own);
      rest ← answers resp cmds (before + own);
      Returns (sent ++ rest)
  end.

Lemma split_response_own resp last n :
  has_error resp = true ∨ (last + n ≤ length (rr_responses resp))%nat →
  split_response resp last (last + n) = Returns (own_response resp last n).
Proof.
  intros H. unfold split_response, own_response, slice.
  destruct (has_error resp); [done|]. destruct H as [|H]; [done|].
  rewrite bool_decide_true by lia. cbn. replace (last + n - last)%nat with n by lia. done.
Qed.

Lemma invoke_batch_answers resp cmds last :
  has_error resp = true ∨ (last + length (requests_of cmds) ≤ length (rr_responses resp))%nat →
  invoke_batch resp
    ((λ cb, (take_ext cb.1, cb.2)) <$>
     ((λ c, (cmd_callback c.1, length (rc_requests (cmd_request c.1)))) <$> cmds)) last
  = answers resp cmds last.
Proof.
  revert last. induction cmds as [|c cmds IH]; intros last H; [done|].
  unfold requests_of in H. cbn in H. rewrite length_app in H. fold (requests_of cmds) in H.
  cbn [fmap list_fmap invoke_batch answers fst snd].
  rewrite split_response_own by (destruct H; [by left|right; lia]). cbn [mbind run_bind].
  rewrite invoke_take_ext. destruct (invoke_with_response _ _); [|done]. cbn [mbind run_bind].
  rewrite IH; [done|]. destruct H; [by left|right; lia].
Qed.

Lemma own_response_all resp n : write_response resp n → own_response resp 0 n = resp.
Proof.
  intros [[h Hh] Ha Hs Hr]. unfold own_response, resp_header. rewrite Hh. cbn.
  assert ((if has_error resp then [] else take n (drop 0 (rr_responses resp)))
    = rr_responses resp) as ->.
  { destruct (has_error resp); [|rewrite drop_0, take_ge; [done|lia]].
    by apply nil_length_inv in Hr. }
  destruct resp; cbn in *; by subst.
Qed.

Definition batch_empty (b : BatchRaftCmdRequestBuilder) : Prop :=
  batch_request b = None ∧ batch_callbacks b = [].

Lemma build_add_all b c cmds :
  batch_empty b →
  let '(built, b') := build (add_all b (c :: cmds)) in
  batch_empty b' ∧ raft_entry_max_size b' = raft_entry_max_size b ∧ batch_req_size b' = 0 ∧
  ∃ cmd, built = Some cmd ∧
    cmd_request cmd = push_requests (requests_of cmds) (cmd_request c.1) ∧
    ∀ resp, write_response resp (length (requests_of (c :: cmds))) →
      invoke_with_response (cmd_callback cmd) resp = answers resp (c :: cmds) 0.
Proof.
  intros [Hr Hc]. unfold build. rewrite add_all_callbacks, add_all_max, Hc. cbn [add_all foldl app].
  fold (add_all (add b c.1 c.2) cmds).
  rewrite (add_all_request _ _ (cmd_request c.1)) by (cbn; by rewrite Hr).
  set (cbs := _ <$> c :: cmds). set (b' := Build_BatchRaftCmdRequestBuilder _ _ _ _).
  assert (batch_empty b' ∧ raft_entry_max_size b' = raft_entry_max_size b ∧ batch_req_size b' = 0)
    as Hb by (split; [split|]; done).
  destruct cmds as [|c2 cmds].
  - cbn. destruct Hb as (? & ? & ?). split_and!; [done..|]. eexists. split_and!; [done|done|].
    intros resp Hw. cbn.
    unfold requests_of in Hw. cbn in Hw. rewrite app_nil_r in Hw.
    rewrite own_response_all by done. destruct (invoke_with_response _ _); [|done].
    cbn. by rewrite app_nil_r.
  - change (cbs) with ((cmd_callback c.1, length (rc_requests (cmd_request c.1))) ::
      (cmd_callback c2.1, length (rc_requests (cmd_request c2.1))) ::
      ((λ c, (cmd_callback c.1, length (rc_requests (cmd_request c.1)))) <$> cmds)).
    destruct Hb as (? & ? & ?). split_and!; [done..|]. eexists. split_and!; [done|done|].
    intros resp Hw. cbn [cmd_callback invoke_with_response]. rewrite invoke_batched.
    apply (invoke_batch_answers resp (c :: c2 :: cmds)).
    pose proof (wr_responses _ _ Hw) as Hn. destruct (has_error resp); [by left|right; lia].
Qed.

(** ** Every command gets its own responses *)

(** The channel of the callback of a client. *)
Definition channel_of (cb : Callback) : option Z :=
  match cb with Callback_Write (Channel channel) _ _ => Some channel | _ => None end.

Lemma answers_channels resp cmds before chans :
  (λ c, channel_of (cmd_callback c.1)) <$> cmds = Some <$> chans →
  ∃ sent, answers resp cmds before = Returns sent ∧ length sent = length cmds ∧
    ∀ i c ch, cmds !! i = Some c → chans !! i = Some ch →
      sent !! i = Some (SentResponse ch
        (own_response resp (before + length (requests_of (take i cmds)))
           (length (rc_requests (cmd_request c.1))))).
Proof.
  revert before chans. induction cmds as [|c cmds IH]; intros before [|ch chans] Heq; try done.
  - by exists [].
  - cbn in Heq. injection Heq as Hc Heq.
    destruct (IH (before + length (rc_requests (cmd_request c.1)))%nat chans Heq)
      as (sent & Hs & Hlen & Hall).
    exists (SentResponse ch
      (own_response resp before (length (rc_requests (cmd_request c.1)))) :: sent).
    split_and!; [|cbn; by rewrite Hlen|].
    + cbn [answers]. rewrite Hs. destruct (cmd_callback c.1) as [| |[]]; try done.
      cbn in Hc. injection Hc as ->. done.
    + intros [|i] c' ch' Hi Hch.
      * injection Hi as <-. injection Hch as <-. cbn. by rewrite Nat.add_0_r.
      * etrans; [exact (Hall i c' ch' Hi Hch)|]. unfold requests_of. cbn.
        rewrite length_app. do 2 f_equal. f_equal. lia.
Qed.

(** C30. A batch is transparent to its commands: it carries all their requests in
    order, and when it is answered each command's channel gets, once and in
    order, exactly the responses to its own requests, or the error. *)
Theorem batch_transparent b c cmds chans :
  batch_empty b →
  (λ c, channel_of (cmd_callback c.1)) <$> c :: cmds = Some <$> chans →
  let '(built, b') := build (add_all b (c :: cmds)) in
  batch_empty b' ∧
  ∃ cmd, built = Some cmd ∧ rc_requests (cmd_request cmd) = requests_of (c :: cmds) ∧
    req_header (cmd_request cmd) = req_header (cmd_request c.1) ∧
    ∀ resp, write_response resp (length (requests_of (c :: cmds))) →
      ∃ sent, invoke_with_response (cmd_callback cmd) resp = Returns sent ∧
        length sent = length (c :: cmds) ∧
        ∀ i ci ch, (c :: cmds) !! i = Some ci → chans !! i = Some ch →
          sent !! i = Some (SentResponse ch
            (own_response resp (length (requests_of (take i (c :: cmds))))
               (length (rc_requests (cmd_request ci.1))))).
Proof.
  intros Hb Hch. pose proof (build_add_all b c cmds Hb) as H.
  destruct (build _) as [built b']. destruct H as (Hb' & _ & _ & cmd & -> & Hreq & Hinv).
  split; [done|]. exists cmd. rewrite Hreq. split_and!; [done|done|done|].
  intros resp Hw. rewrite (Hinv _ Hw).
  destruct (answers_channels resp (c :: cmds) 0 chans Hch) as (sent & ? & ? & Hall).
  exists sent. split_and!; [done|done|]. intros i ci ch ? ?. by rewrite (Hall i ci ch).
Qed.

Module batch_demo.
Definition req (payload : bytes) : Request :=
  {| req_cmd_type := MessageQueue;
     req_message_queue := Some {| mq_context := None; mq_payload := payload |} |}.
Definition cmd (channel : Z) (payloads : list bytes) : RaftCommand :=
  {| cmd_request := {| rc_header := Some default_instance; rc_requests := req <$> payloads;
                       rc_admin_request := None; rc_status_request := None |};
     cmd_callback := write (Channel channel) |}.
Definition resp (index offset : Z) : Response :=
  {| resp_cmd_type := MessageQueue;
     resp_message_queue := Some {| mqr_index := index; mqr_offset := offset; mqr_error := "OK" |} |}.
Definition whole : RaftCmdResponse :=
  {| rr_header := Some default_instance; rr_responses := [resp 9 0; resp 9 1; resp 9 2];
     rr_admin_response := None; rr_status_response := None |}.
End batch_demo.

Lemma batch_transparent_witness :
  can_batch peer_batch_new (cmd_request (batch_demo.cmd 2 [[]; []])) 100 = true ∧
  ∃ cb sent,
    (build (add_all peer_batch_new
       [(batch_demo.cmd 1 [[]], 60); (batch_demo.cmd 2 [[]; []], 100)])).1 = Some cb ∧
    invoke_with_response (cmd_callback cb) batch_demo.whole = Returns sent ∧
    length sent = 2%nat.
Proof.
  split; [reflexivity|].
  pose proof (batch_transparent peer_batch_new (batch_demo.cmd 1 [[]], 60)
    [(batch_demo.cmd 2 [[]; []], 100)] [1; 2]) as H.
  destruct (build _) as [built b'].
  destruct H as (_ & cmd & -> & _ & _ & Hall); [by split|done|].
  destruct (Hall batch_demo.whole) as (sent & Hs & Hl & _); [by split|].
  exists cmd, sent. by split_and!.
Defined.

(** ** The size of a batch *)

(** Between two commands the builder of a peer is below both limits. *)
Record batch_inv (b : BatchRaftCmdRequestBuilder) : Prop := {
  bi_max : raft_entry_max_size b = f64_from RAFT_ENTRY_MAX_SIZE;
  bi_size : 0 ≤ batch_req_size b;
  bi_none : batch_request b = None → batch_req_size b = 0;
  bi_open : should_finish b = false }.

Lemma gt_0_2 n : u32_gt_f64 n (f64_mul (f64_from RAFT_ENTRY_MAX_SIZE) f64_0_2) = (1677721 <? n).
Proof.
  set (f := f64_mul _ _). vm_compute in f. unfold f, u32_gt_f64. cbn [Z.leb Z.compare Z.opp].
  apply eq_true_iff_eq. rewrite !Z.ltb_lt. cbn. lia.
Qed.
Lemma gt_0_4 n : u32_gt_f64 n (f64_mul (f64_from RAFT_ENTRY_MAX_SIZE) f64_0_4) = (3355443 <? n).
Proof.
  set (f := f64_mul _ _). vm_compute in f. unfold f, u32_gt_f64. cbn [Z.leb Z.compare Z.opp].
  apply eq_true_iff_eq. rewrite !Z.ltb_lt. cbn. lia.
Qed.

Lemma batch_inv_size b :
  batch_inv b → 0 ≤ batch_req_size b ≤ 3355443 ∧
  (Z.of_nat (length (rc_requests (get_or_default (batch_request b)))) ≤ 256).
Proof.
  intros [Hm Hs Hn Ho]. unfold should_finish in Ho. destruct (batch_request b); [|by rewrite Hn].
  rewrite Hm, gt_0_4 in Ho. apply orb_false_iff in Ho as [H1%Z.ltb_ge H2%Z.ltb_ge]. cbn. lia.
Qed.

(** A batch stays within the size the comments promise: adding a command that
    [can_batch] admits to a batch that is not finished gives at most 60% of the
    maximal size of a raft entry and never overflows the [u32] counter, the number of
    requests is at most 256 more than those of the command, and if the batch is
    still not finished it is at most 40%. *)
Theorem batch_size_bounded b cmd n :
  batch_inv b → 0 ≤ n < 2 ^ 32 → can_batch b (cmd_request cmd) n = true →
  let b' := add b cmd n in
  batch_req_size b' = batch_req_size b + n ∧
  10 * batch_req_size b' ≤ 6 * RAFT_ENTRY_MAX_SIZE ∧
  Z.of_nat (length (rc_requests (get_or_default (batch_request b'))))
  ≤ 256 + Z.of_nat (length (rc_requests (cmd_request cmd))) ∧
  (should_finish b' = false → batch_inv b' ∧ 10 * batch_req_size b' ≤ 4 * RAFT_ENTRY_MAX_SIZE) ∧
  (should_finish b' = true → ∃ built, (build b').1 = Some built ∧ batch_inv (build b').2).
Proof.
  intros Hb Hn Hc b'. pose proof (batch_inv_size b Hb) as [Hs Hr]. pose proof (bi_max b Hb) as Hm.
  unfold can_batch in Hc. rewrite Hm, gt_0_2 in Hc. apply andb_prop in Hc as [Hc _].
  apply andb_prop in Hc as [Hc _]. apply negb_true_iff, orb_false_iff in Hc as [_ Hle%Z.ltb_ge].
  assert (batch_req_size b' = batch_req_size b + n) as Hsize.
  { unfold b', add. cbn. apply Z.mod_small. lia. }
  assert (is_Some (batch_request b')) as [req Hreq].
  { unfold b', add. cbn. destruct (batch_request b); eauto. }
  split_and!; [done|unfold RAFT_ENTRY_MAX_SIZE; lia| | |].
  - unfold b', add. cbn. destruct (batch_request b); cbn in *; rewrite ?length_app; lia.
  - intros Hf. assert (batch_inv b') as Hb' by (split; [done|lia|by rewrite Hreq|done]).
    split; [done|]. pose proof (batch_inv_size b' Hb') as [? _]. unfold RAFT_ENTRY_MAX_SIZE. lia.
  - intros _. unfold build. rewrite Hreq.
    destruct (batch_callbacks b') as [|[cb k] [|]]; (eexists; split; [done|]; by split).
Qed.

Lemma batch_size_bounded_witness :
  can_batch peer_batch_new (cmd_request (batch_demo.cmd 2 [[]; []])) 1677721 = true ∧
  10 * batch_req_size (add peer_batch_new (batch_demo.cmd 2 [[]; []]) 1677721)
  ≤ 6 * RAFT_ENTRY_MAX_SIZE.
Proof.
  split; [vm_compute; reflexivity|].
  destruct (batch_size_bounded peer_batch_new (batch_demo.cmd 2 [[]; []]) 1677721)
    as (_ & Hsize & _).
  - split; done.
  - done.
  - vm_compute. reflexivity.
  - exact Hsize.
Defined.
