(* ===== verification/Apply.v ===== *)
(** * apply.rs

    The apply worker: it takes the committed entries and the callbacks of the
    proposals behind them, executes the commands, persists the apply state and
    answers the callbacks. *)

From stdpp Require Import pretty.
From S2P Require Import Prelude Bytes Keys Proto Raftpb Errors RocksEngine RefRocks RefCodec.
From S2P Require Import RaftLog PeerStorage StorageSpec RaftCmd.
Local Open Scope Z_scope.

(** ** Pending commands *)

Record Proposal := {
  pr_is_conf_change : bool; pr_index : Z; pr_term : Z; pr_cb : Callback;
  pr_propose_time : option Z; pr_must_pass_epoch_check : bool }.

(** The callback is taken out of a pending command before it is dropped. *)
Record PendingCmd := { pc_index : Z; pc_term : Z; pc_cb : Callback }.
Definition PendingCmdQueue := list PendingCmd.

(** [(term1, index1) > (term2, index2)] in the order of tuples. *)
Definition position_gt (term1 index1 term2 index2 : Z) : bool :=
  (term2 <? term1) || (term1 =? term2) && (index2 <? index1).

Definition pop_normal (queue : PendingCmdQueue) (index term : Z) :
    option (PendingCmd * PendingCmdQueue) :=
  match queue with
  | [] => None
  | cmd :: queue =>
      if position_gt (pc_term cmd) (pc_index cmd) term index then None else Some (cmd, queue)
  end.
Definition append_normal (queue : PendingCmdQueue) (cmd : PendingCmd) : PendingCmdQueue :=
  queue ++ [cmd].

(** ** Results *)

Inductive ExecResult := ExecResult_CompactLog (state : RaftTruncatedState) (first_index : Z).
Inductive ApplyResult := ApplyResult_None | ApplyResult_Res (res : ExecResult).

Record ApplyRes := {
  ares_region_id : Z; ares_apply_state : RaftApplyState; ares_applied_index_term : Z;
  ares_exec_res : list ExecResult }.

Record Registration := {
  reg_id : Z; reg_term : Z; reg_apply_state : RaftApplyState; reg_applied_index_term : Z;
  reg_region : Region }.

Record ApplyMsg := {
  apply_peer_id : Z; apply_region_id : Z; apply_term : Z;
  apply_entries : list Entry; apply_cbs : list Proposal }.
Inductive Msg := Msg_Apply (apply : ApplyMsg) | Msg_Registration (reg : Registration) | Msg_Noop.

(** The wallet and deduplication maps that the delegate also recovers are never
    read. *)
Record ApplyDelegate := {
  dg_id : Z; dg_term : Z; dg_region : Region; dg_pending : PendingCmdQueue;
  dg_apply_state : RaftApplyState; dg_applied_index_term : Z; dg_last_flush : Z }.

Definition set_applied_index (index : Z) (s : RaftApplyState) : RaftApplyState :=
  {| as_applied_index := index; as_last_commit_index := as_last_commit_index s;
     as_commit_index := as_commit_index s; as_commit_term := as_commit_term s;
     as_truncated_state := as_truncated_state s |}.
Definition set_commit_state (index term : Z) (s : RaftApplyState) : RaftApplyState :=
  {| as_applied_index := as_applied_index s; as_last_commit_index := as_last_commit_index s;
     as_commit_index := index; as_commit_term := term;
     as_truncated_state := as_truncated_state s |}.
Definition set_truncated (index term : Z) (s : RaftApplyState) : RaftApplyState :=
  {| as_applied_index := as_applied_index s; as_last_commit_index := as_last_commit_index s;
     as_commit_index := as_commit_index s; as_commit_term := as_commit_term s;
     as_truncated_state := Some {| ts_index := index; ts_term := term |} |}.

Definition dg_set_pending (queue : PendingCmdQueue) (d : ApplyDelegate) : ApplyDelegate :=
  {| dg_id := dg_id d; dg_term := dg_term d; dg_region := dg_region d; dg_pending := queue;
     dg_apply_state := dg_apply_state d; dg_applied_index_term := dg_applied_index_term d;
     dg_last_flush := dg_last_flush d |}.
Definition dg_set_term (term : Z) (d : ApplyDelegate) : ApplyDelegate :=
  {| dg_id := dg_id d; dg_term := term; dg_region := dg_region d; dg_pending := dg_pending d;
     dg_apply_state := dg_apply_state d; dg_applied_index_term := dg_applied_index_term d;
     dg_last_flush := dg_last_flush d |}.
Definition dg_set_applied (s : RaftApplyState) (term : Z) (d : ApplyDelegate) : ApplyDelegate :=
  {| dg_id := dg_id d; dg_term := dg_term d; dg_region := dg_region d; dg_pending := dg_pending d;
     dg_apply_state := s; dg_applied_index_term := term; dg_last_flush := dg_last_flush d |}.
Definition dg_set_flushed (d : ApplyDelegate) : ApplyDelegate :=
  {| dg_id := dg_id d; dg_term := dg_term d; dg_region := dg_region d; dg_pending := dg_pending d;
     dg_apply_state := dg_apply_state d; dg_applied_index_term := dg_applied_index_term d;
     dg_last_flush := as_applied_index (dg_apply_state d) |}.

Definition from_registration (reg : Registration) : ApplyDelegate :=
  {| dg_id := reg_id reg; dg_term := reg_term reg; dg_region := reg_region reg; dg_pending := [];
     dg_apply_state := reg_apply_state reg;
     dg_applied_index_term := reg_applied_index_term reg;
     dg_last_flush := as_applied_index (reg_apply_state reg) |}.

(** ** Executing a command *)
Section apply.
Context {R : RocksDB}.
Context `{!ProtoMessage RaftCmdRequest, !ProtoMessage RaftApplyState}.
Context `{!DebugFmt Error}.

(** [applied_batch] holds the callbacks to invoke, [sent] and [notified] what has
    been sent to clients and to the peer. *)
Record ApplyContext := {
  ac_timer : bool;
  ac_engine : DB;
  ac_applied_batch : list (Callback * RaftCmdResponse);
  ac_apply_res : list ApplyRes;
  ac_kv_wb : RocksWriteBatch;
  ac_committed_count : Z;
  ac_sent : list Sent;
  ac_notified : list ApplyRes }.

Definition apply_context_new (engine : DB) : ApplyContext :=
  {| ac_timer := false; ac_engine := engine; ac_applied_batch := []; ac_apply_res := [];
     ac_kv_wb := wb_new; ac_committed_count := 0; ac_sent := []; ac_notified := [] |}.

Definition ac_push (cbs : list (Callback * RaftCmdResponse)) (c : ApplyContext) : ApplyContext :=
  {| ac_timer := ac_timer c; ac_engine := ac_engine c;
     ac_applied_batch := ac_applied_batch c ++ cbs; ac_apply_res := ac_apply_res c;
     ac_kv_wb := ac_kv_wb c; ac_committed_count := ac_committed_count c;
     ac_sent := ac_sent c; ac_notified := ac_notified c |}.
Definition ac_send (sent : list Sent) (c : ApplyContext) : ApplyContext :=
  {| ac_timer := ac_timer c; ac_engine := ac_engine c; ac_applied_batch := ac_applied_batch c;
     ac_apply_res := ac_apply_res c; ac_kv_wb := ac_kv_wb c;
     ac_committed_count := ac_committed_count c; ac_sent := ac_sent c ++ sent;
     ac_notified := ac_notified c |}.
Definition ac_set_wb (wb : RocksWriteBatch) (c : ApplyContext) : ApplyContext :=
  {| ac_timer := ac_timer c; ac_engine := ac_engine c; ac_applied_batch := ac_applied_batch c;
     ac_apply_res := ac_apply_res c; ac_kv_wb := wb;
     ac_committed_count := ac_committed_count c; ac_sent := ac_sent c;
     ac_notified := ac_notified c |}.
Definition ac_start_timer (c : ApplyContext) : ApplyContext :=
  {| ac_timer := true; ac_engine := ac_engine c; ac_applied_batch := ac_applied_batch c;
     ac_apply_res := ac_apply_res c; ac_kv_wb := ac_kv_wb c;
     ac_committed_count := ac_committed_count c; ac_sent := ac_sent c;
     ac_notified := ac_notified c |}.
Definition ac_count (n : Z) (c : ApplyContext) : ApplyContext :=
  {| ac_timer := ac_timer c; ac_engine := ac_engine c; ac_applied_batch := ac_applied_batch c;
     ac_apply_res := ac_apply_res c; ac_kv_wb := ac_kv_wb c;
     ac_committed_count := ac_committed_count c + n; ac_sent := ac_sent c;
     ac_notified := ac_notified c |}.

(** *** Commands *)

Definition handle_message_queue (index offset : Z) : result Error Response :=
  Ok {| resp_cmd_type := Invalid;
        resp_message_queue :=
          Some {| mqr_index := index; mqr_offset := offset; mqr_error := "OK" |} |}.

Definition set_cmd_type (cmd_type : CmdType) (resp : Response) : Response :=
  {| resp_cmd_type := cmd_type; resp_message_queue := resp_message_queue resp |}.
Fixpoint exec_write_requests (requests : list Request) (index offset : Z) :
    run (result Error (list Response)) :=
  match requests with
  | [] => Returns (Ok [])
  | req :: requests =>
      match req_cmd_type req with
      | MessageQueue =>
          match handle_message_queue index offset with
          | Ok resp =>
              rest ← exec_write_requests requests index (offset + 1);
              Returns (responses ← rest;
                       Ok (set_cmd_type (req_cmd_type req) resp :: responses))
          | Err e => Returns (Err e)
          end
      | Invalid => Panics
      end
  end.

(** The response with the uuid of the request, if it has one. *)
Definition copy_uuid (req : RaftCmdRequest) (resp : RaftCmdResponse) : RaftCmdResponse :=
  match rh_uuid (req_header req) with
  | [] => resp
  | uuid => mut_header (set_uuid uuid) resp
  end.

Definition exec_write_cmd (index : Z) (req : RaftCmdRequest) :
    run (result Error (RaftCmdResponse * ApplyResult)) :=
  responses ← exec_write_requests (rc_requests req) index 0;
  Returns (responses ← responses;
    let resp := copy_uuid req default_instance in
    Ok ({| rr_header := rr_header resp; rr_responses := responses;
           rr_admin_response := rr_admin_response resp;
           rr_status_response := rr_status_response resp |}, ApplyResult_None)).

Definition compact_raft_log (state : RaftApplyState) (compact_index compact_term : Z) :
    result Error RaftApplyState :=
  if compact_index <=? ts_index (get_truncated_state state)
  then Err (Error_Other "try to truncate compacted entries")
  else if as_applied_index state <? compact_index
  then Err (Error_Other ("compact index " +:+ pretty compact_index +:+ " > applied index "
                         +:+ pretty (as_applied_index state)))
  else Ok (set_truncated compact_index compact_term state).

(** The execution context is its apply state. *)
Definition exec_compact_log (apply_state : RaftApplyState) (req : AdminRequest) :
    result Error (AdminResponse * ApplyResult) * RaftApplyState :=
  let compact_index := compact_index (get_or_default (adm_compact_log req)) in
  let first_index := first_index apply_state in
  if compact_index <=? first_index
  then (Ok (default_instance, ApplyResult_None), apply_state)
  else
    let compact_term := compact_term (get_or_default (adm_compact_log req)) in
    if compact_term =? 0
    then (Err (Error_Other "command format is outdated, please upgrade leader"), apply_state)
    else
      match compact_raft_log apply_state compact_index compact_term with
      | Ok apply_state =>
          (Ok (default_instance,
               ApplyResult_Res (ExecResult_CompactLog (get_truncated_state apply_state) first_index)),
           apply_state)
      | Err e => (Err e, apply_state)
      end.

Definition exec_admin_cmd (apply_state : RaftApplyState) (req : RaftCmdRequest) :
    result Error (RaftCmdResponse * ApplyResult) * RaftApplyState :=
  let request := get_or_default (rc_admin_request req) in
  let cmd_type := adm_cmd_type request in
  let '(r, apply_state) :=
    match cmd_type with
    | CompactLog => exec_compact_log apply_state request
    | InvalidAdmin => (Err (Error_Other "unsupported admin command type"), apply_state)
    end in
  (('(response, exec_result) ← r;
    let resp := copy_uuid req default_instance in
    Ok ({| rr_header := rr_header resp; rr_responses := rr_responses resp;
           rr_admin_response := Some {| admr_cmd_type := cmd_type;
                                        admr_compact_log := admr_compact_log response |};
           rr_status_response := rr_status_response resp |}, exec_result)), apply_state).

Definition exec_raft_cmd (apply_state : RaftApplyState) (index : Z) (req : RaftCmdRequest) :
    run (result Error (RaftCmdResponse * ApplyResult) * RaftApplyState) :=
  match rc_admin_request req with
  | Some _ => Returns (exec_admin_cmd apply_state req)
  | None => r ← exec_write_cmd index req; Returns (r, apply_state)
  end.

Definition apply_raft_cmd (c : ApplyContext) (d : ApplyDelegate) (index term : Z)
    (req : RaftCmdRequest) : run (RaftCmdResponse * ApplyResult * ApplyContext * ApplyDelegate) :=
  let wb := set_save_point (ac_kv_wb c) in
  '(r, apply_state) ← exec_raft_cmd (dg_apply_state d) index req;
  '(resp, exec_result, wb) ←
    match r with
    | Ok (resp, exec_result) => wb ← pop_save_point wb; Returns (resp, exec_result, wb)
    | Err e => wb ← rollback_to_save_point wb; Returns (new_error e, ApplyResult_None, wb)
    end;
  Returns (resp, exec_result, ac_set_wb wb c,
           dg_set_applied (set_applied_index index apply_state) term d).

(** *** Callbacks *)

Definition notify_stale_req (term : Z) (cb : Callback) : run (list Sent) :=
  invoke_with_response cb (err_resp Error_StaleCommand term).

(** The loop of [find_pending]: the callback found, the queue left and what was
    sent to stale commands. *)
Fixpoint find_pending (queue : PendingCmdQueue) (current_term index term : Z) :
    run (option Callback * PendingCmdQueue * list Sent) :=
  match queue with
  | [] => Returns (None, [], [])
  | _ :: rest =>
      match pop_normal queue index term with
      | None => Returns (None, queue, [])
      | Some (head, _) =>
          if pc_term head =? term then
            if pc_index head =? index then Returns (Some (pc_cb head), rest, []) else Panics
          else
            sent ← notify_stale_req current_term (pc_cb head);
            '(cb, queue, sent') ← find_pending rest current_term index term;
            Returns (cb, queue, sent ++ sent')
      end
  end.

(** The loop of an empty entry: the commands of earlier terms are stale. *)
Fixpoint pop_stale (queue : PendingCmdQueue) (term : Z) :
    list (Callback * RaftCmdResponse) * PendingCmdQueue :=
  match queue with
  | [] => ([], [])
  | _ :: rest =>
      match pop_normal queue u64_max (term -u 1) with
      | None => ([], queue)
      | Some (cmd, _) =>
          let '(cbs, queue) := pop_stale rest term in
          ((pc_cb cmd, err_resp Error_StaleCommand term) :: cbs, queue)
      end
  end.

Definition process_raft_cmd (c : ApplyContext) (d : ApplyDelegate) (index term : Z)
    (cmd : RaftCmdRequest) : run (ApplyResult * ApplyContext * ApplyDelegate) :=
  if index =? 0 then Panics
  else
    '(resp, exec_result, c, d) ← apply_raft_cmd c d index term cmd;
    let resp := bind_term resp (dg_term d) in
    '(cmd_cb, queue, sent) ← find_pending (dg_pending d) (dg_term d) index term;
    let c := ac_send sent c in
    let c := match cmd_cb with Some cb => ac_push [(cb, resp)] c | None => c end in
    Returns (exec_result, c, dg_set_pending queue d).

Definition handle_raft_entry_normal (c : ApplyContext) (d : ApplyDelegate) (entry : Entry) :
    run (ApplyResult * ApplyContext * ApplyDelegate) :=
  let index := entry_index entry in
  let term := entry_term entry in
  match entry_data entry with
  | _ :: _ =>
      cmd ← parse_data_at (entry_data entry);
      process_raft_cmd c d index term cmd
  | [] =>
      let d := dg_set_applied (set_applied_index index (dg_apply_state d)) term d in
      rust_assert (0 <? term) (
      let '(cbs, queue) := pop_stale (dg_pending d) term in
      Returns (ApplyResult_None, ac_push cbs c, dg_set_pending queue d))
  end.

Definition push_result (res : ApplyResult) (results : list ExecResult) : list ExecResult :=
  match res with ApplyResult_None => results | ApplyResult_Res res => results ++ [res] end.

Fixpoint apply_entries_loop (entries : list Entry) (c : ApplyContext) (d : ApplyDelegate)
    (results : list ExecResult) : run (ApplyContext * ApplyDelegate * list ExecResult) :=
  match entries with
  | [] => Returns (c, d, results)
  | entry :: entries =>
      rust_assert (as_applied_index (dg_apply_state d) +u 1 =? entry_index entry) (
      '(res, c, d) ←
        match entry_type entry with
        | EntryNormal => handle_raft_entry_normal c d entry
        | _ => Panics
        end;
      apply_entries_loop entries c d (push_result res results))
  end.

(** *** Persisting *)

Definition write_apply_state (d : ApplyDelegate) (wb : RocksWriteBatch) : RocksWriteBatch :=
  wb_put_msg_cf CF_RAFT (apply_state_key (region_id (dg_region d))) (dg_apply_state d) wb.

Fixpoint invoke_all (cbs : list (Callback * RaftCmdResponse)) : run (list Sent) :=
  match cbs with
  | [] => Returns []
  | (cb, resp) :: cbs =>
      sent ← invoke_with_response cb resp;
      rest ← invoke_all cbs;
      Returns (sent ++ rest)
  end.
(** The batch is written before any callback is invoked. *)
Definition write_to_db (c : ApplyContext) : run ApplyContext :=
  let '(engine, wb) :=
    if wb_is_empty (ac_kv_wb c) then (ac_engine c, ac_kv_wb c)
    else (write_opt (ac_engine c) (ac_kv_wb c), wb_clear (ac_kv_wb c)) in
  sent ← invoke_all (ac_applied_batch c);
  Returns {| ac_timer := ac_timer c; ac_engine := engine; ac_applied_batch := [];
             ac_apply_res := ac_apply_res c; ac_kv_wb := wb;
             ac_committed_count := ac_committed_count c; ac_sent := ac_sent c ++ sent;
             ac_notified := ac_notified c |}.

Definition commit_opt (persistent : bool) (c : ApplyContext) (d : ApplyDelegate) :
    run (ApplyContext * ApplyDelegate) :=
  if persistent then c ← write_to_db c; Returns (c, dg_set_flushed d) else Returns (c, d).
Definition commit (c : ApplyContext) (d : ApplyDelegate) : run (ApplyContext * ApplyDelegate) :=
  let c := if dg_last_flush d <? as_applied_index (dg_apply_state d)
           then ac_set_wb (write_apply_state d (ac_kv_wb c)) c else c in
  commit_opt true c d.

Definition finish_for (c : ApplyContext) (d : ApplyDelegate) (results : list ExecResult) :
    run (ApplyContext * ApplyDelegate) :=
  let c := ac_set_wb (write_apply_state d (ac_kv_wb c)) c in
  '(c, d) ← commit_opt false c d;
  Returns ({| ac_timer := ac_timer c; ac_engine := ac_engine c;
              ac_applied_batch := ac_applied_batch c;
              ac_apply_res := ac_apply_res c ++
                [{| ares_region_id := region_id (dg_region d); ares_apply_state := dg_apply_state d;
                    ares_applied_index_term := dg_applied_index_term d;
                    ares_exec_res := results |}];
              ac_kv_wb := ac_kv_wb c; ac_committed_count := ac_committed_count c;
              ac_sent := ac_sent c; ac_notified := ac_notified c |}, d).

Definition handle_raft_committed_entries (c : ApplyContext) (d : ApplyDelegate)
    (entries : list Entry) : run (ApplyContext * ApplyDelegate) :=
  match entries with
  | [] => Returns (c, d)
  | _ =>
      let c := ac_count (Z.of_nat (length entries)) c in
      '(c, d, results) ← apply_entries_loop entries c d [];
      finish_for c d results
  end.

(** [flush]: nothing happens unless the timer runs. *)
Definition flush (c : ApplyContext) : run ApplyContext :=
  if ac_timer c then
    c ← write_to_db c;
    Returns {| ac_timer := false; ac_engine := ac_engine c;
               ac_applied_batch := ac_applied_batch c; ac_apply_res := [];
               ac_kv_wb := ac_kv_wb c; ac_committed_count := 0; ac_sent := ac_sent c;
               ac_notified := ac_notified c ++ ac_apply_res c |}
  else Returns c.

(** ** The worker *)

Definition append_proposal (props : list Proposal) (d : ApplyDelegate) : ApplyDelegate :=
  dg_set_pending
    (foldl (λ queue p, append_normal queue
              {| pc_index := pr_index p; pc_term := pr_term p; pc_cb := pr_cb p |})
       (dg_pending d) props) d.

Definition handle_apply (c : ApplyContext) (d : ApplyDelegate) (apply : ApplyMsg) :
    run (ApplyContext * ApplyDelegate) :=
  let c := ac_start_timer c in
  match list.last (apply_entries apply) with
  | None => Panics
  | Some entry =>
      let d := dg_set_term (apply_term apply) d in
      let s := dg_apply_state d in
      rust_assert (negb ((entry_index entry <? as_commit_index s) ||
                         (entry_term entry <? as_commit_term s))) (
      let d := dg_set_applied (set_commit_state (entry_index entry) (entry_term entry) s)
                 (dg_applied_index_term d) d in
      let d := append_proposal (apply_cbs apply) d in
      handle_raft_committed_entries c d (apply_entries apply))
  end.

Fixpoint handle_tasks (msgs : list Msg) (c : ApplyContext) (d : ApplyDelegate) :
    run (ApplyContext * ApplyDelegate) :=
  match msgs with
  | [] => Returns (c, d)
  | Msg_Apply apply :: msgs => '(c, d) ← handle_apply c d apply; handle_tasks msgs c d
  | Msg_Registration _ :: _ => Panics
  | Msg_Noop :: msgs => handle_tasks msgs c d
  end.

(** One turn of the poller, with the messages received ([begin], [handle_normal]
    and [end]). *)
Definition poll_once (msgs : list Msg) (c : ApplyContext) (d : ApplyDelegate) :
    run (ApplyContext * ApplyDelegate) :=
  '(c, d) ← handle_tasks msgs c d;
  c ← flush c;
  Returns (c, dg_set_flushed d).

Fixpoint clear_all_commands_as_stale (queue : PendingCmdQueue) (term : Z) : run (list Sent) :=
  match queue with
  | [] => Returns []
  | cmd :: queue =>
      sent ← notify_stale_req term (pc_cb cmd);
      rest ← clear_all_commands_as_stale queue term;
      Returns (sent ++ rest)
  end.
End apply.
