(* ===== verification/ApplySpec.v ===== *)
(** * The correctness of the apply worker

    Applying a batch of committed entries never panics, leaves the apply state at
    the last of them in the kv engine, and answers every proposal behind them once,
    with the position of each of its requests, after the write. *)

From stdpp Require Import pretty.
From S2P Require Import Prelude Bytes Keys Proto Raftpb Errors RocksEngine RefRocks RefCodec.
From S2P Require Import RaftLog PeerStorage StorageSpec RaftCmd Apply.
Local Open Scope Z_scope.

Section apply_spec.
Context {R : RocksDB} {RL : RocksDBLaws R}.
Context `{!ProtoMessage RaftCmdRequest, !ProtoMessage RaftApplyState}.
Context `{!DebugFmt Error}.

(** ** One command *)

(** The response to the [offset]-th request of the entry at [index]. *)
Definition position_response (index : Z) (offset : nat) : Response :=
  {| resp_cmd_type := MessageQueue;
     resp_message_queue :=
       Some {| mqr_index := index; mqr_offset := Z.of_nat offset; mqr_error := "OK" |} |}.

Definition message_queue_only (cmd : RaftCmdRequest) : bool :=
  forallb (λ r, bool_decide (req_cmd_type r = MessageQueue)) (rc_requests cmd).

Lemma exec_write_requests_spec requests index offset :
  forallb (λ r, bool_decide (req_cmd_type r = MessageQueue)) requests = true →
  exec_write_requests requests index (Z.of_nat offset)
  = Returns (Ok (position_response index <$> seq offset (length requests))).
Proof.
  revert offset. induction requests as [|r requests IH]; intros offset Hall; [done|].
  cbn in Hall. apply andb_true_iff in Hall as [Hr Hall]. apply bool_decide_eq_true in Hr.
  cbn [exec_write_requests]. rewrite Hr. cbn [handle_message_queue].
  replace (Z.of_nat offset + 1) with (Z.of_nat (S offset)) by lia.
  rewrite IH by done. done.
Qed.

(** The response to a write command: the position of each request. *)
Definition write_resp (index : Z) (cmd : RaftCmdRequest) : RaftCmdResponse :=
  {| rr_header := rr_header (copy_uuid cmd default_instance);
     rr_responses := position_response index <$> seq 0 (length (rc_requests cmd));
     rr_admin_response := None; rr_status_response := None |}.

Lemma copy_uuid_default cmd :
  let resp := copy_uuid cmd default_instance in
  rr_responses resp = [] ∧ rr_admin_response resp = None ∧ rr_status_response resp = None.
Proof. unfold copy_uuid. by destruct (rh_uuid (req_header cmd)). Qed.

Lemma exec_write_cmd_spec index cmd :
  message_queue_only cmd = true →
  exec_write_cmd index cmd = Returns (Ok (write_resp index cmd, ApplyResult_None)).
Proof.
  intros H. unfold exec_write_cmd. rewrite (exec_write_requests_spec _ index 0) by done. cbn.
  destruct (copy_uuid_default cmd) as (_ & -> & ->). done.
Qed.

(** The effect of an entry: its response, its result and the apply state. *)
Definition entry_effect (ap : RaftApplyState) (e : Entry) :
    RaftCmdResponse * ApplyResult * RaftApplyState :=
  let '(resp, res, ap) :=
    match entry_data e with
    | [] => (default_instance, ApplyResult_None, ap)
    | data =>
        match parse_from_bytes data with
        | None => (default_instance, ApplyResult_None, ap)
        | Some cmd =>
            match rc_admin_request cmd with
            | Some _ =>
                let '(r, ap) := exec_admin_cmd ap cmd in
                match r with
                | Ok (resp, res) => (resp, res, ap)
                | Err e => (new_error e, ApplyResult_None, ap)
                end
            | None => (write_resp (entry_index e) cmd, ApplyResult_None, ap)
            end
        end
    end in
  (resp, res, set_applied_index (entry_index e) ap).

(** An entry that was proposed through this store, or the empty one of a new leader. *)
Record entry_ok (e : Entry) : Prop := {
  eo_normal : entry_type e = EntryNormal;
  eo_index : 0 < entry_index e;
  eo_term : 0 < entry_term e ≤ u64_max;
  eo_data : entry_data e ≠ [] → ∃ cmd : RaftCmdRequest,
    parse_from_bytes (entry_data e) = Some cmd ∧
    (rc_admin_request cmd = None → message_queue_only cmd = true) }.

Lemma save_point_pop wb : pop_save_point (set_save_point wb) = Returns wb.
Proof. by destruct wb. Qed.
Lemma save_point_rollback wb : rollback_to_save_point (set_save_point wb) = Returns wb.
Proof.
  destruct wb as [ops sps]. unfold rollback_to_save_point, set_save_point, wb_count. cbn.
  by rewrite take_ge.
Qed.

Lemma ac_set_wb_id c : ac_set_wb (ac_kv_wb c) c = c.
Proof. by destruct c. Qed.

Lemma apply_raft_cmd_spec c d e cmd :
  entry_data e ≠ [] → parse_from_bytes (entry_data e) = Some cmd →
  (rc_admin_request cmd = None → message_queue_only cmd = true) →
  apply_raft_cmd c d (entry_index e) (entry_term e) cmd
  = let '(resp, res, ap) := entry_effect (dg_apply_state d) e in
    Returns (resp, res, c, dg_set_applied ap (entry_term e) d).
Proof.
  intros Hne Hp Hmq. unfold apply_raft_cmd, entry_effect, exec_raft_cmd.
  destruct (entry_data e) as [|b data] eqn:Hd; [done|]. rewrite Hp.
  destruct (rc_admin_request cmd) eqn:Hadm.
  - destruct (exec_admin_cmd (dg_apply_state d) cmd) as [[[resp res]|err] ap]; cbn [mbind run_bind].
    + rewrite save_point_pop. cbn. by rewrite ac_set_wb_id.
    + rewrite save_point_rollback. cbn. by rewrite ac_set_wb_id.
  - rewrite (exec_write_cmd_spec _ _ (Hmq eq_refl)). cbn [mbind run_bind].
    rewrite save_point_pop. cbn. by rewrite ac_set_wb_id.
Qed.

(** ** The callbacks of a batch of entries *)

(** The pending commands are those of a part of the entries, in order. *)
Inductive cmds_match : list PendingCmd → list Entry → Prop :=
| cmds_match_nil : cmds_match [] []
| cmds_match_skip e queue es : cmds_match queue es → cmds_match queue (e :: es)
| cmds_match_take cmd e queue es :
    pc_index cmd = entry_index e → pc_term cmd = entry_term e → entry_data e ≠ [] →
    cmds_match queue es → cmds_match (cmd :: queue) (e :: es).

(** The entries follow each other, with terms that do not decrease. *)
Inductive entries_follow : Z → Z → list Entry → Prop :=
| entries_follow_nil index term : entries_follow index term []
| entries_follow_cons index term e es :
    entry_index e = index + 1 → term ≤ entry_term e → entry_ok e →
    entries_follow (entry_index e) (entry_term e) es → entries_follow index term (e :: es).

Lemma cmds_match_later queue es index term cmd rest :
  cmds_match queue es → entries_follow index term es → queue = cmd :: rest →
  index < pc_index cmd ∧ term ≤ pc_term cmd.
Proof.
  intros Hm. revert index term cmd rest.
  induction Hm as [|e queue es Hm IH|c e queue es Hi Ht Hne Hm IH]; intros index term cmd rest Hf Hq.
  - done.
  - inversion Hf; subst. edestruct IH as [? ?]; [done|done|]. lia.
  - injection Hq as -> ->. inversion Hf; subst. lia.
Qed.

Lemma position_gt_later t1 i1 t2 i2 : t2 ≤ t1 → i2 < i1 → position_gt t1 i1 t2 i2 = true.
Proof.
  intros. unfold position_gt.
  destruct (Z.ltb_spec t2 t1), (Z.eqb_spec t1 t2), (Z.ltb_spec i2 i1); try done; lia.
Qed.

Lemma find_pending_none queue es e index term current :
  cmds_match queue es → entries_follow (entry_index e) (entry_term e) es →
  index = entry_index e → term = entry_term e →
  find_pending queue current index term = Returns (None, queue, []).
Proof.
  intros Hm Hf -> ->. destruct queue as [|cmd rest]; [done|].
  destruct (cmds_match_later _ _ _ _ _ _ Hm Hf eq_refl) as [? ?].
  cbn. by rewrite position_gt_later by lia.
Qed.

Lemma find_pending_head cmd queue current :
  find_pending (cmd :: queue) current (pc_index cmd) (pc_term cmd)
  = Returns (Some (pc_cb cmd), queue, []).
Proof.
  cbn. unfold position_gt. rewrite Z.ltb_irrefl, Z.eqb_refl, Z.ltb_irrefl. cbn.
  by rewrite !Z.eqb_refl.
Qed.

Lemma pop_stale_none queue es e :
  cmds_match queue es → entries_follow (entry_index e) (entry_term e) es →
  0 < entry_term e ≤ u64_max → pop_stale queue (entry_term e) = ([], queue).
Proof.
  intros Hm Hf Ht. unfold u64_max in Ht. destruct queue as [|cmd rest]; [done|].
  destruct (cmds_match_later _ _ _ _ _ _ Hm Hf eq_refl) as [? ?].
  cbn. rewrite u64_sub_small by (unfold is_u64; lia).
  unfold position_gt. rewrite (proj2 (Z.ltb_lt _ _)) by lia. done.
Qed.

(** ** A batch of entries *)

Definition take_cmd (queue : list PendingCmd) (e : Entry) (resp : RaftCmdResponse) :
    list (Callback * RaftCmdResponse) * list PendingCmd :=
  match queue with
  | cmd :: queue' =>
      if (pc_index cmd =? entry_index e) && (pc_term cmd =? entry_term e)
      then ([(pc_cb cmd, resp)], queue') else ([], queue)
  | [] => ([], [])
  end.

Definition result_list (res : ApplyResult) : list ExecResult :=
  match res with ApplyResult_None => [] | ApplyResult_Res res => [res] end.

(** The callbacks to answer, the results for the peer and the apply state. *)
Fixpoint apply_all (current : Z) (ap : RaftApplyState) (queue : list PendingCmd)
    (es : list Entry) : list (Callback * RaftCmdResponse) * list ExecResult * RaftApplyState :=
  match es with
  | [] => ([], [], ap)
  | e :: es =>
      let '(resp, res, ap) := entry_effect ap e in
      let '(mine, queue) := take_cmd queue e (bind_term resp current) in
      let '(cbs, results, ap) := apply_all current ap queue es in
      (mine ++ cbs, result_list res ++ results, ap)
  end.

Lemma entry_effect_empty ap e :
  entry_data e = [] →
  entry_effect ap e = (default_instance, ApplyResult_None, set_applied_index (entry_index e) ap).
Proof. intros He. unfold entry_effect. by rewrite He. Qed.

Lemma entry_effect_applied ap e resp res ap' :
  entry_effect ap e = (resp, res, ap') → as_applied_index ap' = entry_index e.
Proof.
  unfold entry_effect. intros H.
  destruct (match entry_data e with [] => _ | _ => _ end) as [[? ?] ?].
  by injection H as <- <- <-.
Qed.

Lemma take_cmd_skip queue e es resp :
  cmds_match queue es → entries_follow (entry_index e) (entry_term e) es →
  take_cmd queue e resp = ([], queue).
Proof.
  intros Hm Hf. destruct queue as [|cmd rest]; [done|].
  destruct (cmds_match_later _ _ _ _ _ _ Hm Hf eq_refl) as [? ?]. cbn.
  by rewrite (proj2 (Z.eqb_neq _ _)) by lia.
Qed.

Lemma ac_push_nil c : ac_push [] c = c.
Proof. destruct c. unfold ac_push. cbn. by rewrite app_nil_r. Qed.
Lemma ac_send_nil c : ac_send [] c = c.
Proof. destruct c. unfold ac_send. cbn. by rewrite app_nil_r. Qed.
Lemma ac_push_app cbs cbs' c : ac_push cbs' (ac_push cbs c) = ac_push (cbs ++ cbs') c.
Proof. unfold ac_push. cbn. by rewrite app_assoc. Qed.

Lemma dg_set_pending_id d : dg_set_pending (dg_pending d) d = d.
Proof. by destruct d. Qed.

(** One entry. *)
Lemma handle_entry_spec c d e es queue' :
  entry_ok e → entries_follow (entry_index e) (entry_term e) es →
  cmds_match (dg_pending d) (e :: es) →
  let '(resp, res, ap) := entry_effect (dg_apply_state d) e in
  let '(mine, queue) := take_cmd (dg_pending d) e (bind_term resp (dg_term d)) in
  queue = queue' →
  cmds_match queue' es ∧
  handle_raft_entry_normal c d e
  = Returns (res, ac_push mine c,
             dg_set_pending queue' (dg_set_applied ap (entry_term e) d)).
Proof.
  intros [Hn Hi Ht Hd] Hf Hm. destruct (entry_effect (dg_apply_state d) e) as [[resp res] ap] eqn:He.
  unfold handle_raft_entry_normal.
  destruct (entry_data e) as [|b data] eqn:Hdata.
  - assert (cmds_match (dg_pending d) es) as Hm' by (inversion Hm; subst; [done|congruence]).
    rewrite (take_cmd_skip _ _ _ _ Hm' Hf). intros <-. split; [done|].
    rewrite entry_effect_empty in He by done. injection He as <- <- <-.
    rewrite (proj2 (Z.ltb_lt _ _)) by lia. cbn [rust_assert].
    change (dg_pending (dg_set_applied _ _ d)) with (dg_pending d).
    by rewrite (pop_stale_none _ _ _ Hm' Hf Ht).
  - destruct (Hd ltac:(done)) as (cmd & Hp & Hmq). unfold parse_data_at. rewrite Hp.
    cbn [unwrap mbind run_bind]. unfold process_raft_cmd.
    rewrite (proj2 (Z.eqb_neq _ _)) by lia.
    rewrite (apply_raft_cmd_spec c d e cmd) by (by rewrite ?Hdata). rewrite He.
    cbn [mbind run_bind]. change (dg_pending (dg_set_applied ap (entry_term e) d)) with (dg_pending d).
    change (dg_term (dg_set_applied ap (entry_term e) d)) with (dg_term d).
    inversion Hm as [|e' q es' Hm'|cmd' e' q es' Hci Hct Hne Hm']; subst.
    + rewrite (take_cmd_skip _ _ _ _ Hm' Hf). intros <-. split; [done|].
      rewrite (find_pending_none _ es e _ _ _ Hm' Hf) by done. cbn [mbind run_bind].
      by rewrite ac_send_nil, ac_push_nil.
    + cbn [take_cmd]. rewrite Hci, Hct, !Z.eqb_refl. cbn [andb]. intros <-. split; [done|].
      rewrite <-Hci, <-Hct, find_pending_head. cbn [mbind run_bind].
      by rewrite ac_send_nil.
Qed.

Definition last_term (term : Z) (es : list Entry) : Z := default term (entry_term <$> list.last es).

Lemma apply_entries_loop_spec es c d term results :
  entries_follow (as_applied_index (dg_apply_state d)) term es → cmds_match (dg_pending d) es →
  as_applied_index (dg_apply_state d) + Z.of_nat (length es) < u64_max →
  0 ≤ as_applied_index (dg_apply_state d) →
  let '(cbs, results', ap) := apply_all (dg_term d) (dg_apply_state d) (dg_pending d) es in
  apply_entries_loop es c d results
  = Returns (ac_push cbs c,
             dg_set_pending [] (dg_set_applied ap (last_term (dg_applied_index_term d) es) d),
             results ++ results').
Proof.
  revert c d term results. induction es as [|e es IH]; intros c d term results Hf Hm Hb H0.
  { cbn. inversion Hm as [Hq| |]; subst. rewrite ac_push_nil, app_nil_r.
    unfold last_term. cbn. destruct d; cbn in *; by subst. }
  inversion Hf as [|? ? ? ? Hi Ht Hok Hf']; subst. cbn [length] in Hb. unfold u64_max in Hb.
  cbn [apply_all apply_entries_loop].
  rewrite u64_add_small by (unfold is_u64; lia). rewrite Hi, Z.eqb_refl. cbn [rust_assert].
  rewrite (eo_normal _ Hok).
  destruct (entry_effect (dg_apply_state d) e) as [[resp res] ap] eqn:He.
  destruct (take_cmd (dg_pending d) e (bind_term resp (dg_term d))) as [mine queue] eqn:Htk.
  pose proof (handle_entry_spec c d e es queue Hok Hf' Hm) as Hh. rewrite He, Htk in Hh.
  destruct (Hh eq_refl) as [Hm' ->]. cbn [mbind run_bind].
  set (d' := dg_set_pending queue (dg_set_applied ap (entry_term e) d)).
  pose proof (entry_effect_applied _ _ _ _ _ He) as Hap.
  specialize (IH (ac_push mine c) d' (entry_term e) (push_result res results)).
  change (dg_apply_state d') with ap in IH. change (dg_pending d') with queue in IH.
  change (dg_term d') with (dg_term d) in IH. rewrite Hap in IH.
  specialize (IH Hf' Hm' ltac:(unfold u64_max; lia) ltac:(lia)).
  destruct (apply_all (dg_term d) ap queue es) as [[cbs results'] ap'].
  rewrite IH, ac_push_app. do 2 f_equal; [f_equal|].
  - unfold d', dg_set_pending, dg_set_applied. cbn. f_equal.
    unfold last_term. rewrite last_cons. by destruct (list.last es).
  - destruct res; cbn; [done|]. by rewrite <-app_assoc.
Qed.

(** ** The messages of the peer *)

Definition pending_of (p : Proposal) : PendingCmd :=
  {| pc_index := pr_index p; pc_term := pr_term p; pc_cb := pr_cb p |}.

(** The apply state with the commit position of the last of the entries. *)
Definition committed_state (s : RaftApplyState) (es : list Entry) : RaftApplyState :=
  match list.last es with
  | Some e => set_commit_state (entry_index e) (entry_term e) s
  | None => s
  end.

(** The callbacks answered, the result and the delegate after a message. *)
Definition apply_one (d : ApplyDelegate) (a : ApplyMsg) :
    list (Callback * RaftCmdResponse) * ApplyRes * ApplyDelegate :=
  let es := apply_entries a in
  let '(cbs, results, ap) :=
    apply_all (apply_term a) (committed_state (dg_apply_state d) es) (pending_of <$> apply_cbs a) es in
  let term := last_term (dg_applied_index_term d) es in
  (cbs,
   {| ares_region_id := region_id (dg_region d); ares_apply_state := ap;
      ares_applied_index_term := term; ares_exec_res := results |},
   dg_set_pending [] (dg_set_applied ap term (dg_set_term (apply_term a) d))).

(** An idle delegate, and the next message for it. *)
Record idle (d : ApplyDelegate) : Prop := {
  id_pending : dg_pending d = [];
  id_applied : 0 ≤ as_applied_index (dg_apply_state d);
  id_commit : as_commit_index (dg_apply_state d) ≤ as_applied_index (dg_apply_state d);
  id_term : as_commit_term (dg_apply_state d) ≤ dg_applied_index_term d }.

Record apply_msg_ok (d : ApplyDelegate) (a : ApplyMsg) : Prop := {
  am_entries : apply_entries a ≠ [];
  am_follow : entries_follow (as_applied_index (dg_apply_state d)) (dg_applied_index_term d)
                (apply_entries a);
  am_cmds : cmds_match (pending_of <$> apply_cbs a) (apply_entries a);
  am_bound : as_applied_index (dg_apply_state d) + Z.of_nat (length (apply_entries a)) < u64_max }.

Lemma entries_follow_last index term es e :
  entries_follow index term es → list.last es = Some e →
  entry_index e = index + Z.of_nat (length es) ∧ term ≤ entry_term e.
Proof.
  intros Hf. induction Hf as [|index term x es Hi Ht Hok Hf IH]; intros Hl; [done|].
  rewrite last_cons in Hl. destruct (list.last es) as [y|] eqn:Hy.
  - injection Hl as ->. destruct (IH eq_refl) as [-> ?]. cbn [length]. lia.
  - apply last_None in Hy as ->. injection Hl as ->. cbn [length]. lia.
Qed.

Lemma append_proposal_spec props d :
  dg_pending d = [] → append_proposal props d = dg_set_pending (pending_of <$> props) d.
Proof.
  intros Hd. unfold append_proposal. f_equal. rewrite Hd.
  change (pending_of <$> props) with ([] ++ (pending_of <$> props)). generalize (@nil PendingCmd).
  induction props as [|p props IH]; intros q; cbn; [by rewrite app_nil_r|].
  rewrite IH. unfold append_normal. by rewrite <-app_assoc.
Qed.

Definition ac_finish (cbs : list (Callback * RaftCmdResponse)) (res : ApplyRes) (n : Z)
    (d : ApplyDelegate) (c : ApplyContext) : ApplyContext :=
  {| ac_timer := true; ac_engine := ac_engine c;
     ac_applied_batch := ac_applied_batch c ++ cbs; ac_apply_res := ac_apply_res c ++ [res];
     ac_kv_wb := write_apply_state d (ac_kv_wb c);
     ac_committed_count := ac_committed_count c + n; ac_sent := ac_sent c;
     ac_notified := ac_notified c |}.

Lemma handle_apply_spec c d a :
  idle d → apply_msg_ok d a →
  let '(cbs, res, d') := apply_one d a in
  handle_apply c d a
  = Returns (ac_finish cbs res (Z.of_nat (length (apply_entries a))) d' c, d').
Proof.
  intros Hid [Hne Hf Hm Hb]. unfold handle_apply, apply_one, committed_state.
  destruct (list.last (apply_entries a)) as [e|] eqn:Hl; [|by apply last_None in Hl].
  destruct (entries_follow_last _ _ _ _ Hf Hl) as [Hi Ht].
  pose proof (id_commit _ Hid). pose proof (id_term _ Hid).
  change (dg_apply_state (dg_set_term (apply_term a) d)) with (dg_apply_state d).
  rewrite !(proj2 (Z.ltb_ge _ _)) by lia. cbn [orb negb rust_assert].
  rewrite append_proposal_spec by apply Hid.
  set (d1 := dg_set_pending _ _).
  unfold handle_raft_committed_entries. destruct (apply_entries a) as [|x es] eqn:Hes; [done|].
  rewrite <-Hes in *.
  pose proof (apply_entries_loop_spec (apply_entries a)
    (ac_count (Z.of_nat (length (apply_entries a))) (ac_start_timer c)) d1
    (dg_applied_index_term d) [] Hf Hm Hb (id_applied _ Hid)) as Hloop.
  change (dg_term d1) with (apply_term a) in Hloop.
  change (dg_pending d1) with (pending_of <$> apply_cbs a) in Hloop.
  change (dg_apply_state d1)
    with (set_commit_state (entry_index e) (entry_term e) (dg_apply_state d)) in Hloop.
  destruct (apply_all _ _ _ _) as [[cbs results] ap]. rewrite Hloop. done.
Qed.

Lemma apply_all_applied current ap queue es cbs results ap' :
  apply_all current ap queue es = (cbs, results, ap') →
  as_applied_index ap' = default (as_applied_index ap) (entry_index <$> list.last es).
Proof.
  revert ap queue cbs results ap'. induction es as [|e es IH]; intros ap queue cbs results ap' H.
  { cbn in H. by injection H as <- <- <-. }
  cbn [apply_all] in H. destruct (entry_effect ap e) as [[resp res] ap1] eqn:He.
  destruct (take_cmd queue e _) as [mine q].
  destruct (apply_all current ap1 q es) as [[cbs1 results1] ap2] eqn:Ha. injection H as <- <- <-.
  apply IH in Ha. rewrite Ha, (entry_effect_applied _ _ _ _ _ He), last_cons.
  by destruct (list.last es).
Qed.

Lemma exec_admin_cmd_commit ap cmd r ap' :
  exec_admin_cmd ap cmd = (r, ap') →
  as_commit_index ap' = as_commit_index ap ∧ as_commit_term ap' = as_commit_term ap ∧
  as_applied_index ap' = as_applied_index ap.
Proof.
  unfold exec_admin_cmd, exec_compact_log, compact_raft_log. intros H.
  destruct (adm_cmd_type _); [injection H as _ <-; done|].
  repeat case_match; simplify_eq; done.
Qed.

Lemma entry_effect_commit ap e resp res ap' :
  entry_effect ap e = (resp, res, ap') →
  as_commit_index ap' = as_commit_index ap ∧ as_commit_term ap' = as_commit_term ap.
Proof.
  unfold entry_effect. intros H. repeat case_match; simplify_eq; try done;
    match goal with He : exec_admin_cmd _ _ = _ |- _ =>
      apply exec_admin_cmd_commit in He as (? & ? & ?); done end.
Qed.

Lemma apply_all_commit current ap queue es cbs results ap' :
  apply_all current ap queue es = (cbs, results, ap') →
  as_commit_index ap' = as_commit_index ap ∧ as_commit_term ap' = as_commit_term ap.
Proof.
  revert ap queue cbs results ap'. induction es as [|e es IH]; intros ap queue cbs results ap' H.
  { cbn in H. by injection H as <- <- <-. }
  cbn [apply_all] in H. destruct (entry_effect ap e) as [[resp res] ap1] eqn:He.
  destruct (take_cmd queue e _) as [mine q].
  destruct (apply_all current ap1 q es) as [[cbs1 results1] ap2] eqn:Ha. injection H as <- <- <-.
  apply IH in Ha as [-> ->]. by eapply entry_effect_commit.
Qed.

Lemma apply_one_idle d a cbs res d' :
  idle d → apply_msg_ok d a → apply_one d a = (cbs, res, d') →
  idle d' ∧ ares_apply_state res = dg_apply_state d' ∧
  dg_region d' = dg_region d ∧
  as_applied_index (dg_apply_state d')
  = as_applied_index (dg_apply_state d) + Z.of_nat (length (apply_entries a)) ∧
  as_commit_index (dg_apply_state d') = as_applied_index (dg_apply_state d').
Proof.
  intros Hid [Hne Hf Hm Hb] H. unfold apply_one, committed_state, last_term in H.
  destruct (list.last (apply_entries a)) as [e|] eqn:Hl; [|by apply last_None in Hl].
  destruct (entries_follow_last _ _ _ _ Hf Hl) as [Hi Ht].
  destruct (apply_all _ _ _ _) as [[cbs1 results] ap] eqn:Ha. injection H as <- <- <-.
  pose proof (apply_all_applied _ _ _ _ _ _ _ Ha) as Hap. rewrite Hl in Hap. cbn in Hap.
  apply apply_all_commit in Ha as [Hc Hct]. cbn in Hc, Hct.
  pose proof (id_applied _ Hid). cbn. split_and!; [|done|done|lia|lia].
  split; cbn; [done|lia|lia|lia].
Qed.

(** *** The answers *)

(** What the callback of a pending command gets: the response to the command of
    its entry. *)
Definition answered (current : Z) (es : list Entry) (cmd : PendingCmd)
    (answer : Callback * RaftCmdResponse) : Prop :=
  answer.1 = pc_cb cmd ∧
  ∃ e req, e ∈ es ∧ entry_index e = pc_index cmd ∧ entry_term e = pc_term cmd ∧
    parse_from_bytes (entry_data e) = Some req ∧
    (rc_admin_request req = None →
     answer.2 = bind_term (write_resp (pc_index cmd) req) current).

Lemma answered_cons current e es cmd answer :
  answered current es cmd answer → answered current (e :: es) cmd answer.
Proof.
  intros (Hcb & x & req & Hx & H). split; [done|]. exists x, req. split; [by right|done].
Qed.

Lemma entry_effect_write ap e req :
  parse_from_bytes (entry_data e) = Some req → entry_data e ≠ [] → rc_admin_request req = None →
  (entry_effect ap e).1.1 = write_resp (entry_index e) req.
Proof.
  intros Hp Hne Hadm. unfold entry_effect. destruct (entry_data e) eqn:Hd; [done|].
  by rewrite Hp, Hadm.
Qed.

Lemma apply_all_answers current ap queue es index term :
  entries_follow index term es → cmds_match queue es →
  Forall2 (answered current es) queue (apply_all current ap queue es).1.1.
Proof.
  intros Hf Hm. revert ap index term Hf.
  induction Hm as [|e queue es Hm IH|cmd e queue es Hi Ht Hne Hm IH]; intros ap index term Hf.
  - constructor.
  - inversion Hf as [|? ? ? ? _ _ Hok Hf']; subst. cbn [apply_all].
    destruct (entry_effect ap e) as [[resp res] ap1] eqn:He.
    rewrite (take_cmd_skip _ _ _ _ Hm Hf'). specialize (IH ap1 _ _ Hf').
    destruct (apply_all current ap1 queue es) as [[cbs results] ap2]. cbn in *.
    eapply Forall2_impl; [|exact IH]. intros. by apply answered_cons.
  - inversion Hf as [|? ? ? ? _ _ Hok Hf']; subst. cbn [apply_all].
    destruct (entry_effect ap e) as [[resp res] ap1] eqn:He.
    cbn [take_cmd]. rewrite Hi, Ht, !Z.eqb_refl. cbn [andb]. specialize (IH ap1 _ _ Hf').
    destruct (apply_all current ap1 queue es) as [[cbs results] ap2]. cbn in *.
    destruct (eo_data _ Hok Hne) as (req & Hp & _). constructor.
    + split; [done|]. exists e, req. split_and!; [apply list_elem_of_here|done|done|done|].
      intros Hadm. cbn. rewrite Hi. f_equal.
      rewrite <-(entry_effect_write ap e req Hp Hne Hadm), He. done.
    + eapply Forall2_impl; [|exact IH]. intros. by apply answered_cons.
Qed.

(** *** A turn of the poller *)

Fixpoint apply_many (d : ApplyDelegate) (applies : list ApplyMsg) :
    list (Callback * RaftCmdResponse) * list ApplyRes * ApplyDelegate :=
  match applies with
  | [] => ([], [], d)
  | a :: applies =>
      let '(cbs, res, d) := apply_one d a in
      let '(cbs', ress, d) := apply_many d applies in
      (cbs ++ cbs', res :: ress, d)
  end.

Inductive tasks_ok : ApplyDelegate → list ApplyMsg → Prop :=
| tasks_ok_nil d : tasks_ok d []
| tasks_ok_cons d a applies :
    apply_msg_ok d a → tasks_ok (apply_one d a).2 applies → tasks_ok d (a :: applies).

Abbreviation state_key d := (apply_state_key (region_id (dg_region d))).

Lemma db_get_write_apply_state engine wb d :
  db_get (write_opt engine (write_apply_state d wb)) CF_RAFT (state_key d)
  = Some (write_to_bytes (dg_apply_state d)).
Proof.
  unfold write_opt, write_apply_state, wb_put_msg_cf, wb_put_cf. rewrite db_get_write.
  cbn [wb_record wb_ops]. rewrite ops_get_app. cbn [ops_get foldl op_key op_value].
  by rewrite decide_True.
Qed.

Lemma handle_tasks_spec applies c d :
  idle d → tasks_ok d applies →
  let '(cbs, ress, d') := apply_many d applies in
  idle d' ∧ dg_region d' = dg_region d ∧
  ∃ c', handle_tasks (Msg_Apply <$> applies) c d = Returns (c', d') ∧
    ac_engine c' = ac_engine c ∧ ac_applied_batch c' = ac_applied_batch c ++ cbs ∧
    ac_apply_res c' = ac_apply_res c ++ ress ∧ ac_sent c' = ac_sent c ∧
    ac_notified c' = ac_notified c ∧
    (applies = [] ∧ c' = c ∨
     ac_timer c' = true ∧ ∃ wb, ac_kv_wb c' = write_apply_state d' wb).
Proof.
  intros Hid Hok. revert c Hid. induction Hok as [d|d a applies Ha Hok IH]; intros c Hid.
  { split; [done|]. split; [done|]. exists c. cbn. rewrite !app_nil_r. split_and!; try done. by left. }
  cbn [apply_many]. pose proof (handle_apply_spec c d a Hid Ha) as Hh.
  destruct (apply_one d a) as [[cbs res] d1] eqn:H1.
  destruct (apply_one_idle _ _ _ _ _ Hid Ha H1) as (Hid1 & _ & Hreg & _).
  set (c1 := ac_finish _ _ _ _ c) in Hh. specialize (IH c1 Hid1). cbn [snd] in IH.
  destruct (apply_many d1 applies) as [[cbs' ress] d2]. cbn [fmap list_fmap handle_tasks].
  destruct IH as (Hid2 & Hreg2 & c2 & Hc2 & He & Hb & Hr & Hs & Hn & Hor).
  split; [done|]. split; [congruence|]. exists c2. rewrite Hh. cbn [mbind run_bind].
  rewrite Hb, Hr. cbn [c1 ac_finish ac_applied_batch ac_apply_res]. rewrite <-!app_assoc.
  split_and!; [done..|]. right. destruct Hor as [[-> ->]|Hor]; [|done].
  cbn in Hc2. injection Hc2 as <-. split; [done|]. by eexists.
Qed.

Lemma write_to_db_nonempty d wb : wb_is_empty (write_apply_state d wb) = false.
Proof.
  unfold write_apply_state, wb_put_msg_cf, wb_put_cf, wb_record, wb_is_empty, wb_count. cbn.
  rewrite length_app. cbn. apply Nat.eqb_neq. lia.
Qed.

Lemma invoke_all_app cbs cbs' :
  invoke_all (cbs ++ cbs') = (sent ← invoke_all cbs; rest ← invoke_all cbs'; Returns (sent ++ rest)).
Proof.
  induction cbs as [|[cb resp] cbs IH]; cbn; [by destruct (invoke_all cbs')|].
  destruct (invoke_with_response cb resp) as [s|]; [|done]. cbn. rewrite IH.
  destruct (invoke_all cbs); [|done]. cbn. destruct (invoke_all cbs'); [|done]. cbn.
  by rewrite app_assoc.
Qed.

Lemma poll_once_spec applies c d sent :
  idle d → tasks_ok d applies → applies ≠ [] → ac_applied_batch c = [] → ac_apply_res c = [] →
  let '(cbs, ress, d') := apply_many d applies in
  invoke_all cbs = Returns sent →
  ∃ c', poll_once (Msg_Apply <$> applies) c d = Returns (c', dg_set_flushed d') ∧
    ac_sent c' = ac_sent c ++ sent ∧ ac_notified c' = ac_notified c ++ ress ∧
    ac_applied_batch c' = [] ∧ ac_apply_res c' = [] ∧
    db_get (ac_engine c') CF_RAFT (state_key d) = Some (write_to_bytes (dg_apply_state d')) ∧
    idle d'.
Proof.
  intros Hid Hok Hne Hb0 Hr0. pose proof (handle_tasks_spec applies c d Hid Hok) as Ht.
  destruct (apply_many d applies) as [[cbs ress] d'].
  destruct Ht as (Hid' & Hreg & c1 & Hc1 & He & Hb & Hr & Hs & Hn & [[? ?]|[Htm [wb Hwb]]]); [done|].
  intros Hinv. unfold poll_once. rewrite Hc1. cbn [mbind run_bind]. unfold flush. rewrite Htm.
  unfold write_to_db. rewrite Hwb, write_to_db_nonempty, Hb, Hb0. cbn [app]. rewrite Hinv.
  cbn [mbind run_bind]. eexists. split; [done|]. cbn [ac_sent ac_notified ac_applied_batch
    ac_apply_res ac_engine]. rewrite Hs, Hn, Hr, Hr0, He, <-Hreg.
  split_and!; try done. apply db_get_write_apply_state.
Qed.

(** *** Progress of the apply state *)

Section progress.
Context (L : gmap Z Entry).

(** The compaction asked for by an entry names an entry of the log. *)
Definition compact_ok (e : Entry) : Prop :=
  ∀ (cmd : RaftCmdRequest) admin,
    parse_from_bytes (entry_data e) = Some cmd → rc_admin_request cmd = Some admin →
    adm_cmd_type admin = CompactLog →
    let r := get_or_default (adm_compact_log admin) in
    entry_term <$> L !! compact_index r = Some (compact_term r).

(** The truncated state moves forward to an entry of the log that is applied. *)
Definition truncation_ok (ap ap' : RaftApplyState) : Prop :=
  get_truncated_state ap' = get_truncated_state ap ∨
  ts_index (get_truncated_state ap) < ts_index (get_truncated_state ap') < as_applied_index ap' ∧
  entry_term <$> L !! ts_index (get_truncated_state ap') = Some (ts_term (get_truncated_state ap')).

Lemma exec_admin_truncation ap cmd r ap' e :
  exec_admin_cmd ap cmd = (r, ap') → parse_from_bytes (entry_data e) = Some cmd →
  is_Some (rc_admin_request cmd) → compact_ok e →
  0 ≤ ts_index (get_truncated_state ap) < u64_max → as_applied_index ap < entry_index e →
  truncation_ok ap (set_applied_index (entry_index e) ap').
Proof.
  intros H Hp [admin Hadm] Hok Hb Hlt. specialize (Hok cmd admin Hp Hadm).
  unfold exec_admin_cmd in H. rewrite Hadm in H. cbn [get_or_default] in H.
  destruct (adm_cmd_type admin); [injection H as _ <-; by left|]. specialize (Hok eq_refl).
  unfold exec_compact_log, compact_raft_log, first_index in H. unfold u64_max in Hb.
  rewrite u64_add_small in H by (unfold is_u64; lia).
  destruct (Z.leb_spec (compact_index (get_or_default (adm_compact_log admin)))
    (ts_index (get_truncated_state ap) + 1)); [injection H as _ <-; by left|].
  destruct (_ =? 0); [injection H as _ <-; by left|].
  destruct (Z.leb_spec (compact_index (get_or_default (adm_compact_log admin)))
    (ts_index (get_truncated_state ap))); [injection H as _ <-; by left|].
  destruct (Z.ltb_spec (as_applied_index ap)
    (compact_index (get_or_default (adm_compact_log admin)))); [injection H as _ <-; by left|].
  injection H as _ <-. right. cbn. split; [lia|done].
Qed.

Lemma entry_effect_truncation ap e resp res ap' :
  entry_effect ap e = (resp, res, ap') → entry_ok e → compact_ok e →
  0 ≤ ts_index (get_truncated_state ap) < u64_max → as_applied_index ap < entry_index e →
  truncation_ok ap ap'.
Proof.
  intros H Hok Hc Hb Hlt. unfold entry_effect in H.
  destruct (entry_data e) as [|b data] eqn:Hd; [injection H as _ _ <-; by left|].
  destruct (eo_data _ Hok) as (cmd & Hp & _); [by rewrite Hd|]. rewrite Hd in Hp. rewrite Hp in H.
  rewrite <-Hd in Hp. destruct (rc_admin_request cmd) as [admin|] eqn:Hadm.
  - destruct (exec_admin_cmd ap cmd) as [r ap1] eqn:He.
    assert (ap' = set_applied_index (entry_index e) ap1) as ->
      by (destruct r as [[? ?]|]; by injection H as _ _ <-).
    eapply exec_admin_truncation; [done..|by eexists|done|done|done].
  - injection H as _ _ <-. by left.
Qed.

Lemma truncation_ok_trans ap1 ap2 ap3 :
  truncation_ok ap1 ap2 → truncation_ok ap2 ap3 → as_applied_index ap2 ≤ as_applied_index ap3 →
  truncation_ok ap1 ap3.
Proof.
  intros [H12|[H12 H12']] [H23|[H23 H23']] Hle; unfold truncation_ok.
  - left. congruence.
  - right. rewrite <-H12. done.
  - right. rewrite H23. split; [lia|done].
  - right. split; [lia|done].
Qed.

Lemma apply_all_truncation current ap queue es cbs results ap' term :
  apply_all current ap queue es = (cbs, results, ap') →
  entries_follow (as_applied_index ap) term es → Forall compact_ok es →
  0 ≤ ts_index (get_truncated_state ap) ≤ as_applied_index ap →
  as_applied_index ap + Z.of_nat (length es) < u64_max →
  truncation_ok ap ap'.
Proof.
  revert ap queue cbs results ap' term.
  induction es as [|e es IH]; intros ap queue cbs results ap' term H Hf Hc Htr Hb.
  { cbn in H. injection H as _ _ <-. by left. }
  inversion Hf as [|? ? ? ? Hi _ Hok Hf']; subst. apply Forall_cons_1 in Hc as [Hce Hc].
  cbn [length] in Hb. cbn [apply_all] in H.
  destruct (entry_effect ap e) as [[resp res] ap1] eqn:He.
  destruct (take_cmd queue e _) as [mine q].
  destruct (apply_all current ap1 q es) as [[cbs1 results1] ap2] eqn:Ha. injection H as _ _ <-.
  pose proof (entry_effect_truncation _ _ _ _ _ He Hok Hce ltac:(lia) ltac:(lia)) as Ht1.
  pose proof (entry_effect_applied _ _ _ _ _ He) as Hap1.
  pose proof (apply_all_applied _ _ _ _ _ _ _ Ha) as Hap2.
  assert (0 ≤ ts_index (get_truncated_state ap1) ≤ as_applied_index ap1) as Htr1
    by (destruct Ht1 as [->|[? _]]; lia).
  eapply truncation_ok_trans; [exact Ht1| |].
  - eapply IH; [exact Ha|rewrite Hap1; exact Hf'|done|done|lia].
  - rewrite Hap2. destruct (list.last es) as [x|] eqn:Hx; cbn; [|lia].
    destruct (entries_follow_last _ _ _ _ Hf' Hx). lia.
Qed.

(** The entries of a message are those of the log. *)
Definition entries_in (es : list Entry) : Prop :=
  Forall (λ e, L !! entry_index e = Some e ∧ compact_ok e) es.

Lemma apply_one_progress last d a cbs res d' :
  idle d → apply_msg_ok d a → apply_one d a = (cbs, res, d') → entries_in (apply_entries a) →
  as_applied_index (dg_apply_state d) + Z.of_nat (length (apply_entries a)) ≤ last →
  0 ≤ ts_index (get_truncated_state (dg_apply_state d)) ≤ as_applied_index (dg_apply_state d) →
  apply_progress L last (dg_apply_state d) (dg_apply_state d').
Proof.
  intros Hid Ha H1 Hin Hlast Htr. pose proof Ha as [Hne Hf Hm Hb].
  destruct (apply_one_idle _ _ _ _ _ Hid Ha H1) as (_ & _ & _ & Hap & Hcm).
  unfold apply_one, committed_state in H1.
  destruct (list.last (apply_entries a)) as [e|] eqn:Hl; [|by apply last_None in Hl].
  destruct (entries_follow_last _ _ _ _ Hf Hl) as [Hi _].
  destruct (apply_all _ _ _ _) as [[cbs1 results] ap] eqn:Hall. injection H1 as _ _ <-.
  change (dg_apply_state (dg_set_pending _ _)) with ap in *.
  assert (0 < length (apply_entries a))%nat by (destruct (apply_entries a); [done|cbn; lia]).
  pose proof (apply_all_commit _ _ _ _ _ _ _ Hall) as [Hc Hct]. cbn in Hc, Hct.
  assert (L !! entry_index e = Some e) as HLe.
  { unfold entries_in in Hin. rewrite list.Forall_forall in Hin. apply Hin.
    by apply last_Some_elem_of. }
  split; [lia|done|by rewrite Hc, Hct, HLe|].
  eapply (apply_all_truncation _ _ _ _ _ _ _ (dg_applied_index_term d) Hall); cbn;
    [exact Hf| |exact Htr|lia].
  eapply Forall_impl; [|exact Hin]. by intros x [_ ?].
Qed.
End progress.

Lemma apply_progress_trans L last ap1 ap2 ap3 :
  apply_progress L last ap1 ap2 → apply_progress L last ap2 ap3 → apply_progress L last ap1 ap3.
Proof.
  intros [? ? ? H12] [? ? ? H23]. split; [lia|done|done|].
  exact (truncation_ok_trans L ap1 ap2 ap3 H12 H23 ltac:(lia)).
Qed.

Lemma apply_many_progress L last d applies cbs ress d' :
  idle d → tasks_ok d applies → applies ≠ [] → apply_many d applies = (cbs, ress, d') →
  Forall (λ a, entries_in L (apply_entries a)) applies →
  as_applied_index (dg_apply_state d') ≤ last →
  0 ≤ ts_index (get_truncated_state (dg_apply_state d)) ≤ as_applied_index (dg_apply_state d) →
  apply_progress L last (dg_apply_state d) (dg_apply_state d').
Proof.
  intros Hid Hok. revert cbs ress d' Hid.
  induction Hok as [d|d a applies Ha Hok IH]; intros cbs ress d' Hid Hne Hm Hin Hlast Htr; [done|].
  cbn [apply_many] in Hm. destruct (apply_one d a) as [[cbs1 res] d1] eqn:H1. cbn [snd] in *.
  destruct (apply_many d1 applies) as [[cbs2 ress2] d2] eqn:H2. injection Hm as _ _ <-.
  apply Forall_cons_1 in Hin as [Hin1 Hin].
  destruct (apply_one_idle _ _ _ _ _ Hid Ha H1) as (Hid1 & _ & _ & Hap & _).
  assert (as_applied_index (dg_apply_state d1) ≤ as_applied_index (dg_apply_state d2)) as Hmono.
  { clear -H2 Hid1 Hok. revert d1 cbs2 ress2 H2 Hid1 Hok.
    induction applies as [|b applies IH]; intros d1 cbs2 ress2 H2 Hid1 Hok.
    - by injection H2 as _ _ <-.
    - cbn [apply_many] in H2. inversion Hok as [|? ? ? Hb Hok']; subst.
      destruct (apply_one d1 b) as [[c3 r3] d3] eqn:H3. cbn [snd] in *.
      destruct (apply_many d3 applies) as [[c4 r4] d4] eqn:H4. injection H2 as _ _ <-.
      destruct (apply_one_idle _ _ _ _ _ Hid1 Hb H3) as (Hid3 & _ & _ & Hap3 & _).
      specialize (IH _ _ _ H4 Hid3 Hok'). lia. }
  assert (apply_progress L last (dg_apply_state d) (dg_apply_state d1)) as Hp1
    by (eapply apply_one_progress; [done|done|exact H1|done|lia|done]).
  destruct applies as [|b applies]; [by injection H2 as _ _ <-|].
  eapply apply_progress_trans; [exact Hp1|]. eapply IH; try done.
  destruct (ag_truncated _ _ _ _ Hp1) as [->|[? _]]; lia.
Qed.

Lemma apply_many_answers d applies :
  idle d → tasks_ok d applies →
  Forall2 (λ p answer, ∃ a, a ∈ applies ∧ p ∈ apply_cbs a ∧
             answered (apply_term a) (apply_entries a) (pending_of p) answer)
    (concat (apply_cbs <$> applies)) (apply_many d applies).1.1.
Proof.
  intros Hid Hok. revert Hid. induction Hok as [d|d a applies Ha Hok IH]; intros Hid.
  { constructor. }
  cbn [apply_many fmap list_fmap concat]. destruct (apply_one d a) as [[cbs res] d1] eqn:H1.
  destruct (apply_one_idle _ _ _ _ _ Hid Ha H1) as (Hid1 & _). cbn [snd] in *.
  specialize (IH Hid1). destruct (apply_many d1 applies) as [[cbs2 ress2] d2]. cbn in *.
  apply Forall2_app.
  - unfold apply_one in H1.
    pose proof (apply_all_answers (apply_term a) (committed_state (dg_apply_state d) (apply_entries a))
      _ _ _ _ (am_follow _ _ Ha) (am_cmds _ _ Ha)) as Hans.
    destruct (apply_all _ _ _ _) as [[cbs1 results] ap]. injection H1 as <- _ _. cbn in Hans.
    rewrite Forall2_fmap_l in Hans.
    apply Forall2_same_length_lookup_2; [exact (Forall2_length Hans)|].
    intros i p ans Hp Hx. exists a. split_and!; [apply list_elem_of_here|by eapply list_elem_of_lookup_2|].
    by eapply Forall2_lookup_lr in Hans.
  - eapply Forall2_impl; [|exact IH]. intros p ans (b & ? & ? & ?). exists b.
    split_and!; [by right|done|done].
Qed.


Context `{!ProtoMessage Entry, !ProtoMessage RaftLocalState}.

(** C31. What the apply worker writes is a step of the storage of the peer: the
    recovery theorems of the storage hold whenever it stops. *)
Theorem apply_worker_steps p applies c d sent :
  dg_apply_state d = pt_apply p → dg_region d = ps_region (pt_storage p) →
  idle d → tasks_ok d applies → applies ≠ [] → ac_applied_batch c = [] → ac_apply_res c = [] →
  Forall (λ a, entries_in (pt_log p) (apply_entries a)) applies →
  0 ≤ ts_index (get_truncated_state (pt_apply p)) ≤ as_applied_index (pt_apply p) →
  let '(answers, ress, d') := apply_many d applies in
  as_applied_index (dg_apply_state d') ≤ storage_last_index (pt_storage p) →
  invoke_all answers = Returns sent →
  ∃ c', poll_once (Msg_Apply <$> applies) c d = Returns (c', dg_set_flushed d') ∧
    storage_step p
      {| pt_engines := {| kv := ac_engine c'; raft := raft (pt_engines p) |};
         pt_storage := pt_storage p; pt_log := pt_log p; pt_apply := dg_apply_state d' |}.
Proof.
  intros Hap Hreg Hid Hok Hne Hb Hr Hin Htr.
  pose proof (poll_once_spec applies c d sent Hid Hok Hne Hb Hr) as H.
  destruct (apply_many d applies) as [[answers ress] d'] eqn:Hm. intros Hlast Hinv.
  destruct (H Hinv) as (c' & ? & _ & _ & _ & _ & Hdb & _). exists c'. split; [done|].
  destruct p as [e s L ap]. cbn in *. apply step_apply.
  - rewrite <-Hap. eapply apply_many_progress; try done. by rewrite Hap.
  - rewrite Hreg in Hdb. exact Hdb.
Qed.
End apply_spec.

(** ** A concrete batch *)

Module apply_demo.
Global Instance fmt : DebugFmt Error := λ _, "error".
Definition req (payload : bytes) : Request :=
  {| req_cmd_type := MessageQueue;
     req_message_queue := Some {| mq_context := None; mq_payload := payload |} |}.
Definition cmd : RaftCmdRequest :=
  {| rc_header := Some default_instance; rc_requests := [req []; req []];
     rc_admin_request := None; rc_status_request := None |}.
Definition e6 : Entry := demo.en 6 6.
Definition e7 : Entry :=
  {| entry_type := EntryNormal; entry_term := 6; entry_index := 7; entry_data := write_to_bytes cmd;
     entry_context := []; entry_sync_log := false |}.
Definition log : gmap Z Entry := log_put [e6; e7] ∅.
Definition d : ApplyDelegate :=
  {| dg_id := 1; dg_term := 6; dg_region := demo.region; dg_pending := [];
     dg_apply_state := initial_apply_state; dg_applied_index_term := 5; dg_last_flush := 5 |}.
Definition proposal : Proposal :=
  {| pr_is_conf_change := false; pr_index := 7; pr_term := 6; pr_cb := write (Channel 1);
     pr_propose_time := None; pr_must_pass_epoch_check := true |}.
Definition msg : ApplyMsg :=
  {| apply_peer_id := 1; apply_region_id := 1; apply_term := 6; apply_entries := [e6; e7];
     apply_cbs := [proposal] |}.
Definition c : ApplyContext := apply_context_new (kv demo.e1).
Definition p : PeerState :=
  {| pt_engines := demo.e1; pt_storage := demo.s1; pt_log := log;
     pt_apply := initial_apply_state |}.
Definition sent : list Sent :=
  [SentResponse 1 (bind_term (write_resp 7 cmd) 6)].

Lemma idle_d : idle d.
Proof. by split. Qed.

Lemma ok : tasks_ok d [msg].
Proof.
  constructor; [|constructor]. split; [done| | |done].
  - constructor; [done|done| |constructor; [done|done| |constructor]].
    + by split.
    + split; [done|done|done|]. intros _. exists cmd. split; [by apply parse_write|done].
  - apply cmds_match_skip, cmds_match_take; [done|done|done|constructor].
Qed.

Lemma demo_answers : invoke_all (apply_many d [msg]).1.1 = Returns sent.
Proof. reflexivity. Qed.

Lemma in_log : Forall (λ a, entries_in log (apply_entries a)) [msg].
Proof.
  repeat constructor; intros cmd' admin Hp Hadm.
  - vm_compute in Hp. done.
  - change (entry_data e7) with (write_to_bytes cmd) in Hp. rewrite parse_write in Hp.
    injection Hp as <-. done.
Qed.
End apply_demo.


Lemma apply_worker_steps_witness :
  ∃ c' d', poll_once [Msg_Apply apply_demo.msg] apply_demo.c apply_demo.d = Returns (c', d') ∧
    storage_step apply_demo.p
      {| pt_engines := {| kv := ac_engine c'; raft := raft demo.e1 |};
         pt_storage := demo.s1; pt_log := apply_demo.log;
         pt_apply := dg_apply_state (apply_many apply_demo.d [apply_demo.msg]).2 |}.
Proof.
  destruct (apply_worker_steps apply_demo.p [apply_demo.msg] apply_demo.c apply_demo.d
    apply_demo.sent eq_refl eq_refl apply_demo.idle_d apply_demo.ok ltac:(done) eq_refl eq_refl
    apply_demo.in_log ltac:(done) ltac:(done) apply_demo.demo_answers) as (c' & Hc' & Hs).
  exists c', (dg_set_flushed (apply_many apply_demo.d [apply_demo.msg]).2). by split.
Defined.
