(* ===== verification/Peer.v ===== *)
(** * peer.rs and the poller of store.rs

    The state machine of a raft peer: commands are batched and proposed, the
    [Ready] of raft-rs is persisted, committed entries are handed to the apply
    worker with the callbacks of their proposals, and the log is compacted.
    raft-rs itself ([RawNode]) is a parameter. *)

From stdpp Require Import pretty.
From S2P Require Import Prelude Bytes Keys Proto Raftpb Errors RocksEngine RaftLog PeerStorage.
From S2P Require Import RaftCmd Batch Apply.
Local Open Scope Z_scope.

(** ** raft-rs *)

Inductive MessageType := MsgReadIndex | MsgTransferLeader | MsgOther.

(** What the code reads of a [Ready] and of a [LightReady]; [M] is a raft message,
    and the soft state is whether the node leads and the leader's id. *)
Record RaftReady (M : Type) := {
  rdy_number : Z;
  rdy_must_sync : bool;
  rdy_ready : Ready;
  rdy_ss : option (bool * Z);
  rdy_snapshot_empty : bool;
  rdy_messages : list M;
  rdy_persisted_messages : list M;
  rdy_committed_entries : list Entry }.
Global Arguments rdy_number {M}.
Global Arguments rdy_must_sync {M}.
Global Arguments rdy_ready {M}.
Global Arguments rdy_ss {M}.
Global Arguments rdy_snapshot_empty {M}.
Global Arguments rdy_messages {M}.
Global Arguments rdy_persisted_messages {M}.
Global Arguments rdy_committed_entries {M}.
Record LightReady (M : Type) := {
  lrd_commit_index : option Z;
  lrd_messages : list M;
  lrd_committed_entries : list Entry }.
Global Arguments lrd_commit_index {M}.
Global Arguments lrd_messages {M}.
Global Arguments lrd_committed_entries {M}.

(** The operations of [RawNode]; those that may read the log also take the
    storage, which the node owns in the code. *)
Class RawNode {R : RocksDB} := {
  Node : Type;
  Message : Type;
  msg_to : Message → Z;
  msg_type : Message → MessageType;
  node_new : Z → Z → Engines → PeerStorage → result string Node;
  node_term : Node → Z;
  node_leader_id : Node → Z;
  node_is_leader : Node → bool;
  node_last_index : Node → Z;
  node_log_term : Node → Engines → PeerStorage → Z → result string Z;
  node_matched : Node → list Z;
  node_propose : Node → bytes → result string unit * Node;
  node_step : Node → Engines → PeerStorage → Message → result string unit * Node;
  node_tick : Node → bool * Node;
  node_campaign : Node → result string unit * Node;
  node_skip_bcast_commit : Node → bool → Node;
  node_ready : Node → Engines → PeerStorage → RaftReady Message * Node;
  node_advance_append :
    Node → Engines → PeerStorage → RaftReady Message → LightReady Message * Node;
  node_advance_apply_to : Node → Z → Node }.

(** ** The proposals *)

Definition pop_proposal (queue : list Proposal) (term index : Z) : option Proposal :=
  match queue with
  | [] => None
  | p :: _ => if position_gt (pr_term p) (pr_index p) term index then None else Some p
  end.

Section proposals.
Context `{!DebugFmt Error}.

(** The proposal at a position; those before it are answered as stale. *)
Fixpoint find_proposal (queue : list Proposal) (term index current_term : Z) :
    run (option Proposal * list Proposal * list Sent) :=
  match queue with
  | [] => Returns (None, [], [])
  | _ :: rest =>
      match pop_proposal queue term index with
      | None => Returns (None, queue, [])
      | Some p =>
          if pr_term p =? term then
            if pr_index p =? index
            then Returns (if is_none (pr_cb p) then None else Some p, rest, [])
            else Panics
          else
            sent ← notify_stale_req current_term (pr_cb p);
            '(found, queue, sent') ← find_proposal rest term index current_term;
            Returns (found, queue, sent ++ sent')
      end
  end.

Definition push_proposal (queue : list Proposal) (p : Proposal) : run (list Proposal) :=
  match list.last queue with
  | Some f => rust_assert (position_gt (pr_term p) (pr_index p) (pr_term f) (pr_index f))
                (Returns (queue ++ [p]))
  | None => Returns [p]
  end.

(** The proposals behind the committed entries: the loop over the entries. *)
Definition commit_proposal (p : Proposal) : Proposal * list Sent :=
  if pr_must_pass_epoch_check p then
    let '(cb, sent) := invoke_committed (pr_cb p) in
    ({| pr_is_conf_change := pr_is_conf_change p; pr_index := pr_index p; pr_term := pr_term p;
        pr_cb := cb; pr_propose_time := pr_propose_time p;
        pr_must_pass_epoch_check := pr_must_pass_epoch_check p |}, sent)
  else (p, []).
Fixpoint find_proposals (queue : list Proposal) (entries : list Entry) (current_term : Z) :
    run (list Proposal * list Proposal * list Sent) :=
  match entries with
  | [] => Returns ([], queue, [])
  | e :: entries =>
      '(found, queue, sent) ← find_proposal queue (entry_term e) (entry_index e) current_term;
      let '(cbs, committed) :=
        match found with
        | Some p => let '(p, sent) := commit_proposal p in ([p], sent)
        | None => ([], [])
        end in
      '(cbs', queue, sent') ← find_proposals queue entries current_term;
      Returns (cbs ++ cbs', queue, sent ++ committed ++ sent')
  end.
End proposals.

(** ** The state of the poller *)

Record Peer `{RN : RawNode} := {
  p_region_id : Z;
  p_peer : metapb_Peer;
  p_node : Node;
  p_store : PeerStorage;
  p_peer_cache : gmap Z metapb_Peer;
  p_proposals : list Proposal;
  p_last_applying_idx : Z;
  p_last_compacted_idx : Z;
  p_last_urgent_proposal_idx : Z;
  p_last_unpersisted_number : Z }.

(** [PeerTicks], a set of bits: the raft tick and the log collection tick. *)
Inductive PeerTick := RAFT | RAFT_LOG_GC.
Record PeerTicks := { tick_raft : bool; tick_raft_log_gc : bool }.
Definition ticks_contains (ts : PeerTicks) (t : PeerTick) : bool :=
  match t with RAFT => tick_raft ts | RAFT_LOG_GC => tick_raft_log_gc ts end.
Definition ticks_set (t : PeerTick) (b : bool) (ts : PeerTicks) : PeerTicks :=
  match t with
  | RAFT => {| tick_raft := b; tick_raft_log_gc := tick_raft_log_gc ts |}
  | RAFT_LOG_GC => {| tick_raft := tick_raft ts; tick_raft_log_gc := b |}
  end.

Record GcTask := { gc_region_id : Z; gc_start_idx : Z; gc_end_idx : Z }.
Record RaftMessage `{RN : RawNode} := {
  rm_region_id : Z; rm_from_peer : metapb_Peer; rm_to_peer : metapb_Peer; rm_message : Message }.

Record CollectedReady `{RN : RawNode} := {
  cr_ctx : InvokeContext; cr_ready : RaftReady Message }.

Record PeerFsm `{RN : RawNode} := {
  f_peer : Peer;
  f_tick_registry : PeerTicks;
  f_missing_ticks : Z;
  f_has_ready : bool;
  f_batch_req_builder : BatchRaftCmdRequestBuilder }.

(** [PollContext]; the channels it sends to are lists of what was sent. *)
Record PollContext `{RN : RawNode} := {
  x_engines : Engines;
  x_raft_wb : RocksWriteBatch;
  x_has_ready : bool;
  x_ready_res : list CollectedReady;
  x_current_time : option Z;
  x_now : Z;
  x_ticks : list PeerTick;
  x_apply : list ApplyMsg;
  x_gc : list GcTask;
  x_trans : list RaftMessage;
  x_sent : list Sent }.

Inductive PeerMsg `{RN : RawNode} :=
| PeerMsg_RaftMessage (msg : RaftMessage)
| PeerMsg_RaftCommand (cmd : RaftCommand)
| PeerMsg_Tick (tick : PeerTick)
| PeerMsg_ApplyRes (res : ApplyRes)
| PeerMsg_Start.

(** ** The poller as a state monad *)
Section peer.
Context {R : RocksDB} {RN : RawNode}.
Context `{!ProtoMessage Entry, !ProtoMessage RaftLocalState, !ProtoMessage RaftApplyState}.
Context `{!ProtoMessage RegionLocalState, !ProtoMessage StoreIdent, !ProtoMessage RaftCmdRequest}.
Context `{!DebugFmt Error}.

Definition set_p_node (v : Node) (r : Peer) : Peer :=
  {| p_region_id := p_region_id r; p_peer := p_peer r; p_node := v; p_store := p_store r;
     p_peer_cache := p_peer_cache r; p_proposals := p_proposals r;
     p_last_applying_idx := p_last_applying_idx r;
     p_last_compacted_idx := p_last_compacted_idx r;
     p_last_urgent_proposal_idx := p_last_urgent_proposal_idx r;
     p_last_unpersisted_number := p_last_unpersisted_number r |}.
Definition set_p_store (v : PeerStorage) (r : Peer) : Peer :=
  {| p_region_id := p_region_id r; p_peer := p_peer r; p_node := p_node r; p_store := v;
     p_peer_cache := p_peer_cache r; p_proposals := p_proposals r;
     p_last_applying_idx := p_last_applying_idx r;
     p_last_compacted_idx := p_last_compacted_idx r;
     p_last_urgent_proposal_idx := p_last_urgent_proposal_idx r;
     p_last_unpersisted_number := p_last_unpersisted_number r |}.
Definition set_p_peer_cache (v : gmap Z metapb_Peer) (r : Peer) : Peer :=
  {| p_region_id := p_region_id r; p_peer := p_peer r; p_node := p_node r;
     p_store := p_store r; p_peer_cache := v; p_proposals := p_proposals r;
     p_last_applying_idx := p_last_applying_idx r;
     p_last_compacted_idx := p_last_compacted_idx r;
     p_last_urgent_proposal_idx := p_last_urgent_proposal_idx r;
     p_last_unpersisted_number := p_last_unpersisted_number r |}.
Definition set_p_proposals (v : list Proposal) (r : Peer) : Peer :=
  {| p_region_id := p_region_id r; p_peer := p_peer r; p_node := p_node r;
     p_store := p_store r; p_peer_cache := p_peer_cache r; p_proposals := v;
     p_last_applying_idx := p_last_applying_idx r;
     p_last_compacted_idx := p_last_compacted_idx r;
     p_last_urgent_proposal_idx := p_last_urgent_proposal_idx r;
     p_last_unpersisted_number := p_last_unpersisted_number r |}.
Definition set_p_last_applying_idx (v : Z) (r : Peer) : Peer :=
  {| p_region_id := p_region_id r; p_peer := p_peer r; p_node := p_node r;
     p_store := p_store r; p_peer_cache := p_peer_cache r; p_proposals := p_proposals r;
     p_last_applying_idx := v; p_last_compacted_idx := p_last_compacted_idx r;
     p_last_urgent_proposal_idx := p_last_urgent_proposal_idx r;
     p_last_unpersisted_number := p_last_unpersisted_number r |}.
Definition set_p_last_compacted_idx (v : Z) (r : Peer) : Peer :=
  {| p_region_id := p_region_id r; p_peer := p_peer r; p_node := p_node r;
     p_store := p_store r; p_peer_cache := p_peer_cache r; p_proposals := p_proposals r;
     p_last_applying_idx := p_last_applying_idx r; p_last_compacted_idx := v;
     p_last_urgent_proposal_idx := p_last_urgent_proposal_idx r;
     p_last_unpersisted_number := p_last_unpersisted_number r |}.
Definition set_p_last_urgent_proposal_idx (v : Z) (r : Peer) : Peer :=
  {| p_region_id := p_region_id r; p_peer := p_peer r; p_node := p_node r;
     p_store := p_store r; p_peer_cache := p_peer_cache r; p_proposals := p_proposals r;
     p_last_applying_idx := p_last_applying_idx r;
     p_last_compacted_idx := p_last_compacted_idx r; p_last_urgent_proposal_idx := v;
     p_last_unpersisted_number := p_last_unpersisted_number r |}.
Definition set_p_last_unpersisted_number (v : Z) (r : Peer) : Peer :=
  {| p_region_id := p_region_id r; p_peer := p_peer r; p_node := p_node r;
     p_store := p_store r; p_peer_cache := p_peer_cache r; p_proposals := p_proposals r;
     p_last_applying_idx := p_last_applying_idx r;
     p_last_compacted_idx := p_last_compacted_idx r;
     p_last_urgent_proposal_idx := p_last_urgent_proposal_idx r;
     p_last_unpersisted_number := v |}.

Definition set_f_peer (v : Peer) (r : PeerFsm) : PeerFsm :=
  {| f_peer := v; f_tick_registry := f_tick_registry r; f_missing_ticks := f_missing_ticks r;
     f_has_ready := f_has_ready r; f_batch_req_builder := f_batch_req_builder r |}.
Definition set_f_tick_registry (v : PeerTicks) (r : PeerFsm) : PeerFsm :=
  {| f_peer := f_peer r; f_tick_registry := v; f_missing_ticks := f_missing_ticks r;
     f_has_ready := f_has_ready r; f_batch_req_builder := f_batch_req_builder r |}.
Definition set_f_missing_ticks (v : Z) (r : PeerFsm) : PeerFsm :=
  {| f_peer := f_peer r; f_tick_registry := f_tick_registry r; f_missing_ticks := v;
     f_has_ready := f_has_ready r; f_batch_req_builder := f_batch_req_builder r |}.
Definition set_f_has_ready (v : bool) (r : PeerFsm) : PeerFsm :=
  {| f_peer := f_peer r; f_tick_registry := f_tick_registry r;
     f_missing_ticks := f_missing_ticks r; f_has_ready := v;
     f_batch_req_builder := f_batch_req_builder r |}.
Definition set_f_batch_req_builder (v : BatchRaftCmdRequestBuilder) (r : PeerFsm) : PeerFsm :=
  {| f_peer := f_peer r; f_tick_registry := f_tick_registry r;
     f_missing_ticks := f_missing_ticks r; f_has_ready := f_has_ready r;
     f_batch_req_builder := v |}.

Definition set_x_engines (v : Engines) (r : PollContext) : PollContext :=
  {| x_engines := v; x_raft_wb := x_raft_wb r; x_has_ready := x_has_ready r;
     x_ready_res := x_ready_res r; x_current_time := x_current_time r; x_now := x_now r;
     x_ticks := x_ticks r; x_apply := x_apply r; x_gc := x_gc r; x_trans := x_trans r;
     x_sent := x_sent r |}.
Definition set_x_raft_wb (v : RocksWriteBatch) (r : PollContext) : PollContext :=
  {| x_engines := x_engines r; x_raft_wb := v; x_has_ready := x_has_ready r;
     x_ready_res := x_ready_res r; x_current_time := x_current_time r; x_now := x_now r;
     x_ticks := x_ticks r; x_apply := x_apply r; x_gc := x_gc r; x_trans := x_trans r;
     x_sent := x_sent r |}.
Definition set_x_has_ready (v : bool) (r : PollContext) : PollContext :=
  {| x_engines := x_engines r; x_raft_wb := x_raft_wb r; x_has_ready := v;
     x_ready_res := x_ready_res r; x_current_time := x_current_time r; x_now := x_now r;
     x_ticks := x_ticks r; x_apply := x_apply r; x_gc := x_gc r; x_trans := x_trans r;
     x_sent := x_sent r |}.
Definition set_x_ready_res (v : list CollectedReady) (r : PollContext) : PollContext :=
  {| x_engines := x_engines r; x_raft_wb := x_raft_wb r; x_has_ready := x_has_ready r;
     x_ready_res := v; x_current_time := x_current_time r; x_now := x_now r;
     x_ticks := x_ticks r; x_apply := x_apply r; x_gc := x_gc r; x_trans := x_trans r;
     x_sent := x_sent r |}.
Definition set_x_current_time (v : option Z) (r : PollContext) : PollContext :=
  {| x_engines := x_engines r; x_raft_wb := x_raft_wb r; x_has_ready := x_has_ready r;
     x_ready_res := x_ready_res r; x_current_time := v; x_now := x_now r; x_ticks := x_ticks r;
     x_apply := x_apply r; x_gc := x_gc r; x_trans := x_trans r; x_sent := x_sent r |}.
Definition set_x_ticks (v : list PeerTick) (r : PollContext) : PollContext :=
  {| x_engines := x_engines r; x_raft_wb := x_raft_wb r; x_has_ready := x_has_ready r;
     x_ready_res := x_ready_res r; x_current_time := x_current_time r; x_now := x_now r;
     x_ticks := v; x_apply := x_apply r; x_gc := x_gc r; x_trans := x_trans r;
     x_sent := x_sent r |}.
Definition set_x_apply (v : list ApplyMsg) (r : PollContext) : PollContext :=
  {| x_engines := x_engines r; x_raft_wb := x_raft_wb r; x_has_ready := x_has_ready r;
     x_ready_res := x_ready_res r; x_current_time := x_current_time r; x_now := x_now r;
     x_ticks := x_ticks r; x_apply := v; x_gc := x_gc r; x_trans := x_trans r;
     x_sent := x_sent r |}.
Definition set_x_gc (v : list GcTask) (r : PollContext) : PollContext :=
  {| x_engines := x_engines r; x_raft_wb := x_raft_wb r; x_has_ready := x_has_ready r;
     x_ready_res := x_ready_res r; x_current_time := x_current_time r; x_now := x_now r;
     x_ticks := x_ticks r; x_apply := x_apply r; x_gc := v; x_trans := x_trans r;
     x_sent := x_sent r |}.
Definition set_x_trans (v : list RaftMessage) (r : PollContext) : PollContext :=
  {| x_engines := x_engines r; x_raft_wb := x_raft_wb r; x_has_ready := x_has_ready r;
     x_ready_res := x_ready_res r; x_current_time := x_current_time r; x_now := x_now r;
     x_ticks := x_ticks r; x_apply := x_apply r; x_gc := x_gc r; x_trans := v;
     x_sent := x_sent r |}.
Definition set_x_sent (v : list Sent) (r : PollContext) : PollContext :=
  {| x_engines := x_engines r; x_raft_wb := x_raft_wb r; x_has_ready := x_has_ready r;
     x_ready_res := x_ready_res r; x_current_time := x_current_time r; x_now := x_now r;
     x_ticks := x_ticks r; x_apply := x_apply r; x_gc := x_gc r; x_trans := x_trans r;
     x_sent := v |}.

Definition poll (A : Type) : Type := PeerFsm * PollContext → run (A * (PeerFsm * PollContext)).
Global Instance poll_ret : MRet poll := λ A a st, Returns (a, st).
Global Instance poll_bind : MBind poll := λ A B f m st, '(a, st) ← m st; f a st.
Definition lift {A} (m : run A) : poll A := λ st, a ← m; Returns (a, st).
Definition panics {A} : poll A := λ _, Panics.
Definition assert_that (b : bool) : poll unit := λ st, rust_assert b (Returns (tt, st)).
Definition get_fsm {A} (f : PeerFsm → A) : poll A := λ st, Returns (f st.1, st).
Definition get_peer {A} (f : Peer → A) : poll A := get_fsm (λ r, f (f_peer r)).
Definition get_ctx {A} (f : PollContext → A) : poll A := λ st, Returns (f st.2, st).
Definition mod_fsm (f : PeerFsm → PeerFsm) : poll unit := λ st, Returns (tt, (f st.1, st.2)).
Definition mod_peer (f : Peer → Peer) : poll unit :=
  mod_fsm (λ r, set_f_peer (f (f_peer r)) r).
Definition mod_ctx (f : PollContext → PollContext) : poll unit :=
  λ st, Returns (tt, (st.1, f st.2)).
(** A callback is invoked. *)
Definition send (m : run (list Sent)) : poll unit :=
  sent ← lift m; mod_ctx (λ x, set_x_sent (x_sent x ++ sent) x).
(** An operation of raft-rs. *)
Definition on_node {A} (f : Node → A * Node) : poll A :=
  node ← get_peer p_node;
  let '(a, node) := f node in
  mod_peer (set_p_node node);; mret a.

(** ** Accessors *)

Definition next_proposal_index (p : Peer) : Z := node_last_index (p_node p) +u 1.
Definition leader_id (p : Peer) : Z := node_leader_id (p_node p).
Definition is_leader (p : Peer) : bool := node_is_leader (p_node p).
Definition peer_term (p : Peer) : Z := node_term (p_node p).
Definition p_region (p : Peer) : Region := ps_region (p_store p).
Definition store_id (p : Peer) : Z := peer_store_id (p_peer p).
Definition has_applied_to_current_term (p : Peer) : bool :=
  ps_applied_index_term (p_store p) =? peer_term p.

Definition get_peer_from_cache (peer_id : Z) (p : Peer) : option metapb_Peer * Peer :=
  if peer_id =? 0 then (None, p)
  else
    match p_peer_cache p !! peer_id with
    | Some peer => (Some peer, p)
    | None =>
        match list_find (λ q, Raftpb.peer_id q = peer_id) (region_peers (p_region p)) with
        | Some (_, peer) => (Some peer, set_p_peer_cache (<[peer_id := peer]> (p_peer_cache p)) p)
        | None => (None, p)
        end
    end.
Definition insert_peer_cache (peer : metapb_Peer) (p : Peer) : Peer :=
  set_p_peer_cache (<[Raftpb.peer_id peer := peer]> (p_peer_cache p)) p.
Definition peer_from_cache (peer_id : Z) : poll (option metapb_Peer) :=
  p ← get_peer id;
  let '(found, p) := get_peer_from_cache peer_id p in
  mod_peer (λ _, p);; mret found.

(** ** Sending raft messages *)

Definition send_raft_message (msg : Message) : poll bool :=
  to_peer ← peer_from_cache (msg_to msg);
  match to_peer with
  | None => mret false
  | Some to_peer =>
      p ← get_peer id;
      mod_ctx (λ x, set_x_trans (x_trans x ++
        [{| rm_region_id := p_region_id p; rm_from_peer := p_peer p; rm_to_peer := to_peer;
            rm_message := msg |}]) x);;
      mret true
  end.
Fixpoint send_messages (msgs : list Message) : poll unit :=
  match msgs with
  | [] => mret tt
  | msg :: msgs => send_raft_message msg;; send_messages msgs
  end.

(** ** Ticks *)

Definition schedule_tick (tick : PeerTick) : poll unit :=
  registry ← get_fsm f_tick_registry;
  if ticks_contains registry tick then mret tt
  else
    mod_fsm (λ r, set_f_tick_registry (ticks_set tick true (f_tick_registry r)) r);;
    mod_ctx (λ x, set_x_ticks (x_ticks x ++ [tick]) x).
Definition register_raft_base_tick : poll unit := schedule_tick RAFT.
Definition register_raft_gc_log_tick : poll unit := schedule_tick RAFT_LOG_GC.

Definition on_raft_base_tick : poll unit :=
  has_ready ← on_node node_tick;
  (if has_ready : bool then mod_fsm (set_f_has_ready true) else mret tt);;
  register_raft_base_tick.

Definition start : poll unit :=
  register_raft_base_tick;;
  register_raft_gc_log_tick;;
  p ← get_peer id;
  if (applied_index_of (p_store p) <? commit_index (p_store p)) || is_leader p
  then mod_fsm (set_f_has_ready true) else mret tt.

(** ** Proposing *)

Inductive RequestPolicy :=
  ReadLocal | StaleRead | ReadIndex | ProposeNormal | ProposeTransferLeader | ProposeConfChange.

(** A request with no write, or of an invalid type, is unreachable. *)
Definition inspect (req : RaftCmdRequest) : run (result Error RequestPolicy) :=
  match rc_admin_request req with
  | Some _ => Returns (Ok ProposeNormal)
  | None =>
      if forallb (λ r, bool_decide (req_cmd_type r = MessageQueue)) (rc_requests req) then
        match rc_requests req with
        | [] => Panics
        | _ => Returns (Ok ProposeNormal)
        end
      else Panics
  end.
Definition is_request_urgent (req : RaftCmdRequest) : bool := false.

(** [8 * 1024 * 1024 * 1024], in bytes. *)
Definition PROPOSE_MAX_SIZE : Z := 8 * 1024 * 1024 * 1024.

Definition propose_normal (req : RaftCmdRequest) : poll (result Error Z) :=
  p ← get_peer id;
  let data := write_to_bytes req in
  let size := Z.of_nat (length data) in
  if PROPOSE_MAX_SIZE <? size
  then mret (Err (Error_RaftEntryTooLarge (p_region_id p) size))
  else
    let propose_index := next_proposal_index p in
    r ← on_node (λ node, node_propose node data);
    match r with
    | Err e => mret (Err (Error_Raft e))
    | Ok _ =>
        p ← get_peer id;
        if next_proposal_index p =? propose_index
        then mret (Err (Error_NotLeader (p_region_id p) None))
        else mret (Ok propose_index)
    end.

Definition set_propose_time (t : option Z) (p : Proposal) : Proposal :=
  {| pr_is_conf_change := pr_is_conf_change p; pr_index := pr_index p; pr_term := pr_term p;
     pr_cb := pr_cb p; pr_propose_time := t;
     pr_must_pass_epoch_check := pr_must_pass_epoch_check p |}.
Definition post_propose (pr : Proposal) : poll unit :=
  mod_ctx (λ x, match x_current_time x with
                | None => set_x_current_time (Some (x_now x)) x
                | Some _ => x
                end);;
  time ← get_ctx x_current_time;
  queue ← get_peer p_proposals;
  queue ← lift (push_proposal queue (set_propose_time time pr));
  mod_peer (set_p_proposals queue).

Definition propose (cb : Callback) (req : RaftCmdRequest) (err_resp : RaftCmdResponse) : poll bool :=
  policy ← lift (inspect req);
  res ← match policy with
        | Ok ProposeNormal => propose_normal req
        | Ok _ => panics
        | Err e => mret (Err e)
        end;
  match res with
  | Err e => send (invoke_with_response cb (bind_error err_resp e));; mret false
  | Ok idx =>
      p ← get_peer id;
      let applied := has_applied_to_current_term p in
      let '(cb, sent) := if applied then invoke_proposed cb else (cb, []) in
      send (Returns sent);;
      (if is_request_urgent req
       then mod_peer (λ p, set_p_last_urgent_proposal_idx idx
              (set_p_node (node_skip_bcast_commit (p_node p) false) p))
       else mret tt);;
      post_propose {| pr_is_conf_change := false; pr_index := idx; pr_term := peer_term p;
                      pr_cb := cb; pr_propose_time := None;
                      pr_must_pass_epoch_check := applied |};;
      mret true
  end.

(** *** Status commands *)

Definition execute_region_leader : poll (result Error StatusResponse) :=
  p ← get_peer id;
  leader ← peer_from_cache (leader_id p);
  mret (Ok {| str_cmd_type := InvalidStatus;
              str_region_leader :=
                match leader with
                | Some leader => Some {| rlr_leader := Some leader |}
                | None => None
                end;
              str_region_detail := None |}).
Definition execute_region_detail (req : RaftCmdRequest) : poll (result Error StatusResponse) :=
  p ← get_peer id;
  if is_region_initialized (p_region p) then
    leader ← peer_from_cache (leader_id p);
    mret (Ok {| str_cmd_type := InvalidStatus; str_region_leader := None;
                str_region_detail := Some {| rdr_region := Some (p_region p);
                                             rdr_leader := leader |} |})
  else mret (Err (Error_RegionNotInitialized (rh_region_id (req_header req)))).

Definition peer_tag (p : Peer) : string :=
  "[region " +:+ pretty (p_region_id p) +:+ "] " +:+ pretty (Raftpb.peer_id (p_peer p)).
Definition execute_status_command (req : RaftCmdRequest) : poll (result Error RaftCmdResponse) :=
  let cmd_type := st_cmd_type (get_or_default (rc_status_request req)) in
  p ← get_peer id;
  response ← match cmd_type with
             | RegionLeader => execute_region_leader
             | RegionDetail => execute_region_detail req
             | InvalidStatus =>
                 mret (Err (Error_Other (peer_tag p +:+ " invalid status command!")))
             end;
  mret (response ← response;
        Ok (bind_term
              {| rr_header := None; rr_responses := []; rr_admin_response := None;
                 rr_status_response :=
                   Some {| str_cmd_type := cmd_type;
                           str_region_leader := str_region_leader response;
                           str_region_detail := str_region_detail response |} |}
              (peer_term p))).

(** *** Commands *)

Definition pre_propose_raft_command (msg : RaftCmdRequest) :
    poll (result Error (option RaftCmdResponse)) :=
  p ← get_peer id;
  match check_store_id msg (store_id p) with
  | Err e => mret (Err e)
  | Ok _ =>
      match rc_status_request msg with
      | Some _ => r ← execute_status_command msg; mret (resp ← r; Ok (Some resp))
      | None =>
          match check_peer_id msg (Raftpb.peer_id (p_peer p)) with
          | Err e => mret (Err e)
          | Ok _ =>
              assert_that (is_region_initialized (p_region p));;
              mret (match check_term msg (peer_term p) with
                    | Err e => Err e
                    | Ok _ => Ok None
                    end)
          end
      end
  end.

Definition propose_raft_command (msg : RaftCmdRequest) (cb : Callback) : poll unit :=
  pre ← pre_propose_raft_command msg;
  match pre with
  | Ok (Some resp) => send (invoke_with_response cb resp)
  | Err e => send (invoke_with_response cb (new_error e))
  | Ok None =>
      p ← get_peer id;
      proposed ← propose cb msg (bind_term default_instance (peer_term p));
      if proposed : bool then mod_fsm (set_f_has_ready true) else mret tt
  end.

Definition propose_batch_raft_command : poll unit :=
  builder ← get_fsm f_batch_req_builder;
  let '(cmd, builder) := build builder in
  mod_fsm (set_f_batch_req_builder builder);;
  match cmd with
  | Some cmd => propose_raft_command (cmd_request cmd) (cmd_callback cmd)
  | None => mret tt
  end.

(** [compute_size] is the size of the encoding, a [u32]. *)
Definition compute_size (req : RaftCmdRequest) : Z := Z.of_nat (length (write_to_bytes req)) `mod` 2 ^ 32.
Definition on_raft_command (cmd : RaftCommand) : poll unit :=
  let req_size := compute_size (cmd_request cmd) in
  builder ← get_fsm f_batch_req_builder;
  if can_batch builder (cmd_request cmd) req_size then
    mod_fsm (set_f_batch_req_builder (add builder cmd req_size));;
    builder ← get_fsm f_batch_req_builder;
    if should_finish builder then propose_batch_raft_command else mret tt
  else
    propose_batch_raft_command;;
    propose_raft_command (cmd_request cmd) (cmd_callback cmd).

(** ** Committed entries *)

(** The peer once the entries up to [last] are being applied. *)
Definition start_applying (last : Entry) (p : Peer) : Peer :=
  let p := set_p_last_applying_idx (entry_index last) p in
  if p_last_urgent_proposal_idx p <=? p_last_applying_idx p
  then set_p_last_urgent_proposal_idx u64_max
         (set_p_node (node_skip_bcast_commit (p_node p) true) p)
  else p.
Definition apply_msg_new (p : Peer) (entries : list Entry) (cbs : list Proposal) : ApplyMsg :=
  {| apply_peer_id := Raftpb.peer_id (p_peer p); apply_region_id := p_region_id p;
     apply_term := peer_term p; apply_entries := entries; apply_cbs := cbs |}.
Definition handle_committed_entries (committed_entries : list Entry) : poll unit :=
  match list.last committed_entries with
  | None => mret tt
  | Some last_entry =>
      mod_ctx (λ x, set_x_current_time (Some (x_now x)) x);;
      mod_peer (start_applying last_entry);;
      p ← get_peer id;
      cbs ← match p_proposals p with
            | [] => mret []
            | queue =>
                '(cbs, queue, sent) ←
                  lift (find_proposals queue committed_entries (peer_term p));
                send (Returns sent);;
                mod_peer (set_p_proposals queue);;
                mret cbs
            end;
      mod_ctx (λ x, set_x_apply (x_apply x ++ [apply_msg_new p committed_entries cbs]) x)
  end.

(** ** The result of applying *)

Definition on_ready_compact_log (state : RaftTruncatedState) : poll unit :=
  let compact_to := ts_index state +u 1 in
  p ← get_peer id;
  mod_peer (set_p_last_compacted_idx compact_to);;
  mod_ctx (λ x, set_x_gc (x_gc x ++
    [{| gc_region_id := get_region_id (p_store p); gc_start_idx := p_last_compacted_idx p;
        gc_end_idx := compact_to |}]) x).
Fixpoint on_ready_result (exec_results : list ExecResult) : poll unit :=
  match exec_results with
  | [] => mret tt
  | ExecResult_CompactLog state _ :: exec_results =>
      on_ready_compact_log state;; on_ready_result exec_results
  end.
Definition post_apply (apply_state : RaftApplyState) (applied_index_term : Z) : poll bool :=
  mod_peer (λ p, set_p_node (node_advance_apply_to (p_node p) (as_applied_index apply_state)) p);;
  mod_peer (λ p, set_p_store
    (set_applied_term applied_index_term (set_applied_state apply_state (p_store p))) p);;
  mret false.
Definition on_apply_res (res : ApplyRes) : poll unit :=
  on_ready_result (ares_exec_res res);;
  has_ready ← post_apply (ares_apply_state res) (ares_applied_index_term res);
  mod_fsm (λ r, set_f_has_ready (f_has_ready r || has_ready) r).

(** ** Collection of the log *)

Definition new_admin_request (region_id : Z) (peer : metapb_Peer) : RaftCmdRequest :=
  {| rc_header := Some {| rh_region_id := region_id; rh_peer := Some peer; rh_uuid := [];
                          rh_term := 0 |};
     rc_requests := []; rc_admin_request := None; rc_status_request := None |}.
Definition new_compact_log_request (region_id : Z) (peer : metapb_Peer)
    (compact_index compact_term : Z) : RaftCmdRequest :=
  let request := new_admin_request region_id peer in
  {| rc_header := rc_header request; rc_requests := rc_requests request;
     rc_admin_request :=
       Some {| adm_cmd_type := CompactLog;
               adm_compact_log := Some {| compact_index := compact_index;
                                          compact_term := compact_term |} |};
     rc_status_request := rc_status_request request |}.

(** The index every peer has replicated. *)
Definition replicated_index (last_idx : Z) (matched : list Z) : Z :=
  foldl (λ replicated m, if m <? replicated then m else replicated) last_idx matched.
(** The index to compact to, if enough entries are replicated. *)
Definition compact_index_for (first_idx replicated_idx limit : Z) : option Z :=
  if replicated_idx <? first_idx then None
  else if replicated_idx -u first_idx <? limit then None
  else Some (first_idx +u limit `div` 10).

(** [raft_log_gc_count_limit] is read from the environment. *)
Definition on_raft_gc_log_tick (raft_log_gc_count_limit : Z) : poll unit :=
  register_raft_gc_log_tick;;
  p ← get_peer id;
  if negb (is_leader p) then mret tt
  else
    let last_idx := storage_last_index (p_store p) in
    let replicated_idx := replicated_index last_idx (node_matched (p_node p)) in
    assert_that ((replicated_idx <=? 0) || (replicated_idx <=? last_idx));;
    match compact_index_for (storage_first_index (p_store p)) replicated_idx
            raft_log_gc_count_limit with
    | None => mret tt
    | Some compact_idx =>
        e ← get_ctx x_engines;
        term ← lift (unwrap_ok (node_log_term (p_node p) e (p_store p) compact_idx));
        propose_raft_command
          (new_compact_log_request (region_id (p_region p)) (p_peer p) compact_idx term)
          Callback_None;;
        register_raft_gc_log_tick
    end.
Definition on_tick (raft_log_gc_count_limit : Z) (tick : PeerTick) : poll unit :=
  mod_fsm (λ r, set_f_tick_registry (ticks_set tick false (f_tick_registry r)) r);;
  match tick with
  | RAFT => on_raft_base_tick
  | RAFT_LOG_GC => on_raft_gc_log_tick raft_log_gc_count_limit
  end.

(** ** Raft messages *)

Definition validate_raft_msg (msg : RaftMessage) (p : Peer) : bool :=
  peer_store_id (rm_to_peer msg) =? store_id p.
Definition step (m : Message) : poll (result Error unit) :=
  match msg_type m with
  | MsgReadIndex | MsgTransferLeader => panics
  | MsgOther =>
      p ← get_peer id; e ← get_ctx x_engines;
      r ← on_node (λ node, node_step node e (p_store p) m);
      mret (map_err Error_Raft r)
  end.
Definition on_raft_message (msg : RaftMessage) : poll (result Error unit) :=
  p ← get_peer id;
  if negb (validate_raft_msg msg p) then mret (Ok tt)
  else
    mod_peer (insert_peer_cache (rm_from_peer msg));;
    result ← step (rm_message msg);
    match result with
    | Err e => mret (Err e)
    | Ok _ => mod_fsm (set_f_has_ready true);; mret (Ok tt)
    end.

(** ** Messages of the peer *)

Definition handle_msg (limit : Z) (m : PeerMsg) : poll unit :=
  match m with
  | PeerMsg_RaftMessage msg => on_raft_message msg;; mret tt
  | PeerMsg_RaftCommand cmd => on_raft_command cmd
  | PeerMsg_Tick tick => on_tick limit tick
  | PeerMsg_ApplyRes res => on_apply_res res
  | PeerMsg_Start => start
  end.
Fixpoint handle_msgs (limit : Z) (msgs : list PeerMsg) : poll unit :=
  match msgs with
  | [] => propose_batch_raft_command
  | m :: msgs => handle_msg limit m;; handle_msgs limit msgs
  end.

(** ** Readies *)

(** [Peer::on_role_changed]; a change of term alone is only logged. *)
Definition on_role_changed (ready : RaftReady Message) : poll unit :=
  match rdy_ss ready with
  | Some (true, _) =>
      mod_peer (λ p, set_p_last_urgent_proposal_idx (node_last_index (p_node p)) p);;
      mod_peer (λ p, set_p_node (node_skip_bcast_commit (p_node p) false) p)
  | _ => mret tt
  end.

(** The assertions on a [Ready]. *)
Definition ready_asserts (ready : RaftReady Message) (s : PeerStorage) : bool :=
  let stored := get_hard_state (ps_raft_state s) in
  (rdy_must_sync ready ||
   match rd_hs (rdy_ready ready) with
   | Some hs => (hs_term hs =? hs_term stored) && (hs_vote hs =? hs_vote stored)
   | None => true
   end && bool_decide (rd_entries (rdy_ready ready) = []) && rdy_snapshot_empty ready).
Definition commit_asserts (ready : RaftReady Message) (s : PeerStorage) : bool :=
  match rd_hs (rdy_ready ready) with
  | Some hs => commit_index s <=? hs_commit hs
  | None => true
  end.

Definition handle_raft_ready_append : poll CollectedReady :=
  p ← get_peer id; e ← get_ctx x_engines;
  ready ← on_node (λ node, node_ready node e (p_store p));
  mod_peer (set_p_last_unpersisted_number (rdy_number ready));;
  assert_that (ready_asserts ready (p_store p));;
  on_role_changed ready;;
  assert_that (commit_asserts ready (p_store p));;
  send_messages (rdy_messages ready);;
  handle_committed_entries (rdy_committed_entries ready);;
  raft_wb ← get_ctx x_raft_wb;
  let '(ctx, raft_wb) := handle_raft_ready (p_store p) (rdy_ready ready) raft_wb in
  mod_ctx (set_x_raft_wb raft_wb);;
  mret {| cr_ctx := ctx; cr_ready := ready |}.

Definition collect_ready : poll unit :=
  has_ready ← get_fsm f_has_ready;
  mod_fsm (set_f_has_ready false);;
  if negb has_ready then mret tt
  else
    mod_ctx (set_x_has_ready true);;
    r ← handle_raft_ready_append;
    match rdy_ss (cr_ready r) with
    | Some (true, _) => mod_fsm (set_f_missing_ticks 0)
    | _ => mret tt
    end;;
    (if has_new_entries (cr_ctx r) then register_raft_gc_log_tick else mret tt);;
    mod_ctx (λ x, set_x_ready_res (x_ready_res x ++ [r]) x).

Definition handle_raft_ready_advance (ready : RaftReady Message) : poll unit :=
  p ← get_peer id; e ← get_ctx x_engines;
  assert_that (rdy_number ready =? p_last_unpersisted_number p);;
  assert_that (rdy_snapshot_empty ready);;
  light_rd ← on_node (λ node, node_advance_append node e (p_store p) ready);
  match lrd_commit_index light_rd with
  | Some commit =>
      s ← lift (set_commit_index commit (p_store p));
      mod_peer (set_p_store s)
  | None => mret tt
  end;;
  send_messages (lrd_messages light_rd);;
  handle_committed_entries (lrd_committed_entries light_rd).

Definition post_raft_ready_append (ready : CollectedReady) : poll unit :=
  p ← get_peer id;
  assert_that (ic_region_id (cr_ctx ready) =? region_id (p_region p));;
  mod_peer (λ p, set_p_store (post_ready (cr_ctx ready) (p_store p)) p);;
  send_messages (rdy_persisted_messages (cr_ready ready));;
  handle_raft_ready_advance (cr_ready ready).
Fixpoint post_readies (readies : list CollectedReady) : poll unit :=
  match readies with
  | [] => mret tt
  | ready :: readies => post_raft_ready_append ready;; post_readies readies
  end.

(** ** The poller of store.rs *)

(** The raft batch is written before the readies are advanced. *)
Definition poller_handle_raft_ready : poll unit :=
  mod_ctx (λ x,
    if wb_is_empty (x_raft_wb x) then x
    else
      let '(_, raft', wb) := consume (raft (x_engines x)) (x_raft_wb x) in
      set_x_raft_wb wb (set_x_engines {| kv := kv (x_engines x); raft := raft' |} x));;
  readies ← get_ctx x_ready_res;
  mod_ctx (set_x_ready_res []);;
  post_readies readies.

(** One turn of the poller; the timers started are the ticks registered. *)
Definition poll_peer (limit : Z) (msgs : list PeerMsg) : poll (list PeerTick) :=
  mod_ctx (set_x_has_ready false);;
  handle_msgs limit msgs;;
  collect_ready;;
  ticks ← get_ctx x_ticks;
  mod_ctx (set_x_ticks []);;
  has_ready ← get_ctx x_has_ready;
  (if has_ready : bool then poller_handle_raft_ready else mret tt);;
  mod_ctx (set_x_current_time None);;
  mret ticks.

(** ** Creation *)

Definition peer_new (store_id : Z) (e : Engines) (region : Region) (peer : metapb_Peer) :
    run (result Error Peer) :=
  if Raftpb.peer_id peer =? 0 then Returns (Err (Error_Other "invalid peer id"))
  else
    ps ← peer_storage_new e region (Raftpb.peer_id peer);
    match node_new (Raftpb.peer_id peer) (applied_index_of ps) e ps with
    | Err msg => Returns (Err (Error_Raft msg))
    | Ok node =>
        let p node := {|
          p_region_id := region_id region; p_peer := peer; p_node := node; p_store := ps;
          p_peer_cache := ∅; p_proposals := []; p_last_applying_idx := applied_index_of ps;
          p_last_compacted_idx := 0; p_last_urgent_proposal_idx := u64_max;
          p_last_unpersisted_number := 0 |} in
        match region_peers region with
        | [q] =>
            if peer_store_id q =? store_id then
              let '(r, node) := node_campaign node in
              Returns (match r with Ok _ => Ok (p node) | Err msg => Err (Error_Raft msg) end)
            else Returns (Ok (p node))
        | _ => Returns (Ok (p node))
        end
    end.

Definition fsm_create (store_id : Z) (e : Engines) (region : Region) : run PeerFsm :=
  meta_peer ← unwrap (find_peer region store_id);
  r ← peer_new store_id e region meta_peer;
  peer ← unwrap_ok r;
  Returns {| f_peer := peer; f_tick_registry := {| tick_raft := false; tick_raft_log_gc := false |};
             f_missing_ticks := 0; f_has_ready := false; f_batch_req_builder := peer_batch_new |}.

(** Dropping the fsm answers the commands still queued. *)
Definition region_not_found (region_id : Z) : RaftCmdResponse :=
  mut_header (set_error
    {| err_message := "region is not found"; err_not_leader := None;
       err_region_not_found := Some {| rnf_region_id := region_id |};
       err_server_is_busy := None; err_stale_command := None; err_store_not_match := None;
       err_raft_entry_too_large := None; err_region_not_initialized := None |}) default_instance.
Fixpoint fsm_drop (region_id : Z) (msgs : list PeerMsg) : run (list Sent) :=
  match msgs with
  | [] => Returns []
  | PeerMsg_RaftCommand cmd :: msgs =>
      sent ← invoke_with_response (cmd_callback cmd) (region_not_found region_id);
      rest ← fsm_drop region_id msgs;
      Returns (sent ++ rest)
  | _ :: msgs => fsm_drop region_id msgs
  end.

(** [Registration::new]. *)
Definition registration_of (p : Peer) : Registration :=
  {| reg_id := Raftpb.peer_id (p_peer p); reg_term := peer_term p;
     reg_apply_state := ps_apply_state (p_store p);
     reg_applied_index_term := ps_applied_index_term (p_store p); reg_region := p_region p |}.

(** *** The collection worker of raftlog_gc.rs *)

Record Runner := { gr_tasks : list GcTask }.
Definition MAX_GC_REGION_BATCH : nat := 128.
Definition gc_raft_log (d : DB) (t : GcTask) : run DB :=
  r ← raft_gc d (gc_region_id t) (gc_start_idx t) (gc_end_idx t); Returns r.1.
Fixpoint gc_flush (tasks : list GcTask) (d : DB) : run DB :=
  match tasks with
  | [] => Returns d
  | t :: tasks => d ← gc_raft_log d t; gc_flush tasks d
  end.
Definition gc_run (r : Runner) (task : GcTask) (d : DB) : run (Runner * DB) :=
  let tasks := gr_tasks r ++ [task] in
  if (length tasks <? MAX_GC_REGION_BATCH)%nat then Returns ({| gr_tasks := tasks |}, d)
  else d ← gc_flush tasks d; Returns ({| gr_tasks := [] |}, d).
Definition gc_on_timeout (r : Runner) (d : DB) : run (Runner * DB) :=
  d ← gc_flush (gr_tasks r) d; Returns ({| gr_tasks := [] |}, d).
End peer.
