(* ===== verification/RaftNode.v ===== *)
(** * raft-rs: the contract and a reference node

    [RawNode] is a parameter of the model of the peer.  This file states what the
    peer's storage relies on of it, and gives one node that keeps that contract: the
    only voter of its group, which elects itself and commits what it has persisted. *)

From S2P Require Import Prelude Bytes Keys Proto Raftpb Errors RocksEngine RefRocks RefCodec.
From S2P Require Import RaftLog PeerStorage StorageSpec RaftCmd Batch Apply Peer.
Local Open Scope Z_scope.

(** ** The contract of raft-rs *)

(** [node_agrees] is that the node's log is that of the storage, [node_waits] that it
    has handed out a [Ready] that is not yet persisted. *)
Class RawNodeLaws {R : RocksDB} `{!ProtoMessage Entry, !ProtoMessage RaftLocalState}
    (RN : RawNode) := {
  node_agrees : Node → PeerStorage → gmap Z Entry → RaftApplyState → Prop;
  node_waits : Node → RaftReady Message → PeerStorage → gmap Z Entry → RaftApplyState → Prop;
  agrees_propose node s L ap data :
    node_agrees node s L ap → node_agrees (node_propose node data).2 s L ap;
  agrees_step node e s L ap m :
    node_agrees node s L ap → node_agrees (node_step node e s m).2 s L ap;
  agrees_tick node s L ap : node_agrees node s L ap → node_agrees (node_tick node).2 s L ap;
  agrees_skip node s L ap b :
    node_agrees node s L ap → node_agrees (node_skip_bcast_commit node b) s L ap;
  agrees_apply node s L ap ap0 term :
    node_agrees node s L ap → notify_ok s L ap ap0 →
    node_agrees (node_advance_apply_to node (as_applied_index ap0))
      (set_applied_term term (set_applied_state ap0 s)) L ap;
  agrees_ready node e s L ap :
    node_agrees node s L ap →
    ready_ok s L ap (rdy_ready (node_ready node e s).1) ∧
    node_waits (node_ready node e s).2 (node_ready node e s).1 s L ap;
  waits_skip node rd s L ap b :
    node_waits node rd s L ap → node_waits (node_skip_bcast_commit node b) rd s L ap;
  waits_advance node rd e s L ap ctx wb :
    node_waits node rd s L ap → handle_raft_ready s (rdy_ready rd) wb_new = (ctx, wb) →
    let s1 := post_ready ctx s in
    let L1 := log_append (rd_entries (rdy_ready rd)) (storage_last_index s) L in
    let '(lrd, node') := node_advance_append node e s1 rd in
    match lrd_commit_index lrd with
    | Some c => c ≤ storage_last_index s1 ∧
        ∀ s2, set_commit_index c s1 = Returns s2 → node_agrees node' s2 L1 ap
    | None => node_agrees node' s1 L1 ap
    end }.

(** ** The only voter of a group *)

Record RefNode := {
  rn_id : Z; rn_leader : bool; rn_term : Z; rn_vote : Z; rn_commit : Z; rn_last : Z;
  rn_unstable : list Entry; rn_number : Z; rn_announce : bool; rn_committed : list Entry }.

Definition rn_last_index (n : RefNode) : Z := rn_last n + Z.of_nat (length (rn_unstable n)).

Definition rn_append (n : RefNode) (data : bytes) : RefNode :=
  {| rn_id := rn_id n; rn_leader := rn_leader n; rn_term := rn_term n; rn_vote := rn_vote n;
     rn_commit := rn_commit n; rn_last := rn_last n;
     rn_unstable := rn_unstable n ++
       [{| entry_type := EntryNormal; entry_term := rn_term n; entry_index := rn_last_index n + 1;
           entry_data := data; entry_context := []; entry_sync_log := false |}];
     rn_number := rn_number n; rn_announce := rn_announce n; rn_committed := rn_committed n |}.

Definition rn_propose (n : RefNode) (data : bytes) : result string unit * RefNode :=
  if rn_leader n && (rn_last_index n <? u64_max - 3) then (Ok tt, rn_append n data)
  else (Err "raft: proposal dropped"%string, n).

(** It leads its next term from its own vote on, with an empty entry of that term. *)
Definition rn_campaign (n : RefNode) : result string unit * RefNode :=
  if rn_last_index n <? u64_max - 3 then
    (Ok tt,
     rn_append {| rn_id := rn_id n; rn_leader := true; rn_term := rn_term n + 1;
                  rn_vote := rn_id n; rn_commit := rn_commit n; rn_last := rn_last n;
                  rn_unstable := rn_unstable n; rn_number := rn_number n; rn_announce := true;
                  rn_committed := rn_committed n |} [])
  else (Err "raft: log is full"%string, n).

Definition rn_hard_state (n : RefNode) : HardState :=
  {| hs_term := rn_term n; hs_vote := rn_vote n; hs_commit := rn_commit n |}.
Definition rn_changes (n : RefNode) (s : PeerStorage) : Ready :=
  {| rd_hs := if decide (rn_hard_state n = get_hard_state (ps_raft_state s)) then None
              else Some (rn_hard_state n);
     rd_entries := rn_unstable n |}.

Definition rn_ready (n : RefNode) (s : PeerStorage) : RaftReady Empty_set * RefNode :=
  ({| rdy_number := rn_number n + 1; rdy_must_sync := true; rdy_ready := rn_changes n s;
      rdy_ss := if rn_announce n then Some (rn_leader n, rn_id n) else None;
      rdy_snapshot_empty := true; rdy_messages := []; rdy_persisted_messages := [];
      rdy_committed_entries := rn_committed n |},
   {| rn_id := rn_id n; rn_leader := rn_leader n; rn_term := rn_term n; rn_vote := rn_vote n;
      rn_commit := rn_commit n; rn_last := rn_last n; rn_unstable := rn_unstable n;
      rn_number := rn_number n + 1; rn_announce := false; rn_committed := [] |}).

(** What is persisted is committed. *)
Definition rn_advance_append (n : RefNode) : LightReady Empty_set * RefNode :=
  let last := rn_last_index n in
  let commit := if rn_leader n then last else rn_commit n in
  ({| lrd_commit_index := if rn_commit n <? commit then Some commit else None; lrd_messages := [];
      lrd_committed_entries := if rn_leader n then rn_unstable n else [] |},
   {| rn_id := rn_id n; rn_leader := rn_leader n; rn_term := rn_term n; rn_vote := rn_vote n;
      rn_commit := commit; rn_last := last; rn_unstable := []; rn_number := rn_number n;
      rn_announce := rn_announce n; rn_committed := rn_committed n |}).

Definition rn_new (id applied : Z) (e : Engines (R:=RefRocks)) (s : PeerStorage) :
    result string RefNode :=
  let hs := get_hard_state (ps_raft_state s) in
  match entries s e (applied + 1) (hs_commit hs + 1) u64_max with
  | Panics => Err "raft: storage"%string
  | Returns es =>
      Ok {| rn_id := id; rn_leader := false; rn_term := hs_term hs; rn_vote := hs_vote hs;
            rn_commit := hs_commit hs; rn_last := storage_last_index s; rn_unstable := [];
            rn_number := 0; rn_announce := false; rn_committed := es |}
  end.

Global Instance RefRawNode : RawNode (R:=RefRocks) := {|
  Node := RefNode;
  Message := Empty_set;
  msg_to m := match m with end;
  msg_type m := match m with end;
  node_new := rn_new;
  node_term := rn_term;
  node_leader_id n := if rn_leader n then rn_id n else 0;
  node_is_leader := rn_leader;
  node_last_index := rn_last_index;
  node_log_term n e s i :=
    match term s e i with Returns t => Ok t | Panics => Err "raft: storage"%string end;
  node_matched n := [rn_last n];
  node_propose := rn_propose;
  node_step n _ _ m := match m with end;
  node_tick n := (false, n);
  node_campaign := rn_campaign;
  node_skip_bcast_commit n _ := n;
  node_ready n _ s := rn_ready n s;
  node_advance_append n _ _ _ := rn_advance_append n;
  node_advance_apply_to n _ := n |}.

(** *** The reference node keeps the contract *)

Local Abbreviation trunc s := (get_truncated_state (ps_apply_state s)).

Record ref_agrees (n : RefNode) (s : PeerStorage) (L : gmap Z Entry) (ap : RaftApplyState) :
    Prop := {
  ra_last : rn_last n = storage_last_index s;
  ra_pos : 0 < rn_last n;
  ra_end : rn_last_index n < u64_max - 2;
  ra_log : ∃ lt, log_inv L (trunc s) (rn_last n) lt (rn_term n);
  ra_trunc : ts_index (trunc s) ≤ rn_last n;
  ra_applied : ts_index (get_truncated_state ap) ≤ rn_last n ∧ as_commit_index ap ≤ rn_last n;
  ra_commit : commit_index s ≤ rn_commit n ≤ rn_last n;
  ra_term : hs_term (get_hard_state (ps_raft_state s)) ≤ rn_term n;
  ra_index : entry_index <$> rn_unstable n
             = seqZ (rn_last n + 1) (Z.of_nat (length (rn_unstable n)));
  ra_terms x : x ∈ rn_unstable n → entry_term x = rn_term n }.

Definition ref_waits (n : RefNode) (rd : RaftReady Empty_set) (s : PeerStorage)
    (L : gmap Z Entry) (ap : RaftApplyState) : Prop :=
  ref_agrees n s L ap ∧ rdy_ready rd = rn_changes n s.

Lemma ref_agrees_propose n s L ap data :
  ref_agrees n s L ap → ref_agrees (rn_propose n data).2 s L ap.
Proof.
  intros H. unfold rn_propose. destruct (rn_leader n && _) eqn:Hb; [|done].
  apply andb_prop in Hb as [_ Hb%Z.ltb_lt]. destruct H; split; cbn; try done.
  - unfold rn_last_index in *. cbn. rewrite length_app. cbn. lia.
  - rewrite fmap_app, ra_index0, length_app, Nat2Z.inj_add. cbn. rewrite seqZ_app by lia.
    f_equal. rewrite seqZ_cons by lia. cbn. unfold rn_last_index. f_equal. lia.
  - intros x [Hx| ->%list_elem_of_singleton]%elem_of_app; [by apply ra_terms0|done].
Qed.

Lemma ref_agrees_apply n s L ap ap0 term :
  ref_agrees n s L ap → notify_ok s L ap ap0 →
  ref_agrees n (set_applied_term term (set_applied_state ap0 s)) L ap.
Proof.
  intros [] [Hle Ht]. destruct ra_log0 as [lt Hlog]. split; try done; cbn.
  - exists lt. apply log_inv_truncate with (trunc s); [done| |done]. lia.
  - cbn. lia.
Qed.

Lemma last_unstable n s L ap :
  ref_agrees n s L ap →
  default (storage_last_index s) (entry_index <$> list.last (rn_unstable n)) = rn_last_index n.
Proof.
  intros H. unfold rn_last_index. destruct (list.last (rn_unstable n)) as [x|] eqn:Hx.
  - cbn. rewrite (last_index_contiguous _ _ _ (ra_index _ _ _ _ H) Hx). lia.
  - apply last_None in Hx. rewrite Hx. cbn. rewrite <-(ra_last _ _ _ _ H). lia.
Qed.

Lemma ref_append_ok n s L ap tmax :
  ref_agrees n s L ap → rn_term n ≤ tmax →
  append_ok L (trunc s) (storage_last_index s) tmax (rn_last n + 1) (rn_unstable n).
Proof.
  intros H Hle. pose proof (ra_terms _ _ _ _ H) as Hterm. destruct H. split.
  - done.
  - rewrite <-ra_last0. lia.
  - unfold rn_last_index in *. lia.
  - intros i j x y _ Hx%list_elem_of_lookup_2%Hterm Hy%list_elem_of_lookup_2%Hterm. lia.
  - intros x p Hx%Hterm Hp. destruct ra_log0 as [lt Hlog]. rewrite Hx.
    replace (rn_last n + 1 - 1) with (rn_last n) in Hp by lia. by apply (li_terms _ _ _ _ _ Hlog) in Hp.
  - intros x Hx%Hterm. lia.
Qed.

Lemma ref_ready_ok n s L ap : ref_agrees n s L ap → ready_ok s L ap (rn_changes n s).
Proof.
  intros H. split.
  - intros hs Hhs. cbn [rn_changes rd_hs rd_entries] in *. rewrite (last_unstable n s L ap H).
    destruct (decide _); [done|]. injection Hhs as <-. cbn. destruct H. unfold rn_last_index. lia.
  - cbn. destruct (rn_unstable n) eqn:Hu; [by left|]. rewrite <-Hu. right.
    exists (rn_last n + 1). pose proof H as []. split_and!; [lia|lia|]. apply (ref_append_ok n s L ap _ H).
    destruct (decide _) as [Heq|]; cbn; [|lia]. rewrite <-Heq. done.
Qed.

(** The state that the peer keeps in memory after a [Ready]. *)
Lemma handle_raft_ready_ctx s ready ctx wb wb' :
  (0 < storage_last_index s) →
  (∀ x, x ∈ rd_entries ready → 0 < entry_index x) →
  handle_raft_ready s ready wb = (ctx, wb') →
  get_hard_state (ic_raft_state ctx) = default (get_hard_state (ps_raft_state s)) (rd_hs ready) ∧
  rls_last_index (ic_raft_state ctx) = rls_last_index (ready_state s ready) ∧
  ic_apply_state ctx = ps_apply_state s.
Proof.
  intros Hpos Hidx. unfold handle_raft_ready.
  set (r := match rd_entries ready with [] => _ | _ => _ end).
  assert (rls_hard_state (ic_raft_state r.1) = rls_hard_state (ps_raft_state s) ∧
    rls_last_index (ic_raft_state r.1) = rls_last_index (ready_state s ready) ∧
    ic_apply_state r.1 = ps_apply_state s) as (Hh & Hl & Ha).
  { unfold r, append, ready_state, storage_last_index. cbn.
    destruct (rd_entries ready) as [|x es]; [done|].
    by destruct (list.last (x :: es)). }
  assert (0 < rls_last_index (ic_raft_state r.1)) as Hlpos.
  { rewrite Hl. unfold ready_state. cbn. destruct (list.last _) as [x|] eqn:Hx; [|done].
    by apply Hidx, last_Some_elem_of. }
  destruct r as [c wb1]. cbn [fst] in *. apply Z.ltb_lt in Hlpos. rewrite Hlpos.
  intros [= <- _]. unfold get_hard_state in *.
  destruct (rd_hs ready); cbn; rewrite ?Hh; done.
Qed.

Lemma ref_agrees_handed n s L ap : ref_agrees n s L ap → ref_agrees (rn_ready n s).2 s L ap.
Proof. intros []. by split. Qed.

Lemma ref_waits_advance n rd s L ap ctx wb :
  ref_waits n rd s L ap → handle_raft_ready s (rdy_ready rd) wb_new = (ctx, wb) →
  let s1 := post_ready ctx s in
  let L1 := log_append (rd_entries (rdy_ready rd)) (storage_last_index s) L in
  let '(lrd, n') := rn_advance_append n in
  match lrd_commit_index lrd with
  | Some c => c ≤ storage_last_index s1 ∧
      ∀ s2, set_commit_index c s1 = Returns s2 → ref_agrees n' s2 L1 ap
  | None => ref_agrees n' s1 L1 ap
  end.
Proof.
  intros [H ->] Hb s1 L1. pose proof (last_unstable n s L ap H) as Hlast.
  apply handle_raft_ready_ctx in Hb as (Hhs & Hl & Hap).
  2: { rewrite <-(ra_last _ _ _ _ H). apply H. }
  2: { intros x Hx. apply (list_elem_of_fmap_2 entry_index) in Hx. cbn in Hx.
       rewrite (ra_index _ _ _ _ H) in Hx. apply elem_of_seqZ in Hx. pose proof (ra_pos _ _ _ _ H). lia. }
  cbn in Hl, Hhs. rewrite Hlast in Hl.
  assert (get_hard_state (ic_raft_state ctx) = rn_hard_state n) as Hhs'.
  { rewrite Hhs. by destruct (decide _). }
  assert (∃ lt, log_inv L1 (get_truncated_state (ps_apply_state s)) (rn_last_index n) lt (rn_term n))
    as Hlog.
  { unfold L1. cbn. destruct (ra_log _ _ _ _ H) as [lt Hlog].
    destruct (list.last (rn_unstable n)) as [x|] eqn:Hx.
    - exists (entry_term x). cbn in Hlast. rewrite <-Hlast.
      eapply log_inv_append; [|by apply (ref_append_ok n s L ap)|done].
      rewrite <-(ra_last _ _ _ _ H). exact Hlog.
    - apply last_None in Hx. unfold rn_last_index. rewrite Hx. cbn. rewrite Z.add_0_r. eauto. }
  clear Hhs. cbn [rn_advance_append lrd_commit_index].
  set (commit := if rn_leader n then rn_last_index n else rn_commit n).
  assert (rn_commit n ≤ commit ≤ rn_last_index n) as Hcommit.
  { unfold commit. pose proof (ra_commit _ _ _ _ H). unfold rn_last_index.
    destruct (rn_leader n); lia. }
  assert (∀ s2, storage_last_index s2 = rn_last_index n →
    get_hard_state (ps_raft_state s2) = set_commit (commit_index s2) (rn_hard_state n) →
    commit_index s2 ≤ commit → ps_apply_state s2 = ps_apply_state s →
    ref_agrees (rn_advance_append n).2 s2 L1 ap) as Hagree.
  { intros s2 Hl2 Hh2 Hc2 Ha2. pose proof H as []. unfold rn_last_index in *.
    split; cbn; fold commit; rewrite ?Ha2; unfold rn_last_index; try done; try lia.
    - cbn. lia.
    - rewrite Hh2. cbn. lia.
    - by intros x Hx%elem_of_nil. }
  assert (storage_last_index s1 = rn_last_index n) as Hl1 by done.
  assert (commit_index s1 = rn_commit n) as Hc1.
  { unfold commit_index. cbn. by rewrite Hhs'. }
  destruct (Z.ltb_spec (rn_commit n) commit) as [Hlt|Hge].
  - split; [rewrite Hl1; lia|]. intros s2 Hs2. unfold set_commit_index in Hs2.
    rewrite Hc1 in Hs2. destruct (Z.leb_spec (rn_commit n) commit); [|lia].
    injection Hs2 as <-. apply Hagree; cbn; try done.
    unfold commit_index. cbn. by rewrite Hhs'.
  - apply Hagree; try done.
    + cbn. by rewrite Hhs', Hc1.
    + lia.
Qed.

Global Instance RefRawNodeLaws : RawNodeLaws RefRawNode := {|
  node_agrees := ref_agrees;
  node_waits := ref_waits;
  agrees_propose := ref_agrees_propose;
  agrees_step _ _ _ _ _ m := match m with end;
  agrees_tick _ _ _ _ H := H;
  agrees_skip _ _ _ _ _ H := H;
  agrees_apply := ref_agrees_apply;
  agrees_ready n e s L ap H := conj (ref_ready_ok n s L ap H) (conj (ref_agrees_handed n s L ap H) eq_refl);
  waits_skip _ _ _ _ _ _ H := H;
  waits_advance n rd e s L ap ctx wb := ref_waits_advance n rd s L ap ctx wb |}.
