(* ===== verification/Node.v ===== *)
(** * node.rs, the start of store.rs and startup.rs

    How a store comes up: the identity of the store is checked or written, the only
    region is written on the first start, and the peer is recovered from the engines
    and handed to the raft poller and the apply worker.  The servers and what is read
    from the environment are in Server.v. *)

From stdpp Require Import pretty.
From S2P Require Import Prelude Bytes Keys Proto Raftpb Errors RocksEngine RefRocks RefCodec.
From S2P Require Import RaftLog PeerStorage StorageSpec RaftCmd Batch Apply Peer RaftNode.
Local Open Scope Z_scope.

(** [Node] of node.rs. *)
Record StoreNode := {
  nd_cluster_id : Z;
  nd_cluster_size : Z;
  nd_store_id : Z;
  nd_has_started : bool
}.
Definition node_init (cluster_id cluster_size store_id : Z) : StoreNode :=
  {| nd_cluster_id := cluster_id; nd_cluster_size := cluster_size; nd_store_id := store_id;
     nd_has_started := false |}.

Definition INVALID_ID : Z := 0.
Definition REGION_ID : Z := 1.

(** What runs after the start: the poller's peer and context with the first message,
    and the peer of the apply worker. *)
Record Started `{RN : RawNode} := {
  st_fsm : PeerFsm;
  st_ctx : PollContext;
  st_msgs : list PeerMsg;
  st_apply : ApplyDelegate
}.

Section node.
Context {R : RocksDB} {RN : RawNode}.
Context `{!ProtoMessage Entry, !ProtoMessage RaftLocalState, !ProtoMessage RaftApplyState}.
Context `{!ProtoMessage RegionLocalState, !ProtoMessage StoreIdent, !ProtoMessage RaftCmdRequest}.
Implicit Types (nd : StoreNode) (e : Engines).

(** ** node.rs *)

Definition check_store nd e : run Z :=
  res ← get_msg (kv e) STORE_IDENT_KEY;
  match res with
  | None => Returns INVALID_ID
  | Some ident =>
      if negb (si_cluster_id ident =? nd_cluster_id nd) then Panics
      else if negb (si_store_id ident =? nd_store_id nd) then Panics
      else Returns (nd_store_id nd)
  end.

(** The peers [(i, i)] for [i] in [1..=cluster_size]. *)
Definition cluster_peers (cluster_size : Z) : list (Z * Z) :=
  (λ i, (i, i)) <$> seqZ 1 cluster_size.
Definition node_region (cluster_size : Z) : Region :=
  initial_region REGION_ID (cluster_peers cluster_size).
Definition node_prepare_bootstrap_cluster (cluster_size : Z) e : Engines :=
  prepare_bootstrap_cluster e (node_region cluster_size).

Definition try_bootstrap_store nd e : run Engines :=
  store_id ← check_store nd e;
  if store_id =? INVALID_ID
  then Returns (node_prepare_bootstrap_cluster (nd_cluster_size nd)
                  (bootstrap_store e (nd_cluster_id nd) (nd_store_id nd)))
  else Returns e.

(** ** The start of store.rs *)

(** [RaftPollerBuilder::init]; its batches stay empty. *)
Definition poller_init (store_id : Z) e : run (list PeerFsm) :=
  local_state ← get_msg_cf (kv e) CF_RAFT (region_state_key REGION_ID);
  local_state ← unwrap local_state;
  let region := get_or_default (rl_region local_state) in
  fsm ← fsm_create store_id e region;
  Returns [fsm].

(** [RaftPollerBuilder::build]. *)
Definition poller_build (now : Z) e : PollContext :=
  {| x_engines := e; x_raft_wb := wb_new; x_has_ready := false; x_ready_res := [];
     x_current_time := None; x_now := now; x_ticks := []; x_apply := []; x_gc := [];
     x_trans := []; x_sent := [] |}.

(** [ApplySystem::schedule_all] of apply.rs. *)
Definition schedule_all (peers : list PeerFsm) : run ApplyDelegate :=
  match peers with
  | [fsm] => Returns (from_registration (registration_of (f_peer fsm)))
  | _ => Panics
  end.

Definition start_system (now : Z) e (region_peers : list PeerFsm) : run Started :=
  apply ← schedule_all region_peers;
  rust_assert (length region_peers =? 1)%nat (
  fsm ← unwrap (head region_peers);
  Returns {| st_fsm := fsm; st_ctx := poller_build now e; st_msgs := [PeerMsg_Start];
             st_apply := apply |}).

Definition spawn_ex (store_id now : Z) e : run Started :=
  region_peers ← poller_init store_id e;
  start_system now e region_peers.

Definition start_store (now : Z) nd e : run (result Error (StoreNode * Started)) :=
  if nd_has_started nd then Returns (Err (Error_Other (pretty (nd_store_id nd) +:+ " is already started")))
  else
    let nd := {| nd_cluster_id := nd_cluster_id nd; nd_cluster_size := nd_cluster_size nd;
                 nd_store_id := nd_store_id nd; nd_has_started := true |} in
    started ← spawn_ex (nd_store_id nd) now e;
    Returns (Ok (nd, started)).

(** [init_servers] of startup.rs: what it does with the node. *)
Definition init_servers (now : Z) nd e : run (Engines * StoreNode * Started) :=
  e ← try_bootstrap_store nd e;
  r ← start_store now nd e;
  '(nd, started) ← unwrap_ok r;
  rust_assert (0 <? nd_store_id nd) (Returns (e, nd, started)).

(** What a crash in the first start leaves on disk: nothing, the identity, the
    identity and what goes to the kv engine, or everything. *)
Definition bootstrap_crashes nd e : list Engines :=
  let e1 := bootstrap_store e (nd_cluster_id nd) (nd_store_id nd) in
  let e2 := node_prepare_bootstrap_cluster (nd_cluster_size nd) e1 in
  [e; e1; {| kv := kv e2; raft := raft e1 |}; e2].
End node.

(** ** The start *)

Section node_spec.
Context {R : RocksDB} {RL : RocksDBLaws R} {RN : RawNode}.
Context `{!ProtoMessage Entry, !ProtoMessage RaftLocalState, !ProtoMessage RaftApplyState}.
Context `{!ProtoMessage RegionLocalState, !ProtoMessage StoreIdent, !ProtoMessage RaftCmdRequest}.
Context `{!ProtoRoundTrip Entry, !ProtoRoundTrip RaftLocalState, !ProtoRoundTrip RaftApplyState}.
Context `{!ProtoRoundTrip RegionLocalState, !ProtoRoundTrip StoreIdent, !ProtoEmpty Entry}.
Implicit Types (nd : StoreNode) (e : Engines).

(** The identity and the region of the node are on disk. *)
Record node_disk nd e : Prop := {
  disk_ident : db_get (kv e) CF_DEFAULT STORE_IDENT_KEY = Some (write_to_bytes
    {| si_cluster_id := nd_cluster_id nd; si_store_id := nd_store_id nd |});
  disk_region : db_get (kv e) CF_RAFT (region_state_key REGION_ID) = Some (write_to_bytes
    {| rl_region := Some (node_region (nd_cluster_size nd)) |})
}.

(** An engine that was never used. *)
Record fresh_disk e : Prop := {
  fresh_ident : db_get (kv e) CF_DEFAULT STORE_IDENT_KEY = None;
  fresh_region : db_get (kv e) CF_RAFT (region_state_key REGION_ID) = None;
  fresh_raft k : db_get (raft e) CF_DEFAULT k = None
}.

(** raft-rs accepts the storage of the peer. *)
Definition raft_starts (id : Z) e (s : PeerStorage) : Prop :=
  ∃ node node', node_new id (applied_index_of s) e s = Ok node ∧ node_campaign node = (Ok tt, node').

Lemma find_node_peer n id :
  1 ≤ id ≤ n → find_peer (node_region n) id = Some (new_peer id id).
Proof.
  intros Hid. unfold find_peer, node_region, initial_region. cbn.
  assert (Hf : ∀ i, 1 ≤ i → i ≤ id → ∀ m, id < i + m →
    snd <$> list_find (λ p, peer_store_id p = id)
      ((λ '(s, p), new_peer s p) <$> ((λ j, (j, j)) <$> seqZ i m)) = Some (new_peer id id)).
  { intros i Hi1 Hi2 m Hm. remember (Z.to_nat m) as k eqn:Hk. revert i m Hi1 Hi2 Hm Hk.
    induction k as [|k IH]; intros i m Hi1 Hi2 Hm Hk; [lia|].
    rewrite seqZ_cons, !fmap_cons by lia. cbn [list_find]. case_decide as Hd; cbn in Hd.
    - by subst.
    - specialize (IH (Z.succ i) (Z.pred m) ltac:(lia) ltac:(lia) ltac:(lia) ltac:(lia)).
      rewrite <-IH. by destruct (list_find _ _) as [[j p]|]. }
  apply Hf; lia.
Qed.

(** The disk after the identity was written, and after the region was. *)
Lemma ident_written nd e :
  db_get (kv (bootstrap_store e (nd_cluster_id nd) (nd_store_id nd))) CF_DEFAULT STORE_IDENT_KEY =
  Some (write_to_bytes {| si_cluster_id := nd_cluster_id nd; si_store_id := nd_store_id nd |}).
Proof.
  unfold bootstrap_store, put_msg, put, put_cf. cbn [kv]. rewrite db_get_write. cbn. by rewrite decide_True.
Qed.

Lemma ident_only e cluster_id store_id k :
  db_get (kv (bootstrap_store e cluster_id store_id)) CF_RAFT k = db_get (kv e) CF_RAFT k.
Proof.
  unfold bootstrap_store, put_msg, put, put_cf. cbn [kv]. rewrite db_get_write. cbn.
  by rewrite decide_False.
Qed.

Lemma region_written n e :
  db_get (kv (node_prepare_bootstrap_cluster n e)) CF_RAFT (region_state_key REGION_ID) =
  Some (write_to_bytes {| rl_region := Some (node_region n) |}).
Proof.
  unfold node_prepare_bootstrap_cluster, prepare_bootstrap_cluster, write_opt. cbn [kv].
  rewrite db_get_write. unfold write_initial_apply_state, wb_put_msg_cf, wb_put_cf, wb_record, ops_get.
  cbn [wb_ops wb_new app foldl op_key op_value region_id node_region initial_region].
  rewrite decide_False by (vm_compute; congruence). by rewrite decide_True.
Qed.

Lemma prepared_default n e k :
  db_get (kv (node_prepare_bootstrap_cluster n e)) CF_DEFAULT k = db_get (kv e) CF_DEFAULT k.
Proof.
  unfold node_prepare_bootstrap_cluster, prepare_bootstrap_cluster, write_opt. cbn [kv].
  rewrite db_get_write. unfold write_initial_apply_state, wb_put_msg_cf, wb_put_cf, wb_record, ops_get.
  cbn [wb_ops wb_new app foldl op_key op_value]. by rewrite !decide_False.
Qed.

Lemma check_store_known nd e :
  db_get (kv e) CF_DEFAULT STORE_IDENT_KEY = Some (write_to_bytes
    {| si_cluster_id := nd_cluster_id nd; si_store_id := nd_store_id nd |}) →
  check_store nd e = Returns (nd_store_id nd).
Proof.
  intros Hi. unfold check_store, get_msg, get_value. rewrite Hi, parse_write. cbn.
  by rewrite !Z.eqb_refl.
Qed.

Lemma bootstrap_known nd e :
  1 ≤ nd_store_id nd →
  db_get (kv e) CF_DEFAULT STORE_IDENT_KEY = Some (write_to_bytes
    {| si_cluster_id := nd_cluster_id nd; si_store_id := nd_store_id nd |}) →
  try_bootstrap_store nd e = Returns e.
Proof.
  intros Hid Hi. unfold try_bootstrap_store. rewrite check_store_known by done. cbn.
  by rewrite (proj2 (Z.eqb_neq _ _)) by (unfold INVALID_ID; lia).
Qed.

Lemma bootstrap_fresh nd e :
  db_get (kv e) CF_DEFAULT STORE_IDENT_KEY = None →
  try_bootstrap_store nd e = Returns (node_prepare_bootstrap_cluster (nd_cluster_size nd)
    (bootstrap_store e (nd_cluster_id nd) (nd_store_id nd))).
Proof.
  intros Hi. unfold try_bootstrap_store, check_store, get_msg, get_value. by rewrite Hi.
Qed.

(** The peer of the node, once its storage is recovered and raft-rs accepts it. *)
Lemma init_servers_disk now nd e s :
  node_disk nd e → 1 ≤ nd_store_id nd ≤ nd_cluster_size nd → nd_has_started nd = false →
  peer_storage_new e (node_region (nd_cluster_size nd)) (nd_store_id nd) = Returns s →
  raft_starts (nd_store_id nd) e s →
  ∃ nd' st, init_servers now nd e = Returns (e, nd', st) ∧ nd_has_started nd' = true ∧
    p_store (f_peer (st_fsm st)) = s ∧
    p_peer (f_peer (st_fsm st)) = new_peer (nd_store_id nd) (nd_store_id nd) ∧
    st_apply st = from_registration (registration_of (f_peer (st_fsm st))) ∧
    x_engines (st_ctx st) = e ∧ st_msgs st = [PeerMsg_Start].
Proof.
  intros [Hi Hr] Hid Hstart Hs (node & node' & Hnode & Hcamp).
  unfold init_servers. rewrite bootstrap_known by (done || lia). cbn.
  unfold start_store. rewrite Hstart. cbn. unfold spawn_ex, poller_init, get_msg_cf, get_value_cf.
  rewrite Hr, parse_write. cbn [unwrap mbind run_bind rl_region get_or_default].
  unfold fsm_create. rewrite find_node_peer by done. cbn [unwrap mbind run_bind].
  unfold peer_new. change (Raftpb.peer_id (new_peer _ _)) with (nd_store_id nd).
  rewrite (proj2 (Z.eqb_neq _ _)) by lia. rewrite Hs. cbn [mbind run_bind]. rewrite Hnode.
  assert (Hpos : (0 <? nd_store_id nd) = true) by (apply Z.ltb_lt; lia).
  destruct (region_peers (node_region (nd_cluster_size nd))) as [|q [|q' qs]];
    [|destruct (peer_store_id q =? nd_store_id nd)|]; rewrite ?Hcamp;
    cbn; rewrite Hpos; cbn; do 2 eexists; (split; [done|]); done.
Qed.

Lemma region_id_u64 n : is_u64 (region_id (node_region n)).
Proof. cbn. unfold is_u64, REGION_ID, u64_modulus. lia. Qed.

Lemma bootstrapped_disk nd e :
  node_disk nd (node_prepare_bootstrap_cluster (nd_cluster_size nd)
    (bootstrap_store e (nd_cluster_id nd) (nd_store_id nd))).
Proof. split; [rewrite prepared_default; apply ident_written|apply region_written]. Qed.

(** The first start of a store: on fresh engines the identity and the region with
    one voter per store of the cluster are written, and the peer, the apply worker and
    the poller start from the storage of a bootstrapped peer, the state from which the
    theorems on the storage start. *)
Theorem node_first_start now nd e :
  fresh_disk e → 1 ≤ nd_store_id nd ≤ nd_cluster_size nd → nd_has_started nd = false →
  let e' := node_prepare_bootstrap_cluster (nd_cluster_size nd)
              (bootstrap_store e (nd_cluster_id nd) (nd_store_id nd)) in
  (∀ s, peer_storage_new e' (node_region (nd_cluster_size nd)) (nd_store_id nd) = Returns s →
        raft_starts (nd_store_id nd) e' s) →
  ∃ nd' st, init_servers now nd e = Returns (e', nd', st) ∧ node_disk nd e' ∧
    bootstrapped {| pt_engines := e'; pt_storage := p_store (f_peer (st_fsm st)); pt_log := ∅;
                    pt_apply := initial_apply_state |} ∧
    p_peer (f_peer (st_fsm st)) = new_peer (nd_store_id nd) (nd_store_id nd) ∧
    st_apply st = from_registration (registration_of (f_peer (st_fsm st))).
Proof.
  intros [Hf _ Hraft] Hid Hstart e' Hrn.
  set (e1 := bootstrap_store e (nd_cluster_id nd) (nd_store_id nd)) in *.
  pose proof (bootstrap_storage e1 (node_region (nd_cluster_size nd)) (nd_store_id nd)
    (region_id_u64 _) Hraft) as Hinv.
  destruct (peer_storage_new_spec _ _ _ _ _ Hinv (nd_store_id nd)) as (t & _ & Hs & _).
  destruct (init_servers_disk now nd e' _ (bootstrapped_disk nd e) Hid Hstart Hs (Hrn _ Hs))
    as (nd' & st & Hinit & _ & Hst & Hpeer & Happly & _).
  exists nd', st. split; [|split; [apply bootstrapped_disk|split; [|done]]].
  - unfold init_servers in *. rewrite bootstrap_fresh by done. fold e1 e'.
    rewrite bootstrap_known in Hinit by (lia || apply (bootstrapped_disk nd e)). exact Hinit.
  - rewrite Hst. by apply (bootstrapped_intro e1 (node_region (nd_cluster_size nd)) (nd_store_id nd)).
Qed.

(** A restart of a store that was started before changes nothing on disk and
    never panics: it is the restart step of the storage, whatever the peer did
    meanwhile. *)
Theorem node_restart now nd p :
  reachable_peer p → node_disk nd (pt_engines p) →
  ps_region (pt_storage p) = node_region (nd_cluster_size nd) →
  1 ≤ nd_store_id nd ≤ nd_cluster_size nd → nd_has_started nd = false →
  (∀ s, peer_storage_new (pt_engines p) (node_region (nd_cluster_size nd)) (nd_store_id nd) =
        Returns s → raft_starts (nd_store_id nd) (pt_engines p) s) →
  ∃ nd' st, init_servers now nd (pt_engines p) = Returns (pt_engines p, nd', st) ∧
    storage_step p {| pt_engines := pt_engines p; pt_storage := p_store (f_peer (st_fsm st));
                      pt_log := pt_log p; pt_apply := pt_apply p |}.
Proof.
  intros [h Hinv]%reachable_peer_inv Hdisk Hregion Hid Hstart Hrn.
  destruct (peer_storage_new_spec _ _ _ _ _ Hinv (nd_store_id nd)) as (t & _ & Hs & _).
  rewrite Hregion in Hs.
  destruct (init_servers_disk now nd _ _ Hdisk Hid Hstart Hs (Hrn _ Hs))
    as (nd' & st & Hinit & _ & Hst & _).
  exists nd', st. split; [done|]. rewrite Hst. destruct p as [e s L ap]. cbn in *.
  apply (step_restart e s L ap (nd_store_id nd)). by rewrite Hregion.
Qed.

(** C40. A first start that is interrupted cannot be repaired by a restart: if the
    process stops between the write of the identity and the write of the raft state,
    the store counts as bootstrapped from then on, and every later start panics on
    what is missing. *)
Theorem interrupted_bootstrap_never_starts now nd e e' :
  fresh_disk e → 1 ≤ nd_store_id nd ≤ nd_cluster_size nd →
  (∃ i, (1 ≤ i ≤ 2)%nat ∧ bootstrap_crashes nd e !! i = Some e') →
  try_bootstrap_store nd e' = Returns e' ∧ init_servers now nd e' = Panics.
Proof.
  intros [Hf Hr Hraft] Hid (i & Hi & He').
  set (e1 := bootstrap_store e (nd_cluster_id nd) (nd_store_id nd)).
  set (e2 := node_prepare_bootstrap_cluster (nd_cluster_size nd) e1).
  assert (Hcase : e' = e1 ∨ e' = {| kv := kv e2; raft := raft e1 |}).
  { destruct i as [|[|[|i]]]; [lia|left|right|lia]; injection He' as <-; done. }
  assert (Hknown : try_bootstrap_store nd e' = Returns e').
  { apply bootstrap_known; [lia|].
    destruct Hcase as [->| ->]; [|cbn [kv]; unfold e2; rewrite prepared_default]; apply ident_written. }
  split; [done|]. unfold init_servers. rewrite Hknown. cbn [mbind run_bind]. unfold start_store.
  destruct (nd_has_started nd); [done|]. cbn [nd_store_id].
  unfold spawn_ex, poller_init, get_msg_cf, get_value_cf.
  destruct Hcase as [->| ->].
  - unfold e1. by rewrite ident_only, Hr.
  - cbn [kv]. unfold e2. rewrite region_written, parse_write. cbn [unwrap mbind run_bind rl_region get_or_default].
    unfold fsm_create. rewrite find_node_peer by done. cbn [unwrap mbind run_bind].
    unfold peer_new. change (Raftpb.peer_id (new_peer _ _)) with (nd_store_id nd).
    rewrite (proj2 (Z.eqb_neq _ _)) by lia.
    unfold peer_storage_new, init_raft_state, get_raft_state, get_msg_cf, get_value_cf. cbn [raft].
    change (raft e1) with (raft e). by rewrite Hraft.
Qed.
End node_spec.

(** ** A cluster of one store *)

Module node_demo.
Definition nd : StoreNode := node_init 7 1 1.
Definition disk : Engines (R:=RefRocks) := {| kv := ref_empty; raft := ref_empty |}.
Definition started : Engines :=
  node_prepare_bootstrap_cluster 1 (bootstrap_store disk 7 1).
Definition storage : PeerStorage :=
  {| ps_peer_id := 1; ps_region := node_region 1;
     ps_raft_state := {| rls_hard_state := Some {| hs_term := 5; hs_vote := 0; hs_commit := 5 |};
                         rls_last_index := 5 |};
     ps_apply_state := initial_apply_state; ps_applied_index_term := 5; ps_last_term := 5 |}.
Definition peer : PeerState :=
  {| pt_engines := started; pt_storage := storage; pt_log := ∅; pt_apply := initial_apply_state |}.

Lemma disk_fresh : fresh_disk disk.
Proof. split; done. Qed.

Lemma storage_new : peer_storage_new started (node_region 1) 1 = Returns storage.
Proof. reflexivity. Qed.

Lemma starts s : peer_storage_new started (node_region 1) 1 = Returns s → raft_starts 1 started s.
Proof.
  rewrite storage_new. intros [= <-]. unfold raft_starts. eexists _, _.
  split; reflexivity.
Qed.

Lemma storage_reachable : reachable_peer peer.
Proof.
  exists peer. split; [|apply rtc_refl].
  apply (bootstrapped_intro (bootstrap_store disk 7 1) (node_region 1) 1); [|done|apply storage_new].
  vm_compute. split; congruence.
Qed.
End node_demo.

Lemma node_first_start_witness :
  ∃ nd' st, init_servers 0 node_demo.nd node_demo.disk = Returns (node_demo.started, nd', st) ∧
    p_peer (f_peer (st_fsm st)) = new_peer 1 1.
Proof.
  destruct (node_first_start 0 node_demo.nd node_demo.disk) as (nd' & st & Hi & _ & _ & Hp & _).
  - apply node_demo.disk_fresh.
  - split; vm_compute; congruence.
  - reflexivity.
  - apply node_demo.starts.
  - exists nd', st. split; [exact Hi|exact Hp].
Defined.

Lemma node_restart_witness :
  ∃ nd' st, init_servers 0 node_demo.nd node_demo.started = Returns (node_demo.started, nd', st).
Proof.
  destruct (node_restart 0 node_demo.nd node_demo.peer) as (nd' & st & Hi & _).
  - apply node_demo.storage_reachable.
  - split; reflexivity.
  - reflexivity.
  - split; vm_compute; congruence.
  - reflexivity.
  - apply node_demo.starts.
  - exists nd', st. exact Hi.
Defined.

(** A crash right after the identity was written. *)
Lemma interrupted_bootstrap_never_starts_witness :
  init_servers 0 node_demo.nd (bootstrap_store node_demo.disk 7 1) = Panics.
Proof.
  apply (interrupted_bootstrap_never_starts 0 node_demo.nd node_demo.disk).
  - apply node_demo.disk_fresh.
  - split; vm_compute; congruence.
  - exists 1%nat. split; [lia|reflexivity].
Defined.
