(* ===== verification/Worker.v ===== *)
(** * tikv-util/src/worker/pool.rs: background workers

    A scheduler counts the tasks that are pending and sends them to the worker, which
    runs them one after the other and, with a timer, is woken at intervals.  The
    counter is shared without a lock, so that schedulers, worker and timer interleave
    at their atomic steps.  The worker that collects the raft log is an instance. *)

From S2P Require Import Prelude Bytes Keys Proto Raftpb Errors RocksEngine RaftLog PeerStorage.
From S2P Require Import RefRocks RefCodec RaftCmd Batch Apply Peer RaftNode.
Local Open Scope Z_scope.

(** ** Tasks and runners *)

Inductive WorkerMsg (T : Type) := WTask (task : T) | WTimeout.
Global Arguments WTask {T} task.
Global Arguments WTimeout {T}.

Inductive ScheduleError (T : Type) := ScheduleStopped (task : T) | ScheduleFull (task : T).
Global Arguments ScheduleStopped {T} task.
Global Arguments ScheduleFull {T} task.
Definition schedule_error_into_inner {T} (e : ScheduleError T) : T :=
  match e with ScheduleStopped t => t | ScheduleFull t => t end.

(** The traits [Runnable] and [RunnableWithTimer]. *)
Class Runnable (Rn T : Type) := {
  runnable_run : T → Rn → run Rn;
  runnable_on_timeout : Rn → run Rn;
  runnable_shutdown : Rn → run Rn
}.

Section worker.
Context {Rn T : Type} `{Runnable Rn T}.

(** ** The shared state

    [ch_closed] is whether the sending side was closed; [w_history] and [w_accepted]
    record what the worker has taken up and what schedulers have accepted. *)

Inductive SchedulerPc := SIdle | SChecked (task : T) | SCounted (task : T) | SReverting (task : T).
Inductive WorkerPc := WUnstarted | WWaiting | WRan (task : T) | WStopped.

Record WorkerState := mkWorker {
  w_counter : Z;
  w_capacity : Z;
  w_channel : list (WorkerMsg T);
  w_closed : bool;
  w_timer : bool;
  w_pc : WorkerPc;
  w_runner : Rn;
  w_schedulers : list SchedulerPc;
  w_history : list (WorkerMsg T);
  w_accepted : list T
}.

(** A worker that was started; the timer runs if it has one. *)
Definition worker_start (capacity : Z) (timer : bool) (schedulers : nat) (runner : Rn) : WorkerState :=
  mkWorker 0 capacity [] false timer WWaiting runner (replicate schedulers SIdle) [] [].

(** [lazy_build] makes the channel and the scheduler; [start] of the [LazyWorker] takes
    the receiver and hands it to the runner, unless that was done before. *)
Definition lazy_build (capacity : Z) (schedulers : nat) (runner : Rn) : WorkerState :=
  mkWorker 0 capacity [] false false WUnstarted runner (replicate schedulers SIdle) [] [].
Definition lazy_start (timer : bool) (s : WorkerState) : bool * WorkerState :=
  match w_pc s with
  | WUnstarted =>
      (true, mkWorker (w_counter s) (w_capacity s) (w_channel s) (w_closed s) timer WWaiting
               (w_runner s) (w_schedulers s) (w_history s) (w_accepted s))
  | _ => (false, s)
  end.

(** [is_busy] of the scheduler. *)
Definition scheduler_is_busy (s : WorkerState) : bool := 0 <? w_counter s.

(** The three atomic steps of [schedule]: the check, the count and the send, which a
    closed channel refuses. *)
Definition schedule_check (i : nat) (task : T) (s : WorkerState) :
    WorkerState * result (ScheduleError T) unit :=
  if w_capacity s <=? w_counter s then (s, Err (ScheduleFull task))
  else (mkWorker (w_counter s) (w_capacity s) (w_channel s) (w_closed s) (w_timer s) (w_pc s)
          (w_runner s) (<[i := SChecked task]> (w_schedulers s)) (w_history s) (w_accepted s), Ok tt).
Definition schedule_count (i : nat) (task : T) (s : WorkerState) : WorkerState :=
  mkWorker (w_counter s +u 1) (w_capacity s) (w_channel s) (w_closed s) (w_timer s) (w_pc s)
    (w_runner s) (<[i := SCounted task]> (w_schedulers s)) (w_history s) (w_accepted s).
Definition schedule_send (i : nat) (task : T) (s : WorkerState) : WorkerState :=
  if w_closed s
  then mkWorker (w_counter s) (w_capacity s) (w_channel s) (w_closed s) (w_timer s) (w_pc s)
         (w_runner s) (<[i := SReverting task]> (w_schedulers s)) (w_history s) (w_accepted s)
  else mkWorker (w_counter s) (w_capacity s) (w_channel s ++ [WTask task]) (w_closed s) (w_timer s)
         (w_pc s) (w_runner s) (<[i := SIdle]> (w_schedulers s)) (w_history s)
         (w_accepted s ++ [task]).
Definition schedule_revert (i : nat) (task : T) (s : WorkerState) :
    WorkerState * result (ScheduleError T) unit :=
  (mkWorker (w_counter s -u 1) (w_capacity s) (w_channel s) (w_closed s) (w_timer s) (w_pc s)
     (w_runner s) (<[i := SIdle]> (w_schedulers s)) (w_history s) (w_accepted s),
   Err (ScheduleStopped task)).

Definition scheduler_stop (s : WorkerState) : WorkerState :=
  mkWorker (w_counter s) (w_capacity s) (w_channel s) true (w_timer s) (w_pc s) (w_runner s)
    (w_schedulers s) (w_history s) (w_accepted s).

(** [delay_notify]: the timer fires; a closed channel drops the message. *)
Definition timer_fire (s : WorkerState) : WorkerState :=
  mkWorker (w_counter s) (w_capacity s)
    (if w_closed s then w_channel s else w_channel s ++ [WTimeout]) (w_closed s) false (w_pc s)
    (w_runner s) (w_schedulers s) (w_history s) (w_accepted s).

(** The loop of [start_with_timer_impl] takes up a message; the counter goes down after
    the task has run. *)
Definition worker_take (msg : WorkerMsg T) (channel : list (WorkerMsg T)) (s : WorkerState) :
    run WorkerState :=
  match msg with
  | WTask task =>
      runner ← runnable_run task (w_runner s);
      Returns (mkWorker (w_counter s) (w_capacity s) channel (w_closed s) (w_timer s) (WRan task)
                 runner (w_schedulers s) (w_history s ++ [msg]) (w_accepted s))
  | WTimeout =>
      runner ← runnable_on_timeout (w_runner s);
      Returns (mkWorker (w_counter s) (w_capacity s) channel (w_closed s) true WWaiting
                 runner (w_schedulers s) (w_history s ++ [msg]) (w_accepted s))
  end.
Definition worker_done (s : WorkerState) : WorkerState :=
  mkWorker (w_counter s -u 1) (w_capacity s) (w_channel s) (w_closed s) (w_timer s) WWaiting
    (w_runner s) (w_schedulers s) (w_history s) (w_accepted s).
(** The channel is closed and empty: the runner is dropped. *)
Definition worker_exit (s : WorkerState) : run WorkerState :=
  runner ← runnable_shutdown (w_runner s);
  Returns (mkWorker (w_counter s) (w_capacity s) (w_channel s) (w_closed s) (w_timer s) WStopped
             runner (w_schedulers s) (w_history s) (w_accepted s)).

Inductive worker_step : WorkerState → WorkerState → Prop :=
| ws_check s s' i task :
    w_schedulers s !! i = Some SIdle → schedule_check i task s = (s', Ok tt) → worker_step s s'
| ws_count s i task :
    w_schedulers s !! i = Some (SChecked task) → worker_step s (schedule_count i task s)
| ws_send s i task :
    w_schedulers s !! i = Some (SCounted task) → worker_step s (schedule_send i task s)
| ws_revert s i task :
    w_schedulers s !! i = Some (SReverting task) → worker_step s (schedule_revert i task s).1
| ws_start s timer : worker_step s (lazy_start timer s).2
| ws_stop s : worker_step s (scheduler_stop s)
| ws_timer s : w_timer s = true → worker_step s (timer_fire s)
| ws_take s s' msg channel :
    w_pc s = WWaiting → w_channel s = msg :: channel → worker_take msg channel s = Returns s' →
    worker_step s s'
| ws_done s task : w_pc s = WRan task → worker_step s (worker_done s)
| ws_exit s s' :
    w_pc s = WWaiting → w_channel s = [] → w_closed s = true → worker_exit s = Returns s' →
    worker_step s s'.

(** ** What holds in every interleaving *)

Definition tasks_of (msgs : list (WorkerMsg T)) : list T :=
  omap (λ msg, match msg with WTask task => Some task | WTimeout => None end) msgs.

(** The runner after the messages, one after the other. *)
Fixpoint run_messages (msgs : list (WorkerMsg T)) (runner : Rn) : run Rn :=
  match msgs with
  | [] => Returns runner
  | WTask task :: msgs => runner ← runnable_run task runner; run_messages msgs runner
  | WTimeout :: msgs => runner ← runnable_on_timeout runner; run_messages msgs runner
  end.

(** How many times a scheduler is counted, and whether it has passed the check. *)
Definition counted (pc : SchedulerPc) : nat :=
  match pc with SCounted _ | SReverting _ => 1 | _ => 0 end.
Definition checked (pc : SchedulerPc) : nat := match pc with SChecked _ => 1 | _ => 0 end.
Definition running (pc : WorkerPc) : nat := match pc with WRan _ => 1 | _ => 0 end.
Definition total_of (f : SchedulerPc → nat) (l : list SchedulerPc) : nat := sum_list_with f l.
Definition timeouts_of (msgs : list (WorkerMsg T)) : nat :=
  sum_list_with (λ msg, match msg with WTimeout => 1 | WTask _ => 0 end)%nat msgs.

Local Arguments tasks_of _ : simpl never.
Local Arguments total_of _ _ : simpl never.
Local Arguments timeouts_of _ : simpl never.

Lemma tasks_of_task task l : tasks_of (WTask task :: l) = task :: tasks_of l.
Proof. done. Qed.
Lemma tasks_of_timeout l : tasks_of (WTimeout :: l) = tasks_of l.
Proof. done. Qed.
Lemma timeouts_of_app l1 l2 : timeouts_of (l1 ++ l2) = (timeouts_of l1 + timeouts_of l2)%nat.
Proof. apply sum_list_with_app. Qed.
Lemma timeouts_of_task task l : timeouts_of (WTask task :: l) = timeouts_of l.
Proof. done. Qed.
Lemma timeouts_of_timeout l : timeouts_of (WTimeout :: l) = S (timeouts_of l).
Proof. done. Qed.
Lemma tasks_of_nil : tasks_of [] = [].
Proof. done. Qed.
Lemma timeouts_of_nil : timeouts_of [] = 0%nat.
Proof. done. Qed.

Lemma total_of_insert f (l : list SchedulerPc) i x y :
  l !! i = Some x → (total_of f (<[i := y]> l) + f x = total_of f l + f y)%nat.
Proof.
  unfold total_of. revert i. induction l as [|z l IH]; [done|]. intros [|i] Hi.
  - injection Hi as ->. change (<[0%nat := y]> (x :: l)) with (y :: l). cbn [sum_list_with]. lia.
  - change (<[S i := y]> (z :: l)) with (z :: <[i := y]> l). cbn [sum_list_with].
    specialize (IH i Hi). lia.
Qed.

Lemma total_of_le f (l : list SchedulerPc) :
  (∀ pc, (f pc ≤ 1)%nat) → (total_of f l ≤ length l)%nat.
Proof. intros Hf. unfold total_of. induction l as [|z l IH]; cbn; [lia|]. specialize (Hf z). lia. Qed.

Lemma total_of_replicate f n : f SIdle = 0%nat → total_of f (replicate n SIdle) = 0%nat.
Proof. intros Hf. unfold total_of. induction n as [|n IH]; cbn; lia. Qed.

Lemma tasks_of_app l1 l2 : tasks_of (l1 ++ l2) = tasks_of l1 ++ tasks_of l2.
Proof. apply omap_app. Qed.

Lemma run_messages_app l1 l2 runner :
  run_messages (l1 ++ l2) runner = (r ← run_messages l1 runner; run_messages l2 r).
Proof.
  revert runner. induction l1 as [|[task|] l1 IH]; intros runner; [done|cbn..];
    [destruct (runnable_run task runner)|destruct (runnable_on_timeout runner)]; cbn; auto.
Qed.

Record worker_inv (n : nat) (r0 : Rn) (s : WorkerState) : Prop := {
  wi_schedulers : length (w_schedulers s) = n;
  wi_counter : w_counter s = Z.of_nat (length (tasks_of (w_channel s)) + running (w_pc s) +
                                       total_of counted (w_schedulers s));
  wi_bound : w_counter s + Z.of_nat (total_of checked (w_schedulers s)) ≤
             w_capacity s - 1 + Z.of_nat n;
  wi_capacity : w_capacity s - 1 + Z.of_nat n < u64_modulus;
  wi_order : w_accepted s = tasks_of (w_history s) ++ tasks_of (w_channel s);
  wi_runner : w_pc s ≠ WStopped → run_messages (w_history s) r0 = Returns (w_runner s);
  wi_stopped : w_pc s = WStopped → w_channel s = [] ∧ w_closed s = true ∧
    (r ← run_messages (w_history s) r0; runnable_shutdown r) = Returns (w_runner s);
  wi_timer : ((if w_timer s then 1 else 0) + timeouts_of (w_channel s) ≤ 1)%nat;
  wi_unstarted : w_pc s = WUnstarted →
    w_timer s = false ∧ timeouts_of (w_channel s) = 0%nat ∧ w_history s = []
}.

Lemma worker_start_inv capacity timer n r0 :
  (1 ≤ n)%nat → 0 ≤ capacity → capacity - 1 + Z.of_nat n < u64_modulus →
  worker_inv n r0 (worker_start capacity timer n r0).
Proof.
  intros Hn Hc Hb. split; cbn; try done.
  - apply length_replicate.
  - by rewrite total_of_replicate.
  - rewrite total_of_replicate by done. lia.
  - unfold timeouts_of. destruct timer; cbn; lia.
Qed.
Lemma lazy_build_inv capacity n r0 :
  (1 ≤ n)%nat → 0 ≤ capacity → capacity - 1 + Z.of_nat n < u64_modulus →
  worker_inv n r0 (lazy_build capacity n r0).
Proof.
  intros Hn Hc Hb. split; cbn; try done.
  - apply length_replicate.
  - by rewrite total_of_replicate.
  - rewrite total_of_replicate by done. lia.
  - unfold timeouts_of. cbn. lia.
Qed.

Lemma worker_step_inv n r0 s s' : worker_inv n r0 s → worker_step s s' → worker_inv n r0 s'.
Proof.
  intros Hinv Hstep.
  destruct Hstep as [s s' i task Hi Hs|s i task Hi|s i task Hi|s i task Hi|s tm|s|s Htm|s s' msg ch Hpc Hch Hs
    |s task Hpc|s s' Hpc Hch Hcl Hs]; pose proof Hinv as [Hn Hc Hb Hcap Ho Hr Hst Ht Hun].
  - unfold schedule_check in Hs. destruct (w_capacity s <=? w_counter s) eqn:Hle; [done|].
    injection Hs as <-. apply Z.leb_gt in Hle.
    pose proof (total_of_insert counted _ _ _ (SChecked task) Hi) as H1.
    pose proof (total_of_le checked (<[i:=SChecked task]> (w_schedulers s))
      ltac:(intros []; cbn; lia)) as H2. rewrite length_insert in H2.
    cbn in H1, H2. split; cbn; rewrite ?length_insert; try done; lia.
  - pose proof (total_of_insert counted _ _ _ (SCounted task) Hi) as H1.
    pose proof (total_of_insert checked _ _ _ (SCounted task) Hi) as H2. cbn in H1, H2.
    unfold schedule_count. split; cbn; rewrite ?length_insert; try done;
      rewrite ?u64_add_small by (unfold is_u64; lia); lia.
  - pose proof (λ y, total_of_insert counted _ _ _ y Hi) as H1.
    pose proof (λ y, total_of_insert checked _ _ _ y Hi) as H2.
    unfold schedule_send. destruct (w_closed s) eqn:Hcl.
    + specialize (H1 (SReverting task)). specialize (H2 (SReverting task)). cbn in H1, H2.
      split; cbn; rewrite ?length_insert; try done; lia.
    + specialize (H1 SIdle). specialize (H2 SIdle). cbn in H1, H2.
      split; cbn; rewrite ?length_insert, ?tasks_of_app, ?length_app, ?tasks_of_task, ?tasks_of_nil;
        cbn; try done; try lia.
      * by rewrite Ho, (assoc_L (++)).
      * intros Hp. by destruct (Hst Hp) as (_ & ? & _).
      * rewrite timeouts_of_app, timeouts_of_task, timeouts_of_nil. lia.
      * intros (? & ? & ?)%Hun. rewrite timeouts_of_app, timeouts_of_task, timeouts_of_nil.
        split_and!; [done|lia|done].
  - pose proof (total_of_insert counted _ _ _ SIdle Hi) as H1.
    pose proof (total_of_insert checked _ _ _ SIdle Hi) as H2. cbn in H1, H2.
    unfold schedule_revert. split; cbn; rewrite ?length_insert; try done;
      rewrite ?u64_sub_le by (unfold is_u64; lia); lia.
  - unfold lazy_start. destruct (w_pc s) eqn:Hpc; [|exact Hinv..].
    destruct (Hun eq_refl) as (_ & Ht0 & Hh). cbn in Hc. split; cbn; try done.
    + intros _. by apply Hr.
    + rewrite Ht0. destruct tm; lia.
  - split; cbn; try done. intros Hp. by destruct (Hst Hp) as (? & _ & ?).
  - unfold timer_fire. rewrite Htm in Ht. destruct (w_closed s) eqn:Hcl.
    + split; cbn; try done; [lia|]. intros (? & ? & ?)%Hun. congruence.
    + split; cbn; rewrite ?tasks_of_app, ?tasks_of_timeout, ?tasks_of_nil, ?app_nil_r; try done.
      * intros Hp. by destruct (Hst Hp) as (_ & ? & _).
      * rewrite timeouts_of_app, timeouts_of_timeout, timeouts_of_nil. lia.
      * intros (? & ? & ?)%Hun. congruence.
  - assert (Hp : w_pc s ≠ WStopped) by congruence. specialize (Hr Hp).
    rewrite Hch in Hc, Ho, Ht. rewrite Hpc in Hc. unfold worker_take in Hs. destruct msg as [task|].
    + destruct (runnable_run task (w_runner s)) as [r|] eqn:Hrun; [|done]. cbn in Hs. injection Hs as <-.
      rewrite tasks_of_task in Hc, Ho. rewrite timeouts_of_task in Ht. cbn in Hc.
      split; cbn; try done; try lia.
      * rewrite tasks_of_app, tasks_of_task, tasks_of_nil. by rewrite <-(assoc_L (++)).
      * intros _. rewrite run_messages_app, Hr. cbn. by rewrite Hrun.
    + destruct (runnable_on_timeout (w_runner s)) as [r|] eqn:Hrun; [|done]. cbn in Hs. injection Hs as <-.
      rewrite tasks_of_timeout in Hc, Ho. rewrite timeouts_of_timeout in Ht. cbn in Hc.
      split; cbn; try done; try lia.
      * rewrite tasks_of_app, tasks_of_timeout, tasks_of_nil. by rewrite app_nil_r.
      * intros _. rewrite run_messages_app, Hr. cbn. by rewrite Hrun.
  - assert (Hp : w_pc s ≠ WStopped) by congruence. specialize (Hr Hp). rewrite Hpc in Hc. cbn in Hc.
    unfold worker_done. split; cbn; try done; rewrite ?u64_sub_le by (unfold is_u64; lia); lia.
  - assert (Hp : w_pc s ≠ WStopped) by congruence. specialize (Hr Hp). rewrite Hpc in Hc.
    unfold worker_exit in Hs. destruct (runnable_shutdown (w_runner s)) as [r|] eqn:Hrun; [|done].
    cbn in Hs. injection Hs as <-. split; cbn; try done.
    intros _. by rewrite Hr.
Qed.

Lemma worker_steps_inv n r0 s0 s : worker_inv n r0 s0 → rtc worker_step s0 s → worker_inv n r0 s.
Proof. intros H0 Hs. induction Hs; eauto using worker_step_inv. Qed.
Lemma worker_reachable_inv capacity timer n r0 s :
  (1 ≤ n)%nat → 0 ≤ capacity → capacity - 1 + Z.of_nat n < u64_modulus →
  rtc worker_step (worker_start capacity timer n r0) s → worker_inv n r0 s.
Proof.
  intros Hn Hc Hb. by apply worker_steps_inv, worker_start_inv.
Qed.

(** In every interleaving of [n] schedulers with the worker and its timer, the tasks
    that were accepted are run once each and in the order in which they were accepted:
    what has been taken up followed by what is queued is what was accepted, and the
    runner is in the state that the messages taken up lead to.  A worker that has
    stopped has run all of them and was shut down.  At most one time-out is under way,
    and at most [capacity + n - 1] tasks are pending. *)
Theorem worker_runs_in_order capacity timer n r0 s :
  (1 ≤ n)%nat → 0 ≤ capacity → capacity - 1 + Z.of_nat n < u64_modulus →
  rtc worker_step (worker_start capacity timer n r0) s →
  w_accepted s = tasks_of (w_history s) ++ tasks_of (w_channel s) ∧
  (w_pc s ≠ WStopped → run_messages (w_history s) r0 = Returns (w_runner s)) ∧
  (w_pc s = WStopped → w_accepted s = tasks_of (w_history s) ∧
     (r ← run_messages (w_history s) r0; runnable_shutdown r) = Returns (w_runner s)) ∧
  ((if w_timer s then 1 else 0) + timeouts_of (w_channel s) ≤ 1)%nat ∧
  Z.of_nat (length (tasks_of (w_channel s)) + running (w_pc s)) ≤ w_capacity s - 1 + Z.of_nat n.
Proof.
  intros Hn Hc Hb Hs.
  destruct (worker_reachable_inv _ _ _ _ _ Hn Hc Hb Hs) as [_ Hcnt Hbound _ Ho Hr Hst Ht _].
  split_and!; try done; [|lia]. intros Hp. destruct (Hst Hp) as (Hch & _ & Hrun).
  rewrite Ho, Hch, tasks_of_nil, app_nil_r. done.
Qed.

(** A [LazyWorker] takes tasks before it is started: they wait, and the first [start]
    runs them in their order; another [start] changes nothing.  A worker stopped before
    it was started still runs what it had accepted. *)
Theorem lazy_worker_keeps_tasks capacity n r0 s :
  (1 ≤ n)%nat → 0 ≤ capacity → capacity - 1 + Z.of_nat n < u64_modulus →
  rtc worker_step (lazy_build capacity n r0) s →
  w_accepted s = tasks_of (w_history s) ++ tasks_of (w_channel s) ∧
  (w_pc s = WUnstarted → w_history s = [] ∧ w_runner s = r0) ∧
  (∀ timer, (lazy_start timer s).1 = true ↔ w_pc s = WUnstarted) ∧
  (w_pc s = WStopped → w_accepted s = tasks_of (w_history s)).
Proof.
  intros Hn Hc Hb Hs. apply (worker_steps_inv n r0) in Hs; [|by apply lazy_build_inv].
  destruct Hs as [_ _ _ _ Ho Hr Hst _ Hun]. split_and!; [done|..].
  - intros Hp. destruct (Hun Hp) as (_ & _ & Hh). split; [done|].
    assert (w_pc s ≠ WStopped) as Hne by congruence. specialize (Hr Hne). rewrite Hh in Hr.
    by injection Hr.
  - intros timer. unfold lazy_start. by destruct (w_pc s).
  - intros Hp. destruct (Hst Hp) as (Hch & _). by rewrite Ho, Hch, tasks_of_nil, app_nil_r.
Qed.
End worker.
Global Arguments WorkerState : clear implicits.
Global Arguments WorkerPc : clear implicits.
Global Arguments SchedulerPc : clear implicits.

(** The comment on [pending_capacity] promises that the pending tasks do not exceed
    it; the check and the count are two steps, so two schedulers can both pass the
    check for the last place. *)
Section overshoot.
Context {Rn T : Type} `{Runnable Rn T}.

Theorem pending_tasks_exceed_capacity (r0 : Rn) (t1 t2 : T) :
  ∃ s, rtc worker_step (worker_start 1 false 2 r0) s ∧
    w_channel s = [WTask t1; WTask t2] ∧ w_capacity s = 1.
Proof.
  eexists. split.
  - eapply rtc_l; [by eapply (ws_check _ _ 0 t1)|]. eapply rtc_l; [by eapply (ws_check _ _ 1 t2)|].
    eapply rtc_l; [by apply (ws_count _ 0 t1)|]. eapply rtc_l; [by apply (ws_count _ 1 t2)|].
    eapply rtc_l; [by apply (ws_send _ 0 t1)|]. eapply rtc_l; [by apply (ws_send _ 1 t2)|].
    apply rtc_refl.
  - done.
Qed.
End overshoot.

(** ** Building and stopping a worker *)

Record WorkerBuilder := { wkb_thread_count : Z; wkb_pending_capacity : Z }.
Definition worker_builder_new : WorkerBuilder :=
  {| wkb_thread_count := 1; wkb_pending_capacity := u64_max |}.
Definition with_pending_capacity (n : Z) (b : WorkerBuilder) : WorkerBuilder :=
  {| wkb_thread_count := wkb_thread_count b; wkb_pending_capacity := n |}.
Definition with_thread_count (n : Z) (b : WorkerBuilder) : WorkerBuilder :=
  {| wkb_thread_count := n; wkb_pending_capacity := wkb_pending_capacity b |}.

(** [Worker]; [wh_pool] is whether its threads still run. *)
Record WorkerHandle := {
  wh_pool : bool; wh_pending_capacity : Z; wh_counter : Z; wh_stop : bool; wh_thread_count : Z }.
Definition worker_create (b : WorkerBuilder) : WorkerHandle :=
  {| wh_pool := true; wh_pending_capacity := wkb_pending_capacity b; wh_counter := 0;
     wh_stop := false; wh_thread_count := wkb_thread_count b |}.
Definition worker_stop (h : WorkerHandle) : WorkerHandle :=
  if wh_pool h
  then {| wh_pool := false; wh_pending_capacity := wh_pending_capacity h;
          wh_counter := wh_counter h; wh_stop := true; wh_thread_count := wh_thread_count h |}
  else h.
Definition worker_is_busy (h : WorkerHandle) : bool :=
  wh_stop h || (wh_thread_count h <=? wh_counter h).

(** A worker that was stopped is busy for good, and stopping it again changes nothing. *)
Lemma worker_stop_busy h :
  wh_pool h = true ∨ wh_stop h = true →
  worker_is_busy (worker_stop h) = true ∧ worker_stop (worker_stop h) = worker_stop h.
Proof.
  intros Hp. unfold worker_stop, worker_is_busy. destruct (wh_pool h) eqn:E; cbn; [done|].
  rewrite E. destruct Hp as [Hp|Hp]; [done|by rewrite Hp].
Qed.

(** ** A scheduler without a worker *)

Section dummy.
Context {T : Type}.

(** The counter, the channel and whether it was closed. *)
Record Dummy := { dm_counter : Z; dm_channel : list (WorkerMsg T); dm_closed : bool }.
Definition DUMMY_CAPACITY : Z := 1000.
Definition dummy_scheduler : Dummy := {| dm_counter := 0; dm_channel := []; dm_closed := false |}.

(** [schedule], by a single thread. *)
Definition schedule (task : T) (d : Dummy) : Dummy * result (ScheduleError T) unit :=
  if DUMMY_CAPACITY <=? dm_counter d then (d, Err (ScheduleFull task))
  else if dm_closed d then (d, Err (ScheduleStopped task))
  else ({| dm_counter := dm_counter d +u 1; dm_channel := dm_channel d ++ [WTask task];
           dm_closed := false |}, Ok tt).

(** [recv]: [None] when it blocks.  A time-out and the end of the channel look alike. *)
Definition receiver_recv (d : Dummy) : option (option T * Dummy) :=
  match dm_channel d with
  | WTask t :: ch =>
      Some (Some t, {| dm_counter := dm_counter d; dm_channel := ch; dm_closed := dm_closed d |})
  | WTimeout :: ch =>
      Some (None, {| dm_counter := dm_counter d; dm_channel := ch; dm_closed := dm_closed d |})
  | [] => if dm_closed d then Some (None, d) else None
  end.
(** [recv_timeout]: the delay is over when nothing arrives; [Err tt] is [Timeout]. *)
Definition receiver_recv_timeout (d : Dummy) : result unit (option T) * Dummy :=
  match receiver_recv d with
  | Some (r, d) => (Ok r, d)
  | None => (Err tt, d)
  end.

Inductive dummy_step : Dummy → Dummy → Prop :=
| dummy_schedule task d d' : schedule task d = (d', Ok tt) → dummy_step d d'
| dummy_recv d d' r : receiver_recv d = Some (r, d') → dummy_step d d'.

(** Receiving a task does not make room for another: a scheduler without a worker
    takes a thousand tasks in all, and refuses every task after that, even when its
    receiver has taken them out of the channel. *)
Theorem dummy_scheduler_fills n d task :
  nsteps dummy_step n dummy_scheduler d →
  0 ≤ dm_counter d ≤ DUMMY_CAPACITY ∧ dm_closed d = false ∧
  ((schedule task d).2 = Ok tt ↔ dm_counter d < DUMMY_CAPACITY) ∧
  ∀ m d', nsteps dummy_step m d d' → dm_counter d ≤ dm_counter d'.
Proof.
  assert (∀ d d', dummy_step d d' → dm_closed d = false → 0 ≤ dm_counter d ≤ DUMMY_CAPACITY →
    dm_closed d' = false ∧ 0 ≤ dm_counter d' ≤ DUMMY_CAPACITY ∧ dm_counter d ≤ dm_counter d') as Hstep.
  { unfold DUMMY_CAPACITY. intros d1 d2 [t d1' d2' H|d1' d2' r H] Hc Hb.
    - unfold schedule, DUMMY_CAPACITY in H. rewrite Hc in H.
      destruct (Z.leb_spec 1000 (dm_counter d1')); [done|]. injection H as <-. cbn.
      rewrite u64_add_small by (unfold is_u64, u64_modulus; lia). lia.
    - unfold receiver_recv in H. rewrite Hc in H.
      destruct (dm_channel d1') as [|[t|] ch]; [done|injection H as _ <-; cbn; auto with lia..]. }
  assert (∀ k d0 d1, nsteps dummy_step k d0 d1 → dm_closed d0 = false →
    0 ≤ dm_counter d0 ≤ DUMMY_CAPACITY →
    dm_closed d1 = false ∧ 0 ≤ dm_counter d1 ≤ DUMMY_CAPACITY ∧ dm_counter d0 ≤ dm_counter d1) as Hsteps.
  { induction 1 as [|k d0 d1 d2 H1 _ IH]; intros Hc Hb; [auto with lia|].
    destruct (Hstep _ _ H1 Hc Hb) as (Hc1 & Hb1 & Hle). destruct (IH Hc1 Hb1) as (? & ? & ?).
    auto with lia. }
  intros Hn. destruct (Hsteps _ _ _ Hn) as (Hc & Hb & _); [done|cbn; unfold DUMMY_CAPACITY; lia|].
  split_and!; [lia..|done| |].
  - unfold schedule. rewrite Hc. destruct (Z.leb_spec DUMMY_CAPACITY (dm_counter d)); cbn; split; done || lia.
  - intros m d' Hm. by destruct (Hsteps _ _ _ Hm Hc Hb) as (_ & _ & ?).
Qed.
End dummy.

(** ** The worker of the raft log collection *)

Section gc_worker.
Context {R : RocksDB} {RN : RawNode}.
Context `{!ProtoMessage Entry}.

Global Instance gc_Runnable : Runnable (Runner * DB) GcTask := {|
  runnable_run task '(r, d) := gc_run r task d;
  runnable_on_timeout '(r, d) := gc_on_timeout r d;
  runnable_shutdown '(r, d) := gc_on_timeout r d
|}.

Lemma gc_flush_app l1 l2 (d : DB) : gc_flush (l1 ++ l2) d = (d' ← gc_flush l1 d; gc_flush l2 d').
Proof.
  revert d. induction l1 as [|t l1 IH]; intros d; [done|]. cbn.
  destruct (gc_raft_log d t); cbn; auto.
Qed.

Lemma gc_run_flush (r : Runner) task (d : DB) r' d' :
  gc_run r task d = Returns (r', d') →
  gc_flush (gr_tasks r') d' = gc_flush (gr_tasks r ++ [task]) d.
Proof.
  unfold gc_run. destruct (_ <? _)%nat; [by intros [= <- <-]|].
  destruct (gc_flush (gr_tasks r ++ [task]) d) as [d1|]; [|done]. by intros [= <- <-].
Qed.

Lemma gc_timeout_flush (r : Runner) (d : DB) r' d' :
  gc_on_timeout r d = Returns (r', d') →
  gr_tasks r' = [] ∧ Returns d' = gc_flush (gr_tasks r) d.
Proof. unfold gc_on_timeout. destruct (gc_flush (gr_tasks r) d); [|done]. by intros [= <- <-]. Qed.

(** The tasks a runner keeps are those it has still to do. *)
Lemma run_messages_flush msgs (r : Runner) (d : DB) r' d' :
  run_messages msgs (r, d) = Returns (r', d') →
  gc_flush (gr_tasks r') d' = gc_flush (gr_tasks r ++ tasks_of msgs) d.
Proof.
  revert r d. induction msgs as [|[task|] msgs IH]; intros r d Hm; cbn in Hm.
  - simplify_eq. by rewrite app_nil_r.
  - destruct (gc_run r task d) as [[r1 d1]|] eqn:Hr; [|done]. cbn in Hm.
    rewrite (IH _ _ Hm), tasks_of_task, (cons_middle task), (assoc_L (++)), gc_flush_app.
    by rewrite (gc_flush_app (_ ++ [task])), (gc_run_flush _ _ _ _ _ Hr).
  - destruct (gc_on_timeout r d) as [[r1 d1]|] eqn:Hr; [|done]. cbn in Hm.
    destruct (gc_timeout_flush _ _ _ _ Hr) as [Hn Hf].
    by rewrite (IH _ _ Hm), tasks_of_timeout, Hn, (gc_flush_app (gr_tasks r)), <-Hf.
Qed.

(** The worker of the raft log collection, with any number of schedulers: what it has
    collected, has gathered and has queued is exactly what the accepted tasks ask for,
    in their order, and when it has stopped all of it is done. *)
Theorem gc_worker_collects capacity n (d0 : DB) s r d :
  (1 ≤ n)%nat → 0 ≤ capacity → capacity - 1 + Z.of_nat n < u64_modulus →
  rtc worker_step (worker_start capacity true n ({| gr_tasks := [] |}, d0)) s →
  w_runner s = (r, d) →
  match w_pc s with
  | WStopped => Returns d = gc_flush (w_accepted s) d0
  | _ => gc_flush (gr_tasks r ++ tasks_of (w_channel s)) d = gc_flush (w_accepted s) d0
  end.
Proof.
  intros Hn Hc Hb Hs Hrd.
  destruct (worker_reachable_inv _ _ _ _ _ Hn Hc Hb Hs) as [_ _ _ _ Ho Hr Hst _ _].
  assert (Hlive : w_pc s ≠ WStopped →
    gc_flush (gr_tasks r ++ tasks_of (w_channel s)) d = gc_flush (w_accepted s) d0).
  { intros Hp. specialize (Hr Hp). rewrite Hrd in Hr. apply run_messages_flush in Hr. cbn in Hr.
    by rewrite Ho, !(gc_flush_app _ (tasks_of (w_channel s))), Hr. }
  destruct (w_pc s) as [| |task|]; [by apply Hlive..|].
  destruct (Hst eq_refl) as (Hch & _ & Hrun). rewrite Hrd in Hrun.
  destruct (run_messages (w_history s) _) as [[r1 d1]|] eqn:Hm; [|done]. cbn in Hrun.
  apply run_messages_flush in Hm. apply gc_timeout_flush in Hrun as [_ Hf].
  by rewrite Ho, Hch, tasks_of_nil, app_nil_r, Hf.
Qed.
End gc_worker.
