(* ===== verification/Lru.v ===== *)
(** * tikv-util/src/lru.rs: the LRU cache of the transport

    The cache is a hash map whose entries point into a doubly linked list of records
    in allocated memory, most recently used first, between two sentinels.  The records
    are reached through raw pointers, so memory is explicit here: a pointer is a
    position in the memory of the cache, and reading a position that was freed, or a
    key that was not initialised, which would be undefined behaviour, is [Panics].
    The theorems show that it never happens, that nothing is leaked, and that the
    cache is the list of its entries, from the most to the least recently used. *)


From S2P Require Import Prelude.
Local Open Scope Z_scope.

(** ** Records in memory *)

Abbreviation loc := positive.
(** The address [1usize] of the unset pointers, which nothing is allocated at. *)
Definition dangling : loc := 1%positive.

Record LruRecord (K : Type) := mkRecord { rec_prev : loc; rec_next : loc; rec_key : option K }.
Global Arguments mkRecord {K} _ _ _.
Global Arguments rec_prev {K} _.
Global Arguments rec_next {K} _.
Global Arguments rec_key {K} _.

Record ValueEntry (K V : Type) := mkValueEntry { ve_value : V; ve_record : loc }.
Global Arguments mkValueEntry {K V} _ _.
Global Arguments ve_value {K V} _.
Global Arguments ve_record {K V} _.

Abbreviation memory K := (gmap loc (LruRecord K)).

(** The record list; its memory holds the two sentinels and the records of the keys. *)
Record Trace (K : Type) := mkTrace {
  tr_head : loc;
  tr_tail : loc;
  tr_tick : Z;
  tr_sample_mask : Z;
  tr_memory : memory K
}.
Global Arguments mkTrace {K} _ _ _ _ _.
Global Arguments tr_head {K} _.
Global Arguments tr_tail {K} _.
Global Arguments tr_tick {K} _.
Global Arguments tr_sample_mask {K} _.
Global Arguments tr_memory {K} _.

Section trace.
Context {K : Type}.
Implicit Types (m : memory K) (t : Trace K).

Definition alloc m (r : LruRecord K) : loc * memory K :=
  let l := fresh ({[dangling]} ∪ dom m) in (l, <[l := r]> m).

Definition set_next (l x : loc) m : run (memory K) :=
  r ← unwrap (m !! l); Returns (<[l := mkRecord (rec_prev r) x (rec_key r)]> m).
Definition set_prev (l x : loc) m : run (memory K) :=
  r ← unwrap (m !! l); Returns (<[l := mkRecord x (rec_next r) (rec_key r)]> m).
Definition set_key (l : loc) (k : K) m : run (memory K) :=
  r ← unwrap (m !! l); Returns (<[l := mkRecord (rec_prev r) (rec_next r) (Some k)]> m).

Definition suture (leading following : loc) m : run (memory K) :=
  m ← set_next leading following m; set_prev following leading m.
Definition cut_out (record : loc) m : run (memory K) :=
  r ← unwrap (m !! record); suture (rec_prev r) (rec_next r) m.

Definition with_memory t m : Trace K :=
  mkTrace (tr_head t) (tr_tail t) (tr_tick t) (tr_sample_mask t) m.

Definition Trace_new (sample_mask : Z) : run (Trace K) :=
  let '(head, m) := alloc ∅ (mkRecord dangling dangling None) in
  let '(tail, m) := alloc m (mkRecord dangling dangling None) in
  m ← suture head tail m;
  Returns (mkTrace head tail 0 sample_mask m).

(** The two sutures that put a detached record behind the head. *)
Definition push_front (record : loc) t : run (Trace K) :=
  head ← unwrap (tr_memory t !! tr_head t);
  m ← suture record (rec_next head) (tr_memory t);
  m ← suture (tr_head t) record m;
  Returns (with_memory t m).

Definition promote (record : loc) t : run (Trace K) :=
  m ← cut_out record (tr_memory t);
  push_front record (with_memory t m).

Definition maybe_promote (record : loc) t : run (Trace K) :=
  let t := mkTrace (tr_head t) (tr_tail t) (tr_tick t +u 1) (tr_sample_mask t) (tr_memory t) in
  if Z.land (tr_tick t) (tr_sample_mask t) =? 0 then promote record t else Returns t.

Definition trace_delete (record : loc) t : run (Trace K) :=
  m ← cut_out record (tr_memory t);
  r ← unwrap (m !! record);
  _ ← unwrap (rec_key r);
  Returns (with_memory t (delete record m)).

Definition create (key : K) t : run (loc * Trace K) :=
  head ← unwrap (tr_memory t !! tr_head t);
  let '(record, m) := alloc (tr_memory t) (mkRecord (tr_head t) (rec_next head) (Some key)) in
  m ← set_prev (rec_next head) record m;
  m ← set_next (tr_head t) record m;
  Returns (record, with_memory t m).

Definition reuse_tail (key : K) t : run (K * loc * Trace K) :=
  tail ← unwrap (tr_memory t !! tr_tail t);
  let record := rec_prev tail in
  m ← cut_out record (tr_memory t);
  t ← push_front record (with_memory t m);
  r ← unwrap (tr_memory t !! record);
  old_key ← unwrap (rec_key r);
  m ← set_key record key (tr_memory t);
  Returns (old_key, record, with_memory t m).

(** The loop of [clear] from [cur] on; a round frees a record, so that the number of
    records of the memory is fuel enough. *)
Fixpoint clear_loop (fuel : nat) (cur tail : loc) m : run (memory K) :=
  if decide (cur = tail) then Returns m
  else match fuel with
       | O => Panics
       | S fuel =>
           r ← unwrap (m !! cur);
           let tmp := rec_next r in
           _ ← unwrap (rec_key r);
           clear_loop fuel tmp tail (delete cur m)
       end.

Definition trace_clear t : run (Trace K) :=
  head ← unwrap (tr_memory t !! tr_head t);
  m ← clear_loop (size (tr_memory t)) (rec_next head) (tr_tail t) (tr_memory t);
  m ← suture (tr_head t) (tr_tail t) m;
  Returns (with_memory t m).

Definition remove_tail t : run (K * Trace K) :=
  tail ← unwrap (tr_memory t !! tr_tail t);
  let record := rec_prev tail in
  m ← cut_out record (tr_memory t);
  r ← unwrap (m !! record);
  key ← unwrap (rec_key r);
  Returns (key, with_memory t (delete record m)).
End trace.

(** ** The cache *)

Class SizePolicy (K V T : Type) := {
  policy_current : T → Z;
  on_insert : K → V → T → T;
  on_remove : K → V → T → T;
  on_reset : Z → T → T
}.

Record CountTracker := { count : Z }.
Global Instance CountTracker_SizePolicy K V : SizePolicy K V CountTracker := {|
  policy_current := count;
  on_insert _ _ t := {| count := count t +u 1 |};
  on_remove _ _ t := {| count := count t -u 1 |};
  on_reset val _ := {| count := val |}
|}.

Record LruCache (K V T : Type) `{Countable K} := mkLruCache {
  lru_map : gmap K (ValueEntry K V);
  lru_trace : Trace K;
  lru_capacity : Z;
  lru_size_policy : T
}.
Global Arguments mkLruCache {K V T _ _} _ _ _ _.
Global Arguments lru_map {K V T _ _} _.
Global Arguments lru_trace {K V T _ _} _.
Global Arguments lru_capacity {K V T _ _} _.
Global Arguments lru_size_policy {K V T _ _} _.

Section cache.
Context {K V T : Type} `{Countable K} `{SizePolicy K V T}.
Implicit Types (c : LruCache K V T).

Definition with_capacity_sample_and_trace (capacity sample_mask : Z) (size_policy : T) :
    run (LruCache K V T) :=
  let capacity := if capacity =? 0 then 1 else capacity in
  trace ← Trace_new sample_mask;
  Returns (mkLruCache ∅ trace capacity size_policy).

Definition lru_size c : Z := policy_current (lru_size_policy c).
Definition lru_len c : nat := size (lru_map c).
Definition lru_is_empty c : bool := (lru_len c =? 0)%nat.

Definition lru_clear c : run (LruCache K V T) :=
  trace ← trace_clear (lru_trace c);
  Returns (mkLruCache ∅ trace (lru_capacity c) (on_reset 0 (lru_size_policy c))).

(** The end of [insert]: the entry of the key whose record was reused goes. *)
Definition remove_old_key (old_key : option K) c : run (LruCache K V T) :=
  match old_key with
  | Some o =>
      entry ← unwrap (lru_map c !! o);
      Returns (mkLruCache (delete o (lru_map c)) (lru_trace c) (lru_capacity c)
                 (on_remove o (ve_value entry) (lru_size_policy c)))
  | None => Returns c
  end.

Definition lru_insert (key : K) (value : V) c : run (LruCache K V T) :=
  let current_size := policy_current (lru_size_policy c) in
  match lru_map c !! key with
  | Some e =>
      let size_policy := on_insert key value (on_remove key (ve_value e) (lru_size_policy c)) in
      trace ← promote (ve_record e) (lru_trace c);
      Returns (mkLruCache (<[key := mkValueEntry value (ve_record e)]> (lru_map c)) trace
                 (lru_capacity c) size_policy)
  | None =>
      '(old_key, record, trace) ←
        (if lru_capacity c <=? current_size
         then '(old, record, trace) ← reuse_tail key (lru_trace c);
              Returns (Some old, record, trace)
         else '(record, trace) ← create key (lru_trace c); Returns (None, record, trace));
      remove_old_key old_key
        (mkLruCache (<[key := mkValueEntry value record]> (lru_map c)) trace (lru_capacity c)
           (on_insert key value (lru_size_policy c)))
  end.

Definition lru_remove (key : K) c : run (LruCache K V T * option V) :=
  match lru_map c !! key with
  | Some v =>
      trace ← trace_delete (ve_record v) (lru_trace c);
      Returns (mkLruCache (delete key (lru_map c)) trace (lru_capacity c)
                 (on_remove key (ve_value v) (lru_size_policy c)), Some (ve_value v))
  | None => Returns (c, None)
  end.

Definition lru_get (key : K) c : run (LruCache K V T * option V) :=
  match lru_map c !! key with
  | Some v =>
      trace ← maybe_promote (ve_record v) (lru_trace c);
      Returns (mkLruCache (lru_map c) trace (lru_capacity c) (lru_size_policy c),
               Some (ve_value v))
  | None => Returns (c, None)
  end.

(** [get_mut]: the caller writes [f] of the value through the reference. *)
Definition lru_get_mut (key : K) (f : V → V) c : run (LruCache K V T * option V) :=
  match lru_map c !! key with
  | Some v =>
      trace ← maybe_promote (ve_record v) (lru_trace c);
      Returns (mkLruCache (<[key := mkValueEntry (f (ve_value v)) (ve_record v)]> (lru_map c))
                 trace (lru_capacity c) (lru_size_policy c), Some (ve_value v))
  | None => Returns (c, None)
  end.
End cache.

Section counted.
Context {K V : Type} `{Countable K}.
Implicit Types (c : LruCache K V CountTracker).

Definition with_capacity_and_sample (capacity sample_mask : Z) :
    run (LruCache K V CountTracker) :=
  with_capacity_sample_and_trace capacity sample_mask {| count := 0 |}.
Definition with_capacity (capacity : Z) : run (LruCache K V CountTracker) :=
  with_capacity_and_sample capacity 0.

Fixpoint resize_loop (n : nat) c : run (LruCache K V CountTracker) :=
  match n with
  | O => Returns c
  | S n =>
      '(key, trace) ← remove_tail (lru_trace c);
      entry ← unwrap (lru_map c !! key);
      resize_loop n
        (mkLruCache (delete key (lru_map c)) trace (lru_capacity c)
           (on_remove key (ve_value entry) (lru_size_policy c)))
  end.

Definition lru_resize (new_cap : Z) c : run (LruCache K V CountTracker) :=
  let new_cap := if new_cap =? 0 then 1 else new_cap in
  let len := Z.of_nat (lru_len c) in
  c ← (if (new_cap <? lru_capacity c) && (new_cap <? len)
       then resize_loop (Z.to_nat (len - new_cap)) c else Returns c);
  Returns (mkLruCache (lru_map c) (lru_trace c) new_cap (lru_size_policy c)).
End counted.

(** ** The list in memory

    [linked m l]: the records at the positions [l] point at each other in this order.
    Everything the operations do to the pointers is described by what they do to the
    three fields of a position. *)

Section linked.
Context {K : Type}.
Implicit Types (m : memory K) (l : list loc).

Definition nxt m (l : loc) : option loc := rec_next <$> m !! l.
Definition prv m (l : loc) : option loc := rec_prev <$> m !! l.
Definition key_at m (l : loc) : option K := m !! l ≫= rec_key.

Fixpoint linked m l : Prop :=
  match l with
  | a :: (b :: _) as l' => nxt m a = Some b ∧ prv m b = Some a ∧ linked m l'
  | _ => True
  end.

Lemma linked_app m l1 a l2 :
  linked m (l1 ++ a :: l2) ↔ linked m (l1 ++ [a]) ∧ linked m (a :: l2).
Proof.
  induction l1 as [|x [|y l1] IH]; [cbn; tauto| |].
  - cbn in *. destruct l2; tauto.
  - change (linked m (x :: y :: (l1 ++ a :: l2)) ↔
      linked m (x :: y :: (l1 ++ [a])) ∧ linked m (a :: l2)).
    cbn [linked]. cbn [app] in IH. tauto.
Qed.

Lemma linked_join m l1 a b l2 :
  linked m (l1 ++ [a]) → nxt m a = Some b → prv m b = Some a → linked m (b :: l2) →
  linked m (l1 ++ a :: b :: l2).
Proof. intros. apply linked_app. cbn. tauto. Qed.

(** Only the [next] of the positions before the last and the [prev] of those after the
    first matter. *)
Lemma linked_ext m m' l :
  (∀ a, a ∈ l → list.last l ≠ Some a → nxt m' a = nxt m a) →
  (∀ a, a ∈ tail l → prv m' a = prv m a) →
  NoDup l → linked m l → linked m' l.
Proof.
  induction l as [|a [|b l] IH]; [done..|].
  intros Hn Hp [Ha Hnd]%list.NoDup_cons (Hab & Hba & Hl). split; [|split].
  - rewrite Hn; [done|left|]. rewrite last_cons_cons. intros Hlast%last_Some_elem_of. done.
  - rewrite Hp; [done|left].
  - apply IH; auto.
    + intros x Hx Hlast. apply Hn; [by right|]. by rewrite last_cons_cons.
    + intros x Hx. apply Hp. by right.
Qed.

(** [changes m m' a b]: the pointers of [m'] are those of [m] but that [a] is now
    followed by [b]. *)
Definition relinked m m' (a b : loc) : Prop :=
  (∀ x, nxt m' x = if decide (x = a) then Some b else nxt m x) ∧
  (∀ x, prv m' x = if decide (x = b) then Some a else prv m x) ∧
  (∀ x, key_at m' x = key_at m x) ∧
  (∀ x, is_Some (m' !! x) ↔ is_Some (m !! x)).

Lemma suture_relinked m a b :
  is_Some (m !! a) → is_Some (m !! b) → ∃ m', suture a b m = Returns m' ∧ relinked m m' a b.
Proof.
  intros [ra Ha] [rb Hb]. unfold suture, set_next, set_prev, relinked, nxt, prv, key_at.
  rewrite Ha. cbn. destruct (decide (a = b)) as [->|Hab]; simplify_eq.
  - rewrite lookup_insert_eq. cbn. eexists; split; [done|].
    rewrite insert_insert_eq.
    split_and!; intros x; destruct (decide (x = b)) as [->|]; simplify_map_eq; naive_solver.
  - rewrite lookup_insert_ne, Hb by done. cbn. eexists; split; [done|].
    split_and!; intros x; destruct (decide (x = a)), (decide (x = b)); subst;
      simplify_map_eq; naive_solver.
Qed.

Lemma relinked_link m m' l1 a b l2 :
  relinked m m' a b → NoDup (l1 ++ a :: b :: l2) →
  linked m (l1 ++ [a]) → linked m (b :: l2) → linked m' (l1 ++ a :: b :: l2).
Proof.
  intros (Hn & Hp & _) Hnd Hl1 Hl2.
  assert (NoDup (l1 ++ [a]) ∧ NoDup (b :: l2) ∧ ¬ (b ∈ l1 ++ [a]) ∧ ¬ (a ∈ b :: l2))
    as (Hnd1 & Hnd2 & Hb & Ha).
  { change (a :: b :: l2) with ([a] ++ b :: l2) in Hnd. rewrite (assoc_L (++)) in Hnd. apply list.NoDup_app in Hnd as (? & Hd & ?).
    split_and!; [done..| |]; intros Hin; [apply (Hd _ Hin); left|eapply Hd; [|done]; set_solver]. }
  apply linked_join; [|by rewrite Hn, decide_True by done|by rewrite Hp, decide_True by done|].
  - revert Hl1. apply linked_ext; [intros x Hx Hlast|intros x Hx|done].
    + rewrite Hn, decide_False; [done|]. intros ->. apply Hlast. by rewrite last_snoc.
    + rewrite Hp, decide_False; [done|]. intros ->. apply Hb.
      destruct l1; cbn in Hx; [by apply elem_of_nil in Hx|by right].
  - revert Hl2. apply linked_ext; [intros x Hx Hlast|intros x Hx|done].
    + rewrite Hn, decide_False; [done|]. by intros ->.
    + rewrite Hp, decide_False; [done|]. intros ->. by apply list.NoDup_cons in Hnd2 as [??].
Qed.

Lemma linked_lookup m l1 a b l2 :
  linked m (l1 ++ a :: b :: l2) → ∃ ra rb, m !! a = Some ra ∧ m !! b = Some rb ∧
    rec_next ra = b ∧ rec_prev rb = a.
Proof.
  intros [_ (Hn & Hp & _)]%linked_app. unfold nxt, prv in *.
  apply fmap_Some in Hn as (ra & ? & ->). apply fmap_Some in Hp as (rb & ? & ?). naive_solver.
Qed.
End linked.

(** ** The operations on the list

    [listed t ls ks]: the memory of [t] is exactly the sentinels and the records at
    [ls], in this order between them, and holds the keys [ks]. *)

Definition chain {K} (t : Trace K) (ls : list loc) : list loc :=
  tr_head t :: ls ++ [tr_tail t].

Record listed {K} (t : Trace K) (ls : list loc) (ks : list K) : Prop := {
  listed_linked : linked (tr_memory t) (chain t ls);
  listed_nodup : NoDup (chain t ls);
  listed_memory x : is_Some (tr_memory t !! x) ↔ x ∈ chain t ls;
  listed_keys : Forall2 (λ l k, key_at (tr_memory t) l = Some k) ls ks
}.

Section operations.
Context {K : Type}.
Implicit Types (m : memory K) (t : Trace K) (ls : list loc) (ks : list K).

Lemma with_memory_memory t : with_memory t (tr_memory t) = t.
Proof. by destruct t. Qed.

Lemma keys_kept m m' ls ks :
  (∀ x, key_at m' x = key_at m x) →
  Forall2 (λ l k, key_at m l = Some k) ls ks → Forall2 (λ l k, key_at m' l = Some k) ls ks.
Proof. intros Heq. induction 1; constructor; [by rewrite Heq|done]. Qed.

Lemma cut_out_linked m pre p r n post :
  linked m (pre ++ p :: r :: n :: post) → NoDup (pre ++ p :: r :: n :: post) →
  ∃ m', cut_out r m = Returns m' ∧ linked m' (pre ++ p :: n :: post) ∧
    relinked m m' p n.
Proof.
  intros Hl Hnd.
  destruct (linked_lookup m pre p r (n :: post)) as (rp & rr & Hp & Hr & _ & Hrp); [done|].
  destruct (linked_lookup m (pre ++ [p]) r n post) as (rr' & rn & Hr' & Hn & Hrn & _).
  { by rewrite <-(assoc_L (++)). }
  simplify_eq. unfold cut_out. rewrite Hr. cbn.
  destruct (suture_relinked m (rec_prev rr) (rec_next rr)) as (m' & -> & Hm'); [eauto..|].
  exists m'. split; [done|]. split; [|done]. apply (relinked_link m); [done|..].
  - eapply sublist_NoDup; [exact Hnd|]. apply sublist_app; [done|]. by repeat constructor.
  - by apply linked_app in Hl as [??].
  - apply linked_app in Hl as [_ Hl]. cbn in Hl. tauto.
Qed.

(** The records around a position of the chain. *)
Lemma chain_around t ls1 r ls2 : ∃ pre p n post,
  tr_head t :: ls1 = pre ++ [p] ∧ ls2 ++ [tr_tail t] = n :: post ∧
  chain t (ls1 ++ r :: ls2) = pre ++ p :: r :: n :: post ∧
  chain t (ls1 ++ ls2) = pre ++ p :: n :: post.
Proof.
  destruct (exists_last (l := tr_head t :: ls1)) as (pre & p & Hpre); [done|].
  destruct (ls2 ++ [tr_tail t]) as [|n post] eqn:Hpost; [by destruct ls2|].
  exists pre, p, n, post. split_and!; [done..| |]; unfold chain.
  - change (tr_head t :: (ls1 ++ r :: ls2) ++ [tr_tail t])
      with ((tr_head t :: (ls1 ++ r :: ls2)) ++ [tr_tail t]).
    rewrite app_comm_cons, Hpre, <-!(assoc_L (++)). cbn. by rewrite Hpost.
  - rewrite !app_comm_cons, Hpre, <-!(assoc_L (++)). cbn. by rewrite Hpost.
Qed.

(** A detached record: it is in memory but not in the list. *)
Record detached t r ls ks : Prop := {
  detached_linked : linked (tr_memory t) (chain t ls);
  detached_nodup : NoDup (r :: chain t ls);
  detached_memory x : is_Some (tr_memory t !! x) ↔ x ∈ r :: chain t ls;
  detached_keys : Forall2 (λ l k, key_at (tr_memory t) l = Some k) ls ks
}.

Lemma cut_out_detached t ls1 r ls2 ks1 k ks2 :
  length ls1 = length ks1 → listed t (ls1 ++ r :: ls2) (ks1 ++ k :: ks2) →
  ∃ m, cut_out r (tr_memory t) = Returns m ∧ key_at m r = Some k ∧
    detached (with_memory t m) r (ls1 ++ ls2) (ks1 ++ ks2).
Proof.
  intros Hlen [Hl Hnd Hm Hk].
  destruct (chain_around t ls1 r ls2) as (pre & p & n & post & _ & _ & Hc & Hc').
  rewrite Hc in Hl, Hnd.
  destruct (cut_out_linked (tr_memory t) pre p r n post) as (m & Hcut & Hlm & Hn & Hp & Hkey & Hdom);
    [done..|].
  apply Forall2_app_inv in Hk as [Hk1 [Hk Hk2]%Forall2_cons_1]; [|done].
  assert (Hperm : pre ++ p :: r :: n :: post ≡ₚ r :: chain t (ls1 ++ ls2)).
  { rewrite Hc'. change (pre ++ p :: r :: n :: post) with (pre ++ [p] ++ r :: n :: post).
    rewrite (assoc_L (++)), <-Permutation_middle, <-(assoc_L (++)). done. }
  exists m. split; [done|]. split; [by rewrite Hkey|]. split; cbn.
  - change (linked m (chain t (ls1 ++ ls2))). by rewrite Hc'.
  - change (NoDup (r :: chain t (ls1 ++ ls2))). by rewrite <-Hperm.
  - intros x. rewrite Hdom, Hm, Hc. change (chain (with_memory t m)) with (chain t).
    by rewrite Hperm.
  - apply (keys_kept _ _ _ _ Hkey), Forall2_app; done.
Qed.

Lemma push_front_listed t r k ls ks :
  detached t r ls ks → key_at (tr_memory t) r = Some k →
  ∃ t', push_front r t = Returns t' ∧ listed t' (r :: ls) (k :: ks) ∧
    t' = with_memory t (tr_memory t').
Proof.
  intros [Hl Hnd Hm Hk] Hr. unfold push_front, chain in *.
  destruct (ls ++ [tr_tail t]) as [|q post] eqn:Hq; [by destruct ls|].
  destruct (linked_lookup (tr_memory t) [] (tr_head t) q post) as (rh & rq & Hh & Hq' & Hhn & _);
    [done|].
  rewrite Hh. cbn. rewrite Hhn.
  destruct (suture_relinked (tr_memory t) r q) as (m1 & -> & Hm1); [apply Hm; set_solver..|]. cbn.
  assert (Hl1 : linked m1 (r :: q :: post)).
  { apply (relinked_link (tr_memory t) m1 []); [done| |done|cbn in Hl; tauto].
    eapply sublist_NoDup; [exact Hnd|]. by repeat constructor. }
  destruct Hm1 as (Hn1 & Hp1 & Hk1 & Hd1).
  destruct (suture_relinked m1 (tr_head t) r) as (m2 & -> & Hm2);
    [apply Hd1, Hm; set_solver..|]. cbn.
  eexists; split; [done|]. split; [|done]. split; unfold chain; cbn [tr_head tr_tail tr_memory with_memory app]; rewrite ?Hq.
  - apply (relinked_link m1 m2 []); [done| |done..].
    apply list.NoDup_cons in Hnd as [Hr1 [Hh1 Hnd]%list.NoDup_cons].
    apply list.NoDup_cons; split; [set_solver|]. apply list.NoDup_cons; split; set_solver.
  - apply list.NoDup_cons in Hnd as [Hr1 [Hh1 Hnd]%list.NoDup_cons].
    apply list.NoDup_cons; split; [set_solver|]. apply list.NoDup_cons; split; set_solver.
  - intros x. destruct Hm2 as (_ & _ & _ & Hd2). rewrite Hd2, Hd1, Hm. set_solver.
  - destruct Hm2 as (_ & _ & Hk2 & _). constructor; [by rewrite Hk2, Hk1|].
    apply (keys_kept (tr_memory t)); [|done]. intros. by rewrite Hk2, Hk1.
Qed.

Lemma promote_listed t ls1 r ls2 ks1 k ks2 :
  length ls1 = length ks1 → listed t (ls1 ++ r :: ls2) (ks1 ++ k :: ks2) →
  ∃ t', promote r t = Returns t' ∧ listed t' (r :: ls1 ++ ls2) (k :: ks1 ++ ks2) ∧
    t' = with_memory t (tr_memory t').
Proof.
  intros Hlen Hl. destruct (cut_out_detached _ _ _ _ _ _ _ Hlen Hl) as (m & Hcut & Hk & Hd).
  unfold promote. rewrite Hcut. cbn. by apply (push_front_listed (with_memory t m)).
Qed.

(** Freeing a detached record. *)
Lemma free_listed t r ls ks :
  detached t r ls ks → listed (with_memory t (delete r (tr_memory t))) ls ks.
Proof.
  intros [Hl Hnd Hm Hk].
  assert (Hr : r ∉ chain t ls) by by apply list.NoDup_cons in Hnd as [??].
  assert (Hsame : ∀ x, x ∈ chain t ls → delete r (tr_memory t) !! x = tr_memory t !! x).
  { intros x Hx. apply lookup_delete_ne. by intros <-. }
  split; cbn [tr_memory with_memory]; change (chain (with_memory t _)) with (chain t).
  - revert Hl. apply linked_ext.
    + intros x Hx _. unfold nxt. by rewrite Hsame.
    + intros x Hx. unfold prv. rewrite Hsame; [done|]. unfold chain in *. by right.
    + by apply list.NoDup_cons in Hnd as [??].
  - by apply list.NoDup_cons in Hnd as [??].
  - intros x. rewrite lookup_delete_is_Some, Hm, elem_of_cons.
    split; [naive_solver|]. intros Hx. split; [by intros <-|by right].
  - assert (Hsame' : ∀ x, x ∈ ls → key_at (delete r (tr_memory t)) x = key_at (tr_memory t) x).
    { intros x Hx. unfold key_at. rewrite Hsame; [done|]. unfold chain. set_solver. }
    clear -Hk Hsame'. induction Hk as [|l k ls ks Hlk Hk IH]; constructor.
    + rewrite Hsame'; [done|left].
    + apply IH. intros x Hx. apply Hsame'. by right.
Qed.

Lemma trace_delete_listed t ls1 r ls2 ks1 k ks2 :
  length ls1 = length ks1 → listed t (ls1 ++ r :: ls2) (ks1 ++ k :: ks2) →
  ∃ t', trace_delete r t = Returns t' ∧ listed t' (ls1 ++ ls2) (ks1 ++ ks2) ∧
    t' = with_memory t (tr_memory t').
Proof.
  intros Hlen Hl. destruct (cut_out_detached _ _ _ _ _ _ _ Hlen Hl) as (m & Hcut & Hk & Hd).
  unfold trace_delete. rewrite Hcut. cbn.
  unfold key_at in Hk. destruct (m !! r) as [rr|]; cbn in *; [|done]. rewrite Hk. cbn.
  eexists; split; [done|]. split; [|done]. by apply free_listed in Hd.
Qed.

Lemma create_listed t ls ks key :
  listed t ls ks →
  ∃ r t', create key t = Returns (r, t') ∧ listed t' (r :: ls) (key :: ks) ∧
    t' = with_memory t (tr_memory t').
Proof.
  intros [Hl Hnd Hm Hk]. unfold create, chain in *.
  destruct (ls ++ [tr_tail t]) as [|q post] eqn:Hq; [by destruct ls|].
  destruct (linked_lookup (tr_memory t) [] (tr_head t) q post) as (rh & rq & Hh & Hq' & Hhn & _);
    [done|].
  rewrite Hh. cbn [unwrap mbind run_bind alloc]. rewrite Hhn.
  set (r := fresh ({[dangling]} ∪ dom (tr_memory t))).
  assert (Hr : tr_memory t !! r = None).
  { apply not_elem_of_dom. pose proof (is_fresh ({[dangling]} ∪ dom (tr_memory t))). set_solver. }
  assert (Hrc : r ∉ tr_head t :: q :: post) by (rewrite <-Hm, Hr; by intros [??]).
  assert (r ≠ tr_head t ∧ r ≠ q ∧ tr_head t ≠ q) as (Hrh & Hrq & Hhq).
  { split_and!; [set_solver..|]. intros Heq. rewrite Heq in Hnd.
    apply list.NoDup_cons in Hnd as [[]%not_elem_of_cons _]. done. }
  unfold set_prev, set_next. rewrite lookup_insert_ne, Hq' by done. cbn.
  rewrite lookup_insert_ne, lookup_insert_ne, Hh by done. cbn.
  do 2 eexists; split; [done|]. split; [|done].
  split; unfold chain; cbn [tr_head tr_tail tr_memory with_memory app]; rewrite ?Hq.
  - apply (linked_join _ []); [done|unfold nxt; by simplify_map_eq|unfold prv; by simplify_map_eq|].
    apply (linked_join _ []); [done|unfold nxt; by simplify_map_eq|unfold prv; by simplify_map_eq|].
    assert (Hl' : linked (tr_memory t) (q :: post)) by (cbn in Hl; tauto).
    revert Hl'. apply linked_ext.
    + intros x Hx _. unfold nxt. destruct (decide (x = q)) as [->|]; simplify_map_eq; [done|].
      assert (x ≠ r ∧ x ≠ tr_head t) as [??]; [|by simplify_map_eq].
      split; intros ->; [set_solver|]. by apply list.NoDup_cons in Hnd as [??].
    + intros x Hx. unfold prv.
      assert (x ≠ r ∧ x ≠ tr_head t ∧ x ≠ q) as (?&?&?); [|by simplify_map_eq].
      apply list.NoDup_cons in Hnd as [Hn1 [Hn2 _]%list.NoDup_cons]. cbn in Hx.
      split_and!; intros ->; set_solver.
    + by apply list.NoDup_cons in Hnd as [??].
  - apply list.NoDup_cons in Hnd as [Hn1 Hnd]. apply list.NoDup_cons; split; [set_solver|].
    apply list.NoDup_cons; split; set_solver.
  - intros x. rewrite !lookup_insert_is_Some'. rewrite Hm. set_solver.
  - constructor; [unfold key_at; by simplify_map_eq|].
    assert (Hls : ∀ x, x ∈ ls → x ∈ tr_head t :: q :: post) by (rewrite <-Hq; set_solver).
    assert (Hsame : ∀ x, x ≠ r → key_at (<[tr_head t:=mkRecord (rec_prev rh) r (rec_key rh)]>
       (<[q:=mkRecord r (rec_next rq) (rec_key rq)]>
         (<[r:=mkRecord (tr_head t) q (Some key)]> (tr_memory t)))) x = key_at (tr_memory t) x).
    { intros x Hx. unfold key_at. destruct (decide (x = tr_head t)), (decide (x = q)); subst;
        by simplify_map_eq. }
    clear -Hk Hsame Hls Hrc. induction Hk as [|l k ls ks Hlk Hk IH]; constructor.
    + rewrite Hsame; [done|]. intros ->. apply Hrc, Hls. left.
    + apply IH. intros x Hx. apply Hls. by right.
Qed.

Lemma tail_record t ls r ks :
  listed t (ls ++ [r]) ks → ∃ rt, tr_memory t !! tr_tail t = Some rt ∧ rec_prev rt = r.
Proof.
  intros [Hl _ _ _]. unfold chain in Hl. rewrite <-(assoc_L (++)), app_comm_cons in Hl.
  destruct (linked_lookup _ (tr_head t :: ls) r (tr_tail t) [] Hl) as (_ & rt & _ & ? & _ & ?). eauto.
Qed.

Lemma remove_tail_listed t ls r ks k :
  length ls = length ks → listed t (ls ++ [r]) (ks ++ [k]) →
  ∃ t', remove_tail t = Returns (k, t') ∧ listed t' ls ks ∧ t' = with_memory t (tr_memory t').
Proof.
  intros Hlen Hl. destruct (tail_record _ _ _ _ Hl) as (rt & Hrt & Hr).
  destruct (cut_out_detached _ _ _ _ _ _ _ Hlen Hl) as (m & Hcut & Hk & Hd).
  rewrite !app_nil_r in Hd. unfold remove_tail. rewrite Hrt. cbn. rewrite Hr, Hcut. cbn.
  unfold key_at in Hk. destruct (m !! r) as [rr|]; cbn in *; [|done]. rewrite Hk. cbn.
  eexists; split; [done|]. split; [|done]. by apply free_listed in Hd.
Qed.

Lemma set_key_listed t r ls k k' ks :
  listed t (r :: ls) (k :: ks) →
  ∃ m, set_key r k' (tr_memory t) = Returns m ∧ listed (with_memory t m) (r :: ls) (k' :: ks).
Proof.
  intros [Hl Hnd Hm Hk]. unfold set_key.
  destruct (proj2 (Hm r)) as [rr Hr]; [unfold chain; set_solver|]. rewrite Hr. cbn.
  eexists; split; [done|].
  split; cbn [tr_memory with_memory]; change (chain (with_memory t _)) with (chain t).
  - revert Hl. apply linked_ext; [..|done]; intros x Hx; intros; unfold nxt, prv;
      destruct (decide (x = r)) as [->|]; by simplify_map_eq.
  - done.
  - intros x. rewrite lookup_insert_is_Some', Hm. unfold chain. set_solver.
  - apply Forall2_cons_1 in Hk as [Hk1 Hk]. constructor; [unfold key_at; by simplify_map_eq|].
    assert (Hnr : r ∉ ls).
    { unfold chain in Hnd. apply list.NoDup_cons in Hnd as [_ [Hnd _]%list.NoDup_cons]. set_solver. }
    clear -Hk Hnr. induction Hk as [|l k0 ls ks Hlk Hk IH]; constructor; [|set_solver].
    unfold key_at in *. rewrite lookup_insert_ne; [done|set_solver].
Qed.

Lemma reuse_tail_listed t ls r ks k key :
  length ls = length ks → listed t (ls ++ [r]) (ks ++ [k]) →
  ∃ t', reuse_tail key t = Returns (k, r, t') ∧ listed t' (r :: ls) (key :: ks) ∧
    t' = with_memory t (tr_memory t').
Proof.
  intros Hlen Hl. destruct (tail_record _ _ _ _ Hl) as (rt & Hrt & Hr).
  destruct (cut_out_detached _ _ _ _ _ _ _ Hlen Hl) as (m & Hcut & Hk & Hd).
  rewrite !app_nil_r in Hd. unfold reuse_tail. rewrite Hrt. cbn. rewrite Hr, Hcut. cbn.
  destruct (push_front_listed _ _ _ _ _ Hd Hk) as (t1 & -> & Hl1 & Ht1). cbn.
  pose proof (listed_keys _ _ _ Hl1) as [Hk1 _]%Forall2_cons_1. unfold key_at in Hk1.
  destruct (tr_memory t1 !! r) as [rr|] eqn:Hrr; cbn in *; [|done]. rewrite Hk1. cbn.
  destruct (set_key_listed _ _ _ _ key _ Hl1) as (m2 & -> & Hl2). cbn.
  eexists; split; [done|]. split; [done|]. rewrite Ht1. done.
Qed.

Lemma linked_tail m l ls : linked m (l :: ls) → linked m ls.
Proof. destruct ls; cbn; tauto. Qed.

Lemma clear_loop_frees fuel cur tail ls post m :
  ls ++ [tail] = cur :: post → linked m (ls ++ [tail]) → NoDup (ls ++ [tail]) →
  Forall (λ l, is_Some (key_at m l)) ls → (length ls ≤ fuel)%nat →
  ∃ m', clear_loop fuel cur tail m = Returns m' ∧
    ∀ x, m' !! x = if decide (x ∈ ls) then None else m !! x.
Proof.
  revert fuel cur post m. induction ls as [|l ls IH]; intros fuel cur post m Heq Hl Hnd Hk Hf.
  - cbn in Heq. simplify_eq. exists m.
    split; [destruct fuel; cbn; by rewrite decide_True by done|].
    intros x. rewrite decide_False; [done|set_solver].
  - cbn in Heq. simplify_eq. destruct fuel as [|fuel]; [cbn in Hf; lia|].
    apply Forall_cons_1 in Hk as [[k Hcur] Hk]. cbn [app] in Hl, Hnd.
    apply list.NoDup_cons in Hnd as [Hni Hnd]. cbn.
    rewrite decide_False by set_solver.
    unfold key_at in Hcur. destruct (m !! cur) as [r|] eqn:Hr; cbn in *; [|done].
    rewrite Hcur. cbn.
    destruct (ls ++ [tail]) as [|n post'] eqn:Heq'; [by destruct ls|].
    assert (Hn : rec_next r = n).
    { destruct Hl as (Hn & _). unfold nxt in Hn. rewrite Hr in Hn. by injection Hn. }
    destruct (IH fuel n post' (delete cur m)) as (m' & Hm' & Hin); [done|..].
    + destruct Hl as (_ & _ & Hl). revert Hl. apply linked_ext; [..|done]; intros x Hx; intros;
        unfold nxt, prv; rewrite lookup_delete_ne; [done| |done|]; intros ->; apply Hni;
        [done|by right].
    + done.
    + apply list.Forall_forall. intros x Hx. rewrite list.Forall_forall in Hk.
      destruct (Hk x Hx) as [k' Hk']. exists k'. unfold key_at. rewrite lookup_delete_ne; [done|].
      intros ->. apply Hni. rewrite <-Heq'. set_solver.
    + lia.
    + exists m'. rewrite Hn. split; [done|]. intros x. rewrite Hin.
      destruct (decide (x = cur)) as [->|].
      * rewrite lookup_delete_eq, (decide_True (P := cur ∈ cur :: ls)) by set_solver.
        by destruct (decide _).
      * rewrite lookup_delete_ne by done.
        destruct (decide (x ∈ ls)), (decide (x ∈ cur :: ls)); set_solver.
Qed.

Lemma nodup_size m l : NoDup l → (∀ x, x ∈ l → is_Some (m !! x)) → (length l ≤ size m)%nat.
Proof.
  intros Hnd Hin. rewrite <-(size_dom m), <-(size_list_to_set (C := gset loc) l) by done.
  apply subseteq_size. intros x. rewrite elem_of_list_to_set, elem_of_dom. auto.
Qed.

Lemma sentinels_listed m' t :
  (∀ x, is_Some (tr_memory t !! x) ↔ x ∈ chain t []) → tr_head t ≠ tr_tail t →
  relinked (tr_memory t) m' (tr_head t) (tr_tail t) → listed (with_memory t m') [] [].
Proof.
  intros Hm Hne (Hn & Hp & Hk & Hd). split; cbn; [| | |constructor].
  - by rewrite Hn, Hp, !decide_True.
  - unfold chain; cbn. apply list.NoDup_cons. split; [set_solver|apply NoDup_singleton].
  - intros x. by rewrite Hd, Hm.
Qed.

Lemma trace_clear_listed t ls ks :
  listed t ls ks →
  ∃ t', trace_clear t = Returns t' ∧ listed t' [] [] ∧ t' = with_memory t (tr_memory t').
Proof.
  intros [Hl Hnd Hm Hk]. unfold trace_clear.
  destruct (ls ++ [tr_tail t]) as [|q post] eqn:Hq; [by destruct ls|].
  assert (¬ (tr_head t ∈ ls) ∧ ¬ (tr_tail t ∈ ls) ∧ tr_head t ≠ tr_tail t) as (Hh & Ht & Hht).
  { unfold chain in Hnd. apply list.NoDup_cons in Hnd as [? (_ & Hd & _)%list.NoDup_app].
    split_and!; set_solver. }
  destruct (linked_lookup (tr_memory t) [] (tr_head t) q post) as (rh & rq & Hrh & _ & Hhn & _).
  { unfold chain in Hl. by rewrite Hq in Hl. }
  rewrite Hrh. cbn. rewrite Hhn.
  destruct (clear_loop_frees (size (tr_memory t)) q (tr_tail t) ls post (tr_memory t))
    as (m1 & -> & Hm1).
  - done.
  - by apply linked_tail in Hl.
  - unfold chain in Hnd. by apply list.NoDup_cons in Hnd as [??].
  - clear -Hk. induction Hk; constructor; eauto.
  - etrans; [|apply (nodup_size _ (chain t ls)); [done|intros x Hx; by apply Hm]].
    unfold chain. cbn. rewrite length_app. lia.
  - assert (Hd1 : ∀ x, is_Some (m1 !! x) ↔ x ∈ chain t []).
    { intros x. rewrite Hm1. unfold chain in *. specialize (Hm x).
      destruct (decide (x ∈ ls)); [|set_solver]. split; [by intros [??]|set_solver]. }
    cbn. destruct (suture_relinked m1 (tr_head t) (tr_tail t)) as (m2 & -> & Hm2);
      [apply Hd1; unfold chain; set_solver..|].
    cbn. eexists; split; [done|]. split; [|done].
    by apply (sentinels_listed m2 (with_memory t m1)).
Qed.

Lemma Trace_new_listed (sample_mask : Z) :
  ∃ t : Trace K, Trace_new sample_mask = Returns t ∧ listed t [] [] ∧
    tr_tick t = 0 ∧ tr_sample_mask t = sample_mask.
Proof.
  unfold Trace_new, alloc.
  set (head := fresh _). set (m0 := <[head := _]> ∅).
  set (tail := fresh ({[dangling]} ∪ dom m0)).
  assert (Hht : head ≠ tail).
  { intros Heq. pose proof (is_fresh ({[dangling]} ∪ dom m0)) as Hf. fold tail in Hf.
    apply Hf. rewrite <-Heq. unfold m0. set_solver. }
  destruct (suture_relinked (<[tail := mkRecord dangling dangling None]> m0) head tail)
    as (m & -> & Hm).
  { unfold m0. rewrite lookup_insert_ne, lookup_insert_eq by done. eauto. }
  { rewrite lookup_insert_eq. eauto. }
  cbn. eexists; split; [done|]. split; [|done].
  apply (sentinels_listed m (mkTrace head tail 0 sample_mask _)) in Hm; [done| |done].
  intros x. cbn. unfold m0, chain; cbn. rewrite !lookup_insert_is_Some', lookup_empty.
  split; [intros [->|[->|[??]]]; [set_solver..|done]|]. set_solver.
Qed.
End operations.

(** ** What a cache promises

    Its entries from the most to the least recently used, at most [spec_bound] of them;
    a read counts as a use once in a while, as the mask says. *)

Record LruSpec (K V : Type) := mkSpec {
  spec_entries : list (K * V);
  spec_bound : Z;
  spec_tick : Z;
  spec_mask : Z
}.
Global Arguments mkSpec {K V} _ _ _ _.
Global Arguments spec_entries {K V} _.
Global Arguments spec_bound {K V} _.
Global Arguments spec_tick {K V} _.
Global Arguments spec_mask {K V} _.

Inductive LruOp (K V : Type) :=
| OpInsert (key : K) (value : V)
| OpRemove (key : K)
| OpGet (key : K)
| OpGetMut (key : K) (f : V → V)
| OpResize (new_cap : Z)
| OpClear.
Global Arguments OpInsert {K V} _ _.
Global Arguments OpRemove {K V} _.
Global Arguments OpGet {K V} _.
Global Arguments OpGetMut {K V} _ _.
Global Arguments OpResize {K V} _.
Global Arguments OpClear {K V}.

Section spec.
Context {K V : Type} `{Countable K}.
Implicit Types (s : LruSpec K V) (es : list (K * V)) (c : LruCache K V CountTracker).

Definition others (k : K) es : list (K * V) := filter (λ e, e.1 ≠ k) es.
Definition find (k : K) es : option V := list_to_map (M := gmap K V) es !! k.
Definition overwrite (k : K) (v : V) es : list (K * V) :=
  (λ e, if decide (e.1 = k) then (k, v) else e) <$> es.
Definition with_entries s es : LruSpec K V :=
  mkSpec es (spec_bound s) (spec_tick s) (spec_mask s).

(** A read of [k] that leaves [v] there. *)
Definition spec_touch (k : K) (v : V) s : LruSpec K V :=
  let tick := spec_tick s +u 1 in
  mkSpec (if Z.land tick (spec_mask s) =? 0 then (k, v) :: others k (spec_entries s)
          else overwrite k v (spec_entries s)) (spec_bound s) tick (spec_mask s).

Definition spec_op (op : LruOp K V) s : LruSpec K V * option V :=
  let es := spec_entries s in
  match op with
  | OpInsert k v =>
      (with_entries s ((k, v) :: match find k es with
                                 | Some _ => others k es
                                 | None => take (Z.to_nat (spec_bound s - 1)) es
                                 end), None)
  | OpRemove k => (with_entries s (others k es), find k es)
  | OpGet k => match find k es with
               | Some v => (spec_touch k v s, Some v)
               | None => (s, None)
               end
  | OpGetMut k f => match find k es with
                    | Some v => (spec_touch k (f v) s, Some v)
                    | None => (s, None)
                    end
  | OpResize new_cap =>
      let new_cap := if new_cap =? 0 then 1 else new_cap in
      (mkSpec (take (Z.to_nat new_cap) es) new_cap (spec_tick s) (spec_mask s), None)
  | OpClear => (with_entries s [], None)
  end.

Definition lru_op (op : LruOp K V) c : run (LruCache K V CountTracker * option V) :=
  match op with
  | OpInsert k v => c ← lru_insert k v c; Returns (c, None)
  | OpRemove k => lru_remove k c
  | OpGet k => lru_get k c
  | OpGetMut k f => lru_get_mut k f c
  | OpResize n => c ← lru_resize n c; Returns (c, None)
  | OpClear => c ← lru_clear c; Returns (c, None)
  end.

Definition pairs (ls : list loc) es : list (K * ValueEntry K V) :=
  zip_with (λ l e, (e.1, mkValueEntry e.2 l)) ls es.

(** The cache is the entries: the map points to the record of each, the list has the
    records in order, and the counter is their number. *)
Record represents (ls : list loc) c s : Prop := {
  rep_listed : listed (lru_trace c) ls (spec_entries s).*1;
  rep_map : lru_map c = list_to_map (pairs ls (spec_entries s));
  rep_nodup : NoDup (spec_entries s).*1;
  rep_count : count (lru_size_policy c) = Z.of_nat (length (spec_entries s));
  rep_capacity : lru_capacity c = spec_bound s;
  rep_bound : 1 ≤ spec_bound s < u64_modulus;
  rep_length : Z.of_nat (length (spec_entries s)) ≤ spec_bound s;
  rep_tick : tr_tick (lru_trace c) = spec_tick s;
  rep_mask : tr_sample_mask (lru_trace c) = spec_mask s
}.

Lemma listed_length (t : Trace K) ls (ks : list K) : listed t ls ks → length ls = length ks.
Proof. intros [_ _ _ Hk]. by eapply Forall2_length. Qed.

Lemma pairs_fst ls es : length ls = length es → (pairs ls es).*1 = es.*1.
Proof.
  revert es. induction ls as [|l ls IH]; intros [|e es] Hlen; [done..|].
  cbn. f_equal. apply IH. by injection Hlen.
Qed.

Lemma pairs_app ls1 ls2 es1 es2 :
  length ls1 = length es1 → pairs (ls1 ++ ls2) (es1 ++ es2) = pairs ls1 es1 ++ pairs ls2 es2.
Proof. intros. by apply zip_with_app. Qed.

Lemma others_absent k es : k ∉ es.*1 → others k es = es.
Proof.
  unfold others. induction es as [|e es IH]; [done|]. rewrite fmap_cons, not_elem_of_cons.
  intros [??]. rewrite list.filter_cons_True by done. f_equal. by apply IH.
Qed.

Lemma nodup_middle k v es1 es2 :
  NoDup (es1 ++ (k, v) :: es2).*1 → ¬ (k ∈ es1.*1) ∧ ¬ (k ∈ es2.*1) ∧ NoDup (es1 ++ es2).*1.
Proof.
  rewrite !fmap_app, fmap_cons. cbn. rewrite <-Permutation_middle, list.NoDup_cons. set_solver.
Qed.

Lemma others_app k v es1 es2 :
  NoDup (es1 ++ (k, v) :: es2).*1 → others k (es1 ++ (k, v) :: es2) = es1 ++ es2.
Proof.
  intros (H1 & H2 & _)%nodup_middle. unfold others.
  rewrite list.filter_app, list.filter_cons_False by (cbn; naive_solver).
  by rewrite !(others_absent k : ∀ es, _ → filter _ es = es).
Qed.

Lemma overwrite_absent k v es : k ∉ es.*1 → overwrite k v es = es.
Proof.
  unfold overwrite. induction es as [|e es IH]; [done|]. rewrite fmap_cons, not_elem_of_cons.
  intros [??]. cbn. rewrite decide_False by done. f_equal. by apply IH.
Qed.

Lemma overwrite_app k v v' es1 es2 :
  NoDup (es1 ++ (k, v) :: es2).*1 →
  overwrite k v' (es1 ++ (k, v) :: es2) = es1 ++ (k, v') :: es2.
Proof.
  intros (H1 & H2 & _)%nodup_middle. unfold overwrite. rewrite fmap_app, fmap_cons. cbn.
  rewrite decide_True by done.
  by rewrite !(overwrite_absent k v' : ∀ es, _ → _ <$> es = es).
Qed.

Lemma pairs_middle ls1 l ls2 k v es1 es2 :
  length ls1 = length es1 → length ls2 = length es2 → NoDup (es1 ++ (k, v) :: es2).*1 →
  list_to_map (M := gmap K _) (pairs (ls1 ++ l :: ls2) (es1 ++ (k, v) :: es2)) =
    <[k := mkValueEntry v l]> (list_to_map (pairs (ls1 ++ ls2) (es1 ++ es2))) ∧
  list_to_map (M := gmap K _) (pairs (ls1 ++ ls2) (es1 ++ es2)) !! k = None.
Proof.
  intros Hl1 Hl2 Hnd. split.
  - rewrite (list_to_map_proper _ ((k, mkValueEntry v l) :: pairs (ls1 ++ ls2) (es1 ++ es2))).
    + done.
    + rewrite pairs_fst; [done|]. rewrite !length_app. cbn. lia.
    + rewrite !pairs_app by done. cbn. by rewrite Permutation_middle.
  - apply not_elem_of_list_to_map. rewrite pairs_fst by (rewrite !length_app; lia).
    apply nodup_middle in Hnd as (?&?&?). rewrite fmap_app. set_solver.
Qed.

Lemma represents_split ls c s k v :
  represents ls c s → find k (spec_entries s) = Some v →
  ∃ es1 es2 ls1 l ls2, spec_entries s = es1 ++ (k, v) :: es2 ∧ ls = ls1 ++ l :: ls2 ∧
    length ls1 = length es1 ∧ length ls2 = length es2 ∧
    lru_map c !! k = Some (mkValueEntry v l).
Proof.
  intros Hr Hf. pose proof (rep_nodup _ _ _ Hr) as Hnd.
  unfold find in Hf. apply elem_of_list_to_map in Hf as (es1 & es2 & Hes)%list_elem_of_split; [|done].
  pose proof (listed_length _ _ _ (rep_listed _ _ _ Hr)) as Hlen.
  rewrite length_fmap in Hlen. rewrite Hes in Hlen.
  destruct (lookup_lt_is_Some_2 ls (length es1)) as [l Hl].
  { rewrite Hlen, length_app. cbn. lia. }
  exists es1, es2, (take (length es1) ls), l, (drop (S (length es1)) ls).
  rewrite length_app in Hlen. cbn in Hlen.
  assert (length (take (length es1) ls) = length es1) by (rewrite length_take; lia).
  assert (length (drop (S (length es1)) ls) = length es2) by (rewrite length_drop; lia).
  assert (Hls : ls = take (length es1) ls ++ l :: drop (S (length es1)) ls) by by rewrite take_drop_middle.
  split_and!; try done.
  rewrite (rep_map _ _ _ Hr), Hes, Hls. rewrite Hes in Hnd.
  edestruct pairs_middle as [-> _]; [..|apply lookup_insert_eq]; done.
Qed.

Lemma represents_absent ls c s k :
  represents ls c s → find k (spec_entries s) = None →
  lru_map c !! k = None ∧ ¬ (k ∈ (spec_entries s).*1).
Proof.
  intros Hr Hf. unfold find in Hf. apply not_elem_of_list_to_map in Hf. split; [|done].
  rewrite (rep_map _ _ _ Hr). apply not_elem_of_list_to_map. rewrite pairs_fst; [done|].
  by rewrite (listed_length _ _ _ (rep_listed _ _ _ Hr)), length_fmap.
Qed.

Lemma represents_len ls c s : represents ls c s → lru_len c = length (spec_entries s).
Proof.
  intros Hr. pose proof (listed_length _ _ _ (rep_listed _ _ _ Hr)) as Hlen.
  rewrite length_fmap in Hlen. unfold lru_len.
  rewrite (rep_map _ _ _ Hr), map_size_list_to_map by (rewrite pairs_fst; [apply Hr|done]).
  unfold pairs. rewrite length_zip_with. lia.
Qed.

Lemma count_replaced n : is_u64 n → (n -u 1) +u 1 = n ∧ (n +u 1) -u 1 = n.
Proof.
  intros ?. unfold u64_add, u64_sub, u64_wrap. rewrite Zplus_mod_idemp_l, Zminus_mod_idemp_l.
  split; rewrite Z.mod_small by (unfold is_u64 in *; lia); lia.
Qed.

Lemma represents_count ls c s : represents ls c s → is_u64 (count (lru_size_policy c)).
Proof. intros [_ _ _ -> _ ? ? _ _]. unfold is_u64. lia. Qed.

Lemma with_memory_fields (t t' : Trace K) :
  t' = with_memory t (tr_memory t') →
  tr_tick t' = tr_tick t ∧ tr_sample_mask t' = tr_sample_mask t.
Proof. intros ->. done. Qed.

Lemma lru_insert_known ls c s k v v0 :
  represents ls c s → find k (spec_entries s) = Some v0 →
  ∃ ls' c', lru_insert k v c = Returns c' ∧
    represents ls' c' (with_entries s ((k, v) :: others k (spec_entries s))).
Proof.
  intros Hr Hf. pose proof (represents_count _ _ _ Hr) as Hu.
  destruct (represents_split _ _ _ _ _ Hr Hf) as (es1 & es2 & ls1 & l & ls2 & Hes & -> & Hl1 & Hl2 & Hk).
  destruct Hr as [Hl Hm Hnd Hc Hcap Hb Hlen Ht Hmask].
  rewrite Hes in *. rewrite others_app by done. rewrite fmap_app in Hl. cbn in Hl.
  destruct (promote_listed (lru_trace c) ls1 l ls2 es1.*1 k es2.*1) as (t' & Hp & Hl' & Ht');
    [by rewrite length_fmap|done|].
  apply with_memory_fields in Ht' as [Htick Hmask'].
  unfold lru_insert. rewrite Hk. cbn. rewrite Hp. cbn.
  exists (l :: ls1 ++ ls2). eexists; split; [done|].
  pose proof (nodup_middle _ _ _ _ Hnd) as (?&?&?).
  split; cbn; rewrite ?fmap_app; rewrite ?length_app in *; cbn in *; try congruence || lia.
  - rewrite Hm. edestruct pairs_middle as [-> _]; [done|done|exact Hnd|].
    by rewrite insert_insert_eq.
  - rewrite <-fmap_app. apply list.NoDup_cons. split; [|done]. rewrite fmap_app. set_solver.
  - rewrite (proj1 (count_replaced _ Hu)). lia.
Qed.

Lemma lru_insert_new ls c s k v :
  represents ls c s → find k (spec_entries s) = None →
  ∃ ls' c', lru_insert k v c = Returns c' ∧ represents ls' c'
    (with_entries s ((k, v) :: take (Z.to_nat (spec_bound s - 1)) (spec_entries s))).
Proof.
  intros Hr Hf. pose proof (represents_count _ _ _ Hr) as Hu.
  destruct (represents_absent _ _ _ _ Hr Hf) as [Hk Hni].
  pose proof (listed_length _ _ _ (rep_listed _ _ _ Hr)) as Hll. rewrite length_fmap in Hll.
  destruct Hr as [Hl Hm Hnd Hc Hcap Hb Hlen Ht Hmask].
  unfold lru_insert. rewrite Hk. cbn. rewrite Hcap, Hc.
  destruct (spec_bound s <=? Z.of_nat (length (spec_entries s))) eqn:Hfull.
  - apply Z.leb_le in Hfull.
    destruct (spec_entries s) as [|e es _] using rev_ind; [cbn in *; lia|].
    destruct ls as [|l ls _] using rev_ind; [rewrite length_app in Hll; cbn in Hll; lia|].
    rewrite !length_app in *. cbn in *. destruct e as [k0 v0].
    rewrite take_app_le, take_ge by lia. rewrite fmap_app in Hl. cbn in Hl.
    destruct (reuse_tail_listed (lru_trace c) ls l es.*1 k0 k) as (t' & Hp & Hl' & Ht');
      [rewrite length_fmap; lia|done|].
    apply with_memory_fields in Ht' as [Htick Hmask']. rewrite Hp. cbn.
    assert (Hk0 : k ≠ k0) by (rewrite fmap_app in Hni; set_solver).
    destruct (pairs_middle ls l [] k0 v0 es []) as [Hmap Hno]; [lia|done|done|].
    rewrite !app_nil_r in *. rewrite lookup_insert_ne by done. rewrite Hm, Hmap.
    rewrite lookup_insert_eq. cbn.
    exists (l :: ls). eexists; split; [done|]. rewrite fmap_app in Hnd, Hni.
    split; cbn; try congruence || lia.
    + rewrite delete_insert_ne, delete_insert_id by done. done.
    + apply list.NoDup_cons. apply list.NoDup_app in Hnd as (?&?&?). set_solver.
    + rewrite Hc in Hu. rewrite (proj2 (count_replaced _ Hu)). lia.
  - apply Z.leb_gt in Hfull. rewrite take_ge by lia.
    destruct (create_listed (lru_trace c) ls (spec_entries s).*1 k Hl) as (r & t' & -> & Hl' & Ht').
    apply with_memory_fields in Ht' as [Htick Hmask']. cbn.
    exists (r :: ls). eexists; split; [done|]. split; cbn; try congruence || lia.
    + by rewrite Hm.
    + by apply list.NoDup_cons.
    + rewrite u64_add_small by (unfold is_u64; lia). lia.
Qed.

Lemma lru_remove_refines ls c s k :
  represents ls c s →
  ∃ ls' c', lru_remove k c = Returns (c', find k (spec_entries s)) ∧
    represents ls' c' (with_entries s (others k (spec_entries s))).
Proof.
  intros Hr. pose proof (represents_count _ _ _ Hr) as Hu. unfold lru_remove.
  destruct (find k (spec_entries s)) as [v|] eqn:Hf.
  - destruct (represents_split _ _ _ _ _ Hr Hf) as (es1 & es2 & ls1 & l & ls2 & Hes & -> & Hl1 & Hl2 & Hk).
    destruct Hr as [Hl Hm Hnd Hc Hcap Hb Hlen Ht Hmask].
    rewrite Hes in *. rewrite others_app by done. rewrite fmap_app in Hl. cbn in Hl.
    destruct (trace_delete_listed (lru_trace c) ls1 l ls2 es1.*1 k es2.*1) as (t' & Hp & Hl' & Ht');
      [by rewrite length_fmap|done|].
    apply with_memory_fields in Ht' as [Htick Hmask'].
    rewrite Hk. cbn. rewrite Hp. cbn. exists (ls1 ++ ls2). eexists; split; [done|].
    pose proof (nodup_middle _ _ _ _ Hnd) as (?&?&?).
    destruct (pairs_middle ls1 l ls2 k v es1 es2) as [Hmap Hno]; [done..|].
    rewrite length_app in *. cbn in *.
    split; cbn; rewrite ?fmap_app, ?length_app; try congruence || lia.
    + by rewrite Hm, Hmap, delete_insert_id.
    + by rewrite <-fmap_app.
    + rewrite u64_sub_le by (done || lia). lia.
  - destruct (represents_absent _ _ _ _ Hr Hf) as [-> Hni]. exists ls, c. split; [done|].
    rewrite others_absent by done. by destruct s.
Qed.

Lemma maybe_promote_listed (t : Trace K) ls1 r ls2 ks1 k ks2 :
  length ls1 = length ks1 → listed t (ls1 ++ r :: ls2) (ks1 ++ k :: ks2) →
  ∃ t', maybe_promote r t = Returns t' ∧
    (if Z.land (tr_tick t +u 1) (tr_sample_mask t) =? 0
     then listed t' (r :: ls1 ++ ls2) (k :: ks1 ++ ks2)
     else listed t' (ls1 ++ r :: ls2) (ks1 ++ k :: ks2)) ∧
    tr_tick t' = tr_tick t +u 1 ∧ tr_sample_mask t' = tr_sample_mask t.
Proof.
  intros Hlen Hl. unfold maybe_promote.
  set (t1 := mkTrace _ _ _ _ _).
  assert (Hl1 : listed t1 (ls1 ++ r :: ls2) (ks1 ++ k :: ks2)).
  { destruct Hl as [????]. by split. }
  change (tr_tick t1) with (tr_tick t +u 1).
  change (tr_sample_mask t1) with (tr_sample_mask t). destruct (_ =? 0).
  - destruct (promote_listed _ _ _ _ _ _ _ Hlen Hl1) as (t' & -> & Hl' & Ht').
    exists t'. split; [done|]. split; [done|]. by apply with_memory_fields in Ht' as [-> ->].
  - by exists t1.
Qed.

Lemma lru_get_mut_refines ls c s k f :
  represents ls c s →
  ∃ ls' c', lru_get_mut k f c = Returns (c', (spec_op (OpGetMut k f) s).2) ∧
    represents ls' c' (spec_op (OpGetMut k f) s).1.
Proof.
  intros Hr. unfold lru_get_mut. cbn.
  destruct (find k (spec_entries s)) as [v|] eqn:Hf; cbn; last first.
  { destruct (represents_absent _ _ _ _ Hr Hf) as [-> Hni]. by exists ls, c. }
  destruct (represents_split _ _ _ _ _ Hr Hf) as (es1 & es2 & ls1 & l & ls2 & Hes & -> & Hl1 & Hl2 & Hk).
  destruct Hr as [Hl Hm Hnd Hc Hcap Hb Hlen Ht Hmask]. unfold spec_touch.
  rewrite Hes in *. rewrite others_app, overwrite_app by done. rewrite fmap_app in Hl. cbn in Hl.
  destruct (maybe_promote_listed (lru_trace c) ls1 l ls2 es1.*1 k es2.*1) as (t' & Hp & Hl' & Ht1 & Ht2);
    [by rewrite length_fmap|done|].
  rewrite Hk. cbn. rewrite Hp. cbn.
  pose proof (nodup_middle _ _ _ _ Hnd) as (?&?&?).
  destruct (pairs_middle ls1 l ls2 k v es1 es2) as [Hmap _]; [done..|].
  destruct (pairs_middle ls1 l ls2 k (f v) es1 es2) as [Hmap' _]; [done..| |].
  { rewrite fmap_app in *. exact Hnd. }
  rewrite Ht, Hmask in Hl'. destruct (_ =? 0).
  - exists (l :: ls1 ++ ls2). eexists; split; [done|]. rewrite length_app in *. cbn in *.
    split; cbn; rewrite ?fmap_app, ?length_app; cbn; try congruence || lia.
    + by rewrite Hm, Hmap, insert_insert_eq.
    + rewrite <-fmap_app. apply list.NoDup_cons. split; [|done]. rewrite fmap_app. set_solver.
  - exists (ls1 ++ l :: ls2). eexists; split; [done|]. rewrite length_app in *. cbn in *.
    split; cbn; rewrite ?fmap_app, ?length_app; cbn; try congruence || lia.
    + by rewrite Hm, Hmap, Hmap', insert_insert_eq.
    + rewrite fmap_app in Hnd. exact Hnd.
Qed.

Lemma lru_get_is_get_mut c k : lru_get k c = lru_get_mut k id c.
Proof.
  unfold lru_get, lru_get_mut. destruct (lru_map c !! k) as [[v l]|] eqn:Hk; [|done]. cbn.
  by rewrite insert_id.
Qed.

Lemma resize_loop_refines n ls c s :
  represents ls c s → (n < length (spec_entries s))%nat →
  ∃ ls' c', resize_loop n c = Returns c' ∧ represents ls' c'
    (with_entries s (take (length (spec_entries s) - n) (spec_entries s))).
Proof.
  revert ls c s. induction n as [|n IH]; intros ls c s Hr Hn.
  { exists ls, c. split; [done|]. rewrite take_ge by lia. by destruct s. }
  pose proof (represents_count _ _ _ Hr) as Hu.
  pose proof (listed_length _ _ _ (rep_listed _ _ _ Hr)) as Hll. rewrite length_fmap in Hll.
  destruct (spec_entries s) as [|[k v] es _] eqn:Hes using rev_ind; [cbn in *; lia|].
  destruct ls as [|l ls _] using rev_ind; [rewrite length_app in Hll; cbn in Hll; lia|].
  rewrite !length_app in Hll. cbn in Hll.
  destruct Hr as [Hl Hm Hnd Hc Hcap Hb Hlen Ht Hmask]. rewrite Hes in *.
  rewrite fmap_app in Hl. cbn in Hl. rewrite length_app in *. cbn [length] in *.
  destruct (remove_tail_listed (lru_trace c) ls l es.*1 k) as (t' & Hp & Hl' & Ht');
    [rewrite length_fmap; lia|done|].
  apply with_memory_fields in Ht' as [Htick Hmask']. cbn. rewrite Hp. cbn.
  destruct (pairs_middle ls l [] k v es []) as [Hmap Hno]; [lia|done|done|].
  rewrite !app_nil_r in *. rewrite Hm, Hmap, lookup_insert_eq. cbn.
  destruct (IH ls (mkLruCache (delete k (<[k:=mkValueEntry v l]> (list_to_map (pairs ls es)))) t'
      (lru_capacity c) {| count := count (lru_size_policy c) -u 1 |}) (with_entries s es))
    as (ls' & c' & Hc' & Hr').
  - split; cbn; try congruence || lia.
    + by rewrite delete_insert_id.
    + rewrite fmap_app in Hnd. by apply list.NoDup_app in Hnd as (?&?&?).
    + rewrite u64_sub_le by (done || lia). lia.
  - cbn. lia.
  - exists ls', c'. split; [exact Hc'|]. cbn in Hr'.
    rewrite take_app_le by lia. replace (length es + 1 - S n)%nat with (length es - n)%nat by lia.
    done.
Qed.

Lemma lru_resize_refines ls c s n :
  represents ls c s → is_u64 n →
  ∃ ls' c', lru_resize n c = Returns c' ∧ represents ls' c' (spec_op (OpResize n) s).1.
Proof.
  intros Hr Hn. unfold lru_resize. cbn. set (n' := if n =? 0 then 1 else n).
  assert (1 ≤ n' < u64_modulus) as Hn'.
  { unfold n', is_u64 in *. destruct (Z.eqb_spec n 0); [done|lia]. }
  rewrite (represents_len _ _ _ Hr), (rep_capacity _ _ _ Hr).
  assert (Hsame : Z.of_nat (length (spec_entries s)) ≤ n' →
    represents ls (mkLruCache (lru_map c) (lru_trace c) n' (lru_size_policy c))
      (mkSpec (take (Z.to_nat n') (spec_entries s)) n' (spec_tick s) (spec_mask s))).
  { intros Hle. destruct Hr. split; cbn; rewrite ?take_ge by lia; done. }
  destruct (_ && _) eqn:Hb.
  - apply andb_true_iff in Hb as [Hb1%Z.ltb_lt Hb2%Z.ltb_lt].
    destruct (resize_loop_refines (Z.to_nat (Z.of_nat (length (spec_entries s)) - n')) ls c s Hr)
      as (ls' & c' & -> & Hr'); [lia|].
    cbn. exists ls'. eexists; split; [done|].
    replace (length (spec_entries s) - Z.to_nat (Z.of_nat (length (spec_entries s)) - n'))%nat
      with (Z.to_nat n') in Hr' by lia.
    destruct Hr'. split; cbn in *; try done. rewrite length_take. lia.
  - cbn. exists ls. eexists; split; [done|]. apply Hsame.
    apply andb_false_iff in Hb as [Hb%Z.ltb_ge|Hb%Z.ltb_ge]; [|lia].
    pose proof (rep_length _ _ _ Hr). lia.
Qed.

Lemma lru_clear_refines ls c s :
  represents ls c s → ∃ c', lru_clear c = Returns c' ∧ represents [] c' (with_entries s []).
Proof.
  intros [Hl Hm Hnd Hc Hcap Hb Hlen Ht Hmask]. unfold lru_clear.
  destruct (trace_clear_listed _ _ _ Hl) as (t' & -> & Hl' & Ht').
  apply with_memory_fields in Ht' as [Htick Hmask'].
  cbn. eexists; split; [done|]. split; cbn; try congruence || lia. constructor.
Qed.

(** Arguments of the width of the code. *)
Definition op_ok (op : LruOp K V) : Prop :=
  match op with OpResize n => is_u64 n | _ => True end.

Lemma lru_op_refines ls c s op :
  represents ls c s → op_ok op →
  ∃ ls' c', lru_op op c = Returns (c', (spec_op op s).2) ∧ represents ls' c' (spec_op op s).1.
Proof.
  intros Hr Hop. destruct op as [k v|k|k|k f|n|]; cbn [lru_op].
  - cbn. destruct (find k (spec_entries s)) eqn:Hf.
    + destruct (lru_insert_known _ _ _ _ v _ Hr Hf) as (ls' & c' & -> & ?). eauto.
    + destruct (lru_insert_new _ _ _ _ v Hr Hf) as (ls' & c' & -> & ?). eauto.
  - by apply (lru_remove_refines ls).
  - rewrite lru_get_is_get_mut. by apply (lru_get_mut_refines ls).
  - by apply (lru_get_mut_refines ls).
  - destruct (lru_resize_refines _ _ _ n Hr Hop) as (ls' & c' & -> & ?). eauto.
  - destruct (lru_clear_refines _ _ _ Hr) as (c' & -> & ?). cbn. eauto.
Qed.

Fixpoint lru_ops (ops : list (LruOp K V)) c : run (LruCache K V CountTracker * list (option V)) :=
  match ops with
  | [] => Returns (c, [])
  | op :: ops => '(c, a) ← lru_op op c; '(c, answers) ← lru_ops ops c; Returns (c, a :: answers)
  end.
Fixpoint spec_ops (ops : list (LruOp K V)) s : LruSpec K V * list (option V) :=
  match ops with
  | [] => (s, [])
  | op :: ops => let '(s, a) := spec_op op s in let '(s, answers) := spec_ops ops s in
                 (s, a :: answers)
  end.

Lemma lru_ops_refines ops ls c s :
  represents ls c s → Forall op_ok ops →
  ∃ ls' c', lru_ops ops c = Returns (c', (spec_ops ops s).2) ∧
    represents ls' c' (spec_ops ops s).1.
Proof.
  revert ls c s. induction ops as [|op ops IH]; intros ls c s Hr Hops; [by exists ls, c|].
  apply Forall_cons_1 in Hops as [Hop Hops].
  destruct (lru_op_refines _ _ _ _ Hr Hop) as (ls1 & c1 & Hc1 & Hr1).
  destruct (IH _ _ _ Hr1 Hops) as (ls2 & c2 & Hc2 & Hr2).
  cbn. rewrite Hc1. cbn. rewrite Hc2. cbn.
  destruct (spec_op op s) as [s1 a]. cbn in *. destruct (spec_ops ops s1) as [s2 b]. eauto.
Qed.

Lemma lru_new_represents capacity mask :
  is_u64 capacity →
  ∃ c, with_capacity_and_sample capacity mask = Returns c ∧
    represents [] c (mkSpec [] (if capacity =? 0 then 1 else capacity) 0 mask).
Proof.
  intros Hcap. unfold with_capacity_and_sample, with_capacity_sample_and_trace.
  destruct (Trace_new_listed (K := K) mask) as (t & -> & Hl & Ht & Hm). cbn.
  eexists; split; [done|]. unfold is_u64 in Hcap.
  split; cbn; try done; [constructor|..]; destruct (Z.eqb_spec capacity 0); try done || lia.
Qed.

(** C20. The LRU cache of the transport, whose records are linked through raw pointers,
    is its specification: any sequence of inserts, removals, reads, writes through
    [get_mut], resizes and clears on a new cache returns (it never follows a dangling
    pointer, reads an uninitialised key or unwraps a missing entry) with the answers of
    the list of entries ordered by use, of which there are never more than the
    capacity.  The memory of the cache is its records and the sentinels, so nothing is
    leaked. *)
Theorem lru_cache_refines (capacity mask : Z) (ops : list (LruOp K V)) :
  is_u64 capacity → Forall op_ok ops →
  let '(s, answers) := spec_ops ops (mkSpec [] (if capacity =? 0 then 1 else capacity) 0 mask) in
  ∃ c0 c, with_capacity_and_sample capacity mask = Returns c0 ∧
    lru_ops ops c0 = Returns (c, answers) ∧
    (∀ k, ve_value <$> lru_map c !! k = find k (spec_entries s)) ∧
    lru_size c = Z.of_nat (length (spec_entries s)) ∧ lru_size c ≤ lru_capacity c ∧
    size (tr_memory (lru_trace c)) = (lru_len c + 2)%nat.
Proof.
  intros Hcap Hops. destruct (lru_new_represents capacity mask Hcap) as (c0 & Hc0 & Hr0).
  destruct (lru_ops_refines _ _ _ _ Hr0 Hops) as (ls & c & Hc & Hr).
  destruct (spec_ops _ _) as [s answers]. cbn in *.
  exists c0, c. split; [done|]. split; [done|]. split; [|split; [|split]].
  - intros k. destruct (find k (spec_entries s)) as [v|] eqn:Hf.
    + destruct (represents_split _ _ _ _ _ Hr Hf) as (?&?&?&?&?&_&_&_&_&->). done.
    + by destruct (represents_absent _ _ _ _ Hr Hf) as [-> _].
  - apply (rep_count _ _ _ Hr).
  - unfold lru_size. cbn. rewrite (rep_count _ _ _ Hr), (rep_capacity _ _ _ Hr). apply Hr.
  - rewrite (represents_len _ _ _ Hr). destruct (rep_listed _ _ _ Hr) as [_ Hnd Hm Hk].
    apply Forall2_length in Hk. rewrite length_fmap in Hk.
    rewrite <-size_dom. transitivity (length (chain (lru_trace c) ls)).
    + rewrite <-(size_list_to_set (C := gset loc) (chain (lru_trace c) ls)) by done.
      f_equal. apply set_eq. intros x. by rewrite elem_of_dom, Hm, elem_of_list_to_set.
    + unfold chain. cbn. rewrite length_app. cbn. lia.
Qed.
End spec.

(** A cache of two entries: the third insert evicts the least recently used. *)
Lemma lru_cache_refines_witness :
  ∃ c0 c : LruCache Z Z CountTracker, with_capacity_and_sample 2 0 = Returns c0 ∧
    lru_ops [OpInsert 1 10; OpInsert 2 20; OpGet 1; OpInsert 3 30; OpGet 2; OpGetMut 3 Z.succ;
             OpGet 3; OpResize 1; OpGet 1; OpGet 3] c0 =
      Returns (c, [None; None; Some 10; None; None; Some 30; Some 31; None; None; Some 31]) ∧
    lru_size c = 1.
Proof.
  destruct (lru_cache_refines (K := Z) (V := Z) 2 0
    [OpInsert 1 10; OpInsert 2 20; OpGet 1; OpInsert 3 30; OpGet 2; OpGetMut 3 Z.succ; OpGet 3;
     OpResize 1; OpGet 1; OpGet 3]) as (c0 & c & Hc0 & Hc & _ & Hsize & _).
  - vm_compute. split; congruence.
  - repeat constructor; vm_compute; congruence.
  - exists c0, c. split; [exact Hc0|]. split; [exact Hc|exact Hsize].
Defined.
