(* ===== verification/RaftClient.v ===== *)
(** * raft_client.rs: the transport of raft messages to the other stores

    Every store is reached through a bounded queue, shared by the clients of the
    poller threads (producers) and the task of the connection (consumer), which is
    woken by [flush].  gRPC is the environment: what the sink and the receiver of a
    stream answer are arguments.  The model is over the type of the messages, of which
    the code only reads the store they go to. *)

From S2P Require Import Prelude Lru.
Local Open Scope Z_scope.

(** ** The queue *)

Inductive Poll (A : Type) := Pending | Ready (a : A).
Global Arguments Pending {A}.
Global Arguments Ready {A} a.

(** The task that waits for a queue, by an identifier. *)
Abbreviation Waker := Z (only parsing).

Record Queue (M : Type) := mkQueue { q_buf : list M; q_cap : Z; q_waker : option Waker }.
Global Arguments mkQueue {M} _ _ _.
Global Arguments q_buf {M} _.
Global Arguments q_cap {M} _.
Global Arguments q_waker {M} _.

Section queue.
Context {M : Type}.
Implicit Types (q : Queue M) (msg : M).

Definition queue_with_capacity (cap : Z) : Queue M := mkQueue [] cap None.

(** [ArrayQueue::push] fails on a full queue, and the result is unwrapped. *)
Definition queue_push msg q : run (Queue M) :=
  if Z.of_nat (length (q_buf q)) <? q_cap q
  then Returns (mkQueue (q_buf q ++ [msg]) (q_cap q) (q_waker q)) else Panics.

(** The task that is woken, if one is registered and there is a message for it. *)
Definition queue_notify q : Queue M * option Waker :=
  match q_buf q with
  | [] => (q, None)
  | _ => (mkQueue (q_buf q) (q_cap q) None, q_waker q)
  end.

Definition queue_len q : nat := length (q_buf q).

Definition queue_try_pop q : option M * Queue M :=
  match q_buf q with
  | [] => (None, q)
  | msg :: buf => (Some msg, mkQueue buf (q_cap q) (q_waker q))
  end.

Definition queue_pop (ctx : Waker) q : option M * Queue M :=
  match queue_try_pop q with
  | (Some msg, q) => (Some msg, q)
  | (None, q) => queue_try_pop (mkQueue (q_buf q) (q_cap q) (Some ctx))
  end.

(** ** The buffer of a stream *)

Definition MessageBuffer := list M.
Definition buffer_new : MessageBuffer := [].
Definition buffer_full (b : MessageBuffer) : bool := (2 <=? length b)%nat.
Definition buffer_push msg (b : MessageBuffer) : MessageBuffer := b ++ [msg].
Definition buffer_empty (b : MessageBuffer) : bool :=
  match b with [] => true | _ => false end.

Inductive GrpcError := RpcFailure (code : Z) | GrpcOther.
Definition UNIMPLEMENTED : Z := 12.
Definition grpc_error_is_unimplemented (e : GrpcError) : bool :=
  match e with RpcFailure code => code =? UNIMPLEMENTED | GrpcOther => false end.

(** [flush]: the first message goes to [start_send], whose answer is [res]; what the
    sink takes is returned. *)
Definition buffer_flush (res : result GrpcError unit) (b : MessageBuffer) :
    MessageBuffer * list M * result GrpcError unit :=
  match b with
  | [] => (b, [], Ok tt)
  | msg :: b => (b, if is_ok res then [msg] else [], res)
  end.

(** ** A call: the stream of one connection *)

(** [lifetime] is whether the sender of the channel of [call] is still there. *)
Record RaftCall := mkCall { rc_buffer : MessageBuffer; rc_lifetime : bool }.

(** The rounds of [while !full] that the buffer has room for. *)
Fixpoint fill_loop (n : nat) (ctx : Waker) q (b : MessageBuffer) : Queue M * MessageBuffer :=
  match n with
  | O => (q, b)
  | S n => match queue_pop ctx q with
           | (Some msg, q) => fill_loop n ctx q (buffer_push msg b)
           | (None, q) => (q, b)
           end
  end.
Definition fill_msg (ctx : Waker) q (b : MessageBuffer) : Queue M * MessageBuffer :=
  fill_loop (2 - length b) ctx q b.

(** What is sent on the channel, if anything. *)
Definition clean_up (sink_err recv_err : option GrpcError) (lifetime : bool) : option unit :=
  if lifetime &&
     existsb (λ e, match e with Some e => grpc_error_is_unimplemented e | None => false end)
       [sink_err; recv_err]
  then Some tt else None.

(** The environment of a poll: for each time the sink is asked, whether it is ready
    and how [start_send] ends; and the answers of [poll_flush] and of the receiver. *)
Record PollEnv := {
  env_sink : list (Poll (result GrpcError unit) * result GrpcError unit);
  env_flush : Poll (result GrpcError unit);
  env_receiver : Poll (result GrpcError unit)
}.

Definition receiver_error (r : Poll (result GrpcError unit)) : option GrpcError :=
  match r with Ready (Err e) => Some e | _ => None end.

(** How a poll ends: [Pending], or [Ready] with what the channel of the call gives,
    [Some] for a message and [None] for a sender that was dropped. *)
Definition PollEnd := Poll (option unit).

(** The rest of a round with an empty buffer. *)
Definition poll_idle (env : PollEnv) (lifetime : bool) : PollEnd :=
  match env_flush env with
  | Ready (Err e) => Ready (clean_up (Some e) (receiver_error (env_receiver env)) lifetime)
  | _ => match env_receiver env with
         | Pending => Pending
         | Ready (Ok _) => Ready None
         | Ready (Err e) => Ready (clean_up None (Some e) lifetime)
         end
  end.

(** The loop of [poll]; a sink with no more answers is not ready. *)
Fixpoint poll_loop (sink : list (Poll (result GrpcError unit) * result GrpcError unit))
    (env : PollEnv) (ctx : Waker) q (call : RaftCall) : Queue M * RaftCall * list M * PollEnd :=
  let '(q, b) := fill_msg ctx q (rc_buffer call) in
  let call := mkCall b (rc_lifetime call) in
  if buffer_empty b then (q, call, [], poll_idle env (rc_lifetime call))
  else match sink with
       | [] => (q, call, [], Pending)
       | (Pending, _) :: _ => (q, call, [], Pending)
       | (Ready (Err e), _) :: _ =>
           (q, call, [],
            Ready (clean_up (Some e) (receiver_error (env_receiver env)) (rc_lifetime call)))
       | (Ready (Ok _), res) :: sink =>
           let '(b, sent, res) := buffer_flush res b in
           let call := mkCall b (rc_lifetime call) in
           match res with
           | Ok _ => let '(q, call, sent', r) := poll_loop sink env ctx q call in
                     (q, call, sent ++ sent', r)
           | Err e =>
               (q, call, sent,
                Ready (clean_up (Some e) (receiver_error (env_receiver env)) (rc_lifetime call)))
           end
       end.
Definition call_poll (env : PollEnv) (ctx : Waker) q (call : RaftCall) :=
  poll_loop (env_sink env) env ctx q call.

(** ** The back end: the task of a connection

    [start] connects again and again; its state is the number of connections so far
    and the call that is under way. *)

Record BackEnd := mkBackEnd { be_retry_times : Z; be_call : option RaftCall }.
Definition backend_start : BackEnd := mkBackEnd 0 None.

Fixpoint pop_pending (n : nat) q : run (Queue M) :=
  match n with
  | O => Returns q
  | S n => match queue_try_pop q with
           | (Some _, q) => pop_pending n q
           | (None, _) => Panics
           end
  end.
Definition clear_pending_message q : run (Queue M) := pop_pending (queue_len q) q.

(** A round of [start]: a connection is made after the back-off ([connect]), or the
    call that is under way is polled; when it ends, the loop goes on. *)
Definition connect (be : BackEnd) : BackEnd :=
  mkBackEnd (be_retry_times be + 1) (Some (mkCall buffer_new true)).
Definition backend_poll (env : PollEnv) (ctx : Waker) q (be : BackEnd) :
    run (Queue M * BackEnd * list M) :=
  match be_call be with
  | None => Returns (q, connect be, [])
  | Some call =>
      let '(q, call, sent, r) := call_poll env ctx q call in
      match r with
      | Pending => Returns (q, mkBackEnd (be_retry_times be) (Some call), sent)
      | Ready f =>
          let be := mkBackEnd (be_retry_times be) None in
          match f with
          | Some _ => Returns (q, be, sent)
          | None =>
              if 1 <? be_retry_times be
              then q ← clear_pending_message q; Returns (q, be, sent)
              else Returns (q, be, sent)
          end
      end
  end.
End queue.
Global Arguments RaftCall : clear implicits.
Global Arguments BackEnd : clear implicits.
Global Arguments MessageBuffer : clear implicits.

(** ** The client *)

Record AddressMap := { addrs : gmap Z string }.
Definition address_insert (store_id : Z) (addr : string) (m : AddressMap) : AddressMap :=
  {| addrs := <[store_id := addr]> (addrs m) |}.
Definition address_resolve (store_id : Z) (m : AddressMap) : run string :=
  unwrap (addrs m !! store_id).

Record CachedQueue := { cq_queue : nat; cq_dirty : bool }.

(** What the clients share: the pool of connections, the queues (an [Arc<Queue>] is a
    position here) and the tasks that were spawned, with their queues. *)
Record Net (M : Type) := mkNet {
  net_connections : gmap (Z * Z) nat;
  net_queues : list (Queue M);
  net_spawned : list ((Z * Z) * nat)
}.
Global Arguments mkNet {M} _ _ _.
Global Arguments net_connections {M} _.
Global Arguments net_queues {M} _.
Global Arguments net_spawned {M} _.

Record RaftClient := mkClient {
  cl_cache : LruCache (Z * Z) CachedQueue CountTracker;
  cl_need_flush : list (Z * Z)
}.

Definition client_new : run RaftClient :=
  cache ← with_capacity_and_sample 0 7; Returns (mkClient cache []).
(** A clone shares the pool; its cache is new. *)
Definition client_clone (c : RaftClient) : run RaftClient :=
  cache ← with_capacity_and_sample 0 7; Returns (mkClient cache []).

Section client.
Context {M : Type} (to_store_id : M → Z).
Implicit Types (net : Net M) (c : RaftClient).

Definition QUEUE_CAPACITY : Z := 819200.

(** The connection of [key] in the pool; a new one gets a queue and a task. *)
Definition pool_entry (key : Z * Z) net : nat * Net M :=
  match net_connections net !! key with
  | Some s => (s, net)
  | None => (length (net_queues net),
             mkNet (<[key := length (net_queues net)]> (net_connections net))
               (net_queues net ++ [queue_with_capacity QUEUE_CAPACITY])
               (net_spawned net ++ [(key, length (net_queues net))]))
  end.

Definition load_stream (store_id conn_id : Z) net c : run (Net M * RaftClient * bool) :=
  let key := (store_id, conn_id) in
  let '(s, net) := pool_entry key net in
  cache ← lru_resize (Z.of_nat (size (net_connections net))) (cl_cache c);
  cache ← lru_insert key {| cq_queue := s; cq_dirty := false |} cache;
  Returns (net, mkClient cache (cl_need_flush c), true).

Definition set_dirty (b : bool) (s : CachedQueue) : CachedQueue :=
  {| cq_queue := cq_queue s; cq_dirty := b |}.

(** The loop of [send]; a stream that is not cached is loaded, so that the second
    round finds it and [send] is the loop with two rounds. *)
Fixpoint send_loop (rounds : nat) (msg : M) net c : run (Net M * RaftClient) :=
  match rounds with
  | O => Panics
  | S rounds =>
      let key := (to_store_id msg, 0) in
      '(cache, hit) ← lru_get_mut key (set_dirty true) (cl_cache c);
      match hit with
      | Some s =>
          q ← unwrap (net_queues net !! cq_queue s);
          q ← queue_push msg q;
          Returns (mkNet (net_connections net) (<[cq_queue s := q]> (net_queues net))
                     (net_spawned net),
                   mkClient cache
                     (if cq_dirty s then cl_need_flush c else cl_need_flush c ++ [key]))
      | None =>
          '(net, c, _) ← load_stream (to_store_id msg) 0 net (mkClient cache (cl_need_flush c));
          send_loop rounds msg net c
      end
  end.
Definition client_send (msg : M) net c : run (Net M * RaftClient) := send_loop 2 msg net c.

Definition client_need_flush c : bool :=
  match cl_need_flush c with [] => false | _ => true end.

(** [notify] of the queue at a position, and the tasks that are woken. *)
Definition notify_at (s : nat) net : run (Net M * list Waker) :=
  q ← unwrap (net_queues net !! s);
  let '(q, woken) := queue_notify q in
  Returns (mkNet (net_connections net) (<[s := q]> (net_queues net)) (net_spawned net),
           option_list woken).

Fixpoint flush_loop (ids : list (Z * Z)) net c : run (Net M * RaftClient * list Waker) :=
  match ids with
  | [] => Returns (net, c, [])
  | id :: ids =>
      '(cache, hit) ← lru_get_mut id (set_dirty false) (cl_cache c);
      let c := mkClient cache (cl_need_flush c) in
      '(net, woken) ←
        match hit with
        | Some s => if cq_dirty s then notify_at (cq_queue s) net else Returns (net, [])
        | None => match net_connections net !! id with
                  | Some q => notify_at q net
                  | None => Returns (net, [])
                  end
        end;
      '(net, c, woken') ← flush_loop ids net c;
      Returns (net, c, woken ++ woken')
  end.
Definition client_flush net c : run (Net M * RaftClient * list Waker) :=
  if client_need_flush c then
    '(net, c, woken) ← flush_loop (cl_need_flush c) net c;
    Returns (net, mkClient (cl_cache c) [], woken)
  else Returns (net, c, []).
End client.

(** ** Messages keep their order

    One queue and its task: messages are pushed and the task is polled, in any order. *)

Section link.
Context {M : Type}.
Implicit Types (q : Queue M).

Record Link := mkLink { lk_queue : Queue M; lk_backend : BackEnd M; lk_sent : list M }.
Definition link_new (cap : Z) : Link := mkLink (queue_with_capacity cap) backend_start [].

Inductive LinkEvent := LinkPush (msg : M) | LinkNotify | LinkPoll (env : PollEnv) (ctx : Waker).

Definition link_step (ev : LinkEvent) (l : Link) : run Link :=
  match ev with
  | LinkPush msg => q ← queue_push msg (lk_queue l); Returns (mkLink q (lk_backend l) (lk_sent l))
  | LinkNotify => Returns (mkLink (queue_notify (lk_queue l)).1 (lk_backend l) (lk_sent l))
  | LinkPoll env ctx =>
      '(q, be, sent) ← backend_poll env ctx (lk_queue l) (lk_backend l);
      Returns (mkLink q be (lk_sent l ++ sent))
  end.
Definition link_steps (evs : list LinkEvent) (l : Link) : run Link :=
  foldl (λ r ev, l ← r; link_step ev l) (Returns l) evs.

Definition pushed (evs : list LinkEvent) : list M :=
  omap (λ ev, match ev with LinkPush msg => Some msg | _ => None end) evs.

(** What has not been handed to a sink yet. *)
Definition waiting (l : Link) : list M :=
  match be_call (lk_backend l) with
  | Some call => rc_buffer call ++ q_buf (lk_queue l)
  | None => q_buf (lk_queue l)
  end.

Lemma queue_pop_spec ctx q :
  match queue_pop ctx q with
  | (Some msg, q') => q_buf q = msg :: q_buf q' ∧ q_cap q' = q_cap q
  | (None, q') => q_buf q = [] ∧ q_buf q' = [] ∧ q_cap q' = q_cap q ∧ q_waker q' = Some ctx
  end.
Proof. unfold queue_pop, queue_try_pop. destruct q as [[|msg buf] cap w]; done. Qed.

Lemma fill_loop_spec n ctx q b q' b' :
  fill_loop n ctx q b = (q', b') → b' ++ q_buf q' = b ++ q_buf q ∧ q_cap q' = q_cap q.
Proof.
  revert q b. induction n as [|n IH]; intros q b Hf; cbn in Hf; [by simplify_eq|].
  pose proof (queue_pop_spec ctx q) as Hp. destruct (queue_pop ctx q) as [[msg|] q1].
  - destruct Hp as [-> Hc]. apply IH in Hf as [-> ->]. split; [|done].
    unfold buffer_push. by rewrite <-(assoc_L (++)).
  - destruct Hp as (? & ? & ? & _). simplify_eq. by split; [congruence|].
Qed.

Lemma poll_loop_spec sink env ctx q call q' call' sent r :
  poll_loop sink env ctx q call = (q', call', sent, r) →
  q_cap q' = q_cap q ∧ ∃ lost, (r = Pending → lost = []) ∧
    sent ++ lost ++ rc_buffer call' ++ q_buf q' = rc_buffer call ++ q_buf q.
Proof.
  revert q call sent. induction sink as [|[ready res] sink IH]; intros q call sent Hp; cbn in Hp;
    destruct (fill_msg ctx q (rc_buffer call)) as [q1 b] eqn:Hf;
    apply fill_loop_spec in Hf as [Hb Hc]; rewrite <-Hb, <-Hc; clear Hb Hc.
  - destruct (buffer_empty b); simplify_eq/=; (split; [done|]; by exists []).
  - destruct (buffer_empty b) eqn:He; [simplify_eq/=; split; [done|]; by exists []|].
    destruct ready as [|[[]|e]]; [simplify_eq/=; split; [done|]; by exists []| |].
    + destruct b as [|msg b]; [done|]. cbn in Hp. destruct res as [[]|e]; cbn in Hp.
      * destruct (poll_loop _ _ _ _ _) as [[[q2 call2] sent2] r2] eqn:Hp2. simplify_eq.
        apply IH in Hp2 as (Hc & lost & Hlost & Heq). cbn in Heq. split; [done|].
        exists lost. split; [done|]. cbn. by rewrite Heq.
      * simplify_eq. split; [done|]. by exists [msg].
    + simplify_eq. split; [done|]. by exists [].
Qed.

Lemma clear_pending_spec q :
  clear_pending_message q = Returns (mkQueue [] (q_cap q) (q_waker q)).
Proof.
  unfold clear_pending_message, queue_len. destruct q as [buf cap w]. cbn.
  induction buf as [|m buf IH]; [done|exact IH].
Qed.

(** The invariant: what was sent and what waits are messages that were pushed, in
    their order; and all of them as long as no connection has ended. *)
Definition link_inv (cap : Z) (msgs : list M) (l : Link) : Prop :=
  q_cap (lk_queue l) = cap ∧ 0 ≤ be_retry_times (lk_backend l) ∧
  (lk_sent l ++ waiting l) `sublist_of` msgs ∧
  (be_retry_times (lk_backend l) = 0 ∨
   be_retry_times (lk_backend l) = 1 ∧ is_Some (be_call (lk_backend l)) →
   lk_sent l ++ waiting l = msgs).

Lemma backend_poll_inv cap msgs l env ctx :
  link_inv cap msgs l → (be_retry_times (lk_backend l) = 0 → be_call (lk_backend l) = None) →
  ∃ l', link_step (LinkPoll env ctx) l = Returns l' ∧ link_inv cap msgs l' ∧
    0 < be_retry_times (lk_backend l').
Proof.
  destruct l as [q [n call] sent]. intros (Hc & Hn & Hs & He) H0. cbn in *.
  unfold backend_poll. cbn. destruct call as [call|]; cbn.
  2: { eexists; split; [done|]. unfold link_inv, waiting in *. cbn in *. rewrite app_nil_r.
    split_and!; [done|lia|done| |lia]. intros. apply He. lia. }
  unfold call_poll.
  destruct (poll_loop (env_sink env) env ctx q call) as [[[q1 call1] s1] r] eqn:Hp.
  apply poll_loop_spec in Hp as (Hcap & lost & Hlost & Heq).
  assert (n ≠ 0) by (intros ->; by specialize (H0 eq_refl)).
  unfold waiting in Hs, He. cbn in Hs, He. rewrite <-Heq in Hs, He.
  assert (Hsub : ∀ w, w `sublist_of` (rc_buffer call1 ++ q_buf q1) →
    ((sent ++ s1) ++ w) `sublist_of` msgs).
  { intros w Hw. etrans; [|exact Hs]. rewrite <-(assoc_L (++)).
    apply sublist_app; [done|]. apply sublist_app; [done|]. etrans; [exact Hw|].
    by apply sublist_inserts_l. }
  destruct r as [|f]; [|destruct f; [|destruct (1 <? n) eqn:H1]]; cbn;
    rewrite ?clear_pending_spec; cbn; (eexists; split; [done|]); unfold link_inv, waiting; cbn.
  - rewrite (Hlost eq_refl) in He. cbn in He.
    split_and!; [congruence|done|by apply Hsub| |lia].
    intros [?|[? _]]; [done|]. rewrite <-(assoc_L (++)). apply He. right. eauto.
  - split_and!; [congruence|done|apply Hsub, sublist_inserts_l; done| |lia]. intros [?|[_ [??]]]; done.
  - split_and!; [congruence|done|apply Hsub, sublist_nil_l| |lia]. intros [?|[_ [??]]]; done.
  - split_and!; [congruence|done|apply Hsub, sublist_inserts_l; done| |lia]. intros [?|[_ [??]]]; done.
Qed.

Lemma push_inv cap msgs l msg :
  link_inv cap msgs l → Z.of_nat (length msgs) < cap →
  ∃ l', link_step (LinkPush msg) l = Returns l' ∧ link_inv cap (msgs ++ [msg]) l' ∧
    lk_backend l' = lk_backend l.
Proof.
  destruct l as [q be sent]. intros (Hc & Hn & Hs & He) Hlt. cbn in *.
  assert (Hlen : (length (q_buf q) ≤ length msgs)%nat).
  { apply sublist_length in Hs. unfold waiting in Hs. cbn in Hs. rewrite length_app in Hs.
    destruct (be_call be); [rewrite length_app in Hs|]; lia. }
  unfold queue_push. rewrite (proj2 (Z.ltb_lt _ _)) by lia. cbn.
  eexists; split; [done|]. split; [|done].
  assert (Hw : ∀ q', q_buf q' = q_buf q ++ [msg] →
    waiting (mkLink q' be sent) = waiting (mkLink q be sent) ++ [msg]).
  { intros q' Hq'. unfold waiting. cbn. rewrite Hq'. destruct (be_call be); [|done].
    by rewrite (assoc_L (++)). }
  unfold link_inv. rewrite Hw by done. cbn. rewrite (assoc_L (++)).
  split_and!; [done..|by apply sublist_app|]. intros Hi. by rewrite He.
Qed.

Lemma notify_inv cap msgs l :
  link_inv cap msgs l →
  ∃ l', link_step LinkNotify l = Returns l' ∧ link_inv cap msgs l' ∧ lk_backend l' = lk_backend l.
Proof.
  destruct l as [[buf c w] be sent]. intros Hi. eexists; split; [done|]. split; [|done].
  unfold link_inv, waiting, queue_notify in *. cbn in *. by destruct buf.
Qed.

Lemma pushed_snoc evs ev :
  pushed (evs ++ [ev]) = pushed evs ++ match ev with LinkPush msg => [msg] | _ => [] end.
Proof. unfold pushed. rewrite omap_app. by destruct ev. Qed.

Lemma link_steps_inv cap evs :
  Z.of_nat (length (pushed evs)) ≤ cap →
  ∃ l, link_steps evs (link_new cap) = Returns l ∧ link_inv cap (pushed evs) l ∧
    (be_retry_times (lk_backend l) = 0 → be_call (lk_backend l) = None).
Proof.
  unfold link_steps. induction evs as [|ev evs IH] using rev_ind; intros Hcap.
  { eexists; split; [done|]. by split. }
  rewrite foldl_app. rewrite pushed_snoc, length_app in Hcap.
  destruct IH as (l & -> & Hi & H0); [lia|]. rewrite pushed_snoc.
  destruct ev as [msg| |env ctx]; cbn [foldl mbind run_bind].
  - cbn [length] in Hcap. destruct (push_inv cap (pushed evs) l msg Hi) as (l' & -> & Hi' & Hb); [lia|].
    exists l'. rewrite Hb. done.
  - destruct (notify_inv _ _ _ Hi) as (l' & -> & Hi' & Hb). exists l'. by rewrite Hb, app_nil_r.
  - destruct (backend_poll_inv _ _ _ env ctx Hi H0) as (l' & -> & Hi' & Hb).
    exists l'. rewrite app_nil_r. split; [done|]. split; [done|]. lia.
Qed.

End link.
Global Arguments Link : clear implicits.
Global Arguments LinkEvent : clear implicits.

(** Three messages: the first poll connects, the second sends what the sink takes;
    then the connection is lost and the next one drops what waited. *)
Definition fifo_events : list (LinkEvent Z) :=
  let ok := (Ready (Ok tt), Ok tt) in
  let lost := (Ready (Err GrpcOther), Ok tt) in
  let env sink := {| env_sink := sink; env_flush := Ready (Ok tt); env_receiver := Pending |} in
  [LinkPush 1; LinkPoll (env []) 7; LinkPush 2; LinkPush 3; LinkNotify; LinkPoll (env [ok]) 7;
   LinkPoll (env [lost]) 7; LinkPush 4; LinkPush 5; LinkPush 6; LinkPoll (env []) 7;
   LinkPoll (env [ok; lost]) 7].


(** ** No wake-up is lost

    The queue is shared without a lock around it: [pop], [notify] and [push] interleave
    at their atomic steps.  A consumer that finds the queue empty registers its waker
    and looks again ([pop]) before it sleeps; a producer looks whether the queue is
    empty and then takes the waker ([notify]).  A wake-up of a task that runs makes it
    run once more. *)

Section wakeup.
Context {M : Type}.

(** Where the task is: before the first [pop] of a round, between it and the
    registration, between the registration and the second [pop], asleep on an empty
    queue, or busy with the sink (or a new connection). *)
Inductive Consumer := CPop | CRegister | CRepop | CIdle | CSink.
(** Where a client is: it has nothing to flush, has pushed, or is in [notify] and has
    seen a message. *)
Inductive Producer := PIdle | PPushed | PChecked.

Record Shared := mkShared {
  sh_queue : Queue M;
  sh_woken : bool;
  sh_consumer : Consumer;
  sh_producers : list Producer
}.

Definition register (ctx : Waker) (q : Queue M) : Queue M :=
  mkQueue (q_buf q) (q_cap q) (Some ctx).
Definition take_waker (q : Queue M) : Queue M := mkQueue (q_buf q) (q_cap q) None.

Inductive shared_step : Shared → Shared → Prop :=
| step_pop q q' w ps msg pc :
    queue_try_pop q = (Some msg, q') → pc = CPop ∨ pc = CSink →
    shared_step (mkShared q w CPop ps) (mkShared q' w pc ps)
| step_pop_empty q w ps :
    q_buf q = [] → shared_step (mkShared q w CPop ps) (mkShared q w CRegister ps)
| step_register ctx q w ps :
    shared_step (mkShared q w CRegister ps) (mkShared (register ctx q) w CRepop ps)
| step_repop q q' w ps msg pc :
    queue_try_pop q = (Some msg, q') → pc = CPop ∨ pc = CSink →
    shared_step (mkShared q w CRepop ps) (mkShared q' w pc ps)
| step_repop_empty q w ps pc :
    q_buf q = [] → pc = CIdle ∨ pc = CSink →
    shared_step (mkShared q w CRepop ps) (mkShared q w pc ps)
| step_sink q w w' ps : shared_step (mkShared q w CSink ps) (mkShared q w' CPop ps)
| step_woken q ps : shared_step (mkShared q true CIdle ps) (mkShared q false CPop ps)
| step_other_event q w pc ps : shared_step (mkShared q w pc ps) (mkShared q w CSink ps)
| step_push q q' w pc ps i p msg :
    ps !! i = Some p → p ≠ PChecked → queue_push msg q = Returns q' →
    shared_step (mkShared q w pc ps) (mkShared q' w pc (<[i := PPushed]> ps))
| step_notify_empty q w pc ps i :
    ps !! i = Some PPushed → q_buf q = [] →
    shared_step (mkShared q w pc ps) (mkShared q w pc (<[i := PIdle]> ps))
| step_notify_check q w pc ps i :
    ps !! i = Some PPushed → q_buf q ≠ [] →
    shared_step (mkShared q w pc ps) (mkShared q w pc (<[i := PChecked]> ps))
| step_notify_take q w pc ps i :
    ps !! i = Some PChecked →
    shared_step (mkShared q w pc ps)
      (mkShared (take_waker q) (w || match q_waker q with Some _ => true | None => false end) pc
         (<[i := PIdle]> ps)).

Definition shared_init (cap : Z) (producers : nat) : Shared :=
  mkShared (queue_with_capacity cap) false CSink (replicate producers PIdle).

(** A sleeping task is registered or about to run; and if there is a message for it,
    it is about to run or someone has still to notify it. *)
Definition shared_inv (s : Shared) : Prop :=
  (sh_consumer s = CRepop ∨ sh_consumer s = CIdle →
   is_Some (q_waker (sh_queue s)) ∨ sh_woken s = true) ∧
  (sh_consumer s = CIdle → q_buf (sh_queue s) ≠ [] →
   sh_woken s = true ∨ ∃ p, p ∈ sh_producers s ∧ p ≠ PIdle).

Lemma queue_try_pop_Some (q q' : Queue M) msg :
  queue_try_pop q = (Some msg, q') → q_waker q' = q_waker q.
Proof. unfold queue_try_pop. destruct (q_buf q); [done|]. by intros [= _ <-]. Qed.

Lemma queue_push_Returns (q q' : Queue M) msg :
  queue_push msg q = Returns q' → q_waker q' = q_waker q ∧ q_buf q' = q_buf q ++ [msg].
Proof. unfold queue_push. case_match; [|done]. by intros [= <-]. Qed.

(** The producer at [i] becomes [p'], the others stay. *)
Lemma pending_insert (ps : list Producer) i p p' :
  ps !! i = Some p → p' ≠ PIdle → ∃ p, p ∈ <[i := p']> ps ∧ p ≠ PIdle.
Proof.
  intros Hi Hp. exists p'. split; [|done]. apply list_elem_of_lookup. exists i.
  apply list_lookup_insert_eq. by apply lookup_lt_Some in Hi.
Qed.

Lemma shared_step_inv s s' : shared_step s s' → shared_inv s → shared_inv s'.
Proof.
  intros Hstep [H1 H2]. destruct Hstep; unfold shared_inv in *; cbn in *.
  - split; naive_solver.
  - split; naive_solver.
  - split; [left; eauto|naive_solver].
  - split; naive_solver.
  - split; naive_solver.
  - split; naive_solver.
  - split; naive_solver.
  - split; naive_solver.
  - apply queue_push_Returns in H3 as [-> _]. split; [done|]. intros _ _. right.
    by eapply pending_insert.
  - split; naive_solver.
  - split; [done|]. intros _ _. right. by eapply pending_insert.
  - split.
    + intros Hc. right. destruct (H1 Hc) as [[ctx ->]| ->]; [apply orb_true_r|done].
    + intros Hc _. left. destruct (H1 (or_intror Hc)) as [[ctx ->]| ->]; [apply orb_true_r|done].
Qed.

(** C21. No wake-up of the transport is lost: in every interleaving of the task of a
    connection with any number of clients, when all clients have flushed and the task
    sleeps on the queue without having been woken, the queue is empty. *)
Theorem no_lost_wakeup (cap : Z) (producers : nat) (s : Shared) :
  rtc shared_step (shared_init cap producers) s →
  Forall (λ p, p = PIdle) (sh_producers s) → sh_consumer s = CIdle → sh_woken s = false →
  q_buf (sh_queue s) = [].
Proof.
  intros Hs Hps Hc Hw.
  assert (Hinv : shared_inv s).
  { clear -Hs. remember (shared_init cap producers) as s0 eqn:Heq.
    assert (H0 : shared_inv s0) by (subst; unfold shared_inv; cbn; naive_solver). clear Heq.
    induction Hs as [|s0 s1 s2 Hstep _ IH]; [done|]. apply IH. by eapply shared_step_inv. }
  destruct (q_buf (sh_queue s)) as [|m b] eqn:Hb; [done|].
  destruct (proj2 Hinv Hc) as [Hw'|(p & Hp & Hne)]; [by rewrite Hb|congruence|].
  rewrite list.Forall_forall in Hps. by apply Hps in Hp.
Qed.
End wakeup.

(** One message from one client: the task sleeps, is woken, takes it and sleeps again. *)
Lemma no_lost_wakeup_witness :
  rtc shared_step (shared_init 8 1) (mkShared (mkQueue (M := Z) [] 8 (Some 7)) false CIdle [PIdle]) ∧
  q_buf (sh_queue (mkShared (mkQueue (M := Z) [] 8 (Some 7)) false CIdle [PIdle])) = [].
Proof.
  assert (Hsteps : rtc shared_step (shared_init 8 1)
                     (mkShared (mkQueue (M := Z) [] 8 (Some 7)) false CIdle [PIdle])).
  { eapply rtc_l; [by apply (step_sink _ _ false)|].
    eapply rtc_l; [by apply step_pop_empty|]. eapply rtc_l; [apply (step_register 7)|].
    eapply rtc_l; [apply step_repop_empty; [done|by left]|].
    eapply rtc_l; [by eapply (step_push _ _ _ _ _ 0 PIdle 5)|].
    eapply rtc_l; [by apply (step_notify_check _ _ _ _ 0)|].
    eapply rtc_l; [by apply (step_notify_take _ _ _ _ 0)|].
    eapply rtc_l; [apply step_woken|]. eapply rtc_l; [eapply (step_pop _ _ _ _ 5 CPop); [done|by left]|].
    eapply rtc_l; [by apply step_pop_empty|]. eapply rtc_l; [apply (step_register 7)|].
    eapply rtc_l; [apply step_repop_empty; [done|by left]|]. apply rtc_refl. }
  split; [exact Hsteps|].
  apply (no_lost_wakeup 8 1); [exact Hsteps|by repeat constructor|reflexivity..].
Defined.

(** ** Sending and flushing

    The cache of a client never evicts: it is resized to the number of connections
    before a stream is inserted.  A cached stream is the connection of the pool, and it
    is dirty exactly if it has to be flushed. *)

Local Arguments find : simpl never.

Section delivery.
Context {M : Type} (to_store_id : M → Z).
Implicit Types (net : Net M) (c : RaftClient) (key : Z * Z).

Definition queue_of net key : option (Queue M) :=
  s ← net_connections net !! key; net_queues net !! s.

Record net_ok net : Prop := {
  net_queue key s : net_connections net !! key = Some s →
    ∃ q, net_queues net !! s = Some q ∧ Forall (λ m, to_store_id m = key.1) (q_buf q);
  net_inj key key' s : net_connections net !! key = Some s →
    net_connections net !! key' = Some s → key = key'
}.

Record client_ok net c (ls : list loc) (s : LruSpec (Z * Z) CachedQueue) : Prop := {
  client_cache : represents ls (cl_cache c) s;
  client_cached key cq : find key (spec_entries s) = Some cq →
    net_connections net !! key = Some (cq_queue cq) ∧
    (cq_dirty cq = true ↔ key ∈ cl_need_flush c);
  client_flushes key : key ∈ cl_need_flush c → is_Some (find key (spec_entries s))
}.

Lemma find_others (k k' : Z * Z) (es : list (Z * Z * CachedQueue)) :
  NoDup es.*1 → find k' (others k es) = if decide (k' = k) then None else find k' es.
Proof.
  intros Hnd. unfold find, others. case_decide as Hk.
  - subst. apply not_elem_of_list_to_map. intros Hin.
    apply list_elem_of_fmap in Hin as (e & -> & He). by apply list_elem_of_filter in He as [??].
  - induction es as [|[k0 v0] es IH]; [done|]. apply list.NoDup_cons in Hnd as [_ Hnd].
    destruct (decide (k0 = k)) as [->|].
    + rewrite list.filter_cons_False by (cbn; tauto). cbn. rewrite lookup_insert_ne by done. auto.
    + rewrite list.filter_cons_True by done. cbn.
      destruct (decide (k0 = k')) as [->|]; [by rewrite !lookup_insert_eq|].
      rewrite !lookup_insert_ne by done. auto.
Qed.

Lemma find_cons (k k' : Z * Z) v (es : list (Z * Z * CachedQueue)) :
  find k' ((k, v) :: es) = if decide (k' = k) then Some v else find k' es.
Proof.
  unfold find. cbn. case_decide as Hk; [subst; apply lookup_insert_eq|by apply lookup_insert_ne].
Qed.

Lemma find_overwrite (k k' : Z * Z) v (es : list (Z * Z * CachedQueue)) :
  find k' (overwrite k v es) = if decide (k' = k) then (λ _, v) <$> find k es else find k' es.
Proof.
  induction es as [|[k1 v1] es IH]; [by case_decide|].
  unfold overwrite in *. rewrite fmap_cons. cbn.
  destruct (decide (k1 = k)) as [->|Hk1]; rewrite !find_cons, IH; repeat case_decide; naive_solver.
Qed.

(** [get_mut] on a cached stream. *)
Lemma cache_get_mut (c : RaftClient) ls s key cq b :
  represents ls (cl_cache c) s → find key (spec_entries s) = Some cq →
  ∃ cache ls' s', lru_get_mut key (set_dirty b) (cl_cache c) = Returns (cache, Some cq) ∧
    represents ls' cache s' ∧
    ∀ k, find k (spec_entries s') =
      if decide (k = key) then Some (set_dirty b cq) else find k (spec_entries s).
Proof.
  intros Hr Hf. destruct (lru_get_mut_refines _ _ _ key (set_dirty b) Hr) as (ls' & cache & Hg & Hr').
  cbn in Hg, Hr'. rewrite Hf in Hg, Hr'. exists cache, ls'. eexists. split; [exact Hg|].
  split; [exact Hr'|]. intros k. unfold spec_touch; cbn. destruct (_ =? 0).
  - rewrite find_cons, find_others by apply Hr. by destruct (decide (k = key)).
  - rewrite find_overwrite, Hf. by destruct (decide (k = key)).
Qed.

Lemma cache_miss (c : RaftClient) ls s key b :
  represents ls (cl_cache c) s → find key (spec_entries s) = None →
  lru_get_mut key (set_dirty b) (cl_cache c) = Returns (cl_cache c, None).
Proof.
  intros Hr Hf. unfold lru_get_mut. by destruct (represents_absent _ _ _ _ Hr Hf) as [-> _].
Qed.

(** A cache whose streams are connections of the pool, and one connection that is not
    cached: there is room for it. *)
Lemma cache_room (m : gmap (Z * Z) nat) (es : list (Z * Z * CachedQueue)) key (q : nat) :
  NoDup es.*1 → (∀ k cq, find k es = Some cq → is_Some (m !! k)) → m !! key = Some q →
  find key es = None → (length es < size m)%nat.
Proof.
  intros Hnd Hin Hq Hf. unfold find in Hf. apply not_elem_of_list_to_map in Hf.
  rewrite <-(length_fmap fst es), <-size_dom. unfold lt. change (S (length es.*1)) with (length (key :: es.*1)).
  rewrite <-(size_list_to_set (C := gset (Z * Z)) (key :: es.*1)) by by apply list.NoDup_cons.
  apply subseteq_size. intros k. rewrite elem_of_list_to_set, elem_of_dom, elem_of_cons.
  intros [->|Hk]; [eauto|].
  destruct (find k es) as [cq|] eqn:Hfk; [by apply Hin in Hfk|].
  unfold find in Hfk. by apply not_elem_of_list_to_map in Hfk.
Qed.

(** The cache after [resize] and [insert] of a stream that was not there. *)
Lemma cache_load (c : RaftClient) (ls : list loc) (s : LruSpec (Z * Z) CachedQueue)
    (m : gmap (Z * Z) nat) key (q : nat) (v : CachedQueue) :
  represents ls (cl_cache c) s → (∀ k cq, find k (spec_entries s) = Some cq → is_Some (m !! k)) →
  m !! key = Some q → find key (spec_entries s) = None → Z.of_nat (size m) < u64_modulus →
  ∃ cache ls' s',
    (cache ← lru_resize (Z.of_nat (size m)) (cl_cache c); lru_insert key v cache) = Returns cache ∧
    represents ls' cache s' ∧
    ∀ k, find k (spec_entries s') = if decide (k = key) then Some v else find k (spec_entries s).
Proof.
  intros Hr Hin Hq Hf Hsize.
  pose proof (cache_room m _ _ _ (rep_nodup _ _ _ Hr) Hin Hq Hf) as Hroom.
  destruct (lru_resize_refines _ _ _ (Z.of_nat (size m)) Hr) as (ls1 & c1 & -> & Hr1).
  { unfold is_u64. lia. }
  cbn in Hr1. rewrite (proj2 (Z.eqb_neq _ _)) in Hr1 by lia. rewrite take_ge in Hr1 by lia.
  destruct (lru_insert_new _ _ _ key v Hr1 Hf) as (ls2 & c2 & Hc2 & Hr2).
  exists c2, ls2. eexists. split; [exact Hc2|]. split; [exact Hr2|]. cbn.
  rewrite take_ge by lia. intros k. apply find_cons.
Qed.

Lemma pool_entry_ok key net :
  net_ok net → let '(q, net') := pool_entry key net in
  net_ok net' ∧ net_connections net' !! key = Some q ∧
  (size (net_connections net') ≤ size (net_connections net) + 1)%nat ∧
  (∀ k s, net_connections net !! k = Some s → net_connections net' !! k = Some s) ∧
  queue_of net' key = Some (default (queue_with_capacity QUEUE_CAPACITY) (queue_of net key)) ∧
  ∀ k, k ≠ key → queue_of net' k = queue_of net k.
Proof.
  intros [Hq Hi]. unfold pool_entry, queue_of. destruct (net_connections net !! key) as [s|] eqn:Hs.
  { split_and!; [done|done|lia|done| |done]. rewrite Hs. cbn.
    by destruct (Hq _ _ Hs) as (q & -> & _). }
  assert (Hlt : ∀ k s, net_connections net !! k = Some s → (s < length (net_queues net))%nat).
  { intros k s Hk. destruct (Hq _ _ Hk) as (q & Hl & _). by apply lookup_lt_Some in Hl. }
  split_and!; cbn.
  - split; cbn.
    + intros k s. rewrite lookup_insert_Some. intros [[<- <-]|[Hne Hk]].
      * exists (queue_with_capacity QUEUE_CAPACITY). split; [|constructor].
        rewrite lookup_app_r, Nat.sub_diag by done. done.
      * rewrite lookup_app_l by eauto. eauto.
    + intros k k' s. rewrite !lookup_insert_Some.
      intros [[<- <-]|[Hne Hk]] [[<- ?]|[Hne' Hk']]; try done.
      * apply Hlt in Hk'. lia.
      * apply Hlt in Hk. subst. lia.
      * eauto.
  - apply lookup_insert_eq.
  - rewrite map_size_insert, Hs. cbn. lia.
  - intros k s Hk. rewrite lookup_insert_ne; [done|]. intros ->. congruence.
  - rewrite lookup_insert_eq. cbn. by rewrite lookup_app_r, Nat.sub_diag by done.
  - intros k Hk. rewrite lookup_insert_ne by done.
    destruct (net_connections net !! k) as [s|] eqn:Hks; [|done]. cbn.
    by rewrite lookup_app_l by eauto.
Qed.

Lemma load_stream_ok net c ls s store_id conn_id :
  net_ok net → client_ok net c ls s → find (store_id, conn_id) (spec_entries s) = None →
  Z.of_nat (size (net_connections net)) + 1 < u64_modulus →
  let '(q, net') := pool_entry (store_id, conn_id) net in
  ∃ c' ls' s', load_stream store_id conn_id net c = Returns (net', c', true) ∧
    client_ok net' c' ls' s' ∧ cl_need_flush c' = cl_need_flush c ∧
    find (store_id, conn_id) (spec_entries s') = Some {| cq_queue := q; cq_dirty := false |}.
Proof.
  intros Hn [Hr Hc Hfl] Hf Hsize. set (key := (store_id, conn_id)) in *.
  pose proof (pool_entry_ok key net Hn) as Hp. unfold load_stream. fold key.
  destruct (pool_entry key net) as [q net']. destruct Hp as (Hn' & Hq & Hs' & Hold & _).
  destruct (cache_load c ls s (net_connections net') key q {| cq_queue := q; cq_dirty := false |} Hr)
    as (cache & ls' & s' & Hcache & Hr' & Hfind).
  { intros k cq Hk. apply Hc in Hk as [Hk _]. rewrite (Hold _ _ Hk). eauto. }
  { done. } { done. } { lia. }
  destruct (lru_resize _ _) as [c1|]; [|done]. cbn [mbind run_bind] in Hcache |- *.
  rewrite Hcache. cbn [mbind run_bind].
  eexists _, ls', s'. split; [done|]. split; [|split; [done|by rewrite Hfind, decide_True]].
  split; cbn; [done|..].
  - intros k cq. rewrite Hfind. case_decide as Hk.
    + intros [= <-]. subst k. cbn. split; [done|]. split; [done|]. intros Hin.
      apply Hfl in Hin as [??]. congruence.
    + intros Hfk. apply Hc in Hfk as [? ?]. eauto.
  - intros k Hk. rewrite Hfind. case_decide; [eauto|]. by apply Hfl.
Qed.

Definition pushed_on (msg : M) (q : Queue M) : Queue M :=
  mkQueue (q_buf q ++ [msg]) (q_cap q) (q_waker q).

(** What [send] does to the queues and the client. *)
Definition sends (msg : M) (q : Queue M) net net' c' : Prop :=
  net_ok net' ∧ (∃ ls s, client_ok net' c' ls s) ∧
  (to_store_id msg, 0) ∈ cl_need_flush c' ∧
  queue_of net' (to_store_id msg, 0) = Some (pushed_on msg q) ∧
  (∀ key, key ≠ (to_store_id msg, 0) → queue_of net' key = queue_of net key) ∧
  (size (net_connections net') ≤ size (net_connections net) + 1)%nat.

Lemma send_hit n msg net c ls s cq q :
  net_ok net → client_ok net c ls s → find (to_store_id msg, 0) (spec_entries s) = Some cq →
  queue_of net (to_store_id msg, 0) = Some q → Z.of_nat (length (q_buf q)) < q_cap q →
  ∃ net' c', send_loop to_store_id (S n) msg net c = Returns (net', c') ∧ sends msg q net net' c' ∧
    net_connections net' = net_connections net.
Proof.
  intros [Hn Hi] [Hr Hc Hfl] Hf Hq Hroom. set (key := (to_store_id msg, 0)) in *.
  destruct (Hc _ _ Hf) as [Hcq Hd].
  destruct (cache_get_mut c ls s key cq true Hr Hf) as (cache & ls' & s' & Hg & Hr' & Hfind).
  unfold queue_of in Hq. rewrite Hcq in Hq. cbn in Hq.
  cbn [send_loop]. fold key. rewrite Hg. cbn [mbind run_bind]. rewrite Hq. cbn [unwrap mbind run_bind].
  unfold queue_push. rewrite (proj2 (Z.ltb_lt _ _)) by done. cbn [mbind run_bind].
  do 2 eexists. split; [done|]. split; [|done].
  unfold sends, queue_of. cbn [net_connections net_queues cl_need_flush].
  fold key.
  set (nf := if cq_dirty cq then _ else _).
  assert (Hnf : ∀ k, k ∈ nf ↔ k = key ∨ k ∈ cl_need_flush c).
  { intros k. unfold nf. destruct (cq_dirty cq); [|set_solver].
    split; [by right|]. intros [->|?]; [by apply Hd|done]. }
  pose proof (lookup_lt_Some _ _ _ Hq) as Hlt.
  split_and!.
  - split; cbn.
    + intros k s0 Hk. destruct (Hn _ _ Hk) as (q0 & Hq0 & Hall).
      destruct (decide (s0 = cq_queue cq)) as [->|].
      * exists (pushed_on msg q). split; [by apply list_lookup_insert_eq|].
        rewrite (Hi _ _ _ Hk Hcq) in *. simplify_eq. apply Forall_app. by repeat constructor.
      * exists q0. by rewrite list_lookup_insert_ne.
    + done.
  - exists ls', s'. split; cbn; [done|..].
    + intros k cq0. rewrite Hfind. case_decide as Hk.
      * intros Hcq0. injection Hcq0 as <-. subst k. split; [done|]. rewrite Hnf. cbn. tauto.
      * intros Hfk. destruct (Hc _ _ Hfk) as [? Hk2]. split; [done|]. rewrite Hnf, Hk2. tauto.
    + intros k. rewrite Hnf, Hfind. case_decide; [eauto|]. intros [?|?]; [done|by apply Hfl].
  - rewrite Hnf. by left.
  - rewrite Hcq. cbn. by apply list_lookup_insert_eq.
  - intros k Hk. destruct (net_connections net !! k) as [s0|] eqn:Hs0; [|done]. cbn.
    rewrite list_lookup_insert_ne; [done|]. intros Heq. subst s0. apply Hk. by eapply Hi.
  - lia.
Qed.

Lemma client_send_ok (msg : M) net c :
  net_ok net → (∃ ls s, client_ok net c ls s) →
  let key := (to_store_id msg, 0) in
  let q := default (queue_with_capacity QUEUE_CAPACITY) (queue_of net key) in
  Z.of_nat (size (net_connections net)) + 1 < u64_modulus →
  Z.of_nat (length (q_buf q)) < q_cap q →
  ∃ net' c', client_send to_store_id msg net c = Returns (net', c') ∧
    sends msg q net net' c'.
Proof.
  intros Hn (ls & s & Hc) key q Hsize Hroom. unfold client_send.
  destruct (find key (spec_entries s)) as [cq|] eqn:Hf.
  - destruct (client_cached _ _ _ _ Hc _ _ Hf) as [Hcq _].
    destruct (send_hit 1 msg net c ls s cq q Hn Hc Hf) as (net' & c' & ? & ? & _); [|done|by exists net', c'].
    unfold q, queue_of. fold key. rewrite Hcq. cbn.
    by destruct (net_queue _ Hn _ _ Hcq) as (q0 & -> & _).
  - pose proof (load_stream_ok net c ls s _ 0 Hn Hc Hf Hsize) as Hload.
    pose proof (pool_entry_ok key net Hn) as Hp. fold key in Hload.
    destruct (pool_entry key net) as [q1 net1].
    destruct Hp as (Hn1 & _ & Hs1 & _ & Hq1 & Hother).
    destruct Hload as (c1 & ls1 & s1 & Hl & Hc1 & _ & Hf1).
    destruct (send_hit 0 msg net1 c1 ls1 s1 _ q Hn1 Hc1 Hf1 Hq1 Hroom)
      as (net2 & c2 & Hs2 & (Hn2 & Hc2 & Hin & Hq2 & Ho2 & _) & Hsz).
    exists net2, c2. split.
    + cbn [send_loop]. fold key.
      rewrite (cache_miss c ls s key true (client_cache _ _ _ _ Hc) Hf). cbn [mbind run_bind].
      destruct c as [cache nf]. cbn [cl_cache cl_need_flush]. rewrite Hl. exact Hs2.
    + split_and!; try done; [|by rewrite Hsz]. intros k Hk. rewrite Ho2 by done. by apply Hother.
Qed.

(** [send] delivers: a message is appended to the queue of the store it goes to,
    which is made, with its task, if there is none; the loop ends in its second round at
    the latest; the other queues are untouched and the queue is marked for the next
    flush.  Queues only hold messages for their own store. *)
Theorem client_send_delivers (msg : M) net c :
  net_ok net → (∃ ls s, client_ok net c ls s) →
  let key := (to_store_id msg, 0) in
  let q := default (queue_with_capacity QUEUE_CAPACITY) (queue_of net key) in
  Z.of_nat (size (net_connections net)) + 1 < u64_modulus →
  Z.of_nat (length (q_buf q)) < q_cap q →
  ∃ net' c', client_send to_store_id msg net c = Returns (net', c') ∧
    net_ok net' ∧ (∃ ls s, client_ok net' c' ls s) ∧ key ∈ cl_need_flush c' ∧
    queue_of net' key = Some (pushed_on msg q) ∧
    (∀ key', key' ≠ key → queue_of net' key' = queue_of net key') ∧
    (size (net_connections net') ≤ size (net_connections net) + 1)%nat.
Proof. apply client_send_ok. Qed.

(** Queues keep their messages; a waker that is gone has been woken. *)
Definition notified net net' (woken : list Waker) : Prop :=
  ∀ key q, queue_of net key = Some q → ∃ q', queue_of net' key = Some q' ∧
    (q' = q ∨ q' = take_waker q ∧ ∀ w, q_waker q = Some w → w ∈ woken).
(** No task sleeps on a queue that has messages. *)
Definition settled net key : Prop :=
  ∀ q, queue_of net key = Some q → q_buf q ≠ [] → q_waker q = None.

Lemma notified_refl net : notified net net [].
Proof. intros k q Hq. eauto. Qed.

Lemma notified_trans net1 net2 net3 w1 w2 :
  notified net1 net2 w1 → notified net2 net3 w2 → notified net1 net3 (w1 ++ w2).
Proof.
  intros H1 H2 k q Hq. destruct (H1 _ _ Hq) as (q2 & Hq2 & Hw2).
  destruct (H2 _ _ Hq2) as (q3 & Hq3 & Hw3). exists q3. split; [done|].
  destruct Hw2 as [->|[-> Hin2]], Hw3 as [->|[-> Hin3]]; [by left|right..];
    (split; [done|]; intros w Hw; apply elem_of_app; auto).
Qed.

Lemma notified_settled net net' woken key :
  is_Some (queue_of net key) → notified net net' woken → settled net key → settled net' key.
Proof.
  intros [q Hq] Hn Hs q' Hq' Hb.
  destruct (Hn _ _ Hq) as (q1 & Hq1 & [->|[-> _]]); simplify_eq; [|done]. by apply Hs.
Qed.

Lemma notify_at_ok net key s :
  net_ok net → net_connections net !! key = Some s →
  ∃ net' woken, notify_at s net = Returns (net', woken) ∧ net_ok net' ∧
    net_connections net' = net_connections net ∧ notified net net' woken ∧ settled net' key.
Proof.
  intros [Hn Hi] Hs. destruct (Hn _ _ Hs) as (q & Hq & _). unfold notify_at. rewrite Hq.
  cbn [unwrap mbind run_bind]. pose proof (lookup_lt_Some _ _ _ Hq) as Hlt.
  destruct (queue_notify q) as [q' woken] eqn:Hnot.
  assert (Hw : q' = q ∧ q_buf q = [] ∨ q' = take_waker q ∧ woken = q_waker q).
  { unfold queue_notify, take_waker in *. destruct (q_buf q) eqn:Hb; simplify_eq; auto. }
  assert (Hb : q_buf q' = q_buf q) by (destruct Hw as [[-> _]|[-> _]]; done).
  do 2 eexists. split; [done|]. split_and!; [|done|..].
  - split; cbn; [|done]. intros k s0 Hk. destruct (Hn _ _ Hk) as (q0 & Hq0 & Hall).
    destruct (decide (s0 = s)) as [->|].
    + exists q'. split; [by apply list_lookup_insert_eq|]. rewrite Hb. by simplify_eq.
    + exists q0. by rewrite list_lookup_insert_ne.
  - intros k q0. unfold queue_of. cbn. destruct (net_connections net !! k) as [s0|]; [|done]. cbn.
    intros Hq0. destruct (decide (s0 = s)) as [->|].
    + simplify_eq. exists q'. split; [by apply list_lookup_insert_eq|].
      destruct Hw as [[-> _]|[-> ->]]; [by left|]. right. split; [done|]. intros w ->. by left.
    + exists q0. rewrite list_lookup_insert_ne by done. by auto.
  - intros q0. unfold queue_of. cbn. rewrite Hs. cbn. rewrite list_lookup_insert_eq by done.
    intros [= <-]. destruct Hw as [[_ Hw]|[-> _]]; [by rewrite Hb|done].
Qed.

Lemma flush_loop_ok ids net c ls s :
  net_ok net → represents ls (cl_cache c) s →
  (∀ k cq, find k (spec_entries s) = Some cq → net_connections net !! k = Some (cq_queue cq)) →
  (∀ k, k ∈ ids → ∃ cq, find k (spec_entries s) = Some cq ∧ (cq_dirty cq = false → settled net k)) →
  ∃ net' c' woken ls' s', flush_loop ids net c = Returns (net', c', woken) ∧ net_ok net' ∧
    net_connections net' = net_connections net ∧ represents ls' (cl_cache c') s' ∧
    (∀ k, find k (spec_entries s') =
      if decide (k ∈ ids) then set_dirty false <$> find k (spec_entries s)
      else find k (spec_entries s)) ∧
    notified net net' woken ∧ ∀ k, k ∈ ids → settled net' k.
Proof.
  revert net c ls s. induction ids as [|id ids IH]; intros net c ls s Hn Hr Hc Hids.
  { exists net, c, [], ls, s. split_and!; try done. 2: intros ? []%elem_of_nil. apply notified_refl. }
  destruct (Hids id) as (cq & Hf & Hd); [left|].
  destruct (cache_get_mut c ls s id cq false Hr Hf) as (cache & ls1 & s1 & Hg & Hr1 & Hfind1).
  assert (∃ net1 w1, (if cq_dirty cq then notify_at (cq_queue cq) net else Returns (net, [])) =
      Returns (net1, w1) ∧ net_ok net1 ∧ net_connections net1 = net_connections net ∧
      notified net net1 w1 ∧ settled net1 id) as (net1 & w1 & Hnot & Hn1 & Hconn1 & Hnot1 & Hs1).
  { destruct (cq_dirty cq).
    - apply notify_at_ok; [done|]. by apply Hc.
    - exists net, []. split_and!; try done; [apply notified_refl|by apply Hd]. }
  assert (Hq : ∀ k cq, find k (spec_entries s) = Some cq → is_Some (queue_of net k)).
  { intros k cq0 Hk. unfold queue_of. apply Hc in Hk. rewrite Hk. cbn.
    destruct (net_queue _ Hn _ _ Hk) as (q & -> & _). eauto. }
  destruct (IH net1 (mkClient cache (cl_need_flush c)) ls1 s1) as
    (net2 & c2 & w2 & ls2 & s2 & Hl & Hn2 & Hconn2 & Hr2 & Hfind2 & Hnot2 & Hs2); [done|done|..].
  { intros k cq0. rewrite Hfind1, Hconn1. case_decide; [|by apply Hc].
    intros Hcq0. injection Hcq0 as <-. subst. by apply Hc in Hf. }
  { intros k Hk. rewrite Hfind1. destruct (decide (k = id)) as [->|]; [by eauto|].
    destruct (Hids k) as (cq0 & Hf0 & Hd0); [by right|]. exists cq0. split; [done|].
    intros Hfalse. eapply notified_settled; [by eapply Hq|exact Hnot1|by apply Hd0]. }
  exists net2, c2, (w1 ++ w2), ls2, s2. split.
  { cbn [flush_loop]. rewrite Hg. cbn [mbind run_bind]. rewrite Hnot. cbn [mbind run_bind].
    by rewrite Hl. }
  split_and!; [done|congruence|done| | |].
  - intros k. rewrite Hfind2, Hfind1. destruct (decide (k = id)) as [->|Hk].
    + rewrite (decide_True (P := id ∈ id :: ids)) by left. rewrite Hf. by destruct (decide _).
    + assert (Hiff : k ∈ id :: ids ↔ k ∈ ids) by (rewrite elem_of_cons; tauto).
      clear -Hiff. destruct (decide (k ∈ ids)), (decide (k ∈ id :: ids)); tauto.
  - by eapply notified_trans.
  - intros k [->|Hk]%elem_of_cons; [|by apply Hs2].
    destruct (Hq _ _ Hf) as [q0 Hq0]. destruct (Hnot1 _ _ Hq0) as (q1 & Hq1 & _).
    by eapply notified_settled.
Qed.

(** [flush] wakes whoever is needed: afterwards no task sleeps on a queue that the
    client has sent to since the last flush, the wakers that were registered there have
    been woken, no message is touched and nothing is left to flush. *)
Theorem client_flush_notifies net c :
  net_ok net → (∃ ls s, client_ok net c ls s) →
  ∃ net' c' woken, client_flush net c = Returns (net', c', woken) ∧
    net_ok net' ∧ (∃ ls s, client_ok net' c' ls s) ∧ cl_need_flush c' = [] ∧
    ∀ key q, key ∈ cl_need_flush c → queue_of net key = Some q → q_buf q ≠ [] →
      queue_of net' key = Some (take_waker q) ∧ ∀ w, q_waker q = Some w → w ∈ woken.
Proof.
  intros Hn (ls & s & [Hr Hc Hfl]). unfold client_flush, client_need_flush.
  destruct (cl_need_flush c) as [|id ids] eqn:Hnf; [exists net, c, []|].
  { split; [done|]. split; [done|]. split; [exists ls, s; split; by rewrite ?Hnf|].
    split; [done|]. intros k q []%elem_of_nil. }
  rewrite <-Hnf in *. clear id ids Hnf.
  destruct (flush_loop_ok (cl_need_flush c) net c ls s Hn Hr) as
    (net' & c' & woken & ls' & s' & Hl & Hn' & Hconn & Hr' & Hfind & Hnot & Hset).
  { intros k cq Hk. by apply Hc. }
  { intros k Hk. destruct (Hfl _ Hk) as [cq Hf]. exists cq. split; [done|]. intros Hd.
    destruct (Hc _ _ Hf) as [_ Hd']. apply Hd' in Hk. congruence. }
  rewrite Hl. cbn [mbind run_bind]. do 3 eexists. split; [done|]. split; [done|]. split; [|split; [done|]].
  - exists ls', s'. split; cbn; [done| |by intros ? ?%elem_of_nil].
    intros k cq. rewrite Hfind, Hconn. case_decide as Hk.
    + destruct (find k (spec_entries s)) as [cq0|] eqn:Hf; [|done]. cbn.
      intros Heq. injection Heq as <-. cbn. split; [by apply Hc|].
      split; [done|by intros ?%elem_of_nil].
    + intros Hf. destruct (Hc _ _ Hf) as [? Hd]. split; [done|].
      split; [intros Hdk; by apply Hd in Hdk|by intros ?%elem_of_nil].
  - intros k q Hk Hq Hb. destruct (Hnot _ _ Hq) as (q' & Hq' & [->|[-> Hw]]); [|by eauto].
    pose proof (Hset _ Hk _ Hq' Hb) as Hnone. rewrite Hnone. split; [|done].
    rewrite Hq'. unfold take_waker. destruct q. cbn in *. by rewrite Hnone.
Qed.

Lemma client_new_ok :
  ∃ c, client_new = Returns c ∧ cl_need_flush c = [] ∧ ∀ net, ∃ ls s, client_ok net c ls s.
Proof.
  unfold client_new. destruct (lru_new_represents (K := Z * Z) (V := CachedQueue) 0 7) as (c & -> & Hr).
  { unfold is_u64, u64_modulus. lia. }
  cbn. eexists. split; [done|]. split; [done|]. intros net. eexists [], _. split; cbn; [exact Hr|done|].
  by intros k ?%elem_of_nil.
Qed.

Lemma net_empty_ok : net_ok (mkNet ∅ [] []).
Proof. split; cbn; intros *; by rewrite lookup_empty. Qed.
End delivery.

(** The first message to store 2. *)
Lemma client_send_delivers_witness :
  ∃ c net' c', client_new = Returns c ∧
    client_send fst (2, 5) (mkNet ∅ [] []) c = Returns (net', c') ∧
    queue_of net' (2, 0) = Some (mkQueue [(2, 5)] 819200 None) ∧ (2, 0) ∈ cl_need_flush c'.
Proof.
  destruct (client_new_ok (M := Z * Z)) as (c & Hc & _ & Hok).
  destruct (client_send_delivers fst (2, 5) (mkNet ∅ [] []) c)
    as (net' & c' & Hs & _ & _ & Hin & Hq & _); [apply net_empty_ok|apply Hok|reflexivity..|].
  exists c, net', c'. split; [exact Hc|]. split; [exact Hs|]. split; [exact Hq|exact Hin].
Defined.

(** A message to store 2 and a flush. *)
Lemma client_flush_notifies_witness :
  ∃ c net1 c1 net' c' woken, client_new = Returns c ∧
    client_send fst (2, 5) (mkNet ∅ [] []) c = Returns (net1, c1) ∧
    client_flush net1 c1 = Returns (net', c', woken) ∧ cl_need_flush c' = [] ∧
    queue_of net' (2, 0) = Some (mkQueue [(2, 5)] 819200 None).
Proof.
  destruct (client_new_ok (M := Z * Z)) as (c & Hc & _ & Hok).
  destruct (client_send_ok fst (2, 5) (mkNet ∅ [] []) c)
    as (net1 & c1 & Hs & Hn1 & Hc1 & Hin & Hq & _); [apply net_empty_ok|apply Hok|reflexivity..|].
  destruct (client_flush_notifies fst net1 c1 Hn1 Hc1)
    as (net' & c' & woken & Hf & _ & _ & Hnf & Hw).
  exists c, net1, c1, net', c', woken. split; [exact Hc|]. split; [exact Hs|].
  split; [exact Hf|]. split; [exact Hnf|].
  destruct (Hw _ _ Hin Hq) as [Hq' _]; [discriminate|exact Hq'].
Defined.
