(* ===== verification/PeerSpec.v ===== *)
(** * The correctness of the raft peer

    Proposals and the entries behind them, the answer to every command, the
    collection of the log, and the poller as a sequence of storage steps. *)

From stdpp Require Import pretty.
From S2P Require Import Prelude Bytes Keys Proto Raftpb Errors RocksEngine RefRocks RefCodec.
From S2P Require Import RaftLog PeerStorage StorageSpec RaftCmd Batch Apply ApplySpec Peer.
From S2P Require Import RaftNode.
Local Open Scope Z_scope.

(** ** Callbacks and errors *)

Section callback_ind.
Context (P : Callback → Prop).
Hypothesis P_none : P Callback_None.
Hypothesis P_read : ∀ read, P (Callback_Read read).
Hypothesis P_channel : ∀ ch proposed committed, P (Callback_Write (Channel ch) proposed committed).
Hypothesis P_batched : ∀ cbs proposed committed,
  Forall (λ c, P c.1) cbs → P (Callback_Write (Batched cbs) proposed committed).

Fixpoint Callback_nested_ind (cb : Callback) : P cb :=
  match cb with
  | Callback_None => P_none
  | Callback_Read read => P_read read
  | Callback_Write (Channel ch) proposed committed => P_channel ch proposed committed
  | Callback_Write (Batched cbs) proposed committed =>
      P_batched cbs proposed committed
        ((fix all (cbs : list (Callback * nat)) : Forall (λ c, P c.1) cbs :=
            match cbs with
            | [] => @List.Forall_nil _ _
            | c :: cbs =>
                @List.Forall_cons _ (λ c, P c.1) c cbs
                  (match c with (cb, n) => Callback_nested_ind cb end) (all cbs)
            end) cbs)
  end.
End callback_ind.

(** The channels of a callback, in the order they are answered. *)
Fixpoint channels (cb : Callback) : list Z :=
  match cb with
  | Callback_None => []
  | Callback_Read read => [read]
  | Callback_Write (Channel ch) _ _ => [ch]
  | Callback_Write (Batched cbs) _ _ =>
      (fix all (cbs : list (Callback * nat)) : list Z :=
         match cbs with [] => [] | (cb, _) :: cbs => channels cb ++ all cbs end) cbs
  end.

Definition sent_channel (s : Sent) : Z :=
  match s with SentResponse ch _ => ch | SentNotice ch => ch end.

(** An error is answered on every channel, once. *)
Lemma invoke_error cb resp :
  has_error resp = true →
  ∃ sent, invoke_with_response cb resp = Returns sent ∧ sent_channel <$> sent = channels cb ∧
    Forall (λ s, ∃ ch r, s = SentResponse ch r ∧ rsp_error (resp_header r) = rsp_error (resp_header resp))
      sent.
Proof.
  revert resp. induction cb as [|read|ch pr cm|cbs pr cm IH] using Callback_nested_ind;
    intros resp Herr.
  - by exists [].
  - eexists. split; [done|]. split; [done|]. repeat constructor. eauto.
  - eexists. split; [done|]. split; [done|]. repeat constructor. eauto.
  - cbn [invoke_with_response]. rewrite invoke_batched. cbn [channels]. generalize 0%nat.
    induction IH as [|[cb n] cbs Hcb _ IHcbs]; intros last; [by exists []|]. cbn [fst] in Hcb.
    cbn [invoke_batch]. rewrite split_response_own by (by left). cbn [mbind run_bind].
    destruct (Hcb (own_response resp last n)) as (sent & -> & Hch & Hall).
    { unfold has_error in *. exact Herr. }
    destruct (IHcbs (last + n)%nat) as (rest & -> & Hch' & Hall'). cbn [mbind run_bind].
    exists (sent ++ rest). split; [done|]. split; [by rewrite fmap_app, Hch, Hch'|].
    apply Forall_app. split; [|done]. exact Hall.
Qed.

(** ** Proposals and committed entries *)

Definition response_channels (sent : list Sent) : list Z :=
  omap (λ s, match s with SentResponse ch _ => Some ch | SentNotice _ => None end) sent.
Definition queue_channels (queue : list Proposal) : list Z :=
  concat ((λ p, channels (pr_cb p)) <$> queue).

(** Everything sent is a notice or an error of the kind [stale command]. *)
Definition stale_only (sent : list Sent) : Prop :=
  Forall (λ s, match s with
               | SentNotice _ => True
               | SentResponse _ r =>
                   ∃ e, rsp_error (resp_header r) = Some e ∧ is_Some (err_stale_command e)
               end) sent.

Section proposals_spec.
Context `{!DebugFmt Error}.

Definition position_lt (p q : Proposal) : Prop :=
  position_gt (pr_term q) (pr_index q) (pr_term p) (pr_index p) = true.
Abbreviation beyond e := (λ p, position_gt (pr_term p) (pr_index p) (entry_term e) (entry_index e) = true).

Lemma position_gt_spec t1 i1 t2 i2 :
  position_gt t1 i1 t2 i2 = true ↔ t2 < t1 ∨ t1 = t2 ∧ i2 < i1.
Proof.
  unfold position_gt. rewrite orb_true_iff, andb_true_iff, !Z.ltb_lt, Z.eqb_eq. done.
Qed.

Lemma notify_stale_spec term cb :
  ∃ sent, notify_stale_req term cb = Returns sent ∧ response_channels sent = channels cb ∧
    stale_only sent.
Proof.
  assert (∃ e, rsp_error (resp_header (err_resp Error_StaleCommand term)) = Some e ∧
    is_Some (err_stale_command e)) as (e & He & Hs).
  { unfold err_resp, bind_term. destruct (term =? 0); eexists; split; by eauto. }
  destruct (invoke_error cb (err_resp Error_StaleCommand term)) as (sent & Hsent & Hch & Hall).
  { unfold has_error. rewrite He. done. }
  exists sent. split; [done|]. rewrite <-Hch. clear Hsent Hch. split.
  - unfold response_channels.
    induction Hall as [|s sent (ch & r & -> & _) _ IH]; [done|]. cbn. by rewrite IH.
  - eapply Forall_impl; [|exact Hall]. intros s (ch & r & -> & Hr). exists e.
    split; [congruence|done].
Qed.

Lemma response_channels_app s1 s2 :
  response_channels (s1 ++ s2) = response_channels s1 ++ response_channels s2.
Proof. apply omap_app. Qed.

(** One committed entry. *)
Lemma find_proposal_spec queue e current :
  StronglySorted position_lt queue →
  (∀ p, p ∈ queue → pr_term p = entry_term e → pr_index p ≤ entry_index e →
        pr_index p = entry_index e) →
  ∃ found rest sent,
    find_proposal queue (entry_term e) (entry_index e) current = Returns (found, rest, sent) ∧
    rest = filter (beyond e) queue ∧ stale_only sent ∧
    queue_channels queue
    ≡ₚ default [] ((λ p, channels (pr_cb p)) <$> found) ++ response_channels sent ++ queue_channels rest ∧
    (∀ p, found = Some p → p ∈ queue ∧ pr_term p = entry_term e ∧ pr_index p = entry_index e).
Proof.
  intros Hs Hm. induction Hs as [|p queue Hs IH Hp].
  { exists None, [], []. split_and!; [done|done|constructor|done|done]. }
  assert (∀ q, q ∈ queue → position_lt p q) as Hp' by (by apply list.Forall_forall).
  cbn [find_proposal pop_proposal].
  destruct (position_gt _ _ _ _) eqn:Hgt.
  { (* beyond the entry, with everything behind it *)
    assert (filter (beyond e) (p :: queue) = p :: queue) as Hf.
    { apply list_filter_all. constructor; [done|]. apply list.Forall_forall.
      intros q Hq. specialize (Hp' q Hq). unfold position_lt in Hp'. rewrite !position_gt_spec in *. lia. }
    exists None, (p :: queue), []. rewrite Hf. split_and!; [done|done|constructor|done|done]. }
  assert (¬ (pr_term p > entry_term e) ∧
    ¬ (pr_term p = entry_term e ∧ pr_index p > entry_index e)) as [Hle Hle'].
  { split; intros H; assert (position_gt (pr_term p) (pr_index p) (entry_term e) (entry_index e) = true)
      by (apply position_gt_spec; lia); congruence. }
  assert (filter (beyond e) (p :: queue) = filter (beyond e) queue) as Hf.
  { rewrite filter_cons, decide_False by (by rewrite Hgt). done. }
  rewrite Hf. destruct (Z.eqb_spec (pr_term p) (entry_term e)) as [Ht|Ht].
  - pose proof (Hm p (list_elem_of_here _ _) Ht ltac:(lia)) as Hi. rewrite Hi, Z.eqb_refl.
    assert (filter (beyond e) queue = queue) as ->.
    { apply list_filter_all, list.Forall_forall. intros q Hq. specialize (Hp' q Hq).
      unfold position_lt in Hp'. rewrite position_gt_spec in *. lia. }
    eexists _, queue, []. split; [done|]. split; [done|]. split; [constructor|]. split.
    + unfold queue_channels. cbn. destruct (pr_cb p) eqn:Hcb; cbn; by rewrite ?Hcb.
    + intros q Hq. assert (q = p) as -> by (destruct (is_none (pr_cb p)); congruence).
      split; [apply list_elem_of_here|done].
  - destruct (notify_stale_spec current (pr_cb p)) as (sent & -> & Hch & Hst).
    destruct IH as (found & rest & sent' & -> & -> & Hst' & Hperm & Hfound).
    { intros q Hq. apply Hm. by right. }
    cbn [mbind run_bind]. eexists found, _, (sent ++ sent'). split; [done|]. split; [done|].
    split; [by apply Forall_app|]. split.
    + rewrite response_channels_app, Hch. unfold queue_channels in *. cbn. rewrite Hperm.
      by rewrite <-!app_assoc, Permutation_app_swap_app.
    + intros q Hq. destruct (Hfound q Hq) as [? ?]. split; [by right|done].
Qed.

Context `{!ProtoMessage RaftCmdRequest}.

(** What raft guarantees of the proposals of this node and the entries committed
    next: an entry of the term of a proposal, at or after its index, comes with the
    entry of that proposal, which holds the data proposed. *)
Record proposals_ok (queue : list Proposal) (es : list Entry) : Prop := {
  po_sorted_queue : StronglySorted position_lt queue;
  po_matching p e : p ∈ queue → e ∈ es → pr_term p = entry_term e → pr_index p ≤ entry_index e →
    ∃ e', e' ∈ es ∧ entry_index e' = pr_index p ∧ entry_term e' = pr_term p;
  po_proposed p e : p ∈ queue → e ∈ es → entry_index e = pr_index p → entry_term e = pr_term p →
    entry_data e ≠ [] }.

Lemma entries_follow_elem index term es e :
  entries_follow index term es → e ∈ es → index < entry_index e ∧ term ≤ entry_term e.
Proof.
  intros Hf. induction Hf as [|index term x es Hi Ht Hok Hf IH]; intros He.
  - by apply elem_of_nil in He.
  - apply elem_of_cons in He as [->|He]; [lia|]. destruct (IH He). lia.
Qed.

Lemma commit_proposal_spec p p' sent :
  commit_proposal p = (p', sent) →
  pending_of p' = {| pc_index := pr_index p; pc_term := pr_term p; pc_cb := pr_cb p' |} ∧
  channels (pr_cb p') = channels (pr_cb p) ∧ response_channels sent = [] ∧ stale_only sent.
Proof.
  unfold commit_proposal. destruct (pr_must_pass_epoch_check p); [|intros [= <- <-]].
  - destruct (pr_cb p) as [|r|[ch|cbs] pr cm]; cbn; intros [= <- <-]; cbn;
      split_and!; try done; try constructor;
      unfold response_channels, stale_only, notices; destruct cm as [l|]; cbn; try done;
      try constructor; induction l; cbn; try done; try by constructor.
  - split_and!; [done..|constructor].
Qed.

Lemma sorted_filter (P : Proposal → Prop) `{!∀ x, Decision (P x)} l :
  StronglySorted position_lt l → StronglySorted position_lt (filter P l).
Proof.
  induction 1 as [|x l Hs IH Hx]; [constructor|]. rewrite filter_cons. case_decide; [|done].
  constructor; [done|]. apply list.Forall_forall. intros y [_ Hy]%list_elem_of_filter.
  rewrite list.Forall_forall in Hx. by apply Hx.
Qed.

Lemma find_proposals_spec queue es index term current :
  entries_follow index term es → proposals_ok queue es →
  ∃ cbs rest sent,
    find_proposals queue es current = Returns (cbs, rest, sent) ∧
    cmds_match (pending_of <$> cbs) es ∧
    StronglySorted position_lt rest ∧
    (∀ p, p ∈ rest → p ∈ queue ∧ Forall (λ e, beyond e p) es) ∧
    stale_only sent ∧
    queue_channels queue ≡ₚ queue_channels cbs ++ response_channels sent ++ queue_channels rest.
Proof.
  intros Hf. revert queue. induction Hf as [|index term e es Hi Ht Hok Hf IH]; intros queue Hq.
  { exists [], queue, []. split_and!; [done|constructor|apply Hq| |constructor|done].
    intros p Hp. split; [done|constructor]. }
  cbn [find_proposals].
  destruct (find_proposal_spec queue e current) as (found & rest & sent & -> & Hrest & Hst & Hperm & Hfound).
  { apply Hq. }
  { intros p Hp Hpt Hpi.
    destruct (po_matching _ _ Hq p e Hp (list_elem_of_here _ _) Hpt Hpi) as (e' & He' & Hi' & Ht').
    apply elem_of_cons in He' as [->|He']; [done|].
    destruct (entries_follow_elem _ _ _ _ Hf He'). lia. }
  cbn [mbind run_bind].
  assert (proposals_ok rest es) as Hq'.
  { subst rest. split.
    - apply sorted_filter, Hq.
    - intros p e2 [Hb Hp]%list_elem_of_filter He2 Hpt Hpi.
      destruct (po_matching _ _ Hq p e2 Hp ltac:(by right) Hpt Hpi) as (e' & He' & Hi' & Ht').
      apply elem_of_cons in He' as [->|He']; [|eauto].
      apply position_gt_spec in Hb. lia.
    - intros p e2 [Hb Hp]%list_elem_of_filter He2. apply (po_proposed _ _ Hq); [done|by right]. }
  destruct (IH rest Hq') as (cbs & rest' & sent' & -> & Hm & Hs' & Hin & Hst' & Hperm').
  assert (∀ p, p ∈ rest' → p ∈ queue ∧ Forall (λ e, beyond e p) (e :: es)) as Hin'.
  { intros p Hp. destruct (Hin p Hp) as [Hpr Hall]. subst rest.
    apply list_elem_of_filter in Hpr as [Hb Hpq]. split; [done|]. by constructor. }
  destruct found as [p|].
  - destruct (Hfound p eq_refl) as (Hpq & Hpt & Hpi).
    destruct (commit_proposal p) as [p' notices] eqn:Hc.
    apply commit_proposal_spec in Hc as (Hpend & Hch & Hresp & Hstn). cbn [mbind run_bind].
    eexists _, rest', _. split; [done|]. split_and!; [|done|done| |].
    + cbn [app fmap list_fmap]. rewrite Hpend. apply cmds_match_take; cbn; [done|done| |done].
      apply (po_proposed _ _ Hq p e); [done|apply list_elem_of_here|done|done].
    + repeat (apply Forall_app; split); done.
    + rewrite Hperm. cbn [fmap option_fmap option_map default from_option id].
      rewrite !response_channels_app, Hresp, Hperm'. unfold queue_channels. cbn. rewrite Hch.
      rewrite <-!app_assoc. f_equiv. by rewrite Permutation_app_swap_app.
  - cbn [mbind run_bind]. eexists _, rest', _. split; [done|]. split_and!; [|done|done| |].
    + by apply cmds_match_skip.
    + repeat (apply Forall_app; split); try done; constructor.
    + rewrite Hperm. cbn [fmap option_fmap option_map default from_option app].
      rewrite !response_channels_app, Hperm'. cbn. rewrite <-!app_assoc.
      by rewrite Permutation_app_swap_app.
Qed.
End proposals_spec.

(** ** The poller *)
Section peer_spec.
Context {R : RocksDB} {RN : RawNode}.
Context `{!ProtoMessage Entry, !ProtoMessage RaftLocalState, !ProtoMessage RaftApplyState}.
Context `{!ProtoMessage RegionLocalState, !ProtoMessage StoreIdent, !ProtoMessage RaftCmdRequest}.
Context `{!DebugFmt Error}.

Abbreviation proposals_of st := (p_proposals (f_peer st.1)).

Lemma find_proposals_nil es current : find_proposals [] es current = Returns ([], [], []).
Proof. induction es as [|e es IH]; [done|]. cbn. by rewrite IH. Qed.

Lemma set_p_proposals_id p : set_p_proposals (p_proposals p) p = p.
Proof. by destruct p. Qed.

Lemma applying_proposals last p : p_proposals (start_applying last p) = p_proposals p.
Proof. unfold start_applying. cbn. by destruct (_ <=? _). Qed.

Lemma handle_committed_entries_eq es last fsm x :
  list.last es = Some last →
  let p := start_applying last (f_peer fsm) in
  handle_committed_entries es (fsm, x)
  = ('(cbs, queue, sent) ← find_proposals (p_proposals p) es (peer_term p);
     Returns (tt, (set_f_peer (set_p_proposals queue p) fsm,
       set_x_apply (x_apply x ++ [apply_msg_new p es cbs])
         (set_x_sent (x_sent x ++ sent) (set_x_current_time (Some (x_now x)) x))))).
Proof.
  intros Hl p. unfold handle_committed_entries. rewrite Hl.
  unfold mod_ctx, mod_peer, mod_fsm, get_peer, get_fsm, send, lift, mbind, poll_bind, mret, poll_ret.
  cbn -[start_applying find_proposals peer_term apply_msg_new]. fold p.
  destruct (p_proposals p) as [|q queue] eqn:Hq.
  - rewrite find_proposals_nil. cbn -[apply_msg_new]. rewrite app_nil_r. do 3 f_equal.
    f_equal. rewrite <-Hq. symmetry. apply set_p_proposals_id.
  - destruct (find_proposals (q :: queue) es (peer_term p)) as [[[cbs rest] sent]|]; done.
Qed.

(** C18. When entries are committed no callback is lost and none is answered twice:
    each channel waiting behind a proposal is either handed to the apply worker with
    the entry of its proposal, or answered with a stale command error, or still
    waits for a later entry; and the message to the apply worker is one it accepts. *)
Theorem committed_entries_keep_callbacks es index term (st : PeerFsm * PollContext) :
  entries_follow index term es → es ≠ [] → proposals_ok (proposals_of st) es →
  ∃ st' msg sent,
    handle_committed_entries es st = Returns (tt, st') ∧
    x_apply st'.2 = x_apply st.2 ++ [msg] ∧ apply_entries msg = es ∧
    cmds_match (pending_of <$> apply_cbs msg) es ∧
    x_sent st'.2 = x_sent st.2 ++ sent ∧ stale_only sent ∧
    queue_channels (proposals_of st)
    ≡ₚ queue_channels (apply_cbs msg) ++ response_channels sent ++ queue_channels (proposals_of st') ∧
    StronglySorted position_lt (proposals_of st') ∧
    ∀ p, p ∈ proposals_of st' → p ∈ proposals_of st ∧
      Forall (λ e, position_gt (pr_term p) (pr_index p) (entry_term e) (entry_index e) = true) es.
Proof.
  intros Hf Hne Hq. destruct st as [fsm x]. cbn [fst snd] in *.
  destruct (list.last es) as [last|] eqn:Hl; [|by apply last_None in Hl].
  rewrite (handle_committed_entries_eq _ last) by done.
  set (p := start_applying last (f_peer fsm)).
  assert (p_proposals p = p_proposals (f_peer fsm)) as Hp by apply applying_proposals.
  destruct (find_proposals_spec (p_proposals p) es index term (peer_term p) Hf)
    as (cbs & rest & sent & Hr & Hm & Hs & Hin & Hst & Hperm); [by rewrite Hp|].
  rewrite Hr. cbn [mbind run_bind].
  eexists _, (apply_msg_new p es cbs), sent. split; [done|]. cbn. rewrite <-Hp. by split_and!.
Qed.

(** *** Proposing *)

(** The errors that a command without a status request meets before it is proposed. *)
Definition command_check (msg : RaftCmdRequest) (p : Peer) : result Error unit :=
  check_store_id msg (store_id p);;
  check_peer_id msg (Raftpb.peer_id (p_peer p));;
  check_term msg (peer_term p).

Lemma pre_propose_spec msg fsm x :
  rc_status_request msg = None → is_region_initialized (p_region (f_peer fsm)) = true →
  pre_propose_raft_command msg (fsm, x)
  = Returns ((λ _, None) <$> command_check msg (f_peer fsm), (fsm, x)).
Proof.
  intros Hs Hi. unfold pre_propose_raft_command, command_check, mbind, result_bind, poll_bind,
    fmap, result_fmap. cbn.
  destruct (check_store_id msg _); cbn; [|done]. rewrite Hs.
  destruct (check_peer_id msg _); cbn; [|done].
  unfold assert_that. rewrite Hi. cbn. by destruct (check_term msg _).
Qed.

(** What [propose_normal] gets from raft-rs: an index, or an error. *)
Definition propose_result (req : RaftCmdRequest) (p : Peer) : result Error Z * Node :=
  let data := write_to_bytes req in
  let size := Z.of_nat (length data) in
  if PROPOSE_MAX_SIZE <? size
  then (Err (Error_RaftEntryTooLarge (p_region_id p) size), p_node p)
  else
    let '(r, node) := node_propose (p_node p) data in
    (match r with
     | Err e => Err (Error_Raft e)
     | Ok _ =>
         if node_last_index node +u 1 =? node_last_index (p_node p) +u 1
         then Err (Error_NotLeader (p_region_id p) None)
         else Ok (node_last_index (p_node p) +u 1)
     end, node).

Lemma set_p_node_id p : set_p_node (p_node p) p = p.
Proof. by destruct p. Qed.
Lemma set_f_peer_id fsm : set_f_peer (f_peer fsm) fsm = fsm.
Proof. by destruct fsm. Qed.

Lemma propose_normal_spec req fsm x :
  propose_normal req (fsm, x)
  = let '(r, node) := propose_result req (f_peer fsm) in
    Returns (r, (set_f_peer (set_p_node node (f_peer fsm)) fsm, x)).
Proof.
  unfold propose_normal, propose_result. cbn.
  destruct (PROPOSE_MAX_SIZE <? _); [by rewrite set_p_node_id, set_f_peer_id|].
  unfold on_node, mbind, poll_bind. cbn. destruct (node_propose _ _) as [[u|e] node]; cbn; [|done].
  unfold next_proposal_index. cbn. by destruct (_ =? _).
Qed.

Lemma err_response_error resp e : has_error (bind_error resp e) = true.
Proof. done. Qed.

(** A command that is checked, for this peer. *)
Record proposable (msg : RaftCmdRequest) (p : Peer) : Prop := {
  pp_status : rc_status_request msg = None;
  pp_requests : rc_admin_request msg ≠ None ∨
    rc_requests msg ≠ [] ∧ message_queue_only msg = true;
  pp_init : is_region_initialized (p_region p) = true;
  pp_behind : Forall (λ q, position_gt
      (node_term (propose_result msg p).2) (node_last_index (p_node p) +u 1)
      (pr_term q) (pr_index q) = true) (p_proposals p) }.

Lemma inspect_spec msg p : proposable msg p → inspect msg = Returns (Ok ProposeNormal).
Proof.
  intros [_ Hr _ _]. unfold inspect. destruct (rc_admin_request msg); [done|].
  destruct Hr as [|[Hne Hmq]]; [done|]. unfold message_queue_only in Hmq. rewrite Hmq.
  by destruct (rc_requests msg).
Qed.

Lemma push_proposal_spec queue p :
  Forall (λ q, position_gt (pr_term p) (pr_index p) (pr_term q) (pr_index q) = true) queue →
  push_proposal queue p = Returns (queue ++ [p]).
Proof.
  intros Hall. unfold push_proposal. destruct (list.last queue) as [f|] eqn:Hl.
  - rewrite list.Forall_forall in Hall. rewrite Hall by (by apply last_Some_elem_of). done.
  - by apply last_None in Hl as ->.
Qed.

Lemma invoke_proposed_spec cb cb' sent :
  invoke_proposed cb = (cb', sent) → channels cb' = channels cb ∧ response_channels sent = [].
Proof.
  destruct cb as [|r|[ch|cbs] pr cm]; cbn; intros [= <- <-]; split; try done;
    unfold notices, response_channels; destruct pr as [l|]; cbn; try done; by induction l.
Qed.

(** The proposal queued for a callback. *)
Definition queued (p : Peer) (msg : RaftCmdRequest) (cb : Callback) (pr : Proposal) : Prop :=
  channels (pr_cb pr) = channels cb ∧ pr_index pr = node_last_index (p_node p) +u 1 ∧
  pr_term pr = node_term (propose_result msg p).2 ∧
  (node_propose (p_node p) (write_to_bytes msg)).1 = Ok tt.

Lemma propose_spec cb msg resp fsm x :
  proposable msg (f_peer fsm) →
  ∃ b fsm' x' sent, propose cb msg resp (fsm, x) = Returns (b, (fsm', x')) ∧
    x_sent x' = x_sent x ++ sent ∧
    if b : bool
    then response_channels sent = [] ∧
      ∃ pr, p_proposals (f_peer fsm') = p_proposals (f_peer fsm) ++ [pr] ∧
        queued (f_peer fsm) msg cb pr
    else sent_channel <$> sent = channels cb ∧ p_proposals (f_peer fsm') = p_proposals (f_peer fsm) ∧
      Forall (λ s, ∃ ch r, s = SentResponse ch r ∧ is_Some (rsp_error (resp_header r))) sent.
Proof.
  intros Hp. unfold propose. rewrite (inspect_spec _ _ Hp).
  unfold lift, mbind, poll_bind. cbn -[propose_normal]. rewrite propose_normal_spec.
  destruct (propose_result msg (f_peer fsm)) as [r node] eqn:Hr.
  destruct r as [idx|e].
  - cbn -[push_proposal].
    destruct (if has_applied_to_current_term _ then _ else _) as [cb' sent] eqn:Hcb.
    unfold post_propose, mbind, poll_bind. cbn -[push_proposal].
    assert (idx = node_last_index (p_node (f_peer fsm)) +u 1 ∧
      (node_propose (p_node (f_peer fsm)) (write_to_bytes msg)).1 = Ok tt) as [-> Hok].
    { unfold propose_result in Hr. destruct (_ <? _); [done|].
      destruct (node_propose _ _) as [[[]|e] node']; [|done]. destruct (_ =? _); [done|].
      by injection Hr as <- _. }
    set (pr := {| pr_is_conf_change := false; pr_index := _; pr_term := _; pr_cb := _;
                  pr_propose_time := None; pr_must_pass_epoch_check := _ |}).
    assert (channels cb' = channels cb ∧ response_channels sent = []) as [Hch Hresp].
    { destruct (has_applied_to_current_term _); [by apply invoke_proposed_spec|].
      by injection Hcb as <- <-. }
    unfold send, lift, mbind, poll_bind. cbn -[push_proposal]. rewrite push_proposal_spec.
    + cbn. do 4 eexists. split; [done|]. cbn. split; [by destruct (x_current_time x)|].
      split; [done|]. eexists. split; [done|]. unfold queued. rewrite Hr. done.
    + pose proof (pp_behind _ _ Hp) as Hb. rewrite Hr in Hb. exact Hb.
  - cbn. unfold send, lift, mbind, poll_bind.
    destruct (invoke_error cb (bind_error resp e)) as (sent & -> & Hch & Hall); [done|].
    cbn. do 4 eexists. split; [done|]. cbn. split; [done|]. split; [done|]. split; [done|].
    eapply Forall_impl; [|exact Hall]. intros s (ch & r & -> & Herr). exists ch, r.
    split; [done|]. rewrite Herr. done.
Qed.

(** C17. A command is never dropped: it is either answered at once, on every channel
    of its callback and with an error, or it has been given to raft-rs and waits in
    the queue at the position raft-rs is to append it, with nothing answered yet. *)
Theorem command_answered_or_queued msg cb fsm x :
  proposable msg (f_peer fsm) →
  ∃ fsm' x' sent, propose_raft_command msg cb (fsm, x) = Returns (tt, (fsm', x')) ∧
    x_sent x' = x_sent x ++ sent ∧
    (sent_channel <$> sent = channels cb ∧ p_proposals (f_peer fsm') = p_proposals (f_peer fsm) ∧
     Forall (λ s, ∃ ch r, s = SentResponse ch r ∧ is_Some (rsp_error (resp_header r))) sent ∨
     response_channels sent = [] ∧ f_has_ready fsm' = true ∧
     ∃ pr, p_proposals (f_peer fsm') = p_proposals (f_peer fsm) ++ [pr] ∧
       queued (f_peer fsm) msg cb pr).
Proof.
  intros Hp. unfold propose_raft_command, mbind, poll_bind.
  rewrite (pre_propose_spec msg fsm x (pp_status _ _ Hp) (pp_init _ _ Hp)). cbn [run_bind].
  destruct (command_check msg (f_peer fsm)) as [u|e]; cbn [fmap result_fmap].
  - cbn. destruct (propose_spec cb msg (bind_term default_instance (peer_term (f_peer fsm))) fsm x Hp)
      as (b & fsm' & x' & sent & -> & Hs & Hb). cbn. destruct b; cbn.
    + destruct Hb as (Hresp & pr & Hpr & Hq). do 3 eexists. split; [done|]. split; [done|].
      right. split; [done|]. split; [done|]. by exists pr.
    + destruct Hb as (? & ? & ?). do 3 eexists. split; [done|]. split; [done|]. by left.
  - cbn. unfold send, lift, mbind, poll_bind.
    destruct (invoke_error cb (new_error e)) as (sent & -> & Hch & Hall); [done|].
    cbn. do 3 eexists. split; [done|]. cbn. split; [done|]. left. split; [done|]. split; [done|].
    eapply Forall_impl; [|exact Hall]. intros s (ch & r & -> & Herr). exists ch, r.
    split; [done|]. rewrite Herr. done.
Qed.

(** *** Collection of the log *)

Lemma replicated_index_le last matched :
  replicated_index last matched ≤ last ∧
  ∀ m, m ∈ matched → replicated_index last matched ≤ m.
Proof.
  unfold replicated_index. revert last.
  induction matched as [|x matched IH]; intros last; cbn [foldl].
  { split; [done|]. by intros m Hm%elem_of_nil. }
  destruct (IH (if x <? last then x else last)) as [Hl Hm].
  destruct (Z.ltb_spec x last); (split; [lia|]); intros m [->|Hin]%elem_of_cons; auto with lia.
Qed.

(** C37. The leader's collection of the log never cuts into what a follower still
    needs: when it proposes to compact, the compact index lies a tenth of the limit
    past the first index, every follower has the entry at it and at least nine
    tenths of the limit more, and the arithmetic does not wrap. *)
Theorem compaction_keeps_replicated first last matched limit c :
  is_u64 first → is_u64 last → Forall is_u64 matched → is_u64 limit →
  compact_index_for first (replicated_index last matched) limit = Some c →
  c = first + limit `div` 10 ∧
  c + (limit - limit `div` 10) ≤ last ∧
  ∀ m, m ∈ matched → c + (limit - limit `div` 10) ≤ m.
Proof.
  intros [Hf1 Hf2] [Hl1 Hl2] Hm [Hn1 Hn2] Hc.
  destruct (replicated_index_le last matched) as [Hle Hall].
  set (r := replicated_index last matched) in *. unfold compact_index_for in Hc.
  destruct (Z.ltb_spec r first) as [|Hr]; [done|].
  rewrite u64_sub_small in Hc by (unfold is_u64; lia).
  destruct (Z.ltb_spec (r - first) limit) as [|Hd]; [done|].
  assert (0 ≤ limit `div` 10 ≤ limit) as Hdiv.
  { split; [by apply Z.div_pos|]. apply Z.div_le_upper_bound; lia. }
  rewrite u64_add_small in Hc by (unfold is_u64; lia). injection Hc as <-.
  split_and!; [done|lia|]. intros m Hin. specialize (Hall m Hin). lia.
Qed.
End peer_spec.

(** ** A concrete peer *)

Module peer_demo.
Definition meta : metapb_Peer := {| Raftpb.peer_id := 1; peer_store_id := 1; peer_role := Voter |}.
Definition node : RefNode :=
  {| rn_id := 1; rn_leader := true; rn_term := 6; rn_vote := 1; rn_commit := 5; rn_last := 5;
     rn_unstable := [demo.en 6 6]; rn_number := 0; rn_announce := true; rn_committed := [] |}.
Definition peer : Peer :=
  {| p_region_id := 1; p_peer := meta; p_node := node; p_store := demo.s0; p_peer_cache := ∅;
     p_proposals := []; p_last_applying_idx := 5; p_last_compacted_idx := 0;
     p_last_urgent_proposal_idx := u64_max; p_last_unpersisted_number := 0 |}.
Definition fsm : PeerFsm :=
  {| f_peer := peer; f_tick_registry := {| tick_raft := false; tick_raft_log_gc := false |};
     f_missing_ticks := 0; f_has_ready := false; f_batch_req_builder := peer_batch_new |}.
Definition ctx : PollContext :=
  {| x_engines := demo.e0; x_raft_wb := wb_new; x_has_ready := false; x_ready_res := [];
     x_current_time := None; x_now := 0; x_ticks := []; x_apply := []; x_gc := []; x_trans := [];
     x_sent := [] |}.

(** It is the peer of the only store of a fresh cluster. *)
Lemma created : fsm_create 1 demo.e0 demo.region = Returns fsm.
Proof. reflexivity. Qed.
End peer_demo.

Module peer_commands.
Definition header : RaftRequestHeader :=
  {| rh_region_id := 1; rh_peer := Some peer_demo.meta; rh_uuid := []; rh_term := 0 |}.
Definition cmd (header : RaftRequestHeader) : RaftCmdRequest :=
  {| rc_header := Some header; rc_requests := [apply_demo.req []]; rc_admin_request := None;
     rc_status_request := None |}.
Definition waiting_fsm : PeerFsm :=
  set_f_peer (set_p_proposals [apply_demo.proposal] peer_demo.peer) peer_demo.fsm.

Lemma can_propose h : proposable (cmd h) peer_demo.peer.
Proof. split; [done|by right|done|constructor]. Qed.

Lemma follows : entries_follow 5 5 [apply_demo.e6; apply_demo.e7].
Proof.
  assert (apply_msg_ok apply_demo.d apply_demo.msg) as H.
  { pose proof apply_demo.ok as H. by inversion H. }
  exact (am_follow _ _ H).
Qed.
End peer_commands.

(** A command for this store waits at the next index; one for another store is refused. *)
Lemma command_answered_or_queued_witness :
  ∃ fsm' x' sent,
    propose_raft_command (peer_commands.cmd peer_commands.header) (write (Channel 4))
      (peer_demo.fsm, peer_demo.ctx) = Returns (tt, (fsm', x')) ∧
    x_sent x' = sent ∧
    (sent_channel <$> sent = [4] ∨ response_channels sent = [] ∧ length (p_proposals (f_peer fsm')) = 1%nat).
Proof.
  destruct (command_answered_or_queued (peer_commands.cmd peer_commands.header)
    (write (Channel 4)) peer_demo.fsm peer_demo.ctx) as (fsm' & x' & sent & Hp & Hs & Hc).
  { apply peer_commands.can_propose. }
  exists fsm', x', sent. split; [exact Hp|]. split; [exact Hs|].
  destruct Hc as [(Hc & _)|(Hr & _ & pr & Hq & _)]; [left; exact Hc|right].
  split; [exact Hr|]. rewrite Hq. reflexivity.
Defined.

Lemma committed_entries_keep_callbacks_witness :
  ∃ st' msg,
    handle_committed_entries [apply_demo.e6; apply_demo.e7]
      (peer_commands.waiting_fsm, peer_demo.ctx) = Returns (tt, st') ∧
    x_apply st'.2 = [msg] ∧ cmds_match (pending_of <$> apply_cbs msg) [apply_demo.e6; apply_demo.e7].
Proof.
  destruct (committed_entries_keep_callbacks [apply_demo.e6; apply_demo.e7] 5 5
    (peer_commands.waiting_fsm, peer_demo.ctx)) as (st' & msg & sent & H & Ha & _ & Hm & _).
  - apply peer_commands.follows.
  - done.
  - split.
    + constructor; constructor.
    + intros p e ->%list_elem_of_singleton _ _ _. exists apply_demo.e7. split; [|done].
      apply elem_of_cons. right. apply list_elem_of_here.
    + intros p e ->%list_elem_of_singleton [->| ->%list_elem_of_singleton]%elem_of_cons; done.
  - exists st', msg. split; [exact H|]. split; [exact Ha|exact Hm].
Defined.

Lemma compaction_keeps_replicated_witness :
  compact_index_for 6 (replicated_index 1000 [1000; 900]) 100 = Some 16 ∧
  ∀ m, m ∈ [1000; 900] → 16 + 90 ≤ m.
Proof.
  split; [reflexivity|]. intros m Hm.
  apply (compaction_keeps_replicated 6 1000 [1000; 900] 100 16); try done.
  repeat constructor; done.
Defined.
