(* ===== verification/PollerSpec.v ===== *)
(** * The poller as a run of the storage

    Every turn of the raft poller changes the engines and the storage of the peer
    by steps of the storage relation, for any implementation of raft-rs that keeps
    its contract.  The only voter of a group is a concrete one. *)

From stdpp Require Import pretty.
From S2P Require Import Prelude Bytes Keys Proto Raftpb Errors RocksEngine RefRocks RefCodec.
From S2P Require Import RaftLog PeerStorage StorageSpec RaftCmd Batch Apply ApplySpec Peer.
From S2P Require Import RaftNode PeerSpec.
Local Open Scope Z_scope.

Section poller.
Context {R : RocksDB} {RL : RocksDBLaws R} {RN : RawNode}.
Context `{!ProtoMessage Entry, !ProtoMessage RaftLocalState, !ProtoMessage RaftApplyState}.
Context {NL : RawNodeLaws RN}.
Context `{!ProtoMessage RegionLocalState, !ProtoMessage StoreIdent, !ProtoMessage RaftCmdRequest}.
Context `{!DebugFmt Error}.

Abbreviation pstate := (PeerFsm * PollContext)%type.
Abbreviation node_of st := (p_node (f_peer st.1)).
Abbreviation store_of st := (p_store (f_peer st.1)).

(** ** What an operation leaves alone *)

Definition core (st : pstate) :
    PeerStorage * Engines * RocksWriteBatch * list CollectedReady * bool :=
  (store_of st, x_engines st.2, x_raft_wb st.2, x_ready_res st.2, x_has_ready st.2).

Inductive skip_op (s : PeerStorage) : Node → Node → Prop :=
| skip_op_intro node b : skip_op s node (node_skip_bcast_commit node b).
Inductive node_op (s : PeerStorage) : Node → Node → Prop :=
| op_skip node b : node_op s node (node_skip_bcast_commit node b)
| op_propose node data : node_op s node (node_propose node data).2
| op_step node e m : node_op s node (node_step node e s m).2
| op_tick node : node_op s node (node_tick node).2.

(** [m] changes the node by operations [op] only, and no field of [core]. *)
Definition keeps (op : PeerStorage → Node → Node → Prop) {A} (m : poll A) : Prop :=
  ∀ st a st', m st = Returns (a, st') →
    core st' = core st ∧ rtc (op (store_of st)) (node_of st) (node_of st').

Section keeps.
Context (op : PeerStorage → Node → Node → Prop).

Lemma keeps_ret {A} (a : A) : keeps op (mret a).
Proof. intros st a' st' [= <- <-]. done. Qed.

Lemma keeps_bind {A B} (m : poll A) (f : A → poll B) :
  keeps op m → (∀ a, keeps op (f a)) → keeps op (m ≫= f).
Proof.
  intros Hm Hf st b st' H. unfold mbind, poll_bind in H.
  apply run_bind_Returns in H as ([a st1] & H1 & H2).
  apply Hm in H1 as [Hc1 Hn1]. apply Hf in H2 as [Hc2 Hn2].
  assert (store_of st1 = store_of st) as Hs by (unfold core in Hc1; congruence).
  split; [congruence|]. rewrite Hs in Hn2. by etrans.
Qed.

Lemma keeps_lift {A} (m : run A) : keeps op (lift m).
Proof. intros st a st' H. unfold lift in H. destruct m; [|done]. by injection H as <- <-. Qed.
Lemma keeps_panics {A} : keeps op (panics : poll A).
Proof. by intros st a st' H. Qed.
Lemma keeps_assert b : keeps op (assert_that b).
Proof. intros st a st' H. unfold assert_that in H. destruct b; [|done]. by injection H as <- <-. Qed.
Lemma keeps_get_fsm {A} (f : PeerFsm → A) : keeps op (get_fsm f).
Proof. by intros st a st' [= <- <-]. Qed.
Lemma keeps_get_peer {A} (f : Peer → A) : keeps op (get_peer f).
Proof. apply keeps_get_fsm. Qed.
Lemma keeps_get_ctx {A} (f : PollContext → A) : keeps op (get_ctx f).
Proof. by intros st a st' [= <- <-]. Qed.
Lemma keeps_mod_fsm (f : PeerFsm → PeerFsm) :
  (∀ r, p_store (f_peer (f r)) = p_store (f_peer r) ∧ p_node (f_peer (f r)) = p_node (f_peer r)) →
  keeps op (mod_fsm f).
Proof.
  intros Hf st a st' [= <- <-]. destruct (Hf st.1) as [Hs Hn]. unfold core. cbn. rewrite Hs, Hn. done.
Qed.
Lemma keeps_mod_peer (f : Peer → Peer) :
  (∀ p, p_store (f p) = p_store p ∧ p_node (f p) = p_node p) → keeps op (mod_peer f).
Proof. intros Hf. apply keeps_mod_fsm. intros r. cbn. apply Hf. Qed.
Lemma keeps_mod_ctx (f : PollContext → PollContext) :
  (∀ x, x_engines (f x) = x_engines x ∧ x_raft_wb (f x) = x_raft_wb x ∧
        x_ready_res (f x) = x_ready_res x ∧ x_has_ready (f x) = x_has_ready x) →
  keeps op (mod_ctx f).
Proof.
  intros Hf st a st' [= <- <-]. destruct (Hf st.2) as (He & Hw & Hr & Hh). unfold core. cbn.
  rewrite He, Hw, Hr, Hh. done.
Qed.
Lemma keeps_mod_node (f : Peer → Peer) :
  (∀ p s, p_store p = s → p_store (f p) = s ∧ rtc (op s) (p_node p) (p_node (f p))) →
  keeps op (mod_peer f).
Proof.
  intros Hf st a st' [= <- <-]. destruct (Hf (f_peer st.1) _ eq_refl) as [Hs Hn].
  unfold core. cbn. rewrite Hs. done.
Qed.
Lemma keeps_on_node {A} (f : Node → A * Node) :
  (∀ s node, op s node (f node).2) → keeps op (on_node f).
Proof.
  intros Hf st a st' H. unfold on_node, mbind, poll_bind in H. cbn in H.
  pose proof (Hf (store_of st) (node_of st)) as Ho.
  destruct (f (node_of st)) as [b node]. injection H as <- <-. split; [done|]. by apply rtc_once.
Qed.
End keeps.

(** *** The operations of the peer *)

Create HintDb keeps discriminated.
Hint Resolve keeps_ret keeps_lift keeps_panics keeps_assert keeps_get_fsm keeps_get_peer
  keeps_get_ctx : keeps.

Ltac keeps_step :=
  lazymatch goal with
  | |- keeps _ (_ ≫= _) => apply keeps_bind; [|intros ?]
  | |- keeps _ (mod_ctx _) => apply keeps_mod_ctx; intros ?; try done
  | |- keeps _ (mod_fsm _) => apply keeps_mod_fsm; intros ?; try done
  | |- keeps _ (match ?x with _ => _ end) => destruct x
  | |- keeps _ (let '(_, _) := ?x in _) => destruct x
  | |- _ => solve [auto with keeps]
  end.
Ltac solve_keeps := repeat keeps_step.

Section skips.
Context (op : PeerStorage → Node → Node → Prop).
Hypothesis op_skips : ∀ s node b, op s node (node_skip_bcast_commit node b).

Lemma keeps_peer_from_cache peer_id : keeps op (peer_from_cache peer_id).
Proof.
  intros st a st' H. unfold peer_from_cache, get_peer_from_cache, mbind, poll_bind in H. cbn in H.
  destruct (peer_id =? 0); [by injection H as <- <-|].
  destruct (p_peer_cache _ !! _); [by injection H as <- <-|].
  destruct (list_find _ _) as [[? ?]|]; by injection H as <- <-.
Qed.
Hint Resolve keeps_peer_from_cache : keeps.

Lemma keeps_send_raft_message msg : keeps op (send_raft_message msg).
Proof. unfold send_raft_message. solve_keeps. Qed.
Hint Resolve keeps_send_raft_message : keeps.
Lemma keeps_send_messages msgs : keeps op (send_messages msgs).
Proof. induction msgs; cbn [send_messages]; solve_keeps. Qed.
Lemma keeps_send m : keeps op (send m).
Proof. unfold send. solve_keeps. Qed.
Hint Resolve keeps_send : keeps.

Lemma keeps_handle_committed_entries es : keeps op (handle_committed_entries es).
Proof.
  unfold handle_committed_entries. destruct (list.last es) as [last|]; [|solve_keeps].
  apply keeps_bind; [solve_keeps|intros _]. apply keeps_bind; [|intros _].
  { apply keeps_mod_node. intros p s <-. unfold start_applying. cbn.
    destruct (_ <=? _); cbn; [|done]. split; [done|]. apply rtc_once, op_skips. }
  apply keeps_bind; [solve_keeps|intros p]. apply keeps_bind; [|intros cbs; solve_keeps].
  destruct (p_proposals p); [solve_keeps|]. apply keeps_bind; [solve_keeps|].
  intros [[cbs queue] sent]. apply keeps_bind; [solve_keeps|intros _].
  apply keeps_bind; [by apply keeps_mod_peer|solve_keeps].
Qed.

Lemma keeps_on_role_changed ready : keeps op (on_role_changed ready).
Proof.
  unfold on_role_changed. destruct (rdy_ss ready) as [[[] ?]|]; [|solve_keeps..].
  apply keeps_bind; [by apply keeps_mod_peer|intros _]. apply keeps_mod_node.
  intros p s <-. split; [done|]. apply rtc_once, op_skips.
Qed.

Lemma keeps_schedule_tick tick : keeps op (schedule_tick tick).
Proof. unfold schedule_tick. solve_keeps. Qed.
End skips.
Hint Resolve keeps_peer_from_cache keeps_send_messages keeps_send keeps_schedule_tick : keeps.

Lemma node_op_skip s node b : node_op s node (node_skip_bcast_commit node b).
Proof. constructor. Qed.

Lemma keeps_propose cb msg resp : keeps node_op (propose cb msg resp).
Proof.
  unfold propose, is_request_urgent. apply keeps_bind; [solve_keeps|intros policy].
  apply keeps_bind.
  { destruct policy as [[]|]; try solve_keeps. unfold propose_normal.
    apply keeps_bind; [solve_keeps|intros p]. destruct (_ <? _); [solve_keeps|].
    apply keeps_bind; [|intros r; destruct r; solve_keeps].
    apply keeps_on_node. intros s node. constructor. }
  intros [idx|e]; [|solve_keeps]. apply keeps_bind; [solve_keeps|intros p].
  destruct (if has_applied_to_current_term p then _ else _) as [cb' sent].
  apply keeps_bind; [solve_keeps|intros _]. apply keeps_bind; [solve_keeps|intros _].
  apply keeps_bind; [|intros _; solve_keeps]. unfold post_propose.
  apply keeps_bind; [apply keeps_mod_ctx; intros x; by destruct (x_current_time x)|intros _].
  apply keeps_bind; [solve_keeps|intros t]. apply keeps_bind; [solve_keeps|intros q].
  apply keeps_bind; [solve_keeps|intros q']. by apply keeps_mod_peer.
Qed.

Lemma keeps_propose_raft_command msg cb : keeps node_op (propose_raft_command msg cb).
Proof.
  unfold propose_raft_command. apply keeps_bind.
  { unfold pre_propose_raft_command, execute_status_command, execute_region_leader,
      execute_region_detail. solve_keeps. }
  intros [[resp|]|e]; [solve_keeps| |solve_keeps]. apply keeps_bind; [solve_keeps|intros p].
  apply keeps_bind; [apply keeps_propose|intros []; solve_keeps].
Qed.
Hint Resolve keeps_propose_raft_command : keeps.

Lemma keeps_on_raft_command cmd : keeps node_op (on_raft_command cmd).
Proof. unfold on_raft_command, propose_batch_raft_command. solve_keeps. Qed.

Lemma keeps_on_tick limit tick : keeps node_op (on_tick limit tick).
Proof.
  unfold on_tick. apply keeps_bind; [solve_keeps|intros _]. destruct tick.
  - unfold on_raft_base_tick, register_raft_base_tick. apply keeps_bind.
    { apply keeps_on_node. intros s node. constructor. }
    intros []; solve_keeps.
  - unfold on_raft_gc_log_tick, register_raft_gc_log_tick. solve_keeps.
Qed.

Lemma keeps_on_raft_message msg : keeps node_op (on_raft_message msg).
Proof.
  unfold on_raft_message. apply keeps_bind; [solve_keeps|intros p].
  destruct (negb _); [solve_keeps|]. apply keeps_bind; [by apply keeps_mod_peer|intros _].
  apply keeps_bind; [|intros []; solve_keeps].
  unfold step. destruct (msg_type _); [solve_keeps..|].
  intros st a st' H. unfold on_node, mbind, poll_bind in H. cbn in H.
  destruct (node_step _ _ _ _) as [r node] eqn:Hs. injection H as <- <-. split; [done|].
  apply rtc_once. change node with (r, node).2. rewrite <-Hs. constructor.
Qed.
Lemma keeps_start : keeps node_op start.
Proof. unfold start, register_raft_base_tick, register_raft_gc_log_tick. solve_keeps. Qed.

(** ** A turn of the poller *)

Section turn.
Context (ap : RaftApplyState).

(** Between turns nothing is left in the batch or to be advanced. *)
Record turn_inv (L : gmap Z Entry) (st : pstate) : Prop := {
  ti_node : node_agrees (node_of st) (store_of st) L ap;
  ti_wb : x_raft_wb st.2 = wb_new;
  ti_readies : x_ready_res st.2 = [] }.

(** The storage of the peer and the log it stands for. *)
Definition storage_of (L : gmap Z Entry) (st : pstate) : PeerState :=
  {| pt_engines := x_engines st.2; pt_storage := store_of st; pt_log := L; pt_apply := ap |}.

(** The results reported by the apply worker are those of states it has persisted. *)
Fixpoint messages_ok (s : PeerStorage) (L : gmap Z Entry) (msgs : list PeerMsg) : Prop :=
  match msgs with
  | [] => True
  | PeerMsg_ApplyRes res :: msgs =>
      notify_ok s L ap (ares_apply_state res) ∧
      messages_ok (set_applied_term (ares_applied_index_term res)
                     (set_applied_state (ares_apply_state res) s)) L msgs
  | _ :: msgs => messages_ok s L msgs
  end.

Lemma agrees_ops s L node node' :
  rtc (node_op s) node node' → node_agrees node s L ap → node_agrees node' s L ap.
Proof.
  induction 1 as [|n1 n2 n3 Hop _ IH]; [done|]. intros H. apply IH.
  destruct Hop; eauto using agrees_skip, agrees_propose, agrees_step, agrees_tick.
Qed.
Lemma agrees_skips s L node node' :
  rtc (skip_op s) node node' → node_agrees node s L ap → node_agrees node' s L ap.
Proof. induction 1 as [|n1 n2 n3 Hop _ IH]; [done|]. intros H. apply IH. destruct Hop. by apply agrees_skip. Qed.
Lemma waits_skips s rd s0 L node node' :
  rtc (skip_op s) node node' → node_waits node rd s0 L ap → node_waits node' rd s0 L ap.
Proof. induction 1 as [|n1 n2 n3 Hop _ IH]; [done|]. intros H. apply IH. destruct Hop. by apply waits_skip. Qed.

Lemma core_storage L st st' : core st' = core st → storage_of L st' = storage_of L st.
Proof. intros H. unfold core in H. unfold storage_of. congruence. Qed.

Lemma keeps_turn {A} (m : poll A) L st a st' :
  keeps node_op m → m st = Returns (a, st') → turn_inv L st →
  turn_inv L st' ∧ storage_of L st' = storage_of L st.
Proof.
  intros Hk Hm [Hn Hw Hr]. apply Hk in Hm as [Hc Hops].
  pose proof (core_storage L _ _ Hc) as Hs. split; [|done]. unfold core in Hc.
  split; [|congruence..]. replace (store_of st') with (store_of st) by congruence.
  by eapply agrees_ops.
Qed.

Lemma on_ready_result_keeps results : keeps node_op (on_ready_result results).
Proof.
  induction results as [|[state first] results IH]; cbn [on_ready_result]; [solve_keeps|].
  apply keeps_bind; [|intros _; exact IH]. unfold on_ready_compact_log.
  apply keeps_bind; [solve_keeps|intros p]. apply keeps_bind; [by apply keeps_mod_peer|intros _].
  solve_keeps.
Qed.

Lemma on_apply_res_steps L res st st' :
  turn_inv L st → notify_ok (store_of st) L ap (ares_apply_state res) →
  on_apply_res res st = Returns (tt, st') →
  turn_inv L st' ∧ rtc storage_step (storage_of L st) (storage_of L st') ∧
  store_of st' = set_applied_term (ares_applied_index_term res)
                   (set_applied_state (ares_apply_state res) (store_of st)).
Proof.
  intros Hinv Hn H. unfold on_apply_res, mbind, poll_bind in H.
  apply run_bind_Returns in H as ([u st1] & H1 & H).
  destruct (keeps_turn _ L _ _ _ (on_ready_result_keeps _) H1 Hinv) as [Hinv1 Hs1].
  assert (store_of st1 = store_of st) as Hst by (unfold storage_of in Hs1; congruence).
  cbn in H. injection H as <-. cbn.
  split_and!.
  - destruct Hinv1 as [Hnode Hw Hr]. split; [|done|done]. cbn. apply agrees_apply; [done|].
    by rewrite Hst.
  - rewrite <-Hs1. apply rtc_once. apply step_notify. by rewrite Hst.
  - by rewrite Hst.
Qed.

Lemma handle_msgs_steps limit msgs L st st' :
  turn_inv L st → messages_ok (store_of st) L msgs →
  handle_msgs limit msgs st = Returns (tt, st') →
  turn_inv L st' ∧ rtc storage_step (storage_of L st) (storage_of L st').
Proof.
  revert st. induction msgs as [|m msgs IH]; intros st Hinv Hok H; cbn [handle_msgs] in H.
  { assert (keeps node_op propose_batch_raft_command) as Hk
      by (unfold propose_batch_raft_command; solve_keeps).
    destruct (keeps_turn _ L _ _ _ Hk H Hinv) as [? Hs]. split; [done|]. by rewrite Hs. }
  unfold mbind, poll_bind in H. apply run_bind_Returns in H as ([[] st1] & H1 & H).
  assert (turn_inv L st1 ∧ rtc storage_step (storage_of L st) (storage_of L st1) ∧
          messages_ok (store_of st1) L msgs) as (Hinv1 & Hsteps & Hok1).
  { assert (∀ A (k : poll A) a, keeps node_op k → k st = Returns (a, st1) →
      messages_ok (store_of st) L msgs →
      turn_inv L st1 ∧ rtc storage_step (storage_of L st) (storage_of L st1) ∧
      messages_ok (store_of st1) L msgs) as Hkeep.
    { intros A k a Hk Hka Hms. destruct (keeps_turn _ L _ _ _ Hk Hka Hinv) as [? Hs].
      split; [done|]. rewrite Hs. split; [done|]. unfold storage_of in Hs.
      by replace (store_of st1) with (store_of st) by congruence. }
    destruct m as [msg|cmd|tick|res|]; cbn [messages_ok] in Hok; cbn [handle_msg] in H1.
    - eapply Hkeep; [|exact H1|done]. apply keeps_bind; [apply keeps_on_raft_message|solve_keeps].
    - eapply Hkeep; [apply keeps_on_raft_command|exact H1|done].
    - eapply Hkeep; [apply keeps_on_tick|exact H1|done].
    - destruct Hok as [Hn Hok]. destruct (on_apply_res_steps L res st st1 Hinv Hn H1) as (? & ? & ->).
      done.
    - eapply Hkeep; [apply keeps_start|exact H1|done]. }
  destruct (IH st1 Hinv1 Hok1 H) as [? ?]. split; [done|]. by etrans.
Qed.

(** ** From the ready to the next turn *)

Lemma poll_bind_Returns {A B} (m : poll A) (f : A → poll B) st b st' :
  (m ≫= f) st = Returns (b, st') →
  ∃ a st1, m st = Returns (a, st1) ∧ f a st1 = Returns (b, st').
Proof. unfold mbind, poll_bind. intros ([a st1] & H1 & H2)%run_bind_Returns. eauto. Qed.

(** The ready of the turn is in the batch and not yet written. *)
Record waiting (L : gmap Z Entry) (r : CollectedReady) (st : pstate) : Prop := {
  w_ready : ready_ok (store_of st) L ap (rdy_ready (cr_ready r));
  w_batch : handle_raft_ready (store_of st) (rdy_ready (cr_ready r)) wb_new =
            (cr_ctx r, x_raft_wb st.2);
  w_node : node_waits (node_of st) (cr_ready r) (store_of st) L ap }.

(** A waiting node goes on waiting over an operation that only skips. *)
Lemma waits_seq {A B} (m : poll A) (f : A → poll B) rd s L c st b st' :
  keeps skip_op m → (m ≫= f) st = Returns (b, st') →
  core st = c → node_waits (node_of st) rd s L ap →
  ∃ a st1, f a st1 = Returns (b, st') ∧ core st1 = c ∧ node_waits (node_of st1) rd s L ap.
Proof.
  intros Hm (a & st1 & H1 & H2)%poll_bind_Returns Hc Hw. apply Hm in H1 as [Hc1 Hr].
  exists a, st1. split_and!; [done|congruence|by eapply waits_skips].
Qed.

Lemma skip_op_skips s node b : skip_op s node (node_skip_bcast_commit node b).
Proof. constructor. Qed.
Hint Resolve skip_op_skips : keeps.
Hint Resolve keeps_handle_committed_entries keeps_on_role_changed : keeps.

Lemma keeps_set_number n : keeps skip_op (mod_peer (set_p_last_unpersisted_number n)).
Proof. by apply keeps_mod_peer. Qed.
Hint Resolve keeps_set_number : keeps.

Lemma handle_raft_ready_append_spec L st r st' :
  turn_inv L st → handle_raft_ready_append st = Returns (r, st') →
  waiting L r st' ∧ store_of st' = store_of st ∧ x_engines st'.2 = x_engines st.2 ∧
  x_ready_res st'.2 = [] ∧ x_has_ready st'.2 = x_has_ready st.2.
Proof.
  intros [Hn Hw Hr] H. unfold handle_raft_ready_append in H.
  destruct (agrees_ready (node_of st) (x_engines st.2) (store_of st) L ap Hn) as [Hok Hwait].
  apply poll_bind_Returns in H as (p & st1 & [= <- <-] & H).
  apply poll_bind_Returns in H as (e & st1 & [= <- <-] & H). cbn [id] in H.
  apply poll_bind_Returns in H as (ready & st1 & H1 & H).
  unfold on_node, mbind, poll_bind in H1. cbn in H1.
  destruct (node_ready _ _ _) as [rd node] eqn:Hnode. injection H1 as <- <-. cbn in Hok, Hwait.
  lazymatch type of H with _ ?st1 = _ => set (st2 := st1) in * end.
  assert (core st2 = core st) as Hc by done.
  assert (node_waits (node_of st2) rd (store_of st) L ap) as Hwait2 by done. clearbody st2.
  do 6 (eapply waits_seq in H as (u & st3 & H & Hc' & Hw'); [|solve_keeps|exact Hc|exact Hwait2];
        clear Hc Hwait2 u; rename Hc' into Hc, Hw' into Hwait2; clear st2; rename st3 into st2).
  unfold core in Hc. apply poll_bind_Returns in H as (wb & st3 & [= <- <-] & H).
  assert (x_raft_wb st2.2 = wb_new) as Hwb by congruence. rewrite Hwb in H.
  destruct (handle_raft_ready _ _ _) as [ctx wb] eqn:Hh.
  apply poll_bind_Returns in H as (u & st3 & [= <- <-] & [= <- <-]). cbn.
  assert (store_of st2 = store_of st) as Hs by congruence.
  split_and!; [|congruence..]. split; cbn; rewrite ?Hs; done.
Qed.

Lemma collect_ready_spec L st st' :
  turn_inv L st → collect_ready st = Returns (tt, st') →
  storage_of L st' = storage_of L st ∧
  (turn_inv L st' ∨ ∃ r, waiting L r st' ∧ x_ready_res st'.2 = [r] ∧ x_has_ready st'.2 = true).
Proof.
  intros Hinv H. unfold collect_ready in H.
  apply poll_bind_Returns in H as (has & st1 & [= <- <-] & H).
  apply poll_bind_Returns in H as (u & st1 & [= <- <-] & H).
  destruct (f_has_ready st.1); cbn [negb] in H.
  2: { injection H as <-. split; [done|]. left. by destruct Hinv. }
  apply poll_bind_Returns in H as (u1 & st1 & [= <- <-] & H).
  apply poll_bind_Returns in H as (r & st1 & H1 & H).
  apply (handle_raft_ready_append_spec L) in H1 as (Hw & Hs & He & Hr & Hh);
    [|destruct Hinv; by split]. cbn in Hs, He, Hh.
  assert (keeps skip_op (match rdy_ss (cr_ready r) with
    | Some (true, _) => mod_fsm (set_f_missing_ticks 0) | _ => mret tt end)) as Hk1.
  { destruct (rdy_ss (cr_ready r)) as [[[] ?]|]; solve_keeps. }
  assert (keeps skip_op (if has_new_entries (cr_ctx r) then register_raft_gc_log_tick else mret tt))
    as Hk2 by (unfold register_raft_gc_log_tick; solve_keeps).
  destruct Hw as [Hok Hb Hw].
  eapply waits_seq in H as (u2 & st2 & H & Hc & Hw2); [|exact Hk1|reflexivity|exact Hw].
  eapply waits_seq in H as (u3 & st3 & H & Hc3 & Hw3); [|exact Hk2|exact Hc|exact Hw2].
  injection H as <-. unfold core in Hc3. unfold storage_of. cbn.
  split; [f_equal; congruence|]. right. exists r.
  assert (store_of st3 = store_of st1) as Hs3 by congruence.
  split_and!; [split; cbn; rewrite Hs3|..]; try done; try congruence.
  replace (x_ready_res st3.2) with (x_ready_res st1.2) by congruence. by rewrite Hr.
Qed.

Lemma foldl_save_points {A} (f : RocksWriteBatch → A → RocksWriteBatch) (l : list A) wb :
  (∀ wb x, wb_save_points (f wb x) = wb_save_points wb) →
  wb_save_points (foldl f wb l) = wb_save_points wb.
Proof. intros Hf. revert wb. induction l as [|x l IH]; intros wb; cbn; [done|]. by rewrite IH. Qed.

Lemma handle_raft_ready_save_points s ready wb :
  wb_save_points (handle_raft_ready s ready wb).2 = wb_save_points wb.
Proof.
  assert (∀ es from to, wb_save_points (wb_cut_logs (get_region_id s) from to
    (wb_append (get_region_id s) es wb)) = wb_save_points wb) as H.
  { intros es from to. unfold wb_cut_logs. rewrite foldl_save_points by done.
    destruct es; [done|]. cbn [wb_append]. unfold wb_append_impl. by rewrite foldl_save_points. }
  unfold handle_raft_ready. destruct (rd_entries ready) as [|e es] eqn:Hes.
  - cbn -[decide]. destruct (decide _); done.
  - unfold append. destruct (list.last (e :: es)); cbn -[decide wb_append wb_cut_logs];
      destruct (decide _); try done; (etrans; [|apply (H (e :: es))]); reflexivity.
Qed.

Lemma keeps_send_turn (m : poll unit) L st st' :
  keeps skip_op m → m st = Returns (tt, st') → turn_inv L st →
  turn_inv L st' ∧ storage_of L st' = storage_of L st.
Proof.
  intros Hk Hm [Hn Hw Hr]. apply Hk in Hm as [Hc Hops].
  pose proof (core_storage L _ _ Hc) as Hs. split; [|done]. unfold core in Hc.
  split; [|congruence..]. replace (store_of st') with (store_of st) by congruence.
  by eapply agrees_skips.
Qed.

(** The answer of the node to an append: it may commit, but not past the log. *)
Lemma handle_raft_ready_advance_steps s L rd ctx wb st st' :
  let L1 := log_append (rd_entries (rdy_ready rd)) (storage_last_index s) L in
  node_waits (node_of st) rd s L ap → handle_raft_ready s (rdy_ready rd) wb_new = (ctx, wb) →
  store_of st = post_ready ctx s → x_raft_wb st.2 = wb_new → x_ready_res st.2 = [] →
  handle_raft_ready_advance rd st = Returns (tt, st') →
  turn_inv L1 st' ∧ rtc storage_step (storage_of L1 st) (storage_of L1 st').
Proof.
  intros L1 Hw Hb Hs Hwb Hr H. unfold handle_raft_ready_advance in H.
  apply poll_bind_Returns in H as (p & st1 & [= <- <-] & H).
  apply poll_bind_Returns in H as (e & st1 & [= <- <-] & H). cbn [id] in H.
  eapply waits_seq in H as (u & st1 & H & Hc & Hw1); [|solve_keeps|reflexivity|exact Hw].
  eapply waits_seq in H as (u1 & st2 & H & Hc2 & Hw2); [|solve_keeps|exact Hc|exact Hw1].
  apply poll_bind_Returns in H as (lrd & st3 & H1 & H).
  pose proof (waits_advance _ rd (x_engines st.2) s L ap ctx wb Hw2 Hb) as Ha. cbn in Ha.
  unfold on_node, mbind, poll_bind in H1. cbn in H1. rewrite Hs in H1.
  destruct (node_advance_append _ _ _ _) as [lrd' node]. injection H1 as <- <-.
  apply poll_bind_Returns in H as ([] & st4 & H4 & H).
  unfold core in Hc2.
  assert (turn_inv L1 st4 ∧ rtc storage_step (storage_of L1 st) (storage_of L1 st4)) as [Hi4 Hst4].
  { destruct (lrd_commit_index lrd') as [c|].
    - destruct Ha as [Hle Ha]. apply poll_bind_Returns in H4 as (s2 & st5 & H5 & [= <-]).
      unfold lift in H5. rewrite Hs in H5. destruct (set_commit_index c _) as [s3|] eqn:Hset; [|done].
      injection H5 as <- <-. cbn. split.
      + split; cbn; [by apply Ha|congruence..].
      + apply rtc_once. unfold storage_of. cbn. rewrite Hs.
        replace (x_engines st2.2) with (x_engines st.2) by congruence. by apply step_commit with c.
    - injection H4 as <-. split.
      + split; cbn; [|congruence..]. replace (p_store (f_peer st2.1)) with (store_of st) by congruence.
        by rewrite Hs.
      + unfold storage_of. cbn. replace (x_engines st2.2) with (x_engines st.2) by congruence.
        by replace (p_store (f_peer st2.1)) with (store_of st) by congruence. }
  apply poll_bind_Returns in H as ([] & st5 & H5 & H6).
  eapply keeps_send_turn in H5 as [Hi5 Hs5]; [|solve_keeps|exact Hi4].
  eapply keeps_send_turn in H6 as [Hi6 Hs6]; [|solve_keeps|exact Hi5].
  split; [done|]. by rewrite Hs6, Hs5.
Qed.

(** The batch is written, then the ready is advanced. *)
Lemma poller_handle_raft_ready_steps L r st st' :
  waiting L r st → x_ready_res st.2 = [r] → poller_handle_raft_ready st = Returns (tt, st') →
  ∃ L', turn_inv L' st' ∧ rtc storage_step (storage_of L st) (storage_of L' st').
Proof.
  intros [Hok Hb Hw] Hr H. unfold poller_handle_raft_ready in H.
  apply poll_bind_Returns in H as (u & st1 & H1 & H).
  set (s := store_of st) in *. set (e := x_engines st.2) in *.
  set (L1 := log_append (rd_entries (rdy_ready (cr_ready r))) (storage_last_index s) L).
  assert (x_engines st1.2 = (ready_cycle e s (rdy_ready (cr_ready r))).1 ∧
    x_raft_wb st1.2 = wb_new ∧ x_ready_res st1.2 = [r] ∧ st1.1 = st.1) as (He & Hwb & Hr1 & Hf).
  { unfold ready_cycle. rewrite Hb. cbn in H1. injection H1 as <- <-. cbn.
    pose proof (handle_raft_ready_save_points s (rdy_ready (cr_ready r)) wb_new) as Hsp.
    rewrite Hb in Hsp. cbn in Hsp. destruct (wb_is_empty (x_raft_wb st.2)) eqn:Hempty; [|done].
    split_and!; try done. unfold wb_is_empty, wb_count in Hempty.
    apply Nat.eqb_eq, length_zero_iff_nil in Hempty.
    destruct (x_raft_wb st.2); cbn in *; by subst. }
  apply poll_bind_Returns in H as (rs & st2 & [= <- <-] & H). rewrite Hr1 in H.
  apply poll_bind_Returns in H as (u2 & st2 & [= <- <-] & H). cbn [post_readies] in H.
  apply poll_bind_Returns in H as ([] & st2 & H & [= <-]). unfold post_raft_ready_append in H.
  apply poll_bind_Returns in H as (p & st3 & [= <- <-] & H).
  apply poll_bind_Returns in H as (u4 & st3 & H3 & H). unfold assert_that in H3.
  destruct (_ =? _); [|done]. injection H3 as _ <-.
  apply poll_bind_Returns in H as (u5 & st3 & [= <- <-] & H). cbn in H.
  lazymatch type of H with _ ?st0 = _ => set (st3 := st0) in * end.
  eapply waits_seq in H as (u6 & st4 & H & Hc & Hw4);
    [|solve_keeps|reflexivity|subst st3; cbn; rewrite Hf; exact Hw].
  assert (store_of st3 = post_ready (cr_ctx r) s) as Hs3 by (subst st3; cbn; by rewrite Hf).
  assert (storage_step (storage_of L st) (storage_of L1 st4)) as Hstep.
  { rewrite (core_storage _ _ _ Hc). unfold storage_of. rewrite Hs3. cbn. rewrite He.
    pose proof (step_ready e s L ap (rdy_ready (cr_ready r)) Hok) as Hst.
    replace (post_ready (cr_ctx r) s) with (ready_cycle e s (rdy_ready (cr_ready r))).2; [done|].
    unfold ready_cycle. by rewrite Hb. }
  unfold core in Hc. injection Hc as Hcs Hce Hcw Hcr _.
  eapply handle_raft_ready_advance_steps in H as [Hi Hsteps]; [|exact Hw4|exact Hb| | |].
  - exists L1. split; [done|]. by eapply rtc_l.
  - by rewrite Hcs.
  - by rewrite Hcw.
  - by rewrite Hcr.
Qed.

(** Without a ready there is nothing to write and nothing to advance. *)
Lemma poller_handle_raft_ready_idle L st st' :
  turn_inv L st → poller_handle_raft_ready st = Returns (tt, st') →
  turn_inv L st' ∧ storage_of L st' = storage_of L st.
Proof.
  intros [Hn Hw Hr] H. unfold poller_handle_raft_ready, mbind, poll_bind in H. cbn in H.
  rewrite Hw in H. cbn in H. rewrite Hr in H. injection H as <-. by split.
Qed.

(** One turn of the poller. *)
Lemma poll_peer_turn limit msgs L st ticks st' :
  turn_inv L st → messages_ok (store_of st) L msgs →
  poll_peer limit msgs st = Returns (ticks, st') →
  ∃ L', turn_inv L' st' ∧ rtc storage_step (storage_of L st) (storage_of L' st').
Proof.
  intros Hinv Hok H. unfold poll_peer in H.
  apply poll_bind_Returns in H as (u & st1 & [= <- <-] & H).
  apply poll_bind_Returns in H as ([] & st1 & H1 & H).
  eapply handle_msgs_steps in H1 as [Hinv1 Hsteps1]; [|destruct Hinv; by split|done].
  apply poll_bind_Returns in H as ([] & st2 & H2 & H).
  apply (collect_ready_spec L) in H2 as [Hs2 Hcase]; [|done].
  apply poll_bind_Returns in H as (tk & st3 & [= <- <-] & H).
  apply poll_bind_Returns in H as (u3 & st3 & [= <- <-] & H).
  apply poll_bind_Returns in H as (has & st3 & [= <- <-] & H). cbn [set_x_ticks x_has_ready snd] in H.
  apply poll_bind_Returns in H as ([] & st3 & H3 & H).
  assert (∃ L', turn_inv L' st3 ∧ rtc storage_step (storage_of L st1) (storage_of L' st3))
    as (L' & Hinv3 & Hsteps3).
  { rewrite <-Hs2. destruct Hcase as [Hinv2|(r & Hw & Hr & Hh)].
    - exists L. destruct (x_has_ready st2.2).
      + eapply poller_handle_raft_ready_idle in H3 as [? Hs3]; [|destruct Hinv2; by split].
        split; [done|]. by rewrite Hs3.
      + injection H3 as <-. split; [|done]. destruct Hinv2; by split.
    - rewrite Hh in H3. eapply poller_handle_raft_ready_steps in H3 as (L' & ? & ?);
        [|destruct Hw; by split|exact Hr]. by exists L'. }
  apply poll_bind_Returns in H as (u4 & st4 & [= <- <-] & [= <- <-]).
  exists L'. split; [destruct Hinv3; by split|]. etrans; [exact Hsteps1|exact Hsteps3].
Qed.
End turn.

End poller.

(** ** A concrete turn *)

Module turn_demo.
Definition msgs : list PeerMsg :=
  [PeerMsg_Start;
   PeerMsg_RaftCommand {| cmd_request := peer_commands.cmd peer_commands.header;
                          cmd_callback := write (Channel 4) |}].
Definition start_of_turn : PeerFsm * PollContext := (peer_demo.fsm, peer_demo.ctx).

Lemma inv : turn_inv initial_apply_state ∅ start_of_turn.
Proof.
  split; [|done..]. split; try done.
  - exists 5. split; cbn.
    + intros i. unfold RAFT_INIT_LOG_INDEX. lia.
    + done.
    + done.
    + intros i j ti tj Hi. unfold term_at. cbn. repeat case_decide; rewrite ?lookup_empty; cbn; try done.
      by intros [= <-] [= <-].
    + intros i ti Hi. unfold term_at. cbn. case_decide; rewrite ?lookup_empty; cbn; try done.
      by intros [= <-].
  - intros x ->%list_elem_of_singleton. done.
Qed.

Lemma turn_result :
  (λ r : _ * (PeerFsm * PollContext),
     let s := p_store (f_peer r.2.1) in (storage_last_index s, commit_index s)) <$> poll_peer 1000 msgs start_of_turn
  = Returns (7, 7).
Proof. vm_compute. reflexivity. Qed.
End turn_demo.

