(* ===== verification/Ticks.v ===== *)
(** * The clock of a store: ticks of peer.rs, store.rs and the steady timer

    Raft only makes progress while it is ticked.  A tick is registered by the peer
    ([Peer.schedule_tick]), put on the timer at the end of the turn ([flush_ticks]),
    sent to the mailbox of the peer when its delay is over, and handled in a later turn,
    which registers it again.  The theorem follows every tick through this cycle. *)

From S2P Require Import Prelude Bytes Keys Proto Raftpb Errors RocksEngine RefRocks RefCodec.
From S2P Require Import RaftLog PeerStorage StorageSpec RaftCmd Batch Apply ApplySpec Peer.
From S2P Require Import RaftNode PeerSpec PollerSpec.
Local Open Scope Z_scope.

Global Instance PeerTick_eq_dec : EqDecision PeerTick.
Proof. solve_decision. Defined.

(** ** The batches of store.rs *)

(** [update_ticks_timeout], in milliseconds. *)
Definition wait_duration (t : PeerTick) : Z :=
  match t with RAFT => 200 | RAFT_LOG_GC => 10 * 1000 end.
Definition get_all_ticks : list PeerTick := [RAFT; RAFT_LOG_GC].

(** A future of the timer: when it is due, and the ticks its closure sends. *)
Record Delay := { dl_deadline : Z; dl_ticks : list PeerTick }.

(** [x_ticks] holds the ticks of all batches; the batch of [t] is what is [t] in it. *)
Definition flush_ticks (now : Z) (ticks : list PeerTick) : list Delay :=
  omap (λ t, match filter (t =.) ticks with
             | [] => None
             | peer_ticks => Some {| dl_deadline := now + wait_duration t; dl_ticks := peer_ticks |}
             end) get_all_ticks.

Definition messages_per_tick : Z := 4096.

Section clock.
Context {R : RocksDB} {RN : RawNode}.
Context `{!ProtoMessage Entry, !ProtoMessage RaftLocalState, !ProtoMessage RaftApplyState}.
Context `{!ProtoMessage RegionLocalState, !ProtoMessage StoreIdent, !ProtoMessage RaftCmdRequest}.
Context `{!DebugFmt Error}.

Abbreviation pstate := (PeerFsm * PollContext)%type.

(** [handle_normal] takes this much of the mailbox in a turn. *)
Definition take_msgs (mailbox : list PeerMsg) : list PeerMsg * list PeerMsg :=
  (take (Z.to_nat messages_per_tick) mailbox, drop (Z.to_nat messages_per_tick) mailbox).

(** The senders of the mailbox, [RaftRouter]: results of the apply worker, messages of
    other stores and commands of this one. *)
Definition router_notify (apply_res : list ApplyRes) (mailbox : list PeerMsg) : list PeerMsg :=
  mailbox ++ (PeerMsg_ApplyRes <$> apply_res).
Definition router_send_message (msg : RaftMessage) (mailbox : list PeerMsg) : list PeerMsg :=
  mailbox ++ [PeerMsg_RaftMessage msg].
Definition router_send_raft_command (cmd : RaftCommand) (mailbox : list PeerMsg) : list PeerMsg :=
  mailbox ++ [PeerMsg_RaftCommand cmd].
Definition router_send_command (req : RaftCmdRequest) (cb : Callback) (mailbox : list PeerMsg) :
    list PeerMsg :=
  router_send_raft_command {| cmd_request := req; cmd_callback := cb |} mailbox.

Definition tick_of (m : PeerMsg) : option PeerTick :=
  match m with PeerMsg_Tick t => Some t | _ => None end.
Definition is_start (m : PeerMsg) : bool := match m with PeerMsg_Start => true | _ => false end.

(** ** The poller, its timer and its mailbox

    [ck_ticked] records the ticks that were handled. *)

Record Clockwork := mkClock {
  ck_fsm : PeerFsm;
  ck_ctx : PollContext;
  ck_mailbox : list PeerMsg;
  ck_timers : list Delay;
  ck_now : Z;
  ck_ticked : list PeerTick }.

(** The engines, the clock and the receivers of the channels belong to other threads;
    the batch, the readies and the ticks to the poller. *)
Definition same_poller (x x' : PollContext) : Prop :=
  x_raft_wb x' = x_raft_wb x ∧ x_ready_res x' = x_ready_res x ∧ x_ticks x' = x_ticks x.

Inductive clock_step (limit : Z) : Clockwork → Clockwork → Prop :=
| step_turn fsm x mailbox timers now ticked msgs rest ticks fsm' x' :
    take_msgs mailbox = (msgs, rest) →
    poll_peer limit msgs (fsm, x) = Returns (ticks, (fsm', x')) →
    clock_step limit (mkClock fsm x mailbox timers now ticked)
      (mkClock fsm' x' rest (timers ++ flush_ticks now ticks) now (ticked ++ omap tick_of msgs))
| step_fire fsm x mailbox before d after now ticked :
    dl_deadline d ≤ now →
    clock_step limit (mkClock fsm x mailbox (before ++ d :: after) now ticked)
      (mkClock fsm x (mailbox ++ (PeerMsg_Tick <$> dl_ticks d)) (before ++ after) now ticked)
| step_arrives fsm x mailbox timers now ticked m :
    tick_of m = None → is_start m = false →
    clock_step limit (mkClock fsm x mailbox timers now ticked)
      (mkClock fsm x (mailbox ++ [m]) timers now ticked)
| step_passes fsm x mailbox timers now ticked now' :
    now ≤ now' →
    clock_step limit (mkClock fsm x mailbox timers now ticked)
      (mkClock fsm x mailbox timers now' ticked)
| step_others fsm x mailbox timers now ticked x' :
    same_poller x x' →
    clock_step limit (mkClock fsm x mailbox timers now ticked)
      (mkClock fsm x' mailbox timers now ticked).

(** Whatever the router sends arrives, in its order. *)
Lemma router_arrives limit fsm x mailbox timers now ticked msgs :
  Forall (λ m, tick_of m = None ∧ is_start m = false) msgs →
  rtc (clock_step limit) (mkClock fsm x mailbox timers now ticked)
    (mkClock fsm x (mailbox ++ msgs) timers now ticked).
Proof.
  intros Hm. revert mailbox. induction Hm as [|m msgs [Ht Hs] _ IH]; intros mailbox.
  { by rewrite app_nil_r. }
  eapply rtc_l; [by eapply step_arrives|]. specialize (IH (mailbox ++ [m])).
  by rewrite <-app_assoc in IH.
Qed.
Lemma router_notify_arrives limit fsm x mailbox timers now ticked apply_res :
  rtc (clock_step limit) (mkClock fsm x mailbox timers now ticked)
    (mkClock fsm x (router_notify apply_res mailbox) timers now ticked).
Proof. apply router_arrives. apply list.Forall_fmap. by apply list.Forall_true. Qed.
Lemma router_send_command_arrives limit fsm x mailbox timers now ticked req cb :
  rtc (clock_step limit) (mkClock fsm x mailbox timers now ticked)
    (mkClock fsm x (router_send_command req cb mailbox) timers now ticked).
Proof. apply router_arrives. by repeat constructor. Qed.
Lemma router_send_message_arrives limit fsm x mailbox timers now ticked msg :
  rtc (clock_step limit) (mkClock fsm x mailbox timers now ticked)
    (mkClock fsm x (router_send_message msg mailbox) timers now ticked).
Proof. apply router_arrives. by repeat constructor. Qed.

(** The peer as [fsm_create] leaves it, with the message of [schedule_all]. *)
Definition clock_starts (now : Z) (s : Clockwork) : Prop :=
  f_tick_registry (ck_fsm s) = {| tick_raft := false; tick_raft_log_gc := false |} ∧
  x_ticks (ck_ctx s) = [] ∧ ck_mailbox s = [PeerMsg_Start] ∧ ck_timers s = [] ∧
  ck_now s = now ∧ ck_ticked s = [].

(** ** What an operation of the peer does to its ticks *)

Definition registered (t : PeerTick) (st : pstate) : bool := ticks_contains (f_tick_registry st.1) t.
Definition count (t : PeerTick) (l : list PeerTick) : nat := length (filter (t =.) l).
Local Arguments count : simpl never.
Definition batched (t : PeerTick) (st : pstate) : nat := count t (x_ticks st.2).

Lemma count_app t l1 l2 : count t (l1 ++ l2) = (count t l1 + count t l2)%nat.
Proof. unfold count. by rewrite list.filter_app, length_app. Qed.

(** Most operations leave the ticks alone; registering a tick batches it; none forgets a
    registered one. *)
Definition still (st st' : pstate) : Prop :=
  f_tick_registry st'.1 = f_tick_registry st.1 ∧ x_ticks st'.2 = x_ticks st.2.
Definition paced (st st' : pstate) : Prop :=
  ∀ t, (batched t st' + Nat.b2n (registered t st) = batched t st + Nat.b2n (registered t st'))%nat ∧
       (registered t st = true → registered t st' = true).

Global Instance still_preorder : PreOrder still.
Proof. split; [done|]. intros a b c [? ?] [? ?]. split; congruence. Qed.
Global Instance paced_preorder : PreOrder paced.
Proof.
  split; [done|]. intros a b c H1 H2 t. destruct (H1 t) as [Ha Hr], (H2 t) as [Hb Hs].
  split; [lia|auto].
Qed.
Lemma still_paced st st' : still st st' → paced st st'.
Proof. intros [Hf Hx] t. unfold batched, registered. rewrite Hf, Hx. done. Qed.

Definition moves (P : pstate → pstate → Prop) {A} (m : poll A) : Prop :=
  ∀ st a st', m st = Returns (a, st') → P st st'.

Lemma moves_paced {A} (m : poll A) : moves still m → moves paced m.
Proof. intros Hm st a st' H. eapply still_paced, Hm, H. Qed.

Section moves.
Context (P : pstate → pstate → Prop) `{!PreOrder P}.

Lemma moves_bind {A B} (m : poll A) (f : A → poll B) :
  moves P m → (∀ a, moves P (f a)) → moves P (m ≫= f).
Proof.
  intros Hm Hf st b st' H. apply poll_bind_Returns in H as (a & st1 & H1 & H2).
  etrans; [by eapply Hm|by eapply Hf].
Qed.
Lemma moves_ret {A} (a : A) : moves P (mret a).
Proof. intros st a' st' [= <- <-]. done. Qed.
Lemma moves_lift {A} (m : run A) : moves P (lift m).
Proof. intros st a st' H. unfold lift in H. destruct m; [|done]. by injection H as <- <-. Qed.
Lemma moves_panics {A} : moves P (panics : poll A).
Proof. by intros st a st' H. Qed.
Lemma moves_assert b : moves P (assert_that b).
Proof. intros st a st' H. unfold assert_that in H. destruct b; [|done]. by injection H as <- <-. Qed.
Lemma moves_get_fsm {A} (f : PeerFsm → A) : moves P (get_fsm f).
Proof. by intros st a st' [= <- <-]. Qed.
Lemma moves_get_peer {A} (f : Peer → A) : moves P (get_peer f).
Proof. apply moves_get_fsm. Qed.
Lemma moves_get_ctx {A} (f : PollContext → A) : moves P (get_ctx f).
Proof. by intros st a st' [= <- <-]. Qed.
End moves.

Lemma still_mod_fsm (f : PeerFsm → PeerFsm) :
  (∀ r, f_tick_registry (f r) = f_tick_registry r) → moves still (mod_fsm f).
Proof. intros Hf st a st' [= <- <-]. split; [apply Hf|done]. Qed.
Lemma still_mod_peer (f : Peer → Peer) : moves still (mod_peer f).
Proof. by apply still_mod_fsm. Qed.
Lemma still_mod_ctx (f : PollContext → PollContext) :
  (∀ x, x_ticks (f x) = x_ticks x) → moves still (mod_ctx f).
Proof. intros Hf st a st' [= <- <-]. split; [done|apply Hf]. Qed.

Create HintDb ticks discriminated.
Hint Resolve moves_ret moves_lift moves_panics moves_assert moves_get_fsm moves_get_peer
  moves_get_ctx still_mod_peer : ticks.
Hint Extern 1 (PreOrder _) => apply _ : ticks.

Ltac still_step :=
  lazymatch goal with
  | |- moves _ (_ ≫= _) => apply moves_bind; [apply _| |intros ?]
  | |- moves _ (mod_ctx _) => apply still_mod_ctx; intros ?; repeat case_match; try done
  | |- moves _ (mod_fsm _) => apply still_mod_fsm; intros ?; try done
  | |- moves _ (match ?x with _ => _ end) => destruct x
  | |- moves _ (let '(_, _) := ?x in _) => destruct x
  | |- _ => solve [eauto with ticks]
  end.
Ltac solve_still := repeat still_step.

Lemma still_on_node {A} (f : Node → A * Node) : moves still (on_node f).
Proof. unfold on_node. solve_still. Qed.
Hint Resolve still_on_node : ticks.
Lemma still_send m : moves still (send m).
Proof. unfold send. solve_still. Qed.
Hint Resolve still_send : ticks.
Lemma still_peer_from_cache i : moves still (peer_from_cache i).
Proof. unfold peer_from_cache. solve_still. Qed.
Hint Resolve still_peer_from_cache : ticks.
Lemma still_send_messages msgs : moves still (send_messages msgs).
Proof.
  induction msgs as [|m msgs IH]; cbn [send_messages]; [solve_still|].
  apply moves_bind; [apply _| |done]. unfold send_raft_message. solve_still.
Qed.
Hint Resolve still_send_messages : ticks.
Lemma still_handle_committed_entries es : moves still (handle_committed_entries es).
Proof. unfold handle_committed_entries. solve_still. Qed.
Hint Resolve still_handle_committed_entries : ticks.

Lemma still_propose_raft_command msg cb : moves still (propose_raft_command msg cb).
Proof.
  unfold propose_raft_command, pre_propose_raft_command, execute_status_command,
    execute_region_leader, execute_region_detail, propose, propose_normal, post_propose.
  solve_still.
Qed.
Hint Resolve still_propose_raft_command : ticks.

(** *** Registering *)

Lemma ticks_set_same t b ts : ticks_contains (ticks_set t b ts) t = b.
Proof. by destruct t. Qed.
Lemma ticks_set_other t t' b ts : t ≠ t' → ticks_contains (ticks_set t b ts) t' = ticks_contains ts t'.
Proof. by destruct t, t'. Qed.
Lemma count_snoc t t' l : count t (l ++ [t']) = (count t l + if decide (t = t') then 1 else 0)%nat.
Proof. rewrite count_app. unfold count. rewrite list.filter_cons. by case_decide; subst. Qed.

Lemma schedule_tick_paced t st a st' :
  schedule_tick t st = Returns (a, st') → paced st st' ∧ registered t st' = true.
Proof.
  unfold schedule_tick. intros H. apply poll_bind_Returns in H as (r & st1 & [= <- <-] & H).
  destruct (ticks_contains _ _) eqn:Hr.
  { injection H as <- <-. split; [done|exact Hr]. }
  injection H as <- <-. split; [|apply ticks_set_same].
  intros t'. unfold batched, registered. cbn. rewrite count_snoc.
  destruct (decide (t' = t)) as [->|Hne].
  - rewrite ticks_set_same, Hr. cbn. split; [lia|done].
  - rewrite ticks_set_other by done. split; [lia|done].
Qed.
Lemma paced_schedule_tick t : moves paced (schedule_tick t).
Proof. intros st a st' H. by eapply schedule_tick_paced. Qed.

Ltac paced_step :=
  first [lazymatch goal with |- moves paced (schedule_tick _) => apply paced_schedule_tick end
        |lazymatch goal with |- moves paced (_ ≫= _) => fail | |- moves paced (match _ with _ => _ end) => fail
         | |- moves paced _ => apply moves_paced end; solve [solve_still]
        |still_step].

(** After [m] the tick [t] is registered. *)
Definition registers (t : PeerTick) {A} (m : poll A) : Prop :=
  ∀ st a st', m st = Returns (a, st') → registered t st' = true.

Lemma registers_last t {A B} (m : poll A) (f : A → poll B) :
  (∀ a, registers t (f a)) → registers t (m ≫= f).
Proof. intros Hf st b st' H. apply poll_bind_Returns in H as (a & st1 & _ & H). by eapply Hf. Qed.
Lemma registers_first t {A B} (m : poll A) (f : A → poll B) :
  registers t m → (∀ a, moves paced (f a)) → registers t (m ≫= f).
Proof.
  intros Hm Hf st b st' H. apply poll_bind_Returns in H as (a & st1 & H1 & H2).
  apply Hm in H1. by eapply Hf.
Qed.
Lemma registers_schedule t : registers t (schedule_tick t).
Proof. intros st a st' H. by eapply schedule_tick_paced. Qed.

(** *** Handling *)

Lemma paced_on_raft_base_tick : moves paced on_raft_base_tick ∧ registers RAFT on_raft_base_tick.
Proof.
  unfold on_raft_base_tick, register_raft_base_tick. split; [repeat paced_step|].
  apply registers_last. intros b. apply registers_last. intros _. apply registers_schedule.
Qed.
Lemma paced_on_raft_gc_log_tick limit :
  moves paced (on_raft_gc_log_tick limit) ∧ registers RAFT_LOG_GC (on_raft_gc_log_tick limit).
Proof.
  unfold on_raft_gc_log_tick, register_raft_gc_log_tick. split; [repeat paced_step|].
  apply registers_first; [apply registers_schedule|]. intros _. repeat paced_step.
Qed.
Lemma paced_start : moves paced start ∧ ∀ t, registers t start.
Proof.
  unfold start, register_raft_base_tick, register_raft_gc_log_tick. split; [repeat paced_step|].
  intros [].
  - apply registers_first; [apply registers_schedule|]. intros _. repeat paced_step.
  - apply registers_last. intros _. apply registers_first; [apply registers_schedule|].
    intros _. repeat paced_step.
Qed.

(** A tick that is handled was registered, and is so again, so that the batch has one more. *)
Lemma on_tick_paced limit t st a st' :
  registered t st = true → on_tick limit t st = Returns (a, st') →
  ∀ t', (batched t' st' + Nat.b2n (registered t' st) =
           batched t' st + Nat.b2n (registered t' st') + if decide (t' = t) then 1 else 0)%nat ∧
        (registered t' st = true → registered t' st' = true).
Proof.
  intros Hr H t'. unfold on_tick in H. apply poll_bind_Returns in H as (u & st1 & [= <- <-] & H).
  assert (paced (set_f_tick_registry (ticks_set t false (f_tick_registry st.1)) st.1, st.2) st' ∧
    registered t st' = true) as [Hp Hr'].
  { destruct t; split.
    - by eapply (proj1 paced_on_raft_base_tick).
    - by eapply (proj2 paced_on_raft_base_tick).
    - by eapply (proj1 (paced_on_raft_gc_log_tick limit)).
    - by eapply (proj2 (paced_on_raft_gc_log_tick limit)). }
  destruct (Hp t') as [Hb Hm]. unfold batched, registered in *. cbn in *.
  destruct (decide (t' = t)) as [->|Hne].
  - rewrite ticks_set_same in Hb. rewrite Hr, Hr' in *. cbn in *. split; [lia|done].
  - rewrite ticks_set_other in Hb, Hm by done. split; [lia|done].
Qed.

Lemma still_propose_batch : moves still propose_batch_raft_command.
Proof. unfold propose_batch_raft_command. solve_still. Qed.

Lemma paced_handle_msg limit m : tick_of m = None → moves paced (handle_msg limit m).
Proof.
  destruct m as [msg|cmd|t|res|]; intros Hm; [| |done| |apply paced_start]; apply moves_paced;
    cbn [handle_msg].
  - unfold on_raft_message, step. solve_still.
  - unfold on_raft_command, propose_batch_raft_command. solve_still.
  - unfold on_apply_res, post_apply. apply moves_bind; [apply _| |intros ?; solve_still].
    induction (ares_exec_res res) as [|[state i] rs IH]; cbn [on_ready_result]; [solve_still|].
    apply moves_bind; [apply _| |done]. unfold on_ready_compact_log. solve_still.
Qed.

Lemma handle_msgs_paced limit msgs st a st' :
  (∀ t, t ∈ omap tick_of msgs → registered t st = true) →
  handle_msgs limit msgs st = Returns (a, st') →
  ∀ t, (batched t st' + Nat.b2n (registered t st) =
          batched t st + Nat.b2n (registered t st') + count t (omap tick_of msgs))%nat ∧
       (registered t st = true ∨ existsb is_start msgs = true → registered t st' = true).
Proof.
  revert st. induction msgs as [|m msgs IH]; intros st Hreg H t; cbn [handle_msgs] in H.
  { pose proof (still_paced _ _ (still_propose_batch _ _ _ H)) as Hs.
    destruct (Hs t) as [Hb Hm]. cbn. split; [unfold count; cbn; lia|]. intros [?|?]; [auto|done]. }
  apply poll_bind_Returns in H as (u & st1 & H1 & H2).
  destruct (tick_of m) as [t1|] eqn:Ht.
  - destruct m; cbn in Ht; try done. injection Ht as ->.
    assert (∀ t, t ∈ t1 :: omap tick_of msgs → registered t st = true) as Hreg' by exact Hreg.
    pose proof (on_tick_paced _ _ _ _ _ (Hreg' t1 (list_elem_of_here _ _)) H1) as Hp.
    destruct (Hp t) as [Hb Hm].
    assert (∀ t, t ∈ omap tick_of msgs → registered t st1 = true) as Hreg1.
    { intros t' Ht'. apply Hp, Hreg', list_elem_of_further, Ht'. }
    destruct (IH st1 Hreg1 H2 t) as [Hb' Hm'].
    cbn. change (t1 :: omap tick_of msgs) with ([t1] ++ omap tick_of msgs). rewrite count_app.
    pose proof (count_snoc t t1 []) as Hc. cbn in Hc. rewrite Hc. split; [unfold count in *; cbn in *; lia|].
    intros [?|?]; apply Hm'; [left; auto|by right].
  - assert (omap tick_of (m :: msgs) = omap tick_of msgs) as Ho by (cbn; by rewrite Ht).
    rewrite Ho in *. pose proof (paced_handle_msg limit m Ht _ _ _ H1) as Hp.
    destruct (Hp t) as [Hb Hm].
    assert (∀ t, t ∈ omap tick_of msgs → registered t st1 = true) as Hreg1.
    { intros t' Ht'. by apply Hp, Hreg. }
    destruct (IH st1 Hreg1 H2 t) as [Hb' Hm'].
    split; [lia|]. intros [?|[Hs|?]%orb_true_iff]; apply Hm'; [left; auto| |by right].
    left. destruct m; try done. by eapply (proj2 paced_start).
Qed.

Lemma paced_collect_ready : moves paced collect_ready.
Proof.
  unfold collect_ready, handle_raft_ready_append, on_role_changed, register_raft_gc_log_tick.
  repeat paced_step.
Qed.
Lemma still_poller_handle_raft_ready : moves still poller_handle_raft_ready.
Proof.
  unfold poller_handle_raft_ready. do 3 (apply moves_bind; [apply _| |intros ?]; [solve_still|]).
  match goal with |- moves _ (post_readies ?l) => induction l as [|r l IH] end;
    cbn [post_readies]; [solve_still|].
  apply moves_bind; [apply _| |done].
  unfold post_raft_ready_append, handle_raft_ready_advance. solve_still.
Qed.

(** A turn puts on the timer the ticks that it registered. *)
Lemma poll_peer_paced limit msgs st ticks st' :
  x_ticks st.2 = [] → (∀ t, t ∈ omap tick_of msgs → registered t st = true) →
  poll_peer limit msgs st = Returns (ticks, st') →
  x_ticks st'.2 = [] ∧
  ∀ t, (count t ticks + Nat.b2n (registered t st) =
          Nat.b2n (registered t st') + count t (omap tick_of msgs))%nat ∧
       (registered t st = true ∨ existsb is_start msgs = true → registered t st' = true).
Proof.
  intros Hx Hreg H. unfold poll_peer in H.
  apply poll_bind_Returns in H as (? & st1 & [= _ <-] & H).
  apply poll_bind_Returns in H as (? & st2 & H2 & H).
  apply poll_bind_Returns in H as (? & st3 & H3 & H).
  apply poll_bind_Returns in H as (l & st4 & [= <- <-] & H).
  apply poll_bind_Returns in H as (? & st5 & [= _ <-] & H).
  assert (still (st3.1, set_x_ticks [] st3.2) st' ∧ ticks = x_ticks st3.2) as [Hs ->].
  { apply poll_bind_Returns in H as (b & st6 & [= <- <-] & H).
    apply poll_bind_Returns in H as (? & st7 & H7 & H). injection H as -> <-. split; [|done].
    change (still (st3.1, set_x_ticks [] st3.2) st7). destruct (x_has_ready _).
    - by eapply still_poller_handle_raft_ready.
    - by injection H7 as <- <-. }
  destruct Hs as [Hf Hx']. split; [exact Hx'|]. intros t.
  destruct (handle_msgs_paced limit msgs (st.1, set_x_has_ready false st.2) _ _ Hreg H2 t) as [Hb Hm].
  destruct (paced_collect_ready _ _ _ H3 t) as [Hb' Hm'].
  unfold batched, registered in *. cbn in *. rewrite Hx in Hb. unfold count at 2 in Hb. cbn in Hb.
  rewrite Hf. split; [lia|]. intros Hor. by apply Hm', Hm.
Qed.

(** ** Where a tick is *)

Definition in_flight (t : PeerTick) (s : Clockwork) : nat :=
  count t (omap tick_of (ck_mailbox s)) + count t (ck_timers s ≫= dl_ticks).
Definition times (t : PeerTick) (s : Clockwork) : Z := Z.of_nat (count t (ck_ticked s)).

(** A tick is somewhere exactly if it is registered, and its [n]-th time is at least [n]
    intervals after [t0]. *)
Record clock_inv (t0 : Z) (s : Clockwork) : Prop := {
  ci_batch : x_ticks (ck_ctx s) = [];
  ci_start t : existsb is_start (ck_mailbox s) = true ∨
               registered t (ck_fsm s, ck_ctx s) = true;
  ci_once t : in_flight t s = Nat.b2n (registered t (ck_fsm s, ck_ctx s));
  ci_due d t : d ∈ ck_timers s → t ∈ dl_ticks d →
    t0 + wait_duration t * (times t s + 1) ≤ dl_deadline d ≤ ck_now s + wait_duration t;
  ci_arrived t : t ∈ omap tick_of (ck_mailbox s) → t0 + wait_duration t * (times t s + 1) ≤ ck_now s;
  ci_pace t : t0 + wait_duration t * times t s ≤ ck_now s;
  ci_known t : 0 < times t s → registered t (ck_fsm s, ck_ctx s) = true }.

Local Arguments flush_ticks : simpl never.

Lemma elem_count t l : t ∈ l ↔ (0 < count t l)%nat.
Proof.
  unfold count.
  destruct (filter (t =.) l) as [|x f] eqn:Hf; cbn; split; try lia.
  - intros Hin. assert (t ∈ filter (t =.) l) as H by by apply list_elem_of_filter.
    rewrite Hf in H. by apply not_elem_of_nil in H.
  - intros _. assert (x ∈ filter (t =.) l) as [-> ?]%list_elem_of_filter; [|done].
    rewrite Hf. apply list_elem_of_here.
Qed.
Lemma wait_positive t : 0 < wait_duration t.
Proof. by destruct t. Qed.

Lemma count_filter t t' l : count t (filter (t' =.) l) = if decide (t = t') then count t l else 0%nat.
Proof.
  induction l as [|x l IH]; [by case_decide|]. unfold count in *.
  rewrite !list.filter_cons. repeat case_decide; rewrite ?list.filter_cons; repeat case_decide;
    cbn; congruence.
Qed.

Lemma flush_ticks_count now ticks t : count t (flush_ticks now ticks ≫= dl_ticks) = count t ticks.
Proof.
  assert (flush_ticks now ticks ≫= dl_ticks = filter (RAFT =.) ticks ++ filter (RAFT_LOG_GC =.) ticks) as ->.
  { unfold flush_ticks. cbn. destruct (filter (RAFT =.) ticks), (filter (RAFT_LOG_GC =.) ticks);
      cbn; by rewrite ?app_nil_r. }
  rewrite count_app, !count_filter. by destruct t; rewrite ?decide_True, ?decide_False by done.
Qed.
Lemma flush_ticks_elem now ticks d t :
  d ∈ flush_ticks now ticks → t ∈ dl_ticks d → dl_deadline d = now + wait_duration t ∧ t ∈ ticks.
Proof.
  unfold flush_ticks. intros (t' & _ & Hd)%list_elem_of_omap Ht.
  destruct (filter (t' =.) ticks) as [|x f] eqn:Hf; [done|]. injection Hd as <-. cbn in *.
  rewrite <-Hf in Ht. apply list_elem_of_filter in Ht as [-> Ht]. done.
Qed.

(** *** Every step keeps the invariant *)

(** The ticks of a turn: each was registered, came once, in time, and is nowhere else. *)
Lemma taken_ticks t0 fsm x msgs rest timers now ticked t :
  clock_inv t0 (mkClock fsm x (msgs ++ rest) timers now ticked) →
  (count t (omap tick_of msgs) + count t (omap tick_of rest) + count t (timers ≫= dl_ticks) =
     Nat.b2n (registered t (fsm, x)))%nat ∧
  (t ∈ omap tick_of msgs →
     registered t (fsm, x) = true ∧ count t (omap tick_of msgs) = 1%nat ∧
     t0 + wait_duration t * (Z.of_nat (count t ticked) + 1) ≤ now).
Proof.
  intros [_ _ Ho _ Ha _ _]. specialize (Ho t). specialize (Ha t). unfold in_flight, times in *.
  cbn in *. rewrite omap_app, count_app in Ho. rewrite omap_app, elem_of_app in Ha. split; [lia|].
  intros Hin. split_and!; [| |by apply Ha; left]; apply elem_count in Hin;
    destruct (registered t (fsm, x)); cbn in Ho; lia || done.
Qed.

Lemma inv_turn limit t0 fsm x msgs rest timers now ticked ticks fsm' x' :
  poll_peer limit msgs (fsm, x) = Returns (ticks, (fsm', x')) →
  clock_inv t0 (mkClock fsm x (msgs ++ rest) timers now ticked) →
  clock_inv t0 (mkClock fsm' x' rest (timers ++ flush_ticks now ticks) now
                  (ticked ++ omap tick_of msgs)).
Proof.
  intros Hpoll Hinv. pose proof (λ t, taken_ticks _ _ _ _ _ _ _ _ t Hinv) as Htaken.
  destruct Hinv as [Hb Hs _ Hd Ha Hp Hk]. unfold times in *. cbn in *.
  destruct (poll_peer_paced limit msgs (fsm, x) ticks (fsm', x') Hb) as [Hx Hpace]; [|done|].
  { intros t Ht. by apply Htaken. }
  assert (∀ t, (count t (omap tick_of rest) > 0 ∨ count t (timers ≫= dl_ticks) > 0)%nat →
    count t (omap tick_of msgs) = 0%nat) as Hzero.
  { intros t Ht. destruct (Htaken t) as [Ho _]. destruct (registered t (fsm, x)); cbn in Ho; lia. }
  split; unfold in_flight, times; cbn; [done|..].
  - intros t. destruct (Hpace t) as [_ Hm]. rewrite existsb_app in Hs.
    destruct (Hs t) as [[?|?]%orb_true_iff|?]; auto.
  - intros t. destruct (Hpace t) as [Hc _], (Htaken t) as [Ho _].
    rewrite bind_app, count_app, flush_ticks_count. lia.
  - intros d t [Hin|Hin]%elem_of_app Ht; rewrite count_app.
    + rewrite (Hzero t), Nat.add_0_r; [by apply Hd|]. right. apply elem_count, list_elem_of_bind. eauto.
    + destruct (flush_ticks_elem _ _ _ _ Hin Ht) as [-> Hticks%elem_count]. split; [|lia].
      destruct (Hpace t) as [Hc _], (Htaken t) as [Ho Hm]. specialize (Hp t). specialize (Hk t).
      destruct (decide (t ∈ omap tick_of msgs)) as [(_ & -> & Hle)%Hm|Hn]; [lia|].
      rewrite elem_count in Hn. replace (count t (omap tick_of msgs)) with 0%nat in * by lia.
      destruct (registered t (fsm, x)), (registered t (fsm', x')); cbn in Hc; lia.
  - intros t Ht. rewrite count_app, (Hzero t), Nat.add_0_r; [|left; by apply elem_count].
    apply Ha. rewrite omap_app, elem_of_app. by right.
  - intros t. rewrite count_app. destruct (Htaken t) as [_ Hm]. specialize (Hp t).
    destruct (decide (t ∈ omap tick_of msgs)) as [(_ & -> & Hle)%Hm|Hn]; [lia|].
    rewrite elem_count in Hn. by replace (count t (omap tick_of msgs)) with 0%nat by lia; rewrite Nat.add_0_r.
  - intros t. rewrite count_app. intros Hlt. destruct (Hpace t) as [_ Hm]. apply Hm. left.
    destruct (decide (t ∈ omap tick_of msgs)) as [Hin|Hin]; [by apply Htaken|].
    apply Hk. rewrite elem_count in Hin. lia.
Qed.

Lemma inv_fire t0 fsm x mailbox before d after now ticked :
  dl_deadline d ≤ now →
  clock_inv t0 (mkClock fsm x mailbox (before ++ d :: after) now ticked) →
  clock_inv t0 (mkClock fsm x (mailbox ++ (PeerMsg_Tick <$> dl_ticks d)) (before ++ after) now ticked).
Proof.
  intros Hdue [Hb Hs Ho Hd Ha Hp Hk]. unfold in_flight, times in *. cbn in *.
  assert (omap tick_of (PeerMsg_Tick <$> dl_ticks d) = dl_ticks d) as Ht.
  { induction (dl_ticks d) as [|t l IH]; [done|]. cbn. by rewrite IH. }
  split; unfold in_flight, times; cbn; [done|..]; try done.
  - intros t. rewrite existsb_app. destruct (Hs t) as [->|?]; [by left|by right].
  - intros t. specialize (Ho t). rewrite bind_app, bind_cons, !count_app in Ho.
    rewrite omap_app, Ht, bind_app, !count_app. lia.
  - intros d' t Hin. apply Hd. apply elem_of_app in Hin as [?|?]; apply elem_of_app; [by left|right].
    by apply list_elem_of_further.
  - intros t. rewrite omap_app, Ht, elem_of_app. intros [?|Hin]; [by apply Ha|].
    assert (d ∈ before ++ d :: after) as Hd' by (apply elem_of_app; right; apply list_elem_of_here).
    destruct (Hd d t Hd' Hin). lia.
Qed.

Lemma clock_step_inv limit t0 s s' : clock_step limit s s' → clock_inv t0 s → clock_inv t0 s'.
Proof.
  intros [fsm x mailbox timers now ticked msgs rest ticks fsm' x' Htake Hpoll
    |?????????|fsm x mailbox timers now ticked m Hm Hst|?????? now' Hle|fsm x mailbox timers now ticked x' (_ & _ & Hx)].
  - intros Hinv. eapply inv_turn; [done|]. injection Htake as <- <-. by rewrite take_drop.
  - by apply inv_fire.
  - intros [Hb Hs Ho Hd Ha Hp Hk]. unfold in_flight, times in *. cbn in *.
    assert (omap tick_of (mailbox ++ [m]) = omap tick_of mailbox) as Hom.
    { rewrite omap_app. cbn. by rewrite Hm, app_nil_r. }
    split; unfold in_flight, times; cbn; rewrite ?Hom; try done.
    intros t. rewrite existsb_app. destruct (Hs t) as [->|?]; [by left|by right].
  - intros [Hb Hs Ho Hd Ha Hp Hk]. cbn in *. split; unfold times in *; cbn; try done.
    + intros d t H1 H2. destruct (Hd d t H1 H2). split; [done|lia].
    + intros t Ht. etrans; [by apply Ha|done].
    + intros t. etrans; [apply Hp|done].
  - intros [Hb Hs Ho Hd Ha Hp Hk]. cbn in *. split; cbn; try done. congruence.
Qed.

(** C24. The clock of a store neither stops nor races: once the peer has started, in every
    interleaving of its turns with the timer, with arriving messages and with the other
    threads, the raft tick and the log collection tick are each on their way exactly
    once, in the mailbox or on the timer and then due within one interval; and by any
    time a tick was handled at most once per interval since the start. *)
Theorem ticks_keep_coming limit t0 s0 s :
  clock_starts t0 s0 → rtc (clock_step limit) s0 s → existsb is_start (ck_mailbox s) = false →
  ∀ t, in_flight t s = 1%nat ∧
    (∀ d, d ∈ ck_timers s → t ∈ dl_ticks d → dl_deadline d ≤ ck_now s + wait_duration t) ∧
    t0 + wait_duration t * times t s ≤ ck_now s.
Proof.
  intros (Hf & Hx & Hm & Ht & Hn & Hk) Hsteps Hstart.
  assert (clock_inv t0 s0) as H0.
  { destruct s0 as [fsm x mailbox timers now ticked]; cbn in *. subst.
    split; unfold in_flight, times, registered; cbn; rewrite ?Hf; try done.
    - by left.
    - by intros [].
    - by intros d t Hd%not_elem_of_nil.
    - by intros t Hd%not_elem_of_nil.
    - intros t. unfold count. cbn. lia. }
  assert (clock_inv t0 s) as [_ Hs Ho Hd _ Hp _].
  { clear -Hsteps H0. induction Hsteps; eauto using clock_step_inv. }
  intros t. destruct (Hs t) as [Hs'|Hr]; [congruence|]. split_and!; [|by intros d ??; apply Hd|apply Hp].
  by rewrite Ho, Hr.
Qed.
End clock.

(** ** A concrete clock *)

Module clock_demo.
Definition s0 : Clockwork :=
  mkClock peer_demo.fsm peer_demo.ctx [PeerMsg_Start] [] 0 [].
Lemma demo_starts : clock_starts 0 s0.
Proof. repeat split. Qed.
Definition turn (limit : Z) (s : Clockwork) : option Clockwork :=
  let '(msgs, rest) := take_msgs (ck_mailbox s) in
  match poll_peer limit msgs (ck_fsm s, ck_ctx s) with
  | Returns (ticks, (fsm, x)) =>
      Some (mkClock fsm x rest (ck_timers s ++ flush_ticks (ck_now s) ticks) (ck_now s)
              (ck_ticked s ++ omap tick_of msgs))
  | Panics => None
  end.
Lemma turn_step limit s s' : turn limit s = Some s' → clock_step limit s s'.
Proof.
  unfold turn. intros H. destruct s as [fsm x mailbox timers now ticked]. cbn in H.
  destruct (poll_peer _ _ _) as [[ticks [fsm' x']]|] eqn:Hp; [|done]. injection H as <-.
  by eapply step_turn.
Qed.

(** The peer starts, waits for its first tick and handles it. *)
Definition later (now : Z) (s : Clockwork) : Clockwork :=
  mkClock (ck_fsm s) (ck_ctx s) (ck_mailbox s) (ck_timers s) now (ck_ticked s).
Definition fired (s : Clockwork) : Clockwork :=
  match ck_timers s with
  | d :: timers => mkClock (ck_fsm s) (ck_ctx s) (ck_mailbox s ++ (PeerMsg_Tick <$> dl_ticks d)) timers
                     (ck_now s) (ck_ticked s)
  | [] => s
  end.
Definition run_demo : option Clockwork :=
  s1 ← turn 1000 s0; turn 1000 (fired (later 230 s1)).
Lemma run_demo_ticked :
  (λ s, (ck_ticked s, dl_deadline <$> ck_timers s, existsb is_start (ck_mailbox s))) <$> run_demo
  = Some ([RAFT], [10000; 430], false).
Proof. vm_compute. reflexivity. Qed.
Lemma run_demo_steps s : run_demo = Some s → rtc (clock_step 1000) s0 s.
Proof.
  unfold run_demo. intros (s1 & H1 & H2)%bind_Some. eapply rtc_l; [by apply turn_step|].
  assert (ck_now s1 = 0 ∧ ∃ d timers, ck_timers s1 = d :: timers ∧ dl_deadline d = 200) as (Hn & d & timers & Ht & Hd).
  { assert ((λ s, (ck_now s, dl_deadline <$> ck_timers s)) <$> turn 1000 s0 = Some (0, [200; 10000])) as H
      by (vm_compute; reflexivity).
    rewrite H1 in H. cbn in H. injection H as Hn Ht. split; [done|].
    destruct (ck_timers s1) as [|d timers]; [done|]. injection Ht as Hd _. eauto. }
  apply (rtc_l _ _ (later 230 s1)); [destruct s1; apply (step_passes 1000 _ _ _ _ _ _ 230); cbn in Hn; lia|].
  eapply rtc_l; [|eapply rtc_once, turn_step, H2].
  unfold fired, later. cbn. rewrite Ht.
  apply (step_fire 1000 _ _ _ [] d timers). cbn. lia.
Qed.
End clock_demo.

Lemma ticks_keep_coming_witness :
  ∃ s, rtc (clock_step 1000) clock_demo.s0 s ∧ ck_ticked s = [RAFT] ∧ in_flight RAFT s = 1%nat.
Proof.
  pose proof clock_demo.run_demo_ticked as Hd. pose proof clock_demo.run_demo_steps as Hsteps.
  destruct clock_demo.run_demo as [s|]; [|discriminate Hd]. injection Hd as Ht _ Hs.
  exists s. split; [by apply Hsteps|]. split; [exact Ht|].
  apply (ticks_keep_coming 1000 0 clock_demo.s0 s clock_demo.demo_starts (Hsteps s eq_refl) Hs RAFT).
Defined.
