(* ===== verification/Internal.v ===== *)
(** * internal.rs

    Commands (what the raft log carries) and events (what the wallet produces). *)

From S2P Require Import Prelude Proto Errors.
Local Open Scope Z_scope.

(** ** Commands *)

(** [Command] wraps a [CommandPb]; [payload()] panics when the request is unset. *)
Definition command_payload (c : CommandPb) : run CommandPayload_oneof_request :=
  unwrap (request (get_or_default (cmd_payload c))).

Definition command_header (c : CommandPb) : CommandHeader := get_or_default (cmd_header c).

Definition command_command_id (c : CommandPb) : string := command_id (command_header c).

Inductive CommandPayload :=
| PTransferRequest (r : TransferRequest)
| PReserveRequest (r : ReserveRequest)
| PReleaseRequest (r : ReleaseRequest)
| PBatchBalanceOperationRequest (r : BatchBalanceOperationRequest)
| PCreateAccountRequest (r : CreateAccountRequest)
| PDeleteAccountRequest (r : DeleteAccountRequest)
| PLockAccountRequest (r : LockAccountRequest)
| PUnlockAccountRequest (r : UnlockAccountRequest)
| PUpdateAccountConfigRequest (r : UpdateAccountConfigRequest).

(** [CommandPayload::command_id]: the request's deduplication id. *)
Definition payload_command_id (p : CommandPayload) : string :=
  match p with
  | PTransferRequest r => transfer_dedup_id r
  | PReserveRequest r => reserve_dedup_id r
  | PReleaseRequest r => release_dedup_id r
  | PBatchBalanceOperationRequest r => batch_dedup_id r
  | PCreateAccountRequest r => req_dedup_id (get_or_default (create_header r))
  | PDeleteAccountRequest r => req_dedup_id (get_or_default (delete_header r))
  | PLockAccountRequest r => req_dedup_id (get_or_default (lock_header r))
  | PUnlockAccountRequest r => req_dedup_id (get_or_default (unlock_header r))
  | PUpdateAccountConfigRequest r => req_dedup_id (get_or_default (update_header r))
  end.

Definition into_payload (p : CommandPayload) : CommandPayloadPb :=
  {| request := Some
       match p with
       | PTransferRequest r => transfer_request r
       | PReserveRequest r => reserve_request r
       | PReleaseRequest r => release_request r
       | PBatchBalanceOperationRequest r => batch_balance_operation_request r
       | PCreateAccountRequest r => create_account_request r
       | PDeleteAccountRequest r => delete_account_request r
       | PLockAccountRequest r => lock_account_request r
       | PUnlockAccountRequest r => unlock_account_request r
       | PUpdateAccountConfigRequest r => update_account_config_request r
       end |}.

(** [now_sec] is [SystemTime::now()] in seconds since the epoch. *)
Definition build_header (id : string) (now_sec : Z) : CommandHeader :=
  {| command_id := id; process_time_in_sec := now_sec |}.

Definition from_payload (p : CommandPayload) (now_sec : Z) : CommandPb :=
  {| cmd_header := Some (build_header (payload_command_id p) now_sec);
     cmd_payload := Some (into_payload p) |}.

(** ** Events *)

Definition event_set_header (h : CommandHeader) (log_index offset seq_num : Z) (e : EventPb) :
    EventPb :=
  {| ev_header := Some {| eh_seq_num := seq_num; eh_log_index := log_index;
                          eh_offset := offset; eh_command_id := command_id h;
                          eh_process_time_in_sec := process_time_in_sec h |};
     ev_payload := ev_payload e |}.

Definition event_header (e : EventPb) : EventHeader := get_or_default (ev_header e).

Definition build_response_header (seq_num log_index offset : Z) : ResponseHeader :=
  {| rsp_seq_num := seq_num; rsp_log_index := log_index; rsp_offset := offset |}.

(** An event with its payload set and no header yet. *)
Definition event_of_payload (p : EventPayload_oneof_event) : EventPb :=
  {| ev_header := None; ev_payload := Some {| event := Some p |} |}.

Definition build_transfer_event (seq_num log_index offset : Z) (r : TransferRequest)
    (from to : BalanceChange) : EventPb :=
  event_of_payload (transfer_event {| response := Some
    {| tr_error := None; tr_header := Some (build_response_header seq_num log_index offset);
       tr_request := Some r; tr_from := Some from; tr_to := Some to |} |}).

Definition build_batch_event (seq_num log_index offset : Z)
    (r : BatchBalanceOperationRequest) (changes : list BalanceChange) : EventPb :=
  event_of_payload (batch_balance_operation_event {| response := Some
    {| bb_error := None; bb_header := Some (build_response_header seq_num log_index offset);
       bb_request := Some r; balance_changes := changes |} |}).

Definition build_reserve_event (seq_num log_index offset : Z) (r : ReserveRequest)
    (prev_balance curr_balance : BalancePb) : EventPb :=
  event_of_payload (reserve_event {| response := Some
    {| br_error := None; br_header := Some (build_response_header seq_num log_index offset);
       br_request := Some r; br_prev_balance := Some prev_balance;
       br_curr_balance := Some curr_balance |} |}).

Definition build_release_event (seq_num log_index offset : Z) (r : ReleaseRequest)
    (prev_balance curr_balance : BalancePb) : EventPb :=
  event_of_payload (release_event {| response := Some
    {| br_error := None; br_header := Some (build_response_header seq_num log_index offset);
       br_request := Some r; br_prev_balance := Some prev_balance;
       br_curr_balance := Some curr_balance |} |}).

Definition build_create_event (seq_num log_index offset : Z) (r : CreateAccountRequest)
    (account : AccountPb) : EventPb :=
  event_of_payload (account_created_event {| response := Some
    {| ar_error := None; ar_header := Some (build_response_header seq_num log_index offset);
       ar_request := Some r; ar_account := Some account |} |}).

Definition build_lock_event (seq_num log_index offset : Z) (r : LockAccountRequest)
    (account : AccountPb) : EventPb :=
  event_of_payload (account_locked_event {| response := Some
    {| ar_error := None; ar_header := Some (build_response_header seq_num log_index offset);
       ar_request := Some r; ar_account := Some account |} |}).

Definition build_unlock_event (seq_num log_index offset : Z) (r : UnlockAccountRequest)
    (account : AccountPb) : EventPb :=
  event_of_payload (account_unlock_event {| response := Some
    {| ar_error := None; ar_header := Some (build_response_header seq_num log_index offset);
       ar_request := Some r; ar_account := Some account |} |}).

Definition build_delete_event (seq_num log_index offset : Z) (r : DeleteAccountRequest)
    (account : AccountPb) : EventPb :=
  event_of_payload (account_deleted_event {| response := Some
    {| ar_error := None; ar_header := Some (build_response_header seq_num log_index offset);
       ar_request := Some r; ar_account := Some account |} |}).

Definition build_update_config_event (seq_num log_index offset : Z)
    (r : UpdateAccountConfigRequest) (account : AccountPb) : EventPb :=
  event_of_payload (account_config_update_event {| response := Some
    {| ar_error := None; ar_header := Some (build_response_header seq_num log_index offset);
       ar_request := Some r; ar_account := Some account |} |}).

(** ** Matching a duplicate command with its event *)

Definition same_type (c : CommandPayload_oneof_request) (e : EventPayload_oneof_event) : bool :=
  match c, e with
  | transfer_request _, transfer_event _
  | batch_balance_operation_request _, batch_balance_operation_event _
  | reserve_request _, reserve_event _
  | release_request _, release_event _
  | create_account_request _, account_created_event _
  | lock_account_request _, account_locked_event _
  | unlock_account_request _, account_unlock_event _
  | delete_account_request _, account_deleted_event _
  | update_account_config_request _, account_config_update_event _ => true
  | _, _ => false
  end.

Definition assert_command_and_event_match {BD : BigDecimal} (c : CommandPb) (e : EventPb) :
    run (GeneralResult EventPb) :=
  command_type ← command_payload c;
  event_type ← unwrap (event (get_or_default (ev_payload e)));
  Returns (if same_type command_type event_type then Ok e
           else Err (ECommon (ConflictDedupId (command_command_id c)))).
