(* ===== verification/RocksDBState.v ===== *)
(** * rocksdb_state.rs

    What the wallet keeps in RocksDB, and how it is read back: the accounts
    under data keys, the events under event keys, the sequence number of each
    command id under dedup keys, and three counters. *)

From S2P Require Import Prelude Bytes Keys Proto RocksEngine.
Local Open Scope Z_scope.

Record HardStateKind := { default_value : Z; key : string }.

Definition APPLIED_INDEX : HardStateKind := {| default_value := 5; key := "applied_index" |}.
Definition PERSISTED_LAST_SEQ_NUM : HardStateKind :=
  {| default_value := 0; key := "last_seq_num" |}.
Definition PERSISTED_FIRST_SEQ_NUM : HardStateKind :=
  {| default_value := 0; key := "first_seq_num" |}.

(** [SequenceNumber] wraps a [u64]. *)
Definition seq_to_bytes (seq_num : Z) : bytes := write_u64 seq_num.
Definition seq_from_bytes (bs : bytes) : run Z :=
  rust_assert (length bs =? 8)%nat (read_u64 bs).

Lemma seq_from_write n : is_u64 n → seq_from_bytes (write_u64 n) = Returns n.
Proof.
  intros Hn. unfold seq_from_bytes. rewrite length_write_u64. by apply read_write_u64.
Qed.

Section state.
Context {R : RocksDB} `{!ProtoMessage AccountPb, !ProtoMessage EventPb}.

Definition read_hard_state_from_db (d : DB) (kind : HardStateKind) : run Z :=
  match get_value d (as_bytes (key kind)) with
  | Some bs => read_u64 bs
  | None => Returns (default_value kind)
  end.

Definition read_event_from_db (d : DB) (seq_num : Z) : run (option EventPb) :=
  get_msg d (event_key (seq_to_bytes seq_num)).

Definition read_seq_num_from_db (d : DB) (command_id : string) : run (option Z) :=
  match get_value d (dedup_key (as_bytes command_id)) with
  | Some bs => n ← seq_from_bytes bs; Returns (Some n)
  | None => Returns None
  end.

(** The callback of the scan over the data keys. *)
Definition read_account (accounts : gmap string AccountPb) (k value : bytes) :
    run (result EngineError (gmap string AccountPb * bool)) :=
  origin ← origin_data_key k;
  account_id ← unwrap (from_utf8 origin);
  account ← unwrap (parse_from_bytes value);
  Returns (Ok (<[account_id:=account]> accounts, true)).

Definition read_accounts_from_db (d : DB) : run (gmap string AccountPb) :=
  r ← scan d DATA_MIN_KEY DATA_MAX_KEY read_account ∅;
  unwrap_ok r.
End state.
