(* ===== verification/MessageBroker.v ===== *)
(** * message_broker.rs and utils.rs

    The broker that joins the requests waiting in the gRPC threads with the
    events the state machine produces, by their position in the raft log. *)

From S2P Require Import Prelude Proto Errors RefDecimal.
Local Open Scope Z_scope.

(** ** Positions, ordered by log index and then offset *)

Record Position := { log_index : Z; offset : Z }.

Global Instance Position_eq_dec : EqDecision Position.
Proof. solve_decision. Defined.
Global Instance Position_countable : Countable Position :=
  inj_countable' (λ p, (log_index p, offset p))
    (λ '(l, o), {| log_index := l; offset := o |}) ltac:(by intros []).

(** [#[derive(PartialOrd)]]: lexicographic. *)
Definition pos_le (p q : Position) : Prop :=
  log_index p < log_index q ∨ log_index p = log_index q ∧ offset p ≤ offset q.
Global Instance pos_le_dec : RelDecision pos_le.
Proof. intros p q. unfold pos_le. apply _. Defined.
Global Instance pos_le_total : TotalOrder pos_le.
Proof.
  split; [split; [split|]|].
  - intros p. right. lia.
  - intros p q r. unfold pos_le. lia.
  - intros [l o] [l' o']. unfold pos_le. cbn. intros. f_equal; lia.
  - intros p q. unfold trichotomy, strict, pos_le. destruct p as [l o], q as [l' o']. cbn.
    destruct (Z.lt_trichotomy l l') as [?|[->|?]]; [left; lia| |right; right; lia].
    destruct (Z.lt_trichotomy o o') as [?|[->|?]];
      [left; lia|by right; left|right; right; lia].
Qed.

(** ** [BTreeMap<Position, _>]: a map with a least key *)
Section btree.
Context {A : Type}.
Implicit Types m : gmap Position A.

Definition least (x : Position * A) (acc : option (Position * A)) : option (Position * A) :=
  match acc with
  | Some y => if decide (pos_le x.1 y.1) then Some x else Some y
  | None => Some x
  end.
Definition first_key_value m : option (Position * A) := foldr least None (map_to_list m).
Definition pop_first m : option (Position * A) * gmap Position A :=
  match first_key_value m with
  | Some (k, v) => (Some (k, v), delete k m)
  | None => (None, m)
  end.

Lemma foldr_least l :
  match foldr least None l with
  | Some x => x ∈ l ∧ ∀ y, y ∈ l → pos_le x.1 y.1
  | None => l = []
  end.
Proof.
  induction l as [|x l IH]; [done|]. cbn. destruct (foldr least None l) as [y|]; cbn.
  - destruct IH as [Hy Hle]. destruct (decide (pos_le x.1 y.1)) as [Hxy|Hxy].
    + split; [left|]. intros z [->|Hz]%elem_of_cons; [done|]. etrans; [done|by apply Hle].
    + split; [by right|]. intros z [->|Hz]%elem_of_cons; [|by apply Hle].
      destruct (total pos_le x.1 y.1); done.
  - subst. split; [left|]. intros z [->|[]%not_elem_of_nil]%elem_of_cons. done.
Qed.

Lemma first_key_value_spec m k v :
  first_key_value m = Some (k, v) → m !! k = Some v ∧ ∀ k', is_Some (m !! k') → pos_le k k'.
Proof.
  intros H. pose proof (foldr_least (map_to_list m)) as Hl. unfold first_key_value in H.
  rewrite H in Hl. destruct Hl as [Hin Hle]. apply elem_of_map_to_list in Hin.
  split; [done|]. intros k' [v' Hk']. apply (Hle (k', v')). by apply elem_of_map_to_list.
Qed.

Lemma first_key_value_None m : first_key_value m = None ↔ m = ∅.
Proof.
  split.
  - intros H. pose proof (foldr_least (map_to_list m)) as Hl. unfold first_key_value in H.
    rewrite H in Hl. by apply map_to_list_empty_iff.
  - intros ->. done.
Qed.
End btree.

(** ** Channels *)

(** The receiving end of an [mpsc] channel: what is queued, and whether a sender
    is left. *)
Record Receiver (T : Type) := { rx_queue : list T; rx_connected : bool }.
Global Arguments Build_Receiver {T}.
Global Arguments rx_queue {T}.
Global Arguments rx_connected {T}.

(** [utils::batch_recv]; [unreachable!()] on a disconnected channel. *)
Fixpoint batch_recv {T} (max_count : nat) (rx : Receiver T) : run (list T * Receiver T) :=
  match max_count with
  | O => Returns ([], rx)
  | S max_count =>
      match rx_queue rx with
      | entry :: queue =>
          '(buffer, rx) ← batch_recv max_count
                            {| rx_queue := queue; rx_connected := rx_connected rx |};
          Returns (entry :: buffer, rx)
      | [] => if rx_connected rx then Returns ([], rx) else Panics
      end
  end.

Lemma batch_recv_spec {T} n (rx : Receiver T) :
  rx_connected rx = true →
  batch_recv n rx = Returns (take n (rx_queue rx),
                             {| rx_queue := drop n (rx_queue rx); rx_connected := true |}).
Proof.
  revert rx. induction n as [|n IH]; intros [q b] Hb; cbn in *; subst; [done|].
  destruct q as [|x q]; cbn; [done|]. by rewrite IH.
Qed.

Section broker.
Context {BD : BigDecimal}.

Record InflightEvent := {
  ie_position : Position; ie_event : GeneralResult EventPb }.

(** A [oneshot::Sender] is an identifier of the channel; it can be used once. *)
Record InflightRequest := {
  ir_position : Position; ir_resp_to : Z; ir_send_time : Z }.

(** [sent] is what was sent on the oneshot channels, oldest first.  Whether the
    receiver still listens makes no difference to the broker. *)
Record MessageBroker := {
  inflight_requests : gmap Position (Z * Z);
  inflight_events : gmap Position InflightEvent;
  sent : list (Z * InflightEvent) }.

Definition broker_new : MessageBroker :=
  {| inflight_requests := ∅; inflight_events := ∅; sent := [] |}.

Definition register_inflight_event (e : InflightEvent) (b : MessageBroker) : MessageBroker :=
  {| inflight_requests := inflight_requests b;
     inflight_events := <[ie_position e:=e]> (inflight_events b); sent := sent b |}.

Definition register_inflight_request (r : InflightRequest) (b : MessageBroker) :
    MessageBroker :=
  {| inflight_requests :=
       <[ir_position r:=(ir_send_time r, ir_resp_to r)]> (inflight_requests b);
     inflight_events := inflight_events b; sent := sent b |}.

Definition send_to (resp_to : Z) (e : InflightEvent) (b : MessageBroker) : MessageBroker :=
  {| inflight_requests := inflight_requests b; inflight_events := inflight_events b;
     sent := sent b ++ [(resp_to, e)] |}.

(** *** Step 1 of the loop, for one request *)
Definition join_request (b : MessageBroker) (r : InflightRequest) : MessageBroker :=
  match inflight_events b !! ir_position r with
  | Some e =>
      send_to (ir_resp_to r) e
        {| inflight_requests := inflight_requests b;
           inflight_events := delete (ir_position r) (inflight_events b); sent := sent b |}
  | None => register_inflight_request r b
  end.

(** *** Step 2 of the loop, for one event *)
Definition join_event (b : MessageBroker) (e : InflightEvent) : MessageBroker :=
  match inflight_requests b !! ie_position e with
  | Some (_, sender) =>
      send_to sender e
        {| inflight_requests := delete (ie_position e) (inflight_requests b);
           inflight_events := inflight_events b; sent := sent b |}
  | None => register_inflight_event e b
  end.

(** *** Step 3; every turn removes an entry, so as many turns as entries are enough *)
Definition event_gc_limit : Z := 10000.

Fixpoint gc_events_loop (fuel : nat) (m : gmap Position InflightEvent) :
    gmap Position InflightEvent :=
  match fuel with
  | O => m
  | S fuel => if event_gc_limit <? Z.of_nat (size m) then gc_events_loop fuel (pop_first m).2
              else m
  end.

Definition gc_inflight_events (b : MessageBroker) : MessageBroker :=
  {| inflight_requests := inflight_requests b;
     inflight_events := gc_events_loop (size (inflight_events b)) (inflight_events b);
     sent := sent b |}.

(** *** Step 4; likewise *)
Definition max_timeout_ms : Z := 1000.

Definition timeout_event (p : Position) : InflightEvent :=
  {| ie_position := p; ie_event := Err (ECommon Timeout) |}.

Fixpoint gc_requests_loop (fuel : nat) (now : Z) (b : MessageBroker) : MessageBroker :=
  match fuel with
  | O => b
  | S fuel =>
      match pop_first (inflight_requests b) with
      | (Some (position, (send_time, sender)), rest) =>
          if now - send_time <? max_timeout_ms then b
          else gc_requests_loop fuel now
                 (send_to sender (timeout_event position)
                    {| inflight_requests := rest; inflight_events := inflight_events b;
                       sent := sent b |})
      | (None, _) => b
      end
  end.

Definition gc_inflight_requests (now : Z) (b : MessageBroker) : MessageBroker :=
  gc_requests_loop (size (inflight_requests b)) now b.

(** *** One turn of [run] *)
Definition broker_iter (now : Z) (request_rx : Receiver InflightRequest)
    (event_rx : Receiver InflightEvent) (b : MessageBroker) :
    run (MessageBroker * Receiver InflightRequest * Receiver InflightEvent) :=
  '(requests, request_rx) ← batch_recv 1000 request_rx;
  let b := foldl join_request b requests in
  '(events, event_rx) ← batch_recv 1000 event_rx;
  let b := foldl join_event b events in
  let b := gc_inflight_events b in
  let b := gc_inflight_requests now b in
  Returns (b, request_rx, event_rx).
End broker.

(** ** Correctness of the join *)
Section join.
Context {BD : BigDecimal}.

(** What the broker does, in the order in which it does it. *)
Inductive broker_action :=
| ARequest (r : InflightRequest)
| AEvent (e : InflightEvent)
| AGcEvents
| AGcRequests (now : Z).

Definition broker_act (b : MessageBroker) (a : broker_action) : MessageBroker :=
  match a with
  | ARequest r => join_request b r
  | AEvent e => join_event b e
  | AGcEvents => gc_inflight_events b
  | AGcRequests now => gc_inflight_requests now b
  end.
Definition broker_run : list broker_action → MessageBroker := foldl broker_act broker_new.

Definition requests_of (acts : list broker_action) : list InflightRequest :=
  omap (λ a, match a with ARequest r => Some r | _ => None end) acts.
Definition events_of (acts : list broker_action) : list InflightEvent :=
  omap (λ a, match a with AEvent e => Some e | _ => None end) acts.

(** No two requests, and no two events, at the same position. *)
Definition unique_positions (acts : list broker_action) : Prop :=
  NoDup (ir_position <$> requests_of acts) ∧ NoDup (ie_position <$> events_of acts).

(** The senders that still wait for an event. *)
Definition waiting (m : gmap Position (Z * Z)) : list Z := (map_to_list m).*2.*2.

Record broker_inv (acts : list broker_action) (b : MessageBroker) : Prop := {
  bi_requests p t s : inflight_requests b !! p = Some (t, s) →
    ∃ r, r ∈ requests_of acts ∧ ir_position r = p ∧ ir_resp_to r = s ∧ ir_send_time r = t;
  bi_events p e : inflight_events b !! p = Some e → e ∈ events_of acts ∧ ie_position e = p;
  bi_disjoint p : inflight_requests b !! p = None ∨ inflight_events b !! p = None;
  bi_sent s e : (s, e) ∈ sent b →
    ∃ r, r ∈ requests_of acts ∧ ir_resp_to r = s ∧ ir_position r = ie_position e ∧
      (e ∈ events_of acts ∨ e = timeout_event (ie_position e));
  bi_once : (sent b).*1 ++ waiting (inflight_requests b) ≡ₚ ir_resp_to <$> requests_of acts }.

Lemma waiting_insert m p t s :
  m !! p = None → waiting (<[p:=(t, s)]> m) ≡ₚ s :: waiting m.
Proof. intros Hp. unfold waiting. by rewrite map_to_list_insert. Qed.

Lemma waiting_delete m p t s : m !! p = Some (t, s) → waiting m ≡ₚ s :: waiting (delete p m).
Proof.
  intros Hp. rewrite <-(insert_delete_id m p (t, s)) at 1 by done.
  by rewrite waiting_insert by apply lookup_delete_eq.
Qed.

Lemma requests_of_snoc acts a :
  requests_of (acts ++ [a])
  = requests_of acts ++ match a with ARequest r => [r] | _ => [] end.
Proof. unfold requests_of. rewrite omap_app. by destruct a. Qed.
Lemma events_of_snoc acts a :
  events_of (acts ++ [a]) = events_of acts ++ match a with AEvent e => [e] | _ => [] end.
Proof. unfold events_of. rewrite omap_app. by destruct a. Qed.

(** A step that only answers one waiting request, at position [p]. *)
Lemma broker_inv_answer acts b p t s e :
  broker_inv acts b → inflight_requests b !! p = Some (t, s) → ie_position e = p →
  e ∈ events_of acts ∨ e = timeout_event p →
  broker_inv acts (send_to s e
    {| inflight_requests := delete p (inflight_requests b);
       inflight_events := inflight_events b; sent := sent b |}).
Proof.
  intros [Hr He Hd Hs Ho] Hp Hpos Hev. split; cbn; try done.
  - intros p' t' s'. rewrite lookup_delete_Some. intros [_ ?]. eauto.
  - intros p'. destruct (Hd p') as [?|?]; [left|by right]. by apply lookup_delete_None; right.
  - intros s' e' [?|Heq%list_elem_of_singleton]%elem_of_app; [eauto|]. simplify_eq.
    destruct (Hr _ _ _ Hp) as (r & ? & ? & ? & _). by exists r.
  - rewrite fmap_app, <-app_assoc. cbn. rewrite <-Ho. f_equiv. symmetry. by eapply waiting_delete.
Qed.

(** Receiving one more action does not lose what was received. *)
Lemma broker_inv_mono acts a b :
  broker_inv acts b → (∀ r, a ≠ ARequest r) → broker_inv (acts ++ [a]) b.
Proof.
  intros [Hr He Hd Hs Ho] Ha.
  assert (requests_of (acts ++ [a]) = requests_of acts) as Hreq.
  { rewrite requests_of_snoc. destruct a; [by edestruct Ha|..]; apply app_nil_r. }
  assert (events_of acts ⊆ events_of (acts ++ [a])) as Hsub
    by (rewrite events_of_snoc; set_solver).
  split; rewrite ?Hreq; try done.
  - intros p e Hp. destruct (He p e Hp). auto.
  - intros s e Hse. destruct (Hs s e Hse) as (r & ? & ? & ? & Hev). exists r.
    split_and!; try done. destruct Hev; auto.
Qed.

Lemma join_request_inv acts b r :
  broker_inv acts b → unique_positions (acts ++ [ARequest r]) →
  broker_inv (acts ++ [ARequest r]) (join_request b r).
Proof.
  intros [Hr He Hd Hs Ho] [Hur _]. rewrite requests_of_snoc, fmap_app in Hur.
  apply list.NoDup_app in Hur as (_ & Hnew & _).
  assert (requests_of (acts ++ [ARequest r]) = requests_of acts ++ [r]) as Hreq
    by apply requests_of_snoc.
  assert (events_of (acts ++ [ARequest r]) = events_of acts) as Hevs
    by (rewrite events_of_snoc; apply app_nil_r).
  assert (inflight_requests b !! ir_position r = None) as Hfree.
  { destruct (inflight_requests b !! ir_position r) as [[t s]|] eqn:Hp; [|done].
    destruct (Hr _ _ _ Hp) as (r' & Hin & Hpos & _). exfalso. eapply Hnew; [|cbn; left].
    rewrite <-Hpos. by apply list_elem_of_fmap_2. }
  assert (∀ s e, (s, e) ∈ sent b →
    ∃ r0, r0 ∈ requests_of acts ++ [r] ∧ ir_resp_to r0 = s ∧ ir_position r0 = ie_position e ∧
      (e ∈ events_of acts ∨ e = timeout_event (ie_position e))) as Hs'.
  { intros s e Hse. destruct (Hs s e Hse) as (r' & ? & ?). exists r'. split; [set_solver|done]. }
  unfold join_request. destruct (inflight_events b !! ir_position r) as [e|] eqn:Hev.
  - destruct (He _ _ Hev) as [Hin Hpos].
    split; cbn; rewrite ?Hreq, ?Hevs; try done.
    + intros p t s Hp. destruct (Hr _ _ _ Hp) as (r' & ? & ?). exists r'. set_solver.
    + intros p e'. rewrite lookup_delete_Some. naive_solver.
    + intros p. destruct (Hd p) as [?|?]; [by left|right].
      by apply lookup_delete_None; right.
    + intros s e' [?|Heq%list_elem_of_singleton]%elem_of_app; [eauto|]. simplify_eq.
      exists r. split_and!; [set_solver|done|done|by left].
    + rewrite !fmap_app. cbn. rewrite <-Ho, <-!app_assoc. f_equiv. apply Permutation_app_comm.
  - split; cbn; rewrite ?Hreq, ?Hevs; try done.
    + intros p t s [[<- [= <- <-]]|[? Hp]]%lookup_insert_Some.
      * exists r. split; [set_solver|done].
      * destruct (Hr _ _ _ Hp) as (r' & ? & ?). exists r'. set_solver.
    + intros p. destruct (decide (ir_position r = p)) as [<-|Hne]; [by right|].
      rewrite lookup_insert_ne by done. apply Hd.
    + rewrite fmap_app, waiting_insert by done. cbn. rewrite <-Ho, <-app_assoc. f_equiv.
      apply Permutation_cons_append.
Qed.

Lemma join_event_inv acts b e :
  broker_inv acts b → broker_inv (acts ++ [AEvent e]) (join_event b e).
Proof.
  intros Hinv. apply (broker_inv_mono _ (AEvent e)) in Hinv; [|done].
  assert (e ∈ events_of (acts ++ [AEvent e])) as Hin by (rewrite events_of_snoc; set_solver).
  unfold join_event. destruct (inflight_requests b !! ie_position e) as [[t s]|] eqn:Hp.
  - eapply broker_inv_answer; eauto.
  - destruct Hinv as [Hr He Hd Hs Ho]. split; cbn; try done.
    + intros p e' [[<- <-]|[? Hp']]%lookup_insert_Some; [done|eauto].
    + intros p. destruct (decide (ie_position e = p)) as [<-|Hne]; [by left|].
      rewrite lookup_insert_ne by done. apply Hd.
Qed.

(** Dropping events is harmless to the invariant. *)
Lemma broker_inv_drop_events acts b m :
  broker_inv acts b → m ⊆ inflight_events b →
  broker_inv acts {| inflight_requests := inflight_requests b; inflight_events := m;
                     sent := sent b |}.
Proof.
  intros [Hr He Hd Hs Ho] Hm. split; cbn; try done.
  - intros p e Hp. apply He. by eapply lookup_weaken.
  - intros p. destruct (Hd p) as [?|Hn]; [by left|right].
    destruct (m !! p) eqn:Hp; [|done]. eapply lookup_weaken in Hp; [|exact Hm]. congruence.
Qed.

Lemma pop_first_subseteq {A} (m : gmap Position A) : (pop_first m).2 ⊆ m.
Proof.
  unfold pop_first. destruct (first_key_value m) as [[k v]|]; cbn; [apply delete_subseteq|done].
Qed.

Lemma gc_events_loop_subseteq fuel m : gc_events_loop fuel m ⊆ m.
Proof.
  revert m. induction fuel as [|fuel IH]; intros m; cbn; [done|].
  destruct (_ <? _); [|done]. etrans; [apply IH|apply pop_first_subseteq].
Qed.

Lemma gc_requests_loop_inv acts fuel now b :
  broker_inv acts b → broker_inv acts (gc_requests_loop fuel now b).
Proof.
  revert b. induction fuel as [|fuel IH]; intros b Hinv; cbn; [done|].
  unfold pop_first. destruct (first_key_value (inflight_requests b)) as [[p [t s]]|] eqn:Hf;
    [|done].
  destruct (_ <? _); [done|]. apply IH. apply first_key_value_spec in Hf as [Hp _].
  eapply broker_inv_answer; [done|done|done|by right].
Qed.

Lemma unique_positions_prefix acts a : unique_positions (acts ++ [a]) → unique_positions acts.
Proof.
  intros [Hr He]. rewrite requests_of_snoc, fmap_app in Hr.
  rewrite events_of_snoc, fmap_app in He.
  apply list.NoDup_app in Hr as [? _], He as [? _]. done.
Qed.

Lemma broker_run_inv acts : unique_positions acts → broker_inv acts (broker_run acts).
Proof.
  induction acts as [|a acts IH] using rev_ind; intros Hu.
  { split; cbn; try done; [by left|by intros s e ?%not_elem_of_nil]. }
  unfold broker_run in *. rewrite foldl_app. cbn.
  specialize (IH (unique_positions_prefix _ _ Hu)). destruct a as [r|e| |now]; cbn.
  - by apply join_request_inv.
  - by apply join_event_inv.
  - apply (broker_inv_mono _ AGcEvents) in IH; [|done].
    apply broker_inv_drop_events; [done|apply gc_events_loop_subseteq].
  - apply (broker_inv_mono _ (AGcRequests now)) in IH; [|done]. by apply gc_requests_loop_inv.
Qed.

(** *** Without garbage collection every pair is joined *)

Definition no_gc (acts : list broker_action) : bool :=
  forallb (λ a, match a with ARequest _ | AEvent _ => true | _ => false end) acts.

Record join_inv (acts : list broker_action) (b : MessageBroker) : Prop := {
  ji_requests r : r ∈ requests_of acts →
    inflight_requests b !! ir_position r = Some (ir_send_time r, ir_resp_to r) ∨
    ∃ e, e ∈ events_of acts ∧ ie_position e = ir_position r ∧ (ir_resp_to r, e) ∈ sent b;
  ji_events e : e ∈ events_of acts →
    inflight_events b !! ie_position e = Some e ∨
    ∃ r, r ∈ requests_of acts ∧ ir_position r = ie_position e ∧ (ir_resp_to r, e) ∈ sent b }.

Lemma join_request_join acts b r :
  broker_inv acts b → join_inv acts b → unique_positions (acts ++ [ARequest r]) →
  join_inv (acts ++ [ARequest r]) (join_request b r).
Proof.
  intros Hinv [Hr He] [Hur _]. rewrite requests_of_snoc, fmap_app in Hur.
  apply list.NoDup_app in Hur as (_ & Hnew & _). unfold join_request.
  assert (∀ r', r' ∈ requests_of acts → ir_position r' ≠ ir_position r) as Hne.
  { intros r' Hin Heq. eapply Hnew; [|cbn; left]. rewrite <-Heq. by apply list_elem_of_fmap_2. }
  destruct (inflight_events b !! ir_position r) as [e0|] eqn:Hev.
  - destruct (bi_events _ _ Hinv _ _ Hev) as [Hin Hpos].
    split; rewrite requests_of_snoc, events_of_snoc, app_nil_r; cbn.
    + intros r' [Hr'| ->%list_elem_of_singleton]%elem_of_app.
      * destruct (Hr r' Hr') as [?|(e & ? & ? & ?)]; [by left|right]. exists e. set_solver.
      * right. exists e0. set_solver.
    + intros e Hine. destruct (He e Hine) as [Hpe|(r' & ? & ? & ?)].
      * destruct (decide (ie_position e = ir_position r)) as [Heq|Hneq].
        -- right. exists r. rewrite Heq in Hpe. rewrite Hev in Hpe. injection Hpe as ->.
           set_solver.
        -- left. by rewrite lookup_delete_ne by congruence.
      * right. exists r'. set_solver.
  - split; rewrite requests_of_snoc, events_of_snoc, app_nil_r; cbn.
    + intros r' [Hr'| ->%list_elem_of_singleton]%elem_of_app.
      * rewrite lookup_insert_ne by (symmetry; by apply Hne).
        destruct (Hr r' Hr') as [?|(e & ? & ? & ?)]; [by left|right]. exists e. set_solver.
      * left. apply lookup_insert_eq.
    + intros e Hine. destruct (He e Hine) as [Hpe|(r' & ? & ? & ?)]; [by left|right].
      exists r'. set_solver.
Qed.

Lemma join_event_join acts b e :
  broker_inv acts b → join_inv acts b → unique_positions (acts ++ [AEvent e]) →
  join_inv (acts ++ [AEvent e]) (join_event b e).
Proof.
  intros Hinv [Hr He] [_ Hue]. rewrite events_of_snoc, fmap_app in Hue.
  apply list.NoDup_app in Hue as (_ & Hnew & _). unfold join_event.
  assert (∀ e', e' ∈ events_of acts → ie_position e' ≠ ie_position e) as Hne.
  { intros e' Hin Heq. eapply Hnew; [|cbn; left]. rewrite <-Heq. by apply list_elem_of_fmap_2. }
  destruct (inflight_requests b !! ie_position e) as [[t s]|] eqn:Hreq.
  - destruct (bi_requests _ _ Hinv _ _ _ Hreq) as (r0 & Hr0 & Hpos & Hs & Ht).
    split; rewrite requests_of_snoc, events_of_snoc, app_nil_r; cbn.
    + intros r' Hr'. destruct (Hr r' Hr') as [Hp|(e' & ? & ? & ?)].
      * destruct (decide (ir_position r' = ie_position e)) as [Heq|Hneq].
        -- right. exists e. rewrite Heq, Hreq in Hp. injection Hp as -> ->. set_solver.
        -- left. by rewrite lookup_delete_ne by congruence.
      * right. exists e'. set_solver.
    + intros e' [Hine| ->%list_elem_of_singleton]%elem_of_app.
      * destruct (He e' Hine) as [Hpe|(r' & ? & ? & ?)]; [by left|right]. exists r'. set_solver.
      * right. exists r0. subst. set_solver.
  - split; rewrite requests_of_snoc, events_of_snoc, app_nil_r; cbn.
    + intros r' Hr'. destruct (Hr r' Hr') as [Hp|(e' & ? & ? & ?)]; [by left|right].
      exists e'. set_solver.
    + intros e' [Hine| ->%list_elem_of_singleton]%elem_of_app.
      * rewrite lookup_insert_ne by (symmetry; by apply Hne).
        destruct (He e' Hine) as [Hpe|(r' & ? & ? & ?)]; [by left|right]. exists r'. set_solver.
      * left. apply lookup_insert_eq.
Qed.

Lemma broker_run_join acts :
  unique_positions acts → no_gc acts = true → join_inv acts (broker_run acts).
Proof.
  induction acts as [|a acts IH] using rev_ind; intros Hu Hgc.
  { by split; intros ? ?%not_elem_of_nil. }
  unfold no_gc in Hgc. rewrite forallb_app in Hgc. apply andb_true_iff in Hgc as [Hgc Ha].
  pose proof (unique_positions_prefix _ _ Hu) as Hu'. specialize (IH Hu' Hgc).
  pose proof (broker_run_inv acts Hu') as Hinv. unfold broker_run in *. rewrite foldl_app.
  destruct a as [r|e| |now]; try done; cbn.
  - by apply join_request_join.
  - by apply join_event_join.
Qed.

Lemma NoDup_fmap_elem {A B} (f : A → B) l x y :
  NoDup (f <$> l) → x ∈ l → y ∈ l → f x = f y → x = y.
Proof.
  intros Hnd [i Hi]%list_elem_of_lookup_1 [j Hj]%list_elem_of_lookup_1 Hf.
  assert (i = j) as ->; [|congruence].
  eapply list.NoDup_lookup; [exact Hnd|rewrite list_lookup_fmap, Hi; done|].
  rewrite list_lookup_fmap, Hj. cbn. congruence.
Qed.

(** *** Garbage collection *)

Lemma pop_first_size {A} (m : gmap Position A) : m ≠ ∅ → size m = S (size (pop_first m).2).
Proof.
  intros Hm. unfold pop_first. destruct (first_key_value m) as [[k v]|] eqn:Hf.
  - apply first_key_value_spec in Hf as [Hk _]. cbn.
    rewrite (map_size_delete_Some k m) by eauto. destruct (size m) eqn:Hs; [|lia].
    apply map_size_empty_inv in Hs. done.
  - by apply first_key_value_None in Hf.
Qed.

Lemma gc_events_loop_size fuel m :
  (size m ≤ fuel)%nat → Z.of_nat (size (gc_events_loop fuel m)) ≤ event_gc_limit.
Proof.
  revert m. induction fuel as [|fuel IH]; intros m Hf; cbn [gc_events_loop].
  - unfold event_gc_limit. lia.
  - destruct (event_gc_limit <? Z.of_nat (size m)) eqn:Hlt; [|by apply Z.ltb_ge].
    apply Z.ltb_lt in Hlt. apply IH. rewrite (pop_first_size m) in Hf; [lia|].
    intros ->. rewrite map_size_empty in Hlt. unfold event_gc_limit in Hlt. lia.
Qed.

(** What is dropped lies before everything that is kept. *)
Lemma gc_events_loop_oldest fuel m p q :
  is_Some (m !! p) → gc_events_loop fuel m !! p = None →
  is_Some (gc_events_loop fuel m !! q) → pos_le p q.
Proof.
  revert m. induction fuel as [|fuel IH]; intros m Hp Hnone Hq; cbn in *.
  { destruct Hp. congruence. }
  destruct (_ <? _); [|destruct Hp; congruence].
  destruct ((pop_first m).2 !! p) as [x|] eqn:Hpop; [eapply (IH (pop_first m).2); eauto|].
  assert (is_Some (m !! q)) as Hmq.
  { destruct Hq as [y Hq]. exists y. eapply lookup_weaken; [exact Hq|].
    etrans; [apply gc_events_loop_subseteq|apply pop_first_subseteq]. }
  unfold pop_first in Hpop. destruct (first_key_value m) as [[k v]|] eqn:Hf; cbn in Hpop.
  - apply first_key_value_spec in Hf as [_ Hle].
    apply lookup_delete_None in Hpop as [->|Hpop]; [by apply Hle|].
    destruct Hp. congruence.
  - destruct Hp. congruence.
Qed.

(** The loop stops at a request that is still young, or with none left. *)
Lemma gc_requests_loop_young fuel now b :
  (size (inflight_requests b) ≤ fuel)%nat →
  ∀ p t s, first_key_value (inflight_requests (gc_requests_loop fuel now b))
           = Some (p, (t, s)) → now - t < max_timeout_ms.
Proof.
  revert b. induction fuel as [|fuel IH]; intros b Hf p t s Hfirst; cbn in *.
  { apply first_key_value_spec in Hfirst as [Hp _].
    assert (inflight_requests b = ∅) as He by (apply map_size_empty_inv; lia).
    rewrite He in Hp. done. }
  destruct (first_key_value (inflight_requests b)) as [[p0 [t0 s0]]|] eqn:Hpop.
  - pose proof (pop_first_size (inflight_requests b)) as Hsz.
    unfold pop_first in *. rewrite Hpop in *. cbn in *.
    destruct (now - t0 <? max_timeout_ms) eqn:Hlt.
    + rewrite Hpop in Hfirst. injection Hfirst as -> -> ->. by apply Z.ltb_lt.
    + eapply IH; [|exact Hfirst]. cbn.
      rewrite Hsz in Hf; [lia|]. intros He. by rewrite (proj2 (first_key_value_None _) He) in Hpop.
  - unfold pop_first in Hfirst. rewrite Hpop in Hfirst. congruence.
Qed.

(** One turn of the loop is a sequence of actions. *)
Lemma broker_iter_acts now rq ev b :
  rx_connected rq = true → rx_connected ev = true →
  broker_iter now rq ev b = Returns
    (foldl broker_act b ((ARequest <$> take 1000 (rx_queue rq)) ++
                         (AEvent <$> take 1000 (rx_queue ev)) ++ [AGcEvents; AGcRequests now]),
     {| rx_queue := drop 1000 (rx_queue rq); rx_connected := true |},
     {| rx_queue := drop 1000 (rx_queue ev); rx_connected := true |}).
Proof.
  intros Hrq Hev. unfold broker_iter. rewrite !batch_recv_spec by done.
  cbn -[take drop]. rewrite !foldl_app. cbn -[take drop].
  assert (∀ l b, foldl broker_act b (ARequest <$> l) = foldl join_request b l) as Hr
    by (induction l; intros; cbn; [done|auto]).
  assert (∀ l b, foldl broker_act b (AEvent <$> l) = foldl join_event b l) as He
    by (induction l; intros; cbn; [done|auto]).
  by rewrite Hr, He.
Qed.
End join.

(** ** Properties *)
Section properties.
Context {BD : BigDecimal}.

(** Every request is answered at most once and never with another request's
    event: for every sequence of requests, events and garbage collections with
    distinct positions, each answer goes to the request at the event's position
    and is an event received at that position, or Timeout; and the senders
    used so far together with those still waiting are exactly those of the
    requests received. *)
Theorem broker_answers_once acts :
  unique_positions acts →
  let b := broker_run acts in
  (∀ s e, (s, e) ∈ sent b →
     ∃ r, r ∈ requests_of acts ∧ ir_resp_to r = s ∧ ir_position r = ie_position e ∧
       (e ∈ events_of acts ∨ e = timeout_event (ie_position e))) ∧
  (sent b).*1 ++ waiting (inflight_requests b) ≡ₚ ir_resp_to <$> requests_of acts.
Proof.
  intros Hu. destruct (broker_run_inv acts Hu) as [_ _ _ Hs Ho]. done.
Qed.

(** No request is missed: as long as nothing is garbage collected, a request
    and an event at the same position are joined, whichever arrives first and
    whatever arrives in between. *)
Theorem broker_joins_every_pair acts r e :
  unique_positions acts → no_gc acts = true →
  r ∈ requests_of acts → e ∈ events_of acts → ir_position r = ie_position e →
  (ir_resp_to r, e) ∈ sent (broker_run acts).
Proof.
  intros Hu Hgc Hr He Hpos. pose proof (broker_run_inv acts Hu) as Hinv.
  destruct (broker_run_join acts Hu Hgc) as [Hjr Hje].
  destruct (Hjr r Hr) as [Hreq|(e' & He' & Hpe & Hsent)].
  - destruct (Hje e He) as [Hev|(r' & Hr' & Hpr & Hsent)].
    + destruct (bi_disjoint _ _ Hinv (ir_position r)) as [Hn|Hn]; congruence.
    + assert (r' = r) as ->; [|done].
      eapply NoDup_fmap_elem; [apply Hu|done|done|congruence].
  - assert (e' = e) as ->; [|done].
    eapply NoDup_fmap_elem; [apply Hu|done|done|congruence].
Qed.

(** The memory held for events nobody asks for is bounded: after the
    collection at most 10000 events are kept, and those dropped have the
    smallest positions. *)
Theorem gc_inflight_events_bound b :
  let b' := gc_inflight_events b in
  Z.of_nat (size (inflight_events b')) ≤ 10000 ∧ inflight_events b' ⊆ inflight_events b ∧
  ∀ p q, is_Some (inflight_events b !! p) → inflight_events b' !! p = None →
    is_Some (inflight_events b' !! q) → pos_le p q.
Proof.
  intros b'. split; [|split].
  - by apply gc_events_loop_size.
  - apply gc_events_loop_subseteq.
  - apply gc_events_loop_oldest.
Qed.

(** The timeout of waiting requests goes by positions, not by ages: after the
    collection the request at the smallest position is less than a second old;
    and while that is so, no request times out, however long it has waited
    behind it. *)
Theorem gc_inflight_requests_by_position now b :
  (∀ p t s, first_key_value (inflight_requests (gc_inflight_requests now b)) = Some (p, (t, s)) →
     now - t < 1000) ∧
  (∀ p t s, first_key_value (inflight_requests b) = Some (p, (t, s)) → now - t < 1000 →
     gc_inflight_requests now b = b).
Proof.
  split; [by apply gc_requests_loop_young|]. intros p t s Hf Hlt.
  unfold gc_inflight_requests. destruct (size _); [done|]. cbn. unfold pop_first.
  rewrite Hf, (proj2 (Z.ltb_lt _ max_timeout_ms) Hlt). done.
Qed.
End properties.

(** ** Instances *)

Definition demo_pos (l o : Z) : Position := {| log_index := l; offset := o |}.
Definition demo_request (l o s : Z) : InflightRequest :=
  {| ir_position := demo_pos l o; ir_resp_to := s; ir_send_time := 0 |}.
Definition demo_inflight (l o : Z) : InflightEvent :=
  {| ie_position := demo_pos l o; ie_event := Ok default_instance |}.
Definition demo_acts : list broker_action :=
  [ARequest (demo_request 7 0 1); AEvent (demo_inflight 7 1); ARequest (demo_request 7 1 2);
   AEvent (demo_inflight 7 0); ARequest (demo_request 8 0 3)].

Lemma demo_acts_unique : unique_positions demo_acts.
Proof. split; apply (bool_decide_unpack _); reflexivity. Qed.

Lemma broker_answers_once_witness :
  (sent (broker_run demo_acts)).*1 ++ waiting (inflight_requests (broker_run demo_acts))
  ≡ₚ [1; 2; 3] ∧ (sent (broker_run demo_acts)).*1 = [2; 1].
Proof.
  split; [|reflexivity]. apply (broker_answers_once demo_acts). apply demo_acts_unique.
Defined.

Lemma broker_joins_every_pair_witness :
  (1, demo_inflight 7 0) ∈ sent (broker_run demo_acts).
Proof.
  apply (broker_joins_every_pair demo_acts (demo_request 7 0 1) (demo_inflight 7 0)).
  - apply demo_acts_unique.
  - reflexivity.
  - left.
  - right. left.
  - reflexivity.
Defined.
