(* ===== verification/MessageQueue.v ===== *)
(** * message_queue_adapter.rs

    The log consumer that feeds committed raft log entries to the wallet. *)

From S2P Require Import Prelude Bytes Keys Proto RocksEngine.
Local Open Scope Z_scope.

(** [LogEntry<T>], without its timing metadata. *)
Record LogEntry (T : Type) := { le_index : Z; le_messages : list T }.
Global Arguments Build_LogEntry {T}.
Global Arguments le_index {T}.
Global Arguments le_messages {T}.
