(* ===== verification/LogConsumer.v ===== *)
(** * The consumer of the raft log

    message_queue_adapter.rs: reading a range of applied entries, and the thread
    that feeds them to the wallet.  The two engines change while the thread runs,
    so each read of an iteration has an engine of its own. *)

From S2P Require Import Prelude Bytes Keys Proto Raftpb RocksEngine RefRocks RefCodec RaftLog.
From S2P Require Import PeerStorage StorageSpec MessageQueue.
Local Open Scope Z_scope.

(** ** Parsing an entry *)
Section parse.
Context `{!ProtoMessage RaftCmdRequest} {T : Type}.

(** [payload] is [merge_from_bytes] of rust-protobuf or [decode] of prost; both
    results are unwrapped. *)
Definition parse_payload (payload : bytes → option T) (req : Request) : run T :=
  rust_assert (bool_decide (req_cmd_type req = MessageQueue)) (
  unwrap (payload (mq_payload (get_or_default (req_message_queue req))))).
Definition parse_log_entry (payload : bytes → option T) (entry : Entry) : run (Z * list T) :=
  let index := entry_index entry in
  let data := entry_data entry in
  match data with
  | [] => Returns (index, [])
  | _ =>
      cmd ← unwrap (parse_from_bytes data);
      messages ← mapM (parse_payload payload) (rc_requests cmd);
      Returns (index, messages)
  end.
Definition parse_log_entry_to_proto `{!ProtoMessage T} : Entry → run (Z * list T) :=
  parse_log_entry parse_from_bytes.
Definition parse_log_entry_to_prost `{!ProtoMessage T} : Entry → run (Z * list T) :=
  parse_log_entry parse_from_bytes.
End parse.

(** ** The adapter and the consumer *)
Section consumer.
Context {R : RocksDB}.
Context `{!ProtoMessage Entry, !ProtoMessage RaftApplyState}.
Context {T : Type} (log_entry_parser : Entry → run (Z * list T)) (region : Region).

Definition get_start_index_and_applied_index (e : Engines) : run (Z * Z) :=
  apply_state ← init_apply_state e region;
  Returns (ts_index (get_truncated_state apply_state) +u 1, as_applied_index apply_state).

(** [e1] is read for the bounds and [e2] for the entries. *)
Definition get_range (e1 e2 : Engines) (start end_ : Z) :
    run (result (Z * Z) (list (Z * list T))) :=
  '(log_start_index, log_end_index) ← get_start_index_and_applied_index e1;
  if (start <? log_start_index) || (log_end_index <? end_)
  then Returns (Err (log_start_index, log_end_index))
  else
    '(_, buf) ← fetch_entries_to (raft e2) (region_id region) start (end_ +u 1) None [];
    l ← mapM log_entry_parser buf; Returns (Ok l).

Definition log_entry_new (p : Z * list T) : LogEntry T :=
  {| le_index := p.1; le_messages := p.2 |}.

(** One turn of [start_consuming]: what is sent, and the next index. *)
Definition consume_once (e1 e2 e3 : Engines) (log_index : Z) : run (list (LogEntry T) * Z) :=
  '(start_index, applied_index) ← get_start_index_and_applied_index e1;
  if log_index <? start_index then Panics
  else if applied_index <? log_index then Returns ([], log_index)
  else
    let end_ := Z.min (log_index +u 1000) applied_index in
    r ← get_range e2 e3 log_index end_;
    entries ← unwrap_ok r;
    Returns (fmap (M:=list) log_entry_new entries, end_ +u 1).

Fixpoint start_consuming (its : list (Engines * Engines * Engines)) (log_index : Z) :
    run (list (LogEntry T) * Z) :=
  match its with
  | [] => Returns ([], log_index)
  | (e1, e2, e3) :: its =>
      '(sent, log_index) ← consume_once e1 e2 e3 log_index;
      '(sent', log_index) ← start_consuming its log_index;
      Returns (sent ++ sent', log_index)
  end.
End consumer.

(** ** What is delivered *)
Section consumer_spec.
Context {R : RocksDB} {RL : RocksDBLaws R}.
Context `{!ProtoMessage Entry, !ProtoRoundTrip Entry, !ProtoEmpty Entry}.
Context `{!ProtoMessage RaftApplyState, !ProtoRoundTrip RaftApplyState}.
Context {T : Type} (parser : Entry → run (Z * list T)) (region : Region).

Abbreviation trunc_index ap := (ts_index (get_truncated_state ap)).

(** The engines hold the apply state [ap], and the entries of the committed log
    [C] that [ap] covers. *)
Record snapshot (C : gmap Z Entry) (e : Engines) (ap : RaftApplyState) : Prop := {
  sn_apply : db_get (kv e) CF_RAFT (apply_state_key (region_id region)) = Some (write_to_bytes ap);
  sn_range : 0 ≤ trunc_index ap ≤ as_applied_index ap;
  sn_bound : as_applied_index ap < u64_max - 1001;
  sn_log : ∃ L, log_stored (db_get (raft e) CF_DEFAULT) (region_id region) L ∧
    ∀ i, trunc_index ap < i ≤ as_applied_index ap → L !! i = C !! i ∧ is_Some (C !! i) }.

(** The entry of a delivered [LogEntry]. *)
Definition delivers (x : Entry) (le : LogEntry T) : Prop :=
  parser x = Returns (le_index le, le_messages le).

(** Three reads of one iteration: the engines only move forward, and the
    collection has not reached the next index to read. *)
Record iteration_ok (C : gmap Z Entry) (log_index applied : Z) (it : Engines * Engines * Engines) :
    Prop := {
  it_snapshots : ∃ ap1 ap2 ap3, snapshot C it.1.1 ap1 ∧ snapshot C it.1.2 ap2 ∧
    snapshot C it.2 ap3 ∧ as_applied_index ap1 = applied ∧
    applied ≤ as_applied_index ap2 ≤ as_applied_index ap3 ∧
    trunc_index ap1 ≤ trunc_index ap2 ≤ trunc_index ap3 ∧ trunc_index ap3 < log_index }.

Lemma get_start_index_spec C e ap :
  snapshot C e ap →
  get_start_index_and_applied_index region e
  = Returns (trunc_index ap + 1, as_applied_index ap).
Proof.
  intros [Hap Hr Hb _]. unfold u64_max in Hb.
  unfold get_start_index_and_applied_index, init_apply_state, get_msg_cf, get_value_cf.
  rewrite Hap. cbn [mbind run_bind option_map]. rewrite parse_write. cbn [mbind run_bind unwrap].
  by rewrite u64_add_small by (unfold is_u64; lia).
Qed.

Lemma log_range_ext L C low high :
  (∀ i, low ≤ i < high → L !! i = C !! i) → log_range L low high = log_range C low high.
Proof.
  intros Heq. unfold log_range.
  assert (∀ i, i ∈ seqZ low (high - low) → L !! i = C !! i) as H
    by (intros i Hi%elem_of_seqZ; apply Heq; lia).
  induction (seqZ low (high - low)) as [|i l IH]; [done|]. cbn.
  rewrite (H i) by apply list_elem_of_here. rewrite IH; [done|]. intros j Hj. apply H. by right.
Qed.

Definition total_size (es : list Entry) : Z := foldr (λ e n, entry_size e + n) 0 es.

Lemma total_size_nonneg es : 0 ≤ total_size es.
Proof. induction es; cbn; [done|]. unfold entry_size at 1. unfold total_size in *. lia. Qed.

Lemma limit_size_unlimited es max total :
  total + total_size es < max → limit_size max total es = es.
Proof.
  revert total. induction es as [|x es IH]; intros total Hs; cbn in *; [done|].
  pose proof (total_size_nonneg es). assert (0 ≤ entry_size x) by (unfold entry_size; lia).
  unfold total_size in *. rewrite (proj2 (Z.leb_gt max total)) by lia. rewrite andb_false_r.
  by rewrite IH by lia.
Qed.

(** The next index after an iteration that saw [applied]. *)
Definition next_index_of (log_index applied : Z) : Z :=
  if applied <? log_index then log_index else Z.min (log_index + 1000) applied + 1.

(** The entries of [C] from [low] to [high], as they are delivered. *)
Definition delivered (C : gmap Z Entry) (low high : Z) (sent : list (LogEntry T)) : Prop :=
  ∃ es, log_range C low high = Some es ∧ Forall2 delivers es sent.

Lemma mapM_parser es l :
  Forall2 (λ x p, parser x = Returns p) es l → mapM parser es = Returns l.
Proof. induction 1 as [|x p es l Hx _ IH]; [done|]. cbn. by rewrite Hx, IH. Qed.

(** The committed log, every entry of which parses. *)
Context (C : gmap Z Entry).
Hypothesis C_parses : ∀ i x, C !! i = Some x →
  entry_index x = i ∧ ∃ messages, parser x = Returns (i, messages).

Lemma parser_all low high es :
  log_range C low high = Some es →
  ∃ l, Forall2 (λ x p, parser x = Returns p) es l ∧ Forall2 delivers es (log_entry_new <$> l).
Proof.
  intros Hes. unfold log_range in Hes. apply mapM_Some in Hes.
  induction Hes as [|i x idx es Hx _ (l & Hl & Hd)].
  - exists []. by split; constructor.
  - destruct (C_parses i x Hx) as (<- & m & Hm). exists ((entry_index x, m) :: l).
    split; constructor; done.
Qed.

Lemma consume_once_spec log_index applied it :
  is_u64 (region_id region) → iteration_ok C log_index applied it → 0 < log_index →
  let next := next_index_of log_index applied in
  (∀ es, log_range C log_index next = Some es → total_size es < u64_max) →
  ∃ sent, consume_once parser region it.1.1 it.1.2 it.2 log_index = Returns (sent, next) ∧
    delivered C log_index next sent.
Proof.
  intros Hg [(ap1 & ap2 & ap3 & H1 & H2 & H3 & Ha1 & Ha & Ht & Hlt)] Hpos next Hsize.
  unfold consume_once. rewrite (get_start_index_spec _ _ _ H1). cbn [mbind run_bind].
  rewrite (proj2 (Z.ltb_ge log_index _)) by lia. rewrite Ha1.
  pose proof (sn_bound _ _ _ H3) as Hb. unfold u64_max in Hb.
  unfold next, next_index_of in *. destruct (Z.ltb_spec applied log_index) as [Hw|Hw].
  { exists []. split; [done|]. exists []. unfold log_range. rewrite Z.sub_diag. by split. }
  rewrite (u64_add_small log_index 1000) by (unfold is_u64; lia).
  set (end_ := Z.min (log_index + 1000) applied) in *.
  unfold get_range. rewrite (get_start_index_spec _ _ _ H2). cbn [mbind run_bind].
  rewrite (proj2 (Z.ltb_ge log_index _)), (proj2 (Z.ltb_ge _ end_)) by lia. cbn [orb].
  rewrite !u64_add_small by (unfold is_u64; lia).
  destruct (sn_log _ _ _ H3) as (L & HL & HLC).
  assert (log_range L log_index (end_ + 1) = log_range C log_index (end_ + 1)) as Hext
    by (apply log_range_ext; intros i Hi; apply HLC; lia).
  destruct (log_range_total C log_index (end_ + 1)) as [es Hes]; [intros i Hi; apply HLC; lia|].
  rewrite (fetch_entries_spec _ _ L _ _ es) by (done || congruence || unfold u64_max; lia).
  cbn [mbind run_bind default from_option app]. rewrite (limit_size_unlimited es) by (by apply Hsize).
  destruct (parser_all _ _ es Hes) as (l & Hl & Hd). rewrite (mapM_parser _ _ Hl).
  exists (log_entry_new <$> l). split; [done|]. by exists es.
Qed.

(** The conditions on a run, one iteration after the other. *)
Inductive consuming_ok :
    Z → list (Engines * Engines * Engines) → list Z → Prop :=
| consuming_nil log_index : consuming_ok log_index [] []
| consuming_cons log_index it its applied applieds :
    iteration_ok C log_index applied it →
    (∀ es, log_range C log_index (next_index_of log_index applied) = Some es →
       total_size es < u64_max) →
    consuming_ok (next_index_of log_index applied) its applieds →
    consuming_ok log_index (it :: its) (applied :: applieds).

Lemma delivered_app low mid high s1 s2 :
  low ≤ mid ≤ high → delivered C low mid s1 → delivered C mid high s2 →
  delivered C low high (s1 ++ s2).
Proof.
  intros Hle (es1 & H1 & Hd1) (es2 & H2 & Hd2). exists (es1 ++ es2).
  split; [|by apply Forall2_app]. unfold log_range in *.
  replace (high - low) with ((mid - low) + (high - mid)) by lia.
  rewrite seqZ_app by lia. replace (low + (mid - low)) with mid by lia.
  apply mapM_Some in H1, H2. apply mapM_Some. by apply Forall2_app.
Qed.

Lemma next_index_mono log_index applied :
  log_index ≤ next_index_of log_index applied ∧
  Z.min (applied + 1) (log_index + 1001) ≤ next_index_of log_index applied.
Proof. unfold next_index_of. destruct (Z.ltb_spec applied log_index); lia. Qed.

Lemma start_consuming_spec log_index its applieds :
  is_u64 (region_id region) → 0 < log_index → consuming_ok log_index its applieds →
  ∃ sent final, start_consuming parser region its log_index = Returns (sent, final) ∧
    log_index ≤ final ∧ delivered C log_index final sent ∧
    ∀ A, Forall (λ a, A ≤ a) applieds →
      Z.min (A + 1) (log_index + 1001 * Z.of_nat (length its)) ≤ final.
Proof.
  intros Hg Hpos Hok. induction Hok as [i|i it its a applieds Hit Hsz Hok IH].
  { exists [], i. split_and!; [done|done| |cbn; lia]. exists []. split; [|done].
    unfold log_range. by rewrite Z.sub_diag. }
  pose proof (next_index_mono i a) as [Hle Hn].
  destruct (consume_once_spec i a it Hg Hit Hpos Hsz) as (s1 & H1 & Hd1).
  destruct IH as (s2 & final & H2 & Hf & Hd2 & Hlive); [lia|].
  exists (s1 ++ s2), final. split_and!.
  - destruct it as [[e1 e2] e3]. cbn [start_consuming]. cbn in H1. rewrite H1.
    cbn [mbind run_bind]. by rewrite H2.
  - lia.
  - by eapply delivered_app.
  - intros A [Ha HA]%Forall_cons_1. specialize (Hlive A HA). cbn [length]. lia.
Qed.

Lemma delivered_indices low high sent :
  delivered C low high sent →
  le_index <$> sent = seqZ low (high - low).
Proof.
  intros (es & Hes & Hd). unfold log_range in Hes. apply mapM_Some in Hes.
  revert sent Hd. induction Hes as [|i x idx es Hx Hes IH]; intros sent Hd.
  - apply Forall2_nil_inv_l in Hd as ->. done.
  - apply Forall2_cons_inv_l in Hd as (le & sent' & Hle & Hd & ->). cbn. rewrite IH by done.
    f_equal. destruct (C_parses i x Hx) as (_ & m & Hm). unfold delivers in Hle. rewrite Hm in Hle.
    by injection Hle as <- _.
Qed.
End consumer_spec.

Section consumer_theorems.
Context {R : RocksDB} {RL : RocksDBLaws R}.
Context `{!ProtoMessage Entry, !ProtoRoundTrip Entry, !ProtoEmpty Entry}.
Context `{!ProtoMessage RaftLocalState, !ProtoMessage RaftApplyState}.
Context `{!ProtoRoundTrip RaftLocalState, !ProtoRoundTrip RaftApplyState}.
Context {T : Type} (parser : Entry → run (Z * list T)).

(** The engines of a peer are a snapshot of its log. *)
Lemma storage_snapshot e s L ap h :
  storage_inv e s L ap h → as_applied_index ap < u64_max - 1001 →
  snapshot (ps_region s) L e ap.
Proof.
  intros Hinv Hb. pose proof (storage_last_ge _ _ _ _ _ Hinv) as (? & ? & ? & ?).
  unfold RAFT_INIT_LOG_INDEX in *. split; [apply Hinv|lia|done|].
  exists L. split; [apply Hinv|]. intros i Hi. split; [done|].
  apply (li_present _ _ _ _ _ (si_inv _ _ _ _ _ Hinv)). lia.
Qed.


(** If the collection of the raft log overtakes the consumer between its read
    of the apply state and its read of a range of more than eight entries, the range is
    skipped without an error: nothing is sent and the next index moves past it. *)
Theorem consumer_skips_collected region (C L : gmap Z Entry) e1 e2 e3 ap1 ap2 log_index :
  is_u64 (region_id region) → 0 < log_index →
  snapshot region C e1 ap1 → snapshot region C e2 ap2 →
  ts_index (get_truncated_state ap1) < log_index → ts_index (get_truncated_state ap2) < log_index →
  log_index + 8 ≤ as_applied_index ap1 ≤ as_applied_index ap2 →
  log_stored (db_get (raft e3) CF_DEFAULT) (region_id region) L →
  (∀ i, log_index ≤ i ≤ as_applied_index ap1 → L !! i = None) →
  consume_once parser region e1 e2 e3 log_index
  = Returns ([], next_index_of log_index (as_applied_index ap1)).
Proof.
  intros Hg Hpos H1 H2 Ht1 Ht2 Ha HL Hnone.
  pose proof (sn_bound _ _ _ _ H2) as Hb. unfold u64_max in Hb.
  unfold consume_once. rewrite (get_start_index_spec _ _ _ _ H1). cbn [mbind run_bind].
  rewrite (proj2 (Z.ltb_ge log_index _)), (proj2 (Z.ltb_ge _ log_index)) by lia.
  unfold next_index_of. rewrite (proj2 (Z.ltb_ge _ log_index)) by lia.
  rewrite (u64_add_small log_index 1000) by (unfold is_u64; lia).
  unfold get_range. rewrite (get_start_index_spec _ _ _ _ H2). cbn [mbind run_bind].
  rewrite (proj2 (Z.ltb_ge log_index _)), (proj2 (Z.ltb_ge (as_applied_index ap2) _)) by lia.
  cbn [orb]. rewrite !u64_add_small by (unfold is_u64; lia).
  rewrite (fetch_entries_missing _ _ L); [done|done|done|lia|unfold u64_max; lia| |done|].
  - unfold RAFT_LOG_MULTI_GET_CNT. lia.
  - intros i Hi. apply Hnone. lia.
Qed.
End consumer_theorems.

(** ** A concrete log of twenty entries *)

Module consumer_demo.
Definition region : Region := initial_region 1 [(1, 1)].
Definition log_entries : list Entry := (λ i, demo.en i 6) <$> seqZ 6 20.
Definition C : gmap Z Entry := log_put log_entries ∅.
Definition ap : RaftApplyState :=
  {| as_applied_index := 25; as_last_commit_index := 0; as_commit_index := 25;
     as_commit_term := 6; as_truncated_state := Some {| ts_index := 5; ts_term := 5 |} |}.
Definition kv0 : @DB RefRocks :=
  write_opt (ref_empty : @DB RefRocks) (wb_put_msg_cf CF_RAFT (apply_state_key 1) ap wb_new).
Definition e : Engines :=
  {| kv := kv0; raft := (engine_append (ref_empty : @DB RefRocks) 1 log_entries).2 |}.
(** The same store after the entries have been collected. *)
Definition collected : Engines := {| kv := kv0; raft := (ref_empty : @DB RefRocks) |}.
Definition parser : Entry → run (Z * list CommandPb) := parse_log_entry_to_prost.

Lemma C_lookup i : C !! i = if decide (6 ≤ i < 26) then Some (demo.en i 6) else None.
Proof.
  unfold C. rewrite (log_put_lookup log_entries ∅ 6) by done.
  change (Z.of_nat (length log_entries)) with 20. repeat case_decide; try lia; [|done].
  unfold log_entries. rewrite list_lookup_fmap, lookup_seqZ_lt by lia. cbn. do 2 f_equal. lia.
Qed.

Lemma log_stored_none d : (∀ k, db_get d CF_DEFAULT k = None) → log_stored (db_get d CF_DEFAULT) 1 ∅.
Proof. intros Hd. split; intros *; rewrite ?Hd; done. Qed.

Lemma snap : snapshot region C e ap.
Proof.
  split; [reflexivity|done|done|]. exists C. split.
  - apply (log_stored_append (R:=RefRocks) ref_empty wb_new 1 ∅ log_entries); [done| |].
    + apply list.Forall_forall. intros x Hx. apply list_elem_of_fmap in Hx as (i & -> & Hi).
      apply elem_of_seqZ in Hi. unfold is_u64. cbn. unfold u64_modulus. lia.
    + by apply log_stored_none.
  - intros i Hi. cbn in Hi. rewrite C_lookup, decide_True by lia. eauto.
Qed.

Lemma C_parses i x : C !! i = Some x →
  entry_index x = i ∧ ∃ messages, parser x = Returns (i, messages).
Proof. rewrite C_lookup. case_decide; [|done]. intros [= <-]. split; [done|]. by exists []. Qed.

Lemma iterations : consuming_ok region C 8 [(e, e, e)] [25].
Proof.
  constructor; [|intros es Hes; vm_compute in Hes; injection Hes as <-; done|constructor].
  constructor. exists ap, ap, ap. pose proof snap. split_and!; try done.
Qed.
End consumer_demo.


Lemma consumer_skips_collected_witness :
  consume_once consumer_demo.parser consumer_demo.region consumer_demo.e consumer_demo.e
    consumer_demo.collected 8 = Returns ([], 26).
Proof.
  apply (consumer_skips_collected consumer_demo.parser consumer_demo.region consumer_demo.C ∅
    consumer_demo.e consumer_demo.e consumer_demo.collected consumer_demo.ap consumer_demo.ap 8);
    [done|done|exact consumer_demo.snap|exact consumer_demo.snap|done|done|done| |].
  - by apply consumer_demo.log_stored_none.
  - intros i _. apply lookup_empty.
Defined.
