(* ===== verification/RaftKv.v ===== *)
(** * storage.rs, raftkv.rs, kv.rs and the client side of message_queue_adapter.rs

    A message becomes a raft command, and the response of the command the answer to
    the caller; the services of kv.rs for the other stores and for the log.  A callback
    is the channel of the command together with the function that is applied to what
    is sent there; the position that [box_err!] puts before a message is left out. *)

From stdpp Require Import pretty.
From S2P Require Import Prelude Bytes Keys Proto Raftpb Errors RocksEngine RefRocks RefCodec.
From S2P Require Import RaftLog PeerStorage StorageSpec RaftCmd Batch Apply Peer RaftNode.
From S2P Require Import MessageQueue LogConsumer.
Local Open Scope Z_scope.

(** ** raftkv.rs *)

Inductive Modify := Modify_MessageQueue (message_queue : MessageQueueRequest).
Record WriteData := { modifies : list Modify }.
Record CbContext := { cb_term : option Z }.
Inductive CmdRes := CmdRes_Resp (resps : list Response).

Definition modifies_to_requests (ms : list Modify) : list Request :=
  (λ m, match m with
        | Modify_MessageQueue message_queue =>
            {| req_cmd_type := MessageQueue; req_message_queue := Some message_queue |}
        end) <$> ms.

Definition new_request_header (ctx : ContextPb) : RaftRequestHeader :=
  {| rh_region_id := ctx_region_id ctx; rh_peer := Some (get_or_default (ctx_peer ctx));
     rh_uuid := []; rh_term := if ctx_term ctx =? 0 then 0 else ctx_term ctx |}.

Definition new_ctx (resp : RaftCmdResponse) : CbContext :=
  {| cb_term := Some (rsp_current_term (resp_header resp)) |}.
Definition check_raft_cmd_response (resp : RaftCmdResponse) (req_cnt : nat) : result Error unit :=
  match rsp_error (resp_header resp) with
  | Some e => Err (Error_RequestFailed e)
  | None =>
      if (req_cnt =? length (rr_responses resp))%nat then Ok tt
      else Err (Error_Other ("responses count " +:+ pretty (length (rr_responses resp)) +:+
                             " is not equal to requests count " +:+ pretty req_cnt))
  end.
Definition on_write_result (resp : RaftCmdResponse) (req_cnt : nat) :
    CbContext * result Error CmdRes :=
  let cb_ctx := new_ctx resp in
  match check_raft_cmd_response resp req_cnt with
  | Err e => (cb_ctx, Err e)
  | Ok _ => (cb_ctx, Ok (CmdRes_Resp (rr_responses resp)))
  end.

(** The command that is sent, and what becomes of its response. *)
Definition exec_write_requests {A} (ctx : ContextPb) (batch : WriteData)
    (write_cb : CbContext * result Error CmdRes → A) (channel : Z)
    (proposed_cb committed_cb : option ExtCallback) : RaftCommand * (RaftCmdResponse → A) :=
  let reqs := modifies_to_requests (modifies batch) in
  let len := length reqs in
  ({| cmd_request := {| rc_header := Some (new_request_header ctx); rc_requests := reqs;
                        rc_admin_request := None; rc_status_request := None |};
      cmd_callback := Callback_Write (Channel channel) proposed_cb committed_cb |},
   λ resp, write_cb (on_write_result resp len)).

(** ** storage.rs *)

(** The callback panics unless there is one response. *)
Definition raw_message_queue (message_queue_req : MessageQueueRequest) (channel : Z) :
    RaftCommand * (RaftCmdResponse → run (result Error MessageQueueResponse)) :=
  let ctx := get_or_default (mq_context message_queue_req) in
  let batch := {| modifies := [Modify_MessageQueue message_queue_req] |} in
  exec_write_requests ctx batch
    (λ r, match r.2 with
          | Ok (CmdRes_Resp resps) =>
              rust_assert (length resps =? 1)%nat (
              resp ← unwrap (list.last resps);
              Returns (Ok (get_or_default (resp_message_queue resp))))
          | Err e => Returns (Err e)
          end)
    channel None None.

(** ** message_queue_adapter.rs *)
Section adapter.
Context `{!DebugFmt Error}.
(** How the error of a callback dropped without a response is displayed. *)
Context (canceled : string).

Definition payload_request (region : Region) (store_id : Z) (payload : bytes) :
    MessageQueueRequest :=
  {| mq_context := Some {| ctx_region_id := region_id region;
                           ctx_peer := Some {| peer_id := store_id; peer_store_id := store_id;
                                               peer_role := Voter |};
                           ctx_term := 0 |};
     mq_payload := payload |}.
(** [None] is a callback dropped without a response. *)
Definition send_payload (region : Region) (store_id : Z) (payload : bytes) (channel : Z) :
    RaftCommand * (option RaftCmdResponse → run (result string (Z * Z))) :=
  let '(cmd, cb) := raw_message_queue (payload_request region store_id payload) channel in
  (cmd, λ reply,
     match reply with
     | None => Returns (Err canceled)
     | Some resp =>
         v ← cb resp;
         Returns (match v with
                  | Err e => Err (debug_fmt e)
                  | Ok resp => Ok (mqr_index resp, mqr_offset resp)
                  end)
     end).

(** *** Requests for the status of the raft group *)

Definition status_request (region_id store_id : Z) (cmd_type : StatusCmdType) : RaftCmdRequest :=
  {| rc_header := Some {| rh_region_id := region_id;
                          rh_peer := Some {| peer_id := 0; peer_store_id := store_id;
                                             peer_role := Voter |};
                          rh_uuid := []; rh_term := 0 |};
     rc_requests := []; rc_admin_request := None;
     rc_status_request := Some {| st_cmd_type := cmd_type |} |}.
Definition get_leader (resp : RaftCmdResponse) : metapb_Peer :=
  get_or_default (region_leader ← str_region_leader (get_or_default (rr_status_response resp));
                  rlr_leader region_leader).
Definition is_leader (region : Region) (store_id : Z) (read : Z) :
    RaftCommand * (option RaftCmdResponse → bool) :=
  ({| cmd_request := status_request (region_id region) store_id RegionLeader;
      cmd_callback := Callback_Read read |},
   λ reply, match reply with
            | None => false
            | Some resp => peer_id (get_leader resp) =? store_id
            end).

(** ** kv.rs *)

Record ProbeResponse := { probe_region : Region; probe_leader : metapb_Peer }.
(** The region is always 1. *)
Definition probe (store_id : Z) (read : Z) :
    RaftCommand * (option RaftCmdResponse → result Error ProbeResponse) :=
  ({| cmd_request := status_request 1 store_id RegionDetail; cmd_callback := Callback_Read read |},
   λ reply,
     match reply with
     | None => Err (Error_Other canceled)
     | Some resp =>
         match rsp_error (resp_header resp) with
         | Some e => Err (Error_Other (err_message e))
         | None =>
             let detail := str_region_detail (get_or_default (rr_status_response resp)) in
             Ok {| probe_region := get_or_default (d ← detail; rdr_region d);
                   probe_leader := get_or_default (d ← detail; rdr_leader d) |}
         end
     end).

Definition future_raw_message_queue (req : MessageQueueRequest) (channel : Z) :
    RaftCommand * (option RaftCmdResponse → run (result unit MessageQueueResponse)) :=
  let '(cmd, cb) := raw_message_queue req channel in
  (cmd, λ reply,
     match reply with
     | None => Returns (Err tt)
     | Some resp =>
         v ← cb resp;
         Returns (Ok (match v with
                      | Ok resp => resp
                      | Err e => {| mqr_index := 0; mqr_offset := 0; mqr_error := debug_fmt e |}
                      end))
     end).
End adapter.

Section kv.
Context {R : RocksDB} {RN : RawNode}.
Context `{!ProtoMessage Entry, !ProtoMessage RaftApplyState, !ProtoMessage RegionLocalState}.

(** The stream of raft messages of another store, up to the first for a wrong store. *)
Fixpoint service_raft (store_id : Z) (stream : list RaftMessage) : list PeerMsg * result Error unit :=
  match stream with
  | [] => ([], Ok tt)
  | msg :: stream =>
      let to_store_id := peer_store_id (rm_to_peer msg) in
      if negb (to_store_id =? store_id) then
        ([], Err (Error_Other ("to_store_id != store_id, to_store_id is " +:+ pretty to_store_id +:+
                               ", store_id is " +:+ pretty store_id)))
      else
        let '(sent, res) := service_raft store_id stream in
        (PeerMsg_RaftMessage msg :: sent, res)
  end.

Record QueryRaftLogEntriesRequest := { ql_start : Z; ql_end : Z }.
Record QueryRaftLogEntriesResponse := {
  ql_first_log_index : Z; ql_last_log_index : Z; ql_error : string; ql_entries : list Entry }.

Definition illegal_request (req : QueryRaftLogEntriesRequest)
    (first_log_index last_log_index start_index end_index : Z) : string :=
  "Illegal Request. Max(Req's start index(" +:+ pretty (ql_start req) +:+ "), first_log_index(" +:+
  pretty first_log_index +:+ "))==" +:+ pretty start_index +:+
  " is greater than min(Req's end index(" +:+ pretty (ql_end req) +:+ "), last_log_index(" +:+
  pretty last_log_index +:+ "))==" +:+ pretty end_index.

(** [e1] is read for the bounds and [e2] for the entries. *)
Definition future_query_raft_log_entries (e1 e2 : Engines) (req : QueryRaftLogEntriesRequest) :
    run QueryRaftLogEntriesResponse :=
  let region_id := 1 in
  local_state ← get_msg_cf (kv e1) CF_RAFT (region_state_key region_id);
  local_state ← unwrap (A:=RegionLocalState) local_state;
  apply_state ← init_apply_state e1 (get_or_default (rl_region local_state));
  let first_log_index := ts_index (get_truncated_state apply_state) +u 1 in
  let start_index := Z.max (ql_start req) first_log_index in
  let last_log_index := as_applied_index apply_state in
  let end_index := Z.min (ql_end req) last_log_index in
  if end_index <? start_index then
    Returns {| ql_first_log_index := first_log_index; ql_last_log_index := last_log_index;
               ql_error := illegal_request req first_log_index last_log_index start_index end_index;
               ql_entries := [] |}
  else
    '(_, entries) ← fetch_entries_to (raft e2) region_id start_index (end_index +u 1) None [];
    Returns {| ql_first_log_index := first_log_index; ql_last_log_index := last_log_index;
               ql_error := ""; ql_entries := entries |}.
End kv.

(** ** What a query of the log returns *)
Section query.
Context {R : RocksDB} {RL : RocksDBLaws R} {RN : RawNode}.
Context `{!ProtoMessage Entry, !ProtoRoundTrip Entry, !ProtoEmpty Entry}.
Context `{!ProtoMessage RaftApplyState, !ProtoRoundTrip RaftApplyState}.
Context `{!ProtoMessage RegionLocalState, !ProtoRoundTrip RegionLocalState}.

(** A query of the raft log never panics and returns exactly the entries of the
    committed log that are asked for, applied and not collected, in order; if there
    are none it returns an error and no entry.  The bounds it reports are those of
    the log. *)
Theorem query_log_exact region (C : gmap Z Entry) e1 e2 ap1 ap2 req :
  region_id region = 1 →
  db_get (kv e1) CF_RAFT (region_state_key 1)
  = Some (write_to_bytes {| rl_region := Some region |}) →
  snapshot region C e1 ap1 → snapshot region C e2 ap2 →
  as_applied_index ap1 ≤ as_applied_index ap2 →
  let start := Z.max (ql_start req) (ts_index (get_truncated_state ap1) + 1) in
  let end_ := Z.min (ql_end req) (as_applied_index ap1) in
  ts_index (get_truncated_state ap2) < start →
  (∀ es, log_range C start (end_ + 1) = Some es → total_size es < u64_max) →
  ∃ resp, future_query_raft_log_entries e1 e2 req = Returns resp ∧
    ql_first_log_index resp = ts_index (get_truncated_state ap1) + 1 ∧
    ql_last_log_index resp = as_applied_index ap1 ∧
    if end_ <? start then ql_entries resp = [] ∧ ql_error resp ≠ ""%string
    else ql_error resp = ""%string ∧ log_range C start (end_ + 1) = Some (ql_entries resp).
Proof.
  intros Hid Hregion H1 H2 Hle start end_ Ht Hsize.
  pose proof (sn_bound _ _ _ _ H1) as Hb. pose proof (sn_range _ _ _ _ H1) as Hr.
  pose proof (sn_range _ _ _ _ H2) as Hr2. unfold u64_max in Hb.
  unfold future_query_raft_log_entries, get_msg_cf at 1, get_value_cf. rewrite Hregion.
  cbn [mbind run_bind option_map]. rewrite parse_write. cbn [mbind run_bind unwrap rl_region get_or_default].
  unfold init_apply_state, get_msg_cf, get_value_cf. rewrite (sn_apply _ _ _ _ H1).
  cbn [mbind run_bind option_map]. rewrite parse_write. cbn [mbind run_bind unwrap].
  rewrite (u64_add_small (ts_index _) 1) by (unfold is_u64; lia). fold start end_.
  destruct (Z.ltb_spec end_ start) as [Hlt|Hge].
  { eexists. split; [done|]. done. }
  rewrite (u64_add_small end_ 1) by (unfold is_u64; lia).
  destruct (sn_log _ _ _ _ H2) as (L & HL & HLC). rewrite Hid in HL.
  assert (log_range L start (end_ + 1) = log_range C start (end_ + 1)) as Hext
    by (apply log_range_ext; intros i Hi; apply HLC; lia).
  destruct (log_range_total C start (end_ + 1)) as [es Hes]; [intros i Hi; apply HLC; lia|].
  rewrite (fetch_entries_spec _ _ L _ _ es) by (done || congruence || unfold u64_max; lia).
  cbn [mbind run_bind default from_option app]. rewrite (limit_size_unlimited es) by (by apply Hsize).
  eexists. split; [done|]. done.
Qed.
End query.

Module query_demo.
Definition e : Engines :=
  {| kv := write_opt consumer_demo.kv0
             (wb_put_msg_cf CF_RAFT (region_state_key 1) {| rl_region := Some consumer_demo.region |}
                wb_new);
     raft := raft consumer_demo.e |}.

Lemma query_snap : snapshot consumer_demo.region consumer_demo.C e consumer_demo.ap.
Proof. destruct consumer_demo.snap as [_ Hr Hb Hl]. split; [reflexivity|done|done|done]. Qed.
End query_demo.

(** Asked for the entries from 3 to 9 of a log that starts at 6. *)
Lemma query_log_exact_witness :
  ∃ resp, future_query_raft_log_entries query_demo.e query_demo.e {| ql_start := 3; ql_end := 9 |}
          = Returns resp ∧
    ql_first_log_index resp = 6 ∧ log_range consumer_demo.C 6 10 = Some (ql_entries resp).
Proof.
  destruct (query_log_exact consumer_demo.region consumer_demo.C query_demo.e query_demo.e
    consumer_demo.ap consumer_demo.ap {| ql_start := 3; ql_end := 9 |}) as (resp & Hr & Hf & _ & Hc).
  - reflexivity.
  - reflexivity.
  - apply query_demo.query_snap.
  - apply query_demo.query_snap.
  - apply Z.le_refl.
  - reflexivity.
  - intros es Hes. vm_compute in Hes. injection Hes as <-. reflexivity.
  - exists resp. split; [exact Hr|]. split; [exact Hf|]. apply Hc.
Defined.
