(* ===== verification/Transport.v ===== *)
(** * From the poller of one store to the mailbox of another

    The raft messages that the poller of a store sends ([Peer.x_trans]) go through the
    client and the queue of the store they are for ([RaftClient]) to the service of
    that store ([RaftKv.service_raft]). *)

From S2P Require Import Prelude Raftpb Errors RocksEngine RaftCmd Peer RaftKv Lru RaftClient.
Local Open Scope Z_scope.

Section transport.
Context {R : RocksDB} {RN : RawNode}.
Implicit Types (msgs : list RaftMessage).

Definition message_store (msg : RaftMessage) : Z := peer_store_id (rm_to_peer msg).

Lemma service_raft_accepts store_id msgs :
  Forall (λ m, message_store m = store_id) msgs →
  service_raft store_id msgs = (PeerMsg_RaftMessage <$> msgs, Ok tt).
Proof.
  unfold message_store. induction 1 as [|m msgs Hm _ IH]; [done|]. cbn.
  by rewrite Hm, Z.eqb_refl, IH.
Qed.

(** The messages a client sends one after the other. *)
Fixpoint send_all msgs (net : Net RaftMessage) (c : RaftClient) : run (Net RaftMessage * RaftClient) :=
  match msgs with
  | [] => Returns (net, c)
  | msg :: msgs => '(net, c) ← client_send message_store msg net c; send_all msgs net c
  end.

Definition buffered (net : Net RaftMessage) (store_id : Z) : list RaftMessage :=
  match queue_of net (store_id, 0) with Some q => q_buf q | None => [] end.

(** There is room for [n] more messages in every queue. *)
Definition has_room (n : Z) (net : Net RaftMessage) : Prop :=
  n ≤ QUEUE_CAPACITY ∧
  ∀ store_id q, queue_of net (store_id, 0) = Some q → Z.of_nat (length (q_buf q)) + n ≤ q_cap q.

Lemma send_one msg net c n :
  net_ok message_store net → (∃ ls s, client_ok net c ls s) → 0 ≤ n → has_room (n + 1) net →
  Z.of_nat (size (net_connections net)) + 1 < u64_modulus →
  ∃ net' c', client_send message_store msg net c = Returns (net', c') ∧
    net_ok message_store net' ∧ (∃ ls s, client_ok net' c' ls s) ∧ has_room n net' ∧
    (size (net_connections net') ≤ size (net_connections net) + 1)%nat ∧
    ∀ store_id, buffered net' store_id =
      buffered net store_id ++ (if decide (message_store msg = store_id) then [msg] else []).
Proof.
  intros Hn Hc Hpos [Hcap Hroom] Hsize.
  set (q := default (queue_with_capacity QUEUE_CAPACITY) (queue_of net (message_store msg, 0))).
  assert (Hq : Z.of_nat (length (q_buf q)) + (n + 1) ≤ q_cap q).
  { unfold q. destruct (queue_of net (message_store msg, 0)) eqn:Hq; [by eapply Hroom|]. cbn. lia. }
  destruct (client_send_ok message_store msg net c Hn Hc Hsize) as
    (net' & c' & Hs & Hn' & Hc' & _ & Hq' & Hother & Hsz); [fold q; lia|].
  exists net', c'. split; [done|]. split; [done|]. split; [done|]. fold q in Hq'. split; [|split; [done|]].
  - split; [lia|]. intros store_id q0 Hq0. destruct (decide (store_id = message_store msg)) as [->|Hne].
    + rewrite Hq' in Hq0. injection Hq0 as <-. cbn. rewrite length_app. cbn. lia.
    + rewrite Hother in Hq0 by congruence. apply Hroom in Hq0. lia.
  - intros store_id. unfold buffered. destruct (decide (message_store msg = store_id)) as [<-|Hne].
    + rewrite Hq'. cbn. unfold q. by destruct (queue_of net (message_store msg, 0)).
    + rewrite Hother by congruence. by rewrite app_nil_r.
Qed.

Definition for_store (store_id : Z) msgs : list RaftMessage :=
  filter (λ m, message_store m = store_id) msgs.

(** What a client sends reaches the queues store by store: the queue of a store gets
    exactly the messages for it, in their order, whatever is sent to the others, and
    the service of the store accepts all of them for its peer. *)
Theorem sent_messages_are_routed msgs net c :
  net_ok message_store net → (∃ ls s, client_ok net c ls s) →
  has_room (Z.of_nat (length msgs)) net →
  Z.of_nat (size (net_connections net) + length msgs) < u64_modulus →
  ∃ net' c', send_all msgs net c = Returns (net', c') ∧
    ∀ store_id, buffered net' store_id = buffered net store_id ++ for_store store_id msgs ∧
      service_raft store_id (buffered net' store_id) =
        (PeerMsg_RaftMessage <$> buffered net' store_id, Ok tt).
Proof.
  revert net c. induction msgs as [|msg msgs IH]; intros net c Hn Hc Hroom Hsize.
  - exists net, c. split; [done|]. intros store_id. rewrite app_nil_r. split; [done|].
    apply service_raft_accepts. unfold buffered, queue_of.
    destruct (net_connections net !! (store_id, 0)) as [s|] eqn:Hs; [|constructor]. cbn.
    by destruct (net_queue _ _ Hn _ _ Hs) as (q & -> & Hall).
  - cbn [length] in Hroom, Hsize.
    destruct (send_one msg net c (Z.of_nat (length msgs)) Hn Hc)
      as (net1 & c1 & Hs1 & Hn1 & Hc1 & Hroom1 & Hsz1 & Hb1); [lia| |lia|].
    { by replace (Z.of_nat (length msgs) + 1) with (Z.of_nat (S (length msgs))) by lia. }
    destruct (IH net1 c1 Hn1 Hc1 Hroom1) as (net2 & c2 & Hs2 & Hall); [lia|].
    exists net2, c2. cbn [send_all]. rewrite Hs1. cbn [mbind run_bind]. split; [done|]. intros store_id.
    destruct (Hall store_id) as [Hb2 Hserv]. split; [|done].
    rewrite Hb2, Hb1, <-(assoc_L (++)). f_equal. unfold for_store.
    rewrite list.filter_cons. by destruct (decide (message_store msg = store_id)).
Qed.
End transport.
