(* ===== verification/Pipeline.v ===== *)
(** * From the client to the consumer

    The position that a client gets for a message is the one at which the consumer
    of the queue receives it: the batch of peer.rs, the entry of the raft log, the
    responses of apply.rs and the parser of message_queue_adapter.rs agree. *)

From S2P Require Import Prelude Bytes Keys Proto Raftpb Errors RocksEngine RefRocks RefCodec.
From S2P Require Import RaftLog PeerStorage StorageSpec RaftCmd Batch Apply ApplySpec.
From S2P Require Import Peer MessageQueue LogConsumer RaftKv.
Local Open Scope Z_scope.

Section pipeline.
Context {R : RocksDB} {RL : RocksDBLaws R}.
Context `{!ProtoMessage RaftCmdRequest, !ProtoRoundTrip RaftCmdRequest}.
Context `{!ProtoEmpty RaftCmdRequest}.
Context `{!ProtoMessage RaftApplyState, !ProtoRoundTrip RaftApplyState, !DebugFmt Error}.
Context {T : Type} (decode : bytes → option T).

(** A request of the message queue and the message in it. *)
Definition carries (r : Request) (m : T) : Prop :=
  req_cmd_type r = MessageQueue ∧
  decode (mq_payload (get_or_default (req_message_queue r))) = Some m.

Lemma parse_payloads requests messages :
  Forall2 carries requests messages → mapM (parse_payload decode) requests = Returns messages.
Proof.
  induction 1 as [|r m requests messages [Ht Hm] _ IH]; [done|].
  assert (parse_payload decode r = Returns m) as Hp.
  { unfold parse_payload. rewrite bool_decide_eq_true_2 by done. cbn. by rewrite Hm. }
  cbn [mapM]. rewrite Hp. cbn. by rewrite IH.
Qed.

Lemma parse_log_entry_spec e cmd messages :
  entry_data e = write_to_bytes cmd → Forall2 carries (rc_requests cmd) messages →
  parse_log_entry decode e = Returns (entry_index e, messages).
Proof.
  intros He Hm. unfold parse_log_entry. destruct (entry_data e) as [|x data] eqn:Hd.
  - rewrite (write_empty cmd) in Hm by done.
    apply Forall2_nil_inv_l in Hm as ->. done.
  - rewrite He, parse_write. cbn. by rewrite (parse_payloads _ _ Hm).
Qed.

Lemma write_resp_no_error index cmd term : has_error (bind_term (write_resp index cmd) term) = false.
Proof.
  unfold bind_term, write_resp, copy_uuid. destruct (term =? 0); cbn; by destruct (rh_uuid _).
Qed.
Lemma write_resp_responses index cmd term :
  rr_responses (bind_term (write_resp index cmd) term)
  = position_response index <$> seq 0 (length (rc_requests cmd)).
Proof. unfold bind_term. by destruct (term =? 0). Qed.

Lemma invoke_all_elem cbs sent cb resp :
  invoke_all cbs = Returns sent → (cb, resp) ∈ cbs →
  ∃ mine, invoke_with_response cb resp = Returns mine ∧ ∀ x, x ∈ mine → x ∈ sent.
Proof.
  revert sent. induction cbs as [|[cb' resp'] cbs IH]; intros sent Hs Hin.
  { by apply elem_of_nil in Hin. }
  cbn in Hs. apply run_bind_Returns in Hs as (s1 & H1 & Hs).
  apply run_bind_Returns in Hs as (s2 & H2 & [= <-]). apply elem_of_cons in Hin as [[= -> ->]|Hin].
  - exists s1. split; [done|]. intros x Hx. apply elem_of_app. by left.
  - destruct (IH s2 H2 Hin) as (mine & Hm & Hall). exists mine. split; [done|].
    intros x Hx. apply elem_of_app. right. by apply Hall.
Qed.

(** The [k]-th response of the [j]-th command of a batch. *)
Lemma own_response_position cmds j c k r index cmd term messages :
  rc_requests cmd = requests_of cmds → cmds !! j = Some c →
  rc_requests (cmd_request c.1) !! k = Some r → Forall2 carries (requests_of cmds) messages →
  ∃ o m, rr_responses (own_response (bind_term (write_resp index cmd) term)
                         (length (requests_of (take j cmds)))
                         (length (rc_requests (cmd_request c.1)))) !! k
         = Some (position_response index o) ∧
    messages !! o = Some m ∧ carries r m.
Proof.
  intros Hreq Hj Hk Hm. set (before := length (requests_of (take j cmds))).
  assert (requests_of cmds !! (before + k)%nat = Some r) as Hr.
  { unfold requests_of. rewrite <-(take_drop_middle cmds j c Hj) at 1.
    rewrite fmap_app, concat_app, lookup_app_r by (unfold before, requests_of; lia).
    unfold before, requests_of. rewrite Nat.add_sub_swap, Nat.sub_diag by lia. cbn.
    by apply lookup_app_l_Some. }
  destruct (Forall2_lookup_l _ _ _ _ _ Hm Hr) as (m & Hlm & Hc).
  exists (before + k)%nat, m. split; [|done]. unfold own_response.
  cbn. rewrite write_resp_no_error, write_resp_responses, Hreq.
  pose proof (lookup_lt_Some _ _ _ Hk). pose proof (lookup_lt_Some _ _ _ Hr).
  rewrite lookup_take_lt, lookup_drop by done. rewrite list_lookup_fmap, lookup_seq_lt by done. done.
Qed.

Lemma write_resp_answers index cmd term n :
  length (rc_requests cmd) = n → term ≠ 0 →
  write_response (bind_term (write_resp index cmd) term) n.
Proof.
  intros Hn Ht. apply Z.eqb_neq in Ht. split.
  - unfold bind_term. by rewrite Ht.
  - unfold bind_term. by rewrite Ht.
  - unfold bind_term. by rewrite Ht.
  - rewrite write_resp_no_error, write_resp_responses, length_fmap, length_seq. done.
Qed.

Lemma own_response_shape cmds j c index cmd term :
  rc_requests cmd = requests_of cmds → cmds !! j = Some c →
  let resp := own_response (bind_term (write_resp index cmd) term)
                (length (requests_of (take j cmds))) (length (rc_requests (cmd_request c.1))) in
  rsp_error (resp_header resp) = None ∧
  length (rr_responses resp) = length (rc_requests (cmd_request c.1)).
Proof.
  intros Hreq Hj resp. pose proof (write_resp_no_error index cmd term) as He. split.
  - unfold has_error in He. apply bool_decide_eq_false in He. apply eq_None_not_Some. exact He.
  - unfold resp, own_response. cbn. rewrite He, length_take, length_drop, write_resp_responses,
      length_fmap, length_seq, Hreq.
    enough (length (requests_of cmds) = length (requests_of (take j cmds)) +
      (length (rc_requests (cmd_request c.1)) + length (requests_of (drop (S j) cmds))))%nat by lia.
    rewrite <-(take_drop_middle cmds j c Hj) at 1. unfold requests_of.
    by rewrite fmap_app, concat_app, length_app, fmap_cons, concat_cons, length_app.
Qed.

(** The responses to the commands of a batch and the messages of its entry. *)
Lemma batch_positions b c cmds chans cmd p applies ctx d sent messages :
  batch_empty b →
  (λ c, channel_of (cmd_callback c.1)) <$> c :: cmds = Some <$> chans →
  rc_admin_request (cmd_request c.1) = None →
  (build (add_all b (c :: cmds))).1 = Some cmd →
  Forall2 carries (requests_of (c :: cmds)) messages →
  Forall (λ a, 0 < apply_term a) applies →
  idle d → tasks_ok d applies → ac_applied_batch ctx = [] → ac_apply_res ctx = [] →
  invoke_all (apply_many d applies).1.1 = Returns sent →
  p ∈ concat (apply_cbs <$> applies) → pr_cb p = cmd_callback cmd →
  (∀ a e, a ∈ applies → e ∈ apply_entries a → entry_index e = pr_index p →
     entry_term e = pr_term p → entry_data e = write_to_bytes (cmd_request cmd)) →
  ∃ ctx' d' a e,
    poll_once (Msg_Apply <$> applies) ctx d = Returns (ctx', d') ∧
    a ∈ applies ∧ e ∈ apply_entries a ∧ entry_index e = pr_index p ∧
    parse_log_entry decode e = Returns (pr_index p, messages) ∧
    ∀ j cj ch k r, (c :: cmds) !! j = Some cj → chans !! j = Some ch →
      rc_requests (cmd_request cj.1) !! k = Some r →
      ∃ resp o m, SentResponse ch resp ∈ ac_sent ctx' ∧
        rsp_error (resp_header resp) = None ∧
        length (rr_responses resp) = length (rc_requests (cmd_request cj.1)) ∧
        rr_responses resp !! k = Some (position_response (pr_index p) o) ∧
        messages !! o = Some m ∧ carries r m.
Proof.
  intros Hb Hch Hadm Hbuild Hm Hterms Hid Hok Hab Har Hinv Hp Hcb Hdata.
  assert (applies ≠ []) as Hne by (intros ->; by apply elem_of_nil in Hp).
  pose proof (build_add_all b c cmds Hb) as Hba. destruct (build _) as [built b'].
  destruct Hba as (_ & _ & _ & cmd' & Hb' & Hreq & Hans). cbn in Hbuild. rewrite Hb' in Hbuild.
  injection Hbuild as ->. clear Hb'.
  pose proof (poll_once_spec applies ctx d sent Hid Hok Hne Hab Har) as Hpoll.
  pose proof (apply_many_answers d applies Hid Hok) as Hall.
  destruct (apply_many d applies) as [[answers ress] d']. destruct (Hpoll Hinv) as (ctx' & Hrun & Hsent & _).
  apply list_elem_of_lookup in Hp as [i Hi].
  destruct (Forall2_lookup_l _ _ _ _ _ Hall Hi) as ([cb resp] & Hi' & a & Ha & _ & Hcb' & e & req &
    He & Hidx & Hterm & Hparse & Hresp). cbn in Hcb', Hidx, Hterm, Hresp.
  pose proof (Hdata a e Ha He Hidx Hterm) as Hed. rewrite Hed, parse_write in Hparse.
  injection Hparse as <-.
  assert (rc_requests (cmd_request cmd) = requests_of (c :: cmds)) as Hrs by (by rewrite Hreq).
  exists ctx', (dg_set_flushed d'), a, e. split_and!; [done..| |].
  { rewrite <-Hidx. apply (parse_log_entry_spec e (cmd_request cmd)); [done|]. by rewrite Hrs. }
  intros j cj ch k r Hj Hjc Hk.
  destruct (invoke_all_elem answers sent cb resp Hinv) as (mine & Hmine & Hsub).
  { by eapply list_elem_of_lookup_2. }
  rewrite Hresp in Hmine by (by rewrite Hreq). rewrite Hcb', Hcb, Hans in Hmine.
  2: { apply write_resp_answers; [by rewrite Hrs|].
       rewrite list.Forall_forall in Hterms. specialize (Hterms a Ha). lia. }
  destruct (answers_channels (bind_term (write_resp (pr_index p) (cmd_request cmd)) (apply_term a))
    (c :: cmds) 0 chans Hch) as (s' & Hs' & _ & Hlk). rewrite Hmine in Hs'. injection Hs' as <-.
  destruct (own_response_position (c :: cmds) j cj k r (pr_index p) (cmd_request cmd)
    (apply_term a) messages Hrs Hj Hk Hm) as (o & m & Ho & Hmo & Hcr).
  exists (own_response (bind_term (write_resp (pr_index p) (cmd_request cmd)) (apply_term a))
    (length (requests_of (take j (c :: cmds)))) (length (rc_requests (cmd_request cj.1)))), o, m.
  destruct (own_response_shape (c :: cmds) j cj (pr_index p) (cmd_request cmd) (apply_term a) Hrs Hj).
  split_and!; [|done..]. rewrite Hsent. apply elem_of_app. right. apply Hsub.
  eapply list_elem_of_lookup_2. by apply Hlk.
Qed.
(** A client of [send_payload], waiting on its channel. *)
Record Client := { cl_payload : bytes; cl_channel : Z }.
Definition client_command (region : Region) (store_id : Z) (canceled : string) (c : Client) :
    RaftCommand :=
  (send_payload canceled region store_id (cl_payload c) (cl_channel c)).1.

(** What the clients of one batch are answered, and where the consumer finds their
    messages. *)
Lemma payload_positions region store_id canceled b c clients size cmd p applies ctx d sent
    messages :
  let commands := (λ c, (client_command region store_id canceled c, size c)) <$> c :: clients in
  batch_empty b → (build (add_all b commands)).1 = Some cmd →
  Forall2 (λ c m, decode (cl_payload c) = Some m) (c :: clients) messages →
  Forall (λ a, 0 < apply_term a) applies →
  idle d → tasks_ok d applies → ac_applied_batch ctx = [] → ac_apply_res ctx = [] →
  invoke_all (apply_many d applies).1.1 = Returns sent →
  p ∈ concat (apply_cbs <$> applies) → pr_cb p = cmd_callback cmd →
  (∀ a e, a ∈ applies → e ∈ apply_entries a → entry_index e = pr_index p →
     entry_term e = pr_term p → entry_data e = write_to_bytes (cmd_request cmd)) →
  ∃ ctx' d' a e,
    poll_once (Msg_Apply <$> applies) ctx d = Returns (ctx', d') ∧
    a ∈ applies ∧ e ∈ apply_entries a ∧ entry_index e = pr_index p ∧
    parse_log_entry decode e = Returns (pr_index p, messages) ∧
    ∀ j cj, (c :: clients) !! j = Some cj →
      ∃ resp o m, SentResponse (cl_channel cj) resp ∈ ac_sent ctx' ∧
        (send_payload canceled region store_id (cl_payload cj) (cl_channel cj)).2 (Some resp)
        = Returns (Ok (pr_index p, Z.of_nat o)) ∧
        messages !! o = Some m ∧ decode (cl_payload cj) = Some m.
Proof.
  intros commands Hb Hbuild Hm Hterms Hid Hok Hab Har Hinv Hp Hcb Hdata.
  assert (Forall2 carries (requests_of commands) messages) as Hcarry.
  { unfold commands. clear -Hm. induction Hm as [|cl m cls ms Hd _ IH]; [constructor|].
    cbn. constructor; [by split|exact IH]. }
  destruct (batch_positions b (client_command region store_id canceled c, size c)
    ((λ c, (client_command region store_id canceled c, size c)) <$> clients)
    (cl_channel <$> c :: clients) cmd p applies ctx d sent messages)
    as (ctx' & d' & a & e & Hrun & Ha & He & Hidx & Hparse & Hall); try done.
  { change ((λ c, channel_of (cmd_callback c.1)) <$> commands
      = Some <$> (cl_channel <$> c :: clients)). unfold commands. by rewrite <-!list_fmap_compose. }
  exists ctx', d', a, e. split_and!; try done. intros j cj Hj.
  assert (commands !! j = Some (client_command region store_id canceled cj, size cj)) as Hjc
    by (unfold commands; by rewrite list_lookup_fmap, Hj).
  destruct (Hall j _ (cl_channel cj) 0%nat
    {| req_cmd_type := Raftpb.MessageQueue;
       req_message_queue := Some (payload_request region store_id (cl_payload cj)) |} Hjc)
    as (resp & o & m & Hin & Herr & Hlen & Hpos & Hmo & Hc).
  { by rewrite list_lookup_fmap, Hj. }
  { reflexivity. }
  exists resp, o, m. split_and!; [done| |done|apply Hc].
  cbn. unfold on_write_result, check_raft_cmd_response. rewrite Herr. cbn in Hlen. rewrite Hlen. cbn.
  destruct (rr_responses resp) as [|r0 [|]]; try done. cbn in Hpos |- *. by injection Hpos as ->.
Qed.

(** C8. The position that a client gets for a message is the position at which the
    consumer of the queue receives it.  If the clients of [send_payload] were put in
    one batch and the entry at the position of its proposal is the batch, then when
    the turn of the apply worker ends every client has been answered, the future of
    [send_payload] resolves to the index of the entry and an offset in it, and the
    consumer, parsing that entry, finds the client's message at that offset. *)
Theorem payload_is_delivered region store_id canceled b c clients size cmd p applies ctx d sent
    messages :
  let commands := (λ c, (client_command region store_id canceled c, size c)) <$> c :: clients in
  batch_empty b → (build (add_all b commands)).1 = Some cmd →
  Forall2 (λ c m, decode (cl_payload c) = Some m) (c :: clients) messages →
  Forall (λ a, 0 < apply_term a) applies →
  idle d → tasks_ok d applies → ac_applied_batch ctx = [] → ac_apply_res ctx = [] →
  invoke_all (apply_many d applies).1.1 = Returns sent →
  p ∈ concat (apply_cbs <$> applies) → pr_cb p = cmd_callback cmd →
  (∀ a e, a ∈ applies → e ∈ apply_entries a → entry_index e = pr_index p →
     entry_term e = pr_term p → entry_data e = write_to_bytes (cmd_request cmd)) →
  ∃ ctx' d' a e,
    poll_once (Msg_Apply <$> applies) ctx d = Returns (ctx', d') ∧
    a ∈ applies ∧ e ∈ apply_entries a ∧ entry_index e = pr_index p ∧
    parse_log_entry decode e = Returns (pr_index p, messages) ∧
    ∀ j cj, (c :: clients) !! j = Some cj →
      ∃ resp o m, SentResponse (cl_channel cj) resp ∈ ac_sent ctx' ∧
        (send_payload canceled region store_id (cl_payload cj) (cl_channel cj)).2 (Some resp)
        = Returns (Ok (pr_index p, Z.of_nat o)) ∧
        messages !! o = Some m ∧ decode (cl_payload cj) = Some m.
Proof. apply payload_positions. Qed.
End pipeline.

(** ** A concrete batch of two clients *)

Module pipeline_demo.
Definition client1 : Client := {| cl_payload := [Byte.x01]; cl_channel := 1 |}.
Definition client2 : Client := {| cl_payload := [Byte.x02]; cl_channel := 2 |}.
Definition command (c : Client) : RaftCommand := client_command demo.region 1 "canceled" c.
Definition built : RaftCommand :=
  default (command client1)
    (build (add_all peer_batch_new [(command client1, 60); (command client2, 60)])).1.
Definition entry : Entry :=
  {| entry_type := EntryNormal; entry_term := 6; entry_index := 7;
     entry_data := write_to_bytes (cmd_request built); entry_context := [];
     entry_sync_log := false |}.
Definition proposal : Proposal :=
  {| pr_is_conf_change := false; pr_index := 7; pr_term := 6; pr_cb := cmd_callback built;
     pr_propose_time := None; pr_must_pass_epoch_check := true |}.
Definition msg : ApplyMsg :=
  {| apply_peer_id := 1; apply_region_id := 1; apply_term := 6;
     apply_entries := [apply_demo.e6; entry]; apply_cbs := [proposal] |}.
Definition messages : list bytes := [[Byte.x01]; [Byte.x02]].

Lemma pipeline_ok : tasks_ok apply_demo.d [msg].
Proof.
  constructor; [|constructor]. split; [done| | |done].
  - constructor; [done|done| |constructor; [done|done| |constructor]].
    + by split.
    + split; [done|done|done|]. intros _. exists (cmd_request built).
      split; [by apply parse_write|done].
  - apply cmds_match_skip, cmds_match_take; [done|done|done|constructor].
Qed.

Lemma pipeline_answers : is_Some (match invoke_all (apply_many apply_demo.d [msg]).1.1 with
                         | Returns sent => Some sent | Panics => None end).
Proof. vm_compute. eexists. reflexivity. Qed.
End pipeline_demo.

(** The second client's message is where the consumer finds it. *)
Lemma payload_is_delivered_witness :
  parse_log_entry Some pipeline_demo.entry = Returns (7, pipeline_demo.messages) ∧
  ∃ ctx' d' resp o,
    poll_once [Msg_Apply pipeline_demo.msg] apply_demo.c apply_demo.d = Returns (ctx', d') ∧
    SentResponse 2 resp ∈ ac_sent ctx' ∧
    (send_payload "canceled" demo.region 1 [Byte.x02] 2).2 (Some resp)
    = Returns (Ok (7, Z.of_nat o)) ∧
    pipeline_demo.messages !! o = Some [Byte.x02].
Proof.
  split; [vm_compute; reflexivity|].
  destruct pipeline_demo.pipeline_answers as [sent Hs].
  destruct (invoke_all _) as [sent'|] eqn:Hinv; [|discriminate Hs].
  destruct (payload_is_delivered Some demo.region 1 "canceled" peer_batch_new
    pipeline_demo.client1 [pipeline_demo.client2] (λ _, 60) pipeline_demo.built
    pipeline_demo.proposal [pipeline_demo.msg] apply_demo.c apply_demo.d sent'
    pipeline_demo.messages) as (ctx' & d' & a & e & Hrun & _ & _ & _ & _ & Hall).
  - split; reflexivity.
  - reflexivity.
  - repeat constructor.
  - repeat constructor.
  - apply apply_demo.idle_d.
  - apply pipeline_demo.pipeline_ok.
  - reflexivity.
  - reflexivity.
  - exact Hinv.
  - apply list_elem_of_here.
  - reflexivity.
  - intros a e ->%list_elem_of_singleton [->| ->%list_elem_of_singleton]%elem_of_cons; [discriminate|].
    reflexivity.
  - destruct (Hall 1%nat _ eq_refl) as (resp & o & m & Hin & Hpos & Hm & Hc).
    exists ctx', d', resp, o. split; [exact Hrun|]. split; [exact Hin|]. split; [exact Hpos|].
    injection Hc as <-. exact Hm.
Defined.
