(* ===== verification/StateMachine.v ===== *)
(** * state_machine.rs

    The wallet state machine: it applies the commands of the raft log in
    order, keeps the accounts in memory, and batches its updates to RocksDB. *)

From S2P Require Import Prelude Bytes Keys Proto Errors RefDecimal BalanceCalculator Account.
From S2P Require Import RocksEngine Internal RocksDBState MessageBroker MessageQueue.
Local Open Scope Z_scope.

Section state_machine.
Context {BD : BigDecimal} {R : RocksDB}.
Context `{!ProtoMessage AccountPb, !ProtoMessage EventPb}.

(** ** State *)

Record StateMachine := {
  accounts : gmap string AccountPb;
  applied_index : Z;
  last_seq_num : Z;
  seq_num_cache : gmap string Z;
  event_cache : gmap Z EventPb;
  (** the RocksDB instance that [rocksdb_state] wraps *)
  rocksdb : DB }.

(** [inflight_event_tx] is what has been sent on the channel to the broker,
    oldest first; the broker outlives the state machine, so [send] succeeds. *)
Record ApplyContext := {
  batch_size : Z;
  wb : RocksWriteBatch;
  to_be_deleted_account_ids : list string;
  flushed_applied_index : Z;
  flushed_timestamp : Z;
  inflight_event_tx : list InflightEvent }.

Abbreviation state := (StateMachine * ApplyContext)%type.

Definition set_accounts (m : gmap string AccountPb) (s : StateMachine) : StateMachine :=
  {| accounts := m; applied_index := applied_index s; last_seq_num := last_seq_num s;
     seq_num_cache := seq_num_cache s; event_cache := event_cache s; rocksdb := rocksdb s |}.
Definition set_last_seq_num (n : Z) (s : StateMachine) : StateMachine :=
  {| accounts := accounts s; applied_index := applied_index s; last_seq_num := n;
     seq_num_cache := seq_num_cache s; event_cache := event_cache s; rocksdb := rocksdb s |}.
Definition set_applied_index (n : Z) (s : StateMachine) : StateMachine :=
  {| accounts := accounts s; applied_index := n; last_seq_num := last_seq_num s;
     seq_num_cache := seq_num_cache s; event_cache := event_cache s; rocksdb := rocksdb s |}.
Definition set_caches (sc : gmap string Z) (ec : gmap Z EventPb) (s : StateMachine) :
    StateMachine :=
  {| accounts := accounts s; applied_index := applied_index s;
     last_seq_num := last_seq_num s; seq_num_cache := sc; event_cache := ec;
     rocksdb := rocksdb s |}.
Definition set_rocksdb (d : DB) (s : StateMachine) : StateMachine :=
  {| accounts := accounts s; applied_index := applied_index s;
     last_seq_num := last_seq_num s; seq_num_cache := seq_num_cache s;
     event_cache := event_cache s; rocksdb := d |}.
Definition set_wb (w : RocksWriteBatch) (c : ApplyContext) : ApplyContext :=
  {| batch_size := batch_size c; wb := w;
     to_be_deleted_account_ids := to_be_deleted_account_ids c;
     flushed_applied_index := flushed_applied_index c;
     flushed_timestamp := flushed_timestamp c; inflight_event_tx := inflight_event_tx c |}.
Definition push_to_be_deleted (id : string) (c : ApplyContext) : ApplyContext :=
  {| batch_size := batch_size c; wb := wb c;
     to_be_deleted_account_ids := to_be_deleted_account_ids c ++ [id];
     flushed_applied_index := flushed_applied_index c;
     flushed_timestamp := flushed_timestamp c; inflight_event_tx := inflight_event_tx c |}.

Definition send_event (p : Position) (e : GeneralResult EventPb) (c : ApplyContext) :
    ApplyContext :=
  {| batch_size := batch_size c; wb := wb c;
     to_be_deleted_account_ids := to_be_deleted_account_ids c;
     flushed_applied_index := flushed_applied_index c;
     flushed_timestamp := flushed_timestamp c;
     inflight_event_tx :=
       inflight_event_tx c ++ [{| ie_position := p; ie_event := e |}] |}.

(** ** Recovery *)

Definition context_new (batch_size applied_index now : Z) : ApplyContext :=
  {| batch_size := batch_size; wb := wb_new; to_be_deleted_account_ids := [];
     flushed_applied_index := applied_index; flushed_timestamp := now;
     inflight_event_tx := [] |}.

Definition recover_from_db (d : DB) (batch_size now : Z) : run state :=
  accounts ← read_accounts_from_db d;
  applied_index ← read_hard_state_from_db d APPLIED_INDEX;
  persisted_last_seq_num ← read_hard_state_from_db d PERSISTED_LAST_SEQ_NUM;
  Returns ({| accounts := accounts; applied_index := applied_index;
              last_seq_num := persisted_last_seq_num; seq_num_cache := ∅;
              event_cache := ∅; rocksdb := d |},
           context_new batch_size applied_index now).

(** ** Lookups: the caches first, then the disk *)

Definition get_event (s : StateMachine) (seq_num : Z) : run (option EventPb) :=
  match event_cache s !! seq_num with
  | Some e => Returns (Some e)
  | None => read_event_from_db (rocksdb s) seq_num
  end.

Definition get_seq_num (s : StateMachine) (command_id : string) : run (option Z) :=
  match seq_num_cache s !! command_id with
  | Some n => Returns (Some n)
  | None => read_seq_num_from_db (rocksdb s) command_id
  end.

Definition get_or_create_account (s : StateMachine) (id : string) : AccountPb :=
  match accounts s !! id with
  | None => account_new id
  | Some account => account
  end.

Definition assert_account_exists (s : StateMachine) (id : string) : GeneralResult AccountPb :=
  match accounts s !! id with
  | Some account => Ok account
  | None => Err (EAccountManagement (AccountNotExist id))
  end.

(** ** Handlers

    A handler mutates the state machine and the context and returns an event
    or an error; on an early return the mutations made so far stay. *)

Definition handler (A : Type) : Type := state → GeneralResult A * state.

Global Instance handler_ret : MRet handler := λ A a st, (Ok a, st).
Global Instance handler_bind : MBind handler := λ A B f m st,
  match m st with
  | (Ok a, st') => f a st'
  | (Err e, st') => (Err e, st')
  end.
(** The [?] operator on a result that does not touch the state. *)
Definition try {A} (r : GeneralResult A) : handler A := λ st, (r, st).
Definition gets {A} (f : StateMachine → A) : handler A := λ st, (Ok (f st.1), st).
Definition modify (f : state → state) : handler unit := λ st, (Ok (), f st).

Definition bump_seq_num : handler unit :=
  modify (λ '(s, c), (set_last_seq_num (last_seq_num s +u 1) s, c)).

Definition update_account (account : AccountPb) : handler unit :=
  modify (λ '(s, c),
    let id := account_id account in
    (set_accounts (<[id:=account]> (accounts s)) s,
     set_wb (wb_put (data_key (as_bytes id)) (write_to_bytes account) (wb c)) c)).

Definition delete_account (account : AccountPb) : handler unit :=
  modify (λ '(s, c),
    let id := account_id account in
    (set_accounts (<[id:=account]> (accounts s)) s,
     push_to_be_deleted id (set_wb (wb_delete (data_key (as_bytes id)) (wb c)) c))).

Definition handle_transfer (r : TransferRequest) (log_index offset : Z) : handler EventPb :=
  let spec := get_or_default (transfer_spec r) in
  let amount := ts_amount spec in
  from_account ← gets (λ s, get_or_create_account s (ts_from_account_id spec));
  to_account ← gets (λ s, get_or_create_account s (ts_to_account_id spec));
  try (validate_asset_class_compatibility from_account to_account);;
  '(updated_to_account, to_balance_change) ← try (increase_balance_by to_account amount);
  neg_amount ← try (calc_neg amount);
  '(updated_from_account, from_balance_change) ←
    try (increase_balance_by from_account neg_amount);
  bump_seq_num;;
  update_account updated_to_account;;
  update_account updated_from_account;;
  seq_num ← gets last_seq_num;
  mret (build_transfer_event seq_num log_index offset r
          from_balance_change to_balance_change).

(** The loop over the specs: each account is read from [self.accounts], which
    the loop does not update. *)
Fixpoint batch_updates (s : StateMachine) (specs : list BalanceOperationSpec) :
    GeneralResult (list BalanceChange * list AccountPb) :=
  match specs with
  | [] => Ok ([], [])
  | spec :: specs =>
      let account := get_or_create_account s (bos_account_id spec) in
      '(updated_account, balance_change) ← increase_balance_by account (bos_amount spec);
      '(changes, updated) ← batch_updates s specs;
      Ok (balance_change :: changes, updated_account :: updated)
  end.

Fixpoint update_accounts (updated : list AccountPb) : handler unit :=
  match updated with
  | [] => mret ()
  | account :: updated => update_account account;; update_accounts updated
  end.

Definition handle_batch_balance_operation (r : BatchBalanceOperationRequest)
    (log_index offset : Z) : handler EventPb :=
  updates ← gets (λ s, batch_updates s (balance_operation_spec r));
  '(changes, updated_accounts) ← try updates;
  bump_seq_num;;
  update_accounts updated_accounts;;
  seq_num ← gets last_seq_num;
  mret (build_batch_event seq_num log_index offset r changes).

Definition handle_reserve (r : ReserveRequest) (log_index offset : Z) : handler EventPb :=
  found ← gets (λ s, assert_account_exists s (reserve_account_id r));
  prev_account ← try found;
  let prev_balance := get_balance prev_account in
  curr_account ← try (reserve prev_account (reserve_reservation_id r) (reserve_amount r));
  let curr_balance := get_balance curr_account in
  bump_seq_num;;
  update_account curr_account;;
  seq_num ← gets last_seq_num;
  mret (build_reserve_event seq_num log_index offset r prev_balance curr_balance).

Definition handle_release (r : ReleaseRequest) (log_index offset : Z) : handler EventPb :=
  found ← gets (λ s, assert_account_exists s (release_account_id r));
  prev_account ← try found;
  let prev_balance := get_balance prev_account in
  curr_account ← try (
    if decide (release_amount r = "") then
      release_all prev_account (release_reservation_id r)
    else partial_release prev_account (release_reservation_id r) (release_amount r));
  let curr_balance := get_balance curr_account in
  bump_seq_num;;
  update_account curr_account;;
  seq_num ← gets last_seq_num;
  mret (build_release_event seq_num log_index offset r prev_balance curr_balance).

Definition handle_create_account (r : CreateAccountRequest) (log_index offset : Z) :
    handler EventPb :=
  let id := req_account_id (get_or_default (create_header r)) in
  existing ← gets (λ s, accounts s !! id);
  match existing with
  | Some _ => try (Err (EAccountManagement (AccountAlreadyExist id)))
  | None =>
      let account := account_new id in
      bump_seq_num;;
      update_account account;;
      seq_num ← gets last_seq_num;
      mret (build_create_event seq_num log_index offset r account)
  end.

Definition handle_lock_account (r : LockAccountRequest) (log_index offset : Z) :
    handler EventPb :=
  found ← gets (λ s,
    assert_account_exists s (req_account_id (get_or_default (lock_header r))));
  account ← try found;
  updated_account ← try (lock account);
  bump_seq_num;;
  update_account updated_account;;
  seq_num ← gets last_seq_num;
  mret (build_lock_event seq_num log_index offset r updated_account).

Definition handle_unlock_account (r : UnlockAccountRequest) (log_index offset : Z) :
    handler EventPb :=
  found ← gets (λ s,
    assert_account_exists s (req_account_id (get_or_default (unlock_header r))));
  account ← try found;
  updated_account ← try (unlock account);
  bump_seq_num;;
  update_account updated_account;;
  seq_num ← gets last_seq_num;
  mret (build_unlock_event seq_num log_index offset r updated_account).

Definition handle_delete_account (r : DeleteAccountRequest) (log_index offset : Z) :
    handler EventPb :=
  found ← gets (λ s,
    assert_account_exists s (req_account_id (get_or_default (delete_header r))));
  account ← try found;
  updated_account ← try (account_delete account);
  bump_seq_num;;
  delete_account updated_account;;
  seq_num ← gets last_seq_num;
  mret (build_delete_event seq_num log_index offset r updated_account).

Definition handle_update_account_config (r : UpdateAccountConfigRequest)
    (log_index offset : Z) : handler EventPb :=
  found ← gets (λ s,
    assert_account_exists s (req_account_id (get_or_default (update_header r))));
  account ← try found;
  let updated_account :=
    set_balance_limit (get_or_default (update_balance_limit r)) account in
  bump_seq_num;;
  update_account updated_account;;
  seq_num ← gets last_seq_num;
  mret (build_update_config_event seq_num log_index offset r updated_account).

Definition dispatch (p : CommandPayload_oneof_request) (log_index offset : Z) :
    handler EventPb :=
  match p with
  | transfer_request r => handle_transfer r log_index offset
  | reserve_request r => handle_reserve r log_index offset
  | release_request r => handle_release r log_index offset
  | batch_balance_operation_request r =>
      handle_batch_balance_operation r log_index offset
  | create_account_request r => handle_create_account r log_index offset
  | lock_account_request r => handle_lock_account r log_index offset
  | unlock_account_request r => handle_unlock_account r log_index offset
  | delete_account_request r => handle_delete_account r log_index offset
  | update_account_config_request r => handle_update_account_config r log_index offset
  end.

(** ** One command *)

Definition maybe_handle_duplicate_command (s : StateMachine) (c : CommandPb) :
    run (option (GeneralResult EventPb)) :=
  o ← get_seq_num s (command_command_id c);
  match o with
  | None => Returns None
  | Some seq_num =>
      found ← get_event s seq_num;
      e ← unwrap found;
      r ← assert_command_and_event_match c e;
      Returns (Some r)
  end.

Definition update_seq_num_and_event (command_id : string) (e : EventPb) (st : state) : state :=
  let '(s, c) := st in
  let seq_num := last_seq_num s in
  let bs := seq_to_bytes seq_num in
  (set_caches (<[command_id:=seq_num]> (seq_num_cache s)) (<[seq_num:=e]> (event_cache s)) s,
   set_wb (wb_put_msg (event_key bs) e
             (wb_put (dedup_key (as_bytes command_id)) bs (wb c))) c).

Definition handle_command (log_index offset : Z) (c : CommandPb) (st : state) : run state :=
  let position := {| MessageBroker.log_index := log_index;
                     MessageBroker.offset := offset |} in
  dup ← maybe_handle_duplicate_command st.1 c;
  match dup with
  | Some e => Returns (st.1, send_event position e st.2)
  | None =>
      p ← command_payload c;
      let '(res, st) := dispatch p log_index offset st in
      match res with
      | Err e => Returns (st.1, send_event position (Err e) st.2)
      | Ok e =>
          let e := event_set_header (command_header c) log_index offset
                     (last_seq_num st.1) e in
          let st := update_seq_num_and_event (command_command_id c) e st in
          Returns (st.1, send_event position (Ok e) st.2)
      end
  end.

(** ** One raft log entry *)

Fixpoint handle_commands (log_index offset : Z) (cs : list CommandPb) (st : state) :
    run state :=
  match cs with
  | [] => Returns st
  | c :: cs =>
      st ← handle_command log_index offset c st;
      handle_commands log_index (offset + 1) cs st
  end.

Definition apply_entry (log_index : Z) (commands : list CommandPb) (st : state) : run state :=
  rust_assert (bool_decide (applied_index st.1 +u 1 = log_index)) (
  st ← handle_commands log_index 0 commands st;
  let s := set_applied_index log_index st.1 in
  let w := wb st.2 in
  let w := wb_put (as_bytes (key APPLIED_INDEX)) (write_u64 (applied_index s)) w in
  let w := wb_put (as_bytes (key PERSISTED_LAST_SEQ_NUM)) (write_u64 (last_seq_num s)) w in
  Returns (s, set_wb w st.2)).

(** ** Flushing; [now] is the coarse clock in milliseconds *)

Definition should_flush (now : Z) (st : state) : bool :=
  let '(s, c) := st in
  if batch_size c <=? applied_index s -u flushed_applied_index c then true
  else if (flushed_applied_index c <? applied_index s)
          && (100 <? now - flushed_timestamp c) then true
  else false.

Definition flush (now : Z) (st : state) : run state :=
  let '(s, c) := st in
  rust_assert (flushed_applied_index c <? applied_index s) (
  let d := write_opt (rocksdb s) (wb c) in
  let m := foldl (λ m id, delete id m) (accounts s) (to_be_deleted_account_ids c) in
  Returns (set_rocksdb d (set_caches ∅ ∅ (set_accounts m s)),
           {| batch_size := batch_size c; wb := wb_clear (wb c);
              to_be_deleted_account_ids := []; flushed_applied_index := applied_index s;
              flushed_timestamp := now; inflight_event_tx := inflight_event_tx c |})).

Definition maybe_flush (now : Z) (st : state) : run state :=
  if should_flush now st then flush now st else Returns st.

(** ** The apply loop *)

Record ApplyLoop := { al_state : state; al_applied_index : Z }.

Definition apply_loop_new (st : state) : ApplyLoop :=
  {| al_state := st; al_applied_index := flushed_applied_index st.2 |}.

Fixpoint apply_entries (buf : list (LogEntry CommandPb)) (l : ApplyLoop) : run ApplyLoop :=
  match buf with
  | [] => Returns l
  | entry :: buf =>
      rust_assert (bool_decide (al_applied_index l +u 1 = le_index entry)) (
      st ← apply_entry (le_index entry) (le_messages entry) (al_state l);
      apply_entries buf {| al_state := st; al_applied_index := le_index entry |})
  end.

(** One turn of [run]'s loop, with the batch received from the log consumer. *)
Definition apply_loop_iter (buf : list (LogEntry CommandPb)) (now : Z) (l : ApplyLoop) :
    run ApplyLoop :=
  l ← apply_entries buf l;
  st ← maybe_flush now (al_state l);
  Returns {| al_state := st; al_applied_index := al_applied_index l |}.
End state_machine.

(** ** Inversion of handlers *)
Section handler_lemmas.
Context {BD : BigDecimal} {R : RocksDB}.

Lemma handler_bind_Ok {A B} (m : handler A) (f : A → handler B) st b st' :
  (m ≫= f) st = (Ok b, st') ↔ ∃ a st1, m st = (Ok a, st1) ∧ f a st1 = (Ok b, st').
Proof. unfold mbind, handler_bind. destruct (m st) as [[a|e] st1]; naive_solver. Qed.

Lemma handler_bind_Err {A B} (m : handler A) (f : A → handler B) st e st' :
  (m ≫= f) st = (Err e, st') ↔
  m st = (Err e, st') ∨ ∃ a st1, m st = (Ok a, st1) ∧ f a st1 = (Err e, st').
Proof. unfold mbind, handler_bind. destruct (m st) as [[a|e'] st1]; naive_solver. Qed.

Lemma try_eq {A} (r r' : GeneralResult A) st st' :
  try r st = (r', st') ↔ r = r' ∧ st' = st.
Proof. unfold try. naive_solver. Qed.

Lemma gets_eq {A} (f : StateMachine → A) st r st' :
  gets f st = (r, st') ↔ Ok (f st.1) = r ∧ st' = st.
Proof. unfold gets. naive_solver. Qed.

Lemma modify_eq f st r st' : modify f st = (r, st') ↔ r = Ok () ∧ st' = f st.
Proof. unfold modify. naive_solver. Qed.

Lemma mret_eq {A} (a : A) st r st' :
  (mret a : handler A) st = (r, st') ↔ r = Ok a ∧ st' = st.
Proof. unfold mret, handler_ret. naive_solver. Qed.
End handler_lemmas.

(** [simplify_handler] is [simplify_run] for handlers. *)
Ltac simplify_handler_step :=
  match goal with
  | H : mbind _ _ _ = (Ok _, _) |- _ => apply handler_bind_Ok in H as (? & ? & ? & ?)
  | H : mbind _ _ _ = (Err _, _) |- _ =>
      apply handler_bind_Err in H as [H|(? & ? & ? & ?)]
  | H : try _ _ = (_, _) |- _ => apply try_eq in H as [? ?]
  | H : gets _ _ = (_, _) |- _ => apply gets_eq in H as [? ?]
  | H : modify _ _ = (_, _) |- _ => apply modify_eq in H as [? ?]
  | H : mret _ _ = (_, _) |- _ => apply mret_eq in H as [? ?]
  | H : bump_seq_num _ = (_, _) |- _ => apply modify_eq in H as [? ?]
  | H : update_account _ _ = (_, _) |- _ => apply modify_eq in H as [? ?]
  | H : delete_account _ _ = (_, _) |- _ => apply modify_eq in H as [? ?]
  | H : (let '(_, _) := ?p in _) _ = _ |- _ => is_var p; destruct p
  end.
Ltac simplify_handler := repeat (simplify_handler_step; simplify_eq/=).
