(* ===== verification/Wallet.v ===== *)
(** * The wallet's contract

    What the state machine promises, stated on an abstract wallet: three maps
    (accounts, sequence number of each handled command, event of each sequence
    number).  The concrete state, with its caches, write batch, tombstones and
    byte-level database, represents an abstract wallet, and every operation of
    the state machine is an operation on it. *)

From S2P Require Import Prelude Bytes Keys Proto Errors RefDecimal BalanceCalculator Account.
From S2P Require Import RocksEngine Internal RocksDBState MessageBroker MessageQueue.
From S2P Require Import StateMachine.
Local Open Scope Z_scope.

(** ** Keys of different kinds never collide *)

Lemma data_dedup_ne a b : data_key a ≠ dedup_key b.
Proof. done. Qed.
Lemma data_event_ne a b : data_key a ≠ event_key b.
Proof. done. Qed.
Lemma dedup_event_ne a b : dedup_key a ≠ event_key b.
Proof. done. Qed.
Lemma dedup_data_ne a b : dedup_key a ≠ data_key b.
Proof. done. Qed.
Lemma event_data_ne a b : event_key a ≠ data_key b.
Proof. done. Qed.
Lemma event_dedup_ne a b : event_key a ≠ dedup_key b.
Proof. done. Qed.
#[export] Hint Resolve data_dedup_ne data_event_ne dedup_event_ne dedup_data_ne
  event_data_ne event_dedup_ne : wallet.

(** The keys of the three counters. *)
Definition hard_key (k : bytes) : Prop :=
  k = as_bytes (key APPLIED_INDEX) ∨ k = as_bytes (key PERSISTED_LAST_SEQ_NUM) ∨
  k = as_bytes (key PERSISTED_FIRST_SEQ_NUM).

Lemma hard_key_data_ne k a : hard_key k → k ≠ data_key a.
Proof. by intros [->|[->| ->]]. Qed.
Lemma hard_key_dedup_ne k a : hard_key k → k ≠ dedup_key a.
Proof. by intros [->|[->| ->]]. Qed.
Lemma hard_key_event_ne k a : hard_key k → k ≠ event_key a.
Proof. by intros [->|[->| ->]]. Qed.
Lemma hard_key_applied : hard_key (as_bytes (key APPLIED_INDEX)).
Proof. by left. Qed.
Lemma hard_key_last : hard_key (as_bytes (key PERSISTED_LAST_SEQ_NUM)).
Proof. by right; left. Qed.
Lemma hard_key_first : hard_key (as_bytes (key PERSISTED_FIRST_SEQ_NUM)).
Proof. by right; right. Qed.
#[export] Hint Resolve hard_key_data_ne hard_key_dedup_ne hard_key_event_ne
  hard_key_applied hard_key_last hard_key_first : wallet.

Section wallet.
Context {BD : BigDecimal} {BDL : BigDecimalLaws BD} {R : RocksDB} {RL : RocksDBLaws R}.
Context `{!ProtoMessage AccountPb, !ProtoMessage EventPb}.
Context `{!ProtoRoundTrip AccountPb, !ProtoRoundTrip EventPb}.

(** ** The abstract wallet and its representation in the database *)

Record Wallet := {
  w_accounts : gmap string AccountPb;
  w_dedup : gmap string Z;
  w_events : gmap Z EventPb }.

Definition empty_wallet : Wallet := {| w_accounts := ∅; w_dedup := ∅; w_events := ∅ |}.

(** [get] is the contents of a database (a disk, or a disk with a pending
    batch) restricted to the default column family. *)
Record stores (get : bytes → option bytes) (w : Wallet) : Prop := {
  st_accounts id :
    get (data_key (as_bytes id)) = write_to_bytes <$> w_accounts w !! id;
  st_data k v : get (data_key k) = Some v → ∃ id, k = as_bytes id ∧ is_str id = true;
  st_dedup id : get (dedup_key (as_bytes id)) = write_u64 <$> w_dedup w !! id;
  st_events n :
    is_u64 n → get (event_key (write_u64 n)) = write_to_bytes <$> w_events w !! n;
  st_event k v : get (event_key k) = Some v → ∃ n, k = write_u64 n ∧ is_u64 n }.

(** The log of events is consistent: an event sits under its own sequence
    number, and the deduplication map leads from its command to it. *)
Record log_ok (w : Wallet) (last : Z) : Prop := {
  log_events n e : w_events w !! n = Some e →
    0 < n ≤ last ∧ eh_seq_num (event_header e) = n ∧
    w_dedup w !! eh_command_id (event_header e) = Some n ∧
    is_Some (event (get_or_default (ev_payload e)));
  log_dedup id n : w_dedup w !! id = Some n →
    ∃ e, w_events w !! n = Some e ∧ eh_command_id (event_header e) = id }.

(** ** The representation invariant of the state machine *)

Record sm_inv (w : Wallet) (st : StateMachine * ApplyContext) : Prop := {
  inv_stores : stores (view (rocksdb st.1) (wb st.2)) w;
  inv_log : log_ok w (last_seq_num st.1);
  inv_last : is_u64 (last_seq_num st.1);
  inv_accounts id a : accounts st.1 !! id = Some a → account_inv id a ∧ is_str id = true;
  (** memory and disk agree, up to the tombstones of deleted accounts *)
  inv_live id : id ∉ to_be_deleted_account_ids st.2 →
    w_accounts w !! id = accounts st.1 !! id;
  inv_tombstone id : id ∈ to_be_deleted_account_ids st.2 →
    ∃ a, accounts st.1 !! id = Some a ∧ acc_state a = Deleted ∧
         (w_accounts w !! id = None ∨ w_accounts w !! id = Some a);
  (** the caches hold all that is pending in the batch *)
  inv_seq_hit id n : seq_num_cache st.1 !! id = Some n → w_dedup w !! id = Some n;
  inv_seq_miss id : seq_num_cache st.1 !! id = None →
    untouched (wb st.2) (dedup_key (as_bytes id));
  inv_ev_hit n e : event_cache st.1 !! n = Some e → w_events w !! n = Some e;
  inv_ev_miss n : is_u64 n → event_cache st.1 !! n = None →
    untouched (wb st.2) (event_key (write_u64 n)) }.

(** What is not pending is on disk. *)
Lemma disk_dedup w st id :
  sm_inv w st → seq_num_cache st.1 !! id = None →
  db_get (rocksdb st.1) CF_DEFAULT (dedup_key (as_bytes id)) = write_u64 <$> w_dedup w !! id.
Proof.
  intros Hinv Hc. rewrite <-(st_dedup _ _ (inv_stores _ _ Hinv)).
  symmetry. apply view_untouched. by apply (inv_seq_miss _ _ Hinv).
Qed.

Lemma disk_event w st n :
  sm_inv w st → is_u64 n → event_cache st.1 !! n = None →
  db_get (rocksdb st.1) CF_DEFAULT (event_key (write_u64 n))
  = write_to_bytes <$> w_events w !! n.
Proof.
  intros Hinv Hn Hc. rewrite <-(st_events _ _ (inv_stores _ _ Hinv)) by done.
  symmetry. apply view_untouched. by apply (inv_ev_miss _ _ Hinv).
Qed.

(** ** Reading the representation *)

Lemma log_dedup_bound w last id n : log_ok w last → w_dedup w !! id = Some n → 0 < n ≤ last.
Proof.
  intros Hlog Hd. destruct (log_dedup _ _ Hlog _ _ Hd) as (e & He & _).
  apply (log_events _ _ Hlog _ _ He).
Qed.

Lemma get_seq_num_spec w st id :
  sm_inv w st → get_seq_num st.1 id = Returns (w_dedup w !! id).
Proof.
  intros Hinv. unfold get_seq_num. destruct (seq_num_cache st.1 !! id) as [n|] eqn:Hc.
  - by rewrite (inv_seq_hit _ _ Hinv _ _ Hc).
  - unfold read_seq_num_from_db, get_value. rewrite (disk_dedup _ _ _ Hinv Hc).
    destruct (w_dedup w !! id) as [n|] eqn:Hd; [|done]. cbn [fmap option_fmap option_map].
    destruct (log_dedup_bound _ _ _ _ (inv_log _ _ Hinv) Hd) as [??].
    pose proof (inv_last _ _ Hinv) as [??].
    rewrite seq_from_write by (split; lia). done.
Qed.

Lemma get_event_spec w st n :
  sm_inv w st → is_u64 n → get_event st.1 n = Returns (w_events w !! n).
Proof.
  intros Hinv Hn. unfold get_event. destruct (event_cache st.1 !! n) as [e|] eqn:Hc.
  - by rewrite (inv_ev_hit _ _ Hinv _ _ Hc).
  - unfold read_event_from_db, get_msg, get_value, seq_to_bytes.
    rewrite (disk_event _ _ _ Hinv Hn Hc).
    destruct (w_events w !! n) as [e|]; cbn; [|done]. by rewrite parse_write.
Qed.

(** ** Updates of the representation *)

Definition w_put (id : string) (a : AccountPb) (w : Wallet) : Wallet :=
  {| w_accounts := <[id:=a]> (w_accounts w); w_dedup := w_dedup w; w_events := w_events w |}.
Definition w_del (id : string) (w : Wallet) : Wallet :=
  {| w_accounts := delete id (w_accounts w); w_dedup := w_dedup w; w_events := w_events w |}.
Definition w_record (id : string) (n : Z) (e : EventPb) (w : Wallet) : Wallet :=
  {| w_accounts := w_accounts w; w_dedup := <[id:=n]> (w_dedup w);
     w_events := <[n:=e]> (w_events w) |}.

Lemma stores_hard d b w k v :
  stores (view d b) w → hard_key k → stores (view d (wb_put k v b)) w.
Proof.
  intros [Ha Hd Hs He Hn] Hk.
  split; intros *; rewrite view_put_ne by eauto with wallet; auto; [apply Hd|apply Hn].
Qed.

Lemma stores_put d b w id a :
  stores (view d b) w → is_str id = true →
  stores (view d (wb_put (data_key (as_bytes id)) (write_to_bytes a) b)) (w_put id a w).
Proof.
  intros [Ha Hd Hs He Hev] Hid. split.
  - intros id'. rewrite view_put. cbn. destruct (decide (id = id')) as [<-|Hne].
    + by rewrite decide_True, lookup_insert_eq.
    + rewrite decide_False by (by intros ?%(inj data_key)%(inj as_bytes)).
      by rewrite lookup_insert_ne.
  - intros k v. rewrite view_put. case_decide as Hk; [|apply Hd].
    apply (inj data_key) in Hk as <-. eauto.
  - intros id'. rewrite view_put_ne by eauto with wallet. apply Hs.
  - intros n Hn. rewrite view_put_ne by eauto with wallet. by apply He.
  - intros k v. rewrite view_put_ne by eauto with wallet. apply Hev.
Qed.

Lemma stores_del d b w id :
  stores (view d b) w →
  stores (view d (wb_delete (data_key (as_bytes id)) b)) (w_del id w).
Proof.
  intros [Ha Hd Hs He Hev]. split.
  - intros id'. rewrite view_delete. cbn. destruct (decide (id = id')) as [<-|Hne].
    + by rewrite decide_True, lookup_delete_eq.
    + rewrite decide_False by (by intros ?%(inj data_key)%(inj as_bytes)).
      by rewrite lookup_delete_ne.
  - intros k v. rewrite view_delete. case_decide as Hk; [done|apply Hd].
  - intros id'. rewrite view_delete_ne by eauto with wallet. apply Hs.
  - intros n Hn. rewrite view_delete_ne by eauto with wallet. by apply He.
  - intros k v. rewrite view_delete_ne by eauto with wallet. apply Hev.
Qed.

Lemma event_key_write_ne n n' :
  is_u64 n → is_u64 n' → n ≠ n' → event_key (write_u64 n) ≠ event_key (write_u64 n').
Proof. intros ?? Hne ?%(inj event_key)%write_u64_inj; done. Qed.

Lemma stores_record d b w id n e :
  stores (view d b) w → is_u64 n →
  stores (view d (wb_put_msg (event_key (seq_to_bytes n)) e
                    (wb_put (dedup_key (as_bytes id)) (seq_to_bytes n) b)))
    (w_record id n e w).
Proof.
  intros [Ha Hd Hs He Hev] Hn. unfold wb_put_msg, seq_to_bytes. split.
  - intros id'. rewrite !view_put_ne by eauto with wallet. apply Ha.
  - intros k v. rewrite !view_put_ne by eauto with wallet. apply Hd.
  - intros id'. rewrite view_put_ne by eauto with wallet. rewrite view_put. cbn.
    destruct (decide (id = id')) as [<-|Hne].
    + by rewrite decide_True, lookup_insert_eq.
    + rewrite decide_False by (by intros ?%(inj dedup_key)%(inj as_bytes)).
      by rewrite lookup_insert_ne.
  - intros n' Hn'. cbn. destruct (decide (n = n')) as [<-|Hne].
    + by rewrite view_put_eq, lookup_insert_eq.
    + rewrite !view_put_ne by eauto using event_key_write_ne with wallet.
      rewrite lookup_insert_ne by done. by apply He.
  - intros k v. rewrite view_put. case_decide as Hk.
    + apply (inj event_key) in Hk as <-. eauto.
    + rewrite view_put_ne by eauto with wallet. apply Hev.
Qed.

Lemma log_ok_mono w last last' : log_ok w last → last ≤ last' → log_ok w last'.
Proof.
  intros [He Hd] Hle. split; [|done]. intros n e Hn.
  destruct (He n e Hn) as (? & ? & ? & ?). split_and!; try done; lia.
Qed.

Lemma log_ok_record w last id e :
  log_ok w (last - 1) → 0 < last → w_dedup w !! id = None →
  eh_seq_num (event_header e) = last → eh_command_id (event_header e) = id →
  is_Some (event (get_or_default (ev_payload e))) →
  log_ok (w_record id last e w) last.
Proof.
  intros [He Hd] Hlast Hid Hseq Hcmd Hpay. split; cbn.
  - intros n e' [[<- <-]|[Hne Hn]]%lookup_insert_Some.
    + rewrite Hcmd, lookup_insert_eq. split_and!; try done; lia.
    + destruct (He n e' Hn) as (? & ? & Hdn & ?).
      rewrite lookup_insert_ne by (intros ->; congruence). split_and!; try done; lia.
  - intros id' n [[<- <-]|[Hne Hn]]%lookup_insert_Some.
    + exists e. by rewrite lookup_insert_eq.
    + destruct (Hd id' n Hn) as (e' & He' & ?). exists e'.
      destruct (He n e' He') as [? _]. by rewrite lookup_insert_ne by lia.
Qed.

(** ** What a handler does to the state

    A successful handler draws the next sequence number and then replaces some
    accounts; a failing one changes nothing. *)

Inductive AccountUpdate := UPut (a : AccountPb) | UDel (a : AccountPb).

Definition apply_update (st : StateMachine * ApplyContext) (u : AccountUpdate) :
    StateMachine * ApplyContext :=
  match u with
  | UPut a => (update_account a st).2
  | UDel a => (delete_account a st).2
  end.
Definition apply_updates : StateMachine * ApplyContext → list AccountUpdate →
    StateMachine * ApplyContext := foldl apply_update.

Definition bumped (st : StateMachine * ApplyContext) : StateMachine * ApplyContext :=
  (bump_seq_num st).2.

(** The accounts a request names. *)
Definition payload_ids (p : CommandPayload_oneof_request) : list string :=
  match p with
  | transfer_request r =>
      let spec := get_or_default (transfer_spec r) in
      [ts_from_account_id spec; ts_to_account_id spec]
  | reserve_request r => [reserve_account_id r]
  | release_request r => [release_account_id r]
  | batch_balance_operation_request r => bos_account_id <$> balance_operation_spec r
  | create_account_request r => [req_account_id (get_or_default (create_header r))]
  | lock_account_request r => [req_account_id (get_or_default (lock_header r))]
  | unlock_account_request r => [req_account_id (get_or_default (unlock_header r))]
  | delete_account_request r => [req_account_id (get_or_default (delete_header r))]
  | update_account_config_request r =>
      [req_account_id (get_or_default (update_header r))]
  end.

(** Only the limits of an account can be updated after its deletion. *)
Definition is_config_update (p : CommandPayload_oneof_request) : bool :=
  match p with update_account_config_request _ => true | _ => false end.

(** A new version of an account comes from the version in memory. *)
Definition update_from (p : CommandPayload_oneof_request) (s : StateMachine)
    (u : AccountUpdate) : Prop :=
  ∃ id, id ∈ payload_ids p ∧
  let prev := get_or_create_account s id in
  match u with
  | UPut a => rtc account_op prev a ∧ (acc_state prev = Deleted → is_config_update p = true)
  | UDel a => account_delete prev = Ok a
  end.

(** A command replaces accounts or deletes one, never both. *)
Definition is_put (u : AccountUpdate) : Prop := match u with UPut _ => True | UDel _ => False end.
Definition simple_updates (us : list AccountUpdate) : Prop :=
  Forall is_put us ∨ ∃ a, us = [UDel a].

Lemma assert_account_exists_Ok s id a :
  assert_account_exists s id = Ok a → get_or_create_account s id = a.
Proof. unfold assert_account_exists, get_or_create_account. case_match; naive_solver. Qed.

Lemma update_accounts_eq l st r st' :
  update_accounts l st = (r, st') → r = Ok () ∧ st' = apply_updates st (UPut <$> l).
Proof.
  revert st. induction l as [|a l IH]; intros st H; [by apply mret_eq in H as [-> ->]|].
  cbn [update_accounts] in H. unfold mbind, handler_bind in H.
  destruct (update_account a st) as [[u|e] st1] eqn:E; [|by apply modify_eq in E as [??]].
  apply IH in H as [-> ->]. apply modify_eq in E as [_ ->]. done.
Qed.

Lemma batch_updates_Ok s specs chs ups :
  batch_updates s specs = Ok (chs, ups) →
  Forall3 (λ spec ch a, increase_balance_by (get_or_create_account s (bos_account_id spec))
                          (bos_amount spec) = Ok (a, ch)) specs chs ups.
Proof.
  revert chs ups. induction specs as [|spec specs IH]; intros chs ups H;
    cbn [batch_updates] in H; simplify_run.
  - constructor.
  - constructor; [done|]. by apply IH.
Qed.

Lemma handle_transfer_Ok r l o st e st' :
  handle_transfer r l o st = (Ok e, st') →
  let spec := get_or_default (transfer_spec r) in
  let from := get_or_create_account st.1 (ts_from_account_id spec) in
  let to := get_or_create_account st.1 (ts_to_account_id spec) in
  ∃ to' ch_to neg from' ch_from,
    validate_asset_class_compatibility from to = Ok () ∧
    increase_balance_by to (ts_amount spec) = Ok (to', ch_to) ∧
    calc_neg (ts_amount spec) = Ok neg ∧
    increase_balance_by from neg = Ok (from', ch_from) ∧
    st' = apply_updates (bumped st) [UPut to'; UPut from'] ∧
    e = build_transfer_event (last_seq_num st.1 +u 1) l o r ch_from ch_to.
Proof.
  unfold handle_transfer. intros H. destruct st as [s c]. simplify_handler.
  match goal with x : unit |- _ => destruct x end.
  do 5 eexists. by split_and!.
Qed.

Lemma handle_batch_Ok r l o st e st' :
  handle_batch_balance_operation r l o st = (Ok e, st') →
  ∃ chs ups, batch_updates st.1 (balance_operation_spec r) = Ok (chs, ups) ∧
    st' = apply_updates (bumped st) (UPut <$> ups) ∧
    e = build_batch_event (last_seq_num st'.1) l o r chs.
Proof.
  unfold handle_batch_balance_operation. intros H. simplify_handler.
  match goal with H : update_accounts _ _ = _ |- _ => apply update_accounts_eq in H as [_ ->] end.
  do 2 eexists. by split_and!.
Qed.

Lemma increase_not_deleted a amount r :
  increase_balance_by a amount = Ok r → acc_state a ≠ Deleted.
Proof. intros (?&?&?&->&_)%increase_balance_by_Ok. done. Qed.
Lemma reserve_not_deleted a id amount a' :
  reserve a id amount = Ok a' → acc_state a ≠ Deleted.
Proof. intros (?&?&?&->&_)%reserve_Ok. done. Qed.
Lemma release_not_deleted a id amount a' :
  release_all a id = Ok a' ∨ partial_release a id amount = Ok a' → acc_state a ≠ Deleted.
Proof.
  intros [(?&?&?&?&->&_)%release_all_Ok|(?&?&?&?&?&->&_)%partial_release_Ok]; done.
Qed.
Lemma lock_not_deleted a a' : lock a = Ok a' ∨ unlock a = Ok a' → acc_state a ≠ Deleted.
Proof. intros [[-> _]%lock_Ok|[-> _]%unlock_Ok]; done. Qed.

Lemma update_from_increase p s id amount a ch :
  id ∈ payload_ids p → increase_balance_by (get_or_create_account s id) amount = Ok (a, ch) →
  update_from p s (UPut a).
Proof.
  intros Hin Hinc. exists id. split; [done|]. split; [by eapply rtc_once, op_increase|].
  intros Hdel. by apply increase_not_deleted in Hinc.
Qed.

Lemma update_from_batch s r chs ups :
  batch_updates s (balance_operation_spec r) = Ok (chs, ups) →
  Forall (update_from (batch_balance_operation_request r) s) (UPut <$> ups).
Proof.
  intros H%batch_updates_Ok.
  assert (∀ spec, spec ∈ balance_operation_spec r →
    bos_account_id spec ∈ payload_ids (batch_balance_operation_request r)) as Hids
    by (cbn; set_solver).
  revert Hids H. generalize (balance_operation_spec r) as specs. intros specs Hids H.
  induction H as [|spec ch a specs chs ups Hinc _ IH]; [constructor|]. cbn. constructor.
  - eapply update_from_increase; [|done]. apply Hids. left.
  - apply IH. intros. apply Hids. by right.
Qed.

(** The handlers that update one existing account. *)
Lemma update_from_put p s id a a' :
  id ∈ payload_ids p → assert_account_exists s id = Ok a → account_op a a' →
  (acc_state a = Deleted → is_config_update p = true) →
  Forall (update_from p s) [UPut a'].
Proof.
  intros Hin <-%assert_account_exists_Ok Hop Hdel. constructor; [|constructor].
  exists id. split; [done|]. split; [by apply rtc_once|done].
Qed.

Lemma dispatch_Ok p l o st e st' :
  dispatch p l o st = (Ok e, st') →
  is_Some (event (get_or_default (ev_payload e))) ∧
  ∃ us, st' = apply_updates (bumped st) us ∧
        Forall (update_from p st.1) us ∧ simple_updates us.
Proof.
  intros H. destruct p; cbn [dispatch] in H.
  - apply handle_transfer_Ok in H as (to' & ? & neg & from' & ? & _ & Hto & _ & Hfrom & -> & ->).
    split; [by eexists|]. eexists. split; [done|]. split; [|left; repeat constructor].
    repeat constructor; (eapply update_from_increase; [|eassumption]); cbn; set_solver.
  - apply handle_batch_Ok in H as (chs & ups & Hup & -> & ->).
    split; [by eexists|]. eexists. split; [done|].
    split; [by eapply update_from_batch|]. left. by apply Forall_fmap, Forall_true.
  - unfold handle_reserve in H. simplify_handler. split; [by eexists|].
    eexists [UPut _]. split; [done|]. split; [|left; repeat constructor].
    eapply update_from_put; [left|eassumption|by eapply op_reserve|].
    intros Hdel. by edestruct reserve_not_deleted.
  - unfold handle_release in H. simplify_handler. split; [by eexists|].
    eexists [UPut _]. split; [done|]. split; [|left; repeat constructor].
    eapply update_from_put; [left|eassumption|..].
    + case_decide; [by eapply op_release_all|by eapply op_partial_release].
    + intros Hdel. exfalso. eapply release_not_deleted; [|exact Hdel]. case_decide; eauto.
  - unfold handle_create_account in H. simplify_handler.
    destruct (accounts _ !! _) eqn:Hnone; simplify_handler. split; [by eexists|].
    eexists [UPut (account_new _)]. split; [done|]. split; [|left; repeat constructor].
    constructor; [|constructor].
    eexists. split; [left|]. unfold get_or_create_account. by rewrite Hnone.
  - unfold handle_delete_account in H. simplify_handler. split; [by eexists|].
    eexists [UDel _]. split; [done|]. split; [|right; by eexists].
    constructor; [|constructor].
    eexists. split; [left|].
    match goal with H : assert_account_exists _ _ = Ok _ |- _ =>
      apply assert_account_exists_Ok in H as <- end. done.
  - unfold handle_lock_account in H. simplify_handler. split; [by eexists|].
    eexists [UPut _]. split; [done|]. split; [|left; repeat constructor].
    eapply update_from_put; [left|eassumption|by eapply op_lock|].
    intros Hdel. exfalso. eapply lock_not_deleted; eauto.
  - unfold handle_unlock_account in H. simplify_handler. split; [by eexists|].
    eexists [UPut _]. split; [done|]. split; [|left; repeat constructor].
    eapply update_from_put; [left|eassumption|by eapply op_unlock|].
    intros Hdel. exfalso. eapply lock_not_deleted; eauto.
  - unfold handle_update_account_config in H. simplify_handler. split; [by eexists|].
    eexists [UPut (set_balance_limit _ _)]. split; [done|].
    split; [|left; repeat constructor].
    by eapply update_from_put; [left|eassumption|by eapply op_set_balance_limit|].
Qed.

Lemma update_accounts_no_Err l st e st' : update_accounts l st ≠ (Err e, st').
Proof. by intros [??]%update_accounts_eq. Qed.

Lemma dispatch_Err p l o st e st' : dispatch p l o st = (Err e, st') → st' = st.
Proof.
  intros H. destruct p; cbn [dispatch] in H.
  - unfold handle_transfer in H. by simplify_handler.
  - unfold handle_batch_balance_operation in H. simplify_handler; [done|].
    by edestruct update_accounts_no_Err.
  - unfold handle_reserve in H. by simplify_handler.
  - unfold handle_release in H. by simplify_handler.
  - unfold handle_create_account in H. simplify_handler.
    destruct (accounts _ !! _); by simplify_handler.
  - unfold handle_delete_account in H. by simplify_handler.
  - unfold handle_lock_account in H. by simplify_handler.
  - unfold handle_unlock_account in H. by simplify_handler.
  - unfold handle_update_account_config in H. by simplify_handler.
Qed.

(** ** The invariant is preserved *)

Definition w_update (w : Wallet) (u : AccountUpdate) : Wallet :=
  match u with
  | UPut a => w_put (acc_account_id a) a w
  | UDel a => w_del (acc_account_id a) w
  end.

Definition update_ok (tbd : list string) (u : AccountUpdate) : Prop :=
  match u with
  | UPut a => account_inv (acc_account_id a) a ∧ is_str (acc_account_id a) = true ∧
      (acc_account_id a ∈ tbd → acc_state a = Deleted)
  | UDel a => account_inv (acc_account_id a) a ∧ is_str (acc_account_id a) = true ∧
      acc_state a = Deleted
  end.

Lemma inv_bumped w st :
  sm_inv w st → last_seq_num st.1 < u64_max →
  sm_inv w (bumped st) ∧ last_seq_num (bumped st).1 = last_seq_num st.1 + 1.
Proof.
  intros Hinv Hmax. destruct st as [s c]. pose proof (inv_last _ _ Hinv) as Hu. cbn in *.
  unfold u64_max, is_u64 in *.
  assert ((last_seq_num s +u 1) = last_seq_num s + 1) as Heq
    by (apply u64_add_small; unfold is_u64; lia).
  split; [|done]. destruct Hinv. split; cbn in *; rewrite ?Heq; try done.
  - eapply log_ok_mono; [done|lia].
  - split; lia.
Qed.

Lemma inv_put w st a :
  sm_inv w st → update_ok (to_be_deleted_account_ids st.2) (UPut a) →
  sm_inv (w_put (acc_account_id a) a w) (apply_update st (UPut a)).
Proof.
  intros Hinv (Ha & Hs & Hdel). destruct st as [s c], Hinv. split; cbn in *; try done.
  - by apply stores_put.
  - by destruct inv_log0.
  - intros id a' [[<- <-]|[Hne Hid]]%lookup_insert_Some; eauto.
  - intros id Hid. destruct (decide (acc_account_id a = id)) as [<-|Hne];
      [by rewrite !lookup_insert_eq|rewrite !lookup_insert_ne by done; eauto].
  - intros id Hid. destruct (decide (acc_account_id a = id)) as [<-|Hne].
    + exists a. rewrite !lookup_insert_eq. eauto.
    + rewrite !lookup_insert_ne by done. eauto.
  - intros id Hid. apply untouched_put; [done|eauto].
  - intros n Hn Hc. apply untouched_put; [done|eauto].
Qed.

Lemma inv_del w st a :
  sm_inv w st → update_ok (to_be_deleted_account_ids st.2) (UDel a) →
  sm_inv (w_del (acc_account_id a) w) (apply_update st (UDel a)).
Proof.
  intros Hinv (Ha & Hs & Hdel). destruct st as [s c], Hinv. split; cbn in *; try done.
  - by apply stores_del.
  - by destruct inv_log0.
  - intros id a' [[<- <-]|[Hne Hid]]%lookup_insert_Some; eauto.
  - intros id [Hid Hne]%not_elem_of_app. rewrite list_elem_of_singleton in Hne.
    rewrite lookup_insert_ne, lookup_delete_ne by done. eauto.
  - intros id Hid. destruct (decide (acc_account_id a = id)) as [<-|Hne].
    + exists a. rewrite lookup_insert_eq, lookup_delete_eq. eauto.
    + rewrite lookup_insert_ne, lookup_delete_ne by done. apply inv_tombstone0.
      apply elem_of_app in Hid as [?|Heq%list_elem_of_singleton]; [done|].
      by destruct Hne.
  - intros id Hid. apply untouched_delete; [done|eauto].
  - intros n Hn Hc. apply untouched_delete; [done|eauto].
Qed.

Lemma inv_puts w st us :
  sm_inv w st → Forall is_put us →
  Forall (update_ok (to_be_deleted_account_ids st.2)) us →
  sm_inv (foldl w_update w us) (apply_updates st us).
Proof.
  revert w st. induction us as [|[a|a] us IH]; intros w st Hinv Hput Hok; [done| |].
  - apply Forall_cons_1 in Hok as [Ha Hok]. apply Forall_cons_1 in Hput as [_ Hput]. cbn.
    apply IH; [by apply inv_put|done|]. by destruct st.
  - by apply Forall_cons_1 in Hput as [[] _].
Qed.

Lemma inv_updates w st us :
  sm_inv w st → simple_updates us →
  Forall (update_ok (to_be_deleted_account_ids st.2)) us →
  sm_inv (foldl w_update w us) (apply_updates st us).
Proof.
  intros Hinv [Hput|[a ->]] Hok; [by apply inv_puts|].
  apply Forall_cons_1 in Hok as [Ha _]. by apply (inv_del w st a).
Qed.

Lemma get_or_create_account_inv w st id :
  sm_inv w st → account_inv id (get_or_create_account st.1 id).
Proof.
  intros Hinv. unfold get_or_create_account. destruct (accounts st.1 !! id) eqn:Ha.
  - by apply (inv_accounts _ _ Hinv).
  - apply account_inv_new.
Qed.

Lemma update_from_ok w st p u :
  sm_inv w st → Forall (λ id, is_str id = true) (payload_ids p) → update_from p st.1 u →
  update_ok (to_be_deleted_account_ids st.2) u.
Proof.
  intros Hinv Hids (id & Hin & Hu). rewrite list.Forall_forall in Hids. specialize (Hids _ Hin).
  pose proof (get_or_create_account_inv w st id Hinv) as Hgc. destruct u as [a|a]; cbn.
  - assert (account_inv id a) as Ha by (destruct Hu; eauto using account_op_rtc_inv).
    rewrite (inv_id _ _ Ha). split_and!; try done. intros Htbd.
    eapply account_op_rtc_deleted; [apply Hu|].
    destruct (inv_tombstone _ _ Hinv _ Htbd) as (a0 & Ha0 & Hst & _).
    unfold get_or_create_account. by rewrite Ha0.
  - assert (account_inv id a) as Ha by eauto using account_op_inv, op_delete.
    rewrite (inv_id _ _ Ha). split_and!; try done.
    apply account_delete_Ok in Hu as (_ & _ & _ & ->). done.
Qed.

(** The fields an account update leaves alone. *)
Lemma apply_updates_frame st us :
  let st' := apply_updates st us in
  applied_index st'.1 = applied_index st.1 ∧ last_seq_num st'.1 = last_seq_num st.1 ∧
  seq_num_cache st'.1 = seq_num_cache st.1 ∧ event_cache st'.1 = event_cache st.1 ∧
  rocksdb st'.1 = rocksdb st.1 ∧ flushed_applied_index st'.2 = flushed_applied_index st.2 ∧
  batch_size st'.2 = batch_size st.2 ∧ inflight_event_tx st'.2 = inflight_event_tx st.2.
Proof.
  revert st. induction us as [|u us IH]; intros st; [done|]. cbn.
  destruct (IH (apply_update st u)) as (?&?&?&?&?&?&?&?). destruct u, st; cbn in *.
  all: by split_and!.
Qed.

Lemma inv_update_seq_num_and_event w st id e :
  sm_inv w st → w_dedup w !! id = None → 0 < last_seq_num st.1 →
  log_ok w (last_seq_num st.1 - 1) →
  eh_seq_num (event_header e) = last_seq_num st.1 →
  eh_command_id (event_header e) = id →
  is_Some (event (get_or_default (ev_payload e))) →
  sm_inv (w_record id (last_seq_num st.1) e w) (update_seq_num_and_event id e st).
Proof.
  intros Hinv Hnew Hpos Hlog Hseq Hcmd Hpay. destruct st as [s c], Hinv.
  split; cbn in *; try done.
  - by apply stores_record.
  - by apply log_ok_record.
  - intros id' n. rewrite !lookup_insert_Some. naive_solver.
  - intros id'. rewrite lookup_insert_None. intros [Hc Hne].
    apply untouched_put; [done|]. apply untouched_put; [|eauto].
    by intros ?%(inj dedup_key)%(inj as_bytes).
  - intros n e'. rewrite !lookup_insert_Some. naive_solver.
  - intros n Hn. rewrite lookup_insert_None. intros [Hc Hne].
    apply untouched_put; [by apply event_key_write_ne|]. apply untouched_put; [done|eauto].
Qed.

Lemma inv_send_event w st p e : sm_inv w st → sm_inv w (st.1, send_event p e st.2).
Proof. by intros []. Qed.

(** ** One command *)

Definition position_of (l o : Z) : Position :=
  {| MessageBroker.log_index := l; MessageBroker.offset := o |}.

(** What the service guarantees of the commands it proposes: the request is set
    and the account ids are Rust strings. *)
Definition command_wf (c : CommandPb) : bool :=
  match request (get_or_default (cmd_payload c)) with
  | Some p => forallb is_str (payload_ids p)
  | None => false
  end.

Lemma command_wf_payload c :
  command_wf c = true →
  ∃ p, command_payload c = Returns p ∧ Forall (λ id, is_str id = true) (payload_ids p).
Proof.
  unfold command_wf, command_payload. destruct (request _) as [p|]; [|done].
  intros H. exists p. split; [done|]. apply list.Forall_forall. intros id Hid.
  rewrite forallb_forall in H. by apply H, list_elem_of_In.
Qed.

Lemma handle_command_duplicate w st l o c p n e ep :
  sm_inv w st → command_payload c = Returns p →
  w_dedup w !! command_command_id c = Some n → w_events w !! n = Some e →
  event (get_or_default (ev_payload e)) = Some ep →
  handle_command l o c st
  = Returns (st.1, send_event (position_of l o)
               (if same_type p ep then Ok e
                else Err (ECommon (ConflictDedupId (command_command_id c)))) st.2).
Proof.
  intros Hinv Hp Hd He Hep. unfold handle_command, maybe_handle_duplicate_command.
  rewrite (get_seq_num_spec _ _ _ Hinv), Hd. cbn.
  assert (is_u64 n) as Hn.
  { destruct (log_dedup_bound _ _ _ _ (inv_log _ _ Hinv) Hd).
    destruct (inv_last _ _ Hinv). split; lia. }
  rewrite (get_event_spec _ _ _ Hinv Hn), He. cbn.
  unfold assert_command_and_event_match. rewrite Hp, Hep. done.
Qed.

Lemma handle_command_new w st l o c p :
  sm_inv w st → command_payload c = Returns p → w_dedup w !! command_command_id c = None →
  handle_command l o c st = Returns
    match dispatch p l o st with
    | (Err e, st1) => (st1.1, send_event (position_of l o) (Err e) st1.2)
    | (Ok e, st1) =>
        let e := event_set_header (command_header c) l o (last_seq_num st1.1) e in
        let st2 := update_seq_num_and_event (command_command_id c) e st1 in
        (st2.1, send_event (position_of l o) (Ok e) st2.2)
    end.
Proof.
  intros Hinv Hp Hd. unfold handle_command, maybe_handle_duplicate_command.
  rewrite (get_seq_num_spec _ _ _ Hinv), Hd. cbn. rewrite Hp. cbn.
  by destruct (dispatch p l o st) as [[e|e] st1].
Qed.

Lemma w_update_log w us :
  w_dedup (foldl w_update w us) = w_dedup w ∧ w_events (foldl w_update w us) = w_events w.
Proof.
  revert w. induction us as [|[a|a] us IH]; intros w; [done|..].
  - apply (IH (w_put (acc_account_id a) a w)).
  - apply (IH (w_del (acc_account_id a) w)).
Qed.

(** After a successful handler, the event is recorded under the number drawn. *)
Lemma inv_accept w st st1 c l o p e :
  sm_inv w st → last_seq_num st.1 < u64_max →
  Forall (λ id, is_str id = true) (payload_ids p) →
  w_dedup w !! command_command_id c = None →
  dispatch p l o st = (Ok e, st1) →
  let n := last_seq_num st.1 + 1 in
  let e' := event_set_header (command_header c) l o n e in
  last_seq_num st1.1 = n ∧
  ∃ us, st1 = apply_updates (bumped st) us ∧ simple_updates us ∧
    Forall (update_from p st.1) us ∧
    sm_inv (w_record (command_command_id c) n e' (foldl w_update w us))
      (update_seq_num_and_event (command_command_id c) e' st1).
Proof.
  intros Hinv Hmax Hids Hd Hdisp n e'.
  destruct (dispatch_Ok _ _ _ _ _ _ Hdisp) as (Hpay & us & -> & Hus & Hsimple).
  destruct (inv_bumped _ _ Hinv Hmax) as [Hinv1 Hlast].
  assert (Forall (update_ok (to_be_deleted_account_ids st.2)) us) as Hok.
  { eapply list.Forall_impl; [exact Hus|]. intros u Hu. by eapply update_from_ok. }
  destruct (apply_updates_frame (bumped st) us) as (_ & Hl & _). rewrite Hlast in Hl.
  fold n in Hl. split; [done|]. exists us. split_and!; [done..|]. rewrite <-Hl.
  destruct (w_update_log w us) as [Hfd Hfe].
  pose proof (inv_last _ _ Hinv) as [Hpos _].
  apply inv_update_seq_num_and_event; try done.
  - apply inv_updates; [done..|]. by destruct st.
  - by rewrite Hfd.
  - rewrite Hl. lia.
  - rewrite Hl. replace (n - 1) with (last_seq_num st.1) by lia.
    destruct (inv_log _ _ Hinv) as [Hle Hld]. split.
    + intros m ev. rewrite Hfe, Hfd. apply Hle.
    + intros id m. rewrite Hfe, Hfd. apply Hld.
Qed.

(** ** Zombies

    An account that is deleted but not yet purged from memory must not be put
    back into the write batch: it would be on disk and not in memory. *)

Definition zombie_free (w : Wallet) (st : StateMachine * ApplyContext) : Prop :=
  ∀ id, id ∈ to_be_deleted_account_ids st.2 → w_accounts w !! id = None.

(** The command does not update the limits of a Deleted account. *)
Definition config_ok (m : gmap string AccountPb) (c : CommandPb) : bool :=
  match request (get_or_default (cmd_payload c)) with
  | Some (update_account_config_request r) =>
      match m !! req_account_id (get_or_default (update_header r)) with
      | Some a => bool_decide (acc_state a ≠ Deleted)
      | None => true
      end
  | _ => true
  end.

Lemma zombie_free_puts w st us :
  zombie_free w st →
  Forall (λ u, ∃ a, u = UPut a ∧ acc_account_id a ∉ to_be_deleted_account_ids st.2) us →
  zombie_free (foldl w_update w us) (apply_updates st us).
Proof.
  revert w st. induction us as [|u us IH]; intros w st Hz Hus; [done|].
  apply Forall_cons_1 in Hus as [(a & -> & Ha) Hus]. cbn. apply IH.
  - intros id. destruct st as [s c]. cbn in *. intros Hid.
    rewrite lookup_insert_ne; [by apply Hz|]. by intros <-.
  - by destruct st.
Qed.

Lemma zombie_free_updates w st p us c :
  sm_inv w st → zombie_free w st → command_payload c = Returns p →
  config_ok (accounts st.1) c = true →
  Forall (update_from p st.1) us → simple_updates us →
  zombie_free (foldl w_update w us) (apply_updates (bumped st) us).
Proof.
  intros Hinv Hz Hp Hcfg Hus [Hput|[a ->]].
  - apply zombie_free_puts; [by destruct st|].
    apply list.Forall_forall. intros u Hin.
    rewrite list.Forall_forall in Hus, Hput.
    specialize (Hus u Hin). specialize (Hput u Hin). destruct u as [a|a]; [|done].
    exists a. split; [done|]. destruct st as [s c0]. cbn in *.
    destruct Hus as (id & Hid & Hop & Hdel). intros Htbd.
    pose proof (get_or_create_account_inv w (s, c0) id Hinv) as Hgc. cbn in Hgc.
    assert (acc_account_id a = id) as Hacc
      by (apply (inv_id id a); eauto using account_op_rtc_inv).
    rewrite Hacc in Htbd.
    destruct (inv_tombstone _ _ Hinv _ Htbd) as (a0 & Ha0 & Hst & _). cbn in Ha0.
    assert (get_or_create_account s id = a0) as Heq
      by (unfold get_or_create_account; by rewrite Ha0).
    rewrite Heq in Hdel. specialize (Hdel Hst). destruct p; try done. cbn in Hid.
    apply list_elem_of_singleton in Hid as ->. unfold config_ok in Hcfg.
    unfold command_payload in Hp. apply unwrap_Returns in Hp. rewrite Hp, Ha0 in Hcfg.
    by apply bool_decide_eq_true in Hcfg.
  - intros id. destruct st as [s c0]. cbn. intros [Hid|Hid]%elem_of_app.
    + apply lookup_delete_None. right. by apply Hz.
    + apply list_elem_of_singleton in Hid as ->. apply lookup_delete_eq.
Qed.

(** ** The caches hold only what is newer than the last flush *)

Definition cache_fresh (last0 : Z) (st : StateMachine * ApplyContext) : Prop :=
  (∀ id n, seq_num_cache st.1 !! id = Some n → last0 < n) ∧
  (∀ n e, event_cache st.1 !! n = Some e → last0 < n).

Lemma cache_fresh_accept last0 st us id e :
  cache_fresh last0 st → last0 ≤ last_seq_num st.1 →
  last_seq_num (apply_updates (bumped st) us).1 = last_seq_num st.1 + 1 →
  cache_fresh last0 (update_seq_num_and_event id e (apply_updates (bumped st) us)).
Proof.
  intros [Hs He] Hle Hn.
  destruct (apply_updates_frame (bumped st) us) as (_ & _ & Hsc & Hec & _).
  destruct (apply_updates (bumped st) us) as [s' c'], st as [s c]. cbn in *.
  split; cbn; rewrite ?Hsc, ?Hec, Hn.
  - intros id' n. rewrite lookup_insert_Some. intros [[_ <-]|[_ ?]]; [lia|eauto].
  - intros n e'. rewrite lookup_insert_Some. intros [[<- _]|[_ ?]]; [lia|eauto].
Qed.
End wallet.
