(* ===== verification/Ledger.v ===== *)
(** * The ledger: an abstract specification of the wallet

    The contract of the service, without caches, write batches, tombstones and
    bytes: a ledger is a map of accounts, the events recorded so far and the
    sequence number of each command, and a command either answers with a
    recorded event, or is rejected, or replaces some accounts and appends one
    event.  The state machine refines it; money is conserved by it. *)

From S2P Require Import Prelude Bytes Keys Proto Errors RefDecimal BalanceCalculator Account.
From S2P Require Import RocksEngine Internal RocksDBState MessageBroker MessageQueue.
From S2P Require Import StateMachine Wallet.
Local Open Scope Z_scope.

Section ledger.
Context {BD : BigDecimal}.

(** ** The specification *)

Record Ledger := {
  lg_accounts : gmap string AccountPb;
  lg_dedup : gmap string Z;
  lg_events : gmap Z EventPb;
  lg_seq : Z }.

Definition account_or_new (m : gmap string AccountPb) (id : string) : AccountPb :=
  default (account_new id) (m !! id).
Definition existing_account (m : gmap string AccountPb) (id : string) :
    GeneralResult AccountPb :=
  match m !! id with
  | Some a => Ok a
  | None => Err (EAccountManagement (AccountNotExist id))
  end.

(** The accounts a request replaces and the event it produces, when it is
    accepted with sequence number [n] at position [(l, o)] of the log. *)
Definition spec_effects (m : gmap string AccountPb) (n l o : Z)
    (p : CommandPayload_oneof_request) : GeneralResult (list AccountPb * EventPb) :=
  match p with
  | transfer_request r =>
      let spec := get_or_default (transfer_spec r) in
      let from := account_or_new m (ts_from_account_id spec) in
      let to := account_or_new m (ts_to_account_id spec) in
      validate_asset_class_compatibility from to;;
      '(to', ch_to) ← increase_balance_by to (ts_amount spec);
      neg ← calc_neg (ts_amount spec);
      '(from', ch_from) ← increase_balance_by from neg;
      Ok ([to'; from'], build_transfer_event n l o r ch_from ch_to)
  | batch_balance_operation_request r =>
      res ← mapM (λ spec, increase_balance_by (account_or_new m (bos_account_id spec))
                            (bos_amount spec)) (balance_operation_spec r);
      Ok (res.*1, build_batch_event n l o r res.*2)
  | reserve_request r =>
      a ← existing_account m (reserve_account_id r);
      a' ← reserve a (reserve_reservation_id r) (reserve_amount r);
      Ok ([a'], build_reserve_event n l o r (get_balance a) (get_balance a'))
  | release_request r =>
      a ← existing_account m (release_account_id r);
      a' ← (if decide (release_amount r = "") then release_all a (release_reservation_id r)
            else partial_release a (release_reservation_id r) (release_amount r));
      Ok ([a'], build_release_event n l o r (get_balance a) (get_balance a'))
  | create_account_request r =>
      let id := req_account_id (get_or_default (create_header r)) in
      match m !! id with
      | Some _ => Err (EAccountManagement (AccountAlreadyExist id))
      | None => Ok ([account_new id], build_create_event n l o r (account_new id))
      end
  | lock_account_request r =>
      a ← existing_account m (req_account_id (get_or_default (lock_header r)));
      a' ← lock a;
      Ok ([a'], build_lock_event n l o r a')
  | unlock_account_request r =>
      a ← existing_account m (req_account_id (get_or_default (unlock_header r)));
      a' ← unlock a;
      Ok ([a'], build_unlock_event n l o r a')
  | delete_account_request r =>
      a ← existing_account m (req_account_id (get_or_default (delete_header r)));
      a' ← account_delete a;
      Ok ([a'], build_delete_event n l o r a')
  | update_account_config_request r =>
      a ← existing_account m (req_account_id (get_or_default (update_header r)));
      let a' := set_balance_limit (get_or_default (update_balance_limit r)) a in
      Ok ([a'], build_update_config_event n l o r a')
  end.

Definition put_account (m : gmap string AccountPb) (a : AccountPb) : gmap string AccountPb :=
  <[acc_account_id a:=a]> m.

Definition spec_command (L : Ledger) (l o : Z) (c : CommandPb) :
    run (Ledger * GeneralResult EventPb) :=
  p ← command_payload c;
  let id := command_command_id c in
  match lg_dedup L !! id with
  | Some n =>
      e ← unwrap (lg_events L !! n);
      ep ← unwrap (event (get_or_default (ev_payload e)));
      Returns (L, if same_type p ep then Ok e else Err (ECommon (ConflictDedupId id)))
  | None =>
      let n := lg_seq L + 1 in
      match spec_effects (lg_accounts L) n l o p with
      | Err e => Returns (L, Err e)
      | Ok (changed, e) =>
          let e := event_set_header (command_header c) l o n e in
          Returns ({| lg_accounts := foldl put_account (lg_accounts L) changed;
                      lg_dedup := <[id:=n]> (lg_dedup L);
                      lg_events := <[n:=e]> (lg_events L);
                      lg_seq := n |}, Ok e)
      end
  end.

(** All the commands of a log entry, with their replies. *)
Fixpoint spec_commands (L : Ledger) (l o : Z) (cs : list CommandPb) :
    run (Ledger * list InflightEvent) :=
  match cs with
  | [] => Returns (L, [])
  | c :: cs =>
      '(L, r) ← spec_command L l o c;
      '(L, rs) ← spec_commands L l (o + 1) cs;
      Returns (L, {| ie_position := position_of l o; ie_event := r |} :: rs)
  end.

(** No command of the entry updates the limits of an account deleted before it. *)
Fixpoint configs_ok (L : Ledger) (l o : Z) (cs : list CommandPb) : bool :=
  match cs with
  | [] => true
  | c :: cs =>
      config_ok (lg_accounts L) c &&
      match spec_command L l o c with
      | Returns (L, _) => configs_ok L l (o + 1) cs
      | Panics => false
      end
  end.
End ledger.

(** ** The state machine refines the ledger *)
Section refinement.
Context {BD : BigDecimal} {BDL : BigDecimalLaws BD} {R : RocksDB} {RL : RocksDBLaws R}.
Context `{!ProtoMessage AccountPb, !ProtoMessage EventPb}.
Context `{!ProtoRoundTrip AccountPb, !ProtoRoundTrip EventPb}.

Definition ledger_of (w : Wallet) (st : StateMachine * ApplyContext) : Ledger :=
  {| lg_accounts := accounts st.1; lg_dedup := w_dedup w; lg_events := w_events w;
     lg_seq := last_seq_num st.1 |}.

Lemma account_or_new_eq s id : get_or_create_account s id = account_or_new (accounts s) id.
Proof. unfold get_or_create_account, account_or_new. by case_match. Qed.

Lemma batch_updates_mapM s specs :
  batch_updates s specs =
  (res ← mapM (λ spec, increase_balance_by (account_or_new (accounts s) (bos_account_id spec))
                        (bos_amount spec)) specs;
   Ok (res.*2, res.*1)).
Proof.
  induction specs as [|spec specs IH]; [done|]. cbn. rewrite account_or_new_eq.
  destruct (increase_balance_by _ _) as [[a ch]|e]; [|done]. cbn. rewrite IH.
  by destruct (mapM _ specs) as [res|e].
Qed.

(** The accounts in memory after some updates. *)
Lemma apply_updates_accounts st us :
  accounts (apply_updates st us).1
  = foldl put_account (accounts st.1)
      ((λ u, match u with UPut a | UDel a => a end) <$> us).
Proof.
  revert st. induction us as [|u us IH]; intros st; [done|]. cbn. rewrite IH.
  by destruct u, st.
Qed.

(** Unfolds a handler down to the checks it makes. *)
Tactic Notation "run_handler" reference(h) :=
  unfold h, mbind, handler_bind, gets, try, result_bind; cbn.

(** [handle_*] computes the specified effects. *)
Lemma dispatch_effects p l o st :
  last_seq_num (bumped st).1 = last_seq_num st.1 + 1 →
  match spec_effects (accounts st.1) (last_seq_num st.1 + 1) l o p with
  | Err e => dispatch p l o st = (Err e, st)
  | Ok (changed, e) => ∃ st',
      dispatch p l o st = (Ok e, st') ∧
      accounts st'.1 = foldl put_account (accounts st.1) changed
  end.
Proof.
  destruct st as [s c]. cbn. intros Hb.
  assert (∀ id, assert_account_exists s id = existing_account (accounts s) id) as Hex
    by done.
  destruct p as [r|r|r|r|r|r|r|r|r]; cbn [spec_effects dispatch].
  - run_handler handle_transfer.
    rewrite !account_or_new_eq.
    destruct (validate_asset_class_compatibility _ _) as [[]|e]; [|done].
    destruct (increase_balance_by _ _) as [[to' ch_to]|e]; [|done].
    destruct (calc_neg _) as [neg|e]; [|done].
    destruct (increase_balance_by _ neg) as [[from' ch_from]|e]; [|done].
    cbn. rewrite Hb. by eexists.
  - pose proof (batch_updates_mapM s (balance_operation_spec r)) as Hbu.
    unfold handle_batch_balance_operation, gets, try.
    destruct (mapM _ _) as [res|e]; cbn in Hbu;
      unfold mbind, handler_bind, result_bind; cbn -[batch_updates]; rewrite Hbu; [|done].
    cbn.
    destruct (update_accounts _ _) as [r' st'] eqn:Hu.
    apply update_accounts_eq in Hu as [-> ->]. eexists.
    destruct (apply_updates_frame (set_last_seq_num (last_seq_num s +u 1) s, c)
      (UPut <$> res.*1)) as (_ & Hl & _). cbn in Hl.
    split; [unfold gets; cbn; by rewrite Hl, Hb|].
    rewrite apply_updates_accounts. by rewrite <-list_fmap_compose, list_fmap_id.
  - run_handler handle_reserve. rewrite Hex.
    destruct (existing_account _ _) as [a|e]; [|done].
    destruct (reserve _ _ _) as [a'|e]; [|done]. cbn. rewrite Hb. by eexists.
  - run_handler handle_release. rewrite Hex.
    destruct (existing_account _ _) as [a|e]; [|done].
    destruct (if decide _ then _ else _) as [a'|e]; [|done]. cbn. rewrite Hb. by eexists.
  - run_handler handle_create_account.
    destruct (accounts s !! _); [done|]. cbn. rewrite Hb. by eexists.
  - run_handler handle_delete_account. rewrite Hex. destruct (existing_account _ _) as [a|e]; [|done].
    destruct (account_delete _) as [a'|e]; [|done]. cbn. rewrite Hb. by eexists.
  - run_handler handle_lock_account. rewrite Hex. destruct (existing_account _ _) as [a|e]; [|done].
    destruct (lock _) as [a'|e]; [|done]. cbn. rewrite Hb. by eexists.
  - run_handler handle_unlock_account. rewrite Hex. destruct (existing_account _ _) as [a|e]; [|done].
    destruct (unlock _) as [a'|e]; [|done]. cbn. rewrite Hb. by eexists.
  - run_handler handle_update_account_config. rewrite Hex. destruct (existing_account _ _) as [a|e]; [|done]. cbn. rewrite Hb.
    by eexists.
Qed.

(** What commands leave alone: the disk and the progress of the apply loop. *)
Record same_progress (st st' : StateMachine * ApplyContext) : Prop := {
  sp_rocksdb : rocksdb st'.1 = rocksdb st.1;
  sp_applied : applied_index st'.1 = applied_index st.1;
  sp_flushed : flushed_applied_index st'.2 = flushed_applied_index st.2;
  sp_batch : batch_size st'.2 = batch_size st.2 }.

Global Instance same_progress_refl : Reflexive same_progress.
Proof. done. Qed.
Global Instance same_progress_trans : Transitive same_progress.
Proof. intros st1 st2 st3 [????] [????]. split; congruence. Qed.

Lemma handle_command_simulation w st l o c :
  sm_inv w st → command_wf c = true → last_seq_num st.1 < u64_max →
  ∃ w' st' reply,
    handle_command l o c st = Returns st' ∧
    spec_command (ledger_of w st) l o c = Returns (ledger_of w' st', reply) ∧
    sm_inv w' st' ∧ same_progress st st' ∧
    (zombie_free w st → config_ok (accounts st.1) c = true → zombie_free w' st') ∧
    (∀ last0, last0 ≤ last_seq_num st.1 → cache_fresh last0 st → cache_fresh last0 st') ∧
    inflight_event_tx st'.2
    = inflight_event_tx st.2 ++ [{| ie_position := position_of l o; ie_event := reply |}].
Proof.
  intros Hinv (p & Hp & Hids)%command_wf_payload Hmax. unfold spec_command. rewrite Hp. cbn.
  destruct (w_dedup w !! command_command_id c) as [n|] eqn:Hd.
  - destruct (log_dedup _ _ (inv_log _ _ Hinv) _ _ Hd) as (e & He & _).
    destruct (log_events _ _ (inv_log _ _ Hinv) _ _ He) as (_ & _ & _ & [ep Hep]).
    rewrite He. cbn. rewrite Hep. cbn.
    rewrite (handle_command_duplicate _ _ l o _ _ _ _ _ Hinv Hp Hd He Hep).
    exists w. do 2 eexists. split_and!; [done|done|by apply inv_send_event|by split|done|done|done].
  - rewrite (handle_command_new _ _ l o _ _ Hinv Hp Hd).
    destruct (inv_bumped _ _ Hinv Hmax) as [_ Hlast].
    pose proof (dispatch_effects p l o st Hlast) as Heff.
    destruct (spec_effects _ _ _ _ _) as [[changed e]|e].
    + destruct Heff as (st1 & Hdisp & Hacc). rewrite Hdisp.
      destruct (inv_accept _ _ _ _ _ _ _ _ Hinv Hmax Hids Hd Hdisp)
        as (Hn & us & -> & Hsimple & Hfrom & Hinv').
      destruct (apply_updates_frame (bumped st) us) as (Hf1 & _ & _ & _ & Hf5 & Hf6 & Hf8 & Hf7).
      destruct (w_update_log w us) as [Hwd Hwe]. rewrite Hn.
      pose proof (λ Hz Hc, zombie_free_updates _ _ _ us _ Hinv Hz Hp Hc Hfrom Hsimple) as Hzf.
      pose proof (λ last0 Hle Hf, cache_fresh_accept last0 st us (command_command_id c)
        (event_set_header (command_header c) l o (last_seq_num st.1 + 1) e) Hf Hle Hn) as Hcf.
      destruct (apply_updates (bumped st) us) as [s' c'].
      eexists. do 2 eexists. split; [done|]. split; [|split; [exact (inv_send_event _ _ _ _ Hinv')|]].
      * do 2 f_equal. unfold ledger_of. cbn in *. by rewrite Hwd, Hwe, Hacc, Hn.
      * destruct st as [s0 c0]. cbn in *. rewrite Hf7. split; [by split|]. split; [done|]. by split.
    + rewrite Heff. exists w. do 2 eexists.
      split_and!; [done|done|by apply inv_send_event|by split|done|done|done].
Qed.

Lemma spec_command_seq L l o c L' r :
  spec_command L l o c = Returns (L', r) → lg_seq L ≤ lg_seq L' ≤ lg_seq L + 1.
Proof. unfold spec_command. intros H. case_run; cbn; lia. Qed.

Lemma spec_commands_seq L l o cs L' rs :
  spec_commands L l o cs = Returns (L', rs) →
  lg_seq L ≤ lg_seq L' ≤ lg_seq L + Z.of_nat (length cs).
Proof.
  revert L o rs. induction cs as [|c cs IH]; intros L o rs H; cbn [spec_commands length] in *.
  - simplify_run. lia.
  - simplify_run. match goal with H : spec_command _ _ _ _ = _ |- _ =>
      apply spec_command_seq in H end.
    match goal with H : spec_commands _ _ _ _ = _ |- _ => apply IH in H end. lia.
Qed.

Lemma handle_commands_simulation w st l o cs :
  sm_inv w st → forallb command_wf cs = true →
  last_seq_num st.1 + Z.of_nat (length cs) ≤ u64_max →
  ∃ w' st' rs,
    handle_commands l o cs st = Returns st' ∧
    spec_commands (ledger_of w st) l o cs = Returns (ledger_of w' st', rs) ∧
    sm_inv w' st' ∧ same_progress st st' ∧
    (zombie_free w st → configs_ok (ledger_of w st) l o cs = true → zombie_free w' st') ∧
    (∀ last0, last0 ≤ last_seq_num st.1 → cache_fresh last0 st → cache_fresh last0 st') ∧
    inflight_event_tx st'.2 = inflight_event_tx st.2 ++ rs.
Proof.
  revert w st o. induction cs as [|c cs IH]; intros w st o Hinv Hwf Hmax; cbn in *.
  { exists w. do 2 eexists. split_and!; [done..|by rewrite app_nil_r]. }
  apply andb_true_iff in Hwf as [Hc Hcs].
  destruct (handle_command_simulation w st l o c Hinv Hc) 
    as (w1 & st1 & r & -> & Hs & Hi & Hp & Hz & Hc1 & Ht); [lia|]. cbn. rewrite Hs. cbn. apply spec_command_seq in Hs. cbn in Hs.
  destruct (IH w1 st1 (o + 1) Hi Hcs) as (w2 & st2 & rs & -> & Hs2 & Hi2 & Hp2 & Hz2 & Hc2 & Ht2);
    [lia|].
  rewrite Hs2. cbn. exists w2. do 2 eexists. split_and!; [done|done|done|by etrans| | |].
  - intros Hzf [? ?]%andb_true_iff. auto.
  - intros last0 Hle Hf. apply Hc2; [lia|]. by apply Hc1.
  - by rewrite Ht2, Ht, <-app_assoc.
Qed.
End refinement.
