(* ===== verification/Durability.v ===== *)
(** * Durability: log entries, flushes, crashes and recovery

    The state machine buffers its updates and writes them in one atomic batch.
    This file shows that the buffer and the disk together always represent the
    ledger, that a flush makes it durable, and that after a crash recovery
    returns to the ledger of the last flush, from which replaying the log
    gives back what was lost. *)

From S2P Require Import Prelude Bytes Keys Proto Errors RefDecimal BalanceCalculator Account.
From S2P Require Import RocksEngine Internal RocksDBState MessageBroker MessageQueue.
From S2P Require Import StateMachine Wallet Ledger.
Local Open Scope Z_scope.

Local Arguments write_u64 : simpl never.
Local Arguments as_bytes : simpl never.

Section durability.
Context {BD : BigDecimal} {BDL : BigDecimalLaws BD} {R : RocksDB} {RL : RocksDBLaws R}.
Context `{!ProtoMessage AccountPb, !ProtoMessage EventPb}.
Context `{!ProtoRoundTrip AccountPb, !ProtoRoundTrip EventPb}.

(** ** What a database holds *)

(** A counter, as [read_hard_state_from_db] reads it. *)
Definition hard_of (get : bytes → option bytes) (kind : HardStateKind) : run Z :=
  match get (as_bytes (key kind)) with
  | Some bs => read_u64 bs
  | None => Returns (default_value kind)
  end.

(** The contents [get] of a database are wallet [w], as of log entry [applied]. *)
Record durable (get : bytes → option bytes) (w : Wallet) (applied last : Z) : Prop := {
  du_stores : stores get w;
  du_log : log_ok w last;
  du_accounts id a : w_accounts w !! id = Some a → account_inv id a;
  du_applied : hard_of get APPLIED_INDEX = Returns applied;
  du_last : hard_of get PERSISTED_LAST_SEQ_NUM = Returns last;
  du_applied_u64 : is_u64 applied;
  du_last_u64 : is_u64 last }.

Abbreviation disk d := (db_get d CF_DEFAULT).

(** The invariant between two log entries: the disk holds the wallet [w0] of the
    last flush, and the disk with the batch the current wallet [w]. *)
Record entry_inv (w0 : Wallet) (last0 : Z) (w : Wallet) (st : StateMachine * ApplyContext) :
    Prop := {
  ei_sm : sm_inv w st;
  ei_disk : durable (disk (rocksdb st.1)) w0 (flushed_applied_index st.2) last0;
  ei_applied : hard_of (view (rocksdb st.1) (wb st.2)) APPLIED_INDEX
               = Returns (applied_index st.1);
  ei_last : hard_of (view (rocksdb st.1) (wb st.2)) PERSISTED_LAST_SEQ_NUM
            = Returns (last_seq_num st.1);
  ei_applied_u64 : is_u64 (applied_index st.1);
  ei_order : flushed_applied_index st.2 ≤ applied_index st.1;
  ei_last_order : last0 ≤ last_seq_num st.1;
  ei_fresh : cache_fresh last0 st }.

(** ** Recovery *)

Definition decode_account (m : gmap string AccountPb) (k v : bytes) : gmap string AccountPb :=
  match from_utf8 (drop 1 k), parse_from_bytes v with
  | Some id, Some a => <[id:=a]> m
  | _, _ => m
  end.

(** An entry of the scan of the data keys of a database that holds [w]. *)
Lemma data_entry d w k v :
  stores (disk d) w → (k, v) ∈ db_iter d CF_DEFAULT (Some DATA_MIN_KEY) (Some DATA_MAX_KEY) DATA_MIN_KEY →
  ∃ id (a : AccountPb), k = data_key (as_bytes id) ∧ v = write_to_bytes a ∧ is_str id = true ∧
    w_accounts w !! id = Some a.
Proof.
  intros Hst (Hget & Hge & _ & Hlt)%db_iter_elem.
  destruct (proj1 (data_key_range k)) as [k' ->].
  { by rewrite Hge, (Hlt _ eq_refl). }
  destruct (st_data _ _ Hst _ _ Hget) as (id & -> & Hid).
  rewrite (st_accounts _ _ Hst) in Hget.
  apply fmap_Some in Hget as (a & Ha & ->). eauto 10.
Qed.

Lemma read_account_spec id (a : AccountPb) m :
  is_str id = true →
  read_account m (data_key (as_bytes id)) (write_to_bytes a)
  = Returns (Ok (decode_account m (data_key (as_bytes id)) (write_to_bytes a), true)).
Proof.
  intros Hid. unfold read_account, decode_account. rewrite origin_data_key_data_key. cbn.
  rewrite drop_0, from_utf8_as_bytes by done. cbn. by rewrite parse_write.
Qed.

Lemma decode_account_data m id (a : AccountPb) :
  is_str id = true →
  decode_account m (data_key (as_bytes id)) (write_to_bytes a) = <[id:=a]> m.
Proof.
  intros Hid. unfold decode_account. cbn. by rewrite drop_0, from_utf8_as_bytes, parse_write.
Qed.

(** Collecting entries that all belong to a map, and among which the whole map is,
    gives the map. *)
Lemma decode_accounts_fold it m acc :
  (∀ k v, (k, v) ∈ it → ∃ id (a : AccountPb), k = data_key (as_bytes id) ∧ v = write_to_bytes a ∧
     is_str id = true ∧ m !! id = Some a) →
  acc ⊆ m →
  let r := foldl (λ s '(k, v), decode_account s k v) acc it in
  r ⊆ m ∧ acc ⊆ r ∧
  ∀ id (a : AccountPb), (data_key (as_bytes id), write_to_bytes a) ∈ it → is_Some (r !! id).
Proof.
  revert acc. induction it as [|[k v] it IH]; intros acc Hit Hacc; cbn.
  { split; [done|]. split; [done|]. intros id a []%not_elem_of_nil. }
  destruct (Hit k v) as (id & a & -> & -> & Hid & Hm); [left|].
  rewrite decode_account_data by done.
  destruct (IH (<[id:=a]> acc)) as (Hr & Hsub & Hin).
  { intros. apply Hit. by right. }
  { by apply insert_subseteq_l. }
  assert (foldl (λ s '(k, v), decode_account s k v) (<[id:=a]> acc) it !! id = Some a) as Hlk
    by (eapply lookup_weaken; [apply lookup_insert_eq|done]).
  split; [done|]. split.
  - intros i. specialize (Hr i). specialize (Hsub i). specialize (Hacc i).
    destruct (decide (i = id)) as [->|Hne].
    + rewrite Hlk, Hm in *. by destruct (acc !! id).
    + by rewrite lookup_insert_ne in Hsub.
  - intros id' a' [[Heq _]%(inj2 pair)|Hin']%elem_of_cons; [|eauto].
    apply (inj data_key), (inj as_bytes) in Heq as ->. by eexists.
Qed.

Lemma read_accounts_from_db_spec d w :
  stores (disk d) w → read_accounts_from_db d = Returns (w_accounts w).
Proof.
  intros Hst. unfold read_accounts_from_db, scan.
  rewrite (scan_impl_all decode_account).
  2:{ intros m k v Hkv. destruct (data_entry _ _ _ _ Hst Hkv) as (id & a & -> & -> & Hid & _).
      by apply read_account_spec. }
  cbn. f_equal.
  edestruct (decode_accounts_fold (db_iter d CF_DEFAULT (Some DATA_MIN_KEY) (Some DATA_MAX_KEY)
    DATA_MIN_KEY) (w_accounts w) ∅) as (Hr & _ & Hin).
  { intros k v Hkv. by apply (data_entry d). }
  { apply map_empty_subseteq. }
  apply (anti_symm (⊆)); [exact Hr|]. apply map_subseteq_spec. intros id a Ha.
  destruct (Hin id a) as [a' Ha'].
  - apply db_iter_elem. rewrite (st_accounts _ _ Hst), Ha.
    pose proof (proj2 (data_key_range (data_key (as_bytes id))) (ex_intro _ _ eq_refl)) as Hrange.
    apply andb_true_iff in Hrange as [Hlo Hhi]. naive_solver.
  - rewrite Ha'. eapply lookup_weaken in Ha'; [|exact Hr]. congruence.
Qed.

Lemma recover_spec d w applied last bs now :
  durable (disk d) w applied last →
  ∃ st, recover_from_db d bs now = Returns st ∧ entry_inv w last w st ∧
    accounts st.1 = w_accounts w ∧ last_seq_num st.1 = last ∧ applied_index st.1 = applied ∧
    flushed_applied_index st.2 = applied ∧ to_be_deleted_account_ids st.2 = [] ∧
    rocksdb st.1 = d ∧ inflight_event_tx st.2 = [] ∧ batch_size st.2 = bs.
Proof.
  intros Hd. unfold recover_from_db.
  rewrite (read_accounts_from_db_spec d w) by apply Hd.
  pose proof (du_applied _ _ _ _ Hd : read_hard_state_from_db d APPLIED_INDEX = _) as Ha.
  pose proof (du_last _ _ _ _ Hd : read_hard_state_from_db d PERSISTED_LAST_SEQ_NUM = _) as Hl.
  rewrite Ha, Hl. cbn -[wb_new]. eexists. split; [done|]. split; [|by split_and!].
  assert (∀ k, view d wb_new k = disk d k) as Hv by apply view_new.
  destruct Hd as [[Hs1 Hs2 Hs3 Hs4 Hs5] ??????]. split; cbn; try done.
  - split; cbn; try done.
    + split; intros *; rewrite ?Hv; auto; [apply Hs2|apply Hs5].
    + intros id a Hid. split; [by eauto|].
      destruct (Hs2 (as_bytes id) (write_to_bytes a)) as (id' & Heq & Hstr);
        [by rewrite Hs1, Hid|]. by apply (inj as_bytes) in Heq as ->.
    + by intros id []%not_elem_of_nil.
    + intros. apply untouched_new.
    + intros. apply untouched_new.
  - by rewrite <-Ha; unfold hard_of; rewrite Hv.
  - by rewrite <-Hl; unfold hard_of; rewrite Hv.
Qed.

(** ** Applying an entry *)

Lemma hard_of_put_eq d b kind n :
  is_u64 n → hard_of (view d (wb_put (as_bytes (key kind)) (write_u64 n) b)) kind = Returns n.
Proof. intros Hn. unfold hard_of. rewrite view_put_eq. by apply read_write_u64. Qed.

Lemma apply_entry_spec w0 last0 w st l cs :
  entry_inv w0 last0 w st → applied_index st.1 + 1 = l → is_u64 l →
  forallb command_wf cs = true → last_seq_num st.1 + Z.of_nat (length cs) ≤ u64_max →
  ∃ w' st' rs,
    apply_entry l cs st = Returns st' ∧
    spec_commands (ledger_of w st) l 0 cs = Returns (ledger_of w' st', rs) ∧
    entry_inv w0 last0 w' st' ∧ applied_index st'.1 = l ∧
    flushed_applied_index st'.2 = flushed_applied_index st.2 ∧
    rocksdb st'.1 = rocksdb st.1 ∧
    (zombie_free w st → configs_ok (ledger_of w st) l 0 cs = true → zombie_free w' st') ∧
    inflight_event_tx st'.2 = inflight_event_tx st.2 ++ rs.
Proof.
  intros [Hsm Hdisk Happ Hlast Hu Hord Hlord Hfresh] Hl Hlu Hwf Hmax. unfold apply_entry.
  rewrite u64_add_small by (rewrite Hl; done). rewrite bool_decide_eq_true_2 by done. cbn.
  destruct (handle_commands_simulation w st l 0 cs Hsm Hwf Hmax)
    as (w' & [s' c'] & rs & -> & Hspec & Hsm' & [Hp1 Hp2 Hp3 _] & Hz & Hcf & Htx).
  cbn -[APPLIED_INDEX PERSISTED_LAST_SEQ_NUM] in *.
  exists w'. do 2 eexists. split; [done|]. split; [exact Hspec|].
  split; [|by split_and!]. pose proof (inv_last _ _ Hsm') as Hlu'. cbn in Hlu'.
  split; cbn -[APPLIED_INDEX PERSISTED_LAST_SEQ_NUM]; try done.
  - destruct Hsm'. split; cbn -[APPLIED_INDEX PERSISTED_LAST_SEQ_NUM] in *; try done.
    + by repeat apply stores_hard; eauto with wallet.
    + intros id Hid. repeat apply untouched_put; eauto with wallet.
    + intros n Hn Hc. repeat apply untouched_put; eauto with wallet.
  - by rewrite Hp1, Hp3.
  - unfold hard_of. rewrite view_put_ne by done. by apply (hard_of_put_eq _ _ APPLIED_INDEX).
  - by apply (hard_of_put_eq _ _ PERSISTED_LAST_SEQ_NUM).
  - lia.
  - apply spec_commands_seq in Hspec. cbn in Hspec. lia.
  - by apply (Hcf last0).
Qed.

(** Neither applying an entry nor flushing changes the configured batch size. *)
Lemma apply_entry_batch w st l cs st' :
  sm_inv w st → forallb command_wf cs = true →
  last_seq_num st.1 + Z.of_nat (length cs) ≤ u64_max →
  apply_entry l cs st = Returns st' → batch_size st'.2 = batch_size st.2.
Proof.
  intros Hsm Hwf Hmax Ha. unfold apply_entry in Ha.
  destruct (handle_commands_simulation w st l 0 cs Hsm Hwf Hmax)
    as (w' & st1 & rs & Hh & _ & _ & Hp & _). rewrite Hh in Ha. simplify_run. apply Hp.
Qed.
Lemma flush_batch now st st' : flush now st = Returns st' → batch_size st'.2 = batch_size st.2.
Proof. unfold flush. destruct st. intros H. by simplify_run. Qed.

(** ** Flushing *)

Lemma foldl_delete_lookup (ids : list string) (m : gmap string AccountPb) id :
  foldl (λ m id, delete id m) m ids !! id = if decide (id ∈ ids) then None else m !! id.
Proof.
  revert m. induction ids as [|i ids IH]; intros m; cbn; [done|].
  rewrite IH. destruct (decide (id ∈ ids)) as [Hin|Hin].
  - rewrite decide_True by (by right). done.
  - destruct (decide (id = i)) as [->|Hne].
    + rewrite decide_True by left. apply lookup_delete_eq.
    + rewrite decide_False by (by rewrite elem_of_cons; intros [?|?]).
      by rewrite lookup_delete_ne.
Qed.

Lemma purge_accounts w st :
  sm_inv w st → zombie_free w st →
  foldl (λ m id, delete id m) (accounts st.1) (to_be_deleted_account_ids st.2)
  = w_accounts w.
Proof.
  intros Hinv Hz. apply map_eq. intros id. rewrite foldl_delete_lookup.
  case_decide; [by rewrite Hz|]. by rewrite (inv_live _ _ Hinv).
Qed.

Lemma flush_spec w0 last0 w st now :
  entry_inv w0 last0 w st → zombie_free w st →
  flushed_applied_index st.2 < applied_index st.1 →
  ∃ st', flush now st = Returns st' ∧ entry_inv w (last_seq_num st.1) w st' ∧
    accounts st'.1 = w_accounts w ∧ last_seq_num st'.1 = last_seq_num st.1 ∧
    applied_index st'.1 = applied_index st.1 ∧
    flushed_applied_index st'.2 = applied_index st.1 ∧
    to_be_deleted_account_ids st'.2 = [] ∧ flushed_timestamp st'.2 = now ∧
    inflight_event_tx st'.2 = inflight_event_tx st.2.
Proof.
  intros [Hsm Hdisk Happ Hlast Hu Hord Hlord Hfresh] Hz Hlt. unfold flush. destruct st as [s c].
  pose proof (purge_accounts _ _ Hsm Hz) as Hpurge. cbn in *.
  rewrite (proj2 (Z.ltb_lt _ _) Hlt). cbn -[wb_clear]. eexists. split; [done|].
  split; [|by split_and!].
  assert (∀ k, view (write_opt (rocksdb s) (wb c)) wb_new k = view (rocksdb s) (wb c) k) as Hv
    by (intros; apply view_new).
  assert (stores (view (rocksdb s) (wb c)) w) as Hst by apply Hsm.
  assert (∀ id a, w_accounts w !! id = Some a → account_inv id a ∧ is_str id = true) as Hacc.
  { intros id a Ha. rewrite <-Hpurge, foldl_delete_lookup in Ha. case_decide; [done|].
    by apply (inv_accounts _ _ Hsm). }
  destruct Hst as [Hs1 Hs2 Hs3 Hs4 Hs5], Hsm. split; cbn; rewrite ?Hpurge; try done.
  - split; cbn; rewrite ?Hpurge; try done.
    + split; intros *; rewrite ?Hv; auto; [apply Hs2|apply Hs5].
    + by intros id []%not_elem_of_nil.
    + intros. apply untouched_new.
    + intros. apply untouched_new.
  - split; cbn; try done. by intros id a [??]%Hacc.
  - by rewrite <-Happ; unfold hard_of; rewrite Hv.
  - by rewrite <-Hlast; unfold hard_of; rewrite Hv.
Qed.

(** ** A fresh database *)

Lemma durable_empty d :
  (∀ k, db_get d CF_DEFAULT k = None) →
  durable (disk d) empty_wallet (default_value APPLIED_INDEX) 0.
Proof.
  intros Hd. split; cbn; try done.
  - split; intros *; rewrite Hd; done.
  - unfold hard_of. by rewrite Hd.
  - unfold hard_of. by rewrite Hd.
Qed.

(** ** Several entries *)

(** The entries of a batch follow each other. *)
Fixpoint contiguous (applied : Z) (es : list (LogEntry CommandPb)) : Prop :=
  match es with
  | [] => True
  | e :: es => le_index e = applied + 1 ∧ contiguous (le_index e) es
  end.

Definition entries_wf (es : list (LogEntry CommandPb)) : bool :=
  forallb (λ e, forallb command_wf (le_messages e)) es.
Definition commands_in (es : list (LogEntry CommandPb)) : Z :=
  foldr (λ e n, Z.of_nat (length (le_messages e)) + n) 0 es.

Lemma commands_in_cons e es :
  commands_in (e :: es) = Z.of_nat (length (le_messages e)) + commands_in es.
Proof. done. Qed.

Lemma commands_in_nonneg es : 0 ≤ commands_in es.
Proof. induction es; [done|]. rewrite commands_in_cons. lia. Qed.

Fixpoint spec_entries (L : Ledger) (es : list (LogEntry CommandPb)) :
    run (Ledger * list InflightEvent) :=
  match es with
  | [] => Returns (L, [])
  | e :: es =>
      '(L, rs) ← spec_commands L (le_index e) 0 (le_messages e);
      '(L, rs') ← spec_entries L es;
      Returns (L, rs ++ rs')
  end.

(** No command updates the limits of an account deleted before it. *)
Fixpoint entries_config_ok (L : Ledger) (es : list (LogEntry CommandPb)) : bool :=
  match es with
  | [] => true
  | e :: es =>
      configs_ok L (le_index e) 0 (le_messages e) &&
      match spec_commands L (le_index e) 0 (le_messages e) with
      | Returns (L, _) => entries_config_ok L es
      | Panics => false
      end
  end.

Lemma apply_entries_spec w0 last0 w st es :
  entry_inv w0 last0 w st → contiguous (applied_index st.1) es → entries_wf es = true →
  applied_index st.1 + Z.of_nat (length es) ≤ u64_max →
  last_seq_num st.1 + commands_in es ≤ u64_max →
  ∃ w' st' rs,
    apply_entries es {| al_state := st; al_applied_index := applied_index st.1 |}
    = Returns {| al_state := st'; al_applied_index := applied_index st'.1 |} ∧
    spec_entries (ledger_of w st) es = Returns (ledger_of w' st', rs) ∧
    entry_inv w0 last0 w' st' ∧
    applied_index st'.1 = applied_index st.1 + Z.of_nat (length es) ∧
    flushed_applied_index st'.2 = flushed_applied_index st.2 ∧
    rocksdb st'.1 = rocksdb st.1 ∧
    (zombie_free w st → entries_config_ok (ledger_of w st) es = true → zombie_free w' st') ∧
    inflight_event_tx st'.2 = inflight_event_tx st.2 ++ rs.
Proof.
  revert w st. induction es as [|e es IH]; intros w st Hinv Hcon Hwf Hmax Hseq;
    [|rewrite commands_in_cons in Hseq]; cbn -[commands_in] in *.
  { exists w. do 2 eexists. split_and!; [done..|lia|done|done|done|by rewrite app_nil_r]. }
  destruct Hcon as [He Hcon]. apply andb_true_iff in Hwf as [Hwe Hwf].
  pose proof (ei_applied_u64 _ _ _ _ Hinv) as [Ha1 Ha2]. unfold u64_max in Hmax.
  rewrite u64_add_small, bool_decide_eq_true_2 by (try split; lia). cbn.
  destruct (apply_entry_spec _ _ _ _ (le_index e) (le_messages e) Hinv)
    as (w1 & st1 & rs1 & -> & Hs1 & Hi1 & Ha & Hf1 & Hd1 & Hz1 & Ht1);
    [lia|split; lia|done|pose proof (commands_in_nonneg es); lia|].
  cbn. rewrite Hs1. cbn. apply spec_commands_seq in Hs1. cbn in Hs1. rewrite <-Ha in Hcon.
  destruct (IH w1 st1 Hi1 Hcon Hwf)
    as (w2 & st2 & rs2 & Hr2 & Hs2 & Hi2 & Ha2' & Hf2 & Hd2 & Hz2 & Ht2);
    [unfold u64_max; lia|lia|].
  rewrite Ha in Hr2. rewrite Hr2, Hs2. cbn. exists w2. do 2 eexists.
  split_and!; [done|done|done|lia|congruence|congruence| |].
  - intros Hz [Hc1 Hc2]%andb_true_iff. auto.
  - by rewrite Ht2, Ht1, <-app_assoc.
Qed.

(** ** The life of a replica

    A replica applies log entries, flushes and crashes, in any order; after a
    crash it starts again from its disk. *)

(** [configs_ok], on the states of the state machine. *)
Fixpoint commands_safe (l o : Z) (cs : list CommandPb) (st : StateMachine * ApplyContext) :
    bool :=
  match cs with
  | [] => true
  | c :: cs =>
      config_ok (accounts st.1) c &&
      match handle_command l o c st with
      | Returns st => commands_safe l (o + 1) cs st
      | Panics => false
      end
  end.

Lemma commands_safe_configs_ok w st l o cs :
  sm_inv w st → forallb command_wf cs = true →
  last_seq_num st.1 + Z.of_nat (length cs) ≤ u64_max →
  commands_safe l o cs st = configs_ok (ledger_of w st) l o cs.
Proof.
  revert w st o. induction cs as [|c cs IH]; intros w st o Hinv Hwf Hmax; cbn in *; [done|].
  apply andb_true_iff in Hwf as [Hc Hcs]. f_equal.
  destruct (handle_command_simulation w st l o c Hinv Hc)
    as (w1 & st1 & r & -> & Hs & Hi & _); [lia|]. rewrite Hs.
  apply spec_command_seq in Hs. cbn in Hs. apply IH; [done..|lia].
Qed.

Inductive replica_step : relation (StateMachine * ApplyContext) :=
| replica_apply st l cs st' :
    apply_entry l cs st = Returns st' →
    forallb command_wf cs = true → commands_safe l 0 cs st = true →
    applied_index st.1 < u64_max →
    last_seq_num st.1 + Z.of_nat (length cs) ≤ u64_max →
    replica_step st st'
| replica_flush st now st' : flush now st = Returns st' → replica_step st st'
| replica_crash st bs now st' :
    recover_from_db (rocksdb st.1) bs now = Returns st' → replica_step st st'.

Definition replica_inv (st : StateMachine * ApplyContext) : Prop :=
  ∃ w0 last0 w, entry_inv w0 last0 w st ∧ zombie_free w st.

Lemma replica_step_inv st st' : replica_inv st → replica_step st st' → replica_inv st'.
Proof.
  intros (w0 & last0 & w & Hinv & Hz) Hstep. destruct Hstep.
  - assert (applied_index st.1 + 1 = l) as Hl.
    { unfold apply_entry in H. simplify_run. apply bool_decide_eq_true in H as <-.
      pose proof (ei_applied_u64 _ _ _ _ Hinv) as [??]. unfold u64_max in *.
      symmetry. apply u64_add_small. split; lia. }
    destruct (apply_entry_spec w0 last0 w st l cs Hinv Hl)
      as (w' & st1 & rs & Hr & _ & Hi & _ & _ & _ & Hzf & _); [|done..|].
    { pose proof (ei_applied_u64 _ _ _ _ Hinv) as [??]. unfold u64_max in *. split; lia. }
    rewrite H in Hr. injection Hr as <-. exists w0, last0, w'. split; [done|].
    apply Hzf; [done|]. by rewrite <-(commands_safe_configs_ok w st l 0 cs (ei_sm _ _ _ _ Hinv)).
  - assert (flushed_applied_index st.2 < applied_index st.1) as Hlt.
    { unfold flush in H. destruct st. simplify_run. by apply Z.ltb_lt. }
    destruct (flush_spec w0 last0 w st now Hinv Hz Hlt)
      as (st1 & Hr & Hi & _ & _ & _ & _ & Htbd & _).
    rewrite H in Hr. injection Hr as <-. exists w, (last_seq_num st.1), w. split; [done|].
    intros id. rewrite Htbd. by intros []%not_elem_of_nil.
  - destruct (recover_spec (rocksdb st.1) w0 (flushed_applied_index st.2) last0 bs now)
      as (st1 & Hr & Hi & _ & _ & _ & _ & Htbd & _); [apply Hinv|].
    rewrite H in Hr. injection Hr as <-. exists w0, last0, w0. split; [done|].
    intros id. rewrite Htbd. by intros []%not_elem_of_nil.
Qed.

Lemma replica_reachable_inv d bs now st0 st :
  (∀ k, db_get d CF_DEFAULT k = None) → recover_from_db d bs now = Returns st0 →
  rtc replica_step st0 st → replica_inv st.
Proof.
  intros Hd Hr Hsteps.
  assert (replica_inv st0) as Hinv.
  { destruct (recover_spec d empty_wallet (default_value APPLIED_INDEX) 0 bs now)
      as (st1 & Hr1 & Hi & _ & _ & _ & _ & Htbd & _); [by apply durable_empty|].
    rewrite Hr in Hr1. injection Hr1 as <-. do 3 eexists. split; [done|].
    intros id. rewrite Htbd. by intros []%not_elem_of_nil. }
  clear Hr. induction Hsteps; eauto using replica_step_inv.
Qed.
End durability.
