(* ===== verification/Money.v ===== *)
(** * Conservation of money

    The money of a ledger is the sum of the total balances of its accounts.
    Every accepted command conserves it, except a batch balance operation,
    which changes it by the sum of its amounts, provided that a command does
    not name the same account twice. *)

From S2P Require Import Prelude Bytes Keys Proto Errors RefDecimal BalanceCalculator Account.
From S2P Require Import RocksEngine Internal RocksDBState MessageBroker MessageQueue.
From S2P Require Import StateMachine Wallet Ledger.
Local Open Scope Qc_scope.

Section money.
Context {BD : BigDecimal} {BDL : BigDecimalLaws BD}.

Definition ledger_total (m : gmap string AccountPb) : Qc :=
  map_fold (λ _ a acc, total a + acc) 0 m.

Definition sum_money (l : list Qc) : Qc := foldr Qcplus 0 l.

(** What an accepted request adds to the ledger. *)
Definition payload_delta (p : CommandPayload_oneof_request) : Qc :=
  match p with
  | batch_balance_operation_request r =>
      sum_money ((λ s, money (bos_amount s)) <$> balance_operation_spec r)
  | _ => 0
  end.

(** The request names each account at most once. *)
Definition names_once (p : CommandPayload_oneof_request) : bool := bool_decide (NoDup (payload_ids p)).

Lemma ledger_total_insert_new m id a :
  m !! id = None → ledger_total (<[id:=a]> m) = total a + ledger_total m.
Proof.
  intros Hid. unfold ledger_total. rewrite map_fold_insert_L; [done| |done]. intros. ring.
Qed.

Lemma total_account_new id : total (account_new id) = 0.
Proof.
  unfold total, reserved, reservations_of, available_of. cbn.
  rewrite (value_of_money _ _ value_of_zero). rewrite map_fold_empty. ring.
Qed.

Lemma ledger_total_put m id a :
  ledger_total (<[id:=a]> m) = ledger_total m + (total a - total (account_or_new m id)).
Proof.
  unfold account_or_new. destruct (m !! id) as [a0|] eqn:Hid; cbn.
  - rewrite <-insert_delete_eq, ledger_total_insert_new by apply lookup_delete_eq.
    rewrite <-(insert_delete_id m id a0 Hid) at 2.
    rewrite ledger_total_insert_new by apply lookup_delete_eq. ring.
  - rewrite ledger_total_insert_new, total_account_new by done. ring.
Qed.

(** Replacing distinct accounts adds up their changes. *)
Lemma ledger_total_puts m changed :
  NoDup (acc_account_id <$> changed) →
  ledger_total (foldl put_account m changed) = ledger_total m +
    sum_money ((λ a, total a - total (account_or_new m (acc_account_id a))) <$> changed).
Proof.
  revert m. induction changed as [|a changed IH]; intros m Hnd; cbn; [ring|].
  apply list.NoDup_cons in Hnd as [Hni Hnd]. rewrite IH by done.
  unfold put_account at 1. rewrite ledger_total_put, <-Qcplus_assoc. do 2 f_equal.
  f_equal. apply list_fmap_ext. intros i b Hb. unfold account_or_new, put_account.
  rewrite lookup_insert_ne; [done|]. intros Heq. apply Hni. rewrite Heq.
  by eapply list_elem_of_fmap_2, list_elem_of_lookup_2.
Qed.

(** What each account operation adds to the account. *)
Lemma increase_total a amount a' ch :
  increase_balance_by a amount = Ok (a', ch) →
  total a' - total a = money amount ∧ acc_account_id a' = acc_account_id a.
Proof.
  intros (x & y & s & _ & Hx & Hy & Hs & _ & [= -> ->])%increase_balance_by_Ok.
  split; [|done]. unfold total, available_of, reservations_of in *. cbn.
  rewrite (value_of_money _ _ Hs), (value_of_money _ _ Hx), (value_of_money _ _ Hy). ring.
Qed.

Lemma increase_delta m id amount a' ch :
  acc_account_id (account_or_new m id) = id →
  increase_balance_by (account_or_new m id) amount = Ok (a', ch) →
  acc_account_id a' = id ∧ total a' - total (account_or_new m (acc_account_id a')) = money amount.
Proof. intros Hid [Ht Ha]%increase_total. rewrite Ha, Hid. done. Qed.

Lemma money_neg amount neg : calc_neg amount = Ok neg → money neg = - money amount.
Proof.
  intros (v & Hv & Hn)%calc_neg_Ok.
  by rewrite (value_of_money _ _ Hn), (value_of_money _ _ Hv).
Qed.

(** Replacing one existing account by a version with the same total. *)
Lemma ledger_total_keep m id a a' :
  existing_account m id = Ok a → acc_account_id a' = id → total a' = total a →
  ledger_total (foldl put_account m [a']) = ledger_total m.
Proof.
  intros He <- Ht. cbn [foldl]. unfold put_account. rewrite ledger_total_put.
  unfold existing_account in He. unfold account_or_new. destruct (m !! _); [|done].
  injection He as ->.
  cbn [from_option id]. rewrite Ht. ring.
Qed.

Lemma mapM_increase_delta m specs res :
  (∀ id, acc_account_id (account_or_new m id) = id) →
  mapM (λ spec, increase_balance_by (account_or_new m (bos_account_id spec))
                  (bos_amount spec)) specs = Ok res →
  acc_account_id <$> res.*1 = bos_account_id <$> specs ∧
  (λ a, total a - total (account_or_new m (acc_account_id a))) <$> res.*1
  = (λ s, money (bos_amount s)) <$> specs.
Proof.
  intros Hids. revert res. induction specs as [|spec specs IH]; intros res H; cbn in H.
  - simplify_run. done.
  - simplify_run.
    match goal with H : increase_balance_by _ _ = Ok ?x, H' : mapM _ _ = Ok _ |- _ =>
      destruct x as [a ch]; apply increase_delta in H as [Ha Ht]; [|apply Hids];
      destruct (IH _ H') as [IH1 IH2] end.
    cbn. by rewrite Ha, IH1, IH2, <-Ha, Ht.
Qed.

Lemma transfer_total m amount from_id to_id to' ch_to neg from' ch_from :
  (∀ id, acc_account_id (account_or_new m id) = id) → from_id ≠ to_id →
  increase_balance_by (account_or_new m to_id) amount = Ok (to', ch_to) →
  calc_neg amount = Ok neg →
  increase_balance_by (account_or_new m from_id) neg = Ok (from', ch_from) →
  ledger_total (foldl put_account m [to'; from']) = ledger_total m.
Proof.
  intros Hids Hne Ht Hn%money_neg Hf.
  apply increase_delta in Ht as [Ht1 Ht2]; [|apply Hids].
  apply increase_delta in Hf as [Hf1 Hf2]; [|apply Hids].
  rewrite ledger_total_puts; cbn [fmap list_fmap]; rewrite ?Ht1, ?Hf1.
  - rewrite Ht1 in Ht2. rewrite Hf1 in Hf2. unfold sum_money. cbn [foldr].
    rewrite Ht2, Hf2, Hn. ring.
  - apply list.NoDup_cons. split; [|apply NoDup_singleton].
    by intros ->%list_elem_of_singleton.
Qed.

Lemma batch_total m specs res :
  (∀ id, acc_account_id (account_or_new m id) = id) → NoDup (bos_account_id <$> specs) →
  mapM (λ spec, increase_balance_by (account_or_new m (bos_account_id spec))
                  (bos_amount spec)) specs = Ok res →
  ledger_total (foldl put_account m res.*1)
  = ledger_total m + sum_money ((λ s, money (bos_amount s)) <$> specs).
Proof.
  intros Hids Hnd [H1 H2]%mapM_increase_delta; [|done].
  by rewrite ledger_total_puts, H2 by (by rewrite H1).
Qed.

(** The operations on one existing account. *)
Lemma reservation_op_id a id amount a' :
  (reserve a id amount = Ok a' ∨ release_all a id = Ok a' ∨
   partial_release a id amount = Ok a') → acc_account_id a' = acc_account_id a.
Proof.
  intros [H|[H|H]].
  - by apply reserve_Ok in H as (?&?&?&?&?&?&?&?&?&?&->).
  - by apply release_all_Ok in H as (?&?&?&?&?&?&?&?&?&?&->).
  - by apply partial_release_Ok in H as (?&?&?&?&?&?&?&?&?&?&?&?&?&[[_ ->]|(?&_&_&->)]).
Qed.

Lemma spec_effects_total m n l o p changed e :
  (∀ id a, m !! id = Some a → acc_account_id a = id) → names_once p = true →
  spec_effects m n l o p = Ok (changed, e) →
  ledger_total (foldl put_account m changed) = ledger_total m + payload_delta p.
Proof.
  intros Hm Hnd%bool_decide_eq_true Heff.
  assert (∀ id, acc_account_id (account_or_new m id) = id) as Hids.
  { intros id. unfold account_or_new. destruct (m !! id) eqn:Hid; cbn; eauto. }
  assert (∀ id a, existing_account m id = Ok a → acc_account_id a = id) as Hex.
  { unfold existing_account. intros id a. destruct (m !! id) eqn:Hid; naive_solver. }
  assert (∀ id a a', existing_account m id = Ok a → acc_account_id a' = acc_account_id a →
    total a' = total a → ledger_total (foldl put_account m [a']) = ledger_total m) as Hkeep.
  { intros id a a' He Ha Ht. eapply ledger_total_keep; [done| |done]. rewrite Ha. eauto. }
  destruct p as [r|r|r|r|r|r|r|r|r]; cbn [payload_delta]; rewrite ?Qcplus_0_r;
    cbn [spec_effects payload_ids] in *.
  - simplify_run. eapply transfer_total; [done| |eassumption..].
    intros Heq. rewrite Heq in Hnd. apply list.NoDup_cons in Hnd as [Hni _].
    apply Hni. left.
  - apply result_bind_Ok in Heff as (res & Hres & [= <- <-]). by apply batch_total.
  - simplify_run. eapply Hkeep; [eassumption|..].
    + eapply reservation_op_id; eauto.
    + eapply reservation_op_total; eauto.
  - simplify_run. eapply Hkeep; [eassumption|..]; case_decide;
      first [eapply (reservation_op_id _ _ (release_amount r)); by eauto
            |eapply (reservation_op_total _ _ (release_amount r)); by eauto].
  - destruct (m !! _) eqn:Hnone; [done|]. simplify_run.
    etrans; [by apply ledger_total_insert_new|]. rewrite total_account_new. ring.
  - simplify_run. match goal with H : account_delete _ = Ok _ |- _ =>
      apply account_delete_Ok in H as (_ & _ & _ & ->) end. by eapply Hkeep; [eassumption|..].
  - simplify_run. match goal with H : lock _ = Ok _ |- _ =>
      apply lock_Ok in H as [_ ->] end. by eapply Hkeep; [eassumption|..].
  - simplify_run. match goal with H : unlock _ = Ok _ |- _ =>
      apply unlock_Ok in H as [_ ->] end. by eapply Hkeep; [eassumption|..].
  - simplify_run. by eapply Hkeep; [eassumption|..].
Qed.

(** ** Commands and log entries *)

Definition ids_ok (m : gmap string AccountPb) : Prop :=
  ∀ id a, m !! id = Some a → acc_account_id a = id.

Lemma ids_ok_puts m changed : ids_ok m → ids_ok (foldl put_account m changed).
Proof.
  revert m. induction changed as [|a changed IH]; intros m Hm; [done|]. apply IH.
  intros id a'. unfold put_account. rewrite lookup_insert_Some. naive_solver.
Qed.

Lemma spec_command_total L l o c p L' r :
  ids_ok (lg_accounts L) → command_payload c = Returns p → names_once p = true →
  spec_command L l o c = Returns (L', r) →
  ids_ok (lg_accounts L') ∧
  ledger_total (lg_accounts L') = ledger_total (lg_accounts L) +
    (if decide (lg_seq L' = lg_seq L) then 0 else payload_delta p).
Proof.
  intros Hids Hp Hnd Hspec.
  unfold spec_command in Hspec. rewrite Hp in Hspec. cbn [mbind run_bind] in Hspec.
  destruct (lg_dedup _ !! _) as [n|].
  - apply run_bind_Returns in Hspec as (e & _ & Hspec).
    apply run_bind_Returns in Hspec as (ep & _ & Hspec). injection Hspec as <- _.
    rewrite decide_True by done. split; [done|ring].
  - destruct (spec_effects _ _ _ _ _) as [[changed e0]|] eqn:Heff; injection Hspec as <- _.
    + cbn [lg_seq lg_accounts]. rewrite decide_False by lia.
      split; [by apply ids_ok_puts|by eapply spec_effects_total].
    + rewrite decide_True by done. split; [done|ring].
Qed.

(** Commands that neither create nor destroy money. *)
Definition conserving (c : CommandPb) : bool :=
  match request (get_or_default (cmd_payload c)) with
  | Some (batch_balance_operation_request _) => false
  | Some p => names_once p
  | None => false
  end.

Lemma conserving_spec c :
  conserving c = true →
  ∃ p, command_payload c = Returns p ∧ names_once p = true ∧ payload_delta p = 0.
Proof.
  unfold conserving, command_payload. destruct (request _) as [p|]; [|done].
  intros H. exists p. split; [done|]. by destruct p.
Qed.

Lemma spec_commands_total L l o cs L' rs :
  ids_ok (lg_accounts L) → forallb conserving cs = true →
  spec_commands L l o cs = Returns (L', rs) →
  ids_ok (lg_accounts L') ∧ ledger_total (lg_accounts L') = ledger_total (lg_accounts L).
Proof.
  revert L o rs. induction cs as [|c cs IH]; intros L o rs Hids Hc H; cbn [spec_commands] in H.
  { injection H as <- _. done. }
  apply andb_true_iff in Hc as [(p & Hp & Hnd & Hz)%conserving_spec Hcs].
  apply run_bind_Returns in H as ([L1 r] & Hs & H).
  apply run_bind_Returns in H as ([L2 rs'] & Hs' & H). injection H as <- _.
  destruct (spec_command_total _ _ _ _ _ _ _ Hids Hp Hnd Hs) as [Hids1 Ht].
  destruct (IH _ _ _ Hids1 Hcs Hs') as [Hids2 Ht2]. split; [done|]. rewrite Ht2, Ht, Hz.
  case_decide; ring.
Qed.
End money.
