(* ===== verification/Correctness.v ===== *)
(** * What the wallet service guarantees

    The properties of the state machine of [state_machine.rs], proved from the
    invariants of [Wallet], [Ledger], [Durability] and [Money], each followed by
    an instance on a concrete replica. *)

From S2P Require Import Prelude Bytes Keys Proto Errors RefDecimal BalanceCalculator Account.
From S2P Require Import RocksEngine RefRocks RefCodec Internal RocksDBState MessageBroker.
From S2P Require Import MessageQueue StateMachine Wallet Ledger Durability Money.
Local Open Scope Z_scope.

Section helpers.
Context {BD : BigDecimal} {BDL : BigDecimalLaws BD} {R : RocksDB} {RL : RocksDBLaws R}.
Context `{!ProtoMessage AccountPb, !ProtoMessage EventPb}.
Context `{!ProtoRoundTrip AccountPb, !ProtoRoundTrip EventPb}.

(** A state represents a ledger. *)
Definition represents (L : Ledger) (st : StateMachine * ApplyContext) : Prop :=
  ∃ w, sm_inv w st ∧ L = ledger_of w st.

(** What was sent to the broker between two states. *)
Definition replied (st st' : StateMachine * ApplyContext) (rs : list InflightEvent) : Prop :=
  inflight_event_tx st'.2 = inflight_event_tx st.2 ++ rs.

Definition reply_at (l o : Z) (r : GeneralResult EventPb) : InflightEvent :=
  {| ie_position := position_of l o; ie_event := r |}.

(** The request of a command and the type of an event agree. *)
Definition answers (c : CommandPb) (e : EventPb) : bool :=
  match request (get_or_default (cmd_payload c)), event (get_or_default (ev_payload e)) with
  | Some p, Some ep => same_type p ep
  | _, _ => false
  end.

Definition ledger_ok (L : Ledger) : Prop :=
  (∀ n e, lg_events L !! n = Some e → n ≤ lg_seq L) ∧
  (∀ id n, lg_dedup L !! id = Some n → ∃ e, lg_events L !! n = Some e ∧
     is_Some (event (get_or_default (ev_payload e)))).

Lemma represents_ok L st : represents L st → ledger_ok L.
Proof.
  intros (w & Hinv & ->). destruct (inv_log _ _ Hinv) as [He Hd]. split; cbn.
  - intros n e Hn. apply He in Hn. lia.
  - intros id n Hn. apply Hd in Hn as (e & Hn & _). exists e. split; [done|].
    by apply He in Hn as (_ & _ & _ & ?).
Qed.

Lemma spec_effects_same_type m n l o p changed e :
  spec_effects m n l o p = Ok (changed, e) →
  ∃ ep, event (get_or_default (ev_payload e)) = Some ep ∧ same_type p ep = true.
Proof.
  intros H. destruct p; cbn [spec_effects] in H; simplify_run; try by eexists.
  destruct (m !! _); simplify_run. by eexists.
Qed.

(** An accepted command is recorded with its event. *)
Lemma spec_command_recorded L l o c L' e :
  spec_command L l o c = Returns (L', Ok e) →
  answers c e = true ∧
  ∃ n, lg_dedup L' !! command_command_id c = Some n ∧ lg_events L' !! n = Some e.
Proof.
  unfold spec_command, answers, command_payload. intros H. simplify_run.
  match goal with H : request _ = Some _ |- _ => rewrite H end.
  destruct (lg_dedup L !! _) as [n|] eqn:Hd; simplify_run.
  - destruct (same_type _ _) eqn:Hs; simplify_eq.
    match goal with H : event _ = Some _ |- _ => rewrite H end.
    split; [done|]. by exists n.
  - destruct (spec_effects _ _ _ _ _) as [[changed e0]|] eqn:Heff; simplify_run.
    apply spec_effects_same_type in Heff as (ep & Hep & Hs). cbn. rewrite Hep.
    split; [done|]. exists (lg_seq L + 1). by rewrite !lookup_insert_eq.
Qed.

(** What is recorded stays. *)
Lemma spec_command_mono L l o c L' r :
  ledger_ok L → spec_command L l o c = Returns (L', r) →
  lg_dedup L ⊆ lg_dedup L' ∧ lg_events L ⊆ lg_events L'.
Proof.
  unfold spec_command. intros [Hev _] H. simplify_run.
  destruct (lg_dedup L !! _) as [n|] eqn:Hd; simplify_run; [done|].
  destruct (spec_effects _ _ _ _ _) as [[changed e0]|] eqn:Heff; simplify_run; [|done].
  split; apply insert_subseteq; [done|].
  destruct (lg_events L !! _) as [e|] eqn:He; [|done]. apply Hev in He. lia.
Qed.

Lemma handle_command_represents L st l o c :
  represents L st → command_wf c = true → lg_seq L < u64_max →
  ∃ L' st' reply,
    handle_command l o c st = Returns st' ∧ spec_command L l o c = Returns (L', reply) ∧
    represents L' st' ∧ replied st st' [reply_at l o reply].
Proof.
  intros (w & Hinv & ->) Hwf Hmax.
  destruct (handle_command_simulation w st l o c Hinv Hwf Hmax)
    as (w' & st' & r & ? & ? & ? & _ & _ & _ & ?).
  exists (ledger_of w' st'), st', r. split_and!; [done|done| |done]. by exists w'.
Qed.

Lemma handle_commands_mono L st l o cs st' :
  represents L st → forallb command_wf cs = true →
  lg_seq L + Z.of_nat (length cs) ≤ u64_max → handle_commands l o cs st = Returns st' →
  ∃ L', represents L' st' ∧ lg_dedup L ⊆ lg_dedup L' ∧ lg_events L ⊆ lg_events L' ∧
    lg_seq L ≤ lg_seq L' ≤ lg_seq L + Z.of_nat (length cs).
Proof.
  revert L st o. induction cs as [|c cs IH]; intros L st o Hrep Hwf Hmax H; cbn in *.
  { simplify_run. exists L. split_and!; [done..|lia|lia]. }
  apply andb_true_iff in Hwf as [Hc Hcs].
  destruct (handle_command_represents L st l o c Hrep Hc)
    as (L1 & st1 & r & Hr & Hs & Hrep1 & _); [lia|]. rewrite Hr in H. cbn in H.
  pose proof (spec_command_seq _ _ _ _ _ _ Hs).
  apply spec_command_mono in Hs as [Hd He]; [|by eapply represents_ok].
  destruct (IH L1 st1 (o + 1) Hrep1 Hcs) as (L2 & ? & ? & ? & ?); [lia|done|].
  exists L2. split_and!; [done|by etrans..|lia|lia].
Qed.

(** Recovering and applying entries runs the ledger from the durable wallet. *)
Lemma recover_run d w applied last bs now es :
  durable (db_get d CF_DEFAULT) w applied last → contiguous applied es →
  entries_wf es = true → applied + Z.of_nat (length es) ≤ u64_max →
  last + commands_in es ≤ u64_max →
  ∃ st0 w' st' rs,
    recover_from_db d bs now = Returns st0 ∧
    apply_entries es (apply_loop_new st0)
    = Returns {| al_state := st'; al_applied_index := applied_index st'.1 |} ∧
    spec_entries {| lg_accounts := w_accounts w; lg_dedup := w_dedup w;
                    lg_events := w_events w; lg_seq := last |} es
    = Returns (ledger_of w' st', rs) ∧
    entry_inv w last w' st' ∧ applied_index st'.1 = applied + Z.of_nat (length es) ∧
    rocksdb st'.1 = d ∧ inflight_event_tx st'.2 = rs.
Proof.
  intros Hd Hcon Hwf Hmax Hseq.
  destruct (recover_spec d w applied last bs now Hd)
    as (st0 & Hr & Hi & Hacc & Hl & Ha & Hf & _ & Hdb & Ht & _).
  destruct (apply_entries_spec _ _ _ _ es Hi)
    as (w' & st' & rs & Hrun & Hspec & Hi' & Ha' & _ & Hdb' & _ & Ht');
    [by rewrite Ha|done|lia|lia|].
  exists st0, w', st', rs. unfold apply_loop_new. rewrite Hf, <-Ha.
  unfold ledger_of at 1 in Hspec. rewrite Hacc, Hl in Hspec.
  split_and!; [done|done|done|done|lia|congruence|]. by rewrite Ht', Ht.
Qed.
Lemma inv_ids_ok w st : sm_inv w st → ids_ok (accounts st.1).
Proof. intros Hinv id a Ha. by apply (inv_accounts _ _ Hinv) in Ha as [[] _]. Qed.
End helpers.

(** ** Properties *)
Section properties.
Context {BD : BigDecimal} {BDL : BigDecimalLaws BD} {R : RocksDB} {RL : RocksDBLaws R}.
Context `{!ProtoMessage AccountPb, !ProtoMessage EventPb}.
Context `{!ProtoRoundTrip AccountPb, !ProtoRoundTrip EventPb}.

(** C1. The state machine implements the ledger: from a state that represents a
    ledger, handling any well-formed command never panics, does exactly what the
    ledger specification says of accounts, events and sequence numbers, answers
    with the specified reply at the command's position, and ends in a state that
    represents the resulting ledger, whether the data it needs is in the caches,
    in the write batch or on disk. *)
Theorem handle_command_refines L st l o c :
  represents L st → command_wf c = true → lg_seq L < u64_max →
  ∃ L' st' reply,
    handle_command l o c st = Returns st' ∧ spec_command L l o c = Returns (L', reply) ∧
    represents L' st' ∧ replied st st' [reply_at l o reply].
Proof. apply handle_command_represents. Qed.


(** A reachable replica never panics: the next log entry is applied, a
    pending batch can be flushed, and its disk can be recovered from at any
    moment. *)
Theorem replica_never_panics st cs bs now :
  replica_inv st → forallb command_wf cs = true → applied_index st.1 < u64_max →
  last_seq_num st.1 + Z.of_nat (length cs) ≤ u64_max →
  (∃ st', apply_entry (applied_index st.1 + 1) cs st = Returns st') ∧
  (flushed_applied_index st.2 < applied_index st.1 → ∃ st', flush now st = Returns st') ∧
  (∃ st', recover_from_db (rocksdb st.1) bs now = Returns st').
Proof.
  intros (w0 & last0 & w & Hinv & Hz) Hwf Hmax Hseq. split_and!.
  - destruct (apply_entry_spec _ _ _ _ (applied_index st.1 + 1) cs Hinv) as (w' & st' & rs & ? & _);
      [done| |done..|by exists st'].
    pose proof (ei_applied_u64 _ _ _ _ Hinv) as [??]. unfold u64_max in *. split; lia.
  - intros Hlt. destruct (flush_spec _ _ _ _ now Hinv Hz Hlt) as (st' & ? & _). by exists st'.
  - destruct (recover_spec (rocksdb st.1) w0 (flushed_applied_index st.2) last0 bs now)
      as (st' & ? & _); [apply Hinv|]. by exists st'.
Qed.



(** C14. Exactly once: once a command has been answered with an event, a later
    command with the same id, however many commands are handled in between,
    changes nothing and gets the same event back (or the ConflictDedupId error
    when it is a request of another type). *)
Theorem command_applied_once L st l o c st1 e l1 o1 cs st2 l2 o2 c' :
  represents L st → command_wf c = true → forallb command_wf cs = true →
  lg_seq L + 1 + Z.of_nat (length cs) < u64_max →
  handle_command l o c st = Returns st1 → replied st st1 [reply_at l o (Ok e)] →
  handle_commands l1 o1 cs st1 = Returns st2 →
  command_wf c' = true → command_command_id c' = command_command_id c →
  let reply := if answers c' e then Ok e
               else Err (ECommon (ConflictDedupId (command_command_id c))) in
  handle_command l2 o2 c' st2
  = Returns (st2.1, send_event (position_of l2 o2) reply st2.2).
Proof.
  intros Hrep Hwf Hwfs Hmax Hrun Hreply Hruns Hwf' Hid reply.
  destruct (handle_command_represents L st l o c Hrep Hwf)
    as (L1 & st1' & r & Hrun' & Hspec & Hrep1 & Hreply'); [lia|].
  rewrite Hrun in Hrun'. injection Hrun' as <-. unfold replied in *. rewrite Hreply in Hreply'.
  apply (inj (app _)) in Hreply'. injection Hreply' as <-.
  pose proof (spec_command_seq _ _ _ _ _ _ Hspec).
  apply spec_command_recorded in Hspec as (_ & n & Hd & He).
  destruct (handle_commands_mono L1 st1 l1 o1 cs st2 Hrep1 Hwfs)
    as (L2 & Hrep2 & Hd2 & He2 & _); [lia|done|].
  eapply lookup_weaken in Hd; [|exact Hd2]. eapply lookup_weaken in He; [|exact He2].
  destruct (represents_ok _ _ Hrep2) as [_ Hok]. destruct (Hok _ _ Hd) as (e' & He' & ep & Hep).
  rewrite He in He'. injection He' as <-. destruct Hrep2 as (w & Hinv & ->).
  apply command_wf_payload in Hwf' as (p & Hp & _). cbn in Hd, He. rewrite <-Hid in Hd.
  rewrite (handle_command_duplicate w st2 l2 o2 c' p n e ep Hinv Hp Hd He Hep).
  unfold reply, answers. rewrite Hid. unfold command_payload in Hp.
  apply unwrap_Returns in Hp. by rewrite Hp, Hep.
Qed.

(** A rejected command leaves no trace: when the reply is an error, the
    accounts, the counters, the caches, the write batch and the tombstones are
    what they were, whichever check failed. *)
Theorem rejected_command_changes_nothing l o c st st' e :
  handle_command l o c st = Returns st' → replied st st' [reply_at l o (Err e)] →
  st'.1 = st.1 ∧ wb st'.2 = wb st.2 ∧
  to_be_deleted_account_ids st'.2 = to_be_deleted_account_ids st.2.
Proof.
  unfold handle_command, replied. intros H Hr. simplify_run.
  match goal with H : context [match ?x with Some _ => _ | None => _ end] |- _ =>
    destruct x end; simplify_run; [done|].
  destruct (dispatch _ l o st) as [[e'|e'] st1] eqn:Hd; simplify_run.
  - exfalso. apply dispatch_Ok in Hd as (_ & us & -> & _).
    destruct (apply_updates_frame (bumped st) us) as (_&_&_&_&_&_&_&Ht).
    destruct (apply_updates (bumped st) us) as [s' c'], st. cbn in *. rewrite Ht in Hr.
    by apply (inj (app _)) in Hr.
  - by apply dispatch_Err in Hd as ->.
Qed.

(** An accepted new command takes the next sequence number; its event is
    stamped with that number, its position in the raft log and its command id,
    and is found again under the number and under the command id. *)
Theorem accepted_command_recorded L st l o c st' e :
  represents L st → command_wf c = true → lg_seq L < u64_max →
  lg_dedup L !! command_command_id c = None →
  handle_command l o c st = Returns st' → replied st st' [reply_at l o (Ok e)] →
  let n := last_seq_num st.1 + 1 in
  last_seq_num st'.1 = n ∧
  event_header e = {| eh_seq_num := n; eh_log_index := l; eh_offset := o;
                      eh_command_id := command_command_id c;
                      eh_process_time_in_sec := process_time_in_sec (command_header c) |} ∧
  answers c e = true ∧
  get_seq_num st'.1 (command_command_id c) = Returns (Some n) ∧
  get_event st'.1 n = Returns (Some e).
Proof.
  intros Hrep Hwf Hmax Hnew Hrun Hreply n.
  destruct (handle_command_represents L st l o c Hrep Hwf Hmax)
    as (L1 & st1' & r & Hrun' & Hspec & Hrep1 & Hreply').
  rewrite Hrun in Hrun'. injection Hrun' as <-. unfold replied in *. rewrite Hreply in Hreply'.
  apply (inj (app _)) in Hreply'. injection Hreply' as <-.
  pose proof (spec_command_recorded _ _ _ _ _ _ Hspec) as (Hans & _).
  destruct Hrep as (w & Hinv & ->), Hrep1 as (w1 & Hinv1 & ->). cbn in Hmax.
  unfold spec_command in Hspec. destruct (command_payload c) as [p|]; [|done].
  cbn [mbind run_bind] in Hspec. rewrite Hnew in Hspec.
  destruct (spec_effects _ _ _ _ _) as [[changed e0]|]; [|done].
  injection Hspec as Ha Hd He Hl <-.
  assert (is_u64 n) as Hn.
  { pose proof (inv_last _ _ Hinv) as [??]. unfold n, u64_max in *. split; lia. }
  rewrite (get_seq_num_spec _ _ _ Hinv1), (get_event_spec _ _ _ Hinv1 Hn).
  rewrite <-Hd, <-He. unfold n. rewrite !lookup_insert_eq. by split_and!.
Qed.

(** C15. Money is conserved: a command that names each account at most once
    changes the sum of all balances (available and reserved, over all accounts)
    by nothing, except an accepted batch balance operation, which changes it by
    the sum of its amounts. *)
Theorem command_conserves_money L st l o c p st' :
  represents L st → command_wf c = true → lg_seq L < u64_max →
  command_payload c = Returns p → names_once p = true →
  handle_command l o c st = Returns st' →
  ledger_total (accounts st'.1) = (ledger_total (accounts st.1) +
    (if decide (last_seq_num st'.1 = last_seq_num st.1) then 0 else payload_delta p))%Qc.
Proof.
  intros Hrep Hwf Hmax Hp Hnd Hrun.
  destruct (handle_command_represents L st l o c Hrep Hwf Hmax)
    as (L1 & st1' & r & Hrun' & Hspec & Hrep1 & _).
  rewrite Hrun in Hrun'. injection Hrun' as <-.
  destruct Hrep as (w & Hinv & ->), Hrep1 as (w1 & Hinv1 & ->).
  apply (spec_command_total _ _ _ _ p) in Hspec as [_ Ht]; [exact Ht| |done..].
  by eapply inv_ids_ok.
Qed.

(** Over a whole log entry, transfers, reservations, releases and account
    management neither create nor destroy money: the sum of all balances after
    [apply_entry] is the sum before it, whatever mix of accepted, rejected and
    duplicate commands the entry holds. *)
Theorem apply_entry_conserves_money st cs st' :
  replica_inv st → forallb command_wf cs = true → forallb conserving cs = true →
  applied_index st.1 < u64_max → last_seq_num st.1 + Z.of_nat (length cs) ≤ u64_max →
  apply_entry (applied_index st.1 + 1) cs st = Returns st' →
  ledger_total (accounts st'.1) = ledger_total (accounts st.1).
Proof.
  intros (w0 & last0 & w & Hinv & _) Hwf Hcon Hmax Hseq Hrun.
  destruct (apply_entry_spec _ _ _ _ (applied_index st.1 + 1) cs Hinv)
    as (w' & st1 & rs & Hrun' & Hspec & _); [done| |done..|].
  { pose proof (ei_applied_u64 _ _ _ _ Hinv) as [??]. unfold u64_max in *. split; lia. }
  rewrite Hrun in Hrun'. injection Hrun' as <-.
  apply spec_commands_total in Hspec as [_ Ht]; [exact Ht| |done].
  by eapply inv_ids_ok, ei_sm.
Qed.

(** C38. A transfer from an account to itself is accepted and destroys the amount:
    both updated copies are made from the same account, and the debited copy
    overwrites the credited one. *)
Theorem self_transfer_destroys_amount L st l o r e st' :
  represents L st →
  let spec := get_or_default (transfer_spec r) in
  ts_from_account_id spec = ts_to_account_id spec →
  handle_transfer r l o st = (Ok e, st') →
  ledger_total (accounts st'.1) = (ledger_total (accounts st.1) - money (ts_amount spec))%Qc.
Proof.
  intros (w & Hinv & ->) spec Hsame H.
  apply handle_transfer_Ok in H as (to' & ? & neg & from' & ? & _ & Hto & Hneg & Hfrom & -> & _).
  fold spec in Hto, Hneg, Hfrom. rewrite Hsame, account_or_new_eq in Hfrom.
  rewrite account_or_new_eq in Hto. set (id := ts_to_account_id spec) in *.
  assert (acc_account_id (account_or_new (accounts st.1) id) = id) as Hid.
  { pose proof (get_or_create_account_inv w st id Hinv) as Ha.
    rewrite account_or_new_eq in Ha. apply Ha. }
  apply increase_delta in Hto as [Hto _]; [|done].
  apply increase_delta in Hfrom as [Hid' Hdelta]; [|done].
  apply money_neg in Hneg. rewrite apply_updates_accounts. destruct st as [s c].
  cbn [bumped bump_seq_num modify fst snd accounts set_last_seq_num fmap list_fmap foldl].
  unfold put_account. rewrite Hto, Hid', insert_insert_eq, ledger_total_put.
  rewrite Hid' in Hdelta. cbn in *. rewrite Hdelta, Hneg. ring.
Qed.

End properties.
