(* ===== verification/Config.v ===== *)
(** * config.rs

    The configuration of the service, read from environment variables.  The
    parsers of the standard library that it uses ([u64], [f64] and [bool] from
    text) are modelled as well, with 64-bit floats as IEEE 754 values. *)

From Stdlib Require Import Ascii String.
From Corelib Require Import Floats.SpecFloat.
From S2P Require Import Prelude.
Local Open Scope Z_scope.

(** ** 64-bit floats *)

Definition f64 := spec_float.
Definition f64_mul : f64 → f64 → f64 := SFmul 53 1024.
Definition f64_lt : f64 → f64 → bool := SFltb.

(** [z as f64], to nearest even. *)
Definition f64_of_u64 (z : Z) : f64 := binary_normalize 53 1024 z 0 false.

(** [f as u64]: truncation, saturating; NaN is 0. *)
Definition u64_of_f64 (f : f64) : Z :=
  match f with
  | S754_zero _ | S754_nan | S754_infinity true | S754_finite true _ _ => 0
  | S754_infinity false => u64_max
  | S754_finite false m e =>
      Z.min u64_max (if 0 <=? e then Zpos m * 2 ^ e else Zpos m / 2 ^ (- e))
  end.

(** The rational number [n / d], to nearest even. *)
Definition f64_of_ratio (sign : bool) (n : Z) (d : positive) : f64 :=
  match n with
  | Zpos n =>
      let '(q, e, l) := SFdiv_core_binary 53 1024 (Zpos n) 0 (Zpos d) 0 in
      binary_round_aux 53 1024 sign q e l
  | _ => S754_zero sign
  end.

(** ** Numbers in texts *)

Definition digit_of (c : ascii) : option Z :=
  let n := Z.of_N (N_of_ascii c) in
  if (48 <=? n) && (n <=? 57) then Some (n - 48) else None.

(** The digits at the front of a text: their value after [acc], how many there
    are, and the rest. *)
Fixpoint span_digits (acc : Z) (n : nat) (l : list ascii) : Z * nat * list ascii :=
  match l with
  | c :: l' =>
      match digit_of c with
      | Some d => span_digits (10 * acc + d) (S n) l'
      | None => (acc, n, l)
      end
  | [] => (acc, n, [])
  end.

(** [str::parse::<u64>()]: an optional plus sign and at least one digit. *)
Definition parse_u64 (s : string) : option Z :=
  let l := list_ascii_of_string s in
  let l := match l with "+"%char :: l => l | _ => l end in
  match span_digits 0 0 l with
  | (v, S _, []) => if v <? u64_modulus then Some v else None
  | _ => None
  end.

Definition parse_bool (s : string) : option bool :=
  if String.eqb s "true" then Some true
  else if String.eqb s "false" then Some false else None.

Definition lower_ascii (c : ascii) : ascii :=
  let n := Z.of_N (N_of_ascii c) in
  if (65 <=? n) && (n <=? 90) then ascii_of_N (Z.to_N (n + 32)) else c.

Definition split_sign (l : list ascii) : bool * list ascii :=
  match l with
  | "-"%char :: l => (true, l)
  | "+"%char :: l => (false, l)
  | _ => (false, l)
  end.

(** The exponent part: nothing, or [e] with a signed number. *)
Definition parse_exponent (l : list ascii) : option Z :=
  match l with
  | [] => Some 0
  | c :: l =>
      if ascii_dec (lower_ascii c) "e" then
        let '(neg, l) := split_sign l in
        match span_digits 0 0 l with
        | (v, S _, []) => Some (if neg then - v else v)
        | _ => None
        end
      else None
  end.

(** [str::parse::<f64>()]. *)
Definition parse_f64 (s : string) : option f64 :=
  let '(sign, l) := split_sign (list_ascii_of_string s) in
  let word := string_of_list_ascii (lower_ascii <$> l) in
  if String.eqb word "nan" then Some S754_nan
  else if String.eqb word "inf" || String.eqb word "infinity" then Some (S754_infinity sign)
  else
    let '(int, n_int, l) := span_digits 0 0 l in
    let '(m, n_frac, l) :=
      match l with "."%char :: l => span_digits int 0 l | _ => (int, O, l) end in
    match (n_int + n_frac)%nat with
    | O => None
    | S _ =>
        e ← parse_exponent l;
        let e := e - Z.of_nat n_frac in
        Some (if 0 <=? e then f64_of_ratio sign (m * 10 ^ e) 1
              else f64_of_ratio sign m (Z.to_pos (10 ^ (- e))))
    end.

(** ** The environment *)

Definition Env := string → option string.

(** [std::env::var(name).map_or(default, |v| v.parse().unwrap_or(default))] *)
Definition env_or {A} (parse : string → option A) (default_value : A) (env : Env)
    (name : string) : A :=
  match env name with
  | Some v => default default_value (parse v)
  | None => default_value
  end.

(** ** [WalletServiceConfig] *)

Record WalletServiceConfig := { query_events_max_count : Z }.

Definition DEFAULT_QUERY_EVENTS_MAX_COUNT : Z := 1000.

Definition WalletServiceConfig_default (env : Env) : WalletServiceConfig :=
  {| query_events_max_count :=
       env_or parse_u64 DEFAULT_QUERY_EVENTS_MAX_COUNT env "query_events_max_count" |}.

(** ** [ClusterConfig] *)

Record ClusterConfig := { cluster_id : Z; cluster_size : Z; store_id : Z }.

Definition DEFAULT_CLUSTER_ID : Z := 1.
Definition DEFAULT_CLUSTER_SIZE : string := "5".

Definition ClusterConfig_default (env : Env) : run ClusterConfig :=
  let cluster_id := env_or parse_u64 DEFAULT_CLUSTER_ID env "cluster_id" in
  cluster_size ← unwrap (parse_u64 (default DEFAULT_CLUSTER_SIZE (env "cluster_size"%string)));
  store_id_text ← unwrap (env "store_id"%string);
  store_id ← unwrap (parse_u64 store_id_text);
  Returns {| cluster_id := cluster_id; cluster_size := cluster_size; store_id := store_id |}.

(** ** [EventLogGCConfig] *)

Record EventLogGCConfig := {
  poll_interval_millis : Z; count_limit : Z; gc_batch_size : Z; percentage : f64 }.

Definition DEFAULT_GC_POLL_INTERVAL_MILLIS : Z := 1000.
Definition DEFAULT_GC_COUNT_LIMIT : Z := 1024 * 1024 * 50.
Definition DEFAULT_GC_BATCH_SIZE : Z := 200.
Definition DEFAULT_GC_PERCENTAGE : f64 := f64_of_ratio false 1 10.
Definition MAX_GC_PERCENTAGE : f64 := f64_of_ratio false 25 100.
Definition MIN_GC_PERCENTAGE : f64 := f64_of_ratio false 5 100.

Definition legal_percentage (p : f64) : f64 :=
  if f64_lt MAX_GC_PERCENTAGE p || f64_lt p MIN_GC_PERCENTAGE
  then DEFAULT_GC_PERCENTAGE else p.

Definition EventLogGCConfig_default (env : Env) : EventLogGCConfig :=
  {| poll_interval_millis :=
       env_or parse_u64 DEFAULT_GC_POLL_INTERVAL_MILLIS env "event_log_gc_poll_interval_millis";
     count_limit :=
       env_or parse_u64 DEFAULT_GC_COUNT_LIMIT env "event_log_gc_count_limit";
     gc_batch_size :=
       env_or parse_u64 DEFAULT_GC_BATCH_SIZE env "event_log_gc_batch_size";
     percentage :=
       legal_percentage
         (env_or parse_f64 DEFAULT_GC_PERCENTAGE env "event_log_gc_percentage") |}.

(** ** [EventLogGCSetting] and [Config] *)

Inductive EventLogGCSetting := Disabled | Enabled (config : EventLogGCConfig).

Definition gc_enabled (env : Env) : bool :=
  default true (parse_bool (default ""%string (env "enable_gc_of_event_log"%string))).

Definition EventLogGCSetting_default (env : Env) : EventLogGCSetting :=
  if gc_enabled env then Enabled (EventLogGCConfig_default env) else Disabled.

Record Config := {
  wallet_service_config : WalletServiceConfig;
  cluster_config : ClusterConfig;
  event_log_gc_setting : EventLogGCSetting }.

Definition Config_default (env : Env) : run Config :=
  cluster ← ClusterConfig_default env;
  Returns {| wallet_service_config := WalletServiceConfig_default env;
             cluster_config := cluster;
             event_log_gc_setting := EventLogGCSetting_default env |}.

Example parse_examples :
  parse_u64 "+042" = Some 42 ∧ parse_u64 "18446744073709551615" = Some u64_max ∧
  parse_u64 "18446744073709551616" = None ∧ parse_u64 "-1" = None ∧ parse_u64 "+" = None ∧
  parse_f64 "0.1" = Some (S754_finite false 7205759403792794 (-56)) ∧
  parse_f64 "1e-1" = parse_f64 "0.1" ∧ parse_f64 "-.5" = Some (S754_finite true 4503599627370496 (-53)) ∧
  parse_f64 "NaN" = Some S754_nan ∧ parse_f64 "." = None ∧ parse_f64 "1.5x" = None.
Proof. vm_compute. repeat split. Qed.
