(* ===== verification/Server.v ===== *)
(** * The servers and the start of a process: server.rs, status_server.rs and startup.rs

    [TiKVServer] is built in steps, each of which needs what an earlier one left; the gRPC
    server collects its services until it is bound.  gRPC and hyper are parameters. *)

From Stdlib Require Import Ascii String.
From stdpp Require Import pretty functions.
From S2P Require Import Prelude Bytes Logger Keys Proto Raftpb Errors RocksEngine EngineOpen RaftLog.
From S2P Require Import PeerStorage RaftCmd Batch Apply Peer RaftNode Node RaftClient Config ThreadGroup.
Local Open Scope Z_scope.

(** ** Socket addresses *)

Inductive IpAddr := V4 (a b c d : Z) | V6 (segments : list Z).
Record SocketAddr := { ip : IpAddr; port : Z }.

(** The texts of IPv6 addresses, as the standard library reads and writes them. *)
Class Ipv6Text := {
  parse_v6 : list ascii → option IpAddr;
  parse_socket_v6 : list ascii → option SocketAddr;
  show_v6 : list Z → string }.

(** [Parser::read_number] of the standard library. *)
Definition read_number (max_digits : option nat) (zero_prefix : bool) (limit : Z) (l : list ascii) :
    option (Z * list ascii) :=
  match span_digits 0 0 l with
  | (_, O, _) => None
  | (v, n, rest) =>
      if match max_digits with Some m => (m <? n)%nat | None => false end then None
      else if negb zero_prefix && bool_decide (head l = Some "0"%char) && (1 <? n)%nat then None
      else if limit <? v then None else Some (v, rest)
  end.
Definition read_char (c : ascii) (l : list ascii) : option (list ascii) :=
  match l with c' :: l => if decide (c' = c) then Some l else None | [] => None end.
Definition read_octet (l : list ascii) : option (Z * list ascii) := read_number (Some 3%nat) false 255 l.
Definition read_ipv4 (l : list ascii) : option (IpAddr * list ascii) :=
  '(a, l) ← read_octet l; l ← read_char "."%char l;
  '(b, l) ← read_octet l; l ← read_char "."%char l;
  '(c, l) ← read_octet l; l ← read_char "."%char l;
  '(d, l) ← read_octet l; Some (V4 a b c d, l).
Definition read_socket_v4 (l : list ascii) : option (SocketAddr * list ascii) :=
  '(i, l) ← read_ipv4 l; l ← read_char ":"%char l;
  '(p, l) ← read_number None true 65535 l; Some ({| ip := i; port := p |}, l).

Definition all_read {A} (r : option (A * list ascii)) : option A :=
  match r with Some (a, []) => Some a | _ => None end.
Definition socket_addr_from_str `{Ipv6Text} (s : string) : option SocketAddr :=
  let l := list_ascii_of_string s in
  match all_read (read_socket_v4 l) with Some a => Some a | None => parse_socket_v6 l end.
Definition ip_addr_from_str `{Ipv6Text} (s : string) : option IpAddr :=
  let l := list_ascii_of_string s in
  match all_read (read_ipv4 l) with Some a => Some a | None => parse_v6 l end.
Definition show_ip `{Ipv6Text} (i : IpAddr) : string :=
  match i with
  | V4 a b c d => pretty a +:+ "." +:+ pretty b +:+ "." +:+ pretty c +:+ "." +:+ pretty d
  | V6 segments => show_v6 segments
  end.

(** [str::split(':')]; [acc] is the piece so far, backwards. *)
Fixpoint split_colon (acc l : list ascii) : list (list ascii) :=
  match l with
  | [] => [reverse acc]
  | c :: l => if decide (c = ":"%char) then reverse acc :: split_colon [] l else split_colon (c :: acc) l
  end.

(** ** gRPC and hyper *)

(** [grpc_build ip port services] binds a server; [grpc_serving] is what a server that was
    started serves. *)
Class Servers := {
  GService : Type;
  GServer : Type;
  GError : Type;
  grpc_build : string → Z → list GService → result GError GServer;
  bind_addrs : GServer → list (string * Z);
  grpc_start : GServer → GServer;
  grpc_shutdown : GServer → GServer;
  grpc_serving : GServer → list GService;
  http_bind : SocketAddr → result string SocketAddr }.

(** A server is bound to the address it was built for, on a port of the system's choice if that
    is 0, and once started it serves the services it was built with. *)
Class ServersLaws (S : Servers) := {
  grpc_bound i p services g : grpc_build i p services = Ok g →
    ∃ p', bind_addrs g = [(i, p')] ∧ 0 < p' ≤ 65535 ∧ (p ≠ 0 → p' = p);
  grpc_started i p services g : grpc_build i p services = Ok g →
    grpc_serving (grpc_start g) = services }.

Inductive ServerError `{Servers} := AddrParse | GrpcError (e : GError).

Section server.
Context `{!Ipv6Text} {S : Servers}.

Record Server := {
  sv_server : option GServer;
  sv_local_addr : SocketAddr;
  sv_resolver : AddressMap;
  sv_services : list GService }.

(** [tikv_service] is [create_tikv] of the service of the store. *)
Definition server_new (store_id : Z) (tikv_service : GService) (resolver : AddressMap) :
    run (result ServerError Server) :=
  hostname ← address_resolve store_id resolver;
  let parts := filter (λ s, s ≠ []) (split_colon [] (list_ascii_of_string hostname)) in
  match parts with
  | [_; p] =>
      Returns match socket_addr_from_str ("0.0.0.0:" +:+ string_of_list_ascii p) with
              | Some addr => Ok {| sv_server := None; sv_local_addr := addr;
                                   sv_resolver := resolver; sv_services := [tikv_service] |}
              | None => Err AddrParse
              end
  | _ => Panics
  end.

(** The service comes back if it was not registered. *)
Definition server_register_service (svc : GService) (s : Server) : option GService * Server :=
  match sv_server s with
  | None => (None, {| sv_server := None; sv_local_addr := sv_local_addr s;
                      sv_resolver := sv_resolver s; sv_services := sv_services s ++ [svc] |})
  | Some _ => (Some svc, s)
  end.

(** The services are drained before the build, also if that fails. *)
Definition build_and_bind (s : Server) : run (result ServerError SocketAddr * Server) :=
  let drained := {| sv_server := sv_server s; sv_local_addr := sv_local_addr s;
                    sv_resolver := sv_resolver s; sv_services := [] |} in
  match grpc_build (show_ip (ip (sv_local_addr s))) (port (sv_local_addr s)) (sv_services s) with
  | Err e => Returns (Err (GrpcError e), drained)
  | Ok g =>
      '(host, p) ← unwrap (head (bind_addrs g));
      match ip_addr_from_str host with
      | None => Returns (Err AddrParse, drained)
      | Some i =>
          let addr := {| ip := i; port := p |} in
          Returns (Ok addr, {| sv_server := Some g; sv_local_addr := addr;
                               sv_resolver := sv_resolver s; sv_services := [] |})
      end
  end.

Definition server_start (s : Server) : run Server :=
  g ← unwrap (sv_server s);
  Returns {| sv_server := Some (grpc_start g); sv_local_addr := sv_local_addr s;
             sv_resolver := sv_resolver s; sv_services := sv_services s |}.
Definition server_stop (s : Server) : Server :=
  {| sv_server := None; sv_local_addr := sv_local_addr s; sv_resolver := sv_resolver s;
     sv_services := sv_services s |}.

(** [status_server.rs]: the receiver of the stop signal is taken by the serving task. *)
Record StatusServer := { ss_rx : bool; ss_addr : option SocketAddr }.
Definition status_server_new : StatusServer := {| ss_rx := true; ss_addr := None |}.
Definition status_server_start (status_addr : string) (s : StatusServer) : run StatusServer :=
  addr ← unwrap (socket_addr_from_str status_addr);
  local ← unwrap_ok (http_bind addr);
  rust_assert (ss_rx s) (Returns {| ss_rx := false; ss_addr := Some local |}).
Definition listening_addr (s : StatusServer) : run SocketAddr := unwrap (ss_addr s).
End server.

(** ** [TiKVServer] *)

Section tikv.
Context `{!Ipv6Text} {S : Servers} {R : RocksDB} {RN : RawNode}.
Context `{!ProtoMessage Entry, !ProtoMessage RaftLocalState, !ProtoMessage RaftApplyState}.
Context `{!ProtoMessage RegionLocalState, !ProtoMessage StoreIdent, !ProtoMessage RaftCmdRequest}.

(** [dir] is the directory that a path names, [db_of] the database that it holds. *)
Context {P : Type} `{!RocksOpen P} (dir : string → string) (db_of : P → DB).

(** An open database is locked: RocksDB refuses to open its directory a second time. *)
Record FileSystem := { fs_files : string → P; fs_locked : list string }.
Definition open_db (cfs : list CfName) (path : string) (fs : FileSystem) : run (DB * FileSystem) :=
  let d := dir path in
  if decide (d ∈ fs_locked fs) then Panics
  else
    p ← new_engine cfs (fs_files fs d);
    Returns (db_of p, {| fs_files := <[d := p]> (fs_files fs); fs_locked := d :: fs_locked fs |}).

(** The storage and the router are handles without a state of their own; the raft system is
    there until the node takes it. *)
Record TiKVServer := {
  tk_cluster_id : Z;
  tk_cluster_size : Z;
  tk_store_id : Z;
  tk_storage : bool;
  tk_system : bool;
  tk_resolver : AddressMap;
  tk_engines : option Engines;
  tk_servers : option (Server * StoreNode * Started);
  tk_status_server : option StatusServer }.

(** The addresses of the stores [from..from + n - 1], from the environment. *)
Fixpoint read_peers (env : Env) (n : nat) (from : Z) (m : AddressMap) : run AddressMap :=
  match n with
  | O => Returns m
  | Datatypes.S n =>
      addr ← unwrap (env ("peer_" +:+ pretty from));
      read_peers env n (from + 1) (address_insert from addr m)
  end.
Definition tikv_init (env : Env) (cluster_id cluster_size store_id : Z) : run TiKVServer :=
  resolver ← read_peers env (Z.to_nat cluster_size) 1 {| addrs := ∅ |};
  Returns {| tk_cluster_id := cluster_id; tk_cluster_size := cluster_size; tk_store_id := store_id;
             tk_storage := false; tk_system := true; tk_resolver := resolver;
             tk_engines := None; tk_servers := None; tk_status_server := None |}.

Definition init_engines (env : Env) (fs : FileSystem) (s : TiKVServer) : run (FileSystem * TiKVServer) :=
  raft_db_path ← unwrap (env "raft_db_path"%string);
  '(raft_db, fs) ← open_db ALL_CFS raft_db_path fs;
  db_path ← unwrap (env "db_path"%string);
  '(kv_db, fs) ← open_db ALL_CFS db_path fs;
  Returns (fs,
    {| tk_cluster_id := tk_cluster_id s; tk_cluster_size := tk_cluster_size s;
       tk_store_id := tk_store_id s; tk_storage := tk_storage s; tk_system := tk_system s;
       tk_resolver := tk_resolver s; tk_engines := Some {| kv := kv_db; raft := raft_db |};
       tk_servers := tk_servers s; tk_status_server := tk_status_server s |}).

(** The whole of [init_servers]; [Node.init_servers] is its part that concerns the store. *)
Definition tikv_init_servers (now : Z) (tikv_service : GService) (s : TiKVServer) : run TiKVServer :=
  e ← unwrap (tk_engines s);
  if tk_system s then
    let nd := node_init (tk_cluster_id s) (tk_cluster_size s) (tk_store_id s) in
    e ← try_bootstrap_store nd e;
    r ← server_new (nd_store_id nd) tikv_service (tk_resolver s);
    server ← unwrap_ok r;
    r ← start_store now nd e;
    '(nd, started) ← unwrap_ok r;
    rust_assert (0 <? nd_store_id nd) (Returns
      {| tk_cluster_id := tk_cluster_id s; tk_cluster_size := tk_cluster_size s;
         tk_store_id := tk_store_id s; tk_storage := true; tk_system := false;
         tk_resolver := tk_resolver s; tk_engines := Some e;
         tk_servers := Some (server, nd, started); tk_status_server := tk_status_server s |})
  else Panics.

Definition with_server (sv : Server) (nd : StoreNode) (st : Started) (s : TiKVServer) : TiKVServer :=
  {| tk_cluster_id := tk_cluster_id s; tk_cluster_size := tk_cluster_size s;
     tk_store_id := tk_store_id s; tk_storage := tk_storage s; tk_system := tk_system s;
     tk_resolver := tk_resolver s; tk_engines := tk_engines s;
     tk_servers := Some (sv, nd, st); tk_status_server := tk_status_server s |}.

Definition tikv_register_service (svc : GService) (s : TiKVServer) : run TiKVServer :=
  '(sv, nd, st) ← unwrap (tk_servers s);
  let '(refused, sv) := server_register_service svc sv in
  rust_assert (bool_decide (refused = None)) (Returns (with_server sv nd st s)).
Definition run_server (s : TiKVServer) : run TiKVServer :=
  '(sv, nd, st) ← unwrap (tk_servers s);
  '(r, sv) ← build_and_bind sv;
  _ ← unwrap_ok r;
  sv ← server_start sv;
  Returns (with_server sv nd st s).

Definition run_status_server (env : Env) (s : TiKVServer) : run TiKVServer :=
  let addr := default "0.0.0.0:20211"%string (env ("status_address_" +:+ pretty (tk_store_id s))) in
  status ← status_server_start addr status_server_new;
  Returns {| tk_cluster_id := tk_cluster_id s; tk_cluster_size := tk_cluster_size s;
             tk_store_id := tk_store_id s; tk_storage := tk_storage s; tk_system := tk_system s;
             tk_resolver := tk_resolver s; tk_engines := tk_engines s; tk_servers := tk_servers s;
             tk_status_server := Some status |}.

(** [run_tikv]; [mq_service] is [create_mq] of the service of the message queue. *)
Definition run_tikv (env : Env) (fs : FileSystem) (now cluster_id cluster_size store_id : Z)
    (tikv_service mq_service : GService) : run (FileSystem * TiKVServer) :=
  s ← tikv_init env cluster_id cluster_size store_id;
  '(fs, s) ← init_engines env fs s;
  s ← tikv_init_servers now tikv_service s;
  rust_assert (tk_storage s) (
    s ← tikv_register_service mq_service s;
    s ← run_server s;
    s ← run_status_server env s;
    Returns (fs, s)).

(** [main] of tiny-mq, up to the wait for a signal. *)
Definition mq_main (env : Env) (fs : FileSystem) (now : Z) (tikv_service mq_service : GService) :
    run (FileSystem * TiKVServer) :=
  cluster_id ← unwrap (env "cluster_id"%string);
  cluster_id ← unwrap (parse_u64 cluster_id);
  cluster_size ← unwrap (parse_u64 (default "5"%string (env "cluster_size"%string)));
  store_id ← unwrap (env "store_id"%string);
  store_id ← unwrap (parse_u64 store_id);
  run_tikv env fs now cluster_id cluster_size store_id tikv_service mq_service.

(** The level that [initial_logger] sets. *)
Definition initial_log_level (env : Env) : Level :=
  default Debug (get_level_by_string (as_bytes (default "debug"%string (env "log_level"%string)))).

(** ** Signals *)

Inductive Signal := SIGTERM | SIGINT | SIGHUP | SIGUSR1 | SIGUSR2.

(** [None]: it waits for the next signal. *)
Definition wait_for_signal (trap : list Signal) : option (run unit) :=
  match trap with
  | [] => None
  | (SIGTERM | SIGINT | SIGHUP) :: _ => Some (Returns tt)
  | (SIGUSR1 | SIGUSR2) :: _ => Some Panics
  end.
End tikv.

(** ** Texts of addresses *)

Section texts.
Context `{!Ipv6Text}.

Definition any_address (p : Z) : SocketAddr := {| ip := V4 0 0 0 0; port := p |}.

Lemma digit_of_char x : (x < 10)%N → digit_of (pretty_N_char x) = Some (Z.of_N x).
Proof.
  intros Hx. destruct x as [|x]; [done|].
  do 4 (destruct x as [x|x|]; try done; try lia).
Qed.

(** A number that is written out reads as the digits of its value; it adds no colon. *)
Lemma span_pretty_go x s : ∃ k,
  span_digits 0 0 (list_ascii_of_string (pretty_N_go x s)) =
    span_digits (Z.of_N x) k (list_ascii_of_string s) ∧
  ((0 < x)%N → (0 < k)%nat) ∧
  (":"%char ∈ list_ascii_of_string (pretty_N_go x s) → ":"%char ∈ list_ascii_of_string s).
Proof.
  revert s. induction (N.lt_wf_0 x) as [x _ IH]. intros s.
  destruct (decide (x = 0)%N) as [->|Hx].
  { exists 0%nat. by rewrite pretty_N_go_0. }
  pose proof (N.mod_lt x 10 ltac:(done)) as Hd.
  rewrite pretty_N_go_step by lia.
  destruct (IH (x / 10)%N (N.div_lt x 10 ltac:(lia) ltac:(lia))
    (String (pretty_N_char (x mod 10)) s)) as (k & Hk & _ & Hc).
  exists (Datatypes.S k). rewrite Hk. cbn. rewrite digit_of_char by done.
  split; [|split; [lia|]].
  - f_equal. rewrite (N.div_mod x 10) at 3 by done. lia.
  - intros [Heq|]%Hc%elem_of_cons; [|done]. exfalso.
    pose proof (digit_of_char _ Hd) as Hchar. by rewrite <-Heq in Hchar.
Qed.
Lemma span_pretty p : 0 ≤ p → ∃ k,
  span_digits 0 0 (list_ascii_of_string (pretty p)) = (p, Datatypes.S k, []) ∧
  ":"%char ∉ list_ascii_of_string (pretty p).
Proof.
  intros Hp. destruct p as [|p|p]; [|..|lia].
  { exists 0%nat. split; [done|]. cbn. by rewrite list_elem_of_singleton. }
  change (pretty (Z.pos p)) with (pretty_N_go (N.pos p) "").
  destruct (span_pretty_go (N.pos p) "") as (k & Hk & Hpos & Hc).
  destruct k as [|k]; [lia|]. exists k. split; [done|].
  intros Hin%Hc. by apply not_elem_of_nil in Hin.
Qed.

Lemma port_text p :
  0 ≤ p ≤ 65535 →
  socket_addr_from_str ("0.0.0.0:" +:+ pretty p) = Some (any_address p) ∧
  (":"%char ∉ list_ascii_of_string (pretty p)) ∧ list_ascii_of_string (pretty p) ≠ [].
Proof.
  intros Hp. destruct (span_pretty p ltac:(lia)) as (k & Hk & Hc).
  split; [|split; [done|by destruct (list_ascii_of_string _)]].
  unfold socket_addr_from_str. rewrite list_ascii_app.
  generalize dependent (list_ascii_of_string (pretty p)). intros l Hk _.
  change (read_socket_v4 (list_ascii_of_string "0.0.0.0:" ++ l)%list) with
    ('(p, l) ← read_number None true 65535 l; Some (any_address p, l)).
  unfold read_number. rewrite Hk. cbn.
  by rewrite (proj2 (Z.ltb_ge _ _)) by lia.
Qed.

Lemma split_colon_free acc l : ":"%char ∉ l → split_colon acc l = [reverse acc ++ l]%list.
Proof.
  revert acc. induction l as [|c l IH]; intros acc Hl; [by rewrite app_nil_r|].
  apply not_elem_of_cons in Hl as [Hc Hl]. cbn. rewrite decide_False by done.
  by rewrite IH, reverse_cons, <-app_assoc.
Qed.
Lemma split_colon_prefix acc l rest :
  ":"%char ∉ l → split_colon acc (l ++ ":"%char :: rest)%list = (reverse acc ++ l)%list :: split_colon [] rest.
Proof.
  revert acc. induction l as [|c l IH]; intros acc Hl; cbn.
  - by rewrite app_nil_r.
  - apply not_elem_of_cons in Hl as [Hc Hl]. rewrite decide_False by done.
    by rewrite IH, reverse_cons, <-app_assoc.
Qed.
End texts.

(** ** The start *)

Section start.
Context `{!Ipv6Text} {S : Servers} {SL : ServersLaws S}.

(** An address [host:port] makes the server listen on that port of every interface. *)
Lemma server_new_listens store_id svc resolver host p :
  addrs resolver !! store_id = Some (host +:+ ":" +:+ pretty p) → 0 ≤ p ≤ 65535 →
  ":"%char ∉ list_ascii_of_string host → host ≠ ""%string →
  server_new store_id svc resolver = Returns (Ok
    {| sv_server := None; sv_local_addr := any_address p; sv_resolver := resolver;
       sv_services := [svc] |}).
Proof.
  intros Ha Hp Hhost Hne. destruct (port_text p Hp) as (Haddr & Hfree & Htext).
  unfold server_new, address_resolve. rewrite Ha. cbn [unwrap mbind run_bind].
  rewrite !list_ascii_app. change (list_ascii_of_string ":" ++ ?l)%list with (":"%char :: l).
  rewrite split_colon_prefix, split_colon_free by done. cbn [reverse rev_append app].
  assert (list_ascii_of_string host ≠ []) as Hh by (by destruct host).
  rewrite !filter_cons_True by done. cbn. by rewrite string_of_list_ascii_of_string, Haddr.
Qed.

(** The bound server serves what was registered, on the port that was asked for. *)
Lemma run_bound s p g :
  sv_local_addr s = any_address p →
  grpc_build "0.0.0.0" p (sv_services s) = Ok g →
  ∃ p', build_and_bind s = Returns (Ok (any_address p'),
      {| sv_server := Some g; sv_local_addr := any_address p'; sv_resolver := sv_resolver s;
         sv_services := [] |}) ∧ (p ≠ 0 → p' = p) ∧ grpc_serving (grpc_start g) = sv_services s.
Proof.
  intros Ha Hg. destruct (grpc_bound _ _ _ _ Hg) as (p' & Hb & _ & Hp). exists p'.
  split; [|split; [done|by eapply grpc_started]]. unfold build_and_bind. rewrite Ha.
  change (show_ip (ip (any_address p))) with "0.0.0.0"%string. cbn [port any_address]. rewrite Hg, Hb. done.
Qed.
End start.

Section steps.
Context `{!Ipv6Text} {S : Servers} {SL : ServersLaws S} {R : RocksDB} {RN : RawNode}.
Context `{!ProtoMessage Entry, !ProtoMessage RaftLocalState, !ProtoMessage RaftApplyState}.
Context `{!ProtoMessage RegionLocalState, !ProtoMessage StoreIdent, !ProtoMessage RaftCmdRequest}.
Implicit Types (s : TiKVServer) (env : Env).

Lemma read_peers_spec env n from m :
  (∀ i, from ≤ i < from + Z.of_nat n → is_Some (env ("peer_" +:+ pretty i))) →
  ∃ m', read_peers env n from m = Returns m' ∧
    (∀ i, from ≤ i < from + Z.of_nat n → addrs m' !! i = env ("peer_" +:+ pretty i)) ∧
    (∀ i, i < from → addrs m' !! i = addrs m !! i).
Proof.
  revert from m. induction n as [|n IH]; intros from m Henv; cbn [read_peers].
  { exists m. split_and!; [done|lia|done]. }
  destruct (Henv from) as [a Ha]; [lia|]. rewrite Ha. cbn [unwrap mbind run_bind].
  destruct (IH (from + 1) (address_insert from a m)) as (m' & Hr & Hin & Hout).
  { intros i Hi. apply Henv. lia. }
  exists m'. split_and!; [done|..].
  - intros i Hi. destruct (decide (i = from)) as [->|]; [|apply Hin; lia].
    rewrite Hout by lia. cbn. by rewrite lookup_insert_eq.
  - intros i Hi. rewrite Hout by lia. cbn. by rewrite lookup_insert_ne by lia.
Qed.

(** The store comes up as [Node.init_servers] says, behind a server that is not bound. *)
Lemma tikv_init_servers_spec now svc s e e' nd st host p :
  tk_engines s = Some e → tk_system s = true →
  init_servers now (node_init (tk_cluster_id s) (tk_cluster_size s) (tk_store_id s)) e
    = Returns (e', nd, st) →
  addrs (tk_resolver s) !! tk_store_id s = Some (host +:+ ":" +:+ pretty p) → 0 ≤ p ≤ 65535 →
  ":"%char ∉ list_ascii_of_string host → host ≠ ""%string →
  tikv_init_servers now svc s = Returns
    {| tk_cluster_id := tk_cluster_id s; tk_cluster_size := tk_cluster_size s;
       tk_store_id := tk_store_id s; tk_storage := true; tk_system := false;
       tk_resolver := tk_resolver s; tk_engines := Some e';
       tk_servers := Some ({| sv_server := None; sv_local_addr := any_address p;
                              sv_resolver := tk_resolver s; sv_services := [svc] |}, nd, st);
       tk_status_server := tk_status_server s |}.
Proof.
  intros He Hsys Hinit Ha Hp Hhost Hne. unfold init_servers in Hinit. unfold tikv_init_servers.
  rewrite He, Hsys. cbn [unwrap mbind run_bind].
  destruct (try_bootstrap_store _ e) as [e1|] eqn:Hb; [|done]. cbn [mbind run_bind] in *.
  rewrite (server_new_listens _ _ _ host p) by done. cbn [mbind run_bind unwrap_ok].
  destruct (start_store _ _ e1) as [r|]; [|done]. cbn [mbind run_bind] in *.
  destruct (unwrap_ok r) as [[nd1 st1]|]; [|done]. cbn [mbind run_bind] in *.
  unfold rust_assert in *. destruct (0 <? nd_store_id nd1); [|done]. by injection Hinit as -> -> ->.
Qed.

(** Services are collected in order until the server is bound. *)
Lemma tikv_register_service_spec svc s sv nd st :
  tk_servers s = Some (sv, nd, st) → sv_server sv = None →
  tikv_register_service svc s = Returns (with_server
    {| sv_server := None; sv_local_addr := sv_local_addr sv; sv_resolver := sv_resolver sv;
       sv_services := sv_services sv ++ [svc] |} nd st s).
Proof.
  intros Hs Hsv. unfold tikv_register_service, server_register_service. rewrite Hs.
  cbn [unwrap mbind run_bind]. by rewrite Hsv.
Qed.

(** Once bound, the server takes no further service. *)
Lemma register_refused svc s sv nd st g :
  tk_servers s = Some (sv, nd, st) → sv_server sv = Some g → tikv_register_service svc s = Panics.
Proof.
  intros Hs Hg. unfold tikv_register_service, server_register_service. rewrite Hs. cbn. by rewrite Hg.
Qed.

Lemma run_server_spec s sv nd st p g :
  tk_servers s = Some (sv, nd, st) → sv_local_addr sv = any_address p →
  grpc_build "0.0.0.0" p (sv_services sv) = Ok g →
  ∃ p', run_server s = Returns (with_server
      {| sv_server := Some (grpc_start g); sv_local_addr := any_address p';
         sv_resolver := sv_resolver sv; sv_services := [] |} nd st s) ∧
    (p ≠ 0 → p' = p) ∧ grpc_serving (grpc_start g) = sv_services sv.
Proof.
  intros Hs Ha Hg. destruct (run_bound sv p g Ha Hg) as (p' & Hb & Hp & Hserve). exists p'.
  unfold run_server. rewrite Hs. cbn [unwrap mbind run_bind]. by rewrite Hb.
Qed.

Lemma run_status_server_spec env s addr local :
  socket_addr_from_str (default "0.0.0.0:20211"%string
    (env ("status_address_" +:+ pretty (tk_store_id s)))) = Some addr →
  http_bind addr = Ok local →
  ∃ s', run_status_server env s = Returns s' ∧ tk_servers s' = tk_servers s ∧
    tk_engines s' = tk_engines s ∧
    tk_status_server s' = Some {| ss_rx := false; ss_addr := Some local |}.
Proof.
  intros Ha Hl. unfold run_status_server, status_server_start. rewrite Ha. cbn [unwrap mbind run_bind].
  rewrite Hl. by eexists.
Qed.
End steps.

(** ** A reference server *)

Module server_demo.
Definition Bound := (string * Z * list string * bool)%type.
Definition reference : Servers := {|
  GService := string; GServer := Bound; GError := string;
  grpc_build i p services :=
    if (0 <=? p) && (p <=? 65535) then Ok (i, (if p =? 0 then 1024 else p), services, false)
    else Err "the port is out of range"%string;
  bind_addrs := λ '(i, p, _, _), [(i, p)];
  grpc_start := λ '(i, p, services, _), (i, p, services, true);
  grpc_shutdown := λ '(i, p, services, _), (i, p, services, false);
  grpc_serving := λ '(i, p, services, started), if (started : bool) then services else [];
  http_bind a := Ok a |}.
Lemma reference_laws : ServersLaws reference.
Proof.
  split; intros i p services g Hg; cbn in *;
    destruct ((0 <=? p) && (p <=? 65535)) eqn:Hp; try discriminate Hg; injection Hg as <-; [|done].
  eexists. split; [done|]. apply andb_true_iff in Hp as [?%Z.leb_le ?%Z.leb_le].
  destruct (Z.eqb_spec p 0); lia.
Qed.

(** Without IPv6. *)
Definition no_v6 : Ipv6Text := {|
  parse_v6 := λ _, None; parse_socket_v6 := λ _, None; show_v6 := λ _, ""%string |}.
Definition listens (addr : string) : run (result (ServerError (H:=reference)) Z) :=
  r ← @server_new no_v6 reference 1 "tikv"%string {| addrs := {[1 := addr]} |};
  Returns match r with Ok s => Ok (port (sv_local_addr s)) | Err e => Err e end.

(** An address needs a host and a port; brackets of IPv6 and surplus parts panic, but
    surplus colons are overlooked. *)
Example listening_ports :
  listens "node-1:20160" = Returns (Ok 20160) ∧ listens ":node-1::20160:" = Returns (Ok 20160) ∧
  listens "node-1:" = Panics ∧ listens ":20160" = Panics ∧ listens "[::1]:20160" = Panics ∧
  listens "node-1:65536" = Returns (Err AddrParse) ∧ listens "node-1:+1" = Returns (Err AddrParse) ∧
  listens "node-1:00080" = Returns (Ok 80).
Proof. repeat split. Qed.
End server_demo.
