(* ===== verification/Persist.v ===== *)
(** * postgres_utils: connections and the persist thread

    A thread takes messages from a channel, gathers them into batches and inserts every
    batch into Postgres in one transaction, which is tried up to three times; when that
    is not enough the process exits.  Postgres, the connection pool and the channel are
    the environment: what they answer is an argument or a choice of the step relation. *)

From Stdlib Require Import String.
From S2P Require Import Prelude Config.
Local Open Scope Z_scope.

(** ** connection/config.rs *)

Record PgConfig := {
  pg_host : string; pg_port : Z; pg_dbname : string; pg_user : string; pg_password : string;
  pg_application_name : string }.

Section config.
Abbreviation env := (gmap string string).
(** The crate [dotenv] adds the variables of the file [.env] to the environment. *)
Context (dotenv : env → env).

Definition parse_u16 (s : string) : option Z :=
  n ← parse_u64 s; if n <? 2 ^ 16 then Some n else None.
Definition get_pg_config (e : env) (username password : string) : run (PgConfig * env) :=
  let e := dotenv e in
  host ← unwrap (e !! "POSTGRES_HOST"%string);
  port ← unwrap (e !! "POSTGRES_PORT"%string);
  port ← unwrap (parse_u16 port);
  dbname ← unwrap (e !! "POSTGRES_DATABASE"%string);
  let application := default EmptyString (e !! "APPLICATION"%string) in
  Returns ({| pg_host := host; pg_port := port; pg_dbname := dbname; pg_user := username;
              pg_password := password; pg_application_name := application |}, e).
Definition get_rw_config (e : env) : run (PgConfig * env) :=
  username ← unwrap (e !! "POSTGRES_USERNAME"%string);
  password ← unwrap (e !! "POSTGRES_PASSWORD"%string);
  get_pg_config e username password.
Definition get_admin_config (e : env) : run (PgConfig * env) :=
  username ← unwrap (e !! "FLYWAY_USERNAME"%string);
  password ← unwrap (e !! "FLYWAY_PASSWORD"%string);
  get_pg_config e username password.

(** The credentials are read before [.env] is: a user that is only named there is not
    found, whatever the file holds. *)
Theorem credentials_ignore_dotenv (e : env) :
  e !! "POSTGRES_USERNAME"%string = None → get_rw_config e = Panics.
Proof. intros He. unfold get_rw_config. by rewrite He. Qed.

(** ** connection/postgres_connection_wrapper.rs *)

Inductive PostgresConnectionError (E : Type) := ConfigNotFoundErr (key : string) | PoolError (e : E).
Global Arguments ConfigNotFoundErr {E} key.
Global Arguments PoolError {E} e.

(** r2d2: building a pool from a configuration, and a pool. *)
Context {Pool Conn PoolErr : Type}.

Record PostgresConnectionWrapper := {
  pw_configs : gmap string PgConfig;
  pw_pools : gmap string Pool }.
Definition wrapper_default : PostgresConnectionWrapper := {| pw_configs := ∅; pw_pools := ∅ |}.

Definition add_client (key : string) (config : PgConfig) (w : PostgresConnectionWrapper) :=
  {| pw_configs := <[key := config]> (pw_configs w); pw_pools := pw_pools w |}.
Definition add_admin_client (w : PostgresConnectionWrapper) (e : env) :
    run (PostgresConnectionWrapper * env) :=
  '(config, e) ← get_admin_config e; Returns (add_client "admin" config w, e).
Definition add_rw_client (w : PostgresConnectionWrapper) (e : env) :
    run (PostgresConnectionWrapper * env) :=
  '(config, e) ← get_rw_config e; Returns (add_client "read_write" config w, e).

(** The loop of [get_connection_from_pool], over the answers of the pool; [None] is a thread
    that still waits. *)
Fixpoint get_connection_from_pool (answers : list (result PoolErr Conn)) : option Conn :=
  match answers with
  | [] => None
  | Ok conn :: _ => Some conn
  | Err _ :: answers => get_connection_from_pool answers
  end.
Definition get_or_create_connection (build : PgConfig → result PoolErr Pool)
    (answers : list (result PoolErr Conn)) (key : string) (w : PostgresConnectionWrapper) :
    option (result (PostgresConnectionError PoolErr) Conn) * PostgresConnectionWrapper :=
  match pw_configs w !! key with
  | None => (Some (Err (ConfigNotFoundErr key)), w)
  | Some config =>
      match pw_pools w !! key with
      | Some _ => (Ok <$> get_connection_from_pool answers, w)
      | None =>
          match build config with
          | Err e => (Some (Err (PoolError e)), w)
          | Ok pool =>
              (Ok <$> get_connection_from_pool answers,
               {| pw_configs := pw_configs w; pw_pools := <[key := pool]> (pw_pools w) |})
          end
      end
  end.
Definition fetch_admin_connection build answers := get_or_create_connection build answers "admin".
Definition fetch_rw_connection build answers := get_or_create_connection build answers "read_write".

(** A client that was added is never unknown, and its pool is built once: after a
    connection was handed out, another only waits for the pool. *)
Theorem pool_built_once build answers key w conn w' :
  get_or_create_connection build answers key w = (Some (Ok conn), w') →
  is_Some (pw_configs w' !! key) ∧ is_Some (pw_pools w' !! key) ∧ pw_configs w' = pw_configs w ∧
  ∀ build' answers', get_or_create_connection build' answers' key w' =
    (Ok <$> get_connection_from_pool answers', w').
Proof.
  unfold get_or_create_connection. destruct (pw_configs w !! key) as [config|] eqn:Hc; [|done].
  destruct (pw_pools w !! key) as [pool|] eqn:Hp.
  - intros [= _ <-]. rewrite Hc, Hp. split_and!; eauto.
  - destruct (build config) as [pool|e]; [|done]. intros [= _ <-]. cbn.
    rewrite Hc, lookup_insert_eq. split_and!; eauto.
Qed.
End config.

(** ** persist_framework/persist_thread.rs *)

Definition MAX_RETRY : nat := 3.
(** A batch is closed when it is longer than this. *)
Definition BATCH_LIMIT : nat := 100.

Section persist.
Context {M : Type}.
(** [Persistable::generate_batch_insert_query]. *)
Context (generate_batch_insert_query : M → string).

(** [queries.join(;)]. *)
Fixpoint join (sep : string) (l : list string) : string :=
  match l with
  | [] => EmptyString
  | [s] => s
  | s :: l => s +:+ sep +:+ join sep l
  end.
Definition batch_queries (batch : list M) : string := join ";" (generate_batch_insert_query <$> batch).

(** Where the thread is: it waits for a first message, gathers a batch, or tries the
    transaction of a batch for the [retry]-th time; or the channel was closed, or the
    process has exited. *)
Inductive PersistPc :=
| Waiting
| Gathering (msg_buffer : list M)
| Persisting (msg_buffer : list M) (retry : nat)
| Finished
| ProcessExited.

(** [ps_tables] are the queries that Postgres has executed, in order. *)
Record PersistState := mkPersist {
  ps_sent : list M;
  ps_channel : list M;
  ps_closed : bool;
  ps_pc : PersistPc;
  ps_tables : list string }.

(** The batch after a message is received: it is closed if it is too long. *)
Definition push_msg (msg_buffer : list M) (msg : M) : PersistPc :=
  let msg_buffer := msg_buffer ++ [msg] in
  if (BATCH_LIMIT <? length msg_buffer)%nat then Persisting msg_buffer 0 else Gathering msg_buffer.

(** How a try of the transaction ends.  Postgres executes all queries of a transaction or
    none; when the answer to [commit] is an error, the transaction may still have been
    committed. *)
Inductive Attempt :=
| FetchFailed | BeginFailed | ExecuteFailed | CommitFailed (committed : bool) | Committed.

Definition attempt (a : Attempt) (msg_buffer : list M) (retry : nat) (tables : list string) :
    PersistPc * list string :=
  let next := if (S retry <? MAX_RETRY)%nat then Persisting msg_buffer (S retry) else ProcessExited in
  match a with
  | FetchFailed => (ProcessExited, tables)
  | BeginFailed | ExecuteFailed => (next, tables)
  | CommitFailed committed => (next, if committed then tables ++ [batch_queries msg_buffer] else tables)
  | Committed => (Waiting, tables ++ [batch_queries msg_buffer])
  end.

Inductive persist_step : PersistState → PersistState → Prop :=
| persist_send sent channel pc tables m :
    persist_step (mkPersist sent channel false pc tables)
      (mkPersist (sent ++ [m]) (channel ++ [m]) false pc tables)
| persist_close sent channel pc tables :
    persist_step (mkPersist sent channel false pc tables) (mkPersist sent channel true pc tables)
| persist_recv sent channel closed tables m :
    persist_step (mkPersist sent (m :: channel) closed Waiting tables)
      (mkPersist sent channel closed (Gathering [m]) tables)
| persist_disconnected sent tables :
    persist_step (mkPersist sent [] true Waiting tables) (mkPersist sent [] true Finished tables)
| persist_try_recv sent channel closed tables m msg_buffer :
    persist_step (mkPersist sent (m :: channel) closed (Gathering msg_buffer) tables)
      (mkPersist sent channel closed (push_msg msg_buffer m) tables)
| persist_empty sent closed tables msg_buffer :
    persist_step (mkPersist sent [] closed (Gathering msg_buffer) tables)
      (mkPersist sent [] closed (Persisting msg_buffer 0) tables)
| persist_attempt sent channel closed tables msg_buffer retry a pc tables' :
    attempt a msg_buffer retry tables = (pc, tables') →
    persist_step (mkPersist sent channel closed (Persisting msg_buffer retry) tables)
      (mkPersist sent channel closed pc tables').

Definition persist_init : PersistState := mkPersist [] [] false Waiting [].

(** ** Nothing is skipped and nothing is reordered *)

(** The batches that were finished, each with how often it was executed. *)
Definition executed (batches : list (list M * nat)) : list (list M) :=
  batches ≫= λ b, replicate b.2 b.1.
Definition batch_ok (b : list M * nat) : Prop :=
  b.1 ≠ [] ∧ (length b.1 ≤ S BATCH_LIMIT)%nat ∧ (1 ≤ b.2 ≤ MAX_RETRY)%nat.

(** The batch in hand, and how often it may have been executed. *)
Definition in_hand (pc : PersistPc) (batch : list M) (copies : nat) : Prop :=
  match pc with
  | Waiting | Finished => batch = [] ∧ copies = 0%nat
  | Gathering b => batch = b ∧ b ≠ [] ∧ (length b ≤ BATCH_LIMIT)%nat ∧ copies = 0%nat
  | Persisting b retry =>
      batch = b ∧ b ≠ [] ∧ (length b ≤ S BATCH_LIMIT)%nat ∧ (copies ≤ retry < MAX_RETRY)%nat
  | ProcessExited => batch ≠ [] ∧ (length batch ≤ S BATCH_LIMIT)%nat ∧ (copies ≤ MAX_RETRY)%nat
  end.
Definition persist_inv (s : PersistState) : Prop :=
  ∃ batches batch copies,
    Forall batch_ok batches ∧ in_hand (ps_pc s) batch copies ∧
    ps_sent s = concat batches.*1 ++ batch ++ ps_channel s ∧
    ps_tables s = batch_queries <$> executed batches ++ replicate copies batch.

Lemma executed_snoc batches (batch : list M) n :
  executed (batches ++ [(batch, n)]) = executed batches ++ replicate n batch.
Proof. unfold executed. rewrite bind_app. cbn. by rewrite app_nil_r. Qed.

Lemma attempt_inv a msg_buffer retry tables pc tables' batches copies :
  attempt a msg_buffer retry tables = (pc, tables') →
  Forall batch_ok batches → in_hand (Persisting msg_buffer retry) msg_buffer copies →
  tables = batch_queries <$> executed batches ++ replicate copies msg_buffer →
  ∃ batches' batch copies', Forall batch_ok batches' ∧ in_hand pc batch copies' ∧
    concat batches'.*1 ++ batch = concat batches.*1 ++ msg_buffer ∧
    tables' = batch_queries <$> executed batches' ++ replicate copies' batch.
Proof.
  intros Ha Hok (_ & Hne & Hlen & Hc & Hr) ->.
  assert (∀ copies', (copies' ≤ S copies)%nat →
    in_hand (if (S retry <? MAX_RETRY)%nat then Persisting msg_buffer (S retry) else ProcessExited)
      msg_buffer copies') as Hnext.
  { intros c Hle. destruct (Nat.ltb_spec (S retry) MAX_RETRY); cbn; split_and!; done || lia. }
  destruct a as [| | |[]|]; cbn in Ha; simplify_eq.
  - exists batches, msg_buffer, copies. split_and!; [done|split_and!; done || lia|done..].
  - exists batches, msg_buffer, copies. split_and!; [done|apply Hnext; lia|done..].
  - exists batches, msg_buffer, copies. split_and!; [done|apply Hnext; lia|done..].
  - exists batches, msg_buffer, (S copies). split_and!; [done|apply Hnext; lia|done|].
    by rewrite replicate_S_end, app_assoc, (fmap_app _ (_ ++ _)).
  - exists batches, msg_buffer, copies. split_and!; [done|apply Hnext; lia|done..].
  - exists (batches ++ [(msg_buffer, S copies)]), [], 0%nat. split_and!; [|done|..].
    + apply Forall_app. split; [done|]. apply Forall_singleton. split_and!; cbn; done || lia.
    + rewrite fmap_app, concat_app. cbn. by rewrite !app_nil_r.
    + by rewrite executed_snoc, replicate_S_end, app_assoc, app_nil_r, (fmap_app _ (_ ++ _)).
Qed.

Lemma persist_step_inv s s' : persist_step s s' → persist_inv s → persist_inv s'.
Proof.
  intros Hstep (batches & batch & copies & Hok & Hh & Hs & Ht). unfold persist_inv.
  destruct Hstep as [sent channel pc tables m|sent channel pc tables|sent channel closed tables m
    |sent tables|sent channel closed tables m b|sent closed tables b
    |sent channel closed tables b retry a pc tables' Ha]; cbn in *.
  - exists batches, batch, copies. subst. by rewrite <-!app_assoc.
  - eauto 10.
  - destruct Hh as [-> ->]. exists batches, [m], 0%nat. cbn. split_and!; done || (unfold BATCH_LIMIT; lia).
  - eauto 10.
  - destruct Hh as (-> & Hb & Hl & ->). exists batches, (b ++ [m]), 0%nat. split_and!; [done| |by rewrite Hs, <-app_assoc|done].
    unfold push_msg. destruct (Nat.ltb_spec BATCH_LIMIT (length (b ++ [m]))) as [Hlt|Hge]; cbn;
      rewrite length_app in *; cbn in *; split_and!; done || (destruct b; done) || (unfold MAX_RETRY; lia).
  - destruct Hh as (-> & Hb & Hl & ->). exists batches, b, 0%nat.
    split; [done|]. split; [|done]. cbn. split_and!; done || (unfold MAX_RETRY; lia).
  - assert (batch = b) as -> by apply Hh.
    destruct (attempt_inv a b retry tables pc tables' batches copies Ha Hok Hh Ht)
      as (batches' & batch' & copies' & H1 & H2 & H3 & H4).
    exists batches', batch', copies'. split_and!; [done..| |done]. by rewrite Hs, !app_assoc, H3.
Qed.

(** C25. The persist thread writes at least once and in order: in every interleaving of
    senders, thread and failures of Postgres, the messages sent are the batches that were
    finished, the batch in hand and the channel, in this order; the tables have the
    batches in this order and whole, each finished one between one and three times, none
    longer than 101 messages, and after them at most copies of the batch in hand.  Once
    the thread has ended every message is in the tables; a process that exits leaves out
    no message but those of its last batch and of the channel. *)
Theorem persist_at_least_once s :
  rtc persist_step persist_init s →
  ∃ batches batch copies,
    Forall batch_ok batches ∧ in_hand (ps_pc s) batch copies ∧
    ps_sent s = concat batches.*1 ++ batch ++ ps_channel s ∧
    ps_tables s = batch_queries <$> executed batches ++ replicate copies batch ∧
    (ps_pc s = Finished → batch = [] ∧ ps_channel s = []).
Proof.
  intros Hs.
  assert (persist_inv s ∧ (ps_pc s = Finished → ps_closed s = true ∧ ps_channel s = [])) as [Hinv Hfin].
  { remember persist_init as s0 eqn:H0.
    assert (persist_inv s0 ∧ (ps_pc s0 = Finished → ps_closed s0 = true ∧ ps_channel s0 = [])) as Hi.
    { subst. split; [|done]. exists [], [], 0%nat. done. }
    clear H0. induction Hs as [|s0 s1 s2 Hstep _ IH]; [done|]. apply IH. destruct Hi as [Hi Hf].
    split; [by eapply persist_step_inv|].
    destruct Hstep as [| | | | | |????? retry a pc tables' Ha]; cbn in *; intros Hpc; try done;
      try (by destruct (Hf Hpc)).
    - unfold push_msg in Hpc. by case_match.
    - destruct a as [| | |[]|]; cbn in Ha; repeat case_match; simplify_eq. }
  destruct Hinv as (batches & batch & copies & H1 & H2 & H3 & H4).
  exists batches, batch, copies. split_and!; [done..|]. intros Hpc. split; [|by apply Hfin].
  rewrite Hpc in H2. by destruct H2.
Qed.
End persist.

(** ** A concrete run *)

(** The commit of the first batch is answered with an error although it was committed: the
    batch is inserted again. *)
Module persist_demo.
Definition insert (n : Z) : string := if n =? 1 then "INSERT 1" else "INSERT 2".
Definition s : PersistState (M := Z) :=
  mkPersist [1; 2] [] true Finished ["INSERT 1;INSERT 2"; "INSERT 1;INSERT 2"]%string.
Lemma steps : rtc (persist_step insert) persist_init s.
Proof.
  eapply rtc_l; [apply (persist_send insert [] [] Waiting [] 1)|]. eapply rtc_l; [apply persist_recv|].
  eapply rtc_l; [apply (persist_send insert _ _ _ _ 2)|]. eapply rtc_l; [apply persist_try_recv|].
  eapply rtc_l; [apply persist_empty|].
  eapply rtc_l; [by apply (persist_attempt insert _ _ _ _ _ _ (CommitFailed true))|].
  eapply rtc_l; [by apply (persist_attempt insert _ _ _ _ _ _ Committed)|].
  eapply rtc_l; [apply persist_close|]. eapply rtc_l; [apply persist_disconnected|]. apply rtc_refl.
Qed.
End persist_demo.

Lemma persist_at_least_once_witness :
  ∃ batches, ps_sent persist_demo.s = concat batches.*1 ∧
    ps_tables persist_demo.s = batch_queries persist_demo.insert <$> executed batches.
Proof.
  destruct (persist_at_least_once persist_demo.insert persist_demo.s persist_demo.steps)
    as (batches & batch & copies & _ & [-> ->] & Hs & Ht & _).
  exists batches. split.
  - rewrite Hs. cbn. by rewrite app_nil_r.
  - rewrite Ht. cbn. by rewrite app_nil_r.
Defined.
