(* ===== verification/Gc.v ===== *)
(** * gc.rs

    The loop that deletes the oldest events, and the deduplication entries that
    lead to them, once more than a configured number is stored. *)

From S2P Require Import Prelude Bytes Keys Proto Errors RefDecimal BalanceCalculator Account.
From S2P Require Import RocksEngine RefRocks RefCodec Internal RocksDBState MessageBroker.
From S2P Require Import StateMachine Wallet Durability Config.
Local Open Scope Z_scope.

Section gc.
Context {R : RocksDB} `{!ProtoMessage EventPb}.

(** ** Definitions *)

Definition gc_count (cfg : EventLogGCConfig) : Z :=
  u64_of_f64 (f64_mul (f64_of_u64 (count_limit cfg)) (percentage cfg)).

Definition should_gc (cfg : EventLogGCConfig) (first_seq_num last_seq_num : Z) :
    run (option Z) :=
  rust_assert (first_seq_num <=? last_seq_num) (
  if last_seq_num -u first_seq_num <? count_limit cfg then Returns None
  else Returns (Some (first_seq_num +u gc_count cfg))).

(** The callback of the scan: [merge_from_bytes(..)?] aborts it. *)
Definition gc_event (wb : RocksWriteBatch) (ek value : bytes) :
    run (result EngineError (RocksWriteBatch * bool)) :=
  match parse_from_bytes value with
  | None => Returns (Err ProtobufError)
  | Some e =>
      let wb := wb_delete ek wb in
      let command_key := dedup_key (as_bytes (eh_command_id (event_header e))) in
      Returns (Ok (wb_delete command_key wb, true))
  end.

Definition gc_batch (from to : Z) (db : DB) (gc_wb : RocksWriteBatch) :
    run (DB * RocksWriteBatch) :=
  let start_event_key := event_key (seq_to_bytes from) in
  let end_event_key := event_key (seq_to_bytes to) in
  r ← scan db start_event_key end_event_key gc_event gc_wb;
  gc_wb ← unwrap_ok r;
  let gc_wb := wb_put (as_bytes (key PERSISTED_FIRST_SEQ_NUM)) (write_u64 to) gc_wb in
  Returns (write_opt db gc_wb, wb_clear gc_wb).

(** The [while] loop of [gc]; [None] when the fuel is not enough. *)
Fixpoint gc_loop (fuel : nat) (cfg : EventLogGCConfig) (next from to : Z) (db : DB)
    (gc_wb : RocksWriteBatch) : run (option DB) :=
  if from <? next then
    match fuel with
    | O => Returns None
    | S fuel =>
        '(db, gc_wb) ← gc_batch from to db gc_wb;
        let from := to in
        let to := Z.min (from +u gc_batch_size cfg) next in
        gc_loop fuel cfg next from to db gc_wb
    end
  else Returns (Some db).

Definition gc (fuel : nat) (cfg : EventLogGCConfig) (first_seq_num next_first_seq_num : Z)
    (db : DB) : run (option DB) :=
  let from := Z.max first_seq_num (default_value PERSISTED_FIRST_SEQ_NUM +u 1) in
  let to := Z.min (from +u gc_batch_size cfg) next_first_seq_num in
  gc_loop fuel cfg next_first_seq_num from to db wb_new.

(** One turn of [run]; the [bool] tells whether the loop sleeps. *)
Definition gc_iter (fuel : nat) (cfg : EventLogGCConfig) (db : DB) : run (option (DB * bool)) :=
  first_seq_num ← read_hard_state_from_db db PERSISTED_FIRST_SEQ_NUM;
  last_seq_num ← read_hard_state_from_db db PERSISTED_LAST_SEQ_NUM;
  next ← should_gc cfg first_seq_num last_seq_num;
  match next with
  | Some next_first_seq_num =>
      r ← gc fuel cfg first_seq_num next_first_seq_num db;
      Returns (db ← r; Some (db, false))
  | None => Returns (Some (db, true))
  end.
End gc.

(** ** The effect of one batch *)
Section theory.
Context {R : RocksDB} {RL : RocksDBLaws R}.
Context {BD : BigDecimal} {BDL : BigDecimalLaws BD}.
Context `{!ProtoMessage AccountPb, !ProtoMessage EventPb}.
Context `{!ProtoRoundTrip AccountPb, !ProtoRoundTrip EventPb}.

(** The wallet without the events of [[from, to)]. *)
Definition w_gc (from to : Z) (w : Wallet) : Wallet :=
  {| w_accounts := w_accounts w;
     w_dedup := filter (λ kv, ¬ (from ≤ kv.2 < to)) (w_dedup w);
     w_events := filter (λ kv, ¬ (from ≤ kv.1 < to)) (w_events w) |}.

Definition delete_event (wb : RocksWriteBatch) (ek value : bytes) : RocksWriteBatch :=
  match parse_from_bytes value with
  | Some e => wb_delete (dedup_key (as_bytes (eh_command_id (event_header e)))) (wb_delete ek wb)
  | None => wb
  end.

(** Some entry of the scan makes [gc_event] delete [k]. *)
Definition deletes (it : list (bytes * bytes)) (k : bytes) : Prop :=
  ∃ ek e, (ek, write_to_bytes e) ∈ it ∧
    (k = ek ∨ k = dedup_key (as_bytes (eh_command_id (event_header e)))).

Lemma view_delete_None d wb k k' : view d wb k' = None → view d (wb_delete k wb) k' = None.
Proof. intros H. rewrite view_delete. by case_decide. Qed.

Lemma foldl_delete_event_None d it wb k :
  view d wb k = None → view d (foldl (λ s '(k, v), delete_event s k v) wb it) k = None.
Proof.
  revert wb. induction it as [|[ek v] it IH]; intros wb H; [done|]. cbn. apply IH.
  unfold delete_event. case_match; [|done]. by do 2 apply view_delete_None.
Qed.

Lemma foldl_delete_event_hit d it wb k :
  deletes it k → view d (foldl (λ s '(k, v), delete_event s k v) wb it) k = None.
Proof.
  intros (ek & e & Hin & Hk). revert wb. induction it as [|[ek' v] it IH]; intros wb.
  { by apply not_elem_of_nil in Hin. }
  apply elem_of_cons in Hin as [[= <- <-]|Hin]; [|by apply IH]. cbn.
  apply foldl_delete_event_None. unfold delete_event. rewrite parse_write.
  destruct Hk as [->| ->]; [apply view_delete_None|]; apply view_delete_eq.
Qed.

Lemma foldl_delete_event_miss d it wb k :
  (∀ ek v, (ek, v) ∈ it → ∃ e : EventPb, v = write_to_bytes e) → ¬ deletes it k →
  view d (foldl (λ s '(k, v), delete_event s k v) wb it) k = view d wb k.
Proof.
  revert wb. induction it as [|[ek v] it IH]; intros wb Hv Hno; [done|]. cbn.
  destruct (Hv ek v) as [e ->]; [left|].
  rewrite IH.
  - unfold delete_event. rewrite parse_write.
    rewrite !view_delete_ne; [done|..]; intros <-; apply Hno; exists ek, e; split; [left| |left|];
      auto.
  - intros ek' v' Hin. apply (Hv ek'). by right.
  - intros (ek' & e' & Hin & Hk). apply Hno. exists ek', e'. split; [by right|done].
Qed.

(** The keys between two event keys are event keys. *)
Lemma event_key_range a b k :
  bytes_leb (event_key a) k = true → bytes_ltb k (event_key b) = true →
  ∃ c, k = event_key c ∧ bytes_leb a c = true ∧ bytes_ltb c b = true.
Proof.
  unfold bytes_leb, bytes_ltb, event_key. destruct k as [|x k]; [done|]. cbn [app EVENT_PREFIX_KEY bytes_cmp].
  intros Hle Hlt.
  assert (x = EVENT_PREFIX) as ->.
  { apply (inj Z_of_byte).
    destruct (Z.compare_spec (Z_of_byte EVENT_PREFIX) (Z_of_byte x)),
      (Z.compare_spec (Z_of_byte x) (Z_of_byte EVENT_PREFIX)); try done; try lia. }
  rewrite Z.compare_refl in *. by exists k.
Qed.

Abbreviation event_iter d from to :=
  (db_iter d CF_DEFAULT (Some (event_key (write_u64 from))) (Some (event_key (write_u64 to)))
     (event_key (write_u64 from))).

Lemma event_iter_elem d w from to k v :
  stores (db_get d CF_DEFAULT) w → is_u64 from → is_u64 to →
  (k, v) ∈ event_iter d from to ↔
  ∃ n e, k = event_key (write_u64 n) ∧ v = write_to_bytes e ∧ from ≤ n < to ∧
    w_events w !! n = Some e.
Proof.
  intros Hst Hf Ht. rewrite db_iter_elem. split.
  - intros (Hget & Hge & _ & Hlt). specialize (Hlt _ eq_refl).
    destruct (event_key_range _ _ _ Hge Hlt) as (c & -> & Hc1 & Hc2).
    destruct (st_event _ _ Hst _ _ Hget) as (n & -> & Hn).
    rewrite (st_events _ _ Hst _ Hn) in Hget. apply fmap_Some in Hget as (e & He & ->).
    exists n, e. split_and!; try done.
    + rewrite bytes_leb_spec in Hc1. unfold bytes_lt in Hc1.
      rewrite write_u64_cmp in Hc1 by done. apply Z.nlt_ge. by rewrite <-Z.compare_lt_iff.
    + rewrite bytes_ltb_spec in Hc2. unfold bytes_lt in Hc2.
      rewrite write_u64_cmp in Hc2 by done. by apply Z.compare_lt_iff.
  - intros (n & e & -> & -> & [Hn1 Hn2] & He).
    assert (is_u64 n) as Hn by (unfold is_u64 in *; lia).
    assert (bytes_leb (event_key (write_u64 from)) (event_key (write_u64 n)) = true) as Hle.
    { rewrite bytes_leb_spec. unfold bytes_lt. rewrite event_key_cmp, write_u64_cmp by done.
      rewrite Z.compare_lt_iff. lia. }
    rewrite (st_events _ _ Hst _ Hn), He. split_and!; [done|done|by intros ? [= <-]|].
    intros u [= <-]. rewrite bytes_ltb_spec. unfold bytes_lt.
    rewrite event_key_cmp, write_u64_cmp by done. by apply Z.compare_lt_iff.
Qed.

Lemma foldl_delete_event_or d it wb k :
  view d (foldl (λ s '(k, v), delete_event s k v) wb it) k = None ∨
  view d (foldl (λ s '(k, v), delete_event s k v) wb it) k = view d wb k.
Proof.
  revert wb. induction it as [|[ek v] it IH]; intros wb; [by right|]. cbn.
  destruct (IH (delete_event wb ek v)) as [->| ->]; [by left|].
  unfold delete_event. case_match; [|by right]. rewrite !view_delete. repeat case_decide; auto.
Qed.

(** What a batch deletes: the events of the range and their commands. *)
Lemma deletes_event d w last from to n :
  stores (db_get d CF_DEFAULT) w → log_ok w last → is_u64 from → is_u64 to → is_u64 n →
  deletes (event_iter d from to) (event_key (write_u64 n)) ↔
  from ≤ n < to ∧ is_Some (w_events w !! n).
Proof.
  intros Hst Hlog Hf Ht Hn. split.
  - intros (ek & e & Hin & Hk).
    apply (event_iter_elem d w) in Hin as (n' & e' & -> & _ & Hr & He); [|done..].
    destruct Hk as [Heq%(inj event_key)%write_u64_inj|?]; [|unfold is_u64 in *; lia..|done].
    subst. eauto.
  - intros [Hr [e He]]. exists (event_key (write_u64 n)), e. split; [|by left].
    apply (event_iter_elem d w); [done..|]. by exists n, e.
Qed.

Lemma deletes_dedup d w last from to id :
  stores (db_get d CF_DEFAULT) w → log_ok w last → is_u64 from → is_u64 to →
  deletes (event_iter d from to) (dedup_key (as_bytes id)) ↔
  ∃ n, from ≤ n < to ∧ w_dedup w !! id = Some n.
Proof.
  intros Hst Hlog Hf Ht. split.
  - intros (ek & e & Hin & Hk).
    apply (event_iter_elem d w) in Hin as (n & e' & -> & Heq & Hr & He); [|done..].
    destruct Hk as [?|Hid%(inj dedup_key)%(inj as_bytes)]; [done|].
    apply (f_equal parse_from_bytes) in Heq. rewrite !parse_write in Heq. injection Heq as ->.
    exists n. split; [done|]. subst. by apply (log_events _ _ Hlog).
  - intros (n & Hr & Hd). destruct (log_dedup _ _ Hlog _ _ Hd) as (e & He & Hid).
    exists (event_key (write_u64 n)), e. split; [|right; by rewrite Hid].
    apply (event_iter_elem d w); [done..|]. by exists n, e.
Qed.

Lemma w_gc_log_ok from to w last : log_ok w last → log_ok (w_gc from to w) last.
Proof.
  intros [He Hd]. split; cbn.
  - intros n e [Hn Hr]%map_lookup_filter_Some. destruct (He n e Hn) as (? & ? & ? & ?).
    split_and!; try done; try lia. by apply map_lookup_filter_Some.
  - intros id n [Hn Hr]%map_lookup_filter_Some. destruct (Hd id n Hn) as (e & ? & ?).
    exists e. split; [|done]. by apply map_lookup_filter_Some.
Qed.

(** The batch that [gc_batch] writes turns a wallet into the wallet without
    these events. *)
Lemma stores_gc d w last from to :
  stores (db_get d CF_DEFAULT) w → log_ok w last → is_u64 from → is_u64 to →
  stores (view d (wb_put (as_bytes (key PERSISTED_FIRST_SEQ_NUM)) (write_u64 to)
    (foldl (λ s '(k, v), delete_event s k v) wb_new (event_iter d from to))))
    (w_gc from to w).
Proof.
  intros Hst Hlog Hf Ht. apply stores_hard; [|eauto with wallet].
  assert (∀ ek v, (ek, v) ∈ event_iter d from to → ∃ e : EventPb, v = write_to_bytes e) as Hv.
  { intros ek v Hin. apply (event_iter_elem d w) in Hin as (n & e & _ & -> & _); [|done..].
    by exists e. }
  assert (∀ k, ¬ deletes (event_iter d from to) (data_key k)) as Hdata.
  { intros k (ek & e & Hin & Hk).
    apply (event_iter_elem d w) in Hin as (n & e' & -> & _); [|done..]. by destruct Hk. }
  split; cbn [w_gc w_accounts w_dedup w_events].
  - intros id. rewrite foldl_delete_event_miss by auto. rewrite view_new. apply Hst.
  - intros k v. rewrite foldl_delete_event_miss by auto. rewrite view_new. apply Hst.
  - intros id. destruct (w_dedup w !! id) as [n|] eqn:Hd.
    + destruct (decide (from ≤ n < to)) as [Hr|Hr].
      * rewrite foldl_delete_event_hit by (apply (deletes_dedup d w last); eauto).
        rewrite map_lookup_filter_None_2; [done|]. right. intros n' Hn'. cbn. naive_solver.
      * rewrite foldl_delete_event_miss; [|done|].
        -- rewrite view_new, (st_dedup _ _ Hst), Hd.
           rewrite (map_lookup_filter_Some_2 _ (w_dedup w) id n); done.
        -- rewrite (deletes_dedup d w last) by done. naive_solver.
    + rewrite map_lookup_filter_None_2 by auto.
      etrans; [apply foldl_delete_event_None|done].
      by rewrite view_new, (st_dedup _ _ Hst), Hd.
  - intros n Hn. destruct (w_events w !! n) as [e|] eqn:He.
    + destruct (decide (from ≤ n < to)) as [Hr|Hr].
      * rewrite foldl_delete_event_hit by (apply (deletes_event d w last); eauto).
        rewrite map_lookup_filter_None_2; [done|]. right. intros n' Hn'. cbn. naive_solver.
      * rewrite foldl_delete_event_miss; [|done|].
        -- rewrite view_new, (st_events _ _ Hst) by done. rewrite He.
           rewrite (map_lookup_filter_Some_2 _ (w_events w) n e); done.
        -- rewrite (deletes_event d w last) by done. naive_solver.
    + rewrite map_lookup_filter_None_2 by auto.
      etrans; [apply foldl_delete_event_None|done].
      by rewrite view_new, (st_events _ _ Hst), He.
  - intros k v Hk. apply (st_event _ _ Hst k v). rewrite <-view_new.
    edestruct foldl_delete_event_or as [Hno|Hsame]; [by rewrite Hno in Hk|by rewrite Hsame in Hk].
Qed.

(** The counters that the state machine reads. *)
Definition same_counters (d d' : DB) : Prop :=
  ∀ kind, kind ∈ [APPLIED_INDEX; PERSISTED_LAST_SEQ_NUM] →
  db_get d' CF_DEFAULT (as_bytes (key kind)) = db_get d CF_DEFAULT (as_bytes (key kind)).

Lemma gc_batch_spec d w applied last from to :
  durable (db_get d CF_DEFAULT) w applied last → is_u64 from → is_u64 to →
  ∃ d', gc_batch from to d wb_new = Returns (d', wb_new) ∧
    durable (db_get d' CF_DEFAULT) (w_gc from to w) applied last ∧
    hard_of (db_get d' CF_DEFAULT) PERSISTED_FIRST_SEQ_NUM = Returns to ∧
    same_counters d d'.
Proof.
  intros [Hst Hlog Hacc Happ Hlast Hau Hlu] Hf Ht. unfold gc_batch, scan, seq_to_bytes.
  rewrite (scan_impl_all delete_event).
  2:{ intros wb0 k v Hin.
      apply (event_iter_elem d w) in Hin as (n & e & -> & -> & _); [|done..].
      unfold gc_event, delete_event. by rewrite parse_write. }
  cbn [mbind run_bind unwrap_ok]. eexists. split; [reflexivity|].
  pose proof (stores_gc d w last from to Hst Hlog Hf Ht) as Hst'.
  set (wb0 := foldl _ wb_new _) in *.
  assert (∀ k, hard_key k → view d wb0 k = db_get d CF_DEFAULT k) as Hhard.
  { intros k Hk. unfold wb0. rewrite foldl_delete_event_miss; [apply view_new|..].
    - intros ek v Hin. apply (event_iter_elem d w) in Hin as (n & e & _ & -> & _); [|done..].
      by exists e.
    - intros (ek & e & Hin & Hd).
      apply (event_iter_elem d w) in Hin as (n & e' & -> & _); [|done..].
      destruct Hd as [->| ->]; [by eapply hard_key_event_ne|by eapply hard_key_dedup_ne]. }
  assert (same_counters d (write_opt d (wb_put (as_bytes (key PERSISTED_FIRST_SEQ_NUM))
    (write_u64 to) wb0))) as Hsame.
  { intros kind Hkind. change (db_get (write_opt d ?b) CF_DEFAULT) with (view d b).
    rewrite !elem_of_cons in Hkind. destruct Hkind as [->|[->|[]%not_elem_of_nil]];
    (rewrite view_put_ne by done; apply Hhard; eauto with wallet). }
  split_and!; [|by apply hard_of_put_eq|done]. split; try done.
  - by apply w_gc_log_ok.
  - unfold hard_of. rewrite Hsame by set_solver. done.
  - unfold hard_of. rewrite Hsame by set_solver. done.
Qed.

(** ** The loop *)

Lemma w_gc_compose from to next w :
  from ≤ to ≤ next → w_gc to next (w_gc from to w) = w_gc from next w.
Proof.
  intros Hle. unfold w_gc. cbn. rewrite !map_filter_filter.
  f_equal; apply map_filter_ext; cbn; intros; lia.
Qed.

Lemma w_gc_empty from to w : to ≤ from → w_gc from to w = w.
Proof.
  intros Hle. destruct w. unfold w_gc. cbn. f_equal; apply map_filter_id; cbn; intros; lia.
Qed.

Lemma gc_loop_spec fuel cfg next from d w applied last :
  durable (db_get d CF_DEFAULT) w applied last → 0 < gc_batch_size cfg → 0 ≤ from →
  next + gc_batch_size cfg ≤ u64_max → next - from ≤ Z.of_nat fuel →
  ∃ d', gc_loop fuel cfg next from (Z.min (from +u gc_batch_size cfg) next) d wb_new
        = Returns (Some d') ∧
    durable (db_get d' CF_DEFAULT) (w_gc from next w) applied last ∧
    same_counters d d' ∧
    (from < next → hard_of (db_get d' CF_DEFAULT) PERSISTED_FIRST_SEQ_NUM = Returns next).
Proof.
  revert from d w. induction fuel as [|fuel IH]; intros from d w Hd Hbs Hfrom Hmax Hfuel.
  - exists d. cbn. rewrite (proj2 (Z.ltb_ge from next)) by lia.
    rewrite w_gc_empty by lia. split_and!; [done|done|done|lia].
  - cbn [gc_loop]. destruct (from <? next) eqn:Hlt.
    2:{ apply Z.ltb_ge in Hlt. exists d. rewrite w_gc_empty by done.
        split_and!; [done|done|done|lia]. }
    apply Z.ltb_lt in Hlt. unfold u64_max in Hmax.
    rewrite u64_add_small by (unfold is_u64; lia).
    set (to := Z.min (from + gc_batch_size cfg) next).
    assert (from < to ≤ next) as Hto by (unfold to; lia).
    destruct (gc_batch_spec d w applied last from to Hd) as (d1 & -> & Hd1 & Hf1 & Hs1);
      [unfold is_u64; lia..|]. cbn [mbind run_bind].
    destruct (IH to d1 _ Hd1 Hbs) as (d2 & Hr2 & Hd2 & Hs2 & Hf2); [lia|unfold u64_max; lia|lia|].
    rewrite Hr2. exists d2. rewrite w_gc_compose in Hd2 by lia. split_and!; [done|done|..].
    + intros kind Hk. rewrite Hs2, Hs1; done.
    + intros _. destruct (decide (to < next)) as [?|?]; [by apply Hf2|].
      assert (to = next) as -> by lia.
      destruct fuel; cbn in Hr2; rewrite Z.ltb_irrefl in Hr2; injection Hr2 as ->; done.
Qed.

(** With a batch size of 0 the loop does not advance. *)
Lemma gc_loop_stuck fuel cfg next from d w applied last :
  durable (db_get d CF_DEFAULT) w applied last → gc_batch_size cfg = 0 → is_u64 from →
  from < next → gc_loop fuel cfg next from from d wb_new = Returns None.
Proof.
  revert d w. induction fuel as [|fuel IH]; intros d w Hd Hbs Hfrom Hlt; cbn [gc_loop];
    rewrite (proj2 (Z.ltb_lt from next) Hlt); [done|].
  destruct (gc_batch_spec d w applied last from from Hd) as (d1 & -> & Hd1 & _); [done..|].
  cbn [mbind run_bind]. rewrite Hbs, u64_add_small, Z.add_0_r, Z.min_l by (rewrite ?Z.add_0_r; done || lia).
  by eapply IH.
Qed.

(** ** Collection under a running state machine *)

Lemma ops_get_touched ops k old old' :
  ¬ Forall (λ op, op_key op ≠ (CF_DEFAULT, k)) ops →
  ops_get ops CF_DEFAULT k old = ops_get ops CF_DEFAULT k old'.
Proof.
  revert old old'. induction ops as [|op ops IH] using rev_ind; intros old old' Hno.
  { by destruct Hno. }
  rewrite !ops_get_app. cbn. case_decide as Hop; [done|]. apply IH. intros Hall. apply Hno.
  apply Forall_app. split; [done|]. by constructor.
Qed.

(** A key either shows the disk or does not depend on it. *)
Lemma view_cases d d' wb k :
  (untouched wb k ∧ view d wb k = db_get d CF_DEFAULT k ∧ view d' wb k = db_get d' CF_DEFAULT k)
  ∨ (¬ untouched wb k ∧ view d' wb k = view d wb k).
Proof.
  destruct (decide (Forall (λ op, op_key op ≠ (CF_DEFAULT, k)) (wb_ops wb))) as [Hu|Hu].
  - left. split; [done|]. split; by apply view_untouched.
  - right. split; [done|]. unfold view, write_opt. rewrite !db_get_write.
    by apply ops_get_touched.
Qed.

Lemma view_same d d' wb k :
  db_get d' CF_DEFAULT k = db_get d CF_DEFAULT k → view d' wb k = view d wb k.
Proof. intros Hd. destruct (view_cases d d' wb k) as [(_ & -> & ->)|[_ ->]]; done. Qed.

Lemma write_u64_fmap_inj (o o' : option Z) last :
  is_u64 last → (∀ n, o = Some n → 0 < n ≤ last) → (∀ n, o' = Some n → 0 < n ≤ last) →
  write_u64 <$> o = write_u64 <$> o' → o = o'.
Proof.
  intros [??] Ho Ho' Heq. destruct o as [n|], o' as [n'|]; try done.
  cbn -[write_u64] in Heq. injection Heq as Heq. f_equal.
  specialize (Ho n eq_refl). specialize (Ho' n' eq_refl).
  apply write_u64_inj; [unfold is_u64 in *; lia..|]. unfold write_u64, be_bytes. congruence.
Qed.

Lemma gc_running_stores w0 last0 w st d' from next applied :
  entry_inv w0 last0 w st → next ≤ last0 + 1 →
  durable (db_get d' CF_DEFAULT) (w_gc from next w0) applied last0 →
  stores (view d' (wb st.2)) (w_gc from next w).
Proof.
  intros [Hsm [Hst0 Hlog0 _ _ _ _ Hlu0] _ _ _ _ Hlord [Hfs Hfe]] Hnext [Hst' _ _ _ _ _ _].
  pose proof (inv_stores _ _ Hsm) as Hst. pose proof (inv_log _ _ Hsm) as Hlog.
  set (d := rocksdb st.1) in *.
  assert (∀ k, db_get d' CF_DEFAULT (data_key (as_bytes k)) = db_get d CF_DEFAULT (data_key (as_bytes k)))
    as Hdata by (intros k; by rewrite (st_accounts _ _ Hst'), (st_accounts _ _ Hst0)).
  split.
  - intros id. rewrite (view_same d) by done. apply (st_accounts _ _ Hst).
  - intros k v Hk. destruct (view_cases d d' (wb st.2) (data_key k)) as [(_ & _ & He)|[_ He]];
      rewrite He in Hk; [by apply (st_data _ _ Hst') in Hk|by apply (st_data _ _ Hst) in Hk].
  - intros id. cbn [w_gc w_dedup].
    destruct (view_cases d d' (wb st.2) (dedup_key (as_bytes id))) as [(Hu & Hv & ->)|[Hu ->]].
    + rewrite (st_dedup _ _ Hst'). cbn [w_gc w_dedup]. f_equal.
      assert (w_dedup w !! id = w_dedup w0 !! id) as Heq.
      { rewrite (st_dedup _ _ Hst), (st_dedup _ _ Hst0) in Hv.
        eapply write_u64_fmap_inj; [apply (inv_last _ _ Hsm)|..|exact Hv].
        - intros n Hn. by eapply log_dedup_bound.
        - intros n Hn. eapply log_dedup_bound in Hn; [|exact Hlog0]. lia. }
      apply option_eq. intros n. by rewrite !map_lookup_filter_Some, Heq.
    + rewrite (st_dedup _ _ Hst). f_equal. apply option_eq. intros n.
      rewrite map_lookup_filter_Some. split; [|naive_solver]. intros Hn. split; [done|]. cbn.
      destruct (seq_num_cache st.1 !! id) as [n'|] eqn:Hc.
      * pose proof (inv_seq_hit _ _ Hsm _ _ Hc). apply Hfs in Hc. simplify_eq. lia.
      * by apply (inv_seq_miss _ _ Hsm) in Hc.
  - intros n Hn. cbn [w_gc w_events].
    destruct (view_cases d d' (wb st.2) (event_key (write_u64 n))) as [(Hu & Hv & ->)|[Hu ->]].
    + rewrite (st_events _ _ Hst' n Hn). cbn [w_gc w_events]. f_equal.
      assert (w_events w !! n = w_events w0 !! n) as Heq.
      { rewrite (st_events _ _ Hst n Hn), (st_events _ _ Hst0 n Hn) in Hv.
        apply (f_equal (λ o, v ← o; parse_from_bytes (M := EventPb) v)) in Hv.
        destruct (w_events w !! n), (w_events w0 !! n); cbn in Hv; rewrite ?parse_write in Hv;
          done. }
      apply option_eq. intros e. by rewrite !map_lookup_filter_Some, Heq.
    + rewrite (st_events _ _ Hst n Hn). f_equal. apply option_eq. intros e.
      rewrite map_lookup_filter_Some. split; [|naive_solver]. intros He. split; [done|]. cbn.
      destruct (event_cache st.1 !! n) as [e'|] eqn:Hc.
      * apply Hfe in Hc. lia.
      * by apply (inv_ev_miss _ _ Hsm) in Hc.
  - intros k v Hk. destruct (view_cases d d' (wb st.2) (event_key k)) as [(_ & _ & He)|[_ He]];
      rewrite He in Hk; [by apply (st_event _ _ Hst') in Hk|by apply (st_event _ _ Hst) in Hk].
Qed.

(** The state machine on the disk that the collection left. *)
Lemma gc_running_inv w0 last0 w st d' from next :
  entry_inv w0 last0 w st → next ≤ last0 + 1 →
  durable (db_get d' CF_DEFAULT) (w_gc from next w0) (flushed_applied_index st.2) last0 →
  same_counters (rocksdb st.1) d' →
  entry_inv (w_gc from next w0) last0 (w_gc from next w) (set_rocksdb d' st.1, st.2).
Proof.
  intros Hinv Hnext Hd' Hsame.
  pose proof (gc_running_stores _ _ _ _ _ _ _ _ Hinv Hnext Hd') as Hst'.
  destruct Hinv as [Hsm Hd Happ Hlast Hu Hord Hlord [Hfs Hfe]]. split; cbn; try done.
  - destruct Hsm. split; cbn; try done.
    + by apply w_gc_log_ok.
    + intros id n Hc. apply map_lookup_filter_Some. split; [eauto|]. cbn.
      apply Hfs in Hc. lia.
    + intros n e Hc. apply map_lookup_filter_Some. split; [eauto|]. cbn.
      apply Hfe in Hc. lia.
  - rewrite <-Happ. unfold hard_of. by rewrite (view_same (rocksdb st.1)) by (apply Hsame; set_solver).
  - rewrite <-Hlast. unfold hard_of. by rewrite (view_same (rocksdb st.1)) by (apply Hsame; set_solver).
Qed.

(** [maybe_handle_duplicate_command] with a step of the collection thread between
    its two reads: the second read sees the disk [s'] holds. *)
Definition interleaved_duplicate_command (s s' : StateMachine) (c : CommandPb) :
    run (option (GeneralResult EventPb)) :=
  o ← get_seq_num s (command_command_id c);
  match o with
  | None => Returns None
  | Some seq_num =>
      found ← get_event s' seq_num;
      e ← unwrap found;
      r ← assert_command_and_event_match c e;
      Returns (Some r)
  end.
End theory.

(** ** Properties *)
Section properties.
Context {R : RocksDB} {RL : RocksDBLaws R}.
Context {BD : BigDecimal} {BDL : BigDecimalLaws BD}.
Context `{!ProtoMessage AccountPb, !ProtoMessage EventPb}.
Context `{!ProtoRoundTrip AccountPb, !ProtoRoundTrip EventPb}.

(** C35. A collection terminates and deletes exactly what it should: with a
    positive batch size, after at most [next - first] batches the events of
    [[max(first, 1), next)] and the deduplication entries of their commands are
    gone, and every account, other event, other deduplication entry and counter
    is as before; the persisted first sequence number is [next]. *)
Theorem gc_truncates cfg first next d w applied last fuel :
  durable (db_get d CF_DEFAULT) w applied last → 0 < gc_batch_size cfg → 0 ≤ first →
  next + gc_batch_size cfg ≤ u64_max → next - Z.max first 1 ≤ Z.of_nat fuel →
  ∃ d', gc fuel cfg first next d = Returns (Some d') ∧
    durable (db_get d' CF_DEFAULT) (w_gc (Z.max first 1) next w) applied last ∧
    (Z.max first 1 < next →
     read_hard_state_from_db d' PERSISTED_FIRST_SEQ_NUM = Returns next).
Proof.
  intros Hd Hbs Hfirst Hmax Hfuel. unfold gc.
  change (default_value PERSISTED_FIRST_SEQ_NUM +u 1) with 1.
  destruct (gc_loop_spec fuel cfg next (Z.max first 1) d w applied last Hd Hbs)
    as (d' & Hr & Hd' & _ & Hf); [lia|done|done|]. by exists d'.
Qed.

(** With [event_log_gc_batch_size=0] a collection that has something to
    delete never ends: whatever the number of turns, it is still at its first
    event. *)
Theorem gc_zero_batch_size_never_ends cfg first next d w applied last fuel :
  durable (db_get d CF_DEFAULT) w applied last → gc_batch_size cfg = 0 →
  is_u64 (Z.max first 1) → Z.max first 1 < next →
  gc fuel cfg first next d = Returns None.
Proof.
  intros Hd Hbs Hf Hlt. unfold gc. change (default_value PERSISTED_FIRST_SEQ_NUM +u 1) with 1.
  rewrite Hbs, u64_add_small by (by rewrite Z.add_0_r). rewrite Z.add_0_r, Z.min_l by lia.
  by eapply gc_loop_stuck.
Qed.

(** The threshold: a collection starts only when at least [count_limit] events
    are stored, it then advances the first sequence number by [gc_count], and as
    long as [gc_count] is at most [count_limit] it stays within the persisted
    events and keeps at least [count_limit - gc_count] of them. *)
Theorem should_gc_bounds cfg first last next :
  is_u64 first → is_u64 last → 0 ≤ gc_count cfg ≤ count_limit cfg →
  should_gc cfg first last = Returns (Some next) →
  first ≤ last ∧ count_limit cfg ≤ last - first ∧ next = first + gc_count cfg ∧
  next ≤ last ∧ count_limit cfg - gc_count cfg ≤ last - next.
Proof.
  unfold should_gc. intros Hf Hl Hc H. apply rust_assert_Returns in H as [Hle H].
  apply Z.leb_le in Hle. rewrite u64_sub_le in H by (unfold is_u64 in *; lia).
  destruct (last - first <? count_limit cfg) eqn:Hlt; [done|]. apply Z.ltb_ge in Hlt.
  injection H as <-. rewrite u64_add_small by (unfold is_u64 in *; lia). lia.
Qed.

(** C34. The collection thread and the apply thread do not disturb each other:
    whatever part of the persisted events a collection deletes, the replica on
    the disk it leaves still satisfies the invariant, with the same accounts,
    and every event and command from [next] on is still found. *)
Theorem gc_keeps_replica w0 last0 w st cfg first next fuel :
  entry_inv w0 last0 w st → 0 < gc_batch_size cfg → 0 ≤ first → next ≤ last0 + 1 →
  next + gc_batch_size cfg ≤ u64_max → next - Z.max first 1 ≤ Z.of_nat fuel →
  ∃ d', gc fuel cfg first next (rocksdb st.1) = Returns (Some d') ∧
    let st' := (set_rocksdb d' st.1, st.2) in
    entry_inv (w_gc (Z.max first 1) next w0) last0 (w_gc (Z.max first 1) next w) st' ∧
    accounts st'.1 = accounts st.1 ∧
    (∀ n, is_u64 n → next ≤ n → get_event st'.1 n = get_event st.1 n) ∧
    (∀ id n, get_seq_num st.1 id = Returns (Some n) → next ≤ n →
       get_seq_num st'.1 id = Returns (Some n)).
Proof.
  intros Hinv Hbs Hfirst Hnext Hmax Hfuel. unfold gc.
  change (default_value PERSISTED_FIRST_SEQ_NUM +u 1) with 1.
  destruct (gc_loop_spec fuel cfg next (Z.max first 1) (rocksdb st.1) w0 _ _ (ei_disk _ _ _ _ Hinv))
    as (d' & Hr & Hd' & Hs & _); [done|lia|done|done|].
  pose proof (gc_running_inv _ _ _ _ _ _ _ Hinv Hnext Hd' Hs) as Hinv'.
  pose proof (ei_sm _ _ _ _ Hinv) as Hsm. pose proof (ei_sm _ _ _ _ Hinv') as Hsm'.
  exists d'. split; [done|]. split; [done|]. split; [done|]. split.
  - intros n Hn Hle. rewrite (get_event_spec _ _ _ Hsm' Hn), (get_event_spec _ _ _ Hsm Hn).
    f_equal. apply option_eq. intros e. cbn. rewrite map_lookup_filter_Some. cbn. naive_solver lia.
  - intros id n Hid Hle. rewrite (get_seq_num_spec _ _ _ Hsm) in Hid. injection Hid as Hid.
    rewrite (get_seq_num_spec _ _ _ Hsm'). f_equal. apply map_lookup_filter_Some. cbn.
    split; [done|lia].
Qed.

(** A collection between the two reads of [maybe_handle_duplicate_command]
    kills the apply thread: a command whose sequence number is read from disk
    just before a collection deletes its event panics at the [unwrap] of the
    second read. *)
Theorem gc_between_reads_panics w0 last0 w st cfg first next fuel d' c n :
  entry_inv w0 last0 w st → 0 < gc_batch_size cfg → 0 ≤ first → next ≤ last0 + 1 →
  next + gc_batch_size cfg ≤ u64_max → next - Z.max first 1 ≤ Z.of_nat fuel →
  gc fuel cfg first next (rocksdb st.1) = Returns (Some d') →
  get_seq_num st.1 (command_command_id c) = Returns (Some n) → first ≤ n < next →
  interleaved_duplicate_command st.1 (set_rocksdb d' st.1) c = Panics.
Proof.
  intros Hinv Hbs Hfirst Hnext Hmax Hfuel Hgc Hid Hn. unfold gc in Hgc.
  change (default_value PERSISTED_FIRST_SEQ_NUM +u 1) with 1 in Hgc.
  destruct (gc_loop_spec fuel cfg next (Z.max first 1) (rocksdb st.1) w0 _ _ (ei_disk _ _ _ _ Hinv))
    as (d1 & Hr & Hd' & Hs & _); [done|lia|done|done|].
  rewrite Hgc in Hr. injection Hr as <-.
  pose proof (gc_running_inv _ _ _ _ _ _ _ Hinv Hnext Hd' Hs) as Hinv'.
  pose proof (ei_sm _ _ _ _ Hinv) as Hsm. pose proof (ei_sm _ _ _ _ Hinv') as Hsm'.
  unfold interleaved_duplicate_command. rewrite Hid. cbn [mbind run_bind].
  rewrite (get_seq_num_spec _ _ _ Hsm) in Hid. injection Hid as Hid.
  apply log_dedup_bound with (last := last_seq_num st.1) in Hid as Hpos; [|apply Hsm].
  assert (is_u64 n) as Hu. { pose proof (inv_last _ _ Hsm) as [??]. split; lia. }
  pose proof (get_event_spec _ _ _ Hsm' Hu) as Hev. cbn in Hev. rewrite Hev. cbn.
  rewrite map_lookup_filter_None_2; [done|].
  right. cbn. intros e _ Hne. apply Hne. lia.
Qed.
End properties.
