(* ===== verification/Scenarios.v ===== *)
(** * Concrete replicas

    The properties of [Correctness] evaluated on a concrete replica, with the
    reference database, codec and decimals, and two scenarios around the
    deletion of accounts. *)

From S2P Require Import Prelude Bytes Keys Proto Errors RefDecimal BalanceCalculator Account.
From S2P Require Import RocksEngine RefRocks RefCodec Internal RocksDBState MessageBroker.
From S2P Require Import MessageQueue StateMachine Wallet Ledger Durability Money Correctness.
From S2P Require Import Config Gc.
Local Open Scope Z_scope.

(** ** A concrete replica

    On the reference database, codec and decimals: the replica starts on an
    empty database with a batch size of 10. *)

Definition demo_db : @DB RefRocks := ref_empty.

Definition demo_state : StateMachine * ApplyContext :=
  ({| accounts := ∅; applied_index := 5; last_seq_num := 0; seq_num_cache := ∅;
      event_cache := ∅; rocksdb := demo_db |}, context_new 10 5 0).

Definition demo_ledger : Ledger :=
  {| lg_accounts := ∅; lg_dedup := ∅; lg_events := ∅; lg_seq := 0 |}.

Lemma demo_db_get k : db_get demo_db CF_DEFAULT k = None.
Proof. apply lookup_empty. Qed.

Lemma demo_recover : recover_from_db demo_db 10 0 = Returns demo_state.
Proof. reflexivity. Qed.

Lemma demo_replica : replica_inv demo_state.
Proof.
  eapply replica_reachable_inv; [apply demo_db_get|apply demo_recover|reflexivity].
Qed.

Lemma demo_represents : represents demo_ledger demo_state.
Proof.
  destruct (recover_spec demo_db empty_wallet 5 0 10 0) as (st & Hr & Hi & _);
    [apply (durable_empty demo_db), demo_db_get|].
  rewrite demo_recover in Hr. injection Hr as <-.
  exists empty_wallet. split; [apply Hi|reflexivity].
Qed.

Definition demo_transfer (id from to amount : string) : CommandPb :=
  from_payload (PTransferRequest
    {| transfer_dedup_id := id;
       transfer_spec := Some {| ts_amount := amount; ts_from_account_id := from;
                                ts_to_account_id := to; ts_metadata := "" |} |}) 1600000000.

Definition demo_header (id account : string) : option RequestHeader :=
  Some {| req_dedup_id := id; req_account_id := account |}.

Definition demo_create (id account : string) : CommandPb :=
  from_payload (PCreateAccountRequest
    {| create_header := demo_header id account; create_account_config := None |}) 1600000000.
Definition demo_delete (id account : string) : CommandPb :=
  from_payload (PDeleteAccountRequest {| delete_header := demo_header id account |}) 1600000000.
Definition demo_update (id account : string) : CommandPb :=
  from_payload (PUpdateAccountConfigRequest
    {| update_header := demo_header id account;
       update_balance_limit := Some {| upper := "100"; lower := "0" |} |}) 1600000000.

Definition demo_entry : list CommandPb :=
  [demo_transfer "t1" "alice" "bob" "12.5"; demo_create "c1" "carol";
   demo_transfer "t1" "alice" "bob" "12.5"; demo_create "c2" "carol"].

(** The state after a computation that returns. *)
Definition result_of (r : run (StateMachine * ApplyContext)) : StateMachine * ApplyContext :=
  match r with Returns st => st | Panics => demo_state end.

Definition ok_or_default {E A} `{!Default A} (r : result E A) : A :=
  match r with Ok a => a | Err _ => default_instance end.

Definition st_transfer : StateMachine * ApplyContext :=
  result_of (handle_command 6 0 (demo_transfer "t1" "alice" "bob" "12.5") demo_state).
Definition st_create : StateMachine * ApplyContext :=
  result_of (handle_commands 6 1 [demo_create "c1" "carol"] st_transfer).
Definition st_entry : StateMachine * ApplyContext :=
  result_of (apply_entry 6 demo_entry demo_state).

(** The event of the last reply. *)
Definition last_event (st : StateMachine * ApplyContext) : EventPb :=
  match list.last (inflight_event_tx st.2) with
  | Some ie => ok_or_default (ie_event ie)
  | None => default_instance
  end.

Lemma st_entry_replica : replica_inv st_entry.
Proof.
  eapply replica_step_inv; [apply demo_replica|].
  apply (replica_apply demo_state 6 demo_entry); [reflexivity..|done].
Qed.

Lemma handle_command_refines_witness :
  ∃ L' st' reply,
    handle_command 6 0 (demo_transfer "t1" "alice" "bob" "12.5") demo_state = Returns st' ∧
    spec_command demo_ledger 6 0 (demo_transfer "t1" "alice" "bob" "12.5")
      = Returns (L', reply) ∧
    represents L' st'.
Proof.
  destruct (handle_command_refines demo_ledger demo_state 6 0
    (demo_transfer "t1" "alice" "bob" "12.5")) as (L' & st' & r & H1 & H2 & H3 & _).
  - apply demo_represents.
  - reflexivity.
  - reflexivity.
  - exists L', st', r. exact (conj H1 (conj H2 H3)).
Defined.


Lemma replica_never_panics_witness :
  (∃ st', apply_entry 7 [demo_delete "d1" "carol"] st_entry = Returns st') ∧
  (∃ st', flush 200 st_entry = Returns st') ∧
  (∃ st', recover_from_db (rocksdb st_entry.1) 10 200 = Returns st').
Proof.
  destruct (replica_never_panics st_entry [demo_delete "d1" "carol"] 10 200)
    as (H1 & H2 & H3).
  - apply st_entry_replica.
  - reflexivity.
  - reflexivity.
  - discriminate.
  - split; [exact H1|]. split; [|exact H3]. apply H2. reflexivity.
Defined.



Lemma command_applied_once_witness :
  handle_command 8 3 (demo_transfer "t1" "alice" "bob" "99") st_create
  = Returns (st_create.1, send_event (position_of 8 3) (Ok (last_event st_transfer)) st_create.2) ∧
  handle_command 8 3 (demo_create "t1" "alice") st_create
  = Returns (st_create.1,
             send_event (position_of 8 3) (Err (ECommon (ConflictDedupId "t1"))) st_create.2).
Proof.
  split.
  - apply (command_applied_once demo_ledger demo_state 6 0
      (demo_transfer "t1" "alice" "bob" "12.5") st_transfer (last_event st_transfer) 6 1
      [demo_create "c1" "carol"] st_create 8 3 (demo_transfer "t1" "alice" "bob" "99"));
      [apply demo_represents|reflexivity..].
  - apply (command_applied_once demo_ledger demo_state 6 0
      (demo_transfer "t1" "alice" "bob" "12.5") st_transfer (last_event st_transfer) 6 1
      [demo_create "c1" "carol"] st_create 8 3 (demo_create "t1" "alice"));
      [apply demo_represents|reflexivity..].
Defined.

Lemma rejected_command_changes_nothing_witness :
  let st' := result_of (handle_command 7 0 (demo_create "c9" "carol") st_create) in
  st'.1 = st_create.1 ∧ wb st'.2 = wb st_create.2 ∧
  to_be_deleted_account_ids st'.2 = to_be_deleted_account_ids st_create.2.
Proof.
  apply (rejected_command_changes_nothing 7 0 (demo_create "c9" "carol") st_create _
    (EAccountManagement (AccountAlreadyExist "carol"))); reflexivity.
Defined.

Lemma accepted_command_recorded_witness :
  last_seq_num st_transfer.1 = 1 ∧ eh_seq_num (event_header (last_event st_transfer)) = 1 ∧
  eh_log_index (event_header (last_event st_transfer)) = 6 ∧
  get_seq_num st_transfer.1 "t1" = Returns (Some 1) ∧
  get_event st_transfer.1 1 = Returns (Some (last_event st_transfer)).
Proof.
  destruct (accepted_command_recorded demo_ledger demo_state 6 0
    (demo_transfer "t1" "alice" "bob" "12.5") st_transfer (last_event st_transfer))
    as (H1 & H2 & _ & H4 & H5).
  - apply demo_represents.
  - reflexivity.
  - reflexivity.
  - reflexivity.
  - reflexivity.
  - reflexivity.
  - split; [exact H1|]. rewrite H2. split; [reflexivity|]. split; [reflexivity|].
    split; [exact H4|exact H5].
Defined.

Lemma command_conserves_money_witness :
  ledger_total (accounts st_transfer.1) = ledger_total (accounts demo_state.1) ∧
  (available_of <$> accounts st_transfer.1 !! "alice"%string) = Some "-12.5"%string ∧
  (available_of <$> accounts st_transfer.1 !! "bob"%string) = Some "12.5"%string.
Proof.
  split; [|split; reflexivity].
  rewrite (command_conserves_money demo_ledger demo_state 6 0
    (demo_transfer "t1" "alice" "bob" "12.5")
    (default (create_account_request {| create_header := None; create_account_config := None |})
       (request (get_or_default (cmd_payload (demo_transfer "t1" "alice" "bob" "12.5")))))
    st_transfer); [|apply demo_represents|reflexivity..].
  apply Qcplus_0_r.
Defined.

Lemma apply_entry_conserves_money_witness :
  ledger_total (accounts st_entry.1) = ledger_total (accounts demo_state.1).
Proof.
  apply (apply_entry_conserves_money demo_state demo_entry).
  - apply demo_replica.
  - reflexivity.
  - reflexivity.
  - reflexivity.
  - discriminate.
  - reflexivity.
Defined.

Definition self_transfer_request : TransferRequest :=
  {| transfer_dedup_id := "t2";
     transfer_spec := Some {| ts_amount := "7"; ts_from_account_id := "bob";
                              ts_to_account_id := "bob"; ts_metadata := "" |} |}.

Lemma self_transfer_destroys_amount_witness :
  let res := handle_transfer self_transfer_request 6 0 demo_state in
  is_ok res.1 = true ∧
  ledger_total (accounts res.2.1) = (ledger_total (accounts demo_state.1) - money "7")%Qc ∧
  money "7" ≠ 0%Qc.
Proof.
  split; [reflexivity|]. split; [|discriminate].
  apply (self_transfer_destroys_amount demo_ledger demo_state 6 0 self_transfer_request
    (ok_or_default (handle_transfer self_transfer_request 6 0 demo_state).1)).
  - apply demo_represents.
  - reflexivity.
  - reflexivity.
Defined.

Definition double_batch_request : BatchBalanceOperationRequest :=
  {| batch_dedup_id := "b1";
     balance_operation_spec := [{| bos_account_id := "bob"; bos_amount := "5" |};
                                {| bos_account_id := "bob"; bos_amount := "2" |}] |}.


(** ** Tombstones are visible *)

(** Whether each command handled so far was accepted. *)
Definition accepted (st : StateMachine * ApplyContext) : list bool :=
  (λ ie, is_ok (ie_event ie)) <$> inflight_event_tx st.2.

(** The state of an account, if it is known. *)
Definition state_in (id : string) (st : StateMachine * ApplyContext) : option AccountState :=
  acc_state <$> accounts st.1 !! id.

(** Create and delete an account in one entry and create it again in the next,
    with or without a flush in between. *)
Definition recreate (flush_between : bool) : run (list bool) :=
  st ← apply_entry 6 [demo_create "c1" "carol"; demo_delete "d1" "carol"] demo_state;
  st ← (if flush_between then flush 200 st else Returns st);
  st ← apply_entry 7 [demo_create "c2" "carol"] st;
  Returns (accepted st).

(** Delete an account and then update its limits; the account in memory after the
    flush, and after recovering from the same disk. *)
Definition update_deleted : run (list bool * option AccountState * option AccountState) :=
  st ← apply_entry 6 [demo_create "c1" "carol"; demo_delete "d1" "carol";
                      demo_update "u1" "carol"] demo_state;
  st ← flush 200 st;
  recovered ← recover_from_db (rocksdb st.1) 10 300;
  Returns (accepted st, state_in "carol" st, state_in "carol" recovered).

(** Replicas that apply the same log entries can answer differently: an
    account is created and deleted in one entry and created again in the next;
    the replica that flushed in between accepts the second creation, the replica
    that had not flushed yet rejects it, since the deleted account is still in
    its memory.  When a replica flushes depends on its clock. *)
Theorem flush_timing_is_visible :
  recreate true = Returns [true; true; true] ∧ recreate false = Returns [true; true; false].
Proof. split; vm_compute; reflexivity. Qed.

(** Updating the limits of a deleted account before the next flush is
    accepted and brings the account back on disk: the flush writes it and drops
    it from memory, so a replica that recovers from that disk has an account, in
    state Deleted, that the replica that did not crash does not have. *)
Theorem deleted_account_reappears :
  update_deleted = Returns ([true; true; true], None, Some Deleted).
Proof. vm_compute. reflexivity. Qed.

(** ** Garbage collection *)

Definition st_flushed : StateMachine * ApplyContext := result_of (flush 200 st_entry).

Lemma st_flushed_inv : ∃ w, entry_inv w 2 w st_flushed.
Proof.
  destruct st_entry_replica as (w0 & last0 & w & Hinv & Hz).
  destruct (flush_spec w0 last0 w st_entry 200 Hinv Hz) as (st1 & Hf & Hi & _); [reflexivity|].
  assert (st_flushed = st1) as -> by (unfold st_flushed; by rewrite Hf).
  exists w. exact Hi.
Qed.

Definition demo_gc_config (limit batch : Z) : EventLogGCConfig :=
  {| poll_interval_millis := 1000; count_limit := limit; gc_batch_size := batch;
     percentage := DEFAULT_GC_PERCENTAGE |}.

Lemma gc_truncates_witness :
  ∃ d' w, gc 5 (demo_gc_config 2 1) 0 2 (rocksdb st_flushed.1) = Returns (Some d') ∧
    durable (db_get d' CF_DEFAULT) (w_gc 1 2 w) 6 2 ∧
    read_hard_state_from_db d' PERSISTED_FIRST_SEQ_NUM = Returns 2.
Proof.
  destruct st_flushed_inv as [w Hinv].
  destruct (gc_truncates (demo_gc_config 2 1) 0 2 (rocksdb st_flushed.1) w 6 2 5)
    as (d' & Hgc & Hd & Hf).
  - exact (ei_disk _ _ _ _ Hinv).
  - reflexivity.
  - discriminate.
  - discriminate.
  - discriminate.
  - exists d', w. split; [exact Hgc|]. split; [exact Hd|]. apply Hf. reflexivity.
Defined.

Lemma gc_zero_batch_size_never_ends_witness :
  gc 100 (demo_gc_config 2 0) 0 2 (rocksdb st_flushed.1) = Returns None.
Proof.
  destruct st_flushed_inv as [w Hinv].
  apply (gc_zero_batch_size_never_ends (demo_gc_config 2 0) 0 2 (rocksdb st_flushed.1) w 6 2).
  - exact (ei_disk _ _ _ _ Hinv).
  - reflexivity.
  - split; [discriminate|reflexivity].
  - reflexivity.
Defined.

Lemma should_gc_bounds_witness :
  should_gc (demo_gc_config 100 10) 7 150 = Returns (Some 17) ∧ 17 ≤ 150 ∧ 90 ≤ 150 - 17.
Proof.
  split; [vm_compute; reflexivity|].
  destruct (should_gc_bounds (demo_gc_config 100 10) 7 150 17) as (_ & _ & _ & H4 & H5).
  - split; [discriminate|reflexivity].
  - split; [discriminate|reflexivity].
  - split; vm_compute; discriminate.
  - vm_compute. reflexivity.
  - split; [exact H4|]. vm_compute in H5. vm_compute. exact H5.
Defined.

Lemma gc_keeps_replica_witness :
  ∃ d', gc 5 (demo_gc_config 2 1) 0 2 (rocksdb st_flushed.1) = Returns (Some d') ∧
    accounts (set_rocksdb d' st_flushed.1) = accounts st_flushed.1 ∧
    get_event (set_rocksdb d' st_flushed.1) 2 = get_event st_flushed.1 2.
Proof.
  destruct st_flushed_inv as [w Hinv].
  destruct (gc_keeps_replica w 2 w st_flushed (demo_gc_config 2 1) 0 2 5)
    as (d' & Hgc & _ & Hacc & Hev & _).
  - exact Hinv.
  - reflexivity.
  - discriminate.
  - discriminate.
  - discriminate.
  - discriminate.
  - exists d'. split; [exact Hgc|]. split; [exact Hacc|]. apply Hev; [|discriminate].
    split; [discriminate|reflexivity].
Defined.

Lemma gc_between_reads_panics_witness :
  ∃ d', gc 5 (demo_gc_config 2 1) 0 2 (rocksdb st_flushed.1) = Returns (Some d') ∧
    interleaved_duplicate_command st_flushed.1 (set_rocksdb d' st_flushed.1)
      (demo_transfer "t1" "alice" "bob" "12.5") = Panics.
Proof.
  destruct st_flushed_inv as [w Hinv].
  destruct (gc_loop_spec 5 (demo_gc_config 2 1) 2 1 (rocksdb st_flushed.1) w _ _
    (ei_disk _ _ _ _ Hinv)) as (d' & Hgc & _); [reflexivity|discriminate..|].
  exists d'. split; [exact Hgc|].
  apply (gc_between_reads_panics w 2 w st_flushed (demo_gc_config 2 1) 0 2 5 d'
    (demo_transfer "t1" "alice" "bob" "12.5") 1).
  - exact Hinv.
  - reflexivity.
  - discriminate.
  - discriminate.
  - discriminate.
  - discriminate.
  - exact Hgc.
  - vm_compute. reflexivity.
  - split; [discriminate|reflexivity].
Defined.
