(* ===== verification/Replication.v ===== *)
(** * The replicated wallet

    The wallet fed by the consumer of the raft log: a replica that recovers from its
    disk and consumes from there has the ledger of the committed log, so that
    replicas that applied the same prefix agree, whatever they flushed and whenever
    they crashed. *)

From S2P Require Import Prelude Bytes Keys Proto Raftpb Errors RefDecimal BalanceCalculator Account.
From S2P Require Import RocksEngine RefRocks RefCodec RaftLog PeerStorage StorageSpec RaftCmd Batch.
From S2P Require Import ApplySpec Peer RaftKv Pipeline Internal.
From S2P Require Import RocksDBState MessageBroker MessageQueue LogConsumer StateMachine Wallet.
From S2P Require Import Ledger Durability Correctness Scenarios.
Local Open Scope Z_scope.

Section replication.
Context {BD : BigDecimal} {BDL : BigDecimalLaws BD} {R : RocksDB} {RL : RocksDBLaws R}.
Context `{!ProtoMessage AccountPb, !ProtoMessage EventPb}.
Context `{!ProtoRoundTrip AccountPb, !ProtoRoundTrip EventPb}.
Context `{!ProtoMessage Entry, !ProtoRoundTrip Entry, !ProtoEmpty Entry}.
Context `{!ProtoMessage RaftApplyState, !ProtoRoundTrip RaftApplyState}.

(** The committed log and how its entries are parsed. *)
Context (parser : Entry → run (Z * list CommandPb)) (C : gmap Z Entry).
Hypothesis C_parses : ∀ i x, C !! i = Some x →
  entry_index x = i ∧ ∃ cs, parser x = Returns (i, cs) ∧ forallb command_wf cs = true.

Definition empty_ledger : Ledger :=
  {| lg_accounts := ∅; lg_dedup := ∅; lg_events := ∅; lg_seq := 0 |}.

(** [L] is the ledger after the entry at index [i]. *)
Definition ledger_at (i : Z) (L : Ledger) (rs : list InflightEvent) : Prop :=
  ∃ es, delivered parser C (default_value APPLIED_INDEX + 1) (i + 1) es ∧
    spec_entries empty_ledger es = Returns (L, rs).

Lemma C_parses' i x : C !! i = Some x → entry_index x = i ∧ ∃ cs, parser x = Returns (i, cs).
Proof. intros (? & cs & ? & _)%C_parses. eauto. Qed.

Lemma delivered_unique low high es es' :
  delivered parser C low high es → delivered parser C low high es' → es = es'.
Proof.
  intros (xs & Hx & Hd) (xs' & Hx' & Hd'). rewrite Hx in Hx'. injection Hx' as <-. clear Hx.
  revert es' Hd'. induction Hd as [|x le xs es Hl _ IH]; intros es' Hd'.
  - by apply Forall2_nil_inv_l in Hd' as ->.
  - apply Forall2_cons_inv_l in Hd' as (le' & es2 & Hl' & Hd' & ->). f_equal; [|by apply IH].
    unfold delivers in *. rewrite Hl in Hl'. destruct le, le'. by injection Hl' as -> ->.
Qed.

Lemma ledger_at_unique i L rs L' rs' : ledger_at i L rs → ledger_at i L' rs' → L = L' ∧ rs = rs'.
Proof.
  intros (es & Hd & Hs) (es' & Hd' & Hs'). rewrite (delivered_unique _ _ _ _ Hd Hd') in Hs.
  rewrite Hs in Hs'. by injection Hs' as -> ->.
Qed.

Lemma delivered_contiguous low high es :
  delivered parser C low high es → contiguous (low - 1) es ∧ entries_wf es = true ∧
  (low ≤ high → Z.of_nat (length es) = high - low).
Proof.
  intros Hd. pose proof (delivered_indices parser C C_parses' _ _ _ Hd) as Hidx.
  split_and!.
  - clear Hd. remember (high - low) as n eqn:Hn. clear Hn. revert low n Hidx.
    induction es as [|e es IH]; intros low n Hidx; [done|]. cbn in Hidx |- *.
    assert (0 < n) as Hn.
    { destruct (Z.lt_ge_cases 0 n); [done|]. by rewrite seqZ_nil in Hidx by lia. }
    rewrite seqZ_cons in Hidx by done. injection Hidx as He Hes. split; [lia|].
    replace (le_index e) with (Z.succ low - 1) by lia. by apply (IH _ (Z.pred n)).
  - destruct Hd as (xs & Hx & Hd). unfold log_range in Hx. apply mapM_Some in Hx.
    clear Hidx. revert es Hd. induction Hx as [|i x idx xs Hi _ IH]; intros es Hd.
    + by apply Forall2_nil_inv_l in Hd as ->.
    + apply Forall2_cons_inv_l in Hd as (le & es' & Hl & Hd & ->). cbn. rewrite IH by done.
      destruct (C_parses i x Hi) as (_ & cs & Hp & Hwf). unfold delivers in Hl. rewrite Hp in Hl.
      injection Hl as _ <-. by rewrite Hwf.
  - intros Hle. apply (f_equal length) in Hidx. rewrite length_fmap, length_seqZ in Hidx. lia.
Qed.

Lemma spec_entries_app L es es' L1 rs1 L2 rs2 :
  spec_entries L es = Returns (L1, rs1) → spec_entries L1 es' = Returns (L2, rs2) →
  spec_entries L (es ++ es') = Returns (L2, rs1 ++ rs2).
Proof.
  revert L rs1. induction es as [|e es IH]; intros L rs1 H1 H2; cbn in *.
  - by injection H1 as -> <-.
  - apply run_bind_Returns in H1 as ([L' rs] & Hs & H1). rewrite Hs. cbn.
    apply run_bind_Returns in H1 as ([L'' rs'] & Hs' & [= -> <-]).
    rewrite (IH _ _ Hs' H2). cbn. by rewrite app_assoc.
Qed.

(** What a replica recovers from and consumes. *)
Record Feed := {
  fd_db : DB; fd_batch : Z; fd_now : Z; fd_region : Region;
  fd_its : list (Engines * Engines * Engines); fd_applieds : list Z }.

(** The disk holds the wallet of the log up to [applied], the iterations of the
    consumer start there, and the counters do not run out. *)
Record feed_ok (f : Feed) (w : Wallet) (applied last : Z) (rs : list InflightEvent) : Prop := {
  fo_region : is_u64 (region_id (fd_region f));
  fo_durable : durable (db_get (fd_db f) CF_DEFAULT) w applied last;
  fo_applied : default_value APPLIED_INDEX ≤ applied;
  fo_ledger : ledger_at applied {| lg_accounts := w_accounts w; lg_dedup := w_dedup w;
                                   lg_events := w_events w; lg_seq := last |} rs;
  fo_consuming : consuming_ok (fd_region f) C (applied + 1) (fd_its f) (fd_applieds f);
  fo_bounds high es : delivered parser C (applied + 1) high es →
    applied + Z.of_nat (length es) ≤ u64_max ∧ last + commands_in es ≤ u64_max }.

(** What a replica does with them. *)
Definition replica_run (f : Feed) (st : ApplyLoop) (final : Z) : Prop :=
  ∃ st0 es,
    recover_from_db (fd_db f) (fd_batch f) (fd_now f) = Returns st0 ∧
    start_consuming parser (fd_region f) (fd_its f) (applied_index st0.1 + 1) = Returns (es, final) ∧
    apply_entries es (apply_loop_new st0) = Returns st.

Lemma replica_run_spec f w applied last rs0 :
  feed_ok f w applied last rs0 →
  ∃ st final L rs w',
    replica_run f st final ∧ sm_inv w' (al_state st) ∧ L = ledger_of w' (al_state st) ∧
    ledger_at (final - 1) L (rs0 ++ rs) ∧ al_applied_index st = final - 1 ∧
    inflight_event_tx (al_state st).2 = rs ∧
    ∀ A, Forall (λ a, A ≤ a) (fd_applieds f) →
      Z.min A (applied + 1001 * Z.of_nat (length (fd_its f))) ≤ al_applied_index st.
Proof.
  intros [Hg Hd Hle (es0 & Hd0 & Hs0) Hc Hb].
  pose proof (du_applied_u64 _ _ _ _ Hd) as [Ha _].
  destruct (start_consuming_spec parser (fd_region f) C C_parses' (applied + 1) (fd_its f)
    (fd_applieds f) Hg ltac:(lia) Hc) as (es & final & Hrun & Hfin & Hdel & Hlive).
  destruct (delivered_contiguous _ _ _ Hdel) as (Hcon & Hwf & Hlen).
  replace (applied + 1 - 1) with applied in Hcon by lia. destruct (Hb _ _ Hdel) as [Hb1 Hb2].
  destruct (recover_run (fd_db f) w applied last (fd_batch f) (fd_now f) es Hd Hcon Hwf Hb1 Hb2)
    as (st0 & w' & st' & rs & Hr & Happ & Hspec & Hi & Ha' & _ & Ht).
  assert (applied_index st0.1 = applied) as Ha0.
  { destruct (recover_spec (fd_db f) w applied last (fd_batch f) (fd_now f) Hd)
      as (st0' & Hr' & _ & _ & _ & Ha0 & _). rewrite Hr in Hr'. by injection Hr' as ->. }
  eexists _, final, (ledger_of w' st'), rs, w'. split.
  { exists st0, es. split; [done|]. rewrite Ha0. split; [done|]. exact Happ. }
  cbn. rewrite Ha'. split_and!; [by destruct Hi|done| |lia|done|].
  - exists (es0 ++ es). split; [|by eapply spec_entries_app].
    replace (final - 1 + 1) with final by lia. eapply delivered_app; [|exact Hd0|exact Hdel]. lia.
  - intros A HA. specialize (Hlive A HA). lia.
Qed.


End replication.

(** ** Two replicas of a concrete log *)

Module replication_demo.
(** Four clients, whose commands are proposed as one batch. *)
Definition client (i : Z) (c : CommandPb) : Client :=
  {| cl_payload := write_to_bytes c; cl_channel := i |}.
Definition clients : list Client := zip_with client [1; 2; 3; 4] demo_entry.
Definition commands : list (RaftCommand * Z) :=
  (λ c, (client_command demo.region 1 "canceled" c, 60)) <$> clients.
Definition built : RaftCommand :=
  default {| cmd_callback := Callback_None; cmd_request := default_instance |}
    (build (add_all peer_batch_new commands)).1.
Definition entry : Entry :=
  {| entry_type := EntryNormal; entry_term := 6; entry_index := 6;
     entry_data := write_to_bytes (cmd_request built);
     entry_context := []; entry_sync_log := false |}.
Definition C : gmap Z Entry := log_put [entry] ∅.
Definition parser : Entry → run (Z * list CommandPb) := parse_log_entry_to_prost.
Definition ap : RaftApplyState :=
  {| as_applied_index := 6; as_last_commit_index := 0; as_commit_index := 6;
     as_commit_term := 6; as_truncated_state := Some {| ts_index := 5; ts_term := 5 |} |}.
Definition e : Engines :=
  {| kv := write_opt (ref_empty : @DB RefRocks)
             (wb_put_msg_cf CF_RAFT (apply_state_key 1) ap wb_new);
     raft := (engine_append (ref_empty : @DB RefRocks) 1 [entry]).2 |}.
Definition feed (batch now : Z) (n : nat) : Feed :=
  {| fd_db := demo_db; fd_batch := batch; fd_now := now; fd_region := demo.region;
     fd_its := repeat (e, e, e) n; fd_applieds := repeat 6 n |}.

Lemma parsed : parser entry = Returns (6, demo_entry).
Proof. vm_compute. reflexivity. Qed.

Lemma log_lookup i : C !! i = if decide (i = 6) then Some entry else None.
Proof.
  unfold C. rewrite (log_put_lookup [entry] ∅ 6) by done. cbn [length].
  repeat case_decide; try lia; [|done]. by subst i.
Qed.

Lemma log_parses i x : C !! i = Some x →
  entry_index x = i ∧ ∃ cs, parser x = Returns (i, cs) ∧ forallb command_wf cs = true.
Proof.
  rewrite log_lookup. case_decide; [|done]. intros [= <-]. subst i. split; [done|].
  exists demo_entry. split; [apply parsed|]. vm_compute. reflexivity.
Qed.

Lemma feed_snap : snapshot demo.region C e ap.
Proof.
  split; [reflexivity|done|done|]. exists C. split.
  - apply (log_stored_append (R:=RefRocks) ref_empty wb_new 1 ∅ [entry]); [done| |].
    + by repeat constructor.
    + by apply consumer_demo.log_stored_none.
  - intros i Hi. cbn in Hi. rewrite log_lookup, decide_True by lia. eauto.
Qed.

Lemma range_cases high es :
  log_range C 6 high = Some es → es = [] ∨ es = [entry].
Proof.
  unfold log_range. intros H. destruct (Z.le_gt_cases (high - 6) 0).
  { rewrite seqZ_nil in H by lia. left. by injection H as <-. }
  rewrite seqZ_cons in H by lia. destruct (Z.le_gt_cases (high - 6) 1).
  { rewrite seqZ_nil in H by lia. right. by injection H as <-. }
  rewrite seqZ_cons in H by lia. done.
Qed.

Lemma iteration log_index : 6 ≤ log_index → iteration_ok demo.region C log_index 6 (e, e, e).
Proof. intros Hl. constructor. exists ap, ap, ap. pose proof feed_snap. split_and!; try done; cbn; lia. Qed.

Lemma feed_iterations n : consuming_ok demo.region C 6 (repeat (e, e, e) n) (repeat 6 n).
Proof.
  assert (∀ m, consuming_ok demo.region C 7 (repeat (e, e, e) m) (repeat 6 m)) as H7.
  { induction m as [|m IH]; cbn; constructor; [by apply iteration| |done].
    intros es [= <-]. done. }
  destruct n; cbn; constructor; [by apply iteration| |apply H7].
  intros es [->| ->]%range_cases; [done|]. vm_compute. reflexivity.
Qed.

Lemma feed_allowed batch now n : feed_ok parser C (feed batch now n) empty_wallet 5 0 [].
Proof.
  split; [done|apply (durable_empty demo_db), demo_db_get|done| |apply feed_iterations|].
  - exists []. split; [|done]. by exists [].
  - intros high es (xs & Hx & Hd). apply range_cases in Hx as [->| ->].
    + apply Forall2_nil_inv_l in Hd as ->. done.
    + apply Forall2_cons_inv_l in Hd as (le & es' & Hl & Hd & ->).
      apply Forall2_nil_inv_l in Hd as ->. unfold delivers in Hl. rewrite parsed in Hl.
      destruct le. injection Hl as <- <-. done.
Qed.
End replication_demo.


