(* ===== verification/Replica.v ===== *)
(** * The two threads of a replica

    The consumer of the raft log and the apply loop of the wallet run in threads of
    their own, with a bounded channel between them: [LogConsumer::run] and
    [LogEntryReceiver] of message_queue_adapter.rs, [ApplyLoop::run] of
    state_machine.rs.  Every interleaving of their actions is a run, and the process
    may crash between any two of them and start again from its disk. *)

From S2P Require Import Prelude Bytes Keys Proto Raftpb Errors RefDecimal BalanceCalculator Account.
From S2P Require Import RocksEngine RefRocks RefCodec RaftLog PeerStorage StorageSpec Internal.
From S2P Require Import RocksDBState MessageBroker MessageQueue LogConsumer StateMachine Wallet.
From S2P Require Import Ledger Durability Correctness Scenarios Replication Time.
Local Open Scope Z_scope.

(** ** The receiving end of the channel *)

Record MetaInfo := { send_time : Instant; recv_time : option Instant }.

Section receiver.
Context {TC : TimeCrate} {T : Type}.

Abbreviation Stamped := (MetaInfo * LogEntry T)%type.

(** [LogEntry::new]; [now] reads the coarse clock. *)
Definition log_entry_stamped (now : Timespec) (e : LogEntry T) : Stamped :=
  ({| send_time := MonotonicCoarse now; recv_time := None |}, e).

(** The queueing time is computed twice, once for nothing. *)
Definition enrich_meta_info (now : Timespec) (entry : Stamped) : run Stamped :=
  let recv := MonotonicCoarse now in
  _ ← duration_since recv (send_time entry.1);
  _ ← duration_since recv (send_time entry.1);
  Returns ({| send_time := send_time entry.1; recv_time := Some recv |}, entry.2).

(** [None] is [TryRecvError::Empty]; the sender lives as long as the process. *)
Definition log_try_recv (now : Timespec) (channel : list Stamped) : run (option Stamped * list Stamped) :=
  match channel with
  | [] => Returns (None, [])
  | x :: channel => x ← enrich_meta_info now x; Returns (Some x, channel)
  end.

(** One turn of the loop of [batch_recv]: the buffer, the channel, and whether the
    loop ends. *)
Definition batch_recv_step (max_count : nat) (now : Timespec) (buffer channel : list Stamped) :
    run (list Stamped * list Stamped * bool) :=
  if (length buffer <? max_count)%nat then
    '(r, channel) ← log_try_recv now channel;
    match r with
    | Some entry => Returns (buffer ++ [entry], channel, false)
    | None => Returns (buffer, channel, true)
    end
  else Returns (buffer, channel, true).

(** What was sent was stamped with the coarse clock. *)
Definition stamped (x : Stamped) : Prop := ∃ t, send_time x.1 = MonotonicCoarse t.

(** Readings of the coarse clock can be subtracted in any order. *)
Lemma enrich_total now x : stamped x → ∃ x', enrich_meta_info now x = Returns x' ∧ x'.2 = x.2.
Proof. intros [t Ht]. unfold enrich_meta_info. rewrite Ht. cbn. eauto. Qed.

Local Arguments enrich_meta_info : simpl never.

(** A turn moves the first entry of the channel to the end of the buffer, or ends
    the loop when there is none or the buffer is full. *)
Lemma batch_recv_step_spec max_count now buffer channel :
  Forall stamped channel →
  ∃ buffer' channel' ready,
    batch_recv_step max_count now buffer channel = Returns (buffer', channel', ready) ∧
    buffer'.*2 ++ channel'.*2 = buffer.*2 ++ channel.*2 ∧ Forall stamped channel' ∧
    if ready then buffer' = buffer ∧ channel' = channel ∧ (channel = [] ∨ max_count ≤ length buffer)%nat
    else (length channel = S (length channel') ∧ length buffer' = S (length buffer) ∧
          length buffer < max_count)%nat.
Proof.
  intros Hst. unfold batch_recv_step. destruct (Nat.ltb_spec (length buffer) max_count) as [Hlt|Hge].
  - destruct Hst as [|x channel Hx Hst]; cbn.
    { exists buffer, [], true. split_and!; auto. }
    destruct (enrich_total now x Hx) as (x' & -> & Hx'). cbn. eexists _, channel, false.
    split; [done|]. rewrite fmap_app, length_app, <-app_assoc. cbn. rewrite Hx'.
    split_and!; [done|done|done|lia|done].
  - exists buffer, channel, true. split_and!; auto.
Qed.
End receiver.

(** ** The threads *)

(** The consumer has [rt_outbox] of its last read left to send and goes on at
    [rt_log_index]; the apply loop has received [rt_buffer] of the batch it collects,
    which is complete when [rt_ready]. *)
Record Threads `{BD : BigDecimal, R : RocksDB} := {
  rt_log_index : Z;
  rt_outbox : list (LogEntry CommandPb);
  rt_channel : list (MetaInfo * LogEntry CommandPb);
  rt_buffer : list (MetaInfo * LogEntry CommandPb);
  rt_ready : bool;
  rt_loop : ApplyLoop }.

Section threads.
Context {BD : BigDecimal} {BDL : BigDecimalLaws BD} {R : RocksDB} {RL : RocksDBLaws R}.
Context {TC : TimeCrate}.
Context `{!ProtoMessage AccountPb, !ProtoMessage EventPb}.
Context `{!ProtoRoundTrip AccountPb, !ProtoRoundTrip EventPb}.
Context `{!ProtoMessage Entry, !ProtoRoundTrip Entry, !ProtoEmpty Entry}.
Context `{!ProtoMessage RaftApplyState, !ProtoRoundTrip RaftApplyState}.
Context (parser : Entry → run (Z * list CommandPb)) (region : Region).

(** [sync_channel] of [log_consumer_buffer_size]. *)
Context (capacity : nat).

(** [ApplyLoop::new]: the consumer starts behind the last flush. *)
Definition threads_new (st : StateMachine * ApplyContext) : Threads :=
  let l := apply_loop_new st in
  {| rt_log_index := al_applied_index l +u 1; rt_outbox := []; rt_channel := [];
     rt_buffer := []; rt_ready := false; rt_loop := l |}.

(** A turn of [start_consuming] up to its first send. *)
Definition consumer_read (it : Engines * Engines * Engines) (s : Threads) : run Threads :=
  '(sent, next) ← consume_once parser region it.1.1 it.1.2 it.2 (rt_log_index s);
  Returns {| rt_log_index := next; rt_outbox := sent; rt_channel := rt_channel s;
             rt_buffer := rt_buffer s; rt_ready := rt_ready s; rt_loop := rt_loop s |}.

(** One [send]; [None] when it blocks. *)
Definition consumer_send (now : Timespec) (s : Threads) : option Threads :=
  match rt_outbox s with
  | e :: outbox =>
      if (length (rt_channel s) <? capacity)%nat then
        Some {| rt_log_index := rt_log_index s; rt_outbox := outbox;
                rt_channel := rt_channel s ++ [log_entry_stamped now e];
                rt_buffer := rt_buffer s; rt_ready := rt_ready s; rt_loop := rt_loop s |}
      else None
  | [] => None
  end.

(** [run] of the apply loop: it collects a batch of at most 1000 entries, *)
Definition loop_recv (now : Timespec) (s : Threads) : run Threads :=
  '(buffer, channel, ready) ← batch_recv_step 1000 now (rt_buffer s) (rt_channel s);
  Returns {| rt_log_index := rt_log_index s; rt_outbox := rt_outbox s; rt_channel := channel;
             rt_buffer := buffer; rt_ready := ready; rt_loop := rt_loop s |}.
(** and applies it. *)
Definition loop_apply (now : Z) (s : Threads) : run Threads :=
  l ← apply_loop_iter (rt_buffer s).*2 now (rt_loop s);
  Returns {| rt_log_index := rt_log_index s; rt_outbox := rt_outbox s; rt_channel := rt_channel s;
             rt_buffer := []; rt_ready := false; rt_loop := l |}.

(** The process starts again: what was not flushed is gone. *)
Definition restart (batch now : Z) (s : Threads) : run Threads :=
  st ← recover_from_db (rocksdb (al_state (rt_loop s)).1) batch now;
  Returns (threads_new st).

(** ** What the replica may be after an entry *)

(** The committed log. *)
Context (C : gmap Z Entry).

(** A flush drops accounts that are marked as deleted. *)
Definition purge (ids : list string) (L : Ledger) : Ledger :=
  {| lg_accounts := foldl (λ m id, delete id m) (lg_accounts L) ids;
     lg_dedup := lg_dedup L; lg_events := lg_events L; lg_seq := lg_seq L |}.
Definition deleted_in (L : Ledger) (id : string) : Prop :=
  ∃ a, lg_accounts L !! id = Some a ∧ acc_state a = Deleted.

(** [L] is a ledger of the log up to index [i], and [rs] the answers: the commands of
    the log are carried out one after the other, and between two entries accounts that
    are marked as deleted may be dropped. *)
Inductive ledger_run : Z → Ledger → list InflightEvent → Prop :=
| run_start : ledger_run (default_value APPLIED_INDEX) empty_ledger []
| run_entry i L rs x cs L' rs' :
    ledger_run i L rs → C !! (i + 1) = Some x → parser x = Returns (i + 1, cs) →
    spec_commands L (i + 1) 0 cs = Returns (L', rs') → ledger_run (i + 1) L' (rs ++ rs')
| run_purge i L rs ids :
    ledger_run i L rs → Forall (deleted_in L) ids → ledger_run i (purge ids L) rs.

(** The entries of the log parse, no command updates the limits of a deleted account
    that is still in memory, and the counters do not run out. *)
Record log_admissible : Prop := {
  la_parses i x : C !! i = Some x →
    entry_index x = i ∧ ∃ cs, parser x = Returns (i, cs) ∧ forallb command_wf cs = true;
  la_entry i L rs x cs : ledger_run i L rs → C !! (i + 1) = Some x → parser x = Returns (i + 1, cs) →
    i + 1 < u64_max ∧ lg_seq L + Z.of_nat (length cs) ≤ u64_max ∧ configs_ok L (i + 1) 0 cs = true }.
Hypothesis admissible : log_admissible.

Lemma ledger_run_range i L rs : ledger_run i L rs → default_value APPLIED_INDEX ≤ i < u64_max.
Proof.
  induction 1 as [|i L rs x cs L' rs' Hrun IH Hx Hp _|]; [done| |done].
  destruct (la_entry admissible _ _ _ _ _ Hrun Hx Hp) as [? _]. lia.
Qed.

(** When no account is ever deleted, the ledger of the log is the only one. *)
Lemma ledger_run_at i L rs :
  (∀ j L' rs', ledger_at parser C j L' rs' → ∀ id, ¬ deleted_in L' id) →
  ledger_run i L rs → ledger_at parser C i L rs.
Proof.
  intros Hno Hrun. induction Hrun as [|i L rs x cs L' rs' Hrun IH Hx Hp Hs|i L rs ids Hrun IH Hids].
  - exists []. split; [|done]. by exists [].
  - destruct IH as (es & Hd & Hes). exists (es ++ [{| le_index := i + 1; le_messages := cs |}]).
    pose proof (ledger_run_range _ _ _ Hrun). split.
    + eapply delivered_app; [|exact Hd|]; [lia|]. exists [x]. split.
      * unfold log_range. rewrite seqZ_cons, seqZ_nil by lia. cbn. by rewrite Hx.
      * by constructor.
    + eapply spec_entries_app; [done|]. cbn. rewrite Hs. cbn. by rewrite app_nil_r.
  - destruct ids as [|id ids]; [by destruct L|]. apply Forall_cons_1 in Hids as [Hid _].
    by destruct (Hno _ _ _ IH id).
Qed.

Lemma delivered_cons low high e es :
  low < high → delivered parser C low high (e :: es) →
  ∃ x, C !! low = Some x ∧ parser x = Returns (low, le_messages e) ∧ le_index e = low ∧
    delivered parser C (low + 1) high es.
Proof.
  intros Hlt (xs & Hx & Hd). unfold log_range in Hx. rewrite seqZ_cons in Hx by lia.
  apply mapM_Some, Forall2_cons_inv_l in Hx as (x & xs' & Hl & Hx & ->).
  apply Forall2_cons_1 in Hd as [He Hd]. exists x.
  destruct (la_parses admissible _ _ Hl) as (_ & cs & Hp & _). unfold delivers in He.
  rewrite Hp in He. injection He as Hi Hm. subst cs. split_and!; [done|done|done|].
  exists xs'. split; [|done]. apply mapM_Some.
  by replace (high - (low + 1)) with (Z.pred (high - low)) by lia.
Qed.
Lemma delivered_length low high es :
  low ≤ high → delivered parser C low high es → Z.of_nat (length es) = high - low.
Proof. intros Hle Hd. by apply (delivered_contiguous parser C (la_parses admissible) _ _ _ Hd). Qed.

(** The answers of the entries behind index [start], as the log gives them. *)
Inductive answers_since (start : Z) : Z → list InflightEvent → Prop :=
| since_start : answers_since start start []
| since_entry i L rs0 x cs L' rs rs' :
    answers_since start i rs → ledger_run i L rs0 → C !! (i + 1) = Some x →
    parser x = Returns (i + 1, cs) → spec_commands L (i + 1) 0 cs = Returns (L', rs') →
    answers_since start (i + 1) (rs ++ rs').

(** The state of the wallet: its disk and its memory are ledgers of the log. *)
Record wallet_run (st : StateMachine * ApplyContext) : Prop := {
  wr_inv : ∃ w0 last0 w rs0 rs,
    entry_inv w0 last0 w st ∧ zombie_free w st ∧
    ledger_run (flushed_applied_index st.2)
      {| lg_accounts := w_accounts w0; lg_dedup := w_dedup w0; lg_events := w_events w0;
         lg_seq := last0 |} rs0 ∧
    ledger_run (applied_index st.1) (ledger_of w st) (rs ++ inflight_event_tx st.2);
  wr_batch : 0 < batch_size st.2 }.

(** Answers are only added, those of the log. *)
Definition answers_extend (st st' : StateMachine * ApplyContext) : Prop :=
  inflight_event_tx st.2 `prefix_of` inflight_event_tx st'.2 ∧
  ∀ start, answers_since start (applied_index st.1) (inflight_event_tx st.2) →
    answers_since start (applied_index st'.1) (inflight_event_tx st'.2).
Global Instance answers_extend_preorder : PreOrder answers_extend.
Proof.
  split; [done|]. intros st1 st2 st3 [H1 H1'] [H2 H2']. split; [by etrans|eauto].
Qed.

Lemma wallet_entry st x cs :
  wallet_run st → C !! (applied_index st.1 + 1) = Some x →
  parser x = Returns (applied_index st.1 + 1, cs) →
  ∃ st', apply_entry (applied_index st.1 + 1) cs st = Returns st' ∧ wallet_run st' ∧
    applied_index st'.1 = applied_index st.1 + 1 ∧ answers_extend st st'.
Proof.
  intros [(w0 & last0 & w & rs0 & rs & Hinv & Hz & Hd & Hm) Hb] Hx Hp.
  destruct (la_entry admissible _ _ _ _ _ Hm Hx Hp) as (Hmax & Hseq & Hcfg). cbn in Hseq.
  destruct (la_parses admissible _ _ Hx) as (_ & cs' & Hp' & Hwf).
  rewrite Hp in Hp'. injection Hp' as <-. pose proof (ei_applied_u64 _ _ _ _ Hinv) as [??].
  destruct (apply_entry_spec w0 last0 w st _ cs Hinv eq_refl ltac:(unfold u64_max in *; split; lia)
    Hwf Hseq) as (w' & st' & rs' & Ha & Hs & Hinv' & Hi & Hf & _ & Hz' & Ht).
  exists st'. split_and!; [done| |done|].
  2: { split; [rewrite Ht; by apply prefix_app_r|]. intros start Hans. rewrite Hi, Ht.
       by eapply since_entry. }
  split.
  - exists w0, last0, w', rs0, rs. rewrite Hf, Hi, Ht, app_assoc. split_and!; [done|auto|done|].
    by eapply run_entry.
  - by rewrite (apply_entry_batch w st _ cs st' (ei_sm _ _ _ _ Hinv) Hwf Hseq Ha).
Qed.

Lemma wallet_entries es st high :
  wallet_run st → applied_index st.1 + 1 ≤ high →
  delivered parser C (applied_index st.1 + 1) high es →
  ∃ st', apply_entries es {| al_state := st; al_applied_index := applied_index st.1 |}
         = Returns {| al_state := st'; al_applied_index := applied_index st'.1 |} ∧
    wallet_run st' ∧ applied_index st'.1 + 1 = high ∧ answers_extend st st'.
Proof.
  revert st. induction es as [|e es IH]; intros st Hst Hle Hd.
  { pose proof (delivered_length _ _ _ Hle Hd) as Hl. cbn in Hl. exists st. split_and!; [done..|lia|done]. }
  pose proof (delivered_length _ _ _ Hle Hd) as Hl. cbn [length] in Hl.
  apply delivered_cons in Hd as (x & Hx & Hp & He & Hd); [|lia].
  destruct (wallet_entry st x (le_messages e) Hst Hx Hp) as (st1 & Ha & Hst1 & Hi & Hp1).
  destruct (IH st1 Hst1) as (st' & Hr & Hst' & Hh & Hp'); [lia|by rewrite Hi|].
  exists st'. split_and!; [|done..|by etrans]. cbn. destruct Hst as [(?&?&?&?&?& Hinv &_&_& Hm) _].
  pose proof (ei_applied_u64 _ _ _ _ Hinv) as [??]. apply ledger_run_range in Hm.
  unfold u64_max in *. rewrite u64_add_small, bool_decide_eq_true_2 by (try split; lia).
  cbn. rewrite He, Ha. cbn. by rewrite <-Hi.
Qed.

Lemma wallet_flush st now :
  wallet_run st →
  ∃ st', maybe_flush now st = Returns st' ∧ wallet_run st' ∧ applied_index st'.1 = applied_index st.1 ∧
    answers_extend st st'.
Proof.
  intros Hst. unfold maybe_flush. destruct (should_flush now st) eqn:Hshould; [|by exists st].
  destruct Hst as [(w0 & last0 & w & rs0 & rs & Hinv & Hz & Hd & Hm) Hb].
  pose proof (ei_applied_u64 _ _ _ _ Hinv) as Hu. pose proof (ei_order _ _ _ _ Hinv) as Ho.
  pose proof (ledger_run_range _ _ _ Hd) as Hr. cbn in Hr.
  assert (flushed_applied_index st.2 < applied_index st.1) as Hlt.
  { unfold should_flush in Hshould. destruct st as [s c]. cbn in *.
    rewrite u64_sub_le in Hshould by (done || lia).
    destruct (Z.leb_spec (batch_size c) (applied_index s - flushed_applied_index c)); [lia|].
    destruct (Z.ltb_spec (flushed_applied_index c) (applied_index s)); [done|done]. }
  destruct (flush_spec w0 last0 w st now Hinv Hz Hlt)
    as (st' & Hf & Hinv' & Ha & Hl & Hi & Hfl & Htbd & _ & Ht).
  exists st'. split_and!; [done| |done|by unfold answers_extend; rewrite Hi, Ht].
  split; [|by rewrite (flush_batch _ _ _ Hf)].
  assert (ledger_run (applied_index st.1)
    {| lg_accounts := w_accounts w; lg_dedup := w_dedup w; lg_events := w_events w;
       lg_seq := last_seq_num st.1 |} (rs ++ inflight_event_tx st.2)) as Hp.
  { rewrite <-(purge_accounts w st (ei_sm _ _ _ _ Hinv) Hz).
    apply (run_purge _ (ledger_of w st) _ (to_be_deleted_account_ids st.2) Hm).
    apply list.Forall_forall. intros id Hid.
    destruct (inv_tombstone _ _ (ei_sm _ _ _ _ Hinv) id Hid) as (a & ? & ? & _). by exists a. }
  exists w, (last_seq_num st.1), w, (rs ++ inflight_event_tx st.2), rs.
  unfold ledger_of. rewrite Hfl, Hi, Ha, Hl, Ht. split_and!; [done| |done|done].
  intros id. rewrite Htbd. by intros []%not_elem_of_nil.
Qed.

Lemma wallet_recover st batch now :
  wallet_run st → 0 < batch →
  ∃ st', recover_from_db (rocksdb st.1) batch now = Returns st' ∧ wallet_run st' ∧
    applied_index st'.1 = flushed_applied_index st.2 ∧
    flushed_applied_index st'.2 = flushed_applied_index st.2 ∧ inflight_event_tx st'.2 = [].
Proof.
  intros [(w0 & last0 & w & rs0 & rs & Hinv & Hz & Hd & Hm) Hb] Hbatch.
  destruct (recover_spec (rocksdb st.1) w0 (flushed_applied_index st.2) last0 batch now)
    as (st' & Hr & Hinv' & Ha & Hl & Hi & Hf & Htbd & _ & Ht & Hb'); [apply Hinv|].
  exists st'. split_and!; [done| |done..]. split; [|by rewrite Hb'].
  exists w0, last0, w0, rs0, rs0. unfold ledger_of. rewrite Hf, Hi, Ha, Hl, Ht, app_nil_r.
  split_and!; [done| |done|done]. intros id. rewrite Htbd. by intros []%not_elem_of_nil.
Qed.

(** ** Every interleaving *)

(** A read of the consumer finds the engines in a state that [iteration_ok] allows. *)
Inductive work_step : relation Threads :=
| step_read it applied s s' :
    rt_outbox s = [] → iteration_ok region C (rt_log_index s) applied it →
    (∀ es, log_range C (rt_log_index s) (next_index_of (rt_log_index s) applied) = Some es →
       total_size es < u64_max) →
    consumer_read it s = Returns s' → work_step s s'
| step_send now s s' : consumer_send now s = Some s' → work_step s s'
| step_recv now s s' : rt_ready s = false → loop_recv now s = Returns s' → work_step s s'
| step_apply now s s' : rt_ready s = true → loop_apply now s = Returns s' → work_step s s'.
Inductive threads_step : relation Threads :=
| step_work s s' : work_step s s' → threads_step s s'
| step_crash batch now s s' : 0 < batch → restart batch now s = Returns s' → threads_step s s'.

(** What was read from the log and not yet applied, in its order. *)
Definition in_flight (s : Threads) : list (LogEntry CommandPb) :=
  (rt_buffer s).*2 ++ (rt_channel s).*2 ++ rt_outbox s.

Record threads_inv (s : Threads) : Prop := {
  ti_wallet : wallet_run (al_state (rt_loop s));
  ti_applied : al_applied_index (rt_loop s) = applied_index (al_state (rt_loop s)).1;
  ti_le : al_applied_index (rt_loop s) + 1 ≤ rt_log_index s;
  ti_flight : delivered parser C (al_applied_index (rt_loop s) + 1) (rt_log_index s) (in_flight s);
  ti_stamped : Forall stamped (rt_channel s);
  ti_capacity : (length (rt_channel s) ≤ capacity)%nat;
  ti_buffer : (length (rt_buffer s) ≤ 1000)%nat }.

Lemma wallet_range st : wallet_run st → default_value APPLIED_INDEX ≤ applied_index st.1 < u64_max.
Proof. intros [(?&?&?&?&?&_&_&_& Hm) _]. by apply ledger_run_range in Hm. Qed.

Lemma delivered_nil i : delivered parser C i i [].
Proof. exists []. unfold log_range. by rewrite Z.sub_diag. Qed.

(** The batch is the front of what is in flight. *)
Lemma delivered_split low high es1 es2 :
  low ≤ high → delivered parser C low high (es1 ++ es2) →
  let mid := low + Z.of_nat (length es1) in
  mid ≤ high ∧ delivered parser C low mid es1 ∧ delivered parser C mid high es2.
Proof.
  revert low. induction es1 as [|e es1 IH]; intros low Hle Hd; cbn [app length] in *.
  { rewrite Z.add_0_r. split_and!; [done|apply delivered_nil|done]. }
  pose proof (delivered_length _ _ _ Hle Hd) as Hl. cbn [length] in Hl.
  apply delivered_cons in Hd as (x & Hx & Hp & He & Hd); [|lia].
  destruct (IH (low + 1) ltac:(lia) Hd) as (? & H1 & H2).
  replace (low + Z.of_nat (S (length es1))) with (low + 1 + Z.of_nat (length es1)) by lia.
  split_and!; [lia| |done]. apply (delivered_app parser C low (low + 1) _ [e] es1); [lia| |done].
  exists [x]. split.
  - unfold log_range. rewrite seqZ_cons, seqZ_nil by lia. cbn. by rewrite Hx.
  - constructor; [|done]. unfold delivers. by rewrite He.
Qed.

Lemma threads_new_inv st :
  wallet_run st → flushed_applied_index st.2 = applied_index st.1 → threads_inv (threads_new st).
Proof.
  intros Hst Hf. pose proof (wallet_range _ Hst) as Hr. unfold u64_max in Hr. cbn in Hr.
  assert (flushed_applied_index st.2 +u 1 = flushed_applied_index st.2 + 1) as Hu
    by (apply u64_add_small; split; lia).
  split; cbn; rewrite ?Hu; try done; try lia. apply delivered_nil.
Qed.

Lemma consumer_read_inv it applied s :
  is_u64 (region_id region) → threads_inv s → rt_outbox s = [] →
  iteration_ok region C (rt_log_index s) applied it →
  (∀ es, log_range C (rt_log_index s) (next_index_of (rt_log_index s) applied) = Some es →
     total_size es < u64_max) →
  ∃ s', consumer_read it s = Returns s' ∧ threads_inv s' ∧
    rt_log_index s' = next_index_of (rt_log_index s) applied ∧ rt_loop s' = rt_loop s.
Proof.
  intros Hg [Hw Ha Hle Hd Hst Hcap Hbuf] Ho Hit Hsz. pose proof (wallet_range _ Hw) as Hr. cbn in Hr.
  destruct (consume_once_spec parser region C (C_parses' parser C (la_parses admissible))
    (rt_log_index s) applied it Hg Hit ltac:(lia) Hsz) as (sent & Hc & Hs).
  unfold consumer_read. rewrite Hc. cbn. eexists. split; [done|]. split; [|done].
  pose proof (next_index_mono (rt_log_index s) applied) as [Hn _]. split; cbn; try done; [lia|].
  unfold in_flight in *. cbn. rewrite Ho, app_nil_r in Hd. rewrite app_assoc.
  by eapply delivered_app.
Qed.

Lemma consumer_send_inv now s s' :
  threads_inv s → consumer_send now s = Some s' →
  threads_inv s' ∧ in_flight s' = in_flight s ∧ rt_log_index s' = rt_log_index s ∧ rt_loop s' = rt_loop s.
Proof.
  intros [Hw Ha Hle Hd Hst Hcap Hbuf] Hs. unfold consumer_send in Hs.
  destruct (rt_outbox s) as [|e outbox] eqn:Ho; [done|].
  destruct (Nat.ltb_spec (length (rt_channel s)) capacity) as [Hlt|]; [|done].
  assert (in_flight s' = in_flight s) as Heq.
  { injection Hs as <-. unfold in_flight. cbn. by rewrite Ho, fmap_app, <-!app_assoc. }
  rewrite <-Heq in Hd. injection Hs as <-. split_and!; [|done..]. split; cbn; try done.
  - apply Forall_app. split; [done|]. constructor; [by exists now|constructor].
  - rewrite length_app. cbn. lia.
Qed.

Lemma loop_recv_inv now s :
  threads_inv s →
  ∃ s', loop_recv now s = Returns s' ∧ threads_inv s' ∧ rt_outbox s' = rt_outbox s ∧
    rt_log_index s' = rt_log_index s ∧ rt_loop s' = rt_loop s ∧
    if rt_ready s' then rt_buffer s' = rt_buffer s ∧ rt_channel s' = rt_channel s ∧
      (rt_channel s = [] ∨ 1000 ≤ length (rt_buffer s))%nat
    else (length (rt_channel s) = S (length (rt_channel s')) ∧
          length (rt_buffer s') = S (length (rt_buffer s)) ∧ length (rt_buffer s) < 1000)%nat.
Proof.
  intros [Hw Ha Hle Hd Hst Hcap Hbuf]. unfold loop_recv.
  destruct (batch_recv_step_spec 1000 now (rt_buffer s) (rt_channel s) Hst)
    as (b & c & ready & -> & Heq & Hst' & Hr). cbn [mbind run_bind].
  eexists. split; [done|]. split_and!; try done. split; cbn; try done.
  - unfold in_flight in *. cbn. rewrite app_assoc, Heq, <-app_assoc. done.
  - destruct ready; [destruct Hr as (-> & -> & _)|]; lia.
  - destruct ready; [destruct Hr as (-> & -> & _)|]; lia.
Qed.

Lemma loop_apply_inv now s :
  threads_inv s →
  ∃ s', loop_apply now s = Returns s' ∧ threads_inv s' ∧ rt_outbox s' = rt_outbox s ∧
    rt_channel s' = rt_channel s ∧ rt_log_index s' = rt_log_index s ∧ rt_ready s' = false ∧
    rt_buffer s' = [] ∧
    answers_extend (al_state (rt_loop s)) (al_state (rt_loop s')).
Proof.
  intros [Hw Ha Hle Hd Hst Hcap Hbuf]. unfold in_flight in Hd.
  apply delivered_split in Hd as (Hmid & H1 & H2); [|done].
  set (mid := al_applied_index (rt_loop s) + 1 + Z.of_nat (length (rt_buffer s).*2)) in *.
  destruct (wallet_entries (rt_buffer s).*2 (al_state (rt_loop s)) mid Hw) as (st1 & Hr & Hw1 & Hi1 & Hp1);
    [lia|by rewrite <-Ha|].
  destruct (wallet_flush st1 now Hw1) as (st2 & Hf & Hw2 & Hi2 & Ht2).
  unfold loop_apply, apply_loop_iter. destruct (rt_loop s) as [st a]. cbn in *. subst a.
  rewrite Hr. cbn. rewrite Hf. cbn. eexists. split; [done|].
  split_and!; try done; [|by etrans].
  split; cbn; try done; try lia. unfold in_flight. cbn. by replace (applied_index st1.1 + 1) with mid.
Qed.

Lemma restart_inv batch now s :
  threads_inv s → 0 < batch →
  ∃ s', restart batch now s = Returns s' ∧ threads_inv s' ∧
    inflight_event_tx (al_state (rt_loop s')).2 = [] ∧
    rt_log_index s' = flushed_applied_index (al_state (rt_loop s)).2 + 1.
Proof.
  intros [Hw _ _ _ _ _ _] Hb. unfold restart.
  destruct (wallet_recover _ batch now Hw Hb) as (st & -> & Hst & Ha & Hf & Ht).
  cbn [mbind run_bind]. eexists. split; [done|]. split; [apply threads_new_inv; [done|congruence]|]. split; [done|].
  pose proof (wallet_range _ Hst) as Hr. unfold u64_max in Hr. cbn in Hr |- *.
  rewrite u64_add_small by (split; lia). lia.
Qed.

Lemma work_step_inv s s' :
  is_u64 (region_id region) → threads_inv s → work_step s s' →
  threads_inv s' ∧ answers_extend (al_state (rt_loop s)) (al_state (rt_loop s')).
Proof.
  intros Hg Hinv Hstep.
  destruct Hstep as [it applied s s' Ho Hit Hsz H|now s s' H|now s s' _ H|now s s' _ H].
  - destruct (consumer_read_inv it applied s Hg Hinv Ho Hit Hsz) as (s1 & H1 & Hi & _ & Hl).
    rewrite H in H1. injection H1 as <-. by rewrite Hl.
  - destruct (consumer_send_inv now s s' Hinv H) as (Hi & _ & _ & Hl). by rewrite Hl.
  - destruct (loop_recv_inv now s Hinv) as (s1 & H1 & Hi & _ & _ & Hl & _).
    rewrite H in H1. injection H1 as <-. by rewrite Hl.
  - destruct (loop_apply_inv now s Hinv) as (s1 & H1 & Hi & _ & _ & _ & _ & _ & Hp).
    rewrite H in H1. by injection H1 as <-.
Qed.

Lemma threads_step_inv s s' :
  is_u64 (region_id region) → threads_inv s → threads_step s s' → threads_inv s'.
Proof.
  intros Hg Hinv Hstep. destruct Hstep as [s s' H|batch now s s' Hb H]; [by eapply work_step_inv|].
  destruct (restart_inv batch now s Hinv Hb) as (s1 & H1 & Hi & _). congruence.
Qed.

(** The work left before all that is in flight is applied. *)
Definition work (s : Threads) : nat :=
  4 * length (rt_outbox s) + 3 * length (rt_channel s) + 2 * length (rt_buffer s) +
  (if rt_ready s then match rt_buffer s with [] => 2 | _ => 0 end else 1).

Lemma send_work (t : Timespec) s :
  threads_inv s → (length (rt_channel s) < capacity)%nat → rt_outbox s ≠ [] →
  ∃ s', work_step s s' ∧ threads_inv s' ∧ (work s' < work s)%nat ∧ rt_log_index s' = rt_log_index s.
Proof.
  intros Hinv Hlt Ho. destruct (consumer_send t s) as [s'|] eqn:Hs.
  - destruct (consumer_send_inv t s s' Hinv Hs) as (Hi & _ & Hl & _). exists s'.
    split_and!; [by eapply step_send|done| |done]. unfold consumer_send in Hs.
    destruct (rt_outbox s) eqn:Ho'; [done|]. destruct (_ <? _)%nat; [|done]. injection Hs as <-.
    unfold work. rewrite Ho'. cbn. rewrite length_app. cbn. lia.
  - unfold consumer_send in Hs. destruct (rt_outbox s); [done|].
    by destruct (Nat.ltb_spec (length (rt_channel s)) capacity); [|lia].
Qed.
Lemma apply_work (now : Z) s :
  threads_inv s → rt_ready s = true →
  ∃ s', work_step s s' ∧ threads_inv s' ∧ (work s' < work s)%nat ∧ rt_log_index s' = rt_log_index s.
Proof.
  intros Hinv Hr. destruct (loop_apply_inv now s Hinv) as (s' & Hs & Hi & Ho & Hc & Hl & Hr' & Hb & _).
  exists s'. split_and!; [by eapply step_apply|done| |done].
  unfold work. rewrite Ho, Hc, Hr', Hb, Hr. cbn. destruct (rt_buffer s); cbn; lia.
Qed.
Lemma recv_work (t : Timespec) s :
  threads_inv s → rt_ready s = false → rt_channel s ≠ [] ∨ rt_buffer s ≠ [] →
  ∃ s', work_step s s' ∧ threads_inv s' ∧ (work s' < work s)%nat ∧ rt_log_index s' = rt_log_index s.
Proof.
  intros Hinv Hr Hne. destruct (loop_recv_inv t s Hinv) as (s' & Hs & Hi & Ho & Hl & _ & Hr').
  exists s'. split_and!; [by eapply step_recv|done| |done]. unfold work. rewrite Ho, Hr.
  destruct (rt_ready s').
  - destruct Hr' as (-> & -> & Hfull).
    destruct (rt_buffer s); [destruct Hfull, Hne; cbn in *; done || lia|lia].
  - lia.
Qed.

(** Without further reads and crashes, all that is in flight is applied within [work]
    steps. *)
Lemma threads_drain (t : Timespec) (now : Z) s :
  (0 < capacity)%nat → threads_inv s →
  ∃ s', rtc work_step s s' ∧ threads_inv s' ∧ in_flight s' = [] ∧ rt_log_index s' = rt_log_index s.
Proof.
  intros Hcap. remember (work s) as n eqn:Hn. revert s Hn.
  induction (lt_wf n) as [n _ IH]. intros s -> Hinv.
  destruct (decide (in_flight s = [])) as [|Hne]; [by exists s|].
  enough (∃ s', work_step s s' ∧ threads_inv s' ∧ (work s' < work s)%nat ∧
    rt_log_index s' = rt_log_index s) as (s1 & Hs1 & Hi1 & Hw & Hl1).
  { destruct (IH _ Hw s1 eq_refl Hi1) as (s' & ? & ? & ? & ?). exists s'.
    split_and!; [by eapply rtc_l|done|done|congruence]. }
  destruct (rt_ready s) eqn:Hr; [by apply (apply_work now)|].
  destruct (decide (rt_channel s ≠ [] ∨ rt_buffer s ≠ [])) as [Hcb|Hcb]; [by apply (recv_work t)|].
  destruct (rt_channel s) eqn:Hc; [|naive_solver]. destruct (rt_buffer s) eqn:Hb; [|naive_solver].
  apply (send_work t); [done|by rewrite Hc|]. intros Ho. apply Hne. unfold in_flight.
  by rewrite Hc, Hb, Ho.
Qed.

Lemma threads_start d batch now st0 :
  (∀ k, db_get d CF_DEFAULT k = None) → 0 < batch → recover_from_db d batch now = Returns st0 →
  threads_inv (threads_new st0) ∧ inflight_event_tx st0.2 = [].
Proof.
  intros Hd Hb Hr.
  destruct (recover_spec d empty_wallet (default_value APPLIED_INDEX) 0 batch now)
    as (st & Hr' & Hi & Ha & Hl & Hap & Hf & Htbd & _ & Ht & Hb'); [by apply durable_empty|].
  rewrite Hr in Hr'. injection Hr' as <-. split; [|done]. apply threads_new_inv; [|congruence].
  split; [|by rewrite Hb']. exists empty_wallet, 0, empty_wallet, [], []. unfold ledger_of.
  rewrite Hf, Hap, Ha, Hl, Ht. split_and!; [done| |constructor|constructor].
  intros id. rewrite Htbd. by intros []%not_elem_of_nil.
Qed.

Lemma threads_reachable d batch now st0 s :
  is_u64 (region_id region) → (∀ k, db_get d CF_DEFAULT k = None) → 0 < batch →
  recover_from_db d batch now = Returns st0 → rtc threads_step (threads_new st0) s → threads_inv s.
Proof.
  intros Hg Hd Hb Hr Hsteps. destruct (threads_start d batch now st0 Hd Hb Hr) as [Hinv _].
  clear Hr. induction Hsteps; eauto using threads_step_inv.
Qed.

End threads.

(** ** A run of the two threads *)

Module threads_demo.
Import replication_demo.

(** The log has no entry but the one at index 6. *)
Lemma ledger_run_demo i L rs :
  ledger_run parser C i L rs → 5 ≤ i ∧ (i = 5 → L = empty_ledger).
Proof.
  induction 1 as [|i L rs x cs L' rs' Hrun [IH _] Hx Hp Hs|i L rs ids Hrun [IH Heq] Hids]; [done|lia|].
  split; [done|]. intros ->. rewrite Heq in Hids |- * by done. destruct ids as [|id ids]; [done|].
  apply Forall_cons_1 in Hids as [(a & Ha & _) _]. done.
Qed.

Lemma log_allowed : log_admissible parser C.
Proof.
  split; [apply log_parses|]. intros i L rs x cs Hrun Hx Hp.
  apply ledger_run_demo in Hrun as [Hi HL]. rewrite log_lookup in Hx. case_decide as Hi6; [|done].
  injection Hx as <-. rewrite parsed in Hp. injection Hp as _ <-. rewrite HL by lia.
  replace (i + 1) with 6 by lia. split; [done|]. vm_compute. by split.
Qed.

Definition or_else {A} (a : A) (r : run A) : A := match r with Returns b => b | Panics => a end.
Definition returns {A} (r : run A) : bool := match r with Returns _ => true | Panics => false end.
Lemma returns_eq {A} (a : A) r : returns r = true → r = Returns (or_else a r).
Proof. by destruct r. Qed.

Local Instance demo_time : TimeCrate := ref_TimeCrate.
Definition t0 : Timespec := {| ts_sec := 7; ts_nsec := 0 |}.
Definition st0 : StateMachine * ApplyContext := or_else demo_state (recover_from_db demo_db 10 0).
Definition s0 : Threads := threads_new st0.
Definition s1 : Threads := or_else s0 (consumer_read parser demo.region (e, e, e) s0).
Definition s2 : Threads := default s1 (consumer_send 4 t0 s1).
Definition s3 : Threads := or_else s2 (loop_recv t0 s2).
Definition s4 : Threads := or_else s3 (loop_recv t0 s3).
Definition s5 : Threads := or_else s4 (loop_apply 0 s4).

Lemma demo_read : work_step parser demo.region 4 C s0 s1.
Proof.
  eapply (step_read _ _ _ _ (e, e, e) 6 s0 s1).
  { done. }
  { by apply iteration. }
  { intros es [->| ->]%range_cases; [done|]. vm_compute. reflexivity. }
  { apply returns_eq. vm_compute. reflexivity. }
Qed.
Lemma demo_work : rtc (work_step parser demo.region 4 C) s0 s5.
Proof.
  eapply rtc_l; [exact demo_read|].
  eapply rtc_l; [eapply (step_send _ _ _ _ t0 s1 s2)|].
  { unfold s2. destruct (consumer_send 4 t0 s1) eqn:Hs; [done|].
    apply (f_equal (λ o, match o with Some _ => true | None => false end)) in Hs.
    vm_compute in Hs. done. }
  eapply rtc_l; [eapply (step_recv _ _ _ _ t0 s2 s3)|].
  { vm_compute. reflexivity. }
  { apply returns_eq. vm_compute. reflexivity. }
  eapply rtc_l; [eapply (step_recv _ _ _ _ t0 s3 s4)|].
  { vm_compute. reflexivity. }
  { apply returns_eq. vm_compute. reflexivity. }
  apply rtc_once, (step_apply _ _ _ _ 0 s4 s5); [|apply returns_eq]; vm_compute; reflexivity.
Qed.
Lemma demo_run : rtc (threads_step parser demo.region 4 C) s0 s5.
Proof. eapply rtc_subrel; [|exact demo_work]. intros s s'. apply step_work. Qed.
End threads_demo.

