(* ===== verification/Service.v ===== *)
(** * service.rs

    The gRPC interface of the wallet.  A write goes through the message queue,
    comes back from the state machine through the broker, and is answered; the
    queries read the state machine or its database. *)

From stdpp Require Import pretty.
From S2P Require Import Prelude Bytes Keys Proto Errors RefDecimal BalanceCalculator Account.
From S2P Require Import RocksEngine Internal RocksDBState MessageBroker StateMachine.
Local Open Scope Z_scope.

(** What becomes of the task that serves a request. *)
Inductive outcome (A : Type) :=
| Replies (a : A)
| TaskPanics
| ProcessExits.
Global Arguments Replies {A} a.
Global Arguments TaskPanics {A}.
Global Arguments ProcessExits {A}.
Global Instance outcome_bind : MBind outcome := λ A B f m,
  match m with Replies a => f a | TaskPanics => TaskPanics | ProcessExits => ProcessExits end.

Section service.
Context {BD : BigDecimal} {R : RocksDB}.
Context `{!ProtoMessage AccountPb, !ProtoMessage EventPb, !ProtoMessage CommandPb}.
Context `{!DebugFmt BalanceOperationError, !DebugFmt AccountManagementError,
          !DebugFmt CommonError, !DebugFmt string}.

(** What a request meets outside the service: where the message queue puts a
    payload (or its error), and what arrives on the oneshot channel of a request
    registered at a position ([None]: its sender was dropped). *)
Record Outside := {
  mq_send_payload : bytes → result string (Z * Z);
  oneshot_rx : Position → option InflightEvent }.

Definition wait_for_response (out : Outside) (log_index offset : Z) (command_id : string) :
    outcome (GeneralResult EventPb) :=
  let position := {| MessageBroker.log_index := log_index; MessageBroker.offset := offset |} in
  match oneshot_rx out position with
  | None => TaskPanics
  | Some inflight_event =>
      match ie_event inflight_event with
      | Ok e =>
          if decide (eh_command_id (event_header e) = command_id)
          then Replies (Ok e) else ProcessExits
      | Err err => Replies (Err err)
      end
  end.

(** ** Getters of the event payload: another type of event reads as the default *)

Definition payload_of (e : EventPb) : option EventPayload_oneof_event :=
  event (get_or_default (ev_payload e)).
Definition response_of {Resp} `{!Default Resp} (o : option (EventOf Resp)) : Resp :=
  get_or_default (response (get_or_default o)).

Definition get_transfer_event (e : EventPb) : option (EventOf TransferResponse) :=
  match payload_of e with Some (transfer_event x) => Some x | _ => None end.
Definition get_batch_balance_operation_event (e : EventPb) :
    option (EventOf BatchBalanceOperationResponse) :=
  match payload_of e with Some (batch_balance_operation_event x) => Some x | _ => None end.
Definition get_reserve_event (e : EventPb) : option (EventOf (BalanceResponse ReserveRequest)) :=
  match payload_of e with Some (reserve_event x) => Some x | _ => None end.
Definition get_release_event (e : EventPb) : option (EventOf (BalanceResponse ReleaseRequest)) :=
  match payload_of e with Some (release_event x) => Some x | _ => None end.
Definition get_account_created_event (e : EventPb) :
    option (EventOf (AccountResponse CreateAccountRequest)) :=
  match payload_of e with Some (account_created_event x) => Some x | _ => None end.
Definition get_account_locked_event (e : EventPb) :
    option (EventOf (AccountResponse LockAccountRequest)) :=
  match payload_of e with Some (account_locked_event x) => Some x | _ => None end.
Definition get_account_unlock_event (e : EventPb) :
    option (EventOf (AccountResponse UnlockAccountRequest)) :=
  match payload_of e with Some (account_unlock_event x) => Some x | _ => None end.
Definition get_account_deleted_event (e : EventPb) :
    option (EventOf (AccountResponse DeleteAccountRequest)) :=
  match payload_of e with Some (account_deleted_event x) => Some x | _ => None end.
Definition get_account_config_update_event (e : EventPb) :
    option (EventOf (AccountResponse UpdateAccountConfigRequest)) :=
  match payload_of e with Some (account_config_update_event x) => Some x | _ => None end.

(** ** [response.set_error(..)] *)

Definition ar_set_error {Req} (err : ErrorPb) (r : AccountResponse Req) : AccountResponse Req :=
  {| ar_error := Some err; ar_header := ar_header r; ar_request := ar_request r;
     ar_account := ar_account r |}.
Definition br_set_error {Req} (err : ErrorPb) (r : BalanceResponse Req) : BalanceResponse Req :=
  {| br_error := Some err; br_header := br_header r; br_request := br_request r;
     br_prev_balance := br_prev_balance r; br_curr_balance := br_curr_balance r |}.
Definition tr_set_error (err : ErrorPb) (r : TransferResponse) : TransferResponse :=
  {| tr_error := Some err; tr_header := tr_header r; tr_request := tr_request r;
     tr_from := tr_from r; tr_to := tr_to r |}.
Definition bb_set_error (err : ErrorPb) (r : BatchBalanceOperationResponse) :
    BatchBalanceOperationResponse :=
  {| bb_error := Some err; bb_header := bb_header r; bb_request := bb_request r;
     balance_changes := balance_changes r |}.

(** ** The writes: [now_sec] is the time at which the command is built *)

Definition create_account_rpc (out : Outside) (now_sec : Z) (request : CreateAccountRequest) :
    outcome (AccountResponse CreateAccountRequest) :=
  let command := from_payload (PCreateAccountRequest request) now_sec in
  match mq_send_payload out (write_to_bytes command) with
  | Ok (log_index, offset) =>
      resp ← wait_for_response out log_index offset (command_command_id command);
      Replies match resp with
              | Ok event => response_of (get_account_created_event event)
              | Err err => ar_set_error (general_into_proto err) default_instance
              end
  | Err e => Replies (ar_set_error (common_into_proto (MessageQueueError e)) default_instance)
  end.

Definition lock_account_rpc (out : Outside) (now_sec : Z) (request : LockAccountRequest) :
    outcome (AccountResponse LockAccountRequest) :=
  let command := from_payload (PLockAccountRequest request) now_sec in
  match mq_send_payload out (write_to_bytes command) with
  | Ok (log_index, offset) =>
      resp ← wait_for_response out log_index offset (command_command_id command);
      Replies match resp with
              | Ok event => response_of (get_account_locked_event event)
              | Err err => ar_set_error (general_into_proto err) default_instance
              end
  | Err e => Replies (ar_set_error (common_into_proto (MessageQueueError e)) default_instance)
  end.

Definition unlock_account_rpc (out : Outside) (now_sec : Z) (request : UnlockAccountRequest) :
    outcome (AccountResponse UnlockAccountRequest) :=
  let command := from_payload (PUnlockAccountRequest request) now_sec in
  match mq_send_payload out (write_to_bytes command) with
  | Ok (log_index, offset) =>
      resp ← wait_for_response out log_index offset (command_command_id command);
      Replies match resp with
              | Ok event => response_of (get_account_unlock_event event)
              | Err err => ar_set_error (general_into_proto err) default_instance
              end
  | Err e => Replies (ar_set_error (common_into_proto (MessageQueueError e)) default_instance)
  end.

Definition delete_account_rpc (out : Outside) (now_sec : Z) (request : DeleteAccountRequest) :
    outcome (AccountResponse DeleteAccountRequest) :=
  let command := from_payload (PDeleteAccountRequest request) now_sec in
  match mq_send_payload out (write_to_bytes command) with
  | Ok (log_index, offset) =>
      resp ← wait_for_response out log_index offset (command_command_id command);
      Replies match resp with
              | Ok event => response_of (get_account_deleted_event event)
              | Err err => ar_set_error (general_into_proto err) default_instance
              end
  | Err e => Replies (ar_set_error (common_into_proto (MessageQueueError e)) default_instance)
  end.

Definition update_account_config_rpc (out : Outside) (now_sec : Z)
    (request : UpdateAccountConfigRequest) :
    outcome (AccountResponse UpdateAccountConfigRequest) :=
  let command := from_payload (PUpdateAccountConfigRequest request) now_sec in
  match mq_send_payload out (write_to_bytes command) with
  | Ok (log_index, offset) =>
      resp ← wait_for_response out log_index offset (command_command_id command);
      Replies match resp with
              | Ok event => response_of (get_account_config_update_event event)
              | Err err => ar_set_error (general_into_proto err) default_instance
              end
  | Err e => Replies (ar_set_error (common_into_proto (MessageQueueError e)) default_instance)
  end.

Definition reserve_rpc (out : Outside) (now_sec : Z) (req : ReserveRequest) :
    outcome (BalanceResponse ReserveRequest) :=
  let command := from_payload (PReserveRequest req) now_sec in
  match mq_send_payload out (write_to_bytes command) with
  | Ok (log_index, offset) =>
      resp ← wait_for_response out log_index offset (command_command_id command);
      Replies match resp with
              | Ok event => response_of (get_reserve_event event)
              | Err err => br_set_error (general_into_proto err) default_instance
              end
  | Err e => Replies (br_set_error (common_into_proto (MessageQueueError e)) default_instance)
  end.

Definition release_rpc (out : Outside) (now_sec : Z) (req : ReleaseRequest) :
    outcome (BalanceResponse ReleaseRequest) :=
  let command := from_payload (PReleaseRequest req) now_sec in
  match mq_send_payload out (write_to_bytes command) with
  | Ok (log_index, offset) =>
      resp ← wait_for_response out log_index offset (command_command_id command);
      Replies match resp with
              | Ok event => response_of (get_release_event event)
              | Err err => br_set_error (general_into_proto err) default_instance
              end
  | Err e => Replies (br_set_error (common_into_proto (MessageQueueError e)) default_instance)
  end.

Definition batch_balance_operation_rpc (out : Outside) (now_sec : Z)
    (req : BatchBalanceOperationRequest) : outcome BatchBalanceOperationResponse :=
  let command := from_payload (PBatchBalanceOperationRequest req) now_sec in
  match mq_send_payload out (write_to_bytes command) with
  | Ok (log_index, offset) =>
      resp ← wait_for_response out log_index offset (command_command_id command);
      Replies match resp with
              | Ok event => response_of (get_batch_balance_operation_event event)
              | Err err => bb_set_error (general_into_proto err) default_instance
              end
  | Err e => Replies (bb_set_error (common_into_proto (MessageQueueError e)) default_instance)
  end.

Definition transfer_rpc (out : Outside) (now_sec : Z) (req : TransferRequest) :
    outcome TransferResponse :=
  let command := from_payload (PTransferRequest req) now_sec in
  match mq_send_payload out (write_to_bytes command) with
  | Ok (log_index, offset) =>
      resp ← wait_for_response out log_index offset (command_command_id command);
      Replies match resp with
              | Ok event => response_of (get_transfer_event event)
              | Err err => tr_set_error (general_into_proto err) default_instance
              end
  | Err e => Replies (tr_set_error (common_into_proto (MessageQueueError e)) default_instance)
  end.

(** ** The queries *)

Definition get_account (s : StateMachine) (request : GetAccountRequest) : GetAccountResponse :=
  if last_seq_num s <? Proto.get_seq_num request then
    {| ga_error := Some (common_into_proto
         (DataNotReady (Proto.get_seq_num request) (last_seq_num s)));
       ga_seq_num := 0; ga_account := None |}
  else
    match accounts s !! get_account_id request with
    | Some account =>
        {| ga_error := None; ga_seq_num := last_seq_num s; ga_account := Some account |}
    | None =>
        {| ga_error := Some (account_management_into_proto
             (AccountNotExist (get_account_id request)));
           ga_seq_num := last_seq_num s; ga_account := None |}
    end.

Definition query_balance (s : StateMachine) (request : QueryBalanceRequest) :
    QueryBalanceResponse :=
  let id := qb_account_id request in
  if last_seq_num s <? qb_seq_num request then
    {| qbr_error := Some (common_into_proto
         (DataNotReady (qb_seq_num request) (last_seq_num s)));
       qbr_seq_num := 0; qbr_account_id := id; qbr_balance := None |}
  else
    match accounts s !! id with
    | Some account =>
        {| qbr_error := None; qbr_seq_num := last_seq_num s; qbr_account_id := id;
           qbr_balance := Some (get_balance account) |}
    | None =>
        {| qbr_error := Some (balance_operation_into_proto (BalanceAccountNotExist id));
           qbr_seq_num := last_seq_num s; qbr_account_id := id; qbr_balance := None |}
    end.

Definition range_reason (first last persisted_first persisted_last : Z) : string :=
  if (persisted_first =? 0) && (persisted_last =? 0) then "No available events on server."
  else ("Request's first_seq_num " +:+ pretty first
        +:+ " should be within server's available range of [" +:+ pretty persisted_first +:+ "-"
        +:+ pretty persisted_last +:+ "], and less equal to last_seq_num " +:+ pretty last +:+ ".").

Definition maybe_adjust_query_range (first_seq_num last_seq_num persisted_first_seq_num
    persisted_last_seq_num query_events_max_count : Z) : InternalResult (Z * Z) :=
  if negb (first_seq_num =? 0) && (first_seq_num <=? last_seq_num)
     && (persisted_first_seq_num <=? first_seq_num)
     && (first_seq_num <=? persisted_last_seq_num)
  then
    let last_available_seq_num :=
      Z.min (Z.min last_seq_num (first_seq_num +u query_events_max_count -u 1))
        persisted_last_seq_num in
    Ok (first_seq_num, last_available_seq_num)
  else
    Err (InternalOtherError
           (range_reason first_seq_num last_seq_num persisted_first_seq_num
              persisted_last_seq_num)).

(** The [while] loop: the events read and the next sequence number; [None] when
    the fuel is not enough. *)
Fixpoint query_loop (fuel : nat) (d : DB) (seq_num last : Z) (events : list EventPb) :
    run (option (InternalResult (list EventPb * Z))) :=
  if seq_num <=? last then
    match fuel with
    | O => Returns None
    | S fuel =>
        found ← read_event_from_db d seq_num;
        match found with
        | None => Returns (Some (Err LogTruncated))
        | Some e =>
            rust_assert (seq_num =? eh_seq_num (event_header e)) (
            query_loop fuel d (seq_num +u 1) last (events ++ [e]))
        end
    end
  else Returns (Some (Ok (events, seq_num))).

(** As many turns as there are sequence numbers to read, and one. *)
Definition query_events_impl (d : DB) (first_seq_num last_seq_num persisted_first_seq_num
    persisted_last_seq_num query_events_max_count : Z) :
    run (option (InternalResult (Z * Z * list EventPb))) :=
  match maybe_adjust_query_range first_seq_num last_seq_num persisted_first_seq_num
          persisted_last_seq_num query_events_max_count with
  | Err err => Returns (Some (Err err))
  | Ok (adjusted_first, adjusted_last) =>
      r ← query_loop (Z.to_nat (adjusted_last - adjusted_first + 2)) d adjusted_first
            adjusted_last [];
      match r with
      | None => Returns None
      | Some (Err err) => Returns (Some (Err err))
      | Some (Ok (events, seq_num)) =>
          rust_assert (seq_num -u 1 =? adjusted_last) (
          Returns (Some (Ok (adjusted_first, adjusted_last, events))))
      end
  end.

Definition query_events (s : StateMachine) (query_events_max_count : Z)
    (request : QueryEventsRequest) : run (option QueryEventsResponse) :=
  let d := rocksdb s in
  persisted_last_seq_num ← read_hard_state_from_db d PERSISTED_LAST_SEQ_NUM;
  persisted_first_seq_num ← read_hard_state_from_db d PERSISTED_FIRST_SEQ_NUM;
  r ← query_events_impl d (qe_first_seq_num request) (qe_last_seq_num request)
        persisted_first_seq_num persisted_last_seq_num query_events_max_count;
  Returns (
    r ← r;
    Some match r with
         | Err err =>
             {| qer_error := Some (internal_into_proto err); qer_first_seq_num := 0;
                qer_last_seq_num := 0; qer_events := [];
                qer_persisted_first_seq_num := persisted_first_seq_num;
                qer_persisted_last_seq_num := persisted_last_seq_num |}
         | Ok (first_seq_num, last_seq_num, events) =>
             {| qer_error := None; qer_first_seq_num := first_seq_num;
                qer_last_seq_num := last_seq_num; qer_events := events;
                qer_persisted_first_seq_num := persisted_first_seq_num;
                qer_persisted_last_seq_num := persisted_last_seq_num |}
         end).
End service.
