(* ===== verification/Gateway.v ===== *)
(** * The wallet gateway: gateway_framework and firm_wallet_gateway.rs

    The gateway forwards every request to the raft leader.  All calls share one record
    of who leads ([Inner], behind a lock); a call that fails asks for a new leader, and
    a counter of the resets keeps several failing calls from resetting it more than
    once.  The network is the environment: a [world] is what the nodes answer to a
    probe at some moment, and the reply to a forwarded request is an argument.  A
    [Node] (the clients of a connection) is the address it is connected to. *)

From S2P Require Import Prelude Proto Raftpb.
Local Open Scope Z_scope.

(** ** raft_cluster.rs *)

Record Inner := {
  reset_leader_counter : Z;
  leader_node : option string;
  leader_id : Z;
  next_probe_node : Z
}.

Definition INITIAL_LEADER : Z := 1.
Definition cluster_new : Inner :=
  {| reset_leader_counter := 0; leader_node := None; leader_id := INITIAL_LEADER;
     next_probe_node := INITIAL_LEADER |}.

(** What comes back from a node that is probed: nothing (no connection, an error, a
    timeout), or the leader it knows, if it knows one. *)
Definition ProbeReply := option (option metapb_Peer).
Definition world := Z → ProbeReply.

Definition probe (reply : ProbeReply) : option Z :=
  leader ← reply;
  peer ← leader;
  if 0 <? peer_id peer then Some (peer_id peer) else None.

Section cluster.
Context (node_addresses : list string).
Let node_count : Z := Z.of_nat (length node_addresses).

Definition node_address (id : Z) : run string :=
  unwrap (node_addresses !! Z.to_nat (id -u 1)).

Definition probe_node (node_id : Z) (reply : ProbeReply) : run (option Z) :=
  _ ← node_address node_id;
  match probe reply with
  | None => Returns None
  | Some leader_id =>
      if (node_count <? leader_id) || (leader_id =? 0) then Panics else Returns (Some leader_id)
  end.

(** The loop of [reset_leader]; it probes once in each of the worlds, and has not
    ended ([None]) when they are used up. *)
Fixpoint reset_leader (worlds : list world) (node_id : Z) (inner : Inner) :
    run (option (string * Z * Inner)) :=
  match worlds with
  | [] => Returns None
  | w :: worlds =>
      r ← probe_node node_id (w node_id);
      match r with
      | None => reset_leader worlds (node_id `mod` node_count + 1) inner
      | Some leader_id =>
          address ← node_address leader_id;
          Returns (Some (address, reset_leader_counter inner,
            {| reset_leader_counter := reset_leader_counter inner; leader_node := Some address;
               leader_id := leader_id; next_probe_node := node_id |}))
      end
  end.

(** The record while a reset is under way. *)
Definition begin_reset (inner : Inner) : Inner :=
  {| reset_leader_counter := reset_leader_counter inner +u 1; leader_node := leader_node inner;
     leader_id := leader_id inner; next_probe_node := next_probe_node inner |}.

Definition get_or_reset_leader (counter : Z) (worlds : list world) (inner : Inner) :
    run (option (string * Z * Inner)) :=
  let reset := reset_leader worlds (next_probe_node inner) (begin_reset inner) in
  if counter <=? reset_leader_counter inner then
    match leader_node inner with
    | Some node => Returns (Some (node, reset_leader_counter inner, inner))
    | None => reset
    end
  else reset.

(** ** gateway.rs and the responses of firm_wallet_gateway.rs

    The reply of a node: the gRPC call failed, or there is a response, of which the
    gateway reads the error. *)

Inductive GrpcReply := GrpcFailed | GrpcResponse (error : option ErrorPb).

Definition success (error : option ErrorPb) : bool :=
  match error with None => true | Some _ => false end.
Definition has_not_leader_error (error : option ErrorPb) : run bool :=
  e ← unwrap error;
  Returns (match error_oneof e with Some (not_leader _) => true | _ => false end).

(** Whether the reply goes back to the caller. *)
Definition passes (r : GrpcReply) : run bool :=
  match r with
  | GrpcFailed => Returns false
  | GrpcResponse error =>
      if success error then Returns true else b ← has_not_leader_error error; Returns (negb b)
  end.

(** A call of the gateway: its counter, and where its loop is.  [Lost] is a call whose
    caller went away, so that it was dropped. *)
Inductive CallState :=
| Asking (counter : Z)
| Sending (node : string) (counter : Z)
| Answered (r : GrpcReply)
| Lost.

Record System := { sys_inner : Inner; sys_calls : list CallState }.

(** The calls interleave; the lock is held from the question to the new leader. *)
Inductive system_step : System → System → Prop :=
| step_request inner calls :
    system_step {| sys_inner := inner; sys_calls := calls |}
                {| sys_inner := inner; sys_calls := calls ++ [Asking 0] |}
| step_leader inner calls i counter worlds node counter' inner' :
    calls !! i = Some (Asking counter) →
    get_or_reset_leader counter worlds inner = Returns (Some (node, counter', inner')) →
    system_step {| sys_inner := inner; sys_calls := calls |}
                {| sys_inner := inner'; sys_calls := <[i := Sending node counter']> calls |}
| step_answered inner calls i node counter r :
    calls !! i = Some (Sending node counter) → passes r = Returns true →
    system_step {| sys_inner := inner; sys_calls := calls |}
                {| sys_inner := inner; sys_calls := <[i := Answered r]> calls |}
| step_retry inner calls i node counter r :
    calls !! i = Some (Sending node counter) → passes r = Returns false →
    system_step {| sys_inner := inner; sys_calls := calls |}
                {| sys_inner := inner; sys_calls := <[i := Asking (counter +u 1)]> calls |}
| step_dropped inner calls i call :
    calls !! i = Some call →
    system_step {| sys_inner := inner; sys_calls := calls |}
                {| sys_inner := inner; sys_calls := <[i := Lost]> calls |}
| step_dropped_in_reset inner calls i counter worlds :
    calls !! i = Some (Asking counter) →
    get_or_reset_leader counter worlds inner = Returns None →
    system_step {| sys_inner := inner; sys_calls := calls |}
                {| sys_inner := begin_reset inner; sys_calls := <[i := Lost]> calls |}.
End cluster.

(** ** The search for a leader *)

Section search.
Context (node_addresses : list string).
Let node_count : Z := Z.of_nat (length node_addresses).
Hypothesis Hcount : 1 ≤ node_count < u64_modulus.

(** The nodes of the cluster, counted from 1. *)
Definition is_node (id : Z) : Prop := 1 ≤ id ≤ Z.of_nat (length node_addresses).
Definition next_node (id : Z) : Z := id `mod` Z.of_nat (length node_addresses) + 1.

Lemma node_address_ok id :
  is_node id → ∃ a, node_address node_addresses id = Returns a ∧
    node_addresses !! Z.to_nat (id - 1) = Some a.
Proof.
  unfold is_node. fold node_count. intros Hid. unfold node_address.
  rewrite u64_sub_le by (unfold is_u64; lia).
  destruct (lookup_lt_is_Some_2 node_addresses (Z.to_nat (id - 1))) as [a ->]; [lia|]. by exists a.
Qed.

Lemma next_node_ok id : is_node (next_node id).
Proof.
  unfold is_node, next_node. fold node_count.
  pose proof (Z.mod_pos_bound id node_count). lia.
Qed.

(** Nodes that answer name a node of the cluster. *)
Definition world_ok (w : world) : Prop :=
  ∀ node id, probe (w node) = Some id → is_node id.

Lemma probe_pos reply id : probe reply = Some id → 0 < id.
Proof.
  unfold probe. destruct reply as [[p|]|]; cbn; [|done..].
  destruct (0 <? peer_id p) eqn:H; [|done]. intros [= <-]. lia.
Qed.

Lemma probe_node_ok w node :
  world_ok w → is_node node → probe_node node_addresses node (w node) = Returns (probe (w node)).
Proof.
  intros Hw Hnode. unfold probe_node. destruct (node_address_ok node Hnode) as (a & -> & _). cbn.
  destruct (probe (w node)) as [id|] eqn:Hp; [|done]. specialize (Hw _ _ Hp). unfold is_node in Hw.
  rewrite (proj2 (Z.ltb_ge _ _)), (proj2 (Z.eqb_neq _ _)) by lia. done.
Qed.

(** What a reset that has ended has done. *)
Definition reset_to (inner : Inner) (node : string) (counter : Z) (inner' : Inner) : Prop :=
  counter = reset_leader_counter inner ∧ reset_leader_counter inner' = counter ∧
  leader_node inner' = Some node ∧ is_node (leader_id inner') ∧ is_node (next_probe_node inner') ∧
  node_addresses !! Z.to_nat (leader_id inner' - 1) = Some node.

Lemma reset_leader_ok worlds node_id inner :
  Forall world_ok worlds → is_node node_id →
  ∃ r, reset_leader node_addresses worlds node_id inner = Returns r ∧
    match r with
    | None => ∀ i w, worlds !! i = Some w → probe (w (Nat.iter i next_node node_id)) = None
    | Some (node, counter, inner') => reset_to inner node counter inner'
    end.
Proof.
  intros Hw. revert node_id. induction Hw as [|w worlds Hw Hws IH]; intros node_id Hid; cbn.
  { by exists None. }
  rewrite probe_node_ok by done. cbn. destruct (probe (w node_id)) as [id|] eqn:Hp.
  - specialize (Hw _ _ Hp). destruct (node_address_ok id Hw) as (a & -> & Ha). cbn.
    eexists; split; [done|]. cbn. done.
  - destruct (IH (next_node node_id) (next_node_ok _)) as (r & Hr & Hres). exists r.
    split; [exact Hr|]. destruct r as [[[node counter] inner']|]; [done|].
    intros [|i] w0 Hi; cbn in Hi; [by simplify_eq|]. specialize (Hres i w0 Hi).
    rewrite Nat.iter_succ_r. done.
Qed.

(** From any node, the probes go round the whole cluster. *)
Lemma next_node_iter i node_id :
  is_node node_id →
  Nat.iter i next_node node_id = (node_id - 1 + Z.of_nat i) `mod` node_count + 1.
Proof.
  intros Hid. unfold is_node in Hid. fold node_count in Hid. induction i as [|i IH]; cbn [Nat.iter].
  - cbn [Nat.iter nat_rect]. rewrite Z.mod_small by lia. cbn. lia.
  - change (Nat.iter (S i) next_node node_id) with (next_node (Nat.iter i next_node node_id)).
    rewrite IH. unfold next_node. fold node_count. rewrite Zplus_mod_idemp_l. f_equal. f_equal. lia.
Qed.

Lemma next_node_reaches node_id k :
  is_node node_id → is_node k →
  ∃ i, (i < length node_addresses)%nat ∧ Nat.iter i next_node node_id = k.
Proof.
  intros Hid Hk. pose proof (Z.mod_pos_bound (k - node_id) node_count ltac:(lia)) as Hb.
  exists (Z.to_nat ((k - node_id) `mod` node_count)). split; [lia|].
  rewrite next_node_iter, Z2Nat.id, Zplus_mod_idemp_r by (done || lia).
  unfold is_node in Hk. fold node_count in Hk.
  replace (node_id - 1 + (k - node_id)) with (k - 1) by lia. rewrite Z.mod_small; lia.
Qed.

Lemma reset_ends worlds node_id inner k :
  Forall world_ok worlds → is_node node_id → is_node k →
  (length node_addresses ≤ length worlds)%nat → Forall (λ w, is_Some (probe (w k))) worlds →
  ∃ node counter inner', reset_leader node_addresses worlds node_id inner =
    Returns (Some (node, counter, inner')) ∧ reset_to inner node counter inner'.
Proof.
  intros Hw Hid Hk Hlen Hall.
  destruct (reset_leader_ok worlds node_id inner Hw Hid) as (r & Hr & Hres).
  destruct r as [[[node counter] inner']|]; [by exists node, counter, inner'|].
  destruct (next_node_reaches node_id k Hid Hk) as (i & Hi & Hik).
  destruct (lookup_lt_is_Some_2 worlds i) as [w Hwi]; [lia|].
  specialize (Hres i w Hwi). rewrite Hik in Hres.
  rewrite Forall_lookup in Hall. destruct (Hall _ _ Hwi) as [??]. congruence.
Qed.

(** ** The calls *)

(** The record names a node of the cluster. *)
Definition inner_ok (inner : Inner) : Prop :=
  is_node (next_probe_node inner) ∧
  (leader_node inner = None ∨
   leader_node inner = node_addresses !! Z.to_nat (leader_id inner - 1)).

(** A call asks with at most the number after the current one, and sends to a node
    that was handed out; what was answered passes. *)
Definition call_ok (current : Z) (c : CallState) : Prop :=
  match c with
  | Asking counter => 0 ≤ counter ≤ current + 1
  | Sending node counter => 0 ≤ counter ≤ current ∧ node ∈ node_addresses
  | Answered r => passes r = Returns true
  | Lost => True
  end.

Definition system_inv (k : Z) (s : System) : Prop :=
  inner_ok (sys_inner s) ∧ 0 ≤ reset_leader_counter (sys_inner s) ≤ k ∧
  Forall (call_ok (reset_leader_counter (sys_inner s))) (sys_calls s).

Lemma call_ok_mono m n c : m ≤ n → call_ok m c → call_ok n c.
Proof. destruct c; cbn; intuition lia. Qed.

Lemma probe_node_node node reply id :
  probe_node node_addresses node reply = Returns (Some id) → is_node id.
Proof.
  unfold probe_node. intros Hp. simplify_run. destruct (probe reply) as [id'|] eqn:Hr; [|done].
  destruct (_ || _) eqn:Hb; [done|]. simplify_run. apply orb_false_iff in Hb as [Hb1 Hb2].
  apply probe_pos in Hr. unfold is_node. lia.
Qed.

Lemma reset_leader_inv worlds node_id inner node counter inner' :
  is_node node_id →
  reset_leader node_addresses worlds node_id inner = Returns (Some (node, counter, inner')) →
  reset_to inner node counter inner'.
Proof.
  revert node_id. induction worlds as [|w worlds IH]; intros node_id Hid Hr; cbn in Hr; [done|].
  destruct (probe_node node_addresses node_id (w node_id)) as [[id|]|] eqn:Hp; cbn in Hr; [| |done].
  - apply probe_node_node in Hp. destruct (node_address_ok id Hp) as (a & Ha & Hl). rewrite Ha in Hr.
    cbn in Hr. simplify_eq. done.
  - by apply (IH (next_node node_id) (next_node_ok _)).
Qed.

(** A question either gets the leader that is known or has started a reset, for which
    there was no leader or the number of the call is beyond the current one. *)
Lemma get_or_reset_cases counter worlds inner r :
  get_or_reset_leader node_addresses counter worlds inner = Returns r →
  (∃ node, leader_node inner = Some node ∧ counter ≤ reset_leader_counter inner ∧
     r = Some (node, reset_leader_counter inner, inner)) ∨
  ((leader_node inner = None ∨ reset_leader_counter inner < counter) ∧
   reset_leader node_addresses worlds (next_probe_node inner) (begin_reset inner) = Returns r).
Proof.
  unfold get_or_reset_leader. destruct (counter <=? _) eqn:Hc.
  - apply Z.leb_le in Hc. destruct (leader_node inner) as [node|]; [|by auto].
    intros [= <-]. left. eauto.
  - apply Z.leb_gt in Hc. auto.
Qed.

Lemma system_step_inv k s s' :
  system_inv k s → k + 2 < u64_modulus → system_step node_addresses s s' →
  system_inv (k + 1) s' ∧
  reset_leader_counter (sys_inner s) ≤ reset_leader_counter (sys_inner s').
Proof.
  intros (Hi & Hk & Hcalls) Hb Hstep.
  assert (Hadd : ∀ c, 0 ≤ c ≤ k → c +u 1 = c + 1).
  { intros. apply u64_add_small. unfold is_u64. lia. }
  destruct Hstep as [inner calls|inner calls i c worlds node c' inner' Hc Hg|inner calls i node c r Hc Hp
    |inner calls i node c r Hc Hp|inner calls i call Hc|inner calls i c worlds Hc Hg];
    unfold system_inv in *; cbn [sys_inner sys_calls] in *;
    try (rewrite Forall_lookup in Hcalls; pose proof (Hcalls _ _ Hc) as Hok; cbn in Hok;
         rewrite <-Forall_lookup in Hcalls).
  - split; [|lia]. split_and!; [done|lia..|]. apply Forall_app. split; [done|].
    repeat constructor; cbn; lia.
  - apply get_or_reset_cases in Hg as [(n & Hn & Hle & Heq)|[_ Hr]].
    + simplify_eq. split; [|lia]. split_and!; [done|lia..|]. apply Forall_insert; [done|]. cbn.
      split; [lia|]. destruct Hi as [_ [?|Hl]]; [congruence|]. rewrite Hn in Hl.
      symmetry in Hl. by apply list_elem_of_lookup_2 in Hl.
    + apply reset_leader_inv in Hr as (-> & Hc1 & Hc2 & Hc3 & Hc4 & Hc5); [|apply Hi]. cbn in *.
      rewrite Hadd in * by lia. split; [|lia]. split_and!; [|lia..|].
      * split; [done|]. right. congruence.
      * rewrite Hc1. apply Forall_insert.
        { eapply list.Forall_impl; [exact Hcalls|]. intros x. apply call_ok_mono. lia. }
        cbn. split; [lia|]. by apply list_elem_of_lookup_2 in Hc5.
  - split; [|lia]. split_and!; [done|lia..|]. by apply Forall_insert.
  - split; [|lia]. split_and!; [done|lia..|]. apply Forall_insert; [done|]. cbn.
    rewrite Hadd by lia. lia.
  - split; [|lia]. split_and!; [done|lia..|]. by apply Forall_insert.
  - unfold begin_reset. cbn. rewrite Hadd by lia. split; [|lia]. split_and!; [done|lia..|].
    apply Forall_insert; [|done]. eapply list.Forall_impl; [exact Hcalls|]. intros x. apply call_ok_mono. lia.
Qed.

Definition system_init : System := {| sys_inner := cluster_new; sys_calls := [] |}.

Lemma system_reachable_inv n s :
  nsteps (system_step node_addresses) n system_init s → Z.of_nat n + 2 < u64_modulus →
  system_inv (Z.of_nat n) s.
Proof.
  revert s. induction n as [|n IH]; intros s Hs Hn.
  - inversion Hs. subst. unfold system_inv, inner_ok, is_node. cbn. fold node_count.
    unfold INITIAL_LEADER. split_and!; [lia..|by left|lia|lia|constructor].
  - apply nsteps_inv_r in Hs as (s1 & Hs1 & Hstep). specialize (IH s1 Hs1).
    destruct (system_step_inv (Z.of_nat n) s1 s) as [Hinv _]; [apply IH; lia|lia|done|].
    by replace (Z.of_nat (S n)) with (Z.of_nat n + 1) by lia.
Qed.

(** C26. However the calls of the gateway interleave, fail and are dropped, a leader is
    looked for once per failure of the current one: a step changes the record of the
    leader only for a call that was told it, or found none; and a call that failed on an
    earlier leader is given the current one without a search.  Requests only go to the
    nodes of the cluster, and a caller never gets a gRPC failure or a not-leader error
    of a node. *)
Theorem gateway_one_reset_per_failure n s s' :
  nsteps (system_step node_addresses) n system_init s → Z.of_nat n + 3 < u64_modulus →
  system_step node_addresses s s' →
  let current := reset_leader_counter (sys_inner s) in
  (sys_inner s' = sys_inner s ∨
   reset_leader_counter (sys_inner s') = current + 1 ∧
   (leader_node (sys_inner s) = None ∨ ∃ i, sys_calls s !! i = Some (Asking (current + 1)))) ∧
  (∀ i counter, sys_calls s !! i = Some (Asking counter) → counter ≠ current + 1 →
   ∀ leader, leader_node (sys_inner s) = Some leader →
   get_or_reset_leader node_addresses counter [] (sys_inner s) =
     Returns (Some (leader, current, sys_inner s))) ∧
  (∀ i node counter, sys_calls s !! i = Some (Sending node counter) → node ∈ node_addresses) ∧
  (∀ i r, sys_calls s !! i = Some (Answered r) →
   ∃ error, r = GrpcResponse error ∧
     ∀ e l, error = Some e → error_oneof e ≠ Some (not_leader l)).
Proof.
  intros Hs Hn Hstep current.
  destruct (system_reachable_inv n s Hs) as (Hi & Hc & Hcalls); [lia|].
  rewrite Forall_lookup in Hcalls. fold current in Hc, Hcalls.
  assert (Hadd : current +u 1 = current + 1) by (apply u64_add_small; unfold is_u64; lia).
  split_and!.
  - destruct Hstep as [inner calls|inner calls i c worlds node c' inner' Hi' Hg| | | |inner calls i c worlds Hi' Hg];
      cbn [sys_inner sys_calls] in *; try (by left); pose proof (Hcalls _ _ Hi') as Hok; cbn in Hok;
      apply get_or_reset_cases in Hg as [(nd & Hnd & Hle & Heq)|[Hwhy Hr]];
      try (simplify_eq; by left); try done; right.
    + apply reset_leader_inv in Hr as (-> & -> & _); [|apply Hi]. cbn. fold current.
      split; [done|]. destruct Hwhy as [?|?]; [by left|right]. exists i. rewrite Hi'. do 2 f_equal. lia.
    + cbn. fold current. split; [done|].
      destruct Hwhy as [?|?]; [by left|right]. exists i. rewrite Hi'. do 2 f_equal. lia.
  - intros i c Hi' Hne leader Hl. specialize (Hcalls _ _ Hi'). cbn in Hcalls.
    unfold get_or_reset_leader. fold current. rewrite (proj2 (Z.leb_le _ _)) by lia. by rewrite Hl.
  - intros i node c Hi'. by apply (Hcalls _ _ Hi').
  - intros i r Hi'. specialize (Hcalls _ _ Hi'). cbn in Hcalls. destruct r as [|error]; [done|].
    exists error. split; [done|]. intros e l -> He. cbn in Hcalls. unfold has_not_leader_error in Hcalls.
    cbn in Hcalls. by rewrite He in Hcalls.
Qed.

End search.

(** ** A cluster of three nodes, of which only the second answers probes *)

Module gateway_demo.
Definition addresses : list string := ["node1"; "node2"; "node3"]%string.
Definition quiet : world := λ node,
  if node =? 2 then Some (Some {| peer_id := 3; peer_store_id := 3; peer_role := Voter |}) else None.
Definition found : Inner :=
  {| reset_leader_counter := 1; leader_node := Some "node3"%string; leader_id := 3;
     next_probe_node := 2 |}.
(** Two calls; the first has the leader, and has failed. *)
Definition failed : System := {| sys_inner := found; sys_calls := [Asking 2; Asking 0] |}.

Lemma demo_steps : nsteps (system_step addresses) 4 system_init failed.
Proof.
  eapply nsteps_l; [apply step_request|]. eapply nsteps_l; [apply step_request|].
  eapply nsteps_l;
    [apply (step_leader addresses cluster_new [Asking 0; Asking 0] 0 0 [quiet; quiet] "node3" 1 found);
     vm_compute; reflexivity|].
  eapply nsteps_l; [by apply (step_retry _ _ _ 0 "node3" 1 GrpcFailed)|]. apply nsteps_O.
Qed.

Lemma quiet_ok : world_ok addresses quiet.
Proof.
  intros node id. unfold quiet. destruct (node =? 2); cbn; [|done].
  intros [= <-]. unfold is_node. cbn. lia.
Qed.
End gateway_demo.

(** The failed call starts a search; a call that comes later is given the leader. *)
Lemma gateway_one_reset_per_failure_witness :
  get_or_reset_leader gateway_demo.addresses 0 [] gateway_demo.found =
    Returns (Some ("node3"%string, 1, gateway_demo.found)).
Proof.
  destruct (gateway_one_reset_per_failure gateway_demo.addresses ltac:(vm_compute; split; congruence)
    4 gateway_demo.failed
    {| sys_inner := begin_reset gateway_demo.found; sys_calls := [Lost; Asking 0] |}
    gateway_demo.demo_steps ltac:(reflexivity)) as (_ & Hget & _).
  - apply (step_dropped_in_reset gateway_demo.addresses gateway_demo.found [Asking 2; Asking 0] 0 2 []);
      reflexivity.
  - apply (Hget 1%nat 0); [reflexivity|discriminate|reflexivity].
Defined.

