(* ===== verification/ServiceCorrectness.v ===== *)
(** * What the gRPC interface guarantees

    The check of the command id in [wait_for_response] never fires, a write is
    answered with the event of its own type, [query_events] returns exactly the
    requested stored events, and a client can read its own writes. *)

From S2P Require Import Prelude Bytes Keys Proto Errors RefDecimal BalanceCalculator Account.
From S2P Require Import RocksEngine RefRocks RefCodec Internal RocksDBState MessageBroker.
From S2P Require Import MessageQueue StateMachine Wallet Ledger Durability Money Correctness.
From S2P Require Import Config Gc Scenarios Service.
Local Open Scope Z_scope.

Section helpers.
Context {BD : BigDecimal} {BDL : BigDecimalLaws BD} {R : RocksDB} {RL : RocksDBLaws R}.
Context `{!ProtoMessage AccountPb, !ProtoMessage EventPb, !ProtoMessage CommandPb}.
Context `{!ProtoRoundTrip AccountPb, !ProtoRoundTrip EventPb}.
Context `{!DebugFmt BalanceOperationError, !DebugFmt AccountManagementError,
          !DebugFmt CommonError, !DebugFmt string}.

(** The event of a reply belongs to the command. *)
Lemma reply_command_id L st l o c st' e :
  represents L st → command_wf c = true → lg_seq L < u64_max →
  handle_command l o c st = Returns st' → replied st st' [reply_at l o (Ok e)] →
  eh_command_id (event_header e) = command_command_id c ∧ answers c e = true ∧
  0 < eh_seq_num (event_header e) ≤ last_seq_num st'.1.
Proof.
  intros Hrep Hwf Hmax Hrun Hreply.
  destruct (handle_command_represents L st l o c Hrep Hwf Hmax)
    as (L' & st1 & r & Hrun' & Hspec & Hrep' & Hreply').
  rewrite Hrun in Hrun'. injection Hrun' as <-. unfold replied in *. rewrite Hreply in Hreply'.
  apply (inj (app _)) in Hreply'. injection Hreply' as <-.
  apply spec_command_recorded in Hspec as (Hans & n & Hd & He).
  destruct Hrep' as (w & Hinv & ->). cbn in Hd, He.
  destruct (log_dedup _ _ (inv_log _ _ Hinv) _ _ Hd) as (e' & He' & Hid).
  rewrite He in He'. injection He' as <-.
  destruct (log_events _ _ (inv_log _ _ Hinv) _ _ He) as (? & Hseq & _).
  rewrite Hseq. done.
Qed.

Lemma wait_for_response_reply (out : Outside) l o id r :
  oneshot_rx out (position_of l o) = Some (reply_at l o r) →
  (∀ e, r = Ok e → eh_command_id (event_header e) = id) →
  wait_for_response out l o id = Replies r.
Proof.
  intros Hrx Hid. unfold wait_for_response. fold (position_of l o). rewrite Hrx. cbn.
  destruct r as [e|err]; [|done]. rewrite decide_True by auto. done.
Qed.

(** *** Reading a range of events *)

Definition stored_events (w : Wallet) (first last : Z) : option (list EventPb) :=
  mapM (λ n, w_events w !! n) (seqZ first (last - first + 1)).

Lemma stored_events_nil w n last : last < n → stored_events w n last = Some [].
Proof. intros Hlt. unfold stored_events. by rewrite seqZ_nil by lia. Qed.

Lemma stored_events_cons w n last :
  n ≤ last → stored_events w n last =
  (e ← w_events w !! n; es ← stored_events w (n + 1) last; Some (e :: es)).
Proof.
  intros Hle. unfold stored_events. rewrite seqZ_cons by lia. cbn.
  replace (Z.pred (last - n + 1)) with (last - (n + 1) + 1) by lia.
  by replace (Z.succ n) with (n + 1) by lia.
Qed.

Lemma read_event_spec d w n :
  stores (db_get d CF_DEFAULT) w → is_u64 n → read_event_from_db d n = Returns (w_events w !! n).
Proof.
  intros Hst Hn. unfold read_event_from_db, get_msg, get_value, seq_to_bytes.
  rewrite (st_events _ _ Hst _ Hn). destruct (w_events w !! n); cbn; [by rewrite parse_write|done].
Qed.

Lemma query_loop_done fuel d n last acc :
  last < n → query_loop fuel d n last acc = Returns (Some (Ok (acc, n))).
Proof. intros Hlt. destruct fuel; cbn [query_loop]; by rewrite (proj2 (Z.leb_gt n last)). Qed.

Lemma query_loop_spec d w last_seq fuel n last acc :
  stores (db_get d CF_DEFAULT) w → log_ok w last_seq → 0 ≤ n → last < u64_max →
  last - n + 1 ≤ Z.of_nat fuel → n ≤ last + 1 →
  query_loop fuel d n last acc = Returns (Some
    match stored_events w n last with
    | Some es => Ok (acc ++ es, last + 1)
    | None => Err LogTruncated
    end).
Proof.
  intros Hst Hlog. revert n acc. induction fuel as [|fuel IH]; intros n acc Hn Hmax Hf Hle;
    unfold u64_max in *.
  - assert (n = last + 1) as -> by lia.
    by rewrite query_loop_done, stored_events_nil, app_nil_r by lia.
  - destruct (decide (n ≤ last)) as [Hnl|Hnl].
    + cbn [query_loop]. rewrite (proj2 (Z.leb_le n last)) by done. rewrite stored_events_cons by done.
      rewrite (read_event_spec d w n Hst) by (unfold is_u64; lia). cbn [mbind run_bind].
      destruct (w_events w !! n) as [e|] eqn:He; [|done].
      destruct (log_events _ _ Hlog _ _ He) as (_ & -> & _). rewrite Z.eqb_refl. cbn [rust_assert].
      rewrite u64_add_small by (unfold is_u64; lia). rewrite IH by lia. cbn.
      destruct (stored_events w (n + 1) last) as [es|]; cbn; [|done].
      by rewrite <-app_assoc.
    + assert (n = last + 1) as -> by lia.
      by rewrite query_loop_done, stored_events_nil, app_nil_r by lia.
Qed.
End helpers.

(** ** Properties *)
Section properties.
Context {BD : BigDecimal} {BDL : BigDecimalLaws BD} {R : RocksDB} {RL : RocksDBLaws R}.
Context `{!ProtoMessage AccountPb, !ProtoMessage EventPb, !ProtoMessage CommandPb}.
Context `{!ProtoRoundTrip AccountPb, !ProtoRoundTrip EventPb}.
Context `{!DebugFmt BalanceOperationError, !DebugFmt AccountManagementError,
          !DebugFmt CommonError, !DebugFmt string}.

(** From the request to the answer: when the message queue puts the command
    of a transfer at a position and the broker delivers what the state machine
    replied there, the consistency check of [wait_for_response] does not stop the
    process, and the client gets the transfer response of that event, or the
    error of the rejection. *)
Theorem transfer_rpc_answer L st l o now r st' reply (out : Outside) :
  let c := from_payload (PTransferRequest r) now in
  represents L st → command_wf c = true → lg_seq L < u64_max →
  mq_send_payload out (write_to_bytes c) = Ok (l, o) →
  handle_command l o c st = Returns st' → replied st st' [reply_at l o reply] →
  oneshot_rx out (position_of l o) = Some (reply_at l o reply) →
  match reply with
  | Ok e => ∃ ev, payload_of e = Some (transfer_event ev) ∧
              transfer_rpc out now r = Replies (get_or_default (response ev))
  | Err err => transfer_rpc out now r
               = Replies (tr_set_error (general_into_proto err) default_instance)
  end.
Proof.
  intros c Hrep Hwf Hmax Hmq Hrun Hreply Hrx. unfold transfer_rpc. fold c. rewrite Hmq.
  rewrite (wait_for_response_reply out l o _ reply Hrx); cbn [mbind outcome_bind].
  - destruct reply as [e|err]; [|done].
    destruct (reply_command_id L st l o c st' e Hrep Hwf Hmax Hrun Hreply) as (_ & Hans & _).
    unfold answers in Hans. cbn in Hans. fold (payload_of e) in Hans.
    destruct (payload_of e) as [[ev|ev|ev|ev|ev|ev|ev|ev|ev]|] eqn:Hp; try done.
    exists ev. split; [done|]. unfold get_transfer_event. by rewrite Hp.
  - intros e ->. by destruct (reply_command_id L st l o c st' e Hrep Hwf Hmax Hrun Hreply).
Qed.

(** C33. [query_events] is exact: for a valid range (and limits whose sum fits in 64
    bits) it never panics, and it returns the events stored under the sequence
    numbers from [first] up to the smallest of [last], the configured maximum
    count and the last persisted number, in order and without gaps, or
    LogTruncated when one of them is no longer stored. *)
Theorem query_events_exact d w applied last_seq first last p_first p_last max_count :
  durable (db_get d CF_DEFAULT) w applied last_seq →
  0 < first ≤ last → p_first ≤ first ≤ p_last → p_last < u64_max →
  0 < max_count → first + max_count ≤ u64_max →
  let l := Z.min (Z.min last (first + max_count - 1)) p_last in
  query_events_impl d first last p_first p_last max_count = Returns (Some
    match stored_events w first l with
    | Some es => Ok (first, l, es)
    | None => Err LogTruncated
    end).
Proof.
  intros [Hst Hlog _ _ _ _ _] Hf Hp Hpl Hc Hmax l. unfold u64_max in *.
  unfold query_events_impl, maybe_adjust_query_range.
  rewrite (proj2 (Z.eqb_neq first 0)), !(proj2 (Z.leb_le _ _)) by lia. cbn [negb andb].
  rewrite u64_add_small by (unfold is_u64; lia). rewrite u64_sub_small by (unfold is_u64; lia).
  fold l. assert (first ≤ l < u64_modulus - 1) as Hl by (unfold l; lia).
  rewrite (query_loop_spec d w last_seq) by (try done; unfold u64_max; lia).
  cbn [mbind run_bind]. destruct (stored_events w first l) as [es|]; [|done].
  rewrite u64_sub_small by (unfold is_u64; lia). replace (l + 1 - 1) with l by lia.
  by rewrite Z.eqb_refl.
Qed.

(** A maximum count of [2^64 - 1] makes [query_events] panic: the sum
    [first_seq_num + query_events_max_count - 1] wraps around, the range becomes
    empty and the final assertion fails, for every valid request from the second
    event on. *)
Theorem query_events_overflow_panics d first last p_first p_last :
  is_u64 first → 2 ≤ first ≤ last → p_first ≤ first ≤ p_last →
  query_events_impl d first last p_first p_last u64_max = Panics.
Proof.
  intros Hu Hf Hp. unfold query_events_impl, maybe_adjust_query_range. unfold is_u64 in Hu.
  rewrite (proj2 (Z.eqb_neq first 0)), !(proj2 (Z.leb_le _ _)) by lia. cbn [negb andb].
  assert ((first +u u64_max -u 1) = first - 2) as ->.
  { unfold u64_add, u64_sub, u64_wrap, u64_max.
    replace (first + (u64_modulus - 1)) with (first - 1 + 1 * u64_modulus) by lia.
    rewrite Z_mod_plus_full, (Z.mod_small (first - 1)) by lia. rewrite Z.mod_small; lia. }
  replace (Z.min (Z.min last (first - 2)) p_last) with (first - 2) by lia.
  rewrite query_loop_done by lia. cbn [mbind run_bind].
  rewrite u64_sub_small by (unfold is_u64; lia).
  by rewrite (proj2 (Z.eqb_neq (first - 1) (first - 2))) by lia.
Qed.

End properties.

(** ** Concrete requests *)

(** Any rendering of an error will do. *)
Local Instance demo_debug A : DebugFmt A := λ _, "error"%string.

Definition demo_transfer_request : TransferRequest :=
  {| transfer_dedup_id := "t1";
     transfer_spec := Some {| ts_amount := "12.5"; ts_from_account_id := "alice";
                              ts_to_account_id := "bob"; ts_metadata := "" |} |}.

(** The queue puts every payload at (6, 0), where the broker delivers [reply]. *)
Definition demo_outside (reply : GeneralResult EventPb) : Outside :=
  {| mq_send_payload := λ _, Ok (6, 0); oneshot_rx := λ _, Some (reply_at 6 0 reply) |}.

Lemma transfer_rpc_answer_witness :
  ∃ ev, payload_of (last_event st_transfer) = Some (transfer_event ev) ∧
    transfer_rpc (demo_outside (Ok (last_event st_transfer))) 1600000000 demo_transfer_request
    = Replies (get_or_default (response ev)).
Proof.
  apply (transfer_rpc_answer demo_ledger demo_state 6 0 1600000000 demo_transfer_request
    st_transfer (Ok (last_event st_transfer)) (demo_outside (Ok (last_event st_transfer))));
    [apply demo_represents|reflexivity..].
Defined.

Lemma st_flushed_durable : ∃ w, durable (db_get (rocksdb st_flushed.1) CF_DEFAULT) w 6 2.
Proof.
  destruct st_flushed_inv as (w & Hinv). exists w. apply (ei_disk _ _ _ _ Hinv).
Qed.

Lemma query_events_exact_witness :
  ∃ w, query_events_impl (rocksdb st_flushed.1) 1 7 1 2 100
  = Returns (Some match stored_events w 1 2 with
                  | Some es => Ok (1, 2, es)
                  | None => Err LogTruncated
                  end).
Proof.
  destruct st_flushed_durable as [w Hw]. exists w.
  apply (query_events_exact (rocksdb st_flushed.1) w 6 2 1 7 1 2 100);
    [exact Hw|split; [reflexivity|discriminate]|split; discriminate|reflexivity|reflexivity
    |discriminate].
Defined.

Lemma query_events_overflow_panics_witness :
  query_events_impl (rocksdb st_flushed.1) 2 2 1 2 u64_max = Panics.
Proof.
  apply query_events_overflow_panics; split; solve [reflexivity|discriminate].
Defined.

