(* ===== verification/EndToEnd.v ===== *)
(** * From the log to the answer of a request

    start_up.rs puts three parts in one process: the two threads of the replica
    (Replica.v), the message broker, and the RPC handlers of service.rs that wait for
    their answers.  The answers of the apply loop and the requests of the handlers
    reach the broker over channels; a crash loses all of it but the disk. *)

From S2P Require Import Prelude Bytes Keys Proto Raftpb Errors RefDecimal BalanceCalculator Account.
From S2P Require Import RocksEngine RefRocks RefCodec RaftLog PeerStorage StorageSpec Internal.
From S2P Require Import RocksDBState MessageBroker MessageQueue LogConsumer StateMachine Wallet.
From S2P Require Import Ledger Durability Correctness Scenarios Replication Time Replica.
From S2P Require Import Service ServiceCorrectness.
Local Open Scope Z_scope.

(** ** A request and an event in one turn of the broker *)
Section turn.
Context {BD : BigDecimal}.
Implicit Types b : MessageBroker.

Lemma join_request_sent b r x : x ∈ sent b → x ∈ sent (join_request b r).
Proof. intros Hx. unfold join_request. destruct (_ !! _); cbn; set_solver. Qed.
Lemma join_event_sent b e x : x ∈ sent b → x ∈ sent (join_event b e).
Proof. intros Hx. unfold join_event. destruct (_ !! _) as [[]|]; cbn; set_solver. Qed.
Lemma gc_requests_sent fuel now b x : x ∈ sent b → x ∈ sent (gc_requests_loop fuel now b).
Proof.
  revert b. induction fuel as [|fuel IH]; intros b Hx; cbn; [done|].
  destruct (pop_first _) as [[[p [t s]]|] rest]; [|done]. destruct (_ <? _); [done|].
  apply IH. cbn. set_solver.
Qed.
Lemma broker_acts_sent b acts x : x ∈ sent b → x ∈ sent (foldl broker_act b acts).
Proof.
  revert b. induction acts as [|a acts IH]; intros b Hx; [done|]. cbn. apply IH.
  destruct a; cbn; [by apply join_request_sent|by apply join_event_sent|done|by apply gc_requests_sent].
Qed.

(** What happens at other positions does not touch a position. *)
Lemma join_requests_other b rs p :
  p ∉ ir_position <$> rs →
  inflight_requests (foldl join_request b rs) !! p = inflight_requests b !! p ∧
  inflight_events (foldl join_request b rs) !! p = inflight_events b !! p.
Proof.
  revert b. induction rs as [|r rs IH]; intros b Hp; [done|]. cbn in Hp |- *.
  apply not_elem_of_cons in Hp as [Hne Hp]. destruct (IH (join_request b r) Hp) as [-> ->].
  unfold join_request. destruct (inflight_events b !! ir_position r); cbn.
  - by rewrite lookup_delete_ne by done.
  - by rewrite lookup_insert_ne by done.
Qed.
Lemma join_events_other b es p :
  p ∉ ie_position <$> es → inflight_requests (foldl join_event b es) !! p = inflight_requests b !! p.
Proof.
  revert b. induction es as [|e es IH]; intros b Hp; [done|]. cbn in Hp |- *.
  apply not_elem_of_cons in Hp as [Hne Hp]. rewrite (IH (join_event b e) Hp).
  unfold join_event. destruct (inflight_requests b !! ie_position e) as [[]|]; cbn; [|done].
  by rewrite lookup_delete_ne by done.
Qed.

Lemma split_elem {A B} (f : A → B) l x :
  NoDup (f <$> l) → x ∈ l → ∃ l1 l2, l = l1 ++ x :: l2 ∧ (f x ∉ f <$> l1) ∧ f x ∉ f <$> l2.
Proof.
  intros Hnd (l1 & l2 & ->)%list_elem_of_split. exists l1, l2. split; [done|].
  rewrite fmap_app in Hnd. cbn in Hnd. apply list.NoDup_app in Hnd as (_ & H1 & H2).
  apply list.NoDup_cons in H2 as [H2 _]. split; [|done]. intros Hin. eapply H1; [done|]. left.
Qed.

(** A request that arrives takes its event if it is there, and waits otherwise. *)
Lemma join_requests_arrives b rs r :
  NoDup (ir_position <$> rs) → r ∈ rs →
  match inflight_events b !! ir_position r with
  | Some e => (ir_resp_to r, e) ∈ sent (foldl join_request b rs)
  | None => inflight_requests (foldl join_request b rs) !! ir_position r
            = Some (ir_send_time r, ir_resp_to r)
  end.
Proof.
  intros Hnd Hr. destruct (split_elem ir_position rs r Hnd Hr) as (l1 & l2 & -> & H1 & H2).
  rewrite foldl_app. cbn. destruct (join_requests_other b l1 _ H1) as [_ <-].
  set (b1 := foldl join_request b l1). destruct (inflight_events b1 !! ir_position r) as [e|] eqn:He.
  - assert ((ir_resp_to r, e) ∈ sent (join_request b1 r)) as Hs
      by (unfold join_request; rewrite He; cbn; set_solver).
    clear H2 Hnd Hr. revert Hs. generalize (join_request b1 r). induction l2 as [|r2 l2 IH]; [done|].
    intros b2 Hs. cbn. by apply IH, join_request_sent.
  - destruct (join_requests_other (join_request b1 r) l2 _ H2) as [-> _].
    unfold join_request. rewrite He. cbn. apply lookup_insert_eq.
Qed.

(** An event that arrives goes to the request that waits for it. *)
Lemma join_events_arrives b es e t s :
  NoDup (ie_position <$> es) → e ∈ es → inflight_requests b !! ie_position e = Some (t, s) →
  (s, e) ∈ sent (foldl join_event b es).
Proof.
  intros Hnd He Hw. destruct (split_elem ie_position es e Hnd He) as (l1 & l2 & -> & H1 & H2).
  rewrite foldl_app. cbn. rewrite <-(join_events_other b l1 _ H1) in Hw.
  set (b1 := foldl join_event b l1) in *.
  assert ((s, e) ∈ sent (join_event b1 e)) as Hs
    by (unfold join_event; rewrite Hw; cbn; set_solver).
  clear -Hs. revert Hs. generalize (join_event b1 e). induction l2 as [|e2 l2 IH]; [done|].
  intros b2 Hs. cbn. by apply IH, join_event_sent.
Qed.

Lemma broker_acts_requests b rs : foldl broker_act b (ARequest <$> rs) = foldl join_request b rs.
Proof. revert b. induction rs; intros; cbn; auto. Qed.
Lemma broker_acts_events b es : foldl broker_act b (AEvent <$> es) = foldl join_event b es.
Proof. revert b. induction es; intros; cbn; auto. Qed.

(** While every waiting request is young, none is given up. *)
Lemma gc_requests_keeps now b :
  (∀ p t s, inflight_requests b !! p = Some (t, s) → now - t < max_timeout_ms) →
  gc_inflight_requests now b = b.
Proof.
  intros Hy. unfold gc_inflight_requests. destruct (size _); [done|]. cbn. unfold pop_first.
  destruct (first_key_value (inflight_requests b)) as [[p [t s]]|] eqn:Hf; [|done].
  apply first_key_value_spec in Hf as [Hp _]. by rewrite (proj2 (Z.ltb_lt _ _) (Hy _ _ _ Hp)).
Qed.

(** Once every waiting request is a second old, the collection answers them all. *)
Lemma gc_requests_clears fuel now b :
  (size (inflight_requests b) ≤ fuel)%nat →
  (∀ p t s, inflight_requests b !! p = Some (t, s) → max_timeout_ms ≤ now - t) →
  inflight_requests (gc_requests_loop fuel now b) = ∅.
Proof.
  revert b. induction fuel as [|fuel IH]; intros b Hf Hold; cbn.
  { apply map_size_empty_inv. lia. }
  pose proof (pop_first_size (inflight_requests b)) as Hsz.
  pose proof (pop_first_subseteq (inflight_requests b)) as Hsub. unfold pop_first in *.
  destruct (first_key_value (inflight_requests b)) as [[p [t s]]|] eqn:Hfk.
  - apply first_key_value_spec in Hfk as [Hp _]. cbn in Hsz, Hsub.
    rewrite (proj2 (Z.ltb_ge _ _) (Hold _ _ _ Hp)). apply IH; cbn.
    + rewrite Hsz in Hf; [lia|]. intros He. by rewrite He in Hp.
    + intros p' t' s' Hp'. eapply Hold, lookup_weaken; [exact Hp'|done].
  - by apply first_key_value_None.
Qed.
End turn.

(** ** The node *)

(** The requests submitted so far, those of them the broker has not received yet, and
    the number of events it has received. *)
Record WalletNode `{BD : BigDecimal, R : RocksDB} := {
  nd_threads : Threads;
  nd_broker : MessageBroker;
  nd_submitted : list InflightRequest;
  nd_request_rx : list InflightRequest;
  nd_received : nat }.

Section node.
Context {BD : BigDecimal} {BDL : BigDecimalLaws BD} {R : RocksDB} {RL : RocksDBLaws R}.
Context {TC : TimeCrate}.
Context `{!ProtoMessage AccountPb, !ProtoMessage EventPb}.
Context `{!ProtoRoundTrip AccountPb, !ProtoRoundTrip EventPb}.
Context `{!ProtoMessage Entry, !ProtoRoundTrip Entry, !ProtoEmpty Entry}.
Context `{!ProtoMessage RaftApplyState, !ProtoRoundTrip RaftApplyState}.
Context (parser : Entry → run (Z * list CommandPb)) (region : Region) (capacity : nat).

Definition node_state (n : WalletNode) : StateMachine * ApplyContext :=
  al_state (rt_loop (nd_threads n)).

(** All the apply loop has sent to the broker in the life of the process. *)
Definition nd_events (n : WalletNode) : list InflightEvent := inflight_event_tx (node_state n).2.

Definition node_new (s : Threads) : WalletNode :=
  {| nd_threads := s; nd_broker := broker_new; nd_submitted := []; nd_request_rx := [];
     nd_received := 0 |}.

(** [start_wallet]: the state comes from the disk, the broker and the channels are
    fresh. *)
Definition node_start (d : DB) (batch now : Z) : run WalletNode :=
  st ← recover_from_db d batch now;
  Returns (node_new (threads_new st)).

Definition node_with_threads (s : Threads) (n : WalletNode) : WalletNode :=
  {| nd_threads := s; nd_broker := nd_broker n; nd_submitted := nd_submitted n;
     nd_request_rx := nd_request_rx n; nd_received := nd_received n |}.

(** [wait_for_response] up to the [await]. *)
Definition node_submit (r : InflightRequest) (n : WalletNode) : WalletNode :=
  {| nd_threads := nd_threads n; nd_broker := nd_broker n;
     nd_submitted := nd_submitted n ++ [r]; nd_request_rx := nd_request_rx n ++ [r];
     nd_received := nd_received n |}.

(** One turn of the broker's thread; its channels have senders as long as the process
    lives. *)
Definition node_turn (now : Z) (n : WalletNode) : run WalletNode :=
  '(b, request_rx, event_rx) ← broker_iter now
     {| rx_queue := nd_request_rx n; rx_connected := true |}
     {| rx_queue := drop (nd_received n) (nd_events n); rx_connected := true |} (nd_broker n);
  Returns {| nd_threads := nd_threads n; nd_broker := b; nd_submitted := nd_submitted n;
             nd_request_rx := rx_queue request_rx;
             nd_received := length (nd_events n) - length (rx_queue event_rx) |}.

(** The committed log. *)
Context (C : gmap Z Entry).

(** The queue gives every proposal a position of its own, and every request has a
    oneshot channel of its own. *)
Inductive node_step : relation WalletNode :=
| node_works n s' :
    work_step parser region capacity C (nd_threads n) s' → node_step n (node_with_threads s' n)
| node_submits n r :
    ir_position r ∉ ir_position <$> nd_submitted n → ir_resp_to r ∉ ir_resp_to <$> nd_submitted n →
    node_step n (node_submit r n)
| node_turns n now n' : node_turn now n = Returns n' → node_step n n'
| node_crashes n batch now n' :
    0 < batch → node_start (rocksdb (node_state n).1) batch now = Returns n' → node_step n n'.

(** The answer [r] that the log gives to the command [c] at offset [o] of the entry at
    [l]: the entries before it and the commands before it in its entry come first. *)
Inductive log_answer (l o : Z) (c : CommandPb) (r : GeneralResult EventPb) : Prop :=
| log_answer_intro L rs x cs L1 pre L2 :
    ledger_run parser C (l - 1) L rs → C !! l = Some x → parser x = Returns (l, cs) →
    0 ≤ o → cs !! Z.to_nat o = Some c →
    spec_commands L l 0 (take (Z.to_nat o) cs) = Returns (L1, pre) →
    spec_command L1 l o c = Returns (L2, r) → log_answer l o c r.

(** ** Ledgers name their events *)

Definition dedup_named (L : Ledger) : Prop :=
  ∀ id n, lg_dedup L !! id = Some n →
    n ≤ lg_seq L ∧ ∃ e, lg_events L !! n = Some e ∧ eh_command_id (event_header e) = id.

Lemma spec_command_named L l o c L' r :
  dedup_named L → spec_command L l o c = Returns (L', r) → dedup_named L'.
Proof.
  unfold spec_command. intros HL H. simplify_run.
  destruct (lg_dedup L !! _) as [n|] eqn:Hd; simplify_run; [done|].
  destruct (spec_effects _ _ _ _ _) as [[changed e0]|] eqn:Heff; simplify_run; [|done].
  intros id n. cbn. intros [[<- <-]|[_ Hn]]%lookup_insert_Some.
  - split; [lia|]. eexists. by rewrite lookup_insert_eq.
  - apply HL in Hn as (? & e & ? & ?). split; [lia|]. exists e.
    by rewrite lookup_insert_ne by lia.
Qed.
Lemma spec_commands_named L l o cs L' rs :
  dedup_named L → spec_commands L l o cs = Returns (L', rs) → dedup_named L'.
Proof.
  revert L o rs. induction cs as [|c cs IH]; intros L o rs HL H; cbn [spec_commands] in H.
  - by simplify_run.
  - simplify_run. eauto using spec_command_named.
Qed.
Lemma ledger_run_named i L rs : ledger_run parser C i L rs → dedup_named L.
Proof. induction 1; [done|by eapply spec_commands_named|done]. Qed.

(** The event of an answer belongs to the command. *)
Lemma log_answer_matches l o c e :
  log_answer l o c (Ok e) →
  eh_command_id (event_header e) = command_command_id c ∧ answers c e = true.
Proof.
  intros [L rs x cs L1 pre L2 Hrun _ _ _ _ Hpre Hc].
  apply ledger_run_named in Hrun. apply spec_commands_named in Hpre; [|done].
  pose proof (spec_command_named _ _ _ _ _ _ Hpre Hc) as H2.
  apply spec_command_recorded in Hc as (Hans & n & Hd & He).
  apply H2 in Hd as (_ & e' & He' & ?). split; [congruence|done].
Qed.

(** ** Answers and their positions *)

Lemma spec_commands_lookup L l o cs L' rs k e :
  spec_commands L l o cs = Returns (L', rs) → rs !! k = Some e →
  ∃ c L1 pre L2, cs !! k = Some c ∧ spec_commands L l o (take k cs) = Returns (L1, pre) ∧
    spec_command L1 l (o + Z.of_nat k) c = Returns (L2, ie_event e) ∧
    ie_position e = position_of l (o + Z.of_nat k).
Proof.
  revert L o rs k. induction cs as [|c cs IH]; intros L o rs k H Hk; cbn [spec_commands] in H.
  { by simplify_run. }
  destruct (spec_command L l o c) as [[L1 r]|] eqn:Hc; [|done]. cbn in H.
  destruct (spec_commands L1 l (o + 1) cs) as [[L2 rs']|] eqn:Hcs; [|done]. cbn in H. simplify_run.
  destruct k as [|k]; cbn in Hk.
  - injection Hk as <-. exists c, L, [], L1. cbn. by rewrite Z.add_0_r.
  - destruct (IH _ _ _ _ Hcs Hk) as (c' & L1' & pre & L2' & Hl & Hpre & Hc' & Hp).
    replace (o + Z.of_nat (S k)) with (o + 1 + Z.of_nat k) by lia.
    exists c', L1'. eexists _, L2'. split_and!; [done| |done|done]. cbn. rewrite Hc. cbn. by rewrite Hpre.
Qed.
Lemma spec_commands_length L l o cs L' rs :
  spec_commands L l o cs = Returns (L', rs) → length rs = length cs.
Proof.
  revert L o rs. induction cs as [|c cs IH]; intros L o rs H; cbn [spec_commands] in H.
  - by simplify_run.
  - simplify_run. cbn. f_equal. eauto.
Qed.

(** An answer is the log's, and belongs to an entry behind the start. *)
Lemma answers_since_origin start i rs e :
  answers_since parser C start i rs → e ∈ rs →
  start < log_index (ie_position e) ≤ i ∧
  ∃ c, log_answer (log_index (ie_position e)) (offset (ie_position e)) c (ie_event e).
Proof.
  induction 1 as [|i L rs0 x cs L' rs rs' Hs IH Hrun Hx Hp Hcs]; [by intros ?%not_elem_of_nil|].
  assert (start ≤ i) as Hle by (clear -Hs; induction Hs; lia).
  intros [He|[k Hk]%list_elem_of_lookup_1]%elem_of_app; [destruct (IH He) as [? ?]; split; [lia|done]|].
  destruct (spec_commands_lookup _ _ _ _ _ _ _ _ Hcs Hk) as (c & L1 & pre & L2 & Hc & Hpre & Hcmd & ->).
  cbn [position_of MessageBroker.log_index MessageBroker.offset]. split; [lia|]. exists c.
  eapply (log_answer_intro _ _ _ _ L rs0 x cs L1 pre L2); rewrite ?Z.add_0_l, ?Nat2Z.id; try done; [|lia].
  by replace (i + 1 - 1) with i by lia.
Qed.

Lemma answers_since_NoDup start i rs :
  answers_since parser C start i rs → NoDup (ie_position <$> rs).
Proof.
  induction 1 as [|i L rs0 x cs L' rs rs' Hs IH Hrun Hx Hp Hcs]; [constructor|].
  rewrite fmap_app. apply list.NoDup_app. split_and!; [done| |].
  - intros p (e & -> & He)%list_elem_of_fmap_1 (e' & Heq & He')%list_elem_of_fmap_1.
    apply list_elem_of_lookup_1 in He' as [k Hk].
    destruct (spec_commands_lookup _ _ _ _ _ _ _ _ Hcs Hk) as (_ & _ & _ & _ & _ & _ & _ & Hpos).
    destruct (answers_since_origin _ _ _ _ Hs He) as [Hle _]. rewrite Heq, Hpos in Hle. cbn in Hle. lia.
  - apply list.NoDup_alt. intros j k p Hj Hk. rewrite list_lookup_fmap in Hj, Hk.
    destruct (rs' !! j) as [ej|] eqn:Hej; [|done]. destruct (rs' !! k) as [ek|] eqn:Hek; [|done].
    destruct (spec_commands_lookup _ _ _ _ _ _ _ _ Hcs Hej) as (_ & _ & _ & _ & _ & _ & _ & Hpj).
    destruct (spec_commands_lookup _ _ _ _ _ _ _ _ Hcs Hek) as (_ & _ & _ & _ & _ & _ & _ & Hpk).
    cbn in Hj, Hk. rewrite Hpj in Hj. rewrite Hpk in Hk. simplify_eq. lia.
Qed.

(** Every command behind the start has its answer. *)
Lemma answers_since_complete start i rs l x cs k :
  answers_since parser C start i rs → start < l ≤ i → C !! l = Some x →
  parser x = Returns (l, cs) → (k < length cs)%nat →
  ∃ e, e ∈ rs ∧ ie_position e = position_of l (Z.of_nat k).
Proof.
  induction 1 as [|i L rs0 x' cs' L' rs rs' Hs IH Hrun Hx' Hp' Hcs]; intros Hl Hx Hp Hk; [lia|].
  destruct (decide (l = i + 1)) as [->|Hne].
  - rewrite Hx in Hx'. injection Hx' as <-. rewrite Hp in Hp'. injection Hp' as <-.
    destruct (lookup_lt_is_Some_2 rs' k) as [e He]; [by rewrite (spec_commands_length _ _ _ _ _ _ Hcs)|].
    destruct (spec_commands_lookup _ _ _ _ _ _ _ _ Hcs He) as (_ & _ & _ & _ & _ & _ & _ & Hpos).
    exists e. split; [|done]. apply elem_of_app. right. by eapply list_elem_of_lookup_2.
  - destruct IH as (e & ? & ?); [lia|done..|]. exists e. split; [|done]. apply elem_of_app. by left.
Qed.

(** ** The invariant of the node *)

Hypothesis admissible : log_admissible parser C.
Hypothesis region_u64 : is_u64 (region_id region).

(** [acts] is what the broker has done in the life of the process. *)
Record node_inv (acts : list broker_action) (n : WalletNode) : Prop := {
  ni_threads : threads_inv parser capacity C (nd_threads n);
  ni_answers : ∃ start, answers_since parser C start (applied_index (node_state n).1) (nd_events n);
  ni_broker : nd_broker n = broker_run acts;
  ni_requests : requests_of acts ++ nd_request_rx n = nd_submitted n;
  ni_events : events_of acts = take (nd_received n) (nd_events n);
  ni_received : (nd_received n ≤ length (nd_events n))%nat;
  ni_positions : NoDup (ir_position <$> nd_submitted n);
  ni_channels : NoDup (ir_resp_to <$> nd_submitted n) }.

Lemma node_events_NoDup acts n : node_inv acts n → NoDup (ie_position <$> nd_events n).
Proof. intros Hn. destruct (ni_answers _ _ Hn) as [start Ha]. by eapply answers_since_NoDup. Qed.

Lemma node_unique acts n : node_inv acts n → unique_positions acts.
Proof.
  intros Hn. split.
  - pose proof (ni_positions _ _ Hn) as Hp. rewrite <-(ni_requests _ _ Hn), fmap_app in Hp.
    by apply list.NoDup_app in Hp as [? _].
  - rewrite (ni_events _ _ Hn), fmap_take. pose proof (node_events_NoDup _ _ Hn) as He.
    rewrite <-(take_drop (nd_received n) (_ <$> _)) in He. by apply list.NoDup_app in He as [? _].
Qed.

Lemma node_new_inv s :
  threads_inv parser capacity C s → inflight_event_tx (al_state (rt_loop s)).2 = [] →
  node_inv [] (node_new s).
Proof.
  intros Hs Ht. split; unfold nd_events, node_state; cbn; rewrite ?Ht; try done; try constructor.
  eexists. constructor.
Qed.

Lemma node_work_inv acts n s' :
  node_inv acts n → work_step parser region capacity C (nd_threads n) s' →
  node_inv acts (node_with_threads s' n).
Proof.
  intros [Hs [start Ha] Hb Hr He Hl Hp Hc] Hstep.
  destruct (work_step_inv parser region capacity C admissible _ _ region_u64 Hs Hstep) as [Hs' [Hpre Hans]].
  assert (nd_events n `prefix_of` nd_events (node_with_threads s' n)) as [k Hk] by exact Hpre.
  split; try done; rewrite ?Hk, ?length_app; cbn; [exists start; rewrite <-Hk; by apply Hans| |lia].
  by rewrite take_app_le.
Qed.

Lemma node_submit_inv acts n r :
  node_inv acts n → ir_position r ∉ ir_position <$> nd_submitted n →
  ir_resp_to r ∉ ir_resp_to <$> nd_submitted n → node_inv acts (node_submit r n).
Proof.
  intros [Hs Ha Hb Hr He Hl Hp Hc] Hnp Hnc. split; try done; cbn.
  - by rewrite app_assoc, Hr.
  - rewrite fmap_app. apply list.NoDup_app. split_and!; [done|set_solver|apply NoDup_singleton].
  - rewrite fmap_app. apply list.NoDup_app. split_and!; [done|set_solver|apply NoDup_singleton].
Qed.

(** What a turn of the broker does. *)
Definition turn_acts (now : Z) (n : WalletNode) : list broker_action :=
  (ARequest <$> take 1000 (nd_request_rx n)) ++
  (AEvent <$> take 1000 (drop (nd_received n) (nd_events n))) ++ [AGcEvents; AGcRequests now].

Lemma node_turn_acts now n :
  node_turn now n = Returns
    {| nd_threads := nd_threads n; nd_broker := foldl broker_act (nd_broker n) (turn_acts now n);
       nd_submitted := nd_submitted n; nd_request_rx := drop 1000 (nd_request_rx n);
       nd_received := length (nd_events n) - (length (nd_events n) - nd_received n - 1000) |}.
Proof.
  unfold node_turn. rewrite broker_iter_acts by done. cbn [mbind run_bind rx_queue].
  by rewrite !length_drop.
Qed.

Lemma turn_requests now n : requests_of (turn_acts now n) = take 1000 (nd_request_rx n).
Proof.
  unfold turn_acts, requests_of. rewrite !omap_app. cbn [omap list_omap]. rewrite app_nil_r.
  rewrite <-(app_nil_r (take 1000 (nd_request_rx n))) at 2. f_equal.
  - induction (take 1000 (nd_request_rx n)) as [|? ? IH]; [done|]. cbn in *. by rewrite IH.
  - induction (take 1000 (drop _ _)) as [|? ? IH]; [done|]. by cbn in *.
Qed.
Lemma turn_events now n :
  events_of (turn_acts now n) = take 1000 (drop (nd_received n) (nd_events n)).
Proof.
  unfold turn_acts, events_of. rewrite !omap_app. cbn [omap list_omap]. rewrite app_nil_r.
  change (take 1000 (drop (nd_received n) (nd_events n)))
    with ([] ++ take 1000 (drop (nd_received n) (nd_events n))) at 2. f_equal.
  - induction (take 1000 (nd_request_rx n)) as [|? ? IH]; [done|]. by cbn in *.
  - induction (take 1000 (drop _ _)) as [|? ? IH]; [done|]. cbn in *. by rewrite IH.
Qed.

Lemma node_turn_inv acts now n n' :
  node_inv acts n → node_turn now n = Returns n' → node_inv (acts ++ turn_acts now n) n'.
Proof.
  intros [Hs Ha Hb Hr He Hl Hp Hc] H. rewrite node_turn_acts in H. injection H as <-.
  split; try done; cbn -[take drop].
  - unfold broker_run in *. by rewrite foldl_app, Hb.
  - unfold requests_of in *. rewrite omap_app, <-app_assoc. fold (requests_of (turn_acts now n)).
    by rewrite turn_requests, take_drop.
  - unfold events_of in *. rewrite omap_app, He. fold (events_of (turn_acts now n)).
    rewrite turn_events. unfold nd_events, node_state in *. cbn -[take drop] in *.
    rewrite take_take_drop. set (l := inflight_event_tx _) in *.
    destruct (decide (nd_received n + 1000 ≤ length l)%nat); [f_equal; lia|].
    rewrite !take_ge by lia. done.
  - unfold nd_events, node_state in *. cbn in *. lia.
Qed.

Lemma node_reachable d batch now n0 n :
  (∀ k, db_get d CF_DEFAULT k = None) → 0 < batch → node_start d batch now = Returns n0 →
  rtc node_step n0 n → ∃ acts, node_inv acts n.
Proof.
  intros Hd Hb Hr Hsteps. unfold node_start in Hr.
  destruct (recover_from_db d batch now) as [st0|] eqn:Hr0; [|done]. cbn in Hr. injection Hr as <-.
  destruct (threads_start parser capacity C admissible d batch now st0 Hd Hb Hr0) as [Hinv Ht].
  assert (∃ acts, node_inv acts (node_new (threads_new st0))) as Hn
    by (exists []; by apply node_new_inv).
  clear Hr0 Hinv Ht. induction Hsteps as [|n1 n2 n3 Hstep _ IH]; [done|]. apply IH. clear IH.
  destruct Hn as [acts Hn]. destruct Hstep as [n s' H|n r Hp Hc|n t n' H|n b t n' Hb' H].
  - exists acts. by apply node_work_inv.
  - exists acts. by apply node_submit_inv.
  - eexists. by apply node_turn_inv.
  - destruct (restart_inv parser capacity C admissible b t _ (ni_threads _ _ Hn) Hb')
      as (s1 & H1 & Hi & Ht & _). unfold restart in H1. unfold node_start, node_state in H.
    destruct (recover_from_db _ b t); [|done]. cbn in H, H1. injection H as <-. injection H1 as <-.
    exists []. by apply node_new_inv.
Qed.

(** ** Requests and events meet *)

Definition waits (n : WalletNode) (r : InflightRequest) : Prop :=
  inflight_requests (nd_broker n) !! ir_position r = Some (ir_send_time r, ir_resp_to r).

(** The broker has the request, or will receive it. *)
Definition pending (n : WalletNode) (r : InflightRequest) : Prop :=
  r ∈ nd_request_rx n ∨ waits n r.

(** The broker has the request, or receives it in the next turn; likewise the event. *)
Definition request_here (n : WalletNode) (r : InflightRequest) : Prop :=
  r ∈ take 1000 (nd_request_rx n) ∨ waits n r.
Definition event_here (n : WalletNode) (e : InflightEvent) : Prop :=
  e ∈ take 1000 (drop (nd_received n) (nd_events n)) ∨
  inflight_events (nd_broker n) !! ie_position e = Some e.

(** The broker after the joins of a turn. *)
Definition after_requests (n : WalletNode) : MessageBroker :=
  foldl join_request (nd_broker n) (take 1000 (nd_request_rx n)).
Definition after_joins (n : WalletNode) : MessageBroker :=
  foldl join_event (after_requests n) (take 1000 (drop (nd_received n) (nd_events n))).

Lemma turn_acts_broker now n :
  foldl broker_act (nd_broker n) (turn_acts now n)
  = foldl broker_act (after_joins n) [AGcEvents; AGcRequests now].
Proof. unfold turn_acts. by rewrite !foldl_app, broker_acts_requests, broker_acts_events. Qed.

Lemma turn_sent now n n' x :
  node_turn now n = Returns n' → x ∈ sent (after_joins n) → x ∈ sent (nd_broker n').
Proof.
  rewrite node_turn_acts. intros [= <-] Hx. cbn [nd_broker]. rewrite turn_acts_broker.
  by apply broker_acts_sent.
Qed.
Lemma after_requests_sent n x : x ∈ sent (after_requests n) → x ∈ sent (after_joins n).
Proof. unfold after_joins. rewrite <-broker_acts_events. apply broker_acts_sent. Qed.

Lemma turn_positions acts n :
  node_inv acts n →
  NoDup (ir_position <$> take 1000 (nd_request_rx n)) ∧
  NoDup (ie_position <$> take 1000 (drop (nd_received n) (nd_events n))).
Proof.
  intros Hn. pose proof (ni_positions _ _ Hn) as Hp. pose proof (node_events_NoDup _ _ Hn) as He.
  rewrite <-(ni_requests _ _ Hn), fmap_app in Hp. apply list.NoDup_app in Hp as (_ & _ & Hp).
  rewrite <-(take_drop (nd_received n) (nd_events n)), fmap_app in He.
  apply list.NoDup_app in He as (_ & _ & He).
  split; [apply (sublist_NoDup _ _ Hp)|apply (sublist_NoDup _ _ He)]; apply fmap_sublist, sublist_take.
Qed.

(** A waiting request is not in the channel, a received event not to come. *)
Lemma waits_received acts n r :
  node_inv acts n → waits n r → ir_position r ∉ ir_position <$> nd_request_rx n.
Proof.
  intros Hn Hw. pose proof (broker_run_inv acts (node_unique _ _ Hn)) as Hb.
  unfold waits in Hw. rewrite (ni_broker _ _ Hn) in Hw.
  destruct (bi_requests _ _ Hb _ _ _ Hw) as (r' & Hr' & Hp & _). rewrite <-Hp.
  pose proof (ni_positions _ _ Hn) as Hnd. rewrite <-(ni_requests _ _ Hn), fmap_app in Hnd.
  apply list.NoDup_app in Hnd as (_ & Hnd & _). apply Hnd. by apply list_elem_of_fmap_2.
Qed.
Lemma buffered_received acts n p e :
  node_inv acts n → inflight_events (nd_broker n) !! p = Some e →
  e ∈ nd_events n ∧ ie_position e = p ∧ p ∉ ie_position <$> drop (nd_received n) (nd_events n).
Proof.
  intros Hn Hw. pose proof (broker_run_inv acts (node_unique _ _ Hn)) as Hb.
  rewrite (ni_broker _ _ Hn) in Hw. destruct (bi_events _ _ Hb _ _ Hw) as [He <-].
  rewrite (ni_events _ _ Hn) in He. split_and!; [|done|].
  - eapply elem_of_sublist; [exact He|apply sublist_take].
  - pose proof (node_events_NoDup _ _ Hn) as Hnd.
    rewrite <-(take_drop (nd_received n) (nd_events n)), fmap_app in Hnd.
    apply list.NoDup_app in Hnd as (_ & Hnd & _). apply Hnd. by apply list_elem_of_fmap_2.
Qed.

(** A request that is there after the first step of a turn, without an event. *)
Lemma request_here_waits acts n r :
  node_inv acts n → request_here n r → inflight_events (nd_broker n) !! ir_position r = None →
  inflight_requests (after_requests n) !! ir_position r = Some (ir_send_time r, ir_resp_to r).
Proof.
  intros Hn [Hr|Hw] He.
  - pose proof (join_requests_arrives (nd_broker n) _ r (proj1 (turn_positions _ _ Hn)) Hr) as H.
    by rewrite He in H.
  - unfold after_requests. destruct (join_requests_other (nd_broker n)
      (take 1000 (nd_request_rx n)) (ir_position r)) as [-> _]; [|done].
    intros Hin. eapply waits_received; [done..|]. eapply elem_of_sublist; [exact Hin|].
    apply fmap_sublist, sublist_take.
Qed.

Lemma request_here_not_buffered acts n r e :
  node_inv acts n → waits n r → inflight_events (nd_broker n) !! ir_position r = Some e → False.
Proof.
  intros Hn Hw He. pose proof (broker_run_inv acts (node_unique _ _ Hn)) as Hb. unfold waits in Hw.
  rewrite (ni_broker _ _ Hn) in Hw, He. destruct (bi_disjoint _ _ Hb (ir_position r)); congruence.
Qed.

(** A request and its event that are there in a turn are joined, whatever the
    collections of that turn drop. *)
Lemma turn_meets acts now n n' r e :
  node_inv acts n → node_turn now n = Returns n' → request_here n r → event_here n e →
  ir_position r = ie_position e → (ir_resp_to r, e) ∈ sent (nd_broker n').
Proof.
  intros Hn Ht Hr He Hp. eapply turn_sent; [exact Ht|].
  destruct (inflight_events (nd_broker n) !! ir_position r) as [e'|] eqn:Hb.
  - destruct (buffered_received _ _ _ _ Hn Hb) as (_ & _ & Hrec).
    assert (e' = e) as ->.
    { destruct He as [He|He]; [|congruence]. destruct Hrec. rewrite Hp. apply list_elem_of_fmap_2.
      eapply elem_of_sublist; [exact He|apply sublist_take]. }
    destruct Hr as [Hr|Hw]; [|by destruct (request_here_not_buffered _ _ _ _ Hn Hw Hb)].
    apply after_requests_sent.
    pose proof (join_requests_arrives (nd_broker n) _ r (proj1 (turn_positions _ _ Hn)) Hr) as H.
    by rewrite Hb in H.
  - destruct He as [He|He]; [|congruence].
    pose proof (request_here_waits _ _ _ Hn Hr Hb) as Hw. rewrite Hp in Hw.
    by apply (join_events_arrives _ _ _ _ _ (proj2 (turn_positions _ _ Hn)) He Hw).
Qed.

(** The requests are younger than a second. *)
Definition young (now : Z) (n : WalletNode) : Prop :=
  ∀ r, r ∈ nd_submitted n → now - ir_send_time r < max_timeout_ms.

Lemma waiting_submitted acts (now : Z) n p t s :
  node_inv acts n → inflight_requests (after_joins n) !! p = Some (t, s) →
  ∃ r, r ∈ nd_submitted n ∧ ir_position r = p ∧ ir_resp_to r = s ∧ ir_send_time r = t.
Proof.
  intros Hn Hp. destruct (node_turn now n) as [n'|] eqn:Ht; [|by rewrite node_turn_acts in Ht].
  pose proof (node_turn_inv _ _ _ _ Hn Ht) as Hn'. pose proof (node_unique _ _ Hn') as Hu.
  unfold turn_acts in Hu. rewrite (app_assoc (ARequest <$> _)) in Hu.
  set (joins := (ARequest <$> _) ++ (AEvent <$> _)) in Hu.
  change [AGcEvents; AGcRequests now] with ([AGcEvents] ++ [AGcRequests now]) in Hu.
  rewrite !app_assoc in Hu. do 2 apply unique_positions_prefix in Hu.
  assert (broker_run (acts ++ joins) = after_joins n) as Hrun.
  { unfold joins, broker_run, after_joins, after_requests.
    rewrite !foldl_app, broker_acts_requests, broker_acts_events.
    fold (broker_run acts). by rewrite (ni_broker _ _ Hn). }
  rewrite <-Hrun in Hp.
  destruct (bi_requests _ _ (broker_run_inv _ Hu) _ _ _ Hp) as (r & Hr & ?). exists r. split; [|done].
  rewrite <-(ni_requests _ _ Hn), <-(take_drop 1000 (nd_request_rx n)), app_assoc.
  apply elem_of_app. left. rewrite <-(turn_requests now n). unfold requests_of in *.
  rewrite <-omap_app. unfold turn_acts. rewrite (app_assoc (ARequest <$> _)), app_assoc, omap_app.
  apply elem_of_app. by left.
Qed.
Lemma after_joins_young acts now n :
  node_inv acts n → young now n →
  gc_inflight_requests now (gc_inflight_events (after_joins n)) = gc_inflight_events (after_joins n).
Proof.
  intros Hn Hy. apply gc_requests_keeps. cbn. intros p t s Hp.
  destruct (waiting_submitted _ now _ _ _ _ Hn Hp) as (r & Hr & _ & _ & <-). by apply Hy.
Qed.

(** In a turn in which all requests are young, a pending request stays pending or
    gets an event of the apply loop. *)
Lemma turn_pending acts now n n' r :
  node_inv acts n → young now n → node_turn now n = Returns n' → pending n r →
  pending n' r ∨ ∃ e, e ∈ nd_events n ∧ ie_position e = ir_position r ∧
    (ir_resp_to r, e) ∈ sent (nd_broker n').
Proof.
  intros Hn Hy Ht Hpend.
  assert (r ∈ drop 1000 (nd_request_rx n) ∨ request_here n r) as [Hlate|Hhere].
  { destruct Hpend as [Hr|Hw]; [|by right; right].
    rewrite <-(take_drop 1000 (nd_request_rx n)) in Hr.
    apply elem_of_app in Hr as [Hr|Hr]; [by right; left|by left]. }
  { rewrite node_turn_acts in Ht. injection Ht as <-. by left; left. }
  destruct (inflight_events (nd_broker n) !! ir_position r) as [e|] eqn:He.
  { destruct (buffered_received _ _ _ _ Hn He) as (Hin & Hp & _). right. exists e.
    split_and!; [done|done|]. eapply turn_meets; [done..| |done]. right. by rewrite Hp. }
  pose proof (request_here_waits _ _ _ Hn Hhere He) as Hw.
  set (es := take 1000 (drop (nd_received n) (nd_events n))).
  destruct (decide (ir_position r ∈ ie_position <$> es)) as [Hin|Hnin].
  { apply list_elem_of_fmap_1 in Hin as (e & Hp & Hine). right. exists e. split_and!; [|done|].
    - eapply elem_of_sublist; [exact Hine|]. etrans; [apply sublist_take|apply sublist_drop].
    - eapply turn_meets; [done..|by left|done]. }
  left. right. unfold waits. rewrite node_turn_acts in Ht. injection Ht as <-. cbn [nd_broker].
  rewrite turn_acts_broker. cbn [foldl broker_act]. rewrite (after_joins_young _ _ _ Hn Hy). cbn.
  unfold after_joins. by rewrite join_events_other.
Qed.

(** ** Turn after turn *)

Definition turn (now : Z) : relation WalletNode := λ n n', node_turn now n = Returns n'.

Lemma turn_frame now n n' :
  turn now n n' →
  nd_threads n' = nd_threads n ∧ nd_submitted n' = nd_submitted n ∧ nd_events n' = nd_events n ∧
  nd_request_rx n' = drop 1000 (nd_request_rx n) ∧ ∀ x, x ∈ sent (nd_broker n) → x ∈ sent (nd_broker n').
Proof.
  unfold turn. rewrite node_turn_acts. intros [= <-]. cbn [nd_broker]. split_and!; try done.
  intros x. apply broker_acts_sent.
Qed.
Lemma turns_frame now n n' :
  rtc (turn now) n n' →
  nd_threads n' = nd_threads n ∧ nd_submitted n' = nd_submitted n ∧ nd_events n' = nd_events n ∧
  ∀ x, x ∈ sent (nd_broker n) → x ∈ sent (nd_broker n').
Proof.
  induction 1 as [n|n1 n2 n3 H _ (IH1 & IH2 & IH3 & IH4)]; [done|].
  apply turn_frame in H as (? & ? & ? & _ & ?). split_and!; [congruence..|auto].
Qed.
Lemma turns_inv acts now n n' : node_inv acts n → rtc (turn now) n n' → ∃ acts', node_inv acts' n'.
Proof.
  intros Hn H. revert acts Hn. induction H as [n|n1 n2 n3 H _ IH]; intros acts Hn; [eauto|].
  eapply IH, node_turn_inv; done.
Qed.
Lemma turns_are_steps now n n' : rtc (turn now) n n' → rtc node_step n n'.
Proof. apply rtc_subrel. intros ??. apply node_turns. Qed.
Lemma turn_total now n : ∃ n', turn now n n'.
Proof. unfold turn. rewrite node_turn_acts. eauto. Qed.

(** The broker catches up with the requests. *)
Lemma turns_catch_up now n : ∃ n', rtc (turn now) n n' ∧ nd_request_rx n' = [].
Proof.
  remember (length (nd_request_rx n)) as k eqn:Hk. revert n Hk.
  induction (lt_wf k) as [k _ IH]. intros n ->.
  destruct (nd_request_rx n) as [|r rs] eqn:Hrx; [by exists n|].
  destruct (turn_total now n) as [n1 Ht]. destruct (turn_frame _ _ _ Ht) as (_ & _ & _ & Hd & _).
  destruct (IH (length (nd_request_rx n1))) with (n := n1) as (n' & ? & ?); [|done|].
  - rewrite Hd, Hrx, length_drop. cbn. lia.
  - exists n'. split; [by eapply rtc_l|done].
Qed.

Lemma turns_pending acts now n n' r :
  node_inv acts n → young now n → rtc (turn now) n n' → pending n r →
  pending n' r ∨ ∃ e, e ∈ nd_events n ∧ ie_position e = ir_position r ∧
    (ir_resp_to r, e) ∈ sent (nd_broker n').
Proof.
  intros Hn Hy H. revert acts Hn Hy. induction H as [n|n1 n2 n3 H Hs IH]; intros acts Hn Hy Hp; [by left|].
  destruct (turn_frame _ _ _ H) as (_ & Hsub & Hev & _ & _).
  destruct (turn_pending _ _ _ _ _ Hn Hy H Hp) as [Hp'|(e & ? & ? & ?)].
  - rewrite <-Hev. eapply IH; [by eapply node_turn_inv| |done]. unfold young. by rewrite Hsub.
  - right. exists e. split_and!; [done|done|]. by apply (turns_frame _ _ _ Hs).
Qed.

(** The broker catches up with the events. *)
Lemma turns_deliver acts now n r e :
  node_inv acts n → young now n → nd_request_rx n = [] → waits n r →
  e ∈ drop (nd_received n) (nd_events n) → ir_position r = ie_position e →
  ∃ n', rtc (turn now) n n' ∧ (ir_resp_to r, e) ∈ sent (nd_broker n').
Proof.
  remember (length (nd_events n) - nd_received n)%nat as k eqn:Hk. revert acts n Hk.
  induction (lt_wf k) as [k _ IH]. intros acts n -> Hn Hy Hrx Hw He Hp.
  destruct (turn_total now n) as [n1 Ht].
  pose proof He as He'. rewrite <-(take_drop 1000 (drop _ _)), drop_drop in He'.
  apply elem_of_app in He' as [Hnow|Hlater].
  { exists n1. split; [by apply rtc_once|]. eapply turn_meets; [done|done|by right|by left|done]. }
  destruct (turn_frame _ _ _ Ht) as (_ & Hsub & Hev & Hrx1 & _). rewrite Hrx in Hrx1.
  pose proof (node_turn_inv _ _ _ _ Hn Ht) as Hn1.
  destruct (turn_pending _ _ _ _ _ Hn Hy Ht (or_intror Hw)) as [[Hp1|Hw1]|(e' & Hin & Hp' & Hs)].
  - rewrite Hrx1 in Hp1. by apply not_elem_of_nil in Hp1.
  - assert (nd_received n + 1000 < length (nd_events n))%nat as Hlen.
    { destruct (decide (nd_received n + 1000 < length (nd_events n))%nat); [done|].
      rewrite drop_ge in Hlater by lia. by apply not_elem_of_nil in Hlater. }
    assert (nd_received n1 = nd_received n + 1000)%nat as Hrec.
    { unfold turn in Ht. rewrite node_turn_acts in Ht. injection Ht as <-. cbn [nd_received]. lia. }
    assert (young now n1) as Hy1 by (unfold young; by rewrite Hsub).
    rewrite <-Hev, <-Hrec in Hlater.
    destruct (IH (length (nd_events n1) - nd_received n1)%nat ltac:(rewrite Hev, Hrec; lia) _ n1 eq_refl
      Hn1 Hy1 Hrx1 Hw1 Hlater Hp) as (n' & ? & ?).
    exists n'. split; [by eapply rtc_l|done].
  - assert (e' = e) as ->; [|exists n1; split; [by apply rtc_once|done]].
    eapply (NoDup_fmap_elem ie_position); [exact (node_events_NoDup _ _ Hn)|done| |congruence].
    eapply elem_of_sublist; [exact He|apply sublist_drop].
Qed.

Lemma young_exists n : ∃ now, young now n.
Proof.
  unfold young. induction (nd_submitted n) as [|r rs [now IH]]; [by exists 0; intros ? ?%not_elem_of_nil|].
  exists (Z.min now (ir_send_time r)). unfold max_timeout_ms in *.
  intros r' [->|Hr]%elem_of_cons; [lia|]. apply IH in Hr. lia.
Qed.

(** ** The threads go on while the broker rests *)

Lemma works_extend s s' :
  threads_inv parser capacity C s → rtc (work_step parser region capacity C) s s' →
  answers_extend parser C (al_state (rt_loop s)) (al_state (rt_loop s')).
Proof.
  intros Hs H. revert Hs. induction H as [s|s1 s2 s3 H _ IH]; intros Hs; [done|].
  destruct (work_step_inv parser region capacity C admissible _ _ region_u64 Hs H) as [Hs2 He].
  etrans; [exact He|by apply IH].
Qed.
Lemma node_works_inv acts n s' :
  node_inv acts n → rtc (work_step parser region capacity C) (nd_threads n) s' →
  node_inv acts (node_with_threads s' n) ∧ rtc node_step n (node_with_threads s' n).
Proof.
  intros Hn H. remember (nd_threads n) as s eqn:Hs. revert n Hn Hs.
  induction H as [s|s1 s2 s3 H _ IH]; intros n Hn ->; [by destruct n|].
  destruct (IH (node_with_threads s2 n)) as [? ?]; [by apply node_work_inv|done|].
  split; [done|]. eapply rtc_l; [by apply node_works|done].
Qed.
Lemma answers_since_le start i rs : answers_since parser C start i rs → start ≤ i.
Proof. induction 1; lia. Qed.

(** The log's answer to a command that is applied after [n] is not among the events
    of [n], and the broker receives it later. *)
Lemma drained_event acts n s' l x cs k :
  node_inv acts n → rtc (work_step parser region capacity C) (nd_threads n) s' →
  applied_index (node_state n).1 < l ≤ applied_index (al_state (rt_loop s')).1 →
  C !! l = Some x → parser x = Returns (l, cs) → (k < length cs)%nat →
  let n' := node_with_threads s' n in
  ∃ e c, e ∈ drop (nd_received n') (nd_events n') ∧ ie_position e = position_of l (Z.of_nat k) ∧
    log_answer l (Z.of_nat k) c (ie_event e).
Proof.
  intros Hn Hw Hl Hx Hp Hk n'. destruct (ni_answers _ _ Hn) as [start Ha].
  destruct (works_extend _ _ (ni_threads _ _ Hn) Hw) as [[new Hnew] Hext].
  pose proof (Hext start Ha) as Ha'. pose proof (answers_since_le _ _ _ Ha) as Hle.
  destruct (answers_since_complete _ _ _ l x cs k Ha' ltac:(lia) Hx Hp Hk) as (e & He & Hpos).
  destruct (answers_since_origin _ _ _ _ Ha' He) as [_ [c Hc]]. rewrite Hpos in Hc. cbn in Hc.
  exists e, c. split_and!; [|done|done]. unfold n', nd_events, node_state. cbn.
  pose proof (ni_received _ _ Hn) as Hrec. unfold nd_events, node_state in Hrec.
  rewrite Hnew in He |- *. rewrite drop_app_le by done.
  apply elem_of_app in He as [He|He]; [|set_solver].
  destruct (answers_since_origin _ _ _ _ Ha He) as [Hi _]. rewrite Hpos in Hi. cbn in Hi. lia.
Qed.

(** A pending request for a command that is read but not applied gets the log's answer. *)
Lemma pending_answered acts n r x cs :
  (0 < capacity)%nat → node_inv acts n → pending n r →
  let l := log_index (ir_position r) in
  let o := offset (ir_position r) in
  al_applied_index (rt_loop (nd_threads n)) < l < rt_log_index (nd_threads n) →
  C !! l = Some x → parser x = Returns (l, cs) → 0 ≤ o < Z.of_nat (length cs) →
  ∃ n' c reply, rtc node_step n n' ∧ log_answer l o c reply ∧
    (ir_resp_to r, reply_at l o reply) ∈ sent (nd_broker n').
Proof.
  intros Hcap Hn Hpend l o Hl Hx Hp Ho. destruct (young_exists n) as [now Hy].
  rewrite (ti_applied _ _ _ _ (ni_threads _ _ Hn)) in Hl. fold (node_state n) in Hl.
  destruct (turns_catch_up now n) as (n1 & H1 & Hrx). destruct (turns_frame _ _ _ H1) as (Ht1 & Hs1 & _ & _).
  destruct (turns_inv _ _ _ _ Hn H1) as [acts1 Hn1].
  assert (waits n1 r) as Hw.
  { destruct (turns_pending _ _ _ _ _ Hn Hy H1 Hpend) as [[Hr|]|(e & He & Hpe & _)]; [|done|].
    - rewrite Hrx in Hr. by apply not_elem_of_nil in Hr.
    - destruct (ni_answers _ _ Hn) as [start Ha].
      destruct (answers_since_origin _ _ _ _ Ha He) as [Hi _]. rewrite Hpe in Hi. fold l in Hi. lia. }
  destruct (threads_drain parser region capacity C admissible {| ts_sec := 0; ts_nsec := 0 |} 0
    (nd_threads n1) Hcap (ni_threads _ _ Hn1)) as (s' & Hwork & Hs' & He & Hli).
  pose proof (delivered_length parser C admissible _ _ _ (ti_le _ _ _ _ Hs') (ti_flight _ _ _ _ Hs')) as Hlen.
  rewrite He, Hli, Ht1, (ti_applied _ _ _ _ Hs') in Hlen. cbn in Hlen.
  destruct (node_works_inv _ _ _ Hn1 Hwork) as [Hn2 H2].
  destruct (drained_event _ _ _ l x cs (Z.to_nat o) Hn1 Hwork) as (e & c & Hev & Hpos & Hans);
    [unfold node_state in *; rewrite Ht1; lia|done..|lia|].
  rewrite Z2Nat.id in Hpos, Hans by lia.
  destruct (turns_deliver _ now (node_with_threads s' n1) r e Hn2) as (n3 & H3 & Hsent); try done.
  { unfold young. cbn. by rewrite Hs1. }
  { rewrite Hpos. by destruct (ir_position r). }
  exists n3, c, (ie_event e). split_and!; [|done|].
  - etrans; [by eapply turns_are_steps|].
    etrans; [exact H2|by eapply turns_are_steps].
  - destruct e as [p ev]. cbn in Hpos |- *. by subst p.
Qed.

(** When all requests are old, the broker answers the last of them. *)
Lemma turns_answer_all acts now n :
  node_inv acts n → (∀ r, r ∈ nd_submitted n → max_timeout_ms ≤ now - ir_send_time r) →
  ∃ n', rtc (turn now) n n' ∧ (sent (nd_broker n')).*1 ≡ₚ ir_resp_to <$> nd_submitted n.
Proof.
  intros Hn Hold. destruct (turns_catch_up now n) as (n1 & H1 & Hrx).
  destruct (turns_frame _ _ _ H1) as (_ & Hs1 & _ & _).
  destruct (turns_inv _ _ _ _ Hn H1) as [acts1 Hn1]. destruct (turn_total now n1) as [n2 H2].
  destruct (turn_frame _ _ _ H2) as (_ & Hs2 & _ & Hrx2 & _). rewrite Hrx in Hrx2.
  pose proof (node_turn_inv _ _ _ _ Hn1 H2) as Hn2. exists n2. split; [by eapply rtc_r|].
  pose proof (broker_run_inv _ (node_unique _ _ Hn2)) as Hb. rewrite <-(ni_broker _ _ Hn2) in Hb.
  pose proof (ni_requests _ _ Hn2) as Hreq. rewrite Hrx2, app_nil_r in Hreq.
  rewrite <-Hs1, <-Hs2, <-Hreq, <-(bi_once _ _ Hb).
  assert (inflight_requests (nd_broker n2) = ∅) as ->; [|unfold waiting; by rewrite map_to_list_empty, app_nil_r].
  destruct (node_unique _ _ Hn2) as [Hu _]. unfold turn in H2. rewrite node_turn_acts in H2.
  injection H2 as <-. cbn [nd_broker] in *. rewrite turn_acts_broker. cbn [foldl broker_act].
  apply gc_requests_clears; [done|]. cbn. intros p t s Hp.
  destruct (waiting_submitted _ now _ _ _ _ Hn1 Hp) as (r & Hr & _ & _ & <-). apply Hold. by rewrite <-Hs1.
Qed.

(** What the broker has sent is the answer of the log, or a timeout, and passes the check
    of [wait_for_response]. *)
Lemma sent_answer acts n s e c (out : Outside) :
  node_inv acts n → (s, e) ∈ sent (nd_broker n) →
  let l := log_index (ie_position e) in
  let o := offset (ie_position e) in
  (∀ x cs, C !! l = Some x → parser x = Returns (l, cs) → cs !! Z.to_nat o = Some c) →
  oneshot_rx out (ie_position e) = Some e →
  wait_for_response out l o (command_command_id c) = Replies (ie_event e) ∧
  (ie_event e = Err (ECommon Timeout) ∨ log_answer l o c (ie_event e)).
Proof.
  intros Hn Hsent l o Hlog Hrx.
  pose proof (broker_run_inv _ (node_unique _ _ Hn)) as Hbi. rewrite <-(ni_broker _ _ Hn) in Hbi.
  destruct (bi_sent _ _ Hbi _ _ Hsent) as (_ & _ & _ & _ & Hev).
  assert (ie_event e = Err (ECommon Timeout) ∨ log_answer l o c (ie_event e)) as Hans.
  { destruct Hev as [Hev| ->]; [right|by left]. destruct (ni_answers _ _ Hn) as [start Ha].
    rewrite (ni_events _ _ Hn) in Hev.
    destruct (answers_since_origin _ _ _ e Ha) as [_ [c' Hc']].
    { eapply elem_of_sublist; [exact Hev|apply sublist_take]. }
    destruct (Hc') as [L rs x cs L1 pre L2 ? Hx Hpar ? Hc ? ?].
    pose proof (Hlog _ _ Hx Hpar) as Hc2. fold o in Hc. by assert (c' = c) as -> by congruence. }
  split; [|done].
  assert (position_of l o = ie_position e) as Hpos by (unfold l, o; by destruct (ie_position e)).
  apply wait_for_response_reply.
  - rewrite Hpos, Hrx. unfold reply_at. rewrite Hpos. by destruct e.
  - intros ev Hok. destruct Hans as [Ht|Hans]; [congruence|]. rewrite Hok in Hans.
    by apply log_answer_matches in Hans as [? _].
Qed.

(** ** Properties *)


End node.

(** ** A request that meets its answer *)

Module node_demo.
Import replication_demo threads_demo.
Local Existing Instance threads_demo.demo_time.

Definition request : InflightRequest :=
  {| ir_position := position_of 6 0; ir_resp_to := 7; ir_send_time := 0 |}.

(** The request comes while the entry is on its way to the apply loop. *)
Definition n0 : WalletNode := node_new s0.
Definition n1 : WalletNode := node_submit request (node_with_threads s1 n0).
(** The entry is applied, and the broker makes a turn. *)
Definition n2 : WalletNode := node_submit request (node_with_threads s5 n0).
Definition n3 : WalletNode := or_else n2 (node_turn 0 n2).
Definition answer : InflightEvent := default (timeout_event (position_of 6 0)) (head (nd_events n3)).

Definition command : CommandPb := default default_instance (head demo_entry).
Definition outside : Outside :=
  {| mq_send_payload := λ _, Ok (6, 0); oneshot_rx := λ _, Some answer |}.

Lemma starts_node : node_start demo_db 10 0 = Returns n0.
Proof.
  unfold node_start. rewrite (returns_eq demo_state (recover_from_db demo_db 10 0)); [done|].
  vm_compute. reflexivity.
Qed.
Lemma command_in_log x cs :
  C !! 6 = Some x → parser x = Returns (6, cs) → cs !! Z.to_nat 0 = Some command.
Proof.
  rewrite log_lookup, decide_True by done. intros [= <-]. rewrite parsed. by intros [= <-].
Qed.
Lemma not_timeout : ie_event answer ≠ Err (ECommon Timeout).
Proof.
  intros H. apply (f_equal (λ r, match r with Ok _ => true | Err _ => false end)) in H.
  vm_compute in H. done.
Qed.

Lemma works n s s' :
  nd_threads n = s → rtc (work_step parser demo.region 4 C) s s' →
  rtc (node_step parser demo.region 4 C) n (node_with_threads s' n).
Proof.
  intros <- H. remember (nd_threads n) as s eqn:Hs. revert n Hs.
  induction H as [s|s1 s2 s3 H _ IH]; intros n ->; [by destruct n|].
  eapply rtc_l; [by apply node_works|]. by apply (IH (node_with_threads s2 n)).
Qed.
Lemma submits n : nd_submitted n = [] → node_step parser demo.region 4 C n (node_submit request n).
Proof. intros Hn. apply node_submits; rewrite Hn; apply not_elem_of_nil. Qed.

Lemma reaches_n1 : rtc (node_step parser demo.region 4 C) n0 n1.
Proof.
  eapply rtc_r; [apply (works n0 s0 s1); [done|apply rtc_once, demo_read]|by apply submits].
Qed.
Lemma reaches_n3 : rtc (node_step parser demo.region 4 C) n0 n3.
Proof.
  eapply rtc_r; [eapply rtc_r; [apply (works n0 s0 s5); [done|apply demo_work]|by apply submits]|].
  apply (node_turns _ _ _ _ _ 0), returns_eq. vm_compute. reflexivity.
Qed.
Lemma answer_sent : (7, answer) ∈ sent (nd_broker n3).
Proof. assert (sent (nd_broker n3) = [(7, answer)]) as -> by (vm_compute; reflexivity). left. Qed.
End node_demo.


