(* ===== verification/Rpc.v ===== *)
(** * From the request of a client to its response

    The nine writing RPCs of service.rs behind one interface, and their whole way: the
    command goes through the message queue (Pipeline.v) into the log, the replica
    carries it out (Replica.v), the broker joins its answer with the waiting handler
    (EndToEnd.v), and the handler makes a response of it. *)

From S2P Require Import Prelude Bytes Keys Proto Raftpb Errors RefDecimal BalanceCalculator Account.
From S2P Require Import RocksEngine RefRocks RefCodec RaftLog PeerStorage StorageSpec RaftCmd Batch.
From S2P Require Import Apply ApplySpec Peer MessageQueue LogConsumer RaftKv Pipeline.
From S2P Require Import Internal RocksDBState MessageBroker StateMachine Wallet Ledger Durability.
From S2P Require Import Correctness Scenarios Replication Time Replica Service.
From S2P Require Import ServiceCorrectness EndToEnd.
Local Open Scope Z_scope.

(** ** The interface of a writing RPC *)

Section rpcs.
Context {BD : BigDecimal}.
Context `{!ProtoMessage CommandPb}.
Context `{!DebugFmt BalanceOperationError, !DebugFmt AccountManagementError,
          !DebugFmt CommonError, !DebugFmt string}.

(** [wr_get] is the getter of the event that answers the request, and [wr_set_error] the
    setter of the error of the response. *)
Class WriteRpc (Req Resp : Type) `{!Default Resp} := {
  wr_rpc : Outside → Z → Req → outcome Resp;
  wr_payload : Req → CommandPayload;
  wr_event : EventOf Resp → EventPayload_oneof_event;
  wr_get : EventPb → option (EventOf Resp);
  wr_set_error : ErrorPb → Resp → Resp;
  wr_get_event e x : payload_of e = Some (wr_event x) → wr_get e = Some x;
  wr_matches r now e : answers (from_payload (wr_payload r) now) e = true →
    ∃ x, payload_of e = Some (wr_event x);
  wr_runs out now r :
    let c := from_payload (wr_payload r) now in
    wr_rpc out now r =
    match mq_send_payload out (write_to_bytes c) with
    | Ok (l, o) =>
        resp ← wait_for_response out l o (command_command_id c);
        Replies match resp with
                | Ok e => response_of (wr_get e)
                | Err err => wr_set_error (general_into_proto err) default_instance
                end
    | Err e => Replies (wr_set_error (common_into_proto (MessageQueueError e)) default_instance)
    end }.

(** The laws of an RPC: the getter reads its event, only its event has the type of the
    command, and the handler is the common one. *)
Ltac write_rpc get :=
  first
    [ intros e x He; unfold get; by rewrite He
    | intros r now e He; unfold answers in He; cbn in He; fold (payload_of e) in He;
      destruct (payload_of e) as [[]|]; try done; by eexists
    | done ].

Global Program Instance create_account_write : WriteRpc CreateAccountRequest (AccountResponse CreateAccountRequest) := {|
  wr_rpc := create_account_rpc; wr_payload := PCreateAccountRequest;
  wr_event := account_created_event; wr_get := get_account_created_event;
  wr_set_error := ar_set_error |}.
Solve All Obligations with write_rpc get_account_created_event.

Global Program Instance lock_account_write : WriteRpc LockAccountRequest (AccountResponse LockAccountRequest) := {|
  wr_rpc := lock_account_rpc; wr_payload := PLockAccountRequest;
  wr_event := account_locked_event; wr_get := get_account_locked_event;
  wr_set_error := ar_set_error |}.
Solve All Obligations with write_rpc get_account_locked_event.

Global Program Instance unlock_account_write : WriteRpc UnlockAccountRequest (AccountResponse UnlockAccountRequest) := {|
  wr_rpc := unlock_account_rpc; wr_payload := PUnlockAccountRequest;
  wr_event := account_unlock_event; wr_get := get_account_unlock_event;
  wr_set_error := ar_set_error |}.
Solve All Obligations with write_rpc get_account_unlock_event.

Global Program Instance delete_account_write : WriteRpc DeleteAccountRequest (AccountResponse DeleteAccountRequest) := {|
  wr_rpc := delete_account_rpc; wr_payload := PDeleteAccountRequest;
  wr_event := account_deleted_event; wr_get := get_account_deleted_event;
  wr_set_error := ar_set_error |}.
Solve All Obligations with write_rpc get_account_deleted_event.

Global Program Instance update_account_config_write : WriteRpc UpdateAccountConfigRequest (AccountResponse UpdateAccountConfigRequest) := {|
  wr_rpc := update_account_config_rpc; wr_payload := PUpdateAccountConfigRequest;
  wr_event := account_config_update_event; wr_get := get_account_config_update_event;
  wr_set_error := ar_set_error |}.
Solve All Obligations with write_rpc get_account_config_update_event.

Global Program Instance reserve_write : WriteRpc ReserveRequest (BalanceResponse ReserveRequest) := {|
  wr_rpc := reserve_rpc; wr_payload := PReserveRequest;
  wr_event := reserve_event; wr_get := get_reserve_event;
  wr_set_error := br_set_error |}.
Solve All Obligations with write_rpc get_reserve_event.

Global Program Instance release_write : WriteRpc ReleaseRequest (BalanceResponse ReleaseRequest) := {|
  wr_rpc := release_rpc; wr_payload := PReleaseRequest;
  wr_event := release_event; wr_get := get_release_event;
  wr_set_error := br_set_error |}.
Solve All Obligations with write_rpc get_release_event.

Global Program Instance batch_balance_operation_write : WriteRpc BatchBalanceOperationRequest BatchBalanceOperationResponse := {|
  wr_rpc := batch_balance_operation_rpc; wr_payload := PBatchBalanceOperationRequest;
  wr_event := batch_balance_operation_event; wr_get := get_batch_balance_operation_event;
  wr_set_error := bb_set_error |}.
Solve All Obligations with write_rpc get_batch_balance_operation_event.

Global Program Instance transfer_write : WriteRpc TransferRequest TransferResponse := {|
  wr_rpc := transfer_rpc; wr_payload := PTransferRequest;
  wr_event := transfer_event; wr_get := get_transfer_event;
  wr_set_error := tr_set_error |}.
Solve All Obligations with write_rpc get_transfer_event.

(** What the handler makes of an answer. *)
Definition rpc_response {Req Resp} `{WriteRpc Req Resp} (reply : GeneralResult EventPb) : Resp :=
  match reply with
  | Ok e => response_of (wr_get e)
  | Err err => wr_set_error (general_into_proto err) default_instance
  end.
End rpcs.

(** ** The whole way *)

Section whole_way.
Context {BD : BigDecimal} {BDL : BigDecimalLaws BD} {R : RocksDB} {RL : RocksDBLaws R}.
Context {TC : TimeCrate}.
Context `{!ProtoMessage AccountPb, !ProtoMessage EventPb, !ProtoMessage CommandPb}.
Context `{!ProtoRoundTrip AccountPb, !ProtoRoundTrip EventPb, !ProtoRoundTrip CommandPb}.
Context `{!ProtoMessage Entry, !ProtoRoundTrip Entry, !ProtoEmpty Entry}.
Context `{!ProtoMessage RaftApplyState, !ProtoRoundTrip RaftApplyState}.
Context `{!ProtoMessage RaftCmdRequest, !ProtoRoundTrip RaftCmdRequest, !ProtoEmpty RaftCmdRequest}.
Context `{!DebugFmt Error}.
Context `{!DebugFmt BalanceOperationError, !DebugFmt AccountManagementError,
          !DebugFmt CommonError, !DebugFmt string}.
Context (region : Region) (capacity : nat) (C : gmap Z Entry).

Abbreviation wallet_parser := (parse_log_entry_to_prost : Entry → run (Z * list CommandPb)).

Lemma rpc_replies {Req Resp} `{!Default Resp, !WriteRpc Req Resp} (out : Outside) t (req : Req) l o reply :
  let c := from_payload (wr_payload req) t in
  mq_send_payload out (write_to_bytes c) = Ok (l, o) →
  wait_for_response out l o (command_command_id c) = Replies reply →
  wr_rpc out t req = Replies (rpc_response reply).
Proof. intros c Hmq Hw. rewrite wr_runs. fold c. rewrite Hmq, Hw. by destruct reply. Qed.

(** The response to an event of the type of the request is the one in the event. *)
Lemma rpc_response_event {Req Resp} `{!Default Resp, !WriteRpc Req Resp} t (req : Req) l o ev :
  let c := from_payload (wr_payload req) t in
  log_answer wallet_parser C l o c (Ok ev) →
  ∃ x, payload_of ev = Some (wr_event x) ∧
    rpc_response (Req:=Req) (Ok ev) = get_or_default (response x).
Proof.
  intros c Ha. apply log_answer_matches in Ha as [_ Ha]. apply wr_matches in Ha as [x Hx].
  exists x. split; [done|]. cbn. by rewrite (wr_get_event _ _ Hx).
Qed.

Hypothesis admissible : log_admissible wallet_parser C.
Hypothesis region_u64 : is_u64 (region_id region).

End whole_way.

(** ** The transfer of the first client *)

Module rpc_demo.
Import replication_demo.
Local Instance demo_debug A : DebugFmt A := λ _, "error"%string.
Local Existing Instance threads_demo.demo_time.

Definition proposal : Proposal :=
  {| pr_is_conf_change := false; pr_index := 6; pr_term := 6; pr_cb := cmd_callback built;
     pr_propose_time := None; pr_must_pass_epoch_check := true |}.
Definition msg : ApplyMsg :=
  {| apply_peer_id := 1; apply_region_id := 1; apply_term := 6;
     Apply.apply_entries := [entry]; apply_cbs := [proposal] |}.

Lemma applies_ok : tasks_ok apply_demo.d [msg].
Proof.
  constructor; [|constructor]. split; [done| | |done].
  - constructor; [done|done| |constructor].
    split; [done|done|done|]. intros _. exists (cmd_request built).
    split; [by apply parse_write|done].
  - apply cmds_match_take; [done|done|done|constructor].
Qed.

Definition returned {A} (r : run (list A)) : list A := match r with Returns l => l | Panics => [] end.
Definition answered : list Sent := returned (invoke_all (apply_many apply_demo.d [msg]).1.1).
Lemma applies_answered : invoke_all (apply_many apply_demo.d [msg]).1.1 = Returns answered.
Proof.
  unfold answered. destruct (invoke_all _) eqn:H; [done|].
  apply (f_equal (λ r, match r with Returns _ => true | Panics => false end)) in H. vm_compute in H. done.
Qed.

Lemma payloads_parse : Forall2 (λ c m, parse_from_bytes (cl_payload c) = Some m) clients demo_entry.
Proof. repeat constructor; apply parse_write. Qed.

Lemma poll_answers ctx' da' :
  poll_once (Msg_Apply <$> [msg]) apply_demo.c apply_demo.d = Returns (ctx', da') → ac_sent ctx' = answered.
Proof.
  intros H. apply (f_equal (λ r, match r with Returns (x, _) => ac_sent x | Panics => [] end)) in H.
  rewrite <-H. vm_compute. reflexivity.
Qed.

(** The first client is told that its command is at offset 0 of the entry at 6. *)
Definition first_client : Client := client 1 node_demo.command.
Lemma first_position resp :
  SentResponse 1 resp ∈ answered →
  (send_payload "canceled" demo.region 1 (cl_payload first_client) 1).2 (Some resp) = Returns (Ok (6, 0)).
Proof.
  assert (Forall (λ x, match x with
    | SentResponse 1 resp =>
        (send_payload "canceled" demo.region 1 (cl_payload first_client) 1).2 (Some resp) = Returns (Ok (6, 0))
    | _ => True end) answered) as Hall by (vm_compute; repeat constructor).
  intros Hin. rewrite list.Forall_forall in Hall. by apply Hall in Hin.
Qed.
End rpc_demo.

Local Existing Instance rpc_demo.demo_debug.
Local Existing Instance threads_demo.demo_time.

