(* ===== verification/StartUp.v ===== *)
(** * The start of the wallet service: start_up.rs and main.rs

    One process holds a store of the raft cluster, the state machine with its apply loop, the
    message broker and the services; all of it comes from the environment and three databases. *)

From Stdlib Require Import Ascii String.
From stdpp Require Import pretty functions.
From S2P Require Import Prelude Bytes Keys Proto Raftpb Errors RefDecimal BalanceCalculator Account.
From S2P Require Import RocksEngine EngineOpen RefRocks RefCodec RaftLog PeerStorage StorageSpec.
From S2P Require Import RaftCmd Batch Apply Peer RaftNode Node RaftClient Internal RocksDBState.
From S2P Require Import MessageBroker MessageQueue LogConsumer StateMachine Wallet Ledger Durability.
From S2P Require Import Correctness Config Scenarios Replication Time Replica EndToEnd Server.
Local Open Scope Z_scope.

Section start_up.
Context {BD : BigDecimal} {R : RocksDB} {RN : RawNode} {V6 : Ipv6Text} {S : Servers}.
Context `{!ProtoMessage AccountPb, !ProtoMessage EventPb}.
Context `{!ProtoMessage Entry, !ProtoMessage RaftLocalState, !ProtoMessage RaftApplyState}.
Context `{!ProtoMessage RegionLocalState, !ProtoMessage StoreIdent, !ProtoMessage RaftCmdRequest}.
Context {P : Type} {RO : RocksOpen P} (dir : string → string) (db_of : P → DB).

(** [RocksDBState::init]. *)
Definition rocksdb_state_init (env : Env) (fs : FileSystem (P:=P)) : run (DB * FileSystem (P:=P)) :=
  db_path ← unwrap (env "wallet_db_path"%string);
  open_db dir db_of [] db_path fs.

(** The batch size of [ApplyContext::new]. *)
Definition env_batch_size (env : Env) : run Z :=
  unwrap (parse_u64 (default "100"%string (env "batch_size"%string))).

(** What runs once [start_wallet] waits for signals. *)
Record WalletProcess := {
  wp_tikv : TiKVServer;
  wp_node : WalletNode;
  wp_gc : option EventLogGCConfig;
  wp_config : WalletServiceConfig }.

(** [start_wallet] up to [wait_for_signal]; the last three services are those that are
    created over the [WalletService]. *)
Definition start_wallet (env : Env) (fs : FileSystem) (now : Z) (cfg : Config)
    (tikv_service balance internal account : GService) : run (FileSystem * WalletProcess) :=
  let c := cluster_config cfg in
  s ← tikv_init env (cluster_id c) (cluster_size c) (store_id c);
  '(fs, s) ← init_engines dir db_of env fs s;
  s ← tikv_init_servers now tikv_service s;
  rust_assert (tk_storage s) (
    '(d, fs) ← rocksdb_state_init env fs;
    batch ← env_batch_size env;
    node ← node_start d batch now;
    s ← tikv_register_service balance s;
    s ← tikv_register_service internal s;
    s ← tikv_register_service account s;
    s ← run_server s;
    s ← run_status_server env s;
    Returns (fs, {| wp_tikv := s; wp_node := node;
                    wp_gc := match event_log_gc_setting cfg with
                             | Enabled config => Some config
                             | Disabled => None
                             end;
                    wp_config := wallet_service_config cfg |})).

Definition main (env : Env) (fs : FileSystem) (now : Z)
    (tikv_service balance internal account : GService) : run (FileSystem * WalletProcess) :=
  cfg ← Config_default env;
  start_wallet env fs now cfg tikv_service balance internal account.
End start_up.

(** ** The first start *)

Section first_start.
Context {BD : BigDecimal} {BDL : BigDecimalLaws BD} {R : RocksDB} {RL : RocksDBLaws R} {RN : RawNode}.
Context {V6 : Ipv6Text} {S : Servers} {SL : ServersLaws S}.
Context `{!ProtoMessage AccountPb, !ProtoMessage EventPb}.
Context `{!ProtoRoundTrip AccountPb, !ProtoRoundTrip EventPb}.
Context `{!ProtoMessage Entry, !ProtoMessage RaftLocalState, !ProtoMessage RaftApplyState}.
Context `{!ProtoMessage RegionLocalState, !ProtoMessage StoreIdent, !ProtoMessage RaftCmdRequest}.
Context `{!ProtoRoundTrip Entry, !ProtoRoundTrip RaftLocalState, !ProtoRoundTrip RaftApplyState}.
Context `{!ProtoRoundTrip RegionLocalState, !ProtoRoundTrip StoreIdent, !ProtoEmpty Entry}.
Context {P : Type} {RO : RocksOpen P} (dir : string → string) (db_of : P → DB).

(** A database that was just created holds nothing. *)
Definition created_empty : Prop := ∀ cfs p p' cf k,
  db_exist (at_path p) = false → new_engine cfs p = Returns p' → cf = CF_DEFAULT ∨ cf ∈ cfs →
  db_get (db_of p') cf k = None.

(** Nothing lies at a path yet. *)
Definition unused (fs : FileSystem (P:=P)) (path : string) : Prop :=
  db_exist (at_path (fs_files fs (dir path))) = false ∧
  at_path (fs_files fs (dir path)) ≠ NotADirectory.

(** The environment of a node whose address is [host:port], and its three paths. *)
Record setting (env : Env) (fs : FileSystem (P:=P)) (cfg : Config) (raft_db kv_db wallet_db host : string)
    (p batch : Z) (status : SocketAddr) : Prop := {
  set_config : Config_default env = Returns cfg;
  set_store : 1 ≤ store_id (cluster_config cfg) ≤ cluster_size (cluster_config cfg);
  set_peers i : 1 ≤ i ≤ cluster_size (cluster_config cfg) → is_Some (env ("peer_" +:+ pretty i));
  set_address : env ("peer_" +:+ pretty (store_id (cluster_config cfg))) =
    Some (host +:+ ":" +:+ pretty p);
  set_host : (":"%char ∉ list_ascii_of_string host) ∧ host ≠ ""%string;
  set_port : 0 ≤ p ≤ 65535;
  set_status : socket_addr_from_str (default "0.0.0.0:20211"%string
    (env ("status_address_" +:+ pretty (store_id (cluster_config cfg))))) = Some status;
  set_batch : env_batch_size env = Returns batch;
  set_raft_db : env "raft_db_path"%string = Some raft_db ∧ unused fs raft_db;
  set_kv_db : env "db_path"%string = Some kv_db ∧ unused fs kv_db;
  set_wallet_db : env "wallet_db_path"%string = Some wallet_db ∧ unused fs wallet_db;
  set_dirs : NoDup (dir <$> [raft_db; kv_db; wallet_db]);
  set_unlocked : fs_locked fs = [] }.

Definition locked_after (path : string) (p : P) (fs : FileSystem) : FileSystem :=
  {| fs_files := <[dir path := p]> (fs_files fs); fs_locked := dir path :: fs_locked fs |}.

Lemma open_unused cfs path fs :
  dir path ∉ fs_locked fs → unused fs path → NoDup cfs →
  ∃ p, new_engine cfs (fs_files fs (dir path)) = Returns p ∧
    open_db dir db_of cfs path fs = Returns (db_of p, locked_after path p fs).
Proof.
  intros Hl [Hex Hd] Hcfs. destruct (new_engine_creates cfs _ Hex Hd Hcfs) as (p & Hp & _).
  exists p. split; [done|]. unfold open_db. rewrite decide_False by done. by rewrite Hp.
Qed.
Lemma unused_after path path' p fs :
  dir path' ≠ dir path → unused fs path' → unused (locked_after path p fs) path'.
Proof. intros Hne. unfold unused. cbn. by rewrite fn_lookup_insert_ne by done. Qed.

(** The databases come up empty, in the order raft, store, wallet. *)
Lemma opened env fs cfg raft_db kv_db wallet_db host p batch status tk :
  created_empty → setting env fs cfg raft_db kv_db wallet_db host p batch status →
  ∃ rp kp fs1 d fs2,
    new_engine ALL_CFS (fs_files fs (dir raft_db)) = Returns rp ∧
    new_engine ALL_CFS (fs_files fs (dir kv_db)) = Returns kp ∧
    let e := {| kv := db_of kp; raft := db_of rp |} in
    init_engines dir db_of env fs tk = Returns (fs1,
      {| tk_cluster_id := tk_cluster_id tk; tk_cluster_size := tk_cluster_size tk;
         tk_store_id := tk_store_id tk; tk_storage := tk_storage tk; tk_system := tk_system tk;
         tk_resolver := tk_resolver tk; tk_engines := Some e;
         tk_servers := tk_servers tk; tk_status_server := tk_status_server tk |}) ∧
    fresh_disk e ∧
    rocksdb_state_init dir db_of env fs1 = Returns (d, fs2) ∧ ∀ k, db_get d CF_DEFAULT k = None.
Proof.
  intros Hempty Hset. destruct (set_raft_db _ _ _ _ _ _ _ _ _ _ Hset) as [Hr Hur].
  destruct (set_kv_db _ _ _ _ _ _ _ _ _ _ Hset) as [Hk Huk].
  destruct (set_wallet_db _ _ _ _ _ _ _ _ _ _ Hset) as [Hw Huw].
  pose proof (set_dirs _ _ _ _ _ _ _ _ _ _ Hset) as Hnd. cbn in Hnd.
  rewrite !list.NoDup_cons, !not_elem_of_cons in Hnd. destruct Hnd as ((? & ? & _) & (? & _) & _).
  assert (NoDup ALL_CFS) as Hcfs by (apply (bool_decide_unpack _); vm_compute; done).
  destruct (open_unused ALL_CFS raft_db fs) as (rp & Hrp & Hro);
    [rewrite (set_unlocked _ _ _ _ _ _ _ _ _ _ Hset); set_solver|done..|].
  set (fs0 := locked_after raft_db rp fs) in *.
  destruct (open_unused ALL_CFS kv_db fs0) as (kp & Hkp & Hko);
    [cbn; rewrite (set_unlocked _ _ _ _ _ _ _ _ _ _ Hset); set_solver|by apply unused_after|done|].
  set (fs1 := locked_after kv_db kp fs0) in *.
  destruct (open_unused [] wallet_db fs1) as (wp & Hwp & Hwo);
    [cbn; rewrite (set_unlocked _ _ _ _ _ _ _ _ _ _ Hset); set_solver| |constructor|].
  { by repeat apply unused_after. }
  cbn in Hkp, Hwp. rewrite fn_lookup_insert_ne in Hkp by done.
  rewrite !fn_lookup_insert_ne in Hwp by done.
  exists rp, kp, fs1, (db_of wp), (locked_after wallet_db wp fs1).
  split; [done|]. split; [done|]. cbn zeta. split_and!.
  - unfold init_engines. rewrite Hr. cbn [unwrap mbind run_bind]. rewrite Hro. cbn [mbind run_bind].
    rewrite Hk. cbn [unwrap mbind run_bind]. by rewrite Hko.
  - assert (∀ cf, cf = CF_DEFAULT ∨ cf ∈ ALL_CFS) as Hall
      by (intros []; unfold ALL_CFS; set_solver).
    split; cbn; intros; [eapply (Hempty _ _ kp)|eapply (Hempty _ _ kp)|eapply (Hempty _ _ rp)];
      eauto; [apply Huk..|apply Hur].
  - unfold rocksdb_state_init. by rewrite Hw.
  - intros k. destruct Huw. eapply Hempty; eauto.
Qed.

Lemma node_starts_empty d batch now :
  (∀ k, db_get d CF_DEFAULT k = None) → ∃ n, node_start d batch now = Returns n.
Proof.
  intros Hd. destruct (recover_spec d _ _ _ batch now (durable_empty d Hd)) as (st & Hr & _).
  unfold node_start. rewrite Hr. by eexists.
Qed.

Lemma config_collects env cfg :
  Config_default env = Returns cfg →
  match event_log_gc_setting cfg with Enabled config => Some config | Disabled => None end = None ↔
  gc_enabled env = false.
Proof.
  unfold Config_default. destruct (ClusterConfig_default env); [|done]. intros [= <-]. cbn.
  unfold EventLogGCSetting_default. by destruct (gc_enabled env).
Qed.

(** From the store to the end of the start. *)
Lemma start_serves env now s e e' nd st host p g status local svc1 svc2 svc3 svc4 :
  tk_engines s = Some e → tk_system s = true →
  init_servers now (node_init (tk_cluster_id s) (tk_cluster_size s) (tk_store_id s)) e
    = Returns (e', nd, st) →
  addrs (tk_resolver s) !! tk_store_id s = Some (host +:+ ":" +:+ pretty p) → 0 ≤ p ≤ 65535 →
  ":"%char ∉ list_ascii_of_string host → host ≠ ""%string →
  grpc_build "0.0.0.0" p [svc1; svc2; svc3; svc4] = Ok g →
  socket_addr_from_str (default "0.0.0.0:20211"%string
    (env ("status_address_" +:+ pretty (tk_store_id s)))) = Some status →
  http_bind status = Ok local →
  ∃ s1 s2 sv, tikv_init_servers now svc1 s = Returns s1 ∧ tk_storage s1 = true ∧
    (s ← tikv_register_service svc2 s1; s ← tikv_register_service svc3 s;
     s ← tikv_register_service svc4 s; s ← run_server s; run_status_server env s) = Returns s2 ∧
    tk_engines s2 = Some e' ∧ tk_servers s2 = Some (sv, nd, st) ∧
    sv_server sv = Some (grpc_start g) ∧
    grpc_serving (grpc_start g) = [svc1; svc2; svc3; svc4] ∧
    ip (sv_local_addr sv) = V4 0 0 0 0 ∧ (p ≠ 0 → port (sv_local_addr sv) = p) ∧
    tk_status_server s2 = Some {| ss_rx := false; ss_addr := Some local |}.
Proof.
  intros He Hsys Hinit Ha Hp Hhost Hne Hg Hst Hl.
  pose proof (tikv_init_servers_spec now svc1 s e e' nd st host p He Hsys Hinit Ha Hp Hhost Hne) as H1.
  match type of H1 with _ = Returns ?s => exists s end.
  do 3 (erewrite tikv_register_service_spec by done; cbn [mbind run_bind]).
  match goal with |- context [run_server ?s] => set (s1 := s) end.
  destruct (run_server_spec s1 _ nd st p g eq_refl eq_refl Hg) as (p' & Hrun & Hp' & Hserve).
  rewrite Hrun. cbn [mbind run_bind].
  match goal with |- context [run_status_server _ ?s] => set (s2 := s) end.
  destruct (run_status_server_spec env s2 status local Hst Hl) as (s3 & Hs3 & Hsv & Hen & Hss).
  rewrite Hs3. eexists s3, _. rewrite Hsv, Hen. by split_and!.
Qed.

(** C23. The first start of the wallet service.  With an environment that names the peers, three
    unused paths and a free port, [main] comes up: the raft store is bootstrapped and runs as
    the peer of this node, the state machine starts from an empty database, collection runs
    if it is enabled, and the server answers the raft service and the three services of
    the wallet, in the order of their registration, on the port of its own address in the
    configuration; from then on a registration panics. *)
Theorem wallet_first_start env fs now cfg raft_db kv_db wallet_db host p batch status local g
    (tikv_service balance internal account : GService) :
  created_empty → setting env fs cfg raft_db kv_db wallet_db host p batch status →
  let c := cluster_config cfg in
  let nd := node_init (cluster_id c) (cluster_size c) (store_id c) in
  (∀ rp kp s, new_engine ALL_CFS (fs_files fs (dir raft_db)) = Returns rp →
    new_engine ALL_CFS (fs_files fs (dir kv_db)) = Returns kp →
    let e := node_prepare_bootstrap_cluster (cluster_size c)
      (bootstrap_store {| kv := db_of kp; raft := db_of rp |} (cluster_id c) (store_id c)) in
    peer_storage_new e (node_region (cluster_size c)) (store_id c) = Returns s →
    raft_starts (store_id c) e s) →
  grpc_build "0.0.0.0" p [tikv_service; balance; internal; account] = Ok g →
  http_bind status = Ok local →
  ∃ fs' wp d e sv nd' st,
    main dir db_of env fs now tikv_service balance internal account = Returns (fs', wp) ∧
    tk_engines (wp_tikv wp) = Some e ∧ node_disk nd e ∧
    tk_servers (wp_tikv wp) = Some (sv, nd', st) ∧
    bootstrapped {| pt_engines := e; pt_storage := p_store (f_peer (st_fsm st)); pt_log := ∅;
                    pt_apply := initial_apply_state |} ∧
    p_peer (f_peer (st_fsm st)) = new_peer (store_id c) (store_id c) ∧
    st_apply st = from_registration (registration_of (f_peer (st_fsm st))) ∧
    (∀ k, db_get d CF_DEFAULT k = None) ∧ node_start d batch now = Returns (wp_node wp) ∧
    sv_server sv = Some (grpc_start g) ∧
    grpc_serving (grpc_start g) = [tikv_service; balance; internal; account] ∧
    ip (sv_local_addr sv) = V4 0 0 0 0 ∧ (p ≠ 0 → port (sv_local_addr sv) = p) ∧
    tk_status_server (wp_tikv wp) = Some {| ss_rx := false; ss_addr := Some local |} ∧
    (wp_gc wp = None ↔ gc_enabled env = false) ∧
    ∀ svc, tikv_register_service svc (wp_tikv wp) = Panics.
Proof.
  intros Hempty Hset c nd Hraft Hg Hl. pose proof Hset as [Hcfg Hid Hpeers Ha [Hh Hne] Hp Hst Hb _ _ _ _ _].
  fold c in Hid, Hpeers, Ha, Hst.
  destruct (read_peers_spec env (Z.to_nat (cluster_size c)) 1 {| addrs := ∅ |}) as (m & Hm & Haddr & _).
  { intros i Hi. apply Hpeers. lia. }
  rewrite <-(Haddr (store_id c)) in Ha by lia.
  set (tk := {| tk_cluster_id := cluster_id c; tk_cluster_size := cluster_size c;
    tk_store_id := store_id c; tk_storage := false; tk_system := true; tk_resolver := m;
    tk_engines := None; tk_servers := None; tk_status_server := None |}).
  destruct (opened env fs cfg raft_db kv_db wallet_db host p batch status tk Hempty Hset)
    as (rp & kp & fs1 & d & fs2 & Hrp & Hkp & Hinit & Hfresh & Hdb & Hd).
  match type of Hinit with _ = Returns (_, ?s) => set (tk1 := s) in * end.
  destruct (node_first_start now nd _ Hfresh Hid eq_refl) as (nd' & st & Hstart & Hdisk & Hboot & Hpeer & Happly).
  { intros s Hs. by apply (Hraft rp kp). }
  destruct (start_serves env now tk1 _ _ nd' st host p g status local _ _ _ _
    eq_refl eq_refl Hstart Ha Hp Hh Hne Hg Hst Hl)
    as (s1 & s2 & sv & Hs1 & Hstor & Hs2 & Hen & Hsrv & Hsg & Hserve & Hip & Hport & Hstatus).
  destruct (node_starts_empty d batch now Hd) as [n Hn].
  eexists fs2, {| wp_tikv := s2; wp_node := n |}, d, _, sv, nd', st.
  split.
  { unfold main, start_wallet, tikv_init. rewrite Hcfg. cbn [mbind run_bind]. fold c.
    rewrite Hm. cbn [mbind run_bind]. fold tk. rewrite Hinit. cbn [mbind run_bind]. rewrite Hs1.
    cbn [mbind run_bind]. rewrite Hstor. cbn [rust_assert]. rewrite Hdb. cbn [mbind run_bind].
    rewrite Hb. cbn [mbind run_bind]. rewrite Hn. cbn [mbind run_bind].
    do 4 (match type of Hs2 with mbind _ ?x = _ => destruct x; [|done] end;
      cbn [mbind run_bind] in Hs2 |- *).
    rewrite Hs2. reflexivity. }
  split_and!; [done..|by apply config_collects|]. intros svc. by eapply register_refused.
Qed.
End first_start.

(** ** A cluster of one node *)

Local Existing Instances server_demo.no_v6 server_demo.reference server_demo.reference_laws.

Module start_demo.

Definition variables : gmap string string := list_to_map
  [("cluster_id", "7"); ("cluster_size", "1"); ("store_id", "1"); ("peer_1", "node-1:20160");
   ("raft_db_path", "/raft"); ("db_path", "/kv"); ("wallet_db_path", "/wallet");
   ("batch_size", "10")]%string.
Definition env : Env := λ name, variables !! name.
Definition fs : FileSystem (P:=option (list CfName)) :=
  {| fs_files := λ _, None; fs_locked := [] |}.
Definition db_of (p : option (list CfName)) : DB (RocksDB:=RefRocks) := ref_empty.
Definition cfg : Config :=
  {| wallet_service_config := {| query_events_max_count := 1000 |};
     cluster_config := {| cluster_id := 7; cluster_size := 1; store_id := 1 |};
     event_log_gc_setting := Enabled (EventLogGCConfig_default env) |}.

Definition service (name : string) : GService (Servers:=server_demo.reference) := name.
Definition services : list GService := service <$> ["tikv"; "balance"; "internal"; "account"]%string.
Definition bound : GServer (Servers:=server_demo.reference) := ("0.0.0.0"%string, 20160, services, false).

Lemma databases_empty : created_empty db_of.
Proof. intros cfs p p' cf k _ _ _. by destruct cf. Qed.
Lemma first_setting : setting (λ s, s) env fs cfg "/raft" "/kv" "/wallet" "node-1" 20160 10 (any_address 20211).
Proof.
  split; try reflexivity; try (split; [reflexivity|by split]); cbn.
  - lia.
  - intros i Hi. assert (i = 1) as -> by lia. by eexists.
  - split; [|done]. apply (bool_decide_unpack _). vm_compute. done.
  - lia.
  - apply (bool_decide_unpack _). vm_compute. done.
Qed.
End start_demo.

Lemma wallet_first_start_witness :
  ∃ fs' wp, main (λ s, s) start_demo.db_of start_demo.env start_demo.fs 0 (start_demo.service "tikv")
    (start_demo.service "balance") (start_demo.service "internal") (start_demo.service "account")
    = Returns (fs', wp).
Proof.
  destruct (wallet_first_start (λ s, s) start_demo.db_of start_demo.env start_demo.fs 0
    start_demo.cfg "/raft" "/kv" "/wallet" "node-1" 20160 10 (any_address 20211) (any_address 20211)
    start_demo.bound (start_demo.service "tikv") (start_demo.service "balance")
    (start_demo.service "internal") (start_demo.service "account"))
    as (fs' & wp & _ & _ & _ & _ & _ & H & _).
  - apply start_demo.databases_empty.
  - apply start_demo.first_setting.
  - intros rp kp s _ _. apply node_demo.starts.
  - reflexivity.
  - reflexivity.
  - exists fs', wp. exact H.
Defined.
